(* ===== verification/_CoqProject ===== *)
-Q . S2P
Prelude.v
Raftpb.v
RateLimiter.v
Remote.v
ReadIndex.v
ReadIndexSpec.v
LogDB.v
Wire.v
WireSpec.v
EntryCodec.v
EntryCodecSpec.v
Codec.v
CodecSpec.v
MessageCodecSpec.v
Update.v
UpdateSpec.v
InMemory.v
LogReader.v
EntryLog.v
LogInv.v
LogWrite.v
RaftState.v
Raft.v
Samples.v
RaftFuel.v
RaftFrame.v
RaftSteps.v
RaftSafety.v
RaftLog.v
LogCycle.v
LogSpec.v
Quorum.v
ConfigChange.v
Peer.v
PeerSpec.v
Session.v
RsmMembership.v
Encoded.v
EncodedSpec.v
TaskQueue.v
Rsm.v
RsmSteps.v
RsmSessions.v
RsmSamples.v
RsmApply.v
RsmRecover.v
RsmWitness.v
Bytes.v
Key.v
KeySpec.v
Armadapb.v
Pebble.v
FsmQuery.v
FsmCommand.v
Fsm.v
FsmView.v
FsmRange.v
FsmRead.v
FsmSpec.v
FsmWrite.v
FsmCompare.v
FsmUpdate.v
FsmGC.v
FsmSweep.v
FsmStream.v
SnapshotFile.v
SnapshotLoad.v
FsmReplay.v
SnapshotRestore.v
FsmSamples.v
SnapshotSamples.v
SnapshotStore.v
SnapshotChoice.v
SnapshotCollect.v
MetaStore.v
MetaStoreSpec.v
MetaSamples.v
