(* ===== verification/Prelude.v ===== *)
(** * Armada: a verification library for the Armada key-value store

    Armada is a replicated key-value store written in Go: tables are replicated
    state machines driven by a multi-shard Raft library.  This library models the
    Raft library from the wire up to the application of committed entries, the state
    machine of a table on top of it and the snapshots tables are copied with, and
    proves what makes them correct.  Paths below are relative to [src/].

    ** How the parts work together

    A shard's replica is a [raft] struct ([raft/internal/raft]).  The engine feeds
    it messages and ticks through a [Peer]; the core changes its state, appends to
    its entry log and queues messages.  [Peer.GetUpdate] collects an [Update]: the
    entries to save, the messages to send, the committed entries to apply.  The host
    writes the update to the log database, sends the messages and queues the
    committed entries as a task for the state machine manager ([raft/internal/rsm]),
    then calls [Peer.Commit].  The manager applies the entries: configuration changes
    to the membership, session requests to the client sessions, updates to the
    user's state machine.  The state machine of a table ([storage/table/fsm]) keeps
    every version of a key as a row of a Pebble store, under the key followed by the
    inverted sequence number of the write: the newest version of a key comes first,
    a tombstone marks a deletion, and a collector removes versions below a horizon.
    A table is copied to another cluster as a file of commands, one per key, which a
    terminal marker ends ([replication/snapshot], [storage/table/manager.go]); such
    files are also kept in a shared bucket, from which a follower is offered the best
    one, and old ones are collected ([replication/store]).  Which tables there are, on
    which shards, and which node has leased one, is kept in a replicated store of
    versioned pairs ([storage/kv]).

    ** The model

    Go code is embedded shallowly.  A method that changes its receiver is an [M S A],
    a function from the state [S] to a value, an error with the state reached, or a
    panic; a method that only reads is a function, with a [result] if it can fail.
    A [uint64] is a [Z] with the wrap-around written out ([+ᵤ], [-ᵤ]); maps are
    stdpp's [gmap]; what Go leaves open (the order of [range] over a map, random
    numbers, the growth of slices) comes from a [GoRuntime], over which every theorem
    is quantified.  Interfaces of the code and third-party libraries are type classes,
    with a second class for what the code relies on and an instance to compute with.
    Locks and atomics only serialise the operations modelled here, so they are left
    out, and the components are sequential.

    ** The files

    - [Prelude]: integers, the monad and its weakest preconditions ([wp]), relations
      every execution preserves ([pres]), shared lemmas.
    - [Raftpb]: the data of [raft/raftpb] and the predicates on it.
    - [Wire], [EntryCodec], [Codec], [Update]: the codecs of [raft/raftpb], byte by
      byte; [WireSpec], [EntryCodecSpec], [CodecSpec], [MessageCodecSpec],
      [UpdateSpec]: decoding inverts encoding, within the sizes computed before.
    - [RateLimiter] ([raft/internal/server/rate.go]), [Remote] ([remote.go]),
      [ReadIndex] and [ReadIndexSpec] ([readindex.go]): the satellites of the core.
    - [LogDB], [LogReader]: the interfaces of the core and the view of the log
      database ([raft/logreader]); [InMemory], [EntryLog]: the log of a replica
      ([inmemory.go], [logentry.go]); [LogInv], [LogWrite], [LogSpec], [LogCycle]: its
      invariant [lwf], the log as one sequence, and what reading, appending, restoring,
      saving and applying do to that sequence.
    - [RaftState], [Raft]: the [raft] struct and every handler of [raft.go];
      [RaftFuel]: its recursion; [RaftFrame], [RaftSteps]: every call of [Handle] is a
      sequence of atomic protocol steps; [RaftSafety], [RaftLog], [Quorum],
      [ConfigChange]: safety on top of the steps; [Samples]: concrete replicas.
    - [Peer], [PeerSpec]: [peer.go] and the cycle of updates.
    - [Session], [RsmMembership], [Encoded], [EncodedSpec], [TaskQueue], [Rsm]: the
      state machine manager ([session.go], [sessionmanager.go], [lrusession.go],
      [membership.go], [encoded.go], [taskqueue.go], [statemachine.go], [managed.go],
      [adapter.go]); [RsmSteps], [RsmSessions], [RsmApply], [RsmRecover]: what it does
      with an entry, a batch, a task and a snapshot; [RsmSamples], [RsmWitness]: a
      counter, a node and a client to compute with.
    - [Bytes], [Key], [KeySpec]: the order of byte strings and the physical keys of
      [storage/table/key]; [Armadapb]: the messages of [proto/mvcc.proto]; [Pebble]:
      the store as the interface [PebbleLib] with its behaviour [PebbleSpec], and the
      options of [pebble/]; [FsmQuery], [FsmCommand], [Fsm]: the state machine of a
      table ([iter.go], [query.go], [tombstone.go]; [command.go] and the other
      [command_*.go]; [fsm.go], [fsm_gc.go]).
    - [FsmView], [FsmRange], [FsmRead]: the rows of a store as versions of keys, and
      what reading returns; [FsmSpec], [FsmWrite], [FsmUpdate]: the abstract table and
      the refinement of its commands; [FsmCompare]: what comparing a range compares; [FsmGC], [FsmSweep]: the garbage collection;
      [FsmStream]: the streams of snapshots; [FsmSamples]: small tables.
    - [SnapshotFile], [SnapshotLoad]: snapshot files, writing and reading them;
      [FsmReplay], [SnapshotRestore]: what the commands of a file do to the table that
      applies them, and a table copied through a file; [SnapshotSamples]: two tables and
      a file.
    - [SnapshotStore]: snapshots in shared storage ([meta.go], [query.go], [gc.go],
      [lease.go] and the chain of [exporter.go] in [replication/store],
      [replication/snapshot_query.go], [Query] of [armadaserver/replication.go],
      [negotiate] of [replication/worker.go]); [SnapshotChoice]: the artefact a follower
      recovers from; [SnapshotCollect]: the collection of old artefacts.
    - [MetaStore]: the metadata store ([map.go] and [raft.go] of [storage/kv]) and the
      operations of [storage/table/manager.go] on tables, shard ids and leases;
      [MetaStoreSpec]: versions, ids and leases; [MetaSamples]: a store to compute with.

    ** What is proved

    - Raft safety of one replica, for every message and every runtime: one vote per
      term, roles change only as the protocol allows, the commit index never moves
      back, committed entries never change, a leader only appends, entries are
      committed only when a quorum stores an entry of the current term, a candidate
      wins only with a quorum of votes, at most one configuration change is in flight,
      reads are released only after a quorum confirms the leader.
    - The log: appending, restoring and reading refine operations on one list of
      entries; the invariants hold after every message.
    - The peer: an update is sound, the cycle of updates neither loses nor repeats an
      entry, and it makes progress until nothing is left to do.
    - The state machine manager: committed entries are applied in order without a
      panic, an update of a client is executed at most once, batches are equivalent to
      single entries, recovery ends where the snapshot says; accepted membership
      changes keep the roles disjoint, keep a voter, remove the replicas they name for
      good, and any two majorities across a change intersect.
    - The codecs and the encoded payloads survive their round trips; the task queue is a
      first-in first-out queue.
    - A table: the physical keys sort by key and then from new to old and survive their
      round trip; a range query lists the live keys in order and in pages; applying
      entries refines the abstract map of keys and values, all or nothing; comparing a
      range compares the stored versions no tombstone hides; garbage
      collection changes no value, whatever the block filter hides and wherever it
      stops, and leaves one version below the horizon at most.
    - Snapshot files: reading one proposes its data in order and the marker last, and for
      any bytes and any failure the marker is proposed only after all the data.  A table
      read from a full snapshot has the keys and values of the table it was taken of, and
      one that was a copy at the base has them after an incremental snapshot, provided the
      horizon did not move past the base; a failure leaves the leader index as it was, or
      the copy complete.
    - Shared storage: a follower fetches exactly the best artefact it can apply, or a live
      snapshot when there is none; the collection keeps what recovery relies on and
      removes the rest.
    - The metadata store, shared by nodes that read stale states and whose proposals
      interleave: a shard id is handed out once, and a lease in force is neither taken
      over nor returned by another node.
    - Theorems on defects the modelling brought up: [MessageCodecSpec.messageCount_unchecked],
      [RsmRecover.openStopped_not_aborted], [TaskQueue.GetAll_returns_consumed],
      [SnapshotRestore.incremental_misses_change], [SnapshotCollect.marker_without_snapshot],
      [MetaStoreSpec.DeleteTable_sequence], [FsmCompare.range_compare_versions], with runs of
      them in [SnapshotSamples], [MetaSamples] and at the end of [FsmSamples].

    ** Fuel

    [Raft.Handle] ties the recursion of the tick handlers with two levels of fuel;
    [RaftFuel.Handle_recursion] shows the fixpoint equation and that more fuel changes
    nothing.  The count of pending configuration changes reads a batch of at least one
    entry each time round ([ConfigChange.pendingCountLoop_spec]).  The loops of the codecs use the length of the data plus one, or ten for a
    varint (a [uint64] has at most ten groups of seven bits); on encoded data they are
    shown not to run out, and on other data running out is the result [OutOfFuel],
    which [MessageCodecSpec.messageCount_unchecked] is about.  [Rsm.Handle] takes one task from the
    queue each time round, so the number of tasks is enough; [RsmApply.Handle_eq] shows
    it.  The loops over an iterator of a table move forward each time round: more fuel
    than the store has rows is enough, and the theorems ask for it; reading a snapshot
    file takes at least one byte per round.

    ** Not modelled

    - Goroutines, timers, channels and locks: [raft/engine.go], [raft/node.go],
      [raft/nodehost.go], [raft/request.go], and the network in [raft/transport].
    - File-system I/O: snapshot files ([raft/internal/rsm/rwv.go], [snapshotio.go],
      [raft/snapshotter.go]), the log database in [raft/tan], [vfs], the directories and
      the checkpoints of a table ([pebble/dir.go], [snapshot_checkpoint.go],
      [snapshot_snapshot.go] of [storage/table/fsm]).
    - Iterators of Pebble that fail halfway: the code does not ask for their error.  The
      collector's goroutine is a call of [Fsm.runGCSweep], and metrics are left out.
    - The table manager's reconciliation and recovery ([storage/table/manager.go],
      [recovery.go]) but for reading a snapshot, tables, ids and leases; the queries of the
      metadata store by pattern and path, which are [path.Match]; publishing and listing artefacts and the
      HTTP handler in [replication/store], which are files and JSON.
    - Saving sessions and snapshots in [raft/internal/rsm], which is JSON and streams.
    - The gossip view, the rest of the replication workers, servers and commands, which are glue
      around gRPC, memberlist and other third-party libraries.
    - Generated code ([armadapb], [raft/client/session.pb.go] but for its constants).
*)

From stdpp Require Export base numbers list gmap sorting strings.
From Stdlib Require Export ZArith Lia.
Open Scope Z_scope.

(** ** 64-bit unsigned arithmetic

    Go's [uint64] is a [Z] in [0, W64); every operation that can leave the
    range is followed by its wrap-around. *)
Declare Scope u64_scope.
Delimit Scope u64_scope with u64.

Abbreviation W64 := 18446744073709551616.

Definition u64 (x : Z) : Z := x mod W64.
Definition add64 (a b : Z) : Z := u64 (a + b).
Definition sub64 (a b : Z) : Z := u64 (a - b).

Infix "+ᵤ" := add64 (at level 50, left associativity) : u64_scope.
Infix "-ᵤ" := sub64 (at level 50, left associativity) : u64_scope.
Open Scope u64_scope.

Definition is_u64 (x : Z) : Prop := 0 <= x < W64.

(** [lia] extended with the wrap-around of the 64-bit operations. *)
Ltac lia64 :=
  unfold is_u64, add64, sub64, u64 in *; Z.div_mod_to_equations; lia.

Lemma add64_small a b : 0 <= a + b < W64 -> a +ᵤ b = a + b.
Proof. lia64. Qed.

Lemma sub64_small a b : 0 <= a - b < W64 -> a -ᵤ b = a - b.
Proof. lia64. Qed.

Lemma is_u64_add64 a b : is_u64 (a +ᵤ b).
Proof. lia64. Qed.

Lemma is_u64_sub64 a b : is_u64 (a -ᵤ b).
Proof. lia64. Qed.

(** ** Errors, panics and the two effect monads

    A read-only method is a [result]: a value, a returned Go error, or a
    panic.  A method with a receiver it mutates is an [M S]: on a returned
    error the mutations made so far stay in place, as they do in Go; a panic
    terminates the process, so no state follows it. *)
Inductive error : Type :=
| ErrCompacted
| ErrUnavailable
| ErrSnapshotOutOfDate
| ErrMsg (msg : string)
| ErrOther (code : Z).

Inductive panic : Type :=
| PanicMsg (msg : string)
| IndexOutOfRange
| NilDereference
| DivideByZero
| OutOfFuel.

#[export] Instance error_eq_dec : EqDecision error.
Proof. solve_decision. Defined.
#[export] Instance panic_eq_dec : EqDecision panic.
Proof. solve_decision. Defined.

Inductive result (A : Type) : Type :=
| OK (a : A)
| ERR (e : error)
| PANIC (p : panic).
Arguments OK {A} a.
Arguments ERR {A} e.
Arguments PANIC {A} p.

#[export] Instance result_ret : MRet result := fun A a => OK a.
#[export] Instance result_bind : MBind result := fun A B k c =>
  match c with OK a => k a | ERR e => ERR e | PANIC p => PANIC p end.

Inductive outcome (S A : Type) : Type :=
| Ret (a : A) (s : S)
| Err (e : error) (s : S)
| Panic (p : panic).
Arguments Ret {S A} a s.
Arguments Err {S A} e s.
Arguments Panic {S A} p.

Definition M (S A : Type) : Type := S -> outcome S A.

#[export] Instance M_ret {S} : MRet (M S) := fun A a s => Ret a s.
#[export] Instance M_bind {S} : MBind (M S) := fun A B k c s =>
  match c s with
  | Ret a s' => k a s'
  | Err e s' => Err e s'
  | Panic p => Panic p
  end.

Definition ret {S A} (a : A) : M S A := fun s => Ret a s.
Definition skip {S} : M S unit := ret tt.
Definition fail {S A} (e : error) : M S A := fun s => Err e s.
Definition panic_ {S A} (p : panic) : M S A := fun _ => Panic p.
Definition panicf {S A} (msg : string) : M S A := panic_ (PanicMsg msg).
Definition get {S} : M S S := fun s => Ret s s.
Definition gets {S A} (f : S -> A) : M S A := fun s => Ret (f s) s.
Definition modify {S} (f : S -> S) : M S unit := fun s => Ret tt (f s).
Definition when {S} (b : bool) (c : M S unit) : M S unit := if b then c else skip.

(** A read-only method run on the current state. *)
Definition readr {S A} (f : S -> result A) : M S A := fun s =>
  match f s with OK a => Ret a s | ERR e => Err e s | PANIC p => Panic p end.

(** Inspecting the returned error, as [if err != nil] does. *)
Definition try_ {S A} (c : M S A) : M S (A + error) := fun s =>
  match c s with
  | Ret a s' => Ret (inl a) s'
  | Err e s' => Ret (inr e) s'
  | Panic p => Panic p
  end.

(** Running a method of an embedded struct. *)
Definition zoom {S T A} (g : S -> T) (put : T -> S -> S) (c : M T A) : M S A :=
  fun s => match c (g s) with
           | Ret a t => Ret a (put t s)
           | Err e t => Err e (put t s)
           | Panic p => Panic p
           end.

Fixpoint forM_ {S X} (l : list X) (f : X -> M S unit) : M S unit :=
  match l with
  | [] => skip
  | x :: l => f x ;; forM_ l f
  end.

(** ** Weakest preconditions

    [wp X c Q E s]: running [c] from [s] ends in a value satisfying [Q], in
    an error satisfying [E], or in a panic allowed by [X]. *)
Definition wp {S A} (X : panic -> Prop) (c : M S A)
    (Q : A -> S -> Prop) (E : error -> S -> Prop) (s : S) : Prop :=
  match c s with
  | Ret a s' => Q a s'
  | Err e s' => E e s'
  | Panic p => X p
  end.

Definition any_panic : panic -> Prop := fun _ => True.
Definition no_panic : panic -> Prop := fun _ => False.

Section wp.
Context {S : Type} (X : panic -> Prop).

Lemma wp_mono {A} (c : M S A) (Q Q' : A -> S -> Prop) (E E' : error -> S -> Prop) s :
  wp X c Q E s ->
  (forall a s', Q a s' -> Q' a s') -> (forall e s', E e s' -> E' e s') ->
  wp X c Q' E' s.
Proof. unfold wp. destruct (c s); auto. Qed.

Lemma wp_bind {A B} (c : M S A) (k : A -> M S B) Q E s :
  wp X c (fun a => wp X (k a) Q E) E s -> wp X (c ≫= k) Q E s.
Proof. unfold wp, mbind, M_bind. by destruct (c s). Qed.

Lemma wp_ret {A} (a : A) (Q : A -> S -> Prop) E s : Q a s -> wp X (ret a) Q E s.
Proof. done. Qed.

Lemma wp_modify (f : S -> S) (Q : unit -> S -> Prop) E s :
  Q tt (f s) -> wp X (modify f) Q E s.
Proof. done. Qed.

Lemma wp_gets {A} (f : S -> A) (Q : A -> S -> Prop) E s :
  Q (f s) s -> wp X (gets f) Q E s.
Proof. done. Qed.

Lemma wp_when b (c : M S unit) Q E s :
  (b = true -> wp X c Q E s) -> (b = false -> Q tt s) -> wp X (when b c) Q E s.
Proof. intros H1 H2. destruct b; [by apply H1 | by apply H2]. Qed.

Lemma wp_readr {A} (f : S -> result A) (Q : A -> S -> Prop) (E : error -> S -> Prop) s :
  match f s with OK a => Q a s | ERR e => E e s | PANIC p => X p end ->
  wp X (readr f) Q E s.
Proof. unfold wp, readr. by destruct (f s). Qed.

Lemma wp_try {A} (c : M S A) Q E s :
  wp X c (fun a => Q (inl a)) (fun e => Q (inr e)) s -> wp X (try_ c) Q E s.
Proof. unfold wp, try_. by destruct (c s). Qed.

Lemma wp_zoom {T A} (g : S -> T) (put : T -> S -> S) (c : M T A) Q E s :
  wp X c (fun a t => Q a (put t s)) (fun e t => E e (put t s)) (g s) ->
  wp X (zoom g put c) Q E s.
Proof. unfold wp, zoom. by destruct (c (g s)). Qed.

Lemma wp_forM {Y} (l : list Y) (f : Y -> M S unit) (I : S -> Prop) E s :
  I s ->
  (forall y s', y ∈ l -> I s' -> wp X (f y) (fun _ => I) E s') ->
  wp X (forM_ l f) (fun _ => I) E s.
Proof.
  revert s. induction l as [|y l IH]; intros s Hs Hf; simpl; [done|].
  apply wp_bind. eapply wp_mono; [apply Hf; [constructor|done] | | done].
  intros [] s' Hs'. apply IH; [done|]. intros. apply Hf; [by constructor|done].
Qed.
End wp.

(** ** Relations every execution preserves

    [pres R c]: whatever [c] does, short of panicking, its final state is
    [R]-related to the initial one.  For a preorder [R] the rules below are
    compositional and the tactic [pres] applies them. *)
Definition pres {S A} (R : S -> S -> Prop) (c : M S A) : Prop :=
  forall s, wp any_panic c (fun _ s' => R s s') (fun _ s' => R s s') s.

Section pres.
Context {S : Type} (R : S -> S -> Prop) `{!PreOrder R}.

Lemma pres_ret {A} (a : A) : pres R (ret a).
Proof. intros s. unfold wp, ret. reflexivity. Qed.
Lemma pres_mret {A} (a : A) : pres R (mret a).
Proof. intros s. unfold wp, mret, M_ret. reflexivity. Qed.
Lemma pres_skip : pres R skip.
Proof. apply pres_ret. Qed.
Lemma pres_fail {A} e : pres R (@fail S A e).
Proof. intros s. unfold wp, fail. reflexivity. Qed.
Lemma pres_panic {A} p : pres R (@panic_ S A p).
Proof. intros s. exact I. Qed.
Lemma pres_panicf {A} m : pres R (@panicf S A m).
Proof. intros s. exact I. Qed.
Lemma pres_get : pres R get.
Proof. intros s. unfold wp, get. reflexivity. Qed.
Lemma pres_gets {A} (f : S -> A) : pres R (gets f).
Proof. intros s. unfold wp, gets. reflexivity. Qed.
Lemma pres_readr {A} (f : S -> result A) : pres R (readr f).
Proof. intros s. unfold wp, readr. destruct (f s); [reflexivity..|exact I]. Qed.
Lemma pres_bind {A B} (c : M S A) (k : A -> M S B) :
  pres R c -> (forall a, pres R (k a)) -> pres R (c ≫= k).
Proof.
  intros Hc Hk s. apply wp_bind. eapply wp_mono; [apply Hc| |done].
  intros a s' Hs. eapply wp_mono; [apply Hk|..]; simpl; intros;
    (etrans; [exact Hs|done]).
Qed.
Lemma pres_modify f : (forall s, R s (f s)) -> pres R (modify f).
Proof. intros H s. apply H. Qed.
Lemma pres_when b c : pres R c -> pres R (when b c).
Proof. destruct b; simpl; auto using pres_skip. Qed.
Lemma pres_try {A} (c : M S A) : pres R c -> pres R (try_ c).
Proof. intros H s. apply wp_try, H. Qed.
Lemma pres_forM {Y} (l : list Y) f : (forall y, pres R (f y)) -> pres R (forM_ l f).
Proof.
  intros Hf. induction l as [|y l IH]; simpl; [apply pres_skip|].
  apply pres_bind; [apply Hf|auto].
Qed.
Lemma pres_zoom {T A} (g : S -> T) (put : T -> S -> S) (c : M T A) (RT : T -> T -> Prop) :
  pres RT c -> (forall s t, RT (g s) t -> R s (put t s)) -> pres R (zoom g put c).
Proof. intros Hc HR s. apply wp_zoom. eapply wp_mono; [apply Hc|..]; simpl; auto. Qed.
End pres.

Lemma pres_weaken {S A} (R R' : S -> S -> Prop) (c : M S A) :
  pres R c -> (forall s s', R s s' -> R' s s') -> pres R' c.
Proof. intros H HR s. eapply wp_mono; [apply H|..]; simpl; auto. Qed.

Lemma pres_wp {S A} (R : S -> S -> Prop) (c : M S A) Q E s :
  pres R c -> (forall a s', R s s' -> Q a s') -> (forall e s', R s s' -> E e s') ->
  wp any_panic c Q E s.
Proof. intros H HQ HE. eapply wp_mono; [apply H|..]; simpl; auto. Qed.

(** The same with a precondition [I] and, on normal return, a postcondition
    [J]. *)
Definition tri {S A} (I J : S -> Prop) (R : S -> S -> Prop) (c : M S A) : Prop :=
  forall s, I s -> wp any_panic c (fun _ s' => J s' /\ R s s') (fun _ s' => R s s') s.

Section tri.
Context {S : Type} (R : S -> S -> Prop) `{!PreOrder R}.

Lemma tri_bind {A B} (I J K : S -> Prop) (c : M S A) (k : A -> M S B) :
  tri I J R c -> (forall a, tri J K R (k a)) -> tri I K R (c ≫= k).
Proof.
  intros Hc Hk s Hs. apply wp_bind. eapply wp_mono; [by apply Hc| |done].
  intros a s' [HJ HR]. eapply wp_mono; [by apply Hk|..]; simpl.
  - intros b s'' [HK HR']. split; [done|]. etrans; [exact HR|done].
  - intros e s'' HR'. etrans; [exact HR|done].
Qed.
Lemma tri_pres {A} (I J : S -> Prop) (c : M S A) :
  pres R c -> (forall s s', R s s' -> I s -> J s') -> tri I J R c.
Proof. intros Hc HI s Hs. eapply pres_wp; [done|..]; naive_solver. Qed.
Lemma tri_weaken {A} (I I' J J' : S -> Prop) (c : M S A) :
  tri I J R c -> (forall s, I' s -> I s) -> (forall s, J s -> J' s) -> tri I' J' R c.
Proof. intros Hc HI HJ s Hs. eapply wp_mono; [apply Hc; auto|..]; naive_solver. Qed.
Lemma tri_get_bind {B} (I K : S -> Prop) (k : S -> M S B) :
  (forall s, tri (fun s' => s' = s /\ I s) K R (k s)) -> tri I K R (get ≫= k).
Proof. intros Hk s Hs. apply wp_bind. apply (Hk s). done. Qed.
Lemma tri_when (I : S -> Prop) b c : tri I I R c -> tri I I R (when b c).
Proof. destruct b; [done|]. intros _ s Hs. split; [done|reflexivity]. Qed.
End tri.

Create HintDb pres discriminated.

(** One rule of the [pres] calculus, chosen by the shape of the program. *)
Ltac pres_step :=
  lazymatch goal with
  | |- forall _, _ => intro
  | |- pres _ (let x := ?e in _) => cbv zeta
  | |- pres _ (mbind _ _) => apply pres_bind
  | |- pres _ (ret _) => apply pres_ret
  | |- pres _ (mret _) => apply pres_mret
  | |- pres _ skip => apply pres_skip
  | |- pres _ (fail _) => apply pres_fail
  | |- pres _ (panic_ _) => apply pres_panic
  | |- pres _ (panicf _) => apply pres_panicf
  | |- pres _ get => apply pres_get
  | |- pres _ (gets _) => apply pres_gets
  | |- pres _ (readr _) => apply pres_readr
  | |- pres _ (when _ _) => apply pres_when
  | |- pres _ (try_ _) => apply pres_try
  | |- pres _ (forM_ _ _) => apply pres_forM
  | |- pres _ (match ?x with _ => _ end) => destruct x eqn:?
  | |- PreOrder _ => typeclasses eauto
  | |- pres _ _ => first [assumption | solve [eauto with pres]]
  end.
Ltac pres := repeat pres_step.

(** ** Record setters

    [set_field (eta r) (proj r) v] is [r] with the projection [proj]
    replaced by [v], where [eta] rebuilds the record from its projections. *)
Ltac set_field eta_r old v :=
  let e := eval red in eta_r in
  lazymatch eval pattern old in e with
  | ?F _ => let e' := eval cbv beta in (F v) in exact e'
  end.

(** ** Lists indexed by [Z] *)
Definition len {A} (l : list A) : Z := Z.of_nat (length l).
Definition nthZ {A} (l : list A) (i : Z) : option A :=
  if decide (0 <= i) then l !! Z.to_nat i else None.
Definition takeZ {A} (i : Z) (l : list A) : list A := take (Z.to_nat i) l.
Definition dropZ {A} (i : Z) (l : list A) : list A := drop (Z.to_nat i) l.
