(* ===== verification/Raftpb.v ===== *)
(** * The Raft wire types

    The data of [raft/raftpb]: message, entry and configuration-change types,
    log entries, snapshots, persistent state, messages, and the [Update] that
    the Raft core hands to its caller, with the predicates the Raft core uses
    on them ([raftpb/raft.go], [raftpb/entry.go]).  A Go struct literal that
    names some fields is the zero value with those fields set. *)
From S2P Require Import Prelude.
From Stdlib Require Import Strings.Byte.

Module pb.

Abbreviation bytes := (list byte).

(** The enumerations are Go [int32]s; a number without a name, which only a
    decoder can produce, is kept as [OtherMessage n] and the like. *)
Inductive MessageType : Type :=
| LocalTick | Election | LeaderHeartbeat | ConfigChangeEvent | NoOP | Ping | Pong
| Propose | SnapshotStatus | Unreachable | CheckQuorum | BatchedReadIndex
| Replicate | ReplicateResp | RequestVote | RequestVoteResp | InstallSnapshot
| Heartbeat | HeartbeatResp | ReadIndex | ReadIndexResp | Quiesce
| SnapshotReceived | LeaderTransfer | TimeoutNow | RateLimit | RequestPreVote
| RequestPreVoteResp | LogQuery | OtherMessage (n : Z).

Inductive EntryType : Type :=
| ApplicationEntry | ConfigChangeEntry | EncodedEntry | MetadataEntry | OtherEntry (n : Z).

Inductive StateMachineType : Type :=
| UnknownStateMachine | RegularStateMachine | ConcurrentStateMachine
| OnDiskStateMachine | OtherStateMachine (n : Z).

(** Whether the number of a message type indexes the tables of the core. *)
Definition isNamed (t : MessageType) : bool :=
  match t with OtherMessage _ => false | _ => true end.

(** [ConfigChangeType] travels as a number in [Message.HintHigh]. *)
Definition AddNode : Z := 0.
Definition RemoveNode : Z := 1.
Definition AddNonVoting : Z := 2.
Definition AddWitness : Z := 3.

Record Entry : Type := mkEntry {
  e_Term : Z;
  e_Index : Z;
  e_Type : EntryType;
  e_Key : Z;
  e_ClientID : Z;
  e_SeriesID : Z;
  e_RespondedTo : Z;
  e_Cmd : bytes
}.

Record Membership : Type := mkMembership {
  mb_ConfigChangeId : Z;
  mb_Addresses : gmap Z string;
  mb_Removed : gmap Z bool;
  mb_NonVotings : gmap Z string;
  mb_Witnesses : gmap Z string
}.

Record SnapshotFile : Type := mkSnapshotFile {
  sf_Filepath : string;
  sf_FileSize : Z;
  sf_FileId : Z;
  sf_Metadata : bytes
}.

(** The reference count and the compactor, which are not marshalled, are left
    out. *)
Record Snapshot : Type := mkSnapshot {
  ss_Filepath : string;
  ss_FileSize : Z;
  ss_Index : Z;
  ss_Term : Z;
  ss_Membership : Membership;
  ss_Files : list SnapshotFile;
  ss_Checksum : bytes;
  ss_Dummy : bool;
  ss_ShardID : Z;
  ss_Type : StateMachineType;
  ss_Imported : bool;
  ss_OnDiskIndex : Z;
  ss_Witness : bool
}.

Record State : Type := mkState {
  st_Term : Z;
  st_Vote : Z;
  st_Commit : Z
}.

Record Message : Type := mkMessage {
  m_Type : MessageType;
  m_To : Z;
  m_From : Z;
  m_ShardID : Z;
  m_Term : Z;
  m_LogTerm : Z;
  m_LogIndex : Z;
  m_Commit : Z;
  m_Reject : bool;
  m_Hint : Z;
  m_Entries : list Entry;
  m_Snapshot : Snapshot;
  m_HintHigh : Z
}.

Record SystemCtx : Type := mkSystemCtx { Low : Z; High : Z }.

Record ReadyToRead : Type := mkReadyToRead {
  rr_Index : Z;
  rr_SystemCtx : SystemCtx
}.

Record LeaderUpdate : Type := mkLeaderUpdate { lu_LeaderID : Z; lu_Term : Z }.

Record LogQueryResult : Type := mkLogQueryResult {
  lq_FirstIndex : Z;
  lq_LastIndex : Z;
  lq_Error : option error;
  lq_Entries : list Entry
}.

Record UpdateCommit : Type := mkUpdateCommit {
  uc_Processed : Z;
  uc_LastApplied : Z;
  uc_StableLogTo : Z;
  uc_StableLogTerm : Z;
  uc_StableSnapshotTo : Z;
  uc_ReadyToRead : Z
}.

(** *** Decidable equality *)

#[global] Instance MessageType_eq_dec : EqDecision MessageType.
Proof. solve_decision. Defined.
#[global] Instance EntryType_eq_dec : EqDecision EntryType.
Proof. solve_decision. Defined.
#[global] Instance StateMachineType_eq_dec : EqDecision StateMachineType.
Proof. solve_decision. Defined.
#[global] Instance byte_eq_dec' : EqDecision byte := Byte.byte_eq_dec.
#[global] Instance Entry_eq_dec : EqDecision Entry.
Proof. solve_decision. Defined.
#[global] Instance Membership_eq_dec : EqDecision Membership.
Proof. solve_decision. Defined.
#[global] Instance SnapshotFile_eq_dec : EqDecision SnapshotFile.
Proof. solve_decision. Defined.
#[global] Instance Snapshot_eq_dec : EqDecision Snapshot.
Proof. solve_decision. Defined.
#[global] Instance State_eq_dec : EqDecision State.
Proof. solve_decision. Defined.
#[global] Instance Message_eq_dec : EqDecision Message.
Proof. solve_decision. Defined.
#[global] Instance SystemCtx_eq_dec : EqDecision SystemCtx.
Proof. solve_decision. Defined.
#[global] Instance SystemCtx_countable : Countable SystemCtx.
Proof.
  apply (inj_countable' (fun c => (Low c, High c)) (fun p => mkSystemCtx p.1 p.2)).
  by intros [].
Defined.

(** *** Zero values and struct literals *)

Definition zeroEntry : Entry := mkEntry 0 0 ApplicationEntry 0 0 0 0 [].
Definition zeroMembership : Membership := mkMembership 0 ∅ ∅ ∅ ∅.
Definition zeroSnapshot : Snapshot :=
  mkSnapshot "" 0 0 0 zeroMembership [] [] false 0 UnknownStateMachine false 0 false.
Definition emptyState : State := mkState 0 0 0.
Definition zeroCtx : SystemCtx := mkSystemCtx 0 0.

(** [pb.Message{Type: t}] *)
Definition msg (t : MessageType) : Message :=
  mkMessage t 0 0 0 0 0 0 0 false 0 [] zeroSnapshot 0.

Definition Message_eta (m : Message) : Message :=
  mkMessage (m_Type m) (m_To m) (m_From m) (m_ShardID m) (m_Term m) (m_LogTerm m)
    (m_LogIndex m) (m_Commit m) (m_Reject m) (m_Hint m) (m_Entries m)
    (m_Snapshot m) (m_HintHigh m).
Definition set_To (v : Z) (m : Message) : Message :=
  ltac:(set_field (Message_eta m) (m_To m) v).
Definition set_From (v : Z) (m : Message) : Message :=
  ltac:(set_field (Message_eta m) (m_From m) v).
Definition set_ShardID (v : Z) (m : Message) : Message :=
  ltac:(set_field (Message_eta m) (m_ShardID m) v).
Definition set_Term (v : Z) (m : Message) : Message :=
  ltac:(set_field (Message_eta m) (m_Term m) v).
Definition set_LogTerm (v : Z) (m : Message) : Message :=
  ltac:(set_field (Message_eta m) (m_LogTerm m) v).
Definition set_LogIndex (v : Z) (m : Message) : Message :=
  ltac:(set_field (Message_eta m) (m_LogIndex m) v).
Definition set_Commit (v : Z) (m : Message) : Message :=
  ltac:(set_field (Message_eta m) (m_Commit m) v).
Definition set_Reject (v : bool) (m : Message) : Message :=
  ltac:(set_field (Message_eta m) (m_Reject m) v).
Definition set_Hint (v : Z) (m : Message) : Message :=
  ltac:(set_field (Message_eta m) (m_Hint m) v).
Definition set_Entries (v : list Entry) (m : Message) : Message :=
  ltac:(set_field (Message_eta m) (m_Entries m) v).
Definition set_Snapshot (v : Snapshot) (m : Message) : Message :=
  ltac:(set_field (Message_eta m) (m_Snapshot m) v).
Definition set_HintHigh (v : Z) (m : Message) : Message :=
  ltac:(set_field (Message_eta m) (m_HintHigh m) v).

(** [pb.Entry{Type: t, Term: tm, Index: i}] *)
Definition entry (t : EntryType) (tm i : Z) : Entry := mkEntry tm i t 0 0 0 0 [].
Definition stamp (tm i : Z) (e : Entry) : Entry :=
  mkEntry tm i (e_Type e) (e_Key e) (e_ClientID e) (e_SeriesID e) (e_RespondedTo e)
    (e_Cmd e).

(** *** Predicates of [raftpb/raft.go] *)

Definition isStateEqual (a b : State) : bool :=
  (st_Term a =? st_Term b) && (st_Vote a =? st_Vote b) && (st_Commit a =? st_Commit b).
Definition IsEmptyState (st : State) : bool := isStateEqual st emptyState.
Definition IsEmptySnapshot (s : Snapshot) : bool := ss_Index s =? 0.

Definition IsProposal (m : Entry) : bool :=
  bool_decide (e_Type m = ApplicationEntry) || bool_decide (e_Type m = EncodedEntry)
  || bool_decide (e_Type m = MetadataEntry).
Definition IsConfigChange (m : Entry) : bool := bool_decide (e_Type m = ConfigChangeEntry).

(** Session constants of [raft/client/session.pb.go]. *)
Definition NotSessionManagedClientID : Z := 0.
Definition NoOPSeriesID : Z := 0.
Definition SeriesIDForRegister : Z := W64 - 2.
Definition SeriesIDForUnregister : Z := W64 - 1.

Definition IsSessionManaged (m : Entry) : bool :=
  if IsConfigChange m then false
  else if e_ClientID m =? NotSessionManagedClientID then false else true.
Definition IsEmpty (m : Entry) : bool :=
  if IsConfigChange m then false
  else if IsSessionManaged m then false else len (e_Cmd m) =? 0.
Definition IsNoOPSession (m : Entry) : bool := e_SeriesID m =? NoOPSeriesID.
Definition IsNewSessionRequest (m : Entry) : bool :=
  negb (IsConfigChange m) && (len (e_Cmd m) =? 0)
  && negb (e_ClientID m =? NotSessionManagedClientID)
  && (e_SeriesID m =? SeriesIDForRegister).
Definition IsEndOfSessionRequest (m : Entry) : bool :=
  negb (IsConfigChange m) && (len (e_Cmd m) =? 0)
  && negb (e_ClientID m =? NotSessionManagedClientID)
  && (e_SeriesID m =? SeriesIDForUnregister).
Definition IsUpdateEntry (m : Entry) : bool :=
  negb (IsConfigChange m) && IsSessionManaged m
  && negb (IsNewSessionRequest m) && negb (IsEndOfSessionRequest m).

(** [settings.EntryNonCmdFieldsSize]; a Go [int], so the sum is signed. *)
Definition EntryNonCmdFieldsSize : Z := 16 * 8.
Definition SizeUpperLimit (m : Entry) : Z := EntryNonCmdFieldsSize + len (e_Cmd m).

Definition GetEntrySliceSize (ents : list Entry) : Z :=
  fold_left (fun sz e => sz +ᵤ SizeUpperLimit e) ents 0.

(** [unsafe.Sizeof(pb.Entry{})] on a 64-bit platform: seven words and the
    three words of the [Cmd] slice header. *)
Definition entryStructSize : Z := 80.
Definition GetEntrySliceInMemSize (ents : list Entry) : Z :=
  fold_left (fun sz e => sz +ᵤ len (e_Cmd e) +ᵤ entryStructSize) ents 0.

Definition CanDrop (m : Message) : bool :=
  bool_decide (m_Type m <> InstallSnapshot) && bool_decide (m_Type m <> Unreachable)
  && bool_decide (m_Type m <> SnapshotStatus).

(** [raftpb/entry.go]: the suffix of [entries] not yet applied. *)
Definition EntriesToApply (entries : list Entry) (applied : Z) (strict : bool)
    : result (list Entry) :=
  match entries, last entries with
  | first :: _, Some lst =>
      let lastIndex := e_Index lst in
      let firstIndex := e_Index first in
      if lastIndex <=? applied then
        if strict then PANIC (PanicMsg "got entries older than current state") else OK []
      else if (applied +ᵤ 1) <? firstIndex then PANIC (PanicMsg "entry hole found")
      else if (applied -ᵤ firstIndex +ᵤ 1) <? len entries
           then OK (dropZ (applied -ᵤ firstIndex +ᵤ 1) entries)
           else OK []
  | _, _ => OK entries
  end.

End pb.
