(* ===== verification/RateLimiter.v ===== *)
(** * In-memory log size limiter

    [raft/internal/server/rate.go]: the byte counter of the in-memory log and
    the limiter that combines it with the sizes followers report.  The atomic
    counter is used by one goroutine per shard and is a plain field here. *)
From S2P Require Import Prelude.

Module server.

Definition gcTick : Z := 3.
Definition ChangeTickThreashold : Z := 10.

Record followerState : Type := mkFollowerState {
  fs_tick : Z;
  fs_inMemLogSize : Z
}.

Record RateLimiter : Type := mkRateLimiter { rl_size : Z; rl_maxSize : Z }.

Record InMemRateLimiter : Type := mkInMemRateLimiter {
  followerSizes : gmap Z followerState;
  rl : RateLimiter;
  tick : Z;
  tickLimited : Z;
  limited : bool
}.

#[global] Instance followerState_eq_dec : EqDecision followerState.
Proof. solve_decision. Defined.

(** Go's [^x] on a [uint64]. *)
Definition not64 (x : Z) : Z := u64 (Z.lnot x).

(** ** [RateLimiter] *)

Definition NewRateLimiter (max : Z) : RateLimiter := mkRateLimiter 0 max.
Definition RateLimiter_Enabled (r : RateLimiter) : bool :=
  (0 <? rl_maxSize r) && negb (rl_maxSize r =? W64 - 1).
Definition RateLimiter_Increase (sz : Z) (r : RateLimiter) : RateLimiter :=
  mkRateLimiter (rl_size r +ᵤ sz) (rl_maxSize r).
Definition RateLimiter_Decrease (sz : Z) (r : RateLimiter) : RateLimiter :=
  mkRateLimiter (rl_size r +ᵤ not64 (sz -ᵤ 1)) (rl_maxSize r).
Definition RateLimiter_Set (sz : Z) (r : RateLimiter) : RateLimiter :=
  mkRateLimiter sz (rl_maxSize r).
Definition RateLimiter_Get (r : RateLimiter) : Z := rl_size r.
Definition RateLimiter_RateLimited (r : RateLimiter) : bool :=
  if negb (RateLimiter_Enabled r) then false else rl_maxSize r <? RateLimiter_Get r.

(** ** [InMemRateLimiter] *)

Definition NewInMemRateLimiter (maxSize : Z) : InMemRateLimiter :=
  mkInMemRateLimiter ∅ (mkRateLimiter 0 maxSize) 1 0 false.

Definition set_rl (f : RateLimiter -> RateLimiter) (r : InMemRateLimiter) :=
  mkInMemRateLimiter (followerSizes r) (f (rl r)) (tick r) (tickLimited r) (limited r).
Definition set_followerSizes v (r : InMemRateLimiter) :=
  mkInMemRateLimiter v (rl r) (tick r) (tickLimited r) (limited r).

Definition Enabled (r : InMemRateLimiter) : bool := RateLimiter_Enabled (rl r).
Definition Tick (r : InMemRateLimiter) : InMemRateLimiter :=
  mkInMemRateLimiter (followerSizes r) (rl r) (tick r +ᵤ 1) (tickLimited r) (limited r).
Definition GetTick (r : InMemRateLimiter) : Z := tick r.
Definition Increase (sz : Z) : InMemRateLimiter -> InMemRateLimiter :=
  set_rl (RateLimiter_Increase sz).
Definition Decrease (sz : Z) : InMemRateLimiter -> InMemRateLimiter :=
  set_rl (RateLimiter_Decrease sz).
Definition Set_ (sz : Z) : InMemRateLimiter -> InMemRateLimiter :=
  set_rl (RateLimiter_Set sz).
Definition Get (r : InMemRateLimiter) : Z := RateLimiter_Get (rl r).
Definition Reset_ (r : InMemRateLimiter) : InMemRateLimiter := set_followerSizes ∅ r.
Definition SetFollowerState (replicaID sz : Z) (r : InMemRateLimiter) : InMemRateLimiter :=
  set_followerSizes (<[replicaID := mkFollowerState (tick r) sz]> (followerSizes r)) r.

Definition stale (r : InMemRateLimiter) (v : followerState) : bool :=
  gcTick <? (tick r -ᵤ fs_tick v).

Definition gc (r : InMemRateLimiter) : InMemRateLimiter :=
  set_followerSizes (filter (fun kv => stale r kv.2 = false) (followerSizes r)) r.

(** The loop over [followerSizes]: the flag asking for a [gc] and the largest
    size a non-stale follower reported.  Neither depends on the map's
    iteration order. *)
Definition scanFollowers (r : InMemRateLimiter) : bool * Z :=
  fold_left (fun '(g, mx) v =>
      if stale r v then (true, mx)
      else (g, if mx <? fs_inMemLogSize v then fs_inMemLogSize v else mx))
    (map_to_list (followerSizes r)).*2 (false, 0).

Definition limitedByInMemSize : M InMemRateLimiter bool :=
  r ← get;
  if negb (Enabled r) then ret false
  else
    let '(g, mx) := scanFollowers r in
    let sz := Get r in
    let maxInMemSize := if mx <? sz then sz else mx in
    when g (modify gc) ;;
    if negb (limited r) then ret (rl_maxSize (rl r) <? maxInMemSize)
    else ret (u64 (rl_maxSize (rl r) * 7) `div` 10 <=? maxInMemSize).

Definition setLimited (b : bool) (r : InMemRateLimiter) : InMemRateLimiter :=
  mkInMemRateLimiter (followerSizes r) (rl r) (tick r) (tick r) b.

Definition RateLimited : M InMemRateLimiter bool :=
  l ← limitedByInMemSize;
  r ← get;
  when (negb (eqb l (limited r))
        && ((tickLimited r =? 0) || (ChangeTickThreashold <? (tick r -ᵤ tickLimited r))))
    (modify (setLimited l)) ;;
  gets limited.

(** ** Properties *)

(** The two's-complement trick of [Decrease] is subtraction modulo [2^64]. *)
Lemma Decrease_spec (sz : Z) (r : RateLimiter) :
  is_u64 sz -> RateLimiter_Decrease sz r = mkRateLimiter (rl_size r -ᵤ sz) (rl_maxSize r).
Proof.
  intros Hsz. unfold RateLimiter_Decrease, not64, Z.lnot. f_equal. lia64.
Qed.

(** C34: the byte counter is exact: releasing the size that was just added brings
    it back, whatever wraps around in between. *)
Theorem RateLimiter_balanced (sz : Z) (r : RateLimiter) :
  is_u64 sz -> is_u64 (rl_size r) ->
  RateLimiter_Decrease sz (RateLimiter_Increase sz r) = r.
Proof.
  intros Hsz Hr. rewrite Decrease_spec by done. destruct r as [s m]. simpl in *. f_equal. lia64.
Qed.

Lemma RateLimiter_balanced_witness :
  RateLimiter_Decrease 100 (RateLimiter_Increase 100 (mkRateLimiter (W64 - 1) 7))
    = mkRateLimiter (W64 - 1) 7.
Proof. apply (RateLimiter_balanced 100); by vm_compute. Defined.

(** The largest in-memory log size reported by a live follower. *)
Lemma scan_max r l g mx :
  let res := fold_left (fun '(g, mx) v =>
      if stale r v then (true, mx)
      else (g, if mx <? fs_inMemLogSize v then fs_inMemLogSize v else mx)) l (g, mx) in
  mx <= res.2 /\
  (forall v, v ∈ l -> stale r v = false -> fs_inMemLogSize v <= res.2) /\
  (res.2 = mx \/ exists v, v ∈ l /\ stale r v = false /\ res.2 = fs_inMemLogSize v).
Proof.
  revert g mx. induction l as [|v l IH]; intros g mx; cbv zeta.
  { simpl. split_and!; [lia|by intros v Hv%not_elem_of_nil|by left]. }
  simpl. destruct (stale r v) eqn:Hst.
  - destruct (IH true mx) as (H1 & H2 & H3). split_and!; [done|..].
    + intros v' [->|Hv']%elem_of_cons Hs; [congruence|by apply H2].
    + destruct H3 as [|(v' & ? & ?)]; [by left|]. right. exists v'. split; [|done].
      apply elem_of_cons. by right.
  - destruct (IH g (if mx <? fs_inMemLogSize v then fs_inMemLogSize v else mx)) as (H1 & H2 & H3).
    destruct (Z.ltb_spec mx (fs_inMemLogSize v)); split_and!; try lia.
    + intros v' [->|Hv']%elem_of_cons Hs; [lia|by apply H2].
    + right. destruct H3 as [->|(v' & ? & ?)]; [exists v|exists v'];
        (split; [apply elem_of_cons; auto|done]).
    + intros v' [->|Hv']%elem_of_cons Hs; [lia|by apply H2].
    + destruct H3 as [|(v' & ? & ?)]; [by left|]. right. exists v'.
      split; [apply elem_of_cons; by right|done].
Qed.

(** The size that counts: the local log or the largest live follower. *)
Definition worst (r : InMemRateLimiter) : Z := Z.max (Get r) (scanFollowers r).2.

Lemma limitedByInMemSize_spec r :
  exists r', limitedByInMemSize r = Ret (Enabled r &&
      (if limited r then u64 (rl_maxSize (rl r) * 7) `div` 10 <=? worst r
       else rl_maxSize (rl r) <? worst r)) r' /\
    limited r' = limited r /\ tickLimited r' = tickLimited r /\ tick r' = tick r.
Proof.
  unfold limitedByInMemSize, worst, mbind, M_bind, get, when.
  destruct (Enabled r); [|by exists r]. cbn [negb andb].
  destruct (scanFollowers r) as [g mx]. cbn [snd].
  replace (if mx <? Get r then Get r else mx) with (Z.max (Get r) mx)
    by (destruct (Z.ltb_spec mx (Get r)); lia).
  exists (if g then gc r else r). split; [|by destruct g].
  unfold modify, skip, ret. destruct g; by destruct (limited r).
Qed.

(** Rate limiting has hysteresis: the flag changes at most once every ten
    ticks, it is raised only when the largest log size (the local one or a live
    follower's) exceeds the maximum, and dropped only once that size is below
    seventy percent of it. *)
Theorem RateLimited_hysteresis r :
  exists b r', RateLimited r = Ret b r' /\ b = limited r' /\
    (limited r' = limited r -> tickLimited r' = tickLimited r) /\
    (limited r' <> limited r ->
       (tickLimited r = 0 \/ ChangeTickThreashold < tick r -ᵤ tickLimited r) /\
       tickLimited r' = tick r /\
       (limited r' = true -> Enabled r = true /\ rl_maxSize (rl r) < worst r) /\
       (limited r' = false -> Enabled r = true ->
          worst r < u64 (rl_maxSize (rl r) * 7) `div` 10)).
Proof.
  destruct (limitedByInMemSize_spec r) as (r1 & Hl & E1 & E2 & E3).
  unfold RateLimited, mbind, M_bind, get, gets, when. rewrite Hl. rewrite E1, E2, E3.
  set (l := Enabled r && _). destruct (negb (eqb l (limited r)) && _) eqn:Hc.
  - apply andb_true_iff in Hc as [Hne%negb_true_iff%eqb_false_iff Ht].
    rewrite orb_true_iff, Z.eqb_eq, Z.ltb_lt in Ht.
    exists l, (setLimited l r1). unfold modify. simpl. rewrite E3.
    split_and!; [done|done|congruence|]. intros _. split_and!; [done|done|..].
    + intros Hlt. assert (limited r = false) as Hlr by (destruct (limited r); congruence).
      unfold l in Hlt. rewrite Hlr, andb_true_iff in Hlt. destruct Hlt as [He Hw].
      split; [done|]. by apply Z.ltb_lt.
    + intros Hlf He. assert (limited r = true) as Hlr by (destruct (limited r); congruence).
      unfold l in Hlf. rewrite He, Hlr in Hlf. by apply Z.leb_gt.
  - exists (limited r), r1. unfold skip, ret. rewrite E1. split_and!; done.
Qed.

End server.
