(* ===== verification/Remote.v ===== *)
(** * Replication progress of a remote replica

    [raft/internal/raft/remote.go]: the leader's view of one peer and the flow
    control state machine Retry / Wait / Replicate / Snapshot. *)
From S2P Require Import Prelude.

Module remote.

Record snapshotAck : Type := mkSnapshotAck { ctick : Z; rejected : bool }.

Inductive remoteStateType : Type :=
| remoteRetry | remoteWait | remoteReplicate | remoteSnapshot.

Record remote : Type := mkRemote {
  match_ : Z;
  next : Z;
  snapshotIndex : Z;
  state : remoteStateType;
  active : bool;
  delayed : snapshotAck
}.

#[global] Instance remoteStateType_eq_dec : EqDecision remoteStateType.
Proof. solve_decision. Defined.
#[global] Instance snapshotAck_eq_dec : EqDecision snapshotAck.
Proof. solve_decision. Defined.
#[global] Instance remote_eq_dec : EqDecision remote.
Proof. solve_decision. Defined.

Definition remote_eta (r : remote) : remote :=
  mkRemote (match_ r) (next r) (snapshotIndex r) (state r) (active r) (delayed r).
Definition set_match (v : Z) (r : remote) : remote :=
  ltac:(set_field (remote_eta r) (match_ r) v).
Definition set_next (v : Z) (r : remote) : remote :=
  ltac:(set_field (remote_eta r) (next r) v).
Definition set_snapshotIndex (v : Z) (r : remote) : remote :=
  ltac:(set_field (remote_eta r) (snapshotIndex r) v).
Definition set_state (v : remoteStateType) (r : remote) : remote :=
  ltac:(set_field (remote_eta r) (state r) v).
Definition set_active (v : bool) (r : remote) : remote :=
  ltac:(set_field (remote_eta r) (active r) v).
Definition set_delayed (v : snapshotAck) (r : remote) : remote :=
  ltac:(set_field (remote_eta r) (delayed r) v).

(** [&remote{next: n}] and [&remote{next: n, match: m}] *)
Definition newRemote (m n : Z) : remote :=
  mkRemote m n 0 remoteRetry false (mkSnapshotAck 0 false).

(** [(a *snapshotAck) tick()]: the new counter and whether it just expired. *)
Definition ack_tick (a : snapshotAck) : snapshotAck * bool :=
  if 0 <? ctick a then
    let c := ctick a -ᵤ 1 in (mkSnapshotAck c (rejected a), c =? 0)
  else (a, false).

Definition clearSnapshotAck (r : remote) : remote := set_delayed (mkSnapshotAck 0 false) r.

Definition setSnapshotAck (tick : Z) (rej : bool) : M remote unit :=
  r ← get;
  if decide (state r = remoteSnapshot)
  then modify (set_delayed (mkSnapshotAck tick rej))
  else panicf "setting snapshot ack when not in snapshot state".

Definition reset (r : remote) : remote := set_snapshotIndex 0 r.

Definition becomeRetry (r : remote) : remote :=
  let r := if decide (state r = remoteSnapshot)
           then set_next (Z.max (match_ r +ᵤ 1) (snapshotIndex r +ᵤ 1)) r
           else set_next (match_ r +ᵤ 1) r in
  set_state remoteRetry (reset r).

Definition retryToWait (r : remote) : remote :=
  if decide (state r = remoteRetry) then set_state remoteWait r else r.
Definition waitToRetry (r : remote) : remote :=
  if decide (state r = remoteWait) then set_state remoteRetry r else r.

Definition becomeWait (r : remote) : remote :=
  retryToWait (becomeRetry (clearSnapshotAck r)).

Definition becomeReplicate (r : remote) : remote :=
  set_state remoteReplicate (reset (set_next (match_ r +ᵤ 1) r)).

Definition becomeSnapshot (index : Z) (r : remote) : remote :=
  set_state remoteSnapshot (set_snapshotIndex index (reset r)).

Definition clearPendingSnapshot (r : remote) : remote := set_snapshotIndex 0 r.

Definition tryUpdate (index : Z) (r : remote) : remote * bool :=
  let r := if next r <? (index +ᵤ 1) then set_next (index +ᵤ 1) r else r in
  if match_ r <? index then (set_match index (waitToRetry r), true) else (r, false).

Definition progress (lastIndex : Z) : M remote unit :=
  r ← get;
  match state r with
  | remoteReplicate => modify (set_next (lastIndex +ᵤ 1))
  | remoteRetry => modify retryToWait
  | _ => panicf "unexpected remote state"
  end.

Definition respondedTo (r : remote) : remote :=
  match state r with
  | remoteRetry => becomeReplicate r
  | remoteSnapshot => if snapshotIndex r <=? match_ r then becomeRetry r else r
  | _ => r
  end.

Definition decreaseTo (rej last : Z) (r : remote) : remote * bool :=
  if decide (state r = remoteReplicate) then
    if rej <=? match_ r then (r, false)
    else (set_next (match_ r +ᵤ 1) r, true)
  else if negb ((next r -ᵤ 1) =? rej) then (r, false)
  else (set_next (Z.max 1 (Z.min rej (last +ᵤ 1))) (waitToRetry r), true).

Definition isPaused (r : remote) : bool :=
  match state r with
  | remoteRetry => false
  | remoteWait => true
  | remoteReplicate => false
  | remoteSnapshot => true
  end.

Definition isActive (r : remote) : bool := active r.
Definition setActive (r : remote) : remote := set_active true r.
Definition setNotActive (r : remote) : remote := set_active false r.

(** ** Properties *)

(** Indexes below the last 64-bit value; the next index to send is at least 1,
    and past the match index while entries are streamed. *)
Definition ok (r : remote) : Prop :=
  0 <= match_ r /\ match_ r + 1 < W64 /\ 1 <= next r < W64 /\
  0 <= snapshotIndex r /\ snapshotIndex r + 1 < W64 /\
  (state r = remoteReplicate -> match_ r < next r).

(** An index a remote may report or be sent. *)
Definition fits (i : Z) : Prop := 0 <= i /\ i + 1 < W64.

(** The leader's updates of a remote. *)
Inductive rstep (r : remote) : remote -> Prop :=
| r_clearAck : rstep r (clearSnapshotAck r)
| r_setAck t b r' : setSnapshotAck t b r = Ret tt r' -> rstep r r'
| r_becomeRetry : rstep r (becomeRetry r)
| r_becomeWait : rstep r (becomeWait r)
| r_becomeReplicate : rstep r (becomeReplicate r)
| r_becomeSnapshot i : fits i -> rstep r (becomeSnapshot i r)
| r_clearPending : rstep r (clearPendingSnapshot r)
| r_waitToRetry : rstep r (waitToRetry r)
| r_retryToWait : rstep r (retryToWait r)
| r_tryUpdate i : fits i -> rstep r (tryUpdate i r).1
| r_progress i r' : fits i -> next r <= i -> progress i r = Ret tt r' -> rstep r r'
| r_respondedTo : rstep r (respondedTo r)
| r_decreaseTo rej hint : fits rej -> fits hint -> rstep r (decreaseTo rej hint r).1
| r_setActive b : rstep r (set_active b r).

(** [r'] is still [ok] and its match index did not move back. *)
Definition kept (r r' : remote) : Prop := ok r' /\ match_ r <= match_ r'.

Lemma becomeRetry_kept r : ok r -> kept r (becomeRetry r).
Proof.
  intros (H1 & H2 & H3 & H4 & H5 & H6). unfold becomeRetry, reset, kept, ok.
  destruct (decide _); simpl; rewrite !add64_small by lia; split_and!; try lia; done.
Qed.
Lemma becomeReplicate_kept r : ok r -> kept r (becomeReplicate r).
Proof.
  intros (H1 & H2 & H3 & H4 & H5 & H6). unfold becomeReplicate, reset, kept, ok.
  simpl. rewrite add64_small by lia. split_and!; try lia; done.
Qed.
Lemma waitToRetry_kept r : ok r -> kept r (waitToRetry r).
Proof.
  intros Hr. unfold waitToRetry. destruct (decide _); [|by split].
  destruct Hr as (?&?&?&?&?&?). unfold kept, ok. simpl. split_and!; try lia; done.
Qed.
Lemma retryToWait_kept r : ok r -> kept r (retryToWait r).
Proof.
  intros Hr. unfold retryToWait. destruct (decide _); [|by split].
  destruct Hr as (?&?&?&?&?&?). unfold kept, ok. simpl. split_and!; try lia; done.
Qed.
Lemma tryUpdate_kept i r : fits i -> ok r -> kept r (tryUpdate i r).1.
Proof.
  intros [??] (H1 & H2 & H3 & H4 & H5 & H6). unfold tryUpdate, waitToRetry, kept, ok.
  rewrite add64_small by lia.
  destruct (Z.ltb_spec (next r) (i + 1)), (Z.ltb_spec (match_ r) i) as [|]; simpl;
    rewrite ?(proj2 (Z.ltb_lt (match_ r) i)), ?(proj2 (Z.ltb_ge (match_ r) i)) by lia;
    try (destruct (decide _)); simpl; split_and!; try lia; intros; try done; specialize (H6 ltac:(done)); lia.
Qed.
Lemma progress_kept i r r' :
  fits i -> next r <= i -> ok r -> progress i r = Ret tt r' -> kept r r'.
Proof.
  intros [??] Hn Hr. pose proof (retryToWait_kept r Hr) as Hk.
  destruct Hr as (H1 & H2 & H3 & H4 & H5 & H6).
  unfold progress, mbind, M_bind, get, modify.
  destruct (state r) eqn:Hst; intros; simplify_eq; [done|].
  specialize (H6 eq_refl). unfold kept, ok. simpl. rewrite add64_small by lia.
  split_and!; lia.
Qed.
Lemma respondedTo_kept r : ok r -> kept r (respondedTo r).
Proof.
  intros Hr. unfold respondedTo. destruct (state r); [by apply becomeReplicate_kept|by split..|].
  destruct (_ <=? _); [by apply becomeRetry_kept|by split].
Qed.
Lemma decreaseTo_kept rej hint r : fits rej -> fits hint -> ok r -> kept r (decreaseTo rej hint r).1.
Proof.
  intros [R1 R2] [R3 R4] Hr. unfold decreaseTo. destruct (decide _) as [Hs|Hs].
  - destruct (_ <=? _); [by split|]. destruct Hr as (H1 & H2 & H3 & H4 & H5 & H6).
    unfold kept, ok. simpl. rewrite add64_small by lia. split_and!; lia.
  - destruct (negb _); [by split|].
    destruct (waitToRetry_kept r Hr) as [(H1 & H2 & H3 & H4 & H5 & H6) H7].
    assert (state (waitToRetry r) <> remoteReplicate) as Hn.
    { unfold waitToRetry. by destruct (decide _). }
    unfold kept, ok. simpl. rewrite add64_small by lia. split_and!; try lia. done.
Qed.

(** C33: whatever a leader does to a remote, its match index never moves back, the
    next index to send stays at least 1, and in the replicating state it stays
    ahead of the match index. *)
Theorem rstep_ok (r r' : remote) : ok r -> rstep r r' -> ok r' /\ match_ r <= match_ r'.
Proof.
  intros Hr Hs. fold (kept r r').
  assert (forall f, (f = clearSnapshotAck \/ f = clearPendingSnapshot \/
    exists b, f = set_active b) -> kept r (f r)) as Hf.
  { intros f Hf. destruct Hr as (H1 & H2 & H3 & H4 & H5 & H6).
    destruct Hf as [->|[->|[b ->]]]; unfold kept, ok; simpl; split_and!; done || lia. }
  destruct Hs as [|t b r' Ha| | | |i Hi| | | |i Hi|i r' Hi Hn Hp| |rej hint Hrej Hh|b];
    eauto using becomeRetry_kept, becomeReplicate_kept, waitToRetry_kept, retryToWait_kept,
      tryUpdate_kept, progress_kept, respondedTo_kept, decreaseTo_kept.
  - unfold setSnapshotAck, mbind, M_bind, get, modify in Ha. destruct (decide _); [|done].
    simplify_eq. destruct Hr as (?&?&?&?&?&?). unfold kept, ok. simpl. split_and!; done || lia.
  - assert (ok (clearSnapshotAck r)) as Hc by (apply Hf; auto).
    destruct (becomeRetry_kept _ Hc) as [Hb ?]. destruct (retryToWait_kept _ Hb) as [? ?].
    split; [done|]. etrans; [|done]. done.
  - destruct Hi, Hr as (?&?&?&?&?&?). unfold kept, ok, becomeSnapshot. simpl. split_and!; done || lia.
Qed.

Lemma rstep_ok_witness :
  ok (tryUpdate 7 (newRemote 3 4)).1 /\ 3 <= match_ (tryUpdate 7 (newRemote 3 4)).1.
Proof.
  apply (rstep_ok (newRemote 3 4)).
  - by vm_compute.
  - apply r_tryUpdate. by vm_compute.
Defined.

End remote.
