(* ===== verification/ReadIndex.v ===== *)
(** * The ReadIndex protocol

    [raft/internal/raft/readindex.go]: the queue of read requests waiting for
    a quorum to confirm the leadership under which they were received.  The
    [pending] map holds pointers to [readStatus] values; a status has one
    owner, the map, until [confirm] hands it out and deletes it. *)
From S2P Require Import Prelude Raftpb.

Module readIndex.

Record readStatus : Type := mkReadStatus {
  confirmed : gset Z;
  ctx : pb.SystemCtx;
  index : Z;
  from : Z
}.

Record readIndex : Type := mkReadIndex {
  pending : gmap pb.SystemCtx readStatus;
  queue : list pb.SystemCtx
}.

#[global] Instance readStatus_eq_dec : EqDecision readStatus.
Proof. solve_decision. Defined.

Definition newReadIndex : readIndex := mkReadIndex ∅ [].

Definition set_pending v (r : readIndex) : readIndex := mkReadIndex v (queue r).
Definition set_queue v (r : readIndex) : readIndex := mkReadIndex (pending r) v.

Definition hasPendingRequest (r : readIndex) : bool := 0 <? len (queue r).

Definition peepCtx (r : readIndex) : result pb.SystemCtx :=
  match last (queue r) with Some c => OK c | None => PANIC IndexOutOfRange end.

Definition addRequest (idx : Z) (c : pb.SystemCtx) (frm : Z) : M readIndex unit :=
  r ← get;
  match pending r !! c with
  | Some _ => skip
  | None =>
      (if 0 <? len (queue r) then
         pc ← readr peepCtx;
         match pending r !! pc with
         | None => panicf "inconsistent pending and queue"
         | Some p =>
             if idx <? index p then panicf "index moved backward in readIndex" else skip
         end
       else skip) ;;
      modify (set_queue (queue r ++ [c])) ;;
      modify (fun r => set_pending (<[c := mkReadStatus ∅ c idx frm]> (pending r)) r)
  end.

(** The loop of [confirm] over the queue: the statuses collected up to and
    including [c] and the rest of the queue, or [None] when [c] is not in the
    queue. *)
Fixpoint collect (pend : gmap pb.SystemCtx readStatus) (c : pb.SystemCtx)
    (q : list pb.SystemCtx) (cs : list readStatus)
    : result (option (list readStatus * readStatus * list pb.SystemCtx)) :=
  match q with
  | [] => OK None
  | pctx :: q =>
      match pend !! pctx with
      | None => PANIC (PanicMsg "inconsistent pending and queue content")
      | Some s =>
          let cs := cs ++ [s] in
          if decide (pctx = c) then OK (Some (cs, s, q)) else collect pend c q cs
      end
  end.

Definition set_index (v : Z) (s : readStatus) : readStatus :=
  mkReadStatus (confirmed s) (ctx s) v (from s).

(** [confirm]: [None] is Go's [nil] slice. *)
Definition confirm (c : pb.SystemCtx) (frm : Z) (quorum : Z)
    : M readIndex (list readStatus) :=
  r ← get;
  match pending r !! c with
  | None => ret []
  | Some p =>
      let p := mkReadStatus ({[frm]} ∪ confirmed p) (ctx p) (index p) (from p) in
      modify (set_pending (<[c := p]> (pending r))) ;;
      if Z.of_nat (size (confirmed p)) + 1 <? quorum then ret []
      else
        r ← get;
        found ← readr (fun r => collect (pending r) c (queue r) []);
        match found with
        | None => ret []
        | Some (cs, s, rest) =>
            if existsb (fun v => index s <? index v) cs
            then panicf "v.index > s.index is unexpected"
            else
              modify (set_queue rest) ;;
              modify (fun r => set_pending
                        (foldr (fun v m => delete (ctx v) m) (pending r) cs) r) ;;
              r ← get;
              if negb (len (queue r) =? Z.of_nat (size (pending r)))
              then panicf "inconsistent length"
              else ret (map (set_index (index s)) cs)
        end
  end.

End readIndex.
