(* ===== verification/ReadIndexSpec.v ===== *)
(** * The ReadIndex queue: invariant and confirmation

    The queue lists the pending requests in the order they arrived, with commit
    indexes that do not decrease.  [confirm] releases a request and everything
    queued before it once a quorum has acknowledged its heartbeat round, all
    with the index of the confirmed request. *)
From S2P Require Import Prelude Raftpb ReadIndex.
Import readIndex(readIndex, readStatus).

(** ** Invariant *)

Record riwf (ri : readIndex) : Prop := {
  rw_nodup : NoDup (readIndex.queue ri);
  rw_dom c : c ∈ readIndex.queue ri <-> is_Some (readIndex.pending ri !! c);
  rw_ctx c s : readIndex.pending ri !! c = Some s -> readIndex.ctx s = c;
  rw_sorted i j ci cj si sj : (i <= j)%nat ->
    readIndex.queue ri !! i = Some ci -> readIndex.queue ri !! j = Some cj ->
    readIndex.pending ri !! ci = Some si -> readIndex.pending ri !! cj = Some sj ->
    readIndex.index si <= readIndex.index sj
}.

Lemma newReadIndex_riwf : riwf readIndex.newReadIndex.
Proof. split; simpl; [by apply NoDup_nil_2| |done|done]. intros c. rewrite lookup_empty. split; [set_solver|by intros [? ?]]. Qed.

(** The last request of the queue has the largest index. *)
Lemma queue_last ri c s i ci si :
  riwf ri -> last (readIndex.queue ri) = Some c -> readIndex.pending ri !! c = Some s ->
  readIndex.queue ri !! i = Some ci -> readIndex.pending ri !! ci = Some si ->
  readIndex.index si <= readIndex.index s.
Proof.
  intros Hr Hl Hs Hi Hsi. rewrite last_lookup in Hl. apply lookup_lt_Some in Hi as Hlt.
  apply (rw_sorted ri Hr i (pred (length (readIndex.queue ri))) ci c); [lia|done..].
Qed.

(** ** Adding a request *)

Definition added (idx : Z) (c : pb.SystemCtx) (frm : Z) (ri : readIndex) : readIndex :=
  readIndex.mkReadIndex
    (<[c := readIndex.mkReadStatus ∅ c idx frm]> (readIndex.pending ri))
    (readIndex.queue ri ++ [c]).

Lemma added_riwf idx c frm ri :
  riwf ri -> readIndex.pending ri !! c = None ->
  (forall c' s, readIndex.pending ri !! c' = Some s -> readIndex.index s <= idx) ->
  riwf (added idx c frm ri).
Proof.
  intros Hr Hc Hidx. assert (c ∉ readIndex.queue ri) as Hnot.
  { rewrite (rw_dom ri Hr), Hc. by intros [? ?]. }
  split; simpl.
  - apply NoDup_app. split_and!; [apply Hr|set_solver|apply NoDup_singleton].
  - intros c'. rewrite elem_of_app, list_elem_of_singleton, (rw_dom ri Hr), lookup_insert_is_Some'.
    naive_solver.
  - intros c' s [[<- <-]|[_ Hs]]%lookup_insert_Some; [done|]. by apply Hr.
  - intros i j ci cj si sj Hij Hi Hj Hsi Hsj.
    apply lookup_insert_Some in Hsj as [[<- <-]|[Hne Hsj]]; simpl.
    + apply lookup_insert_Some in Hsi as [[_ <-]|[_ Hsi]]; [done|]. by eapply Hidx.
    + apply lookup_snoc_Some in Hj as [[Hjl Hj]|[_ ->]]; [|done].
      apply lookup_snoc_Some in Hi as [[Hil Hi]|[-> _]]; [|lia].
      apply lookup_insert_Some in Hsi as [[<- _]|[_ Hsi]]; [|by eapply (rw_sorted ri Hr i j)].
      by apply list_elem_of_lookup_2 in Hi.
Qed.

(** ** Confirming *)

Lemma collect_spec pend c s pre post acc :
  (forall x, x ∈ pre -> x <> c /\ is_Some (pend !! x)) -> pend !! c = Some s ->
  readIndex.collect pend c (pre ++ c :: post) acc
    = OK (Some (acc ++ omap (fun x => pend !! x) pre ++ [s], s, post)).
Proof.
  intros Hpre Hs. revert acc. induction pre as [|x pre IH]; intros acc; simpl.
  - rewrite Hs, decide_True by done. done.
  - destruct (Hpre x) as [Hne [sx Hx]]; [set_solver|]. rewrite Hx, decide_False by done.
    rewrite IH by set_solver. by rewrite <- app_assoc.
Qed.

(** Everything released has left [pending]. *)
Definition drop_all (cs : list readStatus) (m : gmap pb.SystemCtx readStatus) :=
  foldr (fun v m => delete (readIndex.ctx v) m) m cs.

Lemma drop_all_lookup cs m c :
  drop_all cs m !! c = if decide (c ∈ readIndex.ctx <$> cs) then None else m !! c.
Proof.
  induction cs as [|v cs IH]; [by rewrite decide_False by (by apply not_elem_of_nil)|].
  change (drop_all (v :: cs) m) with (delete (readIndex.ctx v) (drop_all cs m)).
  rewrite fmap_cons. destruct (decide (readIndex.ctx v = c)) as [Hv|Hne].
  - subst c. rewrite lookup_delete_eq, decide_True; [done|]. apply elem_of_cons. by left.
  - rewrite lookup_delete_ne, IH by done.
    destruct (decide (c ∈ readIndex.ctx <$> cs)) as [Hin|Hin].
    + rewrite decide_True; [done|]. apply elem_of_cons. by right.
    + rewrite decide_False; [done|]. rewrite elem_of_cons. intros [?|?]; congruence.
Qed.

Lemma omap_ctx (ri : readIndex) (l : list pb.SystemCtx) :
  riwf ri -> (forall x, x ∈ l -> x ∈ readIndex.queue ri) ->
  readIndex.ctx <$> omap (fun x => readIndex.pending ri !! x) l = l.
Proof.
  intros Hr. induction l as [|x l IH]; intros Hl; [done|].
  assert (is_Some (readIndex.pending ri !! x)) as [s Hs] by (apply Hr; set_solver).
  change (omap _ (x :: l)) with
    (match readIndex.pending ri !! x with
     | Some y => y :: omap (fun x => readIndex.pending ri !! x) l
     | None => omap (fun x => readIndex.pending ri !! x) l end).
  rewrite Hs. simpl. rewrite (rw_ctx ri Hr _ _ Hs). f_equal. apply IH. set_solver.
Qed.

(** The status of [c] after an acknowledgement from [frm]. *)
Definition acked (frm : Z) (p : readStatus) : readStatus :=
  readIndex.mkReadStatus ({[frm]} ∪ readIndex.confirmed p) (readIndex.ctx p)
    (readIndex.index p) (readIndex.from p).
Definition ack (c : pb.SystemCtx) (frm : Z) (p : readStatus) (ri : readIndex) : readIndex :=
  readIndex.set_pending (<[c := acked frm p]> (readIndex.pending ri)) ri.

Lemma ack_riwf c frm p ri :
  riwf ri -> readIndex.pending ri !! c = Some p -> riwf (ack c frm p ri).
Proof.
  intros Hr Hp.
  assert (forall x s, readIndex.pending (ack c frm p ri) !! x = Some s ->
    exists s0, readIndex.pending ri !! x = Some s0 /\ readIndex.ctx s = readIndex.ctx s0 /\
      readIndex.index s = readIndex.index s0) as Hx.
  { intros x s. simpl. intros [[<- <-]|[_ Hs]]%lookup_insert_Some; eauto. }
  split; simpl.
  - apply Hr.
  - intros x. rewrite (rw_dom ri Hr), lookup_insert_is_Some'. naive_solver.
  - intros x s (s0 & Hs0 & -> & _)%Hx. by apply Hr.
  - intros i j ci cj si sj Hij Hi Hj (s1 & H1 & _ & ->)%Hx (s2 & H2 & _ & ->)%Hx.
    by eapply (rw_sorted ri Hr i j).
Qed.

Section confirm.
Context (ri : readIndex) (Hr : riwf ri) (c : pb.SystemCtx) (frm : Z) (p : readStatus).
Context (pre post : list pb.SystemCtx).
Context (Hp : readIndex.pending ri !! c = Some p) (Hq : readIndex.queue ri = pre ++ c :: post).

Let ri1 := ack c frm p ri.
Let cs := omap (fun x => readIndex.pending ri1 !! x) pre ++ [acked frm p].
Let ri' := readIndex.mkReadIndex (drop_all cs (readIndex.pending ri1)) post.

Lemma ri1_riwf : riwf ri1.
Proof. by apply ack_riwf. Qed.
Lemma ri1_c : readIndex.pending ri1 !! c = Some (acked frm p).
Proof. apply lookup_insert_eq. Qed.

Lemma queue_split x : x ∈ pre -> x <> c /\ (x ∉ post) /\ x ∈ readIndex.queue ri1.
Proof.
  intros Hx. pose proof (rw_nodup ri Hr) as Hnd. rewrite Hq in Hnd.
  apply NoDup_app in Hnd as (_ & Hdis & _). specialize (Hdis x Hx).
  rewrite not_elem_of_cons in Hdis. destruct Hdis as [??]. split_and!; [done|done|].
  simpl. rewrite Hq. apply elem_of_app. by left.
Qed.

Lemma cs_ctx : (readIndex.ctx <$> cs) = pre ++ [c].
Proof.
  unfold cs. rewrite fmap_app, (omap_ctx ri1 pre ri1_riwf) by (intros; by apply queue_split).
  simpl. by rewrite (rw_ctx ri Hr c p Hp).
Qed.

Lemma confirm_index v : v ∈ cs -> readIndex.index v <= readIndex.index p.
Proof.
  unfold cs. rewrite elem_of_app, list_elem_of_singleton. intros [Hv| ->]; [|done].
  apply list_elem_of_omap in Hv as (x & Hx & Hv). apply list_elem_of_lookup in Hx as [i Hi].
  apply (rw_sorted ri1 ri1_riwf i (length pre) x c v (acked frm p)); [|..|done|apply ri1_c].
  - apply lookup_lt_Some in Hi. lia.
  - simpl. rewrite Hq. by apply lookup_app_l_Some.
  - simpl. rewrite Hq. by apply list_lookup_middle.
Qed.

(** What is left is exactly the requests queued after [c]. *)
Lemma rest_riwf : riwf ri'.
Proof.
  pose proof (rw_nodup ri Hr) as Hnd. rewrite Hq in Hnd.
  apply NoDup_app in Hnd as (_ & Hdis & Hnd). apply NoDup_cons in Hnd as [Hc Hnd].
  assert (forall x, readIndex.pending ri' !! x =
    if decide (x ∈ pre ++ [c]) then None else readIndex.pending ri1 !! x) as Hlk.
  { intros x. simpl. by rewrite drop_all_lookup, cs_ctx. }
  split.
  - done.
  - intros x. rewrite Hlk. simpl. split.
    + intros Hx. rewrite decide_False.
      * apply ri1_riwf. simpl. rewrite Hq. apply elem_of_app. right. apply elem_of_cons. by right.
      * rewrite elem_of_app, list_elem_of_singleton. intros [Hx'| ->]; [|done].
        by destruct (queue_split x Hx') as (_ & ? & _).
    + case_decide as Hd; [by intros [? ?]|]. intros Hs. apply ri1_riwf in Hs. simpl in Hs.
      rewrite Hq, elem_of_app, elem_of_cons in Hs. rewrite elem_of_app, list_elem_of_singleton in Hd.
      tauto.
  - intros x s. rewrite Hlk. case_decide; [done|]. apply ri1_riwf.
  - intros i j ci cj si sj Hij Hi Hj. rewrite !Hlk. do 2 (case_decide; [done|]).
    apply (rw_sorted ri1 ri1_riwf (length pre + S i) (length pre + S j)); [lia|..];
      simpl; rewrite Hq, lookup_app_r, Nat.add_comm, Nat.add_sub by lia; done.
Qed.

Lemma rest_size : Z.of_nat (size (readIndex.pending ri')) = len (readIndex.queue ri').
Proof.
  assert (dom (readIndex.pending ri') = list_to_set (readIndex.queue ri')) as Hd.
  { apply set_eq. intros x. rewrite elem_of_dom, elem_of_list_to_set. by rewrite (rw_dom ri' rest_riwf). }
  rewrite <- size_dom, Hd, size_list_to_set by apply rest_riwf. done.
Qed.

Lemma no_larger_index : existsb (fun v => readIndex.index p <? readIndex.index v) cs = false.
Proof.
  apply not_true_iff_false. rewrite existsb_exists. intros (v & Hv & Hlt%Z.ltb_lt).
  apply list_elem_of_In, confirm_index in Hv. lia.
Qed.

Lemma confirm_release quorum :
  quorum <= Z.of_nat (size ({[frm]} ∪ readIndex.confirmed p)) + 1 ->
  readIndex.confirm c frm quorum ri
    = Ret (map (readIndex.set_index (readIndex.index p)) cs) ri'.
Proof.
  intros Hqr. unfold readIndex.confirm, mbind, M_bind, get. rewrite Hp.
  unfold modify. cbn beta iota. fold (acked frm p) (ack c frm p ri) ri1.
  rewrite (proj2 (Z.ltb_ge _ _)) by done. unfold readr. cbn beta iota.
  change (readIndex.queue ri1) with (readIndex.queue ri). rewrite Hq.
  rewrite (collect_spec _ c (acked frm p)), app_nil_l; [|intros x Hx|apply ri1_c].
  2:{ destruct (queue_split x Hx) as (? & _ & Hx'). split; [done|]. by apply ri1_riwf. }
  fold cs. change (readIndex.index (acked frm p)) with (readIndex.index p).
  rewrite no_larger_index. cbn beta iota. fold (drop_all cs).
  change (readIndex.set_pending _ _) with ri'.
  rewrite rest_size, Z.eqb_refl. done.
Qed.

End confirm.

(** ** Claims *)

(** Recording a read request keeps the queue consistent: a context that is
    already pending changes nothing, a new one is queued last with the commit
    index it was received at; a commit index that moved backwards panics. *)
Theorem addRequest_queue ri idx c frm :
  riwf ri ->
  match readIndex.pending ri !! c, last (readIndex.queue ri) ≫= fun l => readIndex.pending ri !! l with
  | Some _, _ => readIndex.addRequest idx c frm ri = Ret tt ri
  | None, Some s =>
      if idx <? readIndex.index s
      then readIndex.addRequest idx c frm ri = Panic (PanicMsg "index moved backward in readIndex")
      else readIndex.addRequest idx c frm ri = Ret tt (added idx c frm ri) /\
           riwf (added idx c frm ri)
  | None, None => readIndex.addRequest idx c frm ri = Ret tt (added idx c frm ri) /\
           riwf (added idx c frm ri)
  end.
Proof.
  intros Hr. unfold readIndex.addRequest, mbind, M_bind, get.
  destruct (readIndex.pending ri !! c) as [|] eqn:Hc; [done|].
  destruct (last (readIndex.queue ri)) as [l|] eqn:Hl; simpl.
  - assert (is_Some (readIndex.pending ri !! l)) as [s Hs].
    { apply Hr. rewrite last_lookup in Hl. by apply list_elem_of_lookup_2 in Hl. }
    rewrite Hs. assert ((0 <? len (readIndex.queue ri)) = true) as ->.
    { apply Z.ltb_lt. unfold len. destruct (readIndex.queue ri); [done|]. simpl. lia. }
    unfold readr, readIndex.peepCtx. rewrite Hl, Hs. cbn beta iota.
    destruct (Z.ltb_spec idx (readIndex.index s)); [done|]. split; [done|].
    apply added_riwf; [done..|]. intros c' s' Hs'.
    assert (c' ∈ readIndex.queue ri) as [i Hi]%list_elem_of_lookup by (apply Hr; eauto).
    pose proof (queue_last ri l s i c' s' Hr Hl Hs Hi Hs'). lia.
  - apply last_None in Hl. rewrite Hl. cbn beta iota. unfold skip, ret, modify. simpl.
    split; [unfold added; by rewrite Hl|]. apply added_riwf; [done..|]. intros c' s' Hs'.
    assert (c' ∈ readIndex.queue ri) as Hin by (apply Hr; eauto). rewrite Hl in Hin.
    by apply not_elem_of_nil in Hin.
Qed.

(** C30: a read request is released only when the members that acknowledged its
    round, with the leader, are a quorum; then it is released together with every
    request queued before it, in order and all at its index, later requests stay
    queued, and nothing panics.  Below a quorum only the acknowledgement is
    recorded. *)
Theorem confirm_quorum ri c frm quorum p pre post :
  riwf ri -> readIndex.pending ri !! c = Some p -> readIndex.queue ri = pre ++ c :: post ->
  let n := Z.of_nat (size ({[frm]} ∪ readIndex.confirmed p)) in
  if n + 1 <? quorum
  then readIndex.confirm c frm quorum ri = Ret [] (ack c frm p ri) /\ riwf (ack c frm p ri)
  else exists out ri', readIndex.confirm c frm quorum ri = Ret out ri' /\ riwf ri' /\
    (readIndex.ctx <$> out) = pre ++ [c] /\
    (forall s, s ∈ out -> readIndex.index s = readIndex.index p) /\
    readIndex.queue ri' = post /\
    (forall x, x ∈ post -> readIndex.pending ri' !! x = readIndex.pending ri !! x).
Proof.
  intros Hr Hp Hq n. destruct (Z.ltb_spec (n + 1) quorum) as [Hlt|Hge].
  - split; [|by apply ack_riwf]. unfold readIndex.confirm, mbind, M_bind, get. rewrite Hp.
    unfold modify. cbn beta iota. by rewrite (proj2 (Z.ltb_lt _ _)).
  - eexists _, _. split; [by apply (confirm_release ri Hr c frm p pre post Hp Hq)|].
    split; [by apply rest_riwf|]. split_and!.
    + rewrite <- (cs_ctx ri Hr c frm p pre post Hp Hq). rewrite <- list_fmap_compose. done.
    + intros s Hs. by apply list_elem_of_fmap in Hs as (s0 & -> & _).
    + done.
    + intros x Hx. cbn [readIndex.pending]. rewrite drop_all_lookup, (cs_ctx ri Hr c frm p pre post Hp Hq).
      pose proof (rw_nodup ri Hr) as Hnd. rewrite Hq in Hnd.
      apply NoDup_app in Hnd as (_ & Hdis & Hnd). apply NoDup_cons in Hnd as [Hc _].
      rewrite decide_False.
      * apply lookup_insert_ne. by intros ->.
      * rewrite elem_of_app, list_elem_of_singleton. intros [Hx'| ->]; [|done].
        apply (Hdis x Hx'). apply elem_of_cons. by right.
Qed.

(** ** Witnesses *)

(** Two requests, from replicas 0 and 2, queued at index 4. *)
Definition ctx1 : pb.SystemCtx := pb.mkSystemCtx 1 7.
Definition ctx2 : pb.SystemCtx := pb.mkSystemCtx 2 7.
Definition twoReads : readIndex := added 4 ctx2 2 (added 4 ctx1 0 readIndex.newReadIndex).

Lemma oneRead_riwf : riwf (added 4 ctx1 0 readIndex.newReadIndex).
Proof. apply added_riwf; [apply newReadIndex_riwf|done|done]. Qed.
Lemma twoReads_riwf : riwf twoReads.
Proof.
  apply added_riwf; [apply oneRead_riwf|done|].
  intros c' s. unfold added. cbn [readIndex.pending].
  intros [[_ <-]|[_ Hs]]%lookup_insert_Some; [done|]. simpl in Hs. by rewrite lookup_empty in Hs.
Qed.

Lemma addRequest_queue_witness :
  readIndex.addRequest 4 ctx2 2 (added 4 ctx1 0 readIndex.newReadIndex) = Ret tt twoReads.
Proof.
  pose proof (addRequest_queue (added 4 ctx1 0 readIndex.newReadIndex) 4 ctx2 2 oneRead_riwf) as Ha.
  vm_compute in Ha |- *. by destruct Ha.
Defined.

(** In a shard of three, one acknowledgement of the second request releases both. *)
Lemma confirm_quorum_witness :
  exists out ri', readIndex.confirm ctx2 3 2 twoReads = Ret out ri' /\ riwf ri' /\
    (readIndex.ctx <$> out) = [ctx1; ctx2].
Proof.
  destruct (confirm_quorum twoReads ctx2 3 2 (readIndex.mkReadStatus ∅ ctx2 4 2) [ctx1] [])
    as (out & ri' & Hc & Hw & Ho & _);
    [apply twoReads_riwf|by vm_compute|by vm_compute|].
  exists out, ri'. split; [exact Hc|]. split; [exact Hw|exact Ho].
Defined.
