(* ===== verification/LogDB.v ===== *)
(** * Interfaces of the Raft core

    [GoRuntime] is what the Go runtime and the random source leave open: the
    order in which a [range] over a map visits its keys, the numbers drawn by
    [random.LockGuardedRand], and the capacity [append] gives a slice it has to
    grow.  Each is an oracle indexed by the number of choices made so far, so a
    theorem about every [GoRuntime] covers every run.

    [ILogDB] is the interface of [raft/internal/raft/logentry.go] through which
    the Raft core reads its persisted log; [ILogDBSpec] states what the core
    relies on. *)
From S2P Require Import Prelude Raftpb.

Class GoRuntime : Type := {
  go_range : nat -> list Z -> list Z;
  go_range_perm : forall n l, go_range n l ≡ₚ l;
  go_rand : nat -> Z;
  go_rand_u64 : forall n, is_u64 (go_rand n);
  go_growslice : Z -> Z -> Z;
  go_growslice_ge : forall c n, n <= go_growslice c n
}.

(** A runtime that visits keys in order, draws zeros and grows slices to the
    exact length. *)
#[refine, global] Instance plainRuntime : GoRuntime | 100 := {|
  go_range := fun _ l => l;
  go_rand := fun _ => 0;
  go_growslice := fun _ n => n
|}.
Proof. all: auto; intros; lia64. Defined.

Class ILogDB (DB : Type) : Type := {
  GetRange : DB -> Z * Z;
  SetRange : Z -> Z -> M DB unit;
  NodeState : DB -> pb.State * pb.Membership;
  SetState : pb.State -> M DB unit;
  CreateSnapshot : pb.Snapshot -> M DB unit;
  ApplySnapshot : pb.Snapshot -> M DB unit;
  Term : DB -> Z -> result Z;
  Entries : DB -> Z -> Z -> Z -> result (list pb.Entry);
  Snapshot : DB -> pb.Snapshot;
  Compact : Z -> M DB unit;
  Append : list pb.Entry -> M DB unit
}.

(** What the core relies on when it reads the persisted log: a well-formed
    database holds an entry for every index of its range and the term of the
    index just before it; [Term] reads those terms and [Entries] returns a
    non-empty prefix of the requested entries. *)
Class ILogDBSpec (DB : Type) `{ILogDB DB} : Type := {
  db_wf : DB -> Prop;
  db_entry : DB -> Z -> option pb.Entry;
  db_term : DB -> Z -> Z;
  db_range_ok d : db_wf d ->
    1 <= (GetRange d).1 <= (GetRange d).2 + 1 /\ (GetRange d).2 + 1 < W64;
  db_entry_ok d i : db_wf d -> (GetRange d).1 <= i <= (GetRange d).2 ->
    exists e, db_entry d i = Some e /\ pb.e_Index e = i /\ db_term d i = pb.e_Term e;
  db_term_ok d i : db_wf d -> (GetRange d).1 - 1 <= i <= (GetRange d).2 ->
    Term d i = OK (db_term d i);
  db_entries_ok d low high mx : db_wf d ->
    (GetRange d).1 <= low < high -> high <= (GetRange d).2 + 1 -> 0 <= mx ->
    exists es, Entries d low high mx = OK es /\ 0 < len es <= high - low /\
      forall k, 0 <= k < len es -> nthZ es k = db_entry d (low + k)
}.
