(* ===== verification/Wire.v ===== *)
(** * The wire format

    The parts of the protobuf codecs of [raft/raftpb] that their files share:
    [common.go] (varints, sizes, skipping unknown fields) and the shape of the
    [MarshalTo] and [Unmarshal] methods.

    A [MarshalTo] writes its buffer from the left without gaps, so the buffer is
    the bytes written and the room left; writing past the end panics, while
    [copy] truncates.  An [Unmarshal] is a computation on the index into its
    data. *)
From S2P Require Import Prelude Raftpb LogDB.
From Stdlib Require Import Strings.Byte.

(** ** Bytes and fixed-width integers *)

Abbreviation bytes := (list byte).

Definition byteZ (b : byte) : Z := Z.of_N (Byte.to_N b).

(** [uint8(z)] *)
Definition toByte (z : Z) : byte :=
  match Byte.of_N (Z.to_N (z mod 256)) with Some b => b | None => x00 end.

Definition i64 (z : Z) : Z := (z + 2 ^ 63) mod 2 ^ 64 - 2 ^ 63.
Definition i32 (z : Z) : Z := (z + 2 ^ 31) mod 2 ^ 32 - 2 ^ 31.
Definition u32 (z : Z) : Z := z mod 2 ^ 32.

Definition of_bool (b : bool) : Z := if b then 1 else 0.

Definition ErrIntOverflowRaft : error := ErrMsg "proto: integer overflow".
Definition ErrInvalidLengthRaft : error :=
  ErrMsg "proto: negative length found during unmarshaling".
Definition ErrUnexpectedEOF : error := ErrMsg "unexpected EOF".

(** ** Writing *)

Record wstate : Type := mkW { w_out : bytes; w_room : Z; w_choices : nat }.

(** [dAtA[i] = z; i++] *)
Definition putByte (z : Z) : M wstate unit := fun s =>
  if w_room s <=? 0 then Panic IndexOutOfRange
  else Ret tt (mkW (w_out s ++ [toByte z]) (w_room s - 1) (w_choices s)).

(** [i += copy(dAtA[i:], bs)] *)
Definition copyBytes (bs : bytes) : M wstate unit := fun s =>
  let bs := takeZ (w_room s) bs in
  Ret tt (mkW (w_out s ++ bs) (w_room s - len bs) (w_choices s)).

Fixpoint encodeVarintF (fuel : nat) (v : Z) : M wstate unit :=
  match fuel with
  | O => panic_ OutOfFuel
  | S fuel =>
      if 2 ^ 7 <=? v
      then putByte (Z.lor (Z.land v 0x7f) 0x80) ;; encodeVarintF fuel (Z.shiftr v 7)
      else putByte v
  end.

(** A [uint64] has at most ten groups of seven bits. *)
Definition encodeVarintRaft (v : Z) : M wstate unit := encodeVarintF 10 v.

Fixpoint sovF (fuel : nat) (x : Z) : Z :=
  match fuel with
  | O => 0
  | S fuel => let x := Z.shiftr x 7 in if x =? 0 then 1 else 1 + sovF fuel x
  end.
Definition sovRaft (x : Z) : Z := sovF 10 x.

Section runtime.
Context `{GoRuntime}.

(** [for k := range m] *)
Definition keysOf {V} (m : gmap Z V) : M wstate (list Z) := fun s =>
  Ret (go_range (w_choices s) (map_to_list m).*1)
      (mkW (w_out s) (w_room s) (S (w_choices s))).

End runtime.

(** The statements [MarshalTo] repeats for a field: its tag, then a varint, a
    boolean, a length and the bytes of a string or slice, or a length and the
    encoding of an embedded message. *)
Definition putTag (tag : list Z) : M wstate unit := forM_ tag putByte.
Definition putVarint (tag : list Z) (v : Z) : M wstate unit :=
  putTag tag ;; encodeVarintRaft v.
Definition putBool (tag : list Z) (b : bool) : M wstate unit :=
  putTag tag ;; putByte (if b then 1 else 0).
Definition putBytes (tag : list Z) (bs : bytes) : M wstate unit :=
  putTag tag ;; encodeVarintRaft (len bs) ;; copyBytes bs.
Definition putString (tag : list Z) (s : string) : M wstate unit :=
  putBytes tag (String.list_byte_of_string s).
Definition putMsg (tag : list Z) (size : Z) (c : M wstate unit) : M wstate unit :=
  putTag tag ;; encodeVarintRaft size ;; c.

(** [Marshal]: the bytes [MarshalTo] writes in a buffer of [size] bytes. *)
Definition runMarshal (size : Z) (c : M wstate unit) : result bytes :=
  match c (mkW [] size 0) with
  | Ret _ s => OK (w_out s)
  | Err e _ => ERR e
  | Panic p => PANIC p
  end.

Definition slen (s : string) : Z := len (String.list_byte_of_string s).

(** ** Reading

    A reader has the data as its argument and the index as its state. *)
Definition reader (A : Type) : Type := bytes -> M Z A.

(** [dAtA[i]] *)
Definition byteAt (data : bytes) (i : Z) : result Z :=
  match nthZ data i with Some b => OK (byteZ b) | None => PANIC IndexOutOfRange end.

(** The loop over [shift] that reads a varint into [acc]; [wrap] is the width
    of the variable.  Ten iterations are those with [shift < 64]. *)
Fixpoint varintF (fuel : nat) (wrap : Z -> Z) (shift acc : Z) : reader Z := fun data =>
  match fuel with
  | O => fail ErrIntOverflowRaft
  | S fuel =>
      i ← get;
      if len data <=? i then fail ErrUnexpectedEOF
      else
        b ← readr (byteAt data);
        modify (Z.add 1) ;;
        let acc := Z.lor acc (wrap (Z.shiftl (Z.land b 0x7f) shift)) in
        if b <? 0x80 then ret acc else varintF fuel wrap (shift + 7) acc data
  end.
Definition readVarint (wrap : Z -> Z) (acc : Z) : reader Z := varintF 10 wrap 0 acc.

(** A varint whose value is not used. *)
Fixpoint skipVarintF (fuel : nat) : reader unit := fun data =>
  match fuel with
  | O => fail ErrIntOverflowRaft
  | S fuel =>
      i ← get;
      if len data <=? i then fail ErrUnexpectedEOF
      else
        modify (Z.add 1) ;;
        b ← readr (fun i => byteAt data (i - 1));
        if b <? 0x80 then skip else skipVarintF fuel data
  end.

Definition set_ {S} (s : S) : M S unit := modify (fun _ => s).

Definition errWireType (wireType : Z) : error := ErrOther wireType.

(** [skipRaft]: the size of the field at the start of the data.  [groupF] is its
    inner loop over the fields of a group.  Every call for a nested field is on
    shorter data, and every field of a group takes a byte. *)
Section skip.
Context (self : bytes -> result Z).

Fixpoint groupF (fuel : nat) : reader unit := fun data =>
  match fuel with
  | O => panic_ OutOfFuel
  | S fuel =>
      start ← get;
      innerWire ← readVarint u64 0 data;
      if Z.land innerWire 0x7 =? 4 then skip
      else
        next ← readr (fun _ => self (dropZ start data));
        set_ (i64 (start + next)) ;;
        i ← get;
        if i <? 0 then fail ErrInvalidLengthRaft else groupF fuel data
  end.

Definition skipField : reader unit := fun data =>
  wire ← readVarint u64 0 data;
  let wireType := Z.land wire 0x7 in
  if wireType =? 0 then skipVarintF 10 data
  else if wireType =? 1 then modify (Z.add 8)
  else if wireType =? 2 then
    length ← readVarint i64 0 data;
    if length <? 0 then fail ErrInvalidLengthRaft
    else
      modify (fun i => i64 (i + length)) ;;
      i ← get;
      if i <? 0 then fail ErrInvalidLengthRaft else skip
  else if wireType =? 3 then groupF (S (length data)) data
  else if wireType =? 4 then skip
  else if wireType =? 5 then modify (Z.add 4)
  else fail (errWireType wireType).

End skip.

Definition runReader {A} (c : M Z A) : result (A * Z) :=
  match c 0 with
  | Ret a i => OK (a, i)
  | Err e _ => ERR e
  | Panic p => PANIC p
  end.

Fixpoint skipRaftF (fuel : nat) (data : bytes) : result Z :=
  match fuel with
  | O => PANIC OutOfFuel
  | S fuel =>
      if len data <=? 0 then PANIC (PanicMsg "unreachable")
      else r ← runReader (skipField (skipRaftF fuel) data); OK r.2
  end.
Definition skipRaft (data : bytes) : result Z := skipRaftF (S (length data)) data.

(** ** The loop of an [Unmarshal] method

    [fields] is the [switch] on the field number.  The methods generated later
    also check that indexes do not overflow ([checked]); the hand-optimised ones
    of [raft_optimized.go] do not. *)
Section unmarshal.
Context {A : Type} (checked : bool) (fields : Z -> option (Z -> A -> reader A)).

Definition skipUnknown (checked : bool) (limit : Z) : reader unit := fun data =>
  i ← get;
  skippy ← readr (fun _ => skipRaft (dropZ i data));
  if skippy <? 0 then fail ErrInvalidLengthRaft
  else if checked && (i64 (i + skippy) <? 0) then fail ErrInvalidLengthRaft
  else if limit <? i64 (i + skippy) then fail ErrUnexpectedEOF
  else set_ (i64 (i + skippy)).

Definition errEndGroup : error := ErrMsg "wiretype end group for non-group".
Definition errIllegalTag (fieldNum : Z) : error := ErrOther fieldNum.

Fixpoint unmarshalF (fuel : nat) (m : A) : reader A := fun data =>
  match fuel with
  | O => panic_ OutOfFuel
  | S fuel =>
      i ← get;
      if i <? len data then
        wire ← readVarint u64 0 data;
        let fieldNum := i32 (Z.shiftr wire 3) in
        let wireType := Z.land wire 0x7 in
        if wireType =? 4 then fail errEndGroup
        else if fieldNum <=? 0 then fail (errIllegalTag fieldNum)
        else
          m ← (match fields fieldNum with
               | Some h => h wireType m data
               | None => set_ i ;; skipUnknown checked (len data) data ;; ret m
               end);
          unmarshalF fuel m data
      else if len data <? i then fail ErrUnexpectedEOF
      else ret m
  end.

(** Every field takes at least a byte. *)
Definition unmarshal (m : A) (data : bytes) : result A :=
  r ← runReader (unmarshalF (S (length data)) m data); OK r.1.

End unmarshal.

(** The cases of the [switch], by the type of the field. *)
Section fields.
Context {A : Type}.

Definition varintField (wrap : Z -> Z) (set : Z -> A -> A) (wireType : Z) (m : A) : reader A :=
  fun data =>
    if negb (wireType =? 0) then fail (errWireType wireType)
    else v ← readVarint wrap 0 data; ret (set v m).

Definition boolField (set : bool -> A -> A) : Z -> A -> reader A :=
  varintField i64 (fun v => set (negb (v =? 0))).

(** [dAtA[iNdEx:postIndex]] for the length read at [iNdEx], which then moves to
    [postIndex].  The caller checks that [postIndex] does not overflow if
    [checked]. *)
Definition readBlock (checked : bool) : reader bytes := fun data =>
  n ← readVarint i64 0 data;
  if n <? 0 then fail ErrInvalidLengthRaft
  else
    i ← get;
    let post := i64 (i + n) in
    if checked && (post <? 0) then fail ErrInvalidLengthRaft
    else if len data <? post then fail ErrUnexpectedEOF
    else if (post <? i) then panic_ IndexOutOfRange
    else set_ post ;; ret (takeZ (post - i) (dropZ i data)).

Definition bytesField (checked : bool) (set : bytes -> A -> A) (wireType : Z) (m : A)
    : reader A := fun data =>
  if negb (wireType =? 2) then fail (errWireType wireType)
  else bs ← readBlock checked data; ret (set bs m).

Definition stringField (checked : bool) (set : string -> A -> A) : Z -> A -> reader A :=
  bytesField checked (fun bs => set (String.string_of_list_byte bs)).

(** An embedded message, decoded onto its current value. *)
Definition msgField {B} (checked : bool) (dec : B -> bytes -> result B)
    (sub : A -> B) (set : B -> A -> A) (wireType : Z) (m : A) : reader A := fun data =>
  if negb (wireType =? 2) then fail (errWireType wireType)
  else
    bs ← readBlock checked data;
    b ← readr (fun _ => dec (sub m) bs);
    ret (set b m).

(** One entry of a map; the key is accumulated, the value is the last one. *)
Fixpoint mapEntryF {V} (readV : V -> reader V) (fuel : nat) (post key : Z) (val : V)
    : reader (Z * V) := fun data =>
  match fuel with
  | O => panic_ OutOfFuel
  | S fuel =>
      i ← get;
      if i <? post then
        wire ← readVarint u64 0 data;
        let fieldNum := i32 (Z.shiftr wire 3) in
        if fieldNum =? 1 then
          key ← readVarint u64 key data;
          mapEntryF readV fuel post key val data
        else if fieldNum =? 2 then
          val ← readV val data;
          mapEntryF readV fuel post key val data
        else
          set_ i ;;
          skipUnknown false post data ;;
          mapEntryF readV fuel post key val data
      else ret (key, val)
  end.

Definition mapField {V} (zero : V) (readV : V -> reader V) (sub : A -> gmap Z V)
    (set : gmap Z V -> A -> A) (wireType : Z) (m : A) : reader A := fun data =>
  if negb (wireType =? 2) then fail (errWireType wireType)
  else
    n ← readVarint i64 0 data;
    if n <? 0 then fail ErrInvalidLengthRaft
    else
      i ← get;
      let post := i64 (i + n) in
      if post <? 0 then fail ErrInvalidLengthRaft
      else if len data <? post then fail ErrUnexpectedEOF
      else
        kv ← mapEntryF readV (S (length data)) post 0 zero data;
        set_ post ;;
        ret (set (<[kv.1 := kv.2]> (sub m)) m).

End fields.

(** The two value types of the maps. *)
Definition stringValue (_ : string) : reader string := fun data =>
  bs ← readBlock true data; ret (String.string_of_list_byte bs).
Definition boolValue (_ : bool) : reader bool := fun data =>
  v ← readVarint i64 0 data; ret (negb (v =? 0)).
