(* ===== verification/WireSpec.v ===== *)
(** * Writing and reading fields

    [varint v] is the encoding of [v] as a list of bytes.  [writes c n P]: with
    room for [n] bytes, [c] writes exactly [n] bytes that satisfy [P].  [reads]
    relates the bytes of some fields to what the [Unmarshal] loop does with
    them; [codes] puts the two together, field by field. *)
From S2P Require Import Prelude Raftpb LogDB Wire.
From Stdlib Require Import Strings.Byte.

(** ** Bytes *)

Lemma byteZ_range b : 0 <= byteZ b < 256.
Proof. unfold byteZ. pose proof (Byte.to_N_bounded b). lia. Qed.

Lemma byteZ_toByte z : byteZ (toByte z) = z mod 256.
Proof.
  unfold byteZ, toByte. pose proof (Z.mod_pos_bound z 256 ltac:(lia)) as Hz.
  destruct (Byte.of_N (Z.to_N (z mod 256))) as [b|] eqn:Hb.
  - apply Byte.to_of_N in Hb. rewrite Hb. lia.
  - apply Byte.of_N_None_iff in Hb. lia.
Qed.

Lemma byteZ_toByte_small z : 0 <= z < 256 -> byteZ (toByte z) = z.
Proof. intros. rewrite byteZ_toByte. by apply Z.mod_small. Qed.

Lemma len_app {A} (xs ys : list A) : len (xs ++ ys) = len xs + len ys.
Proof. unfold len. rewrite length_app. lia. Qed.
Lemma len_cons {A} (x : A) xs : len (x :: xs) = 1 + len xs.
Proof. unfold len. simpl. lia. Qed.
Lemma len_nonneg {A} (xs : list A) : 0 <= len xs.
Proof. unfold len. lia. Qed.

(** Reading at an index is reading the head of what is left. *)
Definition at_ (data : bytes) (i : Z) (rest : bytes) : Prop :=
  0 <= i /\ i <= len data /\ dropZ i data = rest.

Lemma at_len data i rest : at_ data i rest -> len rest = len data - i.
Proof. intros (Hi & Hl & <-). unfold dropZ, len in *. rewrite length_drop. lia. Qed.

Lemma at_app data i bs rest : at_ data i (bs ++ rest) -> at_ data (i + len bs) rest.
Proof.
  intros Hat. pose proof (at_len _ _ _ Hat) as Hlen. rewrite len_app in Hlen.
  pose proof (len_nonneg rest). pose proof (len_nonneg bs).
  destruct Hat as (Hi & Hl & Hd). split_and!; [lia..|]. unfold dropZ in *.
  replace (Z.to_nat (i + len bs)) with (Z.to_nat i + length bs)%nat by (unfold len; lia).
  by rewrite <- drop_drop, Hd, drop_app_length.
Qed.

Lemma at_byte data i b rest :
  at_ data i (b :: rest) -> byteAt data i = OK (byteZ b) /\ i < len data.
Proof.
  intros Hat. pose proof (at_len _ _ _ Hat) as Hlen. rewrite len_cons in Hlen.
  pose proof (len_nonneg rest). destruct Hat as (Hi & Hl & Hd). split; [|lia].
  unfold byteAt, nthZ. rewrite decide_True by lia.
  pose proof (lookup_drop data (Z.to_nat i) 0) as Hk. unfold dropZ in Hd. rewrite Hd in Hk.
  rewrite Nat.add_0_r in Hk. by rewrite <- Hk.
Qed.

Lemma at_take data i bs rest :
  at_ data i (bs ++ rest) -> takeZ (len bs) (dropZ i data) = bs.
Proof.
  intros (_ & _ & ->). unfold takeZ, len. rewrite Nat2Z.id. by rewrite take_app_length.
Qed.

(** ** Varints *)

Fixpoint varintBytes (fuel : nat) (v : Z) : bytes :=
  match fuel with
  | O => []
  | S fuel => if 128 <=? v then toByte (v mod 128 + 128) :: varintBytes fuel (v / 128)
              else [toByte v]
  end.
Definition varint (v : Z) : bytes := varintBytes 10 v.

Lemma land_127 v : Z.land v 0x7f = v mod 128.
Proof. apply (Z.land_ones v 7). lia. Qed.

(** Groups of bits put side by side. *)
Lemma lor_shiftl acc x s :
  0 <= s -> 0 <= acc < 2 ^ s -> Z.lor acc (Z.shiftl x s) = acc + x * 2 ^ s.
Proof.
  intros Hs Ha. assert (Z.land acc (Z.shiftl x s) = 0) as Hz.
  { apply Z.bits_inj'. intros n Hn. rewrite Z.land_spec, Z.bits_0.
    destruct (Z.lt_ge_cases n s); [by rewrite Z.shiftl_spec_low, andb_false_r|].
    rewrite <- (Z.mod_small acc (2 ^ s)) by done. by rewrite Z.mod_pow2_bits_high by lia. }
  rewrite <- Z.lxor_lor, <- Z.add_nocarry_lxor by done. by rewrite Z.shiftl_mul_pow2.
Qed.

Lemma lor_128 v : 0 <= v < 128 -> Z.lor v 0x80 = v + 128.
Proof. intros Hv. change 0x80 with (Z.shiftl 1 7). by rewrite lor_shiftl. Qed.

Lemma varintBytes_step fuel v :
  0 <= v -> varintBytes (S fuel) v =
    if 128 <=? v then toByte (v mod 128 + 128) :: varintBytes fuel (v / 128) else [toByte v].
Proof. done. Qed.

(** A value [wrap]ped to its width is read back if it fits. *)
Definition fits_width (wrap : Z -> Z) (v : Z) : Prop :=
  forall x, 0 <= x <= v -> wrap x = x.

Lemma fits_u64 v : 0 <= v < W64 -> fits_width u64 v.
Proof. intros Hv x Hx. apply Z.mod_small. lia. Qed.
Lemma fits_i64 v : 0 <= v < 2 ^ 63 -> fits_width i64 v.
Proof. intros Hv x Hx. unfold i64. rewrite Z.mod_small by lia. lia. Qed.
Lemma fits_i32 v : 0 <= v < 2 ^ 31 -> fits_width i32 v.
Proof. intros Hv x Hx. unfold i32. rewrite Z.mod_small by lia. lia. Qed.
Lemma fits_u32 v : 0 <= v < 2 ^ 32 -> fits_width u32 v.
Proof. intros Hv x Hx. apply Z.mod_small. lia. Qed.

Lemma varintF_spec fuel wrap v : forall shift acc data i rest,
  (0 < fuel)%nat -> 0 <= v < 128 ^ Z.of_nat fuel -> 0 <= shift -> 0 <= acc < 2 ^ shift ->
  fits_width wrap (v * 2 ^ shift) ->
  at_ data i (varintBytes fuel v ++ rest) ->
  varintF fuel wrap shift acc data i =
    Ret (acc + v * 2 ^ shift) (i + len (varintBytes fuel v)).
Proof.
  revert v. induction fuel as [|fuel IH]; intros v shift acc data i rest Hf Hv Hs Ha Hw Hat.
  { lia. }
  assert (0 < 2 ^ shift) as Hp by (apply Z.pow_pos_nonneg; lia).
  rewrite Nat2Z.inj_succ, Z.pow_succ_r in Hv by lia.
  rewrite varintBytes_step in * by lia.
  assert (exists b bs, varintBytes (S fuel) v = b :: bs /\
    Z.land (byteZ b) 127 = v mod 128) as (b & bs & Hbs & Hb).
  { rewrite varintBytes_step by lia. destruct (Z.leb_spec 128 v); eexists _, _; split; try done;
      rewrite byteZ_toByte_small, land_127 by (pose proof (Z.mod_pos_bound v 128); lia).
    - rewrite Z.add_mod by lia. rewrite Z.mod_same, Z.add_0_r, !Z.mod_mod by lia. done.
    - done. }
  rewrite varintBytes_step in Hbs by lia. rewrite Hbs in Hat.
  destruct (at_byte _ _ _ _ Hat) as [Hby Hi]. simpl varintF. unfold mbind, M_bind, get, readr, modify.
  rewrite (proj2 (Z.leb_gt _ _)), Hby by done. cbv zeta. rewrite Hb.
  rewrite (Hw (Z.shiftl (v mod 128) shift)), lor_shiftl; [|lia|lia|]; cycle 1.
  { rewrite Z.shiftl_mul_pow2 by lia. pose proof (Z.mod_pos_bound v 128).
    pose proof (Z.mod_le v 128). nia. }
  pose proof (Z.div_mod v 128 ltac:(lia)) as Hdm. pose proof (Z.mod_pos_bound v 128 ltac:(lia)).
  destruct (Z.leb_spec 128 v); injection Hbs as <- <-.
  - rewrite byteZ_toByte_small by lia. rewrite (proj2 (Z.ltb_ge _ _)) by lia.
    assert (2 ^ (shift + 7) = 128 * 2 ^ shift) as Hp7 by (rewrite Z.pow_add_r; lia).
    rewrite (IH (v / 128) (shift + 7) _ data (1 + i) rest); [| |split|lia|split| |]; try nia.
    + rewrite Hp7, len_cons. f_equal; nia.
    + destruct fuel; [simpl in Hv; lia|lia].
    + intros x Hx. apply Hw. nia.
    + apply (at_app _ i [toByte (v mod 128 + 128)]) in Hat. by rewrite Z.add_comm.
  - rewrite byteZ_toByte_small by lia. rewrite (proj2 (Z.ltb_lt _ _)) by lia.
    rewrite (Z.mod_small v) by lia. unfold len, ret. simpl. f_equal. lia.
Qed.

Lemma readVarint_spec wrap v data i rest :
  0 <= v < W64 -> fits_width wrap v -> at_ data i (varint v ++ rest) ->
  readVarint wrap 0 data i = Ret v (i + len (varint v)).
Proof.
  intros Hv Hw Hat. unfold readVarint, varint.
  rewrite (varintF_spec 10 wrap v 0 0 data i rest); [|lia..| |done].
  - by rewrite Z.mul_1_r, Z.add_0_l.
  - by rewrite Z.mul_1_r.
Qed.

Lemma sovF_spec fuel v :
  (0 < fuel)%nat -> 0 <= v < 128 ^ Z.of_nat fuel -> sovF fuel v = len (varintBytes fuel v).
Proof.
  revert v. induction fuel as [|fuel IH]; intros v Hf Hv; [lia|].
  rewrite Nat2Z.inj_succ, Z.pow_succ_r in Hv by lia.
  rewrite varintBytes_step by lia. simpl sovF. rewrite Z.shiftr_div_pow2 by lia.
  change (2 ^ 7) with 128. pose proof (Z.div_mod v 128 ltac:(lia)).
  pose proof (Z.mod_pos_bound v 128 ltac:(lia)).
  destruct (Z.leb_spec 128 v).
  - rewrite (proj2 (Z.eqb_neq _ _)) by nia. rewrite len_cons, IH; [done| |nia].
    destruct fuel; [simpl in *; lia|lia].
  - by rewrite (proj2 (Z.eqb_eq _ _)) by nia.
Qed.

Lemma sovRaft_spec v : 0 <= v < W64 -> sovRaft v = len (varint v).
Proof. intros. apply sovF_spec; [lia|]. simpl. lia. Qed.

(** ** What a writer writes *)

Definition writes (c : M wstate unit) (n : Z) (P : bytes -> Prop) : Prop :=
  forall s, n <= w_room s -> exists bs k,
    c s = Ret tt (mkW (w_out s ++ bs) (w_room s - n) k) /\ len bs = n /\ P bs.

Lemma writes_weaken c n (P Q : bytes -> Prop) :
  writes c n P -> (forall bs, P bs -> Q bs) -> writes c n Q.
Proof. intros Hc HPQ s Hs. destruct (Hc s Hs) as (bs & k & ? & ? & ?). exists bs, k. auto. Qed.

Lemma writes_skip (P : bytes -> Prop) : P [] -> writes skip 0 P.
Proof.
  intros HP [out room k] Hs. exists [], k. split_and!; try done. unfold skip, ret.
  by rewrite app_nil_r, Z.sub_0_r.
Qed.

Lemma writes_bind c1 c2 n1 n2 (P1 P2 : bytes -> Prop) :
  0 <= n2 -> writes c1 n1 P1 -> writes c2 n2 P2 ->
  writes (c1 ;; c2) (n1 + n2) (fun bs => exists b1 b2, bs = b1 ++ b2 /\ P1 b1 /\ P2 b2).
Proof.
  intros Hn H1 H2 s Hs. destruct (H1 s) as (b1 & k1 & E1 & L1 & HP1); [lia|].
  unfold mbind, M_bind. rewrite E1.
  destruct (H2 (mkW (w_out s ++ b1) (w_room s - n1) k1)) as (b2 & k2 & E2 & L2 & HP2);
    [simpl; lia|].
  exists (b1 ++ b2), k2. rewrite E2. simpl. rewrite len_app, app_assoc. split_and!; [|lia|eauto].
  do 2 f_equal. lia.
Qed.

Lemma writes_putByte z : writes (putByte z) 1 (eq [toByte z]).
Proof.
  intros [out room k] Hs. exists [toByte z], k. unfold putByte. simpl in *.
  by rewrite (proj2 (Z.leb_gt _ _)) by lia.
Qed.

Lemma writes_copyBytes bs : writes (copyBytes bs) (len bs) (eq bs).
Proof.
  intros [out room k] Hs. exists bs, k. unfold copyBytes, takeZ. simpl in *.
  rewrite take_ge by (unfold len in *; lia). done.
Qed.

Lemma writes_encodeF fuel v :
  (0 < fuel)%nat -> 0 <= v < 128 ^ Z.of_nat fuel ->
  writes (encodeVarintF fuel v) (len (varintBytes fuel v)) (eq (varintBytes fuel v)).
Proof.
  revert v. induction fuel as [|fuel IH]; intros v Hf Hv; [lia|].
  rewrite Nat2Z.inj_succ, Z.pow_succ_r in Hv by lia.
  rewrite varintBytes_step by lia. simpl encodeVarintF. rewrite Z.shiftr_div_pow2 by lia.
  change (2 ^ 7) with 128. pose proof (Z.div_mod v 128 ltac:(lia)).
  pose proof (Z.mod_pos_bound v 128 ltac:(lia)).
  destruct (Z.leb_spec 128 v); [|apply writes_putByte].
  rewrite land_127, lor_128, len_cons by lia.
  eapply writes_weaken; [apply writes_bind; [apply len_nonneg|apply writes_putByte|apply IH]|].
  - destruct fuel; [simpl in *; lia|lia].
  - nia.
  - by intros bs (b1 & b2 & -> & <- & <-).
Qed.

Lemma writes_varint v :
  0 <= v < W64 -> writes (encodeVarintRaft v) (sovRaft v) (eq (varint v)).
Proof.
  intros Hv. rewrite sovRaft_spec by done. apply writes_encodeF; [lia|]. simpl. lia.
Qed.

Lemma writes_forByte {X} (f : X -> Z) xs :
  writes (forM_ xs (fun x => putByte (f x))) (len xs) (eq (map (fun x => toByte (f x)) xs)).
Proof.
  induction xs as [|x xs IH]; [by apply writes_skip|]. rewrite len_cons.
  eapply writes_weaken; [apply writes_bind; [apply len_nonneg|apply writes_putByte|exact IH]|].
  by intros bs (b1 & b2 & -> & <- & <-).
Qed.

Lemma writes_putTag tag : writes (putTag tag) (len tag) (eq (map toByte tag)).
Proof. apply (writes_forByte id). Qed.

(** A buffer of exactly the right size is filled. *)
Lemma writes_marshal c n P :
  writes c n P -> exists bs, runMarshal n c = OK bs /\ P bs.
Proof.
  intros Hc. destruct (Hc (mkW [] n 0)) as (bs & k & E & _ & HP); [simpl; lia|].
  exists bs. unfold runMarshal. by rewrite E.
Qed.

(** ** What the [Unmarshal] loop reads *)

(** [h] decodes the bytes [bs] wherever they are in the data. *)
Definition takes {A B} (h : A -> reader B) (bs : bytes) (m : A) (m' : B) : Prop :=
  forall data i rest, len data < 2 ^ 63 -> at_ data i (bs ++ rest) ->
    h m data i = Ret m' (i + len bs).

Lemma at_app_l data i b1 b2 rest :
  at_ data i ((b1 ++ b2) ++ rest) ->
  at_ data i (b1 ++ b2 ++ rest) /\ at_ data (i + len b1) (b2 ++ rest).
Proof. rewrite <- app_assoc. intros Hat. split; [done|by apply at_app]. Qed.

Section codes.
Context {A : Type} (checked : bool) (fields : Z -> option (Z -> A -> reader A)).
Implicit Types (m : A).

Definition reads (bs : bytes) (m m' : A) : Prop :=
  forall data i rest fuel, len data < 2 ^ 63 -> at_ data i (bs ++ rest) ->
    (length bs <= fuel)%nat -> exists fuel', (fuel - length bs <= fuel')%nat /\
    unmarshalF checked fields fuel m data i =
    unmarshalF checked fields fuel' m' data (i + len bs).

Lemma reads_nil m : reads [] m m.
Proof.
  intros data i rest fuel _ _ _. exists fuel. rewrite Z.add_0_r. split; [simpl; lia|done].
Qed.

Lemma reads_app b1 b2 m m1 m2 : reads b1 m m1 -> reads b2 m1 m2 -> reads (b1 ++ b2) m m2.
Proof.
  intros H1 H2 data i rest fuel Hd Hat Hf. rewrite length_app in *.
  apply at_app_l in Hat as [Hat1 Hat2].
  destruct (H1 data i (b2 ++ rest) fuel) as (f1 & Hf1 & ->); [done|done|lia|].
  destruct (H2 data (i + len b1) rest f1) as (f2 & Hf2 & ->); [done|done|lia|].
  exists f2. rewrite len_app, Z.add_assoc. split; [lia|done].
Qed.

(** A field whose handler may look at the fields [b2] that follow. *)
Lemma reads_then w h bs b2 m m1 m' :
  0 <= w < W64 -> fields (i32 (Z.shiftr w 3)) = Some h -> Z.land w 7 <> 4 ->
  0 < i32 (Z.shiftr w 3) ->
  (forall data i rest, len data < 2 ^ 63 -> at_ data i (bs ++ b2 ++ rest) ->
     h (Z.land w 7) m data i = Ret m1 (i + len bs)) ->
  reads b2 m1 m' -> reads (varint w ++ bs ++ b2) m m'.
Proof.
  intros Hw Hh H4 Hf0 Ht H2 data i rest fuel Hd Hat Hf.
  assert (exists b r, varint w = b :: r) as (b & r & Hvar).
  { unfold varint. rewrite varintBytes_step by lia. destruct (128 <=? w); eauto. }
  assert (0 < length (varint w))%nat as Hpos by (rewrite Hvar; simpl; lia).
  rewrite !length_app in *. destruct fuel as [|fuel]; [lia|].
  apply at_app_l in Hat as [Hat1 Hat2]. pose proof Hat2 as Hat3.
  rewrite <- app_assoc in Hat2, Hat3. apply at_app in Hat3.
  destruct (H2 data (i + len (varint w) + len bs) rest fuel) as (f' & Hf' & E2); [done..|lia|].
  exists f'. split; [lia|]. simpl unmarshalF. unfold mbind at 1, M_bind at 1, get.
  rewrite (proj2 (Z.ltb_lt _ _)); cycle 1.
  { rewrite Hvar in Hat1. apply (at_byte _ _ _ _ Hat1). }
  unfold mbind at 1, M_bind at 1.
  erewrite (readVarint_spec u64 w data i); [|done|by apply fits_u64|exact Hat1]. cbv zeta.
  rewrite (proj2 (Z.eqb_neq _ _)), (proj2 (Z.leb_gt _ _)) by done. rewrite Hh.
  unfold mbind, M_bind. rewrite (Ht data (i + len (varint w)) rest) by done.
  rewrite E2, !len_app. f_equal. lia.
Qed.

Lemma reads_field w h bs m m' :
  0 <= w < W64 -> fields (i32 (Z.shiftr w 3)) = Some h -> Z.land w 7 <> 4 ->
  0 < i32 (Z.shiftr w 3) -> takes (h (Z.land w 7)) bs m m' -> reads (varint w ++ bs) m m'.
Proof.
  intros Hw Hh H4 Hf0 Ht. rewrite <- (app_nil_r bs).
  eapply reads_then; [done..| |apply reads_nil]. intros data i rest. apply Ht.
Qed.

Lemma unmarshal_reads bs m m' :
  len bs < 2 ^ 63 -> reads bs m m' -> unmarshal checked fields m bs = OK m'.
Proof.
  intros Hl Hr. unfold unmarshal, runReader.
  destruct (Hr bs 0 [] (S (length bs))) as (fuel & Hf & ->); [done| |lia|].
  { split_and!; [done|apply len_nonneg|]. by rewrite app_nil_r. }
  destruct fuel as [|fuel]; [lia|]. simpl. unfold mbind, M_bind, get.
  by rewrite Z.add_0_l, !Z.ltb_irrefl.
Qed.

(** The writer [c] writes [n] bytes that take the reader from [m] to [m']. *)
Definition codes (c : M wstate unit) (n : Z) (m m' : A) : Prop :=
  0 <= n /\ writes c n (fun bs => reads bs m m').

Lemma codes_skip m : codes skip 0 m m.
Proof. split; [done|]. apply writes_skip, reads_nil. Qed.

Lemma codes_bind c1 c2 n1 n2 m m1 m2 :
  codes c1 n1 m m1 -> codes c2 n2 m1 m2 -> codes (c1 ;; c2) (n1 + n2) m m2.
Proof.
  intros [Hn1 H1] [Hn2 H2]. split; [lia|].
  eapply writes_weaken; [by apply writes_bind|].
  intros bs (b1 & b2 & -> & ? & ?). by eapply reads_app.
Qed.

Lemma codes_forM {X} (xs : list X) (f : X -> M wstate unit) (n : X -> Z) (g : A -> X -> A) m :
  (forall x m, x ∈ xs -> codes (f x) (n x) m (g m x)) ->
  codes (forM_ xs f) (foldr (fun x t => n x + t) 0 xs) m (fold_left g xs m).
Proof.
  revert m. induction xs as [|x xs IH]; intros m Hx; [apply codes_skip|].
  apply codes_bind with (g m x); [apply Hx; set_solver|]. apply IH. set_solver.
Qed.

(** A field: its tag [w], then a payload the handler of the field takes. *)
Lemma codes_field tag w h c n m m' :
  map toByte tag = varint w -> 0 <= w < W64 -> fields (i32 (Z.shiftr w 3)) = Some h ->
  Z.land w 7 <> 4 -> 0 < i32 (Z.shiftr w 3) -> 0 <= n ->
  writes c n (fun bs => takes (h (Z.land w 7)) bs m m') ->
  codes (putTag tag ;; c) (len tag + n) m m'.
Proof.
  intros Htag Hw Hh H4 Hf Hn Hc. split; [pose proof (len_nonneg tag); lia|].
  eapply writes_weaken; [apply writes_bind; [done|apply writes_putTag|exact Hc]|].
  intros bs (b1 & b2 & -> & <- & Ht). rewrite Htag. by eapply reads_field.
Qed.

End codes.

(** ** Payloads *)

Section payload.
Context {A : Type}.
Implicit Types (m : A).

Lemma takes_varint wrap (set : Z -> A -> A) v m :
  0 <= v < W64 -> fits_width wrap v ->
  takes (varintField wrap set 0) (varint v) m (set v m).
Proof.
  intros Hv Hw data i rest Hd Hat. unfold varintField. simpl. unfold mbind, M_bind.
  by rewrite (readVarint_spec wrap v data i rest).
Qed.

Lemma payload_varint wrap (set : Z -> A -> A) v m :
  0 <= v < W64 -> fits_width wrap v ->
  writes (encodeVarintRaft v) (sovRaft v)
    (fun bs => takes (varintField wrap set 0) bs m (set v m)).
Proof.
  intros Hv Hw. eapply writes_weaken; [by apply writes_varint|].
  intros bs <-. by apply takes_varint.
Qed.

Lemma payload_bool (set : bool -> A -> A) (b : bool) m :
  writes (putByte (if b then 1 else 0)) 1 (fun bs => takes (boolField set 0) bs m (set b m)).
Proof.
  eapply writes_weaken; [apply writes_putByte|]. intros bs <-.
  set (v := if b then 1 else 0). assert (0 <= v <= 1) as Hv by (destruct b; simpl; lia).
  assert ([toByte v] = varint v) as ->.
  { unfold varint. rewrite varintBytes_step by lia. by rewrite (proj2 (Z.leb_gt _ _)) by lia. }
  replace (set b m) with ((fun v => set (negb (v =? 0))) v m) by (by destruct b).
  apply takes_varint; [lia|]. apply fits_i64. lia.
Qed.

Lemma takes_block checked bs :
  takes (fun _ : unit => readBlock checked) (varint (len bs) ++ bs) tt bs.
Proof.
  intros data i rest Hd Hat. apply at_app_l in Hat as [Hat1 Hat2].
  pose proof (at_len _ _ _ Hat2) as Hlen. rewrite len_app in Hlen.
  pose proof (len_nonneg bs). pose proof (len_nonneg rest). pose proof (len_nonneg (varint (len bs))).
  unfold readBlock, mbind, M_bind.
  assert (0 <= i) as Hi by apply Hat1.
  rewrite (readVarint_spec i64 (len bs) data i (bs ++ rest)); [|lia|apply fits_i64; lia|done].
  rewrite (proj2 (Z.ltb_ge _ _)) by lia. unfold get. cbv zeta.
  set (j := i + len (varint (len bs))) in *.
  assert (i64 (j + len bs) = j + len bs) as -> by (apply (fits_i64 (j + len bs)); lia).
  rewrite (proj2 (Z.ltb_ge (j + len bs) 0)), andb_false_r by lia.
  rewrite (proj2 (Z.ltb_ge (len data) _)), (proj2 (Z.ltb_ge _ j)) by lia.
  unfold set_, modify, ret. rewrite len_app, Z.add_assoc. fold j. f_equal.
  replace (j + len bs - j) with (len bs) by lia. by eapply at_take.
Qed.

Lemma payload_block checked bs c n (set : bytes -> A -> A) m :
  len bs < 2 ^ 63 -> writes c n (eq bs) ->
  writes (encodeVarintRaft (len bs) ;; c) (sovRaft (len bs) + n)
    (fun b : bytes => takes (bytesField checked set 2) b m (set bs m)).
Proof.
  intros Hl Hc. pose proof (len_nonneg bs).
  assert (0 <= n) as Hn.
  { destruct (Hc (mkW [] n 0)) as (? & ? & _ & <- & _); [simpl; lia|apply len_nonneg]. }
  eapply writes_weaken; [apply writes_bind; [done|apply writes_varint; lia|exact Hc]|].
  intros b (b1 & b2 & -> & <- & <-) data i rest Hd Hat. unfold bytesField. simpl.
  unfold mbind, M_bind. by rewrite (takes_block checked bs data i rest).
Qed.

Lemma payload_string checked s (set : string -> A -> A) m :
  slen s < 2 ^ 63 ->
  writes (encodeVarintRaft (slen s) ;; copyBytes (String.list_byte_of_string s))
    (sovRaft (slen s) + slen s)
    (fun b => takes (stringField checked set 2) b m (set s m)).
Proof.
  intros Hl.
  pose proof (payload_block checked _ _ _ (fun bs => set (String.string_of_list_byte bs)) m Hl
           (writes_copyBytes _)) as Hp.
  cbv beta in Hp. by rewrite String.string_of_list_byte_of_string in Hp.
Qed.

Lemma payload_msg {B} checked (dec : B -> bytes -> result B) sub (set : B -> A -> A) c n m b :
  0 <= n < 2 ^ 63 -> writes c n (fun bs => len bs < 2 ^ 63 -> dec (sub m) bs = OK b) ->
  writes (encodeVarintRaft n ;; c) (sovRaft n + n)
    (fun bs => takes (msgField checked dec sub set 2) bs m (set b m)).
Proof.
  intros Hn Hc.
  assert (writes c n (fun bs => len bs = n /\ dec (sub m) bs = OK b)) as Hc'.
  { intros s Hs. destruct (Hc s Hs) as (bs & k & E & L & P). exists bs, k.
    split_and!; [done..|]. apply P. lia. }
  eapply writes_weaken; [apply writes_bind; [lia|apply writes_varint; lia|exact Hc']|].
  intros bs (b1 & b2 & -> & <- & <- & Hdec) data i rest Hd Hat. unfold msgField. simpl.
  unfold mbind, M_bind. rewrite (takes_block checked b2 data i rest) by done.
  unfold readr. by rewrite Hdec.
Qed.

(** *** Maps *)

(** The encoding of one entry, with the tag [tv] of its value. *)
Lemma takes_mapEntry {V} (readV : V -> reader V) (zero v : V) tv k vb fuel :
  0 <= k < W64 -> 0 <= tv < 128 -> i32 (Z.shiftr tv 3) = 2 -> takes readV vb zero v ->
  (3 <= fuel)%nat ->
  let bs := varint 0x8 ++ varint k ++ varint tv ++ vb in
  forall data i rest, len data < 2 ^ 63 -> at_ data i (bs ++ rest) ->
  mapEntryF readV fuel (i + len bs) 0 zero data i = Ret (k, v) (i + len bs).
Proof.
  intros Hk Htv Hf2 Hv Hfuel bs data i rest Hd Hat.
  destruct fuel as [|[|[|fuel]]]; [lia..|].
  pose proof Hat as Hat0. subst bs. rewrite <- !app_assoc in Hat.
  assert (forall w b, len (varint w ++ b) = len (varint w) + len b) as Hla by (intros; apply len_app).
  assert (forall w, 0 < len (varint w)) as Hpos.
  { intros w. unfold varint, len. cbn [varintBytes]. destruct (128 <=? w); simpl; lia. }
  pose proof (Hpos 8). pose proof (Hpos k). pose proof (Hpos tv). pose proof (len_nonneg vb).
  rewrite !Hla. pose proof (at_app _ _ _ _ Hat) as Hat1. pose proof (at_app _ _ _ _ Hat1) as Hat2.
  pose proof (at_app _ _ _ _ Hat2) as Hat3.
  simpl mapEntryF. unfold mbind, M_bind, get.
  rewrite (proj2 (Z.ltb_lt i _)) by lia.
  erewrite (readVarint_spec u64 8 data i); [|lia|apply fits_u64; lia|exact Hat].
  change (i32 (8 ≫ 3) =? 1) with true. cbv iota beta.
  erewrite (readVarint_spec u64 k data); [|lia|apply fits_u64; lia|exact Hat1].
  rewrite (proj2 (Z.ltb_lt _ _)) by lia.
  erewrite (readVarint_spec u64 tv data); [|lia|apply fits_u64; lia|exact Hat2].
  rewrite Hf2. change (2 =? 1) with false. change (2 =? 2) with true. cbv iota beta.
  rewrite (Hv data _ rest Hd Hat3).
  rewrite (proj2 (Z.ltb_ge _ _)) by lia. unfold ret. f_equal. lia.
Qed.

Lemma payload_map {V} (zero v : V) (readV : V -> reader V) sub (set : gmap Z V -> A -> A)
    tv k c n size m :
  size = 1 + sovRaft k + 1 + n -> 0 <= k < W64 -> 0 <= tv < 128 -> i32 (Z.shiftr tv 3) = 2 -> 0 <= n ->
  sovRaft k + n + 2 < 2 ^ 63 ->
  writes c n (fun vb => takes readV vb zero v) ->
  writes (encodeVarintRaft size ;; putVarint [0x8] k ;; putTag [tv] ;; c) (sovRaft size + size)
    (fun bs => takes (mapField zero readV sub set 2) bs m (set (<[k := v]> (sub m)) m)).
Proof.
  intros Hsz Hk Htv Hf2 Hn Hsize Hc.
  assert (0 <= sovRaft k) as Hsk by (rewrite sovRaft_spec by done; apply len_nonneg).
  assert (writes (putVarint [0x8] k ;; putTag [tv] ;; c) size
    (fun bs => len bs = size /\ exists vb, bs = varint 0x8 ++ varint k ++ varint tv ++ vb /\
                 takes readV vb zero v)) as Hw.
  { replace size with ((1 + sovRaft k) + (1 + n)) by lia.
    assert (writes (putVarint [0x8] k) (1 + sovRaft k) (eq (varint 0x8 ++ varint k))) as H1.
    { eapply writes_weaken;
        [apply writes_bind; [done|apply (writes_putTag [0x8])|by apply writes_varint]|].
      by intros ? (? & ? & -> & <- & <-). }
    assert (writes (putTag [tv] ;; c) (1 + n)
      (fun bs => exists vb, bs = varint tv ++ vb /\ takes readV vb zero v)) as H2.
    { eapply writes_weaken; [apply writes_bind; [done|apply (writes_putTag [tv])|exact Hc]|].
      intros ? (? & vb & -> & <- & ?). exists vb. split; [|done]. simpl. f_equal.
      unfold varint. rewrite varintBytes_step by lia. by rewrite (proj2 (Z.leb_gt _ _)) by lia. }
    intros s Hs. assert (0 <= 1 + n) as Hn1 by lia.
    destruct (writes_bind _ _ _ _ _ _ Hn1 H1 H2 s Hs)
      as (bs & ck & E & L & b1 & b2 & -> & <- & vb & -> & Hv).
    eexists _, ck. split_and!; [exact E|done..|]. exists vb. by rewrite <- app_assoc. }
  eapply writes_weaken; [apply writes_bind; [lia|apply writes_varint; lia|exact Hw]|].
  intros bs (b1 & b2 & -> & <- & Hl & vb & -> & Hv) data i rest Hd Hat.
  apply at_app_l in Hat as [Hat1 Hat2]. pose proof (at_len _ _ _ Hat2) as Hlen.
  rewrite len_app in Hlen. pose proof (len_nonneg rest). pose proof (len_nonneg (varint size)).
  assert (0 <= i) as Hi by apply Hat1. unfold mapField. simpl (negb _). cbv iota.
  unfold mbind, M_bind.
  erewrite (readVarint_spec i64 size data i); [|lia|apply fits_i64; lia|exact Hat1].
  rewrite (proj2 (Z.ltb_ge size 0)) by lia. unfold get. cbv zeta.
  set (j := i + len (varint size)) in *.
  assert (i64 (j + size) = j + size) as -> by (apply (fits_i64 (j + size)); lia).
  rewrite (proj2 (Z.ltb_ge (j + size) 0)), (proj2 (Z.ltb_ge (len data) _)) by lia.
  assert (3 <= S (length data))%nat as Hfuel by (unfold len in *; lia).
  pose proof (takes_mapEntry readV zero v tv k vb _ Hk Htv Hf2 Hv Hfuel data j rest Hd Hat2) as Hm.
  cbv zeta in Hm. rewrite Hl in Hm. rewrite Hm.
  unfold set_, modify, ret. rewrite (len_app (varint size)), Hl. subst j. f_equal. lia.
Qed.

End payload.
