(* ===== verification/EntryCodec.v ===== *)
(** * The encoding of log entries

    The hand-written codec of [pb.Entry] in [raft/raftpb/raft_optimized.go]
    ([Size], [marshalTo], [unmarshal]): each field that is not zero is its number
    and a varint, or its number with the high bit set and eight big-endian bytes
    when the value is at least [1<<49]; the last byte is [0x7f]. *)
From S2P Require Import Prelude Raftpb LogDB Wire WireSpec.
From Stdlib Require Import Strings.Byte.

(** ** Enumerations as numbers *)

Definition EntryType_toZ (t : pb.EntryType) : Z :=
  match t with
  | pb.ApplicationEntry => 0 | pb.ConfigChangeEntry => 1
  | pb.EncodedEntry => 2 | pb.MetadataEntry => 3 | pb.OtherEntry n => n
  end.
Definition EntryType_ofZ (n : Z) : pb.EntryType :=
  match n with
  | 0 => pb.ApplicationEntry | 1 => pb.ConfigChangeEntry
  | 2 => pb.EncodedEntry | 3 => pb.MetadataEntry | _ => pb.OtherEntry n
  end.

Module Entry.

Definition ColferSizeMax : Z := 8 * 1024 * 1024 * 1024 * 1024.

(** ** Size *)

(** [for ...; x >= 0x80; l++ { x >>= 7 }]: how often the body runs. *)
Fixpoint groups (fuel : nat) (x : Z) : Z :=
  match fuel with
  | O => 0
  | S fuel => if 0x80 <=? x then 1 + groups fuel (Z.shiftr x 7) else 0
  end.

Definition sizeU64 (x : Z) : Z :=
  if 2 ^ 49 <=? x then 9 else if negb (x =? 0) then 2 + groups 10 x else 0.

(** [^x + 1] on [uint32] *)
Definition neg32 (x : Z) : Z := u32 (- x).

Definition sizeType (v : Z) : Z :=
  if negb (v =? 0) then
    let x := u32 v in
    let x := if v <? 0 then neg32 x else x in
    2 + groups 10 x
  else 0.

Definition Size (m : pb.Entry) : result Z :=
  let l := 1 + sizeU64 (pb.e_Term m) + sizeU64 (pb.e_Index m)
             + sizeType (EntryType_toZ (pb.e_Type m)) + sizeU64 (pb.e_Key m)
             + sizeU64 (pb.e_ClientID m) + sizeU64 (pb.e_SeriesID m)
             + sizeU64 (pb.e_RespondedTo m) in
  let x := len (pb.e_Cmd m) in
  l ← (if negb (x =? 0) then
         if ColferSizeMax <? x then PANIC (PanicMsg "max size reached")
         else OK (l + x + 2 + groups 10 x)
       else OK l);
  if ColferSizeMax <? l then PANIC (PanicMsg "max size reached") else OK l.

(** ** Writing *)

Fixpoint putGroups (fuel : nat) (x : Z) : M wstate unit :=
  match fuel with
  | O => panic_ OutOfFuel
  | S fuel =>
      if 0x80 <=? x then putByte (Z.lor x 0x80) ;; putGroups fuel (Z.shiftr x 7)
      else putByte x
  end.

(** [intconv.PutUint64], with [intconv] big-endian *)
Definition putBE64 (x : Z) : M wstate unit :=
  forM_ [56; 48; 40; 32; 24; 16; 8; 0] (fun s => putByte (Z.shiftr x s)).

Definition putU64 (n x : Z) : M wstate unit :=
  if 2 ^ 49 <=? x then putByte (Z.lor n 0x80) ;; putBE64 x
  else if negb (x =? 0) then putByte n ;; putGroups 10 x
  else skip.

Definition putType (v : Z) : M wstate unit :=
  if negb (v =? 0) then
    let x := u32 v in
    if 0 <=? v then putByte 2 ;; putGroups 10 x
    else putByte (Z.lor 2 0x80) ;; putGroups 10 (neg32 x)
  else skip.

Definition putCmd (cmd : bytes) : M wstate unit :=
  if negb (len cmd =? 0) then putByte 7 ;; putGroups 10 (len cmd) ;; copyBytes cmd
  else skip.

Definition MarshalTo (m : pb.Entry) : M wstate unit :=
  putU64 0 (pb.e_Term m) ;;
  putU64 1 (pb.e_Index m) ;;
  putType (EntryType_toZ (pb.e_Type m)) ;;
  putU64 3 (pb.e_Key m) ;;
  putU64 4 (pb.e_ClientID m) ;;
  putU64 5 (pb.e_SeriesID m) ;;
  putU64 6 (pb.e_RespondedTo m) ;;
  putCmd (pb.e_Cmd m) ;;
  putByte 0x7f.

(** ** Reading *)

Definition EOF : error := ErrMsg "EOF".
Definition errColferMax : error := ErrMsg "colfer: size exceeds the limit".
Definition ColferError (i : Z) : error := ErrOther i.

(** The label [eof]. *)
Definition eof {A} : M Z A :=
  i ← get; fail (if ColferSizeMax <=? i then errColferMax else EOF).

Definition atEnd (data : bytes) : M Z bool := gets (fun i => len data <=? i).

(** [header = data[i]; i++] *)
Definition nextHeader (data : bytes) : M Z Z :=
  h ← readr (byteAt data); modify (Z.add 1) ;; ret h.

(** The continuation of a [uint64]: the shifts 7 to 56. *)
Fixpoint moreU64 (fuel : nat) (shift x : Z) (data : bytes) : M Z Z :=
  match fuel with
  | O => panic_ OutOfFuel
  | S fuel =>
      b ← readr (byteAt data);
      modify (Z.add 1) ;;
      e ← atEnd data;
      if e : bool then eof
      else if (b <? 0x80) || (shift =? 56) then ret (Z.lor x (u64 (Z.shiftl b shift)))
      else moreU64 fuel (shift + 7) (Z.lor x (u64 (Z.shiftl (Z.land b 0x7f) shift))) data
  end.

(** [intconv.Uint64(data[start:])] *)
Definition be64 (data : bytes) (start : Z) : result Z :=
  fold_left (fun r k => x ← r; b ← byteAt data (start + k); OK (x * 256 + b))
    [0; 1; 2; 3; 4; 5; 6; 7] (OK 0).

(** The block for field [n]: the field's value if it is present, and the next
    header. *)
Definition getU64 (n header x0 : Z) (data : bytes) : M Z (Z * Z) :=
  if header =? n then
    start ← get;
    modify (Z.add 1) ;;
    e ← atEnd data;
    if e : bool then eof
    else
      x ← readr (fun _ => byteAt data start);
      x ← (if 0x80 <=? x then moreU64 8 7 (Z.land x 0x7f) data else ret x);
      h ← nextHeader data; ret (x, h)
  else if header =? Z.lor n 0x80 then
    start ← get;
    modify (Z.add 8) ;;
    e ← atEnd data;
    if e : bool then eof
    else x ← readr (fun _ => be64 data start); h ← nextHeader data; ret (x, h)
  else ret (x0, header).

(** The continuation of a [uint32]; every round takes a byte. *)
Fixpoint moreU32 (fuel : nat) (shift x : Z) (data : bytes) : M Z Z :=
  match fuel with
  | O => panic_ OutOfFuel
  | S fuel =>
      b ← readr (byteAt data);
      modify (Z.add 1) ;;
      e ← atEnd data;
      if e : bool then eof
      else if b <? 0x80 then ret (Z.lor x (u32 (Z.shiftl b shift)))
      else moreU32 fuel (shift + 7) (Z.lor x (u32 (Z.shiftl (Z.land b 0x7f) shift))) data
  end.

Definition getU32 (data : bytes) : M Z Z :=
  e ← gets (fun i => len data <=? i + 1);
  if e : bool then modify (Z.add 1) ;; eof
  else
    x ← readr (byteAt data);
    modify (Z.add 1) ;;
    if 0x80 <=? x then moreU32 (S (length data)) 7 (Z.land x 0x7f) data else ret x.

Definition getType (header x0 : Z) (data : bytes) : M Z (Z * Z) :=
  if header =? 2 then x ← getU32 data; h ← nextHeader data; ret (i32 x, h)
  else if header =? Z.lor 2 0x80 then
    x ← getU32 data; h ← nextHeader data; ret (i32 (neg32 x), h)
  else ret (x0, header).

(** The continuation of the length of [Cmd]; every round takes a byte. *)
Fixpoint moreLen (fuel : nat) (shift x : Z) (data : bytes) : M Z Z :=
  match fuel with
  | O => panic_ OutOfFuel
  | S fuel =>
      e ← atEnd data;
      if e : bool then eof
      else
        b ← readr (byteAt data);
        modify (Z.add 1) ;;
        if b <? 0x80 then ret (Z.lor x (u64 (Z.shiftl b shift)))
        else moreLen fuel (shift + 7) (Z.lor x (u64 (Z.shiftl (Z.land b 0x7f) shift))) data
  end.

Definition getCmd (header : Z) (c0 : bytes) (data : bytes) : M Z (bytes * Z) :=
  if header =? 7 then
    e ← atEnd data;
    if e : bool then eof
    else
      x ← readr (byteAt data);
      modify (Z.add 1) ;;
      x ← (if 0x80 <=? x then moreLen (S (length data)) 7 (Z.land x 0x7f) data else ret x);
      if ColferSizeMax <? x then fail errColferMax
      else
        start ← get;
        modify (Z.add x) ;;
        e ← atEnd data;
        if e : bool then eof
        else h ← nextHeader data; ret (takeZ x (dropZ start data), h)
  else ret (c0, header).

(** [unmarshal] on an entry [m]; the fields that are absent keep their value. *)
Definition unmarshal (m : pb.Entry) (data : bytes) : M Z pb.Entry :=
  if len data =? 0 then fail EOF
  else
    h ← nextHeader data;
    '(tm, h) ← getU64 0 h (pb.e_Term m) data;
    '(idx, h) ← getU64 1 h (pb.e_Index m) data;
    '(ty, h) ← getType h (EntryType_toZ (pb.e_Type m)) data;
    '(key, h) ← getU64 3 h (pb.e_Key m) data;
    '(cid, h) ← getU64 4 h (pb.e_ClientID m) data;
    '(sid, h) ← getU64 5 h (pb.e_SeriesID m) data;
    '(rto, h) ← getU64 6 h (pb.e_RespondedTo m) data;
    '(cmd, h) ← getCmd h (pb.e_Cmd m) data;
    i ← get;
    if negb (h =? 0x7f) then fail (ColferError (i - 1))
    else if i <? ColferSizeMax
    then ret (pb.mkEntry tm idx (EntryType_ofZ ty) key cid sid rto cmd)
    else eof.

Definition Unmarshal (m : pb.Entry) (data : bytes) : result pb.Entry :=
  r ← runReader (unmarshal m data); OK r.1.

End Entry.
