(* ===== verification/EntryCodecSpec.v ===== *)
(** * Log entries: encoding and decoding are inverse

    [Entry.MarshalTo] writes exactly [Entry.Size] bytes and [Entry.Unmarshal]
    reads the entry back, for every entry whose command is below the limit of the
    format. *)
From S2P Require Import Prelude Raftpb LogDB Wire WireSpec EntryCodec.
From Stdlib Require Import Strings.Byte.

Import Entry.

(** ** Seven-bit groups *)

Lemma lor_128_mod x : 0 <= x -> Z.lor x 0x80 mod 256 = x mod 128 + 128.
Proof.
  intros Hx. change 256 with (2 ^ 8). rewrite <- Z.land_ones, Z.land_lor_distr_l by lia.
  rewrite Z.land_ones by lia. change (2 ^ 8) with 256. change (Z.land 128 (Z.ones 8)) with 128.
  pose proof (Z.mod_pos_bound x 128 ltac:(lia)).
  assert (x mod 256 = x mod 128 \/ x mod 256 = x mod 128 + 128) as [-> | ->]
    by (Z.div_mod_to_equations; lia).
  - by apply lor_128.
  - rewrite <- (lor_128 (x mod 128)) by lia. by rewrite <- Z.lor_assoc, Z.lor_diag.
Qed.

Lemma toByte_lor x : 0 <= x -> toByte (Z.lor x 0x80) = toByte (x mod 128 + 128).
Proof.
  intros Hx. unfold toByte. rewrite lor_128_mod by done.
  pose proof (Z.mod_pos_bound x 128 ltac:(lia)). by rewrite (Z.mod_small (_ + _)) by lia.
Qed.

Lemma varintBytes_fuel f f' v :
  (0 < f <= f')%nat -> 0 <= v < 128 ^ Z.of_nat f -> varintBytes f' v = varintBytes f v.
Proof.
  revert f' v. induction f as [|f IH]; intros f' v Hf Hv; [lia|].
  destruct f' as [|f']; [lia|]. rewrite !varintBytes_step by lia.
  destruct (Z.leb_spec 128 v); [|done]. f_equal.
  rewrite Nat2Z.inj_succ, Z.pow_succ_r in Hv by lia.
  destruct f as [|f]; [simpl in Hv; lia|]. apply IH; [lia|]. split.
  - apply Z.div_pos; lia.
  - apply Z.div_lt_upper_bound; lia.
Qed.

Lemma groups_spec fuel x :
  (0 < fuel)%nat -> 0 <= x < 128 ^ Z.of_nat fuel -> 1 + groups fuel x = len (varintBytes fuel x).
Proof.
  revert x. induction fuel as [|fuel IH]; intros x Hf Hx; [lia|].
  rewrite Nat2Z.inj_succ, Z.pow_succ_r in Hx by lia.
  rewrite varintBytes_step by lia. simpl groups. rewrite Z.shiftr_div_pow2 by lia.
  change (2 ^ 7) with 128. destruct (Z.leb_spec 128 x); [|done].
  rewrite len_cons, <- IH; [lia| |Z.div_mod_to_equations; nia].
  destruct fuel; [simpl in *; lia|lia].
Qed.

Lemma writes_putGroups x :
  0 <= x < W64 -> writes (putGroups 10 x) (1 + groups 10 x) (eq (varint x)).
Proof.
  intros Hx. rewrite groups_spec by (simpl; lia). unfold varint.
  assert (0 <= x < 128 ^ Z.of_nat 10) as Hx' by (simpl; lia). clear Hx. revert x Hx'.
  assert (0 < 10)%nat as H10 by lia. revert H10. generalize 10%nat as fuel.
  induction fuel as [|fuel IH]; intros Hf x Hx; [lia|].
  rewrite Nat2Z.inj_succ, Z.pow_succ_r in Hx by lia.
  rewrite varintBytes_step by lia. simpl putGroups. rewrite Z.shiftr_div_pow2 by lia.
  change (2 ^ 7) with 128. destruct (Z.leb_spec 128 x); [|apply writes_putByte].
  rewrite len_cons. eapply writes_weaken;
    [apply writes_bind; [apply len_nonneg|apply writes_putByte|apply IH]|].
  - destruct fuel; [simpl in *; lia|lia].
  - Z.div_mod_to_equations; nia.
  - intros bs (b1 & b2 & -> & <- & <-). by rewrite toByte_lor by lia.
Qed.

(** One round of a reading loop: a group that is followed by others, and the
    last one. *)
Lemma group_more wrap v shift x :
  128 <= v -> 0 <= shift -> 0 <= x < 2 ^ shift -> fits_width wrap (v * 2 ^ shift) ->
  let x' := Z.lor x (wrap (Z.shiftl (Z.land (byteZ (toByte (v mod 128 + 128))) 0x7f) shift)) in
  x' = x + (v mod 128) * 2 ^ shift /\ 0 <= x' < 2 ^ (shift + 7) /\
  fits_width wrap (v / 128 * 2 ^ (shift + 7)).
Proof.
  intros Hv Hs Hx Hw. cbv zeta. pose proof (Z.mod_pos_bound v 128 ltac:(lia)) as Hm.
  assert (0 < 2 ^ shift) as Hp by (apply Z.pow_pos_nonneg; lia).
  assert (2 ^ (shift + 7) = 128 * 2 ^ shift) as Hp7 by (rewrite Z.pow_add_r; lia).
  pose proof (Z.div_mod v 128 ltac:(lia)) as Hdm.
  rewrite byteZ_toByte_small, land_127 by lia.
  rewrite Z.add_mod, Z.mod_same, Z.add_0_r, !Z.mod_mod by lia.
  rewrite Hw, lor_shiftl; [|lia|lia|rewrite Z.shiftl_mul_pow2 by lia; nia].
  split_and!; [done|nia|nia|]. intros y Hy. apply Hw. nia.
Qed.

Lemma group_last wrap v shift x :
  0 <= v < 128 -> 0 <= shift -> 0 <= x < 2 ^ shift -> fits_width wrap (v * 2 ^ shift) ->
  Z.lor x (wrap (Z.shiftl (byteZ (toByte v)) shift)) = x + v * 2 ^ shift.
Proof.
  intros Hv Hs Hx Hw. assert (0 < 2 ^ shift) as Hp by (apply Z.pow_pos_nonneg; lia).
  rewrite byteZ_toByte_small by lia.
  rewrite Hw, lor_shiftl; [done|lia|lia|rewrite Z.shiftl_mul_pow2 by lia; nia].
Qed.

(** The bytes of the loops: a group, then the rest of the number. *)
Lemma varintBytes_cases f v :
  (0 < f)%nat -> 0 <= v < 128 ^ Z.of_nat f ->
  (v < 128 /\ varintBytes f v = [toByte v]) \/
  (128 <= v /\ (1 < f)%nat /\ 0 <= v / 128 < 128 ^ Z.of_nat (f - 1) /\
   varintBytes f v = toByte (v mod 128 + 128) :: varintBytes (f - 1) (v / 128)).
Proof.
  intros Hf Hv. destruct f as [|f]; [lia|]. rewrite varintBytes_step by lia.
  rewrite Nat2Z.inj_succ, Z.pow_succ_r in Hv by lia.
  destruct (Z.leb_spec 128 v); [right|by left]. rewrite Nat.sub_succ, Nat.sub_0_r.
  split_and!; try done; [|Z.div_mod_to_equations; nia..].
  destruct f; [simpl in Hv; lia|lia].
Qed.

(** ** The reading loops *)

Lemma at_tail data i b bs : at_ data i (b :: bs) -> at_ data (1 + i) bs.
Proof. intros Hat. apply (at_app data i [b]) in Hat. by rewrite Z.add_comm. Qed.

Lemma at_nonempty data i bs : at_ data i bs -> bs <> [] -> (len data <=? i) = false.
Proof.
  intros Hat Hne. pose proof (at_len _ _ _ Hat). destruct bs; [done|].
  rewrite len_cons in *. pose proof (len_nonneg bs). apply Z.leb_gt. lia.
Qed.

(** One byte read by a loop, with bytes after it. *)
Ltac read_byte Hat Hby :=
  destruct (at_byte _ _ _ _ Hat) as [Hby _]; unfold mbind, M_bind, readr, modify, atEnd, gets;
  rewrite Hby.

Lemma moreU64_spec f : forall g v shift x data i rest,
  (0 < f <= g)%nat -> 0 <= v < 128 ^ Z.of_nat f -> 0 <= shift -> shift + 7 * Z.of_nat f <= 63 ->
  0 <= x < 2 ^ shift -> fits_width u64 (v * 2 ^ shift) -> rest <> [] ->
  at_ data i (varintBytes f v ++ rest) ->
  moreU64 g shift x data i = Ret (x + v * 2 ^ shift) (i + len (varintBytes f v)).
Proof.
  induction f as [|f IH]; intros g v shift x data i rest Hf Hv Hs Hs7 Hx Hw Hne Hat; [lia|].
  destruct g as [|g]; [lia|].
  destruct (varintBytes_cases (S f) v ltac:(lia) Hv) as [[Hlt Hb]|(Hge & Hf1 & Hv' & Hb)];
    rewrite Hb in *; simpl moreU64; read_byte Hat Hby; apply at_tail in Hat.
  - rewrite (at_nonempty _ _ _ Hat) by done. rewrite byteZ_toByte_small by lia.
    rewrite (proj2 (Z.ltb_lt v 128)) by done. simpl. rewrite <- (byteZ_toByte_small v) at 1 by lia.
    rewrite group_last by (done || lia). unfold ret, len. simpl. f_equal. lia.
  - rewrite Nat.sub_succ, Nat.sub_0_r in *.
    rewrite (at_nonempty _ _ _ Hat) by (simpl; destruct (varintBytes f _); [done|done]).
    destruct (group_more u64 v shift x) as (Hx' & Hr' & Hw'); [done..|]. cbv zeta in *.
    set (x' := Z.lor x _) in *. pose proof (Z.mod_pos_bound v 128 ltac:(lia)).
    rewrite byteZ_toByte_small by lia. rewrite (proj2 (Z.ltb_ge _ _)) by lia.
    rewrite (proj2 (Z.eqb_neq shift 56)) by lia. simpl.
    rewrite (IH g (v / 128) (shift + 7) x' data (1 + i) rest) by (done || lia).
    rewrite Hx', len_cons, Z.pow_add_r by lia. pose proof (Z.div_mod v 128 ltac:(lia)).
    f_equal; nia.
Qed.

Lemma moreU32_spec f : forall g v shift x data i rest,
  (0 < f <= g)%nat -> 0 <= v < 128 ^ Z.of_nat f -> 0 <= shift ->
  0 <= x < 2 ^ shift -> fits_width u32 (v * 2 ^ shift) -> rest <> [] ->
  at_ data i (varintBytes f v ++ rest) ->
  moreU32 g shift x data i = Ret (x + v * 2 ^ shift) (i + len (varintBytes f v)).
Proof.
  induction f as [|f IH]; intros g v shift x data i rest Hf Hv Hs Hx Hw Hne Hat; [lia|].
  destruct g as [|g]; [lia|].
  destruct (varintBytes_cases (S f) v ltac:(lia) Hv) as [[Hlt Hb]|(Hge & Hf1 & Hv' & Hb)];
    rewrite Hb in *; simpl moreU32; read_byte Hat Hby; apply at_tail in Hat.
  - rewrite (at_nonempty _ _ _ Hat) by done. rewrite byteZ_toByte_small by lia.
    rewrite (proj2 (Z.ltb_lt v 128)) by done. rewrite <- (byteZ_toByte_small v) at 1 by lia.
    rewrite group_last by (done || lia). unfold ret, len. simpl. f_equal. lia.
  - rewrite Nat.sub_succ, Nat.sub_0_r in *.
    rewrite (at_nonempty _ _ _ Hat) by (simpl; destruct (varintBytes f _); [done|done]).
    destruct (group_more u32 v shift x) as (Hx' & Hr' & Hw'); [done..|]. cbv zeta in *.
    set (x' := Z.lor x _) in *. pose proof (Z.mod_pos_bound v 128 ltac:(lia)).
    rewrite byteZ_toByte_small by lia. rewrite (proj2 (Z.ltb_ge _ _)) by lia.
    rewrite (IH g (v / 128) (shift + 7) x' data (1 + i) rest) by (done || lia).
    rewrite Hx', len_cons, Z.pow_add_r by lia. pose proof (Z.div_mod v 128 ltac:(lia)).
    f_equal; nia.
Qed.

Lemma moreLen_spec f : forall g v shift x data i rest,
  (0 < f <= g)%nat -> 0 <= v < 128 ^ Z.of_nat f -> 0 <= shift ->
  0 <= x < 2 ^ shift -> fits_width u64 (v * 2 ^ shift) ->
  at_ data i (varintBytes f v ++ rest) ->
  moreLen g shift x data i = Ret (x + v * 2 ^ shift) (i + len (varintBytes f v)).
Proof.
  induction f as [|f IH]; intros g v shift x data i rest Hf Hv Hs Hx Hw Hat; [lia|].
  destruct g as [|g]; [lia|].
  destruct (varintBytes_cases (S f) v ltac:(lia) Hv) as [[Hlt Hb]|(Hge & Hf1 & Hv' & Hb)];
    rewrite Hb in *; simpl moreLen; pose proof (at_nonempty _ _ _ Hat ltac:(done)) as Hend;
    unfold mbind at 1, M_bind at 1, atEnd, gets; rewrite Hend; read_byte Hat Hby;
    apply at_tail in Hat.
  - rewrite byteZ_toByte_small by lia.
    rewrite (proj2 (Z.ltb_lt v 128)) by done. rewrite <- (byteZ_toByte_small v) at 1 by lia.
    rewrite group_last by (done || lia). unfold ret, len. simpl. f_equal. lia.
  - rewrite Nat.sub_succ, Nat.sub_0_r in *.
    destruct (group_more u64 v shift x) as (Hx' & Hr' & Hw'); [done..|]. cbv zeta in *.
    set (x' := Z.lor x _) in *. pose proof (Z.mod_pos_bound v 128 ltac:(lia)).
    rewrite byteZ_toByte_small by lia. rewrite (proj2 (Z.ltb_ge _ _)) by lia.
    rewrite (IH g (v / 128) (shift + 7) x' data (1 + i) rest) by (done || lia).
    rewrite Hx', len_cons, Z.pow_add_r by lia. pose proof (Z.div_mod v 128 ltac:(lia)).
    f_equal; nia.
Qed.

(** ** Fields

    The reader has the header of the next field in hand; [pend] says which bytes
    it has still to deal with, that header first. *)
Definition pend (data : bytes) (i h : Z) (p : bytes) : Prop :=
  exists b rest, p = b :: rest /\ h = byteZ b /\ at_ data i rest.

(** The next field has a number greater than [n]. *)
Definition later (n : Z) (p : bytes) : Prop :=
  exists b rest, p = b :: rest /\ n < byteZ b mod 128.

Lemma nextHeader_spec data i p n :
  at_ data i p -> later n p ->
  exists h i', nextHeader data i = Ret h i' /\ pend data i' h p.
Proof.
  intros Hat (b & rest & -> & _). unfold nextHeader. read_byte Hat Hby.
  eexists _, _. split; [done|]. exists b, rest. split_and!; [done..|]. by eapply at_tail.
Qed.

Definition be (x : Z) : bytes :=
  map (fun s => toByte (Z.shiftr x s)) [56; 48; 40; 32; 24; 16; 8; 0].

Lemma writes_putBE64 x : writes (putBE64 x) 8 (eq (be x)).
Proof. apply (writes_forByte (Z.shiftr x) [56; 48; 40; 32; 24; 16; 8; 0]). Qed.

Lemma horner x s t :
  s = t + 8 -> 0 <= t -> Z.shiftr x s * 256 + Z.shiftr x t mod 256 = Z.shiftr x t.
Proof.
  intros -> Ht. rewrite <- Z.shiftr_shiftr by lia.
  rewrite (Z.shiftr_div_pow2 _ 8) by lia. change (2 ^ 8) with 256.
  pose proof (Z.div_mod (Z.shiftr x t) 256). lia.
Qed.

Lemma be64_spec data i x rest :
  0 <= x < W64 -> at_ data i (be x ++ rest) -> be64 data i = OK x.
Proof.
  intros Hx Hat. unfold be64, be in *. cbn [map app fold_left] in *.
  assert (Z.shiftr x 56 mod 256 = Z.shiftr x 56) as H56.
  { rewrite Z.shiftr_div_pow2 by lia. apply Z.mod_small. Z.div_mod_to_equations. lia. }
  do 8 (destruct (at_byte _ _ _ _ Hat) as [?Hb _]; apply at_tail in Hat).
  rewrite Z.add_0_r, Hb. cbn [mbind result_bind]. rewrite !byteZ_toByte in *. rewrite H56.
  replace (i + 1) with (1 + i) by lia. rewrite Hb0. cbn [mbind result_bind].
  replace (i + 2) with (1 + (1 + i)) by lia. rewrite Hb1. cbn [mbind result_bind].
  replace (i + 3) with (1 + (1 + (1 + i))) by lia. rewrite Hb2. cbn [mbind result_bind].
  replace (i + 4) with (1 + (1 + (1 + (1 + i)))) by lia. rewrite Hb3. cbn [mbind result_bind].
  replace (i + 5) with (1 + (1 + (1 + (1 + (1 + i))))) by lia. rewrite Hb4.
  cbn [mbind result_bind].
  replace (i + 6) with (1 + (1 + (1 + (1 + (1 + (1 + i)))))) by lia. rewrite Hb5.
  cbn [mbind result_bind].
  replace (i + 7) with (1 + (1 + (1 + (1 + (1 + (1 + (1 + i))))))) by lia. rewrite Hb6.
  cbn [mbind result_bind]. f_equal. rewrite Z.add_0_l.
  rewrite (horner x 56 48), (horner x 48 40), (horner x 40 32), (horner x 32 24),
    (horner x 24 16), (horner x 16 8), (horner x 8 0) by lia.
  apply Z.shiftr_0_r.
Qed.

Definition pieceU64 (n x : Z) : bytes :=
  if 2 ^ 49 <=? x then toByte (Z.lor n 0x80) :: be x
  else if negb (x =? 0) then toByte n :: varint x else [].

Lemma writes_putU64 n x : 0 <= x < W64 -> writes (putU64 n x) (sizeU64 x) (eq (pieceU64 n x)).
Proof.
  intros Hx. unfold putU64, sizeU64, pieceU64.
  destruct (Z.leb_spec (2 ^ 49) x).
  - change 9 with (1 + 8). eapply writes_weaken;
      [apply writes_bind; [lia|apply writes_putByte|apply writes_putBE64]|].
    by intros ? (? & ? & -> & <- & <-).
  - destruct (x =? 0); [by apply writes_skip|]. simpl (negb _). cbv iota.
    replace (2 + groups 10 x) with (1 + (1 + groups 10 x)) by lia. eapply writes_weaken;
      [apply writes_bind; [|apply writes_putByte|by apply writes_putGroups]|].
    + rewrite groups_spec by (simpl; lia). apply len_nonneg.
    + by intros ? (? & ? & -> & <- & <-).
Qed.

Lemma header_later n p data i h :
  0 <= n < 127 -> pend data i h p -> later n p ->
  (h =? n) = false /\ (h =? Z.lor n 0x80) = false.
Proof.
  intros Hn (b & rest & -> & -> & _) (b' & rest' & [= <- <-] & Hb).
  rewrite lor_128 by lia. pose proof (byteZ_range b).
  split; apply Z.eqb_neq; intros Heq; rewrite Heq in Hb.
  - rewrite Z.mod_small in Hb; lia.
  - rewrite Z.add_mod, Z.mod_same, Z.add_0_r, Z.mod_mod, Z.mod_small in Hb; lia.
Qed.

Lemma later_nonempty n p : later n p -> p <> [].
Proof. by intros (b & rest & -> & _). Qed.

(** The first byte of a varint and the rest, below [1<<49]. *)
Lemma getU64_spec n x data i h p :
  0 <= n < 127 -> 0 <= x < W64 -> pend data i h (pieceU64 n x ++ p) -> later n p ->
  exists h' i', getU64 n h 0 data i = Ret (x, h') i' /\ pend data i' h' p.
Proof.
  intros Hn Hx Hp Hlat. unfold getU64, pieceU64 in *.
  destruct (Z.leb_spec (2 ^ 49) x); [|destruct (Z.eqb_spec x 0) as [->|Hx0]; simpl in Hp].
  - destruct Hp as (b & rest & [= <- <-] & -> & Hat).
    rewrite byteZ_toByte_small by (rewrite lor_128; lia).
    rewrite (proj2 (Z.eqb_neq _ _)), Z.eqb_refl by (rewrite lor_128; lia).
    change (at_ data i (be x ++ p)) in Hat.
    pose proof (at_app _ _ _ _ Hat) as Hat'. change (len (be x)) with 8 in Hat'.
    rewrite Z.add_comm in Hat'. unfold mbind, M_bind, get, modify, atEnd, gets, readr.
    rewrite (at_nonempty _ _ _ Hat') by (by eapply later_nonempty).
    rewrite (be64_spec data i x p) by done.
    destruct (nextHeader_spec _ _ _ _ Hat' Hlat) as (h' & i' & -> & Hp').
    exists h', i'. by split.
  - destruct (header_later n p data i h) as [-> ->]; [done..|]. exists h, i. by split.
  - destruct Hp as (b & rest & [= <- <-] & -> & Hat).
    rewrite byteZ_toByte_small, Z.eqb_refl by lia.
    unfold mbind at 1, M_bind at 1, get. unfold mbind at 1, M_bind at 1, modify.
    unfold mbind at 1, M_bind at 1, atEnd, gets. unfold varint in Hat.
    destruct (varintBytes_cases 10 x) as [[Hlt Hb]|(Hge & _ & Hv' & Hb)]; [lia|simpl; lia|..];
      rewrite Hb in Hat; destruct (at_byte _ _ _ _ Hat) as [Hby _]; apply at_tail in Hat;
      rewrite (at_nonempty _ _ _ Hat) by
        (try (by eapply later_nonempty); simpl; by destruct (128 <=? x / 128));
      unfold mbind, M_bind, readr; rewrite Hby.
    + rewrite byteZ_toByte_small by lia. rewrite (proj2 (Z.leb_gt 128 x)) by lia. unfold ret.
      destruct (nextHeader_spec _ _ _ _ Hat Hlat) as (h' & i' & -> & Hp').
      exists h', i'. by split.
    + pose proof (Z.mod_pos_bound x 128 ltac:(lia)).
      rewrite byteZ_toByte_small by lia. rewrite (proj2 (Z.leb_le 128 _)) by lia.
      rewrite land_127, Z.add_mod, Z.mod_same, Z.add_0_r, !Z.mod_mod by lia.
      assert (0 <= x / 128 < 128 ^ 8) as Hx8 by (split; [lia|Z.div_mod_to_equations; lia]).
      change (10 - 1)%nat with 9%nat in Hat.
      rewrite (varintBytes_fuel 8 9) in Hat by (done || lia).
      rewrite (moreU64_spec 8 8 (x / 128) 7 (x mod 128) data (1 + i) p);
        [|done || lia..| |by eapply later_nonempty|done].
      * apply at_app in Hat.
        destruct (nextHeader_spec _ _ _ _ Hat Hlat) as (h' & i' & -> & Hp').
        exists h', i'. split; [|done]. unfold ret. do 2 f_equal.
        pose proof (Z.div_mod x 128). lia.
      * apply fits_u64. Z.div_mod_to_equations; lia.
Qed.

Definition pieceType (v : Z) : bytes := if negb (v =? 0) then toByte 2 :: varint v else [].

Lemma writes_putType v :
  0 <= v < 2 ^ 31 -> writes (putType v) (sizeType v) (eq (pieceType v)).
Proof.
  intros Hv. unfold putType, sizeType, pieceType. destruct (v =? 0); [by apply writes_skip|].
  simpl (negb _). cbv iota zeta. rewrite (proj2 (Z.leb_le 0 v)), (proj2 (Z.ltb_ge v 0)) by lia.
  assert (u32 v = v) as -> by (apply Z.mod_small; lia).
  replace (2 + groups 10 v) with (1 + (1 + groups 10 v)) by lia.
  eapply writes_weaken;
    [apply writes_bind; [|apply writes_putByte|apply writes_putGroups; lia]|].
  - rewrite groups_spec by (simpl; lia). apply len_nonneg.
  - by intros ? (? & ? & -> & <- & <-).
Qed.

(** As many rounds as there are bytes are enough. *)
Lemma varintBytes_exact f v :
  (0 < f)%nat -> 0 <= v < 128 ^ Z.of_nat f ->
  let n := length (varintBytes f v) in
  (0 < n <= f)%nat /\ v < 128 ^ Z.of_nat n /\ varintBytes n v = varintBytes f v.
Proof.
  revert v. induction f as [|f IH]; intros v Hf Hv; [lia|]. cbv zeta.
  destruct (varintBytes_cases (S f) v Hf Hv) as [[Hlt Hb]|(Hge & Hf1 & Hv' & Hb)]; rewrite Hb.
  - simpl. split_and!; [lia..|]. by rewrite (proj2 (Z.leb_gt _ _)) by lia.
  - rewrite Nat.sub_succ, Nat.sub_0_r in *.
    destruct (IH (v / 128)) as (Hn & Hlt & Heq); [lia|done|]. cbn [length].
    split_and!; [lia..| |].
    + rewrite Nat2Z.inj_succ, Z.pow_succ_r by lia. pose proof (Z.div_mod v 128).
      pose proof (Z.mod_pos_bound v 128). nia.
    + rewrite varintBytes_step by lia. by rewrite (proj2 (Z.leb_le _ _)), Heq by lia.
Qed.

(** The bytes of a number that has a continuation: its first byte, and the
    groups a reading loop with enough fuel finds after it. *)
Lemma varint_more v data i p :
  128 <= v < W64 -> at_ data i (varint v ++ p) ->
  exists f, (0 < f <= length data)%nat /\ 0 <= v / 128 < 128 ^ Z.of_nat f /\
    byteAt data i = OK (v mod 128 + 128) /\ at_ data (1 + i) (varintBytes f (v / 128) ++ p) /\
    len (varint v) = 1 + len (varintBytes f (v / 128)).
Proof.
  intros Hv Hat. unfold varint in *.
  destruct (varintBytes_cases 10 v) as [[Hlt _]|(_ & _ & Hv' & Hb)]; [lia|simpl; lia|lia|].
  rewrite Hb in *. change (10 - 1)%nat with 9%nat in *.
  destruct (varintBytes_exact 9 (v / 128)) as (Hn & Hlt & Heq); [lia|done|].
  destruct (at_byte _ _ _ _ Hat) as [Hby _]. apply at_tail in Hat.
  exists (length (varintBytes 9 (v / 128))). rewrite Heq, len_cons. split_and!; try done; try lia.
  - destruct Hat as (_ & _ & Hd). apply (f_equal length) in Hd. unfold dropZ in Hd.
    rewrite length_drop, length_app in Hd. lia.
  - rewrite Hby, byteZ_toByte_small; [done|]. pose proof (Z.mod_pos_bound v 128). lia.
Qed.

Lemma varint_one v data i p :
  0 <= v < 128 -> at_ data i (varint v ++ p) ->
  byteAt data i = OK v /\ at_ data (1 + i) p /\ len (varint v) = 1.
Proof.
  intros Hv Hat. unfold varint in *. rewrite varintBytes_step in * by lia.
  rewrite (proj2 (Z.leb_gt _ _)) in * by lia.
  destruct (at_byte _ _ _ _ Hat) as [Hby _]. rewrite byteZ_toByte_small in Hby by lia.
  split_and!; [done| |done]. by eapply at_tail.
Qed.

Lemma land_first v : 0 <= v mod 128 < 128 -> Z.land (v mod 128 + 128) 0x7f = v mod 128.
Proof. intros. rewrite land_127, Z.add_mod, Z.mod_same, Z.add_0_r, !Z.mod_mod by lia. done. Qed.

Lemma getU32_spec v data i p :
  0 <= v < 2 ^ 31 -> at_ data i (varint v ++ p) -> p <> [] ->
  getU32 data i = Ret v (i + len (varint v)).
Proof.
  intros Hv Hat Hp. unfold getU32, mbind, M_bind, gets, modify, readr.
  pose proof (at_len _ _ _ Hat) as Hlen. rewrite len_app in Hlen.
  assert (0 < len p) by (destruct p; [done|rewrite len_cons; pose proof (len_nonneg p); lia]).
  destruct (Z.lt_ge_cases v 128).
  - destruct (varint_one v data i p) as (Hby & _ & Hl); [lia|done|].
    rewrite (proj2 (Z.leb_gt (len data) _)), Hby, (proj2 (Z.leb_gt 128 v)), Hl by lia.
    unfold ret. f_equal. lia.
  - destruct (varint_more v data i p) as (f & Hf & Hv' & Hby & Hat' & Hl); [lia|done|].
    pose proof (Z.mod_pos_bound v 128 ltac:(lia)). pose proof (len_nonneg (varintBytes f (v / 128))).
    rewrite (proj2 (Z.leb_gt (len data) _)), Hby, (proj2 (Z.leb_le 128 _)), land_first by lia.
    rewrite (moreU32_spec f _ (v / 128) 7 (v mod 128) data (1 + i) p); [|lia..| |done|done].
    + rewrite Hl. f_equal; [pose proof (Z.div_mod v 128); lia|lia].
    + apply fits_u32. Z.div_mod_to_equations; lia.
Qed.

Lemma getType_spec v data i h p :
  0 <= v < 2 ^ 31 -> pend data i h (pieceType v ++ p) -> later 2 p ->
  exists h' i', getType h 0 data i = Ret (v, h') i' /\ pend data i' h' p.
Proof.
  intros Hv Hp Hlat. unfold getType, pieceType in *.
  destruct (Z.eqb_spec v 0) as [->|Hv0]; simpl in Hp.
  - destruct (header_later 2 p data i h) as [-> ->]; [lia|done..|]. exists h, i. by split.
  - destruct Hp as (b & rest & [= <- <-] & -> & Hat).
    change (byteZ (toByte 2) =? 2) with true. cbv iota. unfold mbind, M_bind.
    rewrite (getU32_spec v data i p) by (done || by eapply later_nonempty).
    apply at_app in Hat. destruct (nextHeader_spec _ _ _ _ Hat Hlat) as (h' & i' & -> & Hp').
    exists h', i'. split; [|done]. unfold ret. by rewrite (fits_i32 v Hv v) by lia.
Qed.

Definition pieceCmd (cmd : bytes) : bytes :=
  if negb (len cmd =? 0) then toByte 7 :: varint (len cmd) ++ cmd else [].

Lemma writes_putCmd cmd :
  len cmd < W64 -> writes (putCmd cmd)
    (if negb (len cmd =? 0) then len cmd + 2 + groups 10 (len cmd) else 0) (eq (pieceCmd cmd)).
Proof.
  intros Hl. unfold putCmd, pieceCmd. destruct (len cmd =? 0); [by apply writes_skip|].
  simpl (negb _). cbv iota. pose proof (len_nonneg cmd).
  replace (len cmd + 2 + groups 10 (len cmd)) with (1 + ((1 + groups 10 (len cmd)) + len cmd)) by lia.
  assert (0 <= 1 + groups 10 (len cmd)) by (rewrite groups_spec by (simpl; lia); apply len_nonneg).
  eapply writes_weaken; [apply writes_bind; [lia|apply writes_putByte|];
    apply writes_bind; [lia|apply writes_putGroups; lia|apply writes_copyBytes]|].
  by intros ? (? & ? & -> & <- & ? & ? & -> & <- & <-).
Qed.

Lemma getCmd_spec cmd data i h p :
  len cmd <= ColferSizeMax -> pend data i h (pieceCmd cmd ++ p) -> later 7 p ->
  exists h' i', getCmd h [] data i = Ret (cmd, h') i' /\ pend data i' h' p.
Proof.
  intros Hl Hp Hlat. unfold getCmd, pieceCmd in *. pose proof (len_nonneg cmd).
  destruct (Z.eqb_spec (len cmd) 0) as [Hz|Hz]; simpl in Hp.
  { destruct (header_later 7 p data i h) as [-> _]; [lia|done..|]. exists h, i. split; [|done].
    destruct cmd; [done|]. rewrite len_cons in Hz. pose proof (len_nonneg cmd). lia. }
  destruct Hp as (b & rest & [= <- <-] & -> & Hat). rewrite <- app_assoc in Hat.
  change (byteZ (toByte 7) =? 7) with true. cbv iota.
  assert (exists k, readr (byteAt data) i = Ret k i /\
    (if 0x80 <=? k then moreLen (S (length data)) 7 (Z.land k 0x7f) data else ret k) (1 + i)
    = Ret (len cmd) (i + len (varint (len cmd)))) as (k & Hk & Hmore).
  { unfold readr. destruct (Z.lt_ge_cases (len cmd) 128).
    - destruct (varint_one (len cmd) data i (cmd ++ p)) as (-> & _ & Hl1); [lia|done|].
      exists (len cmd). split; [done|]. rewrite (proj2 (Z.leb_gt _ _)), Hl1 by lia.
      unfold ret. f_equal. lia.
    - unfold ColferSizeMax in Hl.
      destruct (varint_more (len cmd) data i (cmd ++ p)) as (f & Hf & Hv' & -> & Hat' & Hl1);
        [lia|done|]. pose proof (Z.mod_pos_bound (len cmd) 128 ltac:(lia)).
      eexists. split; [done|]. rewrite (proj2 (Z.leb_le 128 _)), land_first by lia.
      rewrite (moreLen_spec f _ (len cmd / 128) 7 (len cmd mod 128) data (1 + i) (cmd ++ p));
        [|lia..| |done].
      + rewrite Hl1. f_equal; [pose proof (Z.div_mod (len cmd) 128); lia|lia].
      + apply fits_u64. Z.div_mod_to_equations; lia. }
  unfold mbind at 1, M_bind at 1, atEnd, gets.
  rewrite (at_nonempty _ _ _ Hat) by
    (unfold varint; rewrite varintBytes_step by lia; by destruct (128 <=? len cmd)).
  unfold mbind, M_bind at 1. rewrite Hk. unfold M_bind at 1, modify. unfold M_bind at 1. rewrite Hmore.
  rewrite (proj2 (Z.ltb_ge _ _)) by done. apply at_app in Hat. pose proof (at_app _ _ _ _ Hat) as Hat'.
  unfold M_bind, get, atEnd, gets.
  rewrite Z.add_comm, (at_nonempty _ _ _ Hat') by (by eapply later_nonempty).
  destruct (nextHeader_spec _ _ _ _ Hat' Hlat) as (h' & i' & -> & Hp').
  exists h', i'. split; [|done]. unfold ret. by rewrite (at_take _ _ _ _ Hat).
Qed.

(** ** Entries *)

(** The type has its canonical name and fits an [int32]. *)
Definition typeOk (t : pb.EntryType) : Prop :=
  0 <= EntryType_toZ t < 2 ^ 31 /\ EntryType_ofZ (EntryType_toZ t) = t.

Definition entryOk (e : pb.Entry) : Prop :=
  is_u64 (pb.e_Term e) /\ is_u64 (pb.e_Index e) /\ typeOk (pb.e_Type e) /\
  is_u64 (pb.e_Key e) /\ is_u64 (pb.e_ClientID e) /\ is_u64 (pb.e_SeriesID e) /\
  is_u64 (pb.e_RespondedTo e) /\ len (pb.e_Cmd e) + 80 < ColferSizeMax.

Lemma later_u64 n k x p : 0 <= n < k -> k < 128 -> later n p -> later n (pieceU64 k x ++ p).
Proof.
  intros Hn Hk Hp. unfold pieceU64. destruct (2 ^ 49 <=? x); [|destruct (x =? 0); [done|]];
    (eexists _, _; split; [done|]); rewrite byteZ_toByte_small by (rewrite ?lor_128; lia).
  - rewrite lor_128, Z.add_mod, Z.mod_same, Z.add_0_r, Z.mod_mod, Z.mod_small; lia.
  - rewrite Z.mod_small; lia.
Qed.

Lemma later_type n v p : 0 <= n < 2 -> later n p -> later n (pieceType v ++ p).
Proof.
  intros Hn Hp. unfold pieceType. destruct (v =? 0); [done|]. eexists _, _. split; [done|].
  change (byteZ (toByte 2) mod 128) with 2. lia.
Qed.

Lemma later_cmd n cmd p : 0 <= n < 7 -> later n p -> later n (pieceCmd cmd ++ p).
Proof.
  intros Hn Hp. unfold pieceCmd. destruct (len cmd =? 0); [done|]. eexists _, _. split; [done|].
  change (byteZ (toByte 7) mod 128) with 7. lia.
Qed.

Lemma later_end n : 0 <= n < 127 -> later n [toByte 0x7f].
Proof. intros. eexists _, _. split; [done|]. change (byteZ (toByte 127) mod 128) with 127. lia. Qed.

Ltac later := auto 9 using later_u64, later_type, later_cmd, later_end with lia.

(** The encoding of an entry, field by field. *)
Definition pieces (e : pb.Entry) : bytes :=
  pieceU64 0 (pb.e_Term e) ++ pieceU64 1 (pb.e_Index e) ++
  pieceType (EntryType_toZ (pb.e_Type e)) ++ pieceU64 3 (pb.e_Key e) ++
  pieceU64 4 (pb.e_ClientID e) ++ pieceU64 5 (pb.e_SeriesID e) ++
  pieceU64 6 (pb.e_RespondedTo e) ++ pieceCmd (pb.e_Cmd e) ++ [toByte 0x7f].

Lemma Unmarshal_pieces e :
  entryOk e -> len (pieces e) < ColferSizeMax -> Unmarshal pb.zeroEntry (pieces e) = OK e.
Proof.
  intros (Ht & Hi & (Hty & Hty') & Hk & Hc & Hs & Hr & Hl) Hlen.
  unfold Unmarshal, runReader, unmarshal. set (data := pieces e) in *.
  assert (later (-1) data) as Hlat.
  { unfold data, pieces, later. destruct (_ ++ _) as [|b rest] eqn:Hp.
    - repeat (apply app_nil in Hp as [_ Hp]). done.
    - eexists _, _. split; [done|]. pose proof (Z.mod_pos_bound (byteZ b) 128). lia. }
  assert (at_ data 0 data) as Hat by (split_and!; [done|apply len_nonneg|done]).
  rewrite (proj2 (Z.eqb_neq (len data) 0)); cycle 1.
  { pose proof (at_nonempty _ _ _ Hat (later_nonempty _ _ Hlat)) as Hne.
    apply Z.leb_gt in Hne. lia. }
  destruct (nextHeader_spec _ _ _ _ Hat Hlat) as (h0 & i0 & E0 & P0).
  unfold data at 2, pieces in P0.
  destruct (getU64_spec 0 (pb.e_Term e) data _ _ _ ltac:(lia) Ht P0) as (h1 & i1 & E1 & P1);
    [later|].
  destruct (getU64_spec 1 (pb.e_Index e) data _ _ _ ltac:(lia) Hi P1) as (h2 & i2 & E2 & P2);
    [later|].
  destruct (getType_spec _ data _ _ _ Hty P2) as (h3 & i3 & E3 & P3);
    [later|].
  destruct (getU64_spec 3 (pb.e_Key e) data _ _ _ ltac:(lia) Hk P3) as (h4 & i4 & E4 & P4);
    [later|].
  destruct (getU64_spec 4 (pb.e_ClientID e) data _ _ _ ltac:(lia) Hc P4) as (h5 & i5 & E5 & P5);
    [later|].
  destruct (getU64_spec 5 (pb.e_SeriesID e) data _ _ _ ltac:(lia) Hs P5) as (h6 & i6 & E6 & P6);
    [later|].
  destruct (getU64_spec 6 (pb.e_RespondedTo e) data _ _ _ ltac:(lia) Hr P6) as (h7 & i7 & E7 & P7);
    [later|].
  destruct (getCmd_spec (pb.e_Cmd e) data _ _ _ ltac:(lia) P7) as (h8 & i8 & E8 & P8);
    [later|].
  destruct P8 as (b & rest & [= <- <-] & -> & Hend).
  unfold mbind, M_bind. rewrite E0. cbn. rewrite E1, E2, E3, E4, E5, E6, E7, E8. cbn.
  unfold get. change (byteZ x7f =? 127) with true. cbn.
  assert (i8 <= len data) as Hi8 by apply Hend.
  rewrite (proj2 (Z.ltb_lt i8 _)) by lia. cbn. rewrite Hty'. by destruct e.
Qed.

Lemma writes_app c1 c2 n1 n2 b1 b2 :
  writes c1 n1 (eq b1) -> writes c2 n2 (eq b2) -> writes (c1 ;; c2) (n1 + n2) (eq (b1 ++ b2)).
Proof.
  intros H1 H2. assert (0 <= n2) as Hn.
  { destruct (H2 (mkW [] n2 0)) as (? & ? & _ & <- & _); [simpl; lia|apply len_nonneg]. }
  eapply writes_weaken; [by apply writes_bind|]. by intros ? (? & ? & -> & <- & <-).
Qed.

Lemma sizeU64_bound x : 0 <= x < W64 -> 0 <= sizeU64 x <= 9.
Proof.
  intros Hx. unfold sizeU64. destruct (Z.leb_spec (2 ^ 49) x); [lia|].
  destruct (x =? 0); simpl (negb _); cbv iota; [lia|].
  destruct (varintBytes_exact 7 x) as (Hn & _ & _); [lia|simpl; lia|].
  rewrite <- (varintBytes_fuel 7 10) in Hn by (simpl; lia).
  pose proof (groups_spec 10 x ltac:(lia) ltac:(simpl; lia)) as Hg. unfold len in Hg. lia.
Qed.

Lemma groups_bound x : 0 <= x < W64 -> 0 <= groups 10 x <= 9.
Proof.
  intros Hx. destruct (varintBytes_exact 10 x) as (Hn & _); [lia|simpl; lia|].
  pose proof (groups_spec 10 x ltac:(lia) ltac:(simpl; lia)) as Hg. unfold len in Hg. lia.
Qed.

Lemma sizeType_bound v : 0 <= v < 2 ^ 31 -> 0 <= sizeType v <= 11.
Proof.
  intros Hv. unfold sizeType. destruct (v =? 0); simpl (negb _); [lia|]. cbv iota zeta.
  rewrite (proj2 (Z.ltb_ge v 0)) by lia. assert (u32 v = v) as -> by (apply Z.mod_small; lia).
  pose proof (groups_bound v ltac:(lia)). lia.
Qed.

(** [Size] is defined on entries the format admits, and [MarshalTo] fills a
    buffer of that size with an encoding [Unmarshal] reads back. *)
Lemma Entry_codes e :
  entryOk e -> exists n, Size e = OK n /\ 0 <= n < ColferSizeMax /\
    n <= len (pb.e_Cmd e) + 78 /\ writes (MarshalTo e) n (fun bs => Unmarshal pb.zeroEntry bs = OK e).
Proof.
  intros Hok. pose proof Hok as (Ht & Hi & (Hty & Hty') & Hk & Hc & Hs & Hr & Hl).
  pose proof (len_nonneg (pb.e_Cmd e)) as Hl0. unfold ColferSizeMax in Hl.
  set (nc := if negb (len (pb.e_Cmd e) =? 0)
             then len (pb.e_Cmd e) + 2 + groups 10 (len (pb.e_Cmd e)) else 0).
  pose proof (groups_bound (len (pb.e_Cmd e)) ltac:(lia)) as Hgc.
  assert (0 <= nc <= len (pb.e_Cmd e) + 12) as Hnc by (subst nc; destruct (negb _); lia).
  set (v := EntryType_toZ (pb.e_Type e)) in *. pose proof (sizeType_bound v Hty) as Hst.
  pose proof (sizeU64_bound _ Ht). pose proof (sizeU64_bound _ Hi).
  pose proof (sizeU64_bound _ Hk). pose proof (sizeU64_bound _ Hc).
  pose proof (sizeU64_bound _ Hs). pose proof (sizeU64_bound _ Hr).
  set (n := sizeU64 (pb.e_Term e) + (sizeU64 (pb.e_Index e) + (sizeType v +
    (sizeU64 (pb.e_Key e) + (sizeU64 (pb.e_ClientID e) + (sizeU64 (pb.e_SeriesID e) +
    (sizeU64 (pb.e_RespondedTo e) + (nc + 1)))))))).
  assert (writes (MarshalTo e) n (eq (pieces e))) as Hw.
  { repeat (apply writes_app;
      [first [by apply writes_putU64|by apply writes_putType|apply writes_putCmd; lia]|]).
    apply writes_putByte. }
  exists n. split_and!; [|lia|unfold ColferSizeMax; lia|lia|].
  - unfold Size. fold v. cbv zeta. unfold ColferSizeMax.
    subst nc n. destruct (len (pb.e_Cmd e) =? 0); simpl (negb _) in *; cbv iota in *.
    + cbn [mbind result_bind]. rewrite (proj2 (Z.ltb_ge _ _)) by lia. f_equal. lia.
    + rewrite (proj2 (Z.ltb_ge _ (len (pb.e_Cmd e)))) by lia. cbn [mbind result_bind].
      rewrite (proj2 (Z.ltb_ge _ _)) by lia. f_equal. lia.
  - intros s Hrm. destruct (Hw s Hrm) as (bs & k & E & L & <-). exists (pieces e), k.
    split_and!; [done..|]. apply Unmarshal_pieces; [done|]. unfold ColferSizeMax. lia.
Qed.

(** A log entry survives its encoding: [Marshal] allocates a buffer of exactly
    the size the encoding needs, and decoding the bytes gives the entry back,
    whichever fields are zero, small or above [1<<49]. *)
Theorem Entry_roundtrip e :
  entryOk e -> exists n bs, Size e = OK n /\ runMarshal n (MarshalTo e) = OK bs /\
    Unmarshal pb.zeroEntry bs = OK e.
Proof.
  intros Hok. destruct (Entry_codes e Hok) as (n & Hn & _ & _ & Hw).
  destruct (writes_marshal _ _ _ Hw) as (bs & Hb & Hu). eauto.
Qed.

Definition sampleEntry : pb.Entry :=
  pb.mkEntry (2 ^ 60 + 77) 300 pb.EncodedEntry 0 5 (W64 - 2) 128 (map toByte [1; 2; 3; 255]).

Lemma Entry_roundtrip_witness :
  exists n bs, Size sampleEntry = OK n /\ runMarshal n (MarshalTo sampleEntry) = OK bs /\
    Unmarshal pb.zeroEntry bs = OK sampleEntry.
Proof. apply (Entry_roundtrip sampleEntry). split_and!; by vm_compute. Defined.
