(* ===== verification/Codec.v ===== *)
(** * The protobuf codecs of [raft/raftpb]

    For each message type its [Size], [MarshalTo] and [Unmarshal]: the fields in
    the order of the source, with the tags the source writes.  [fields] is the
    [switch] of [Unmarshal]; [zero] is the zero value a decoder starts from.
    Sizes are Go [int]s that cannot overflow, since they count bytes in memory.
    A nil slice and an empty one are the same list, and neither is written.  The
    enumerations without a use in the core are kept as [int32] numbers. *)
From S2P Require Import Prelude Raftpb LogDB Wire EntryCodec.

Definition StateMachineType_toZ (t : pb.StateMachineType) : Z :=
  match t with
  | pb.UnknownStateMachine => 0 | pb.RegularStateMachine => 1
  | pb.ConcurrentStateMachine => 2 | pb.OnDiskStateMachine => 3
  | pb.OtherStateMachine n => n
  end.
Definition StateMachineType_ofZ (n : Z) : pb.StateMachineType :=
  match n with
  | 0 => pb.UnknownStateMachine | 1 => pb.RegularStateMachine
  | 2 => pb.ConcurrentStateMachine | 3 => pb.OnDiskStateMachine
  | _ => pb.OtherStateMachine n
  end.

Definition MessageType_toZ (t : pb.MessageType) : Z :=
  match t with
  | pb.LocalTick => 0 | pb.Election => 1 | pb.LeaderHeartbeat => 2
  | pb.ConfigChangeEvent => 3 | pb.NoOP => 4 | pb.Ping => 5
  | pb.Pong => 6 | pb.Propose => 7 | pb.SnapshotStatus => 8
  | pb.Unreachable => 9 | pb.CheckQuorum => 10 | pb.BatchedReadIndex => 11
  | pb.Replicate => 12 | pb.ReplicateResp => 13 | pb.RequestVote => 14
  | pb.RequestVoteResp => 15 | pb.InstallSnapshot => 16 | pb.Heartbeat => 17
  | pb.HeartbeatResp => 18 | pb.ReadIndex => 19 | pb.ReadIndexResp => 20
  | pb.Quiesce => 21 | pb.SnapshotReceived => 22 | pb.LeaderTransfer => 23
  | pb.TimeoutNow => 24 | pb.RateLimit => 25 | pb.RequestPreVote => 26
  | pb.RequestPreVoteResp => 27 | pb.LogQuery => 28
  | pb.OtherMessage n => n
  end.
Definition MessageType_ofZ (n : Z) : pb.MessageType :=
  match n with
  | 0 => pb.LocalTick | 1 => pb.Election | 2 => pb.LeaderHeartbeat
  | 3 => pb.ConfigChangeEvent | 4 => pb.NoOP | 5 => pb.Ping
  | 6 => pb.Pong | 7 => pb.Propose | 8 => pb.SnapshotStatus
  | 9 => pb.Unreachable | 10 => pb.CheckQuorum | 11 => pb.BatchedReadIndex
  | 12 => pb.Replicate | 13 => pb.ReplicateResp | 14 => pb.RequestVote
  | 15 => pb.RequestVoteResp | 16 => pb.InstallSnapshot | 17 => pb.Heartbeat
  | 18 => pb.HeartbeatResp | 19 => pb.ReadIndex | 20 => pb.ReadIndexResp
  | 21 => pb.Quiesce | 22 => pb.SnapshotReceived | 23 => pb.LeaderTransfer
  | 24 => pb.TimeoutNow | 25 => pb.RateLimit | 26 => pb.RequestPreVote
  | 27 => pb.RequestPreVoteResp | 28 => pb.LogQuery
  | _ => pb.OtherMessage n
  end.

Section maps.
Context `{GoRuntime}.

(** The entries of a map field: each has the key as field 1 and the value as
    field 2. *)
Definition mapSizeString (k : Z) (v : string) : Z :=
  1 + sovRaft k + 1 + slen v + sovRaft (slen v).
Definition mapSizeBool (k : Z) : Z := 1 + sovRaft k + 1 + 1.

Definition putMapString (tag : list Z) (m : gmap Z string) : M wstate unit :=
  when (negb (Z.of_nat (size m) =? 0))
    (ks ← keysOf m;
     forM_ ks (fun k =>
       let v := default EmptyString (m !! k) in
       putMsg tag (mapSizeString k v) (putVarint [0x8] k ;; putString [0x12] v))).
Definition putMapBool (tag : list Z) (m : gmap Z bool) : M wstate unit :=
  when (negb (Z.of_nat (size m) =? 0))
    (ks ← keysOf m;
     forM_ ks (fun k =>
       let v := default false (m !! k) in
       putMsg tag (mapSizeBool k) (putVarint [0x8] k ;; putBool [0x10] v))).

Definition sizeMapString (m : gmap Z string) : Z :=
  foldr (fun k n => (mapSizeString k (default EmptyString (m !! k)) + 1
            + sovRaft (mapSizeString k (default EmptyString (m !! k)))) + n)
    0 (map_to_list m).*1.
Definition sizeMapBool (m : gmap Z bool) : Z :=
  foldr (fun k n => (mapSizeBool k + 1 + sovRaft (mapSizeBool k)) + n) 0 (map_to_list m).*1.

(** The sizes of the other fields, with the length of their tag. *)
Definition sizeString (t : Z) (s : string) : Z := t + slen s + sovRaft (slen s).
Definition sizeBytes (t : Z) (bs : bytes) : Z := t + len bs + sovRaft (len bs).
Definition sizeMsg (t l : Z) : Z := t + l + sovRaft l.

End maps.

Module State.

Definition zero : pb.State := pb.emptyState.

Definition eta (m : pb.State) : pb.State :=
  pb.mkState (pb.st_Term m) (pb.st_Vote m) (pb.st_Commit m).
Definition set_Term (v : Z) (m : pb.State) : pb.State :=
  ltac:(set_field (eta m) (pb.st_Term m) v).
Definition set_Vote (v : Z) (m : pb.State) : pb.State :=
  ltac:(set_field (eta m) (pb.st_Vote m) v).
Definition set_Commit (v : Z) (m : pb.State) : pb.State :=
  ltac:(set_field (eta m) (pb.st_Commit m) v).

Section codec.
Context `{GoRuntime}.

Definition Size (m : pb.State) : Z :=
  (1 + sovRaft (pb.st_Term m))
  + (1 + sovRaft (pb.st_Vote m))
  + (1 + sovRaft (pb.st_Commit m)).

Definition MarshalTo (m : pb.State) : M wstate unit :=
  putVarint [0x8] (pb.st_Term m) ;;
  putVarint [0x10] (pb.st_Vote m) ;;
  putVarint [0x18] (pb.st_Commit m).

Definition fields (n : Z) : option (Z -> pb.State -> reader pb.State) :=
  match n with
  | 1 => Some (varintField u64 set_Term)
  | 2 => Some (varintField u64 set_Vote)
  | 3 => Some (varintField u64 set_Commit)
  | _ => None
  end.

Definition Unmarshal (m : pb.State) (data : bytes) : result pb.State :=
  unmarshal true fields m data.
Definition Marshal (m : pb.State) : result bytes := runMarshal (Size m) (MarshalTo m).

Definition SizeUpperLimit (m : pb.State) : Z := 8 + 16 * 3.

End codec.
End State.

(** [uint64(v)] of an [int32] is sign-extended. *)
Module ConfigChange.

Record ConfigChange : Type := mkConfigChange {
  cc_ConfigChangeId : Z;
  cc_Type : Z;
  cc_ReplicaID : Z;
  cc_Address : string;
  cc_Initialize : bool
}.
Definition zero : ConfigChange := mkConfigChange 0 0 0 EmptyString false.

Definition eta (m : ConfigChange) : ConfigChange :=
  mkConfigChange (cc_ConfigChangeId m) (cc_Type m) (cc_ReplicaID m) (cc_Address m)
    (cc_Initialize m).
Definition set_ConfigChangeId (v : Z) (m : ConfigChange) : ConfigChange :=
  ltac:(set_field (eta m) (cc_ConfigChangeId m) v).
Definition set_Type (v : Z) (m : ConfigChange) : ConfigChange :=
  ltac:(set_field (eta m) (cc_Type m) v).
Definition set_ReplicaID (v : Z) (m : ConfigChange) : ConfigChange :=
  ltac:(set_field (eta m) (cc_ReplicaID m) v).
Definition set_Address (v : string) (m : ConfigChange) : ConfigChange :=
  ltac:(set_field (eta m) (cc_Address m) v).
Definition set_Initialize (v : bool) (m : ConfigChange) : ConfigChange :=
  ltac:(set_field (eta m) (cc_Initialize m) v).

Section codec.
Context `{GoRuntime}.

Definition Size (m : ConfigChange) : Z :=
  (1 + sovRaft (cc_ConfigChangeId m))
  + (1 + sovRaft (u64 (cc_Type m)))
  + (1 + sovRaft (cc_ReplicaID m))
  + sizeString 1 (cc_Address m)
  + 2.

Definition MarshalTo (m : ConfigChange) : M wstate unit :=
  putVarint [0x8] (cc_ConfigChangeId m) ;;
  putVarint [0x10] (u64 (cc_Type m)) ;;
  putVarint [0x18] (cc_ReplicaID m) ;;
  putString [0x22] (cc_Address m) ;;
  putBool [0x28] (cc_Initialize m).

Definition fields (n : Z) : option (Z -> ConfigChange -> reader ConfigChange) :=
  match n with
  | 1 => Some (varintField u64 set_ConfigChangeId)
  | 2 => Some (varintField i32 set_Type)
  | 3 => Some (varintField u64 set_ReplicaID)
  | 4 => Some (stringField true set_Address)
  | 5 => Some (boolField set_Initialize)
  | _ => None
  end.

Definition Unmarshal (m : ConfigChange) (data : bytes) : result ConfigChange :=
  unmarshal true fields m data.
Definition Marshal (m : ConfigChange) : result bytes := runMarshal (Size m) (MarshalTo m).

End codec.
End ConfigChange.

Module SnapshotFile.

Definition zero : pb.SnapshotFile := pb.mkSnapshotFile EmptyString 0 0 [].

Definition eta (m : pb.SnapshotFile) : pb.SnapshotFile :=
  pb.mkSnapshotFile (pb.sf_Filepath m) (pb.sf_FileSize m) (pb.sf_FileId m) (pb.sf_Metadata m).
Definition set_Filepath (v : string) (m : pb.SnapshotFile) : pb.SnapshotFile :=
  ltac:(set_field (eta m) (pb.sf_Filepath m) v).
Definition set_FileSize (v : Z) (m : pb.SnapshotFile) : pb.SnapshotFile :=
  ltac:(set_field (eta m) (pb.sf_FileSize m) v).
Definition set_FileId (v : Z) (m : pb.SnapshotFile) : pb.SnapshotFile :=
  ltac:(set_field (eta m) (pb.sf_FileId m) v).
Definition set_Metadata (v : bytes) (m : pb.SnapshotFile) : pb.SnapshotFile :=
  ltac:(set_field (eta m) (pb.sf_Metadata m) v).

Section codec.
Context `{GoRuntime}.

Definition Size (m : pb.SnapshotFile) : Z :=
  sizeString 1 (pb.sf_Filepath m)
  + (1 + sovRaft (pb.sf_FileSize m))
  + (1 + sovRaft (pb.sf_FileId m))
  + (if negb (len (pb.sf_Metadata m) =? 0) then sizeBytes 1 (pb.sf_Metadata m) else 0).

Definition MarshalTo (m : pb.SnapshotFile) : M wstate unit :=
  putString [0x12] (pb.sf_Filepath m) ;;
  putVarint [0x18] (pb.sf_FileSize m) ;;
  putVarint [0x20] (pb.sf_FileId m) ;;
  when (negb (len (pb.sf_Metadata m) =? 0)) (putBytes [0x2a] (pb.sf_Metadata m)).

Definition fields (n : Z) : option (Z -> pb.SnapshotFile -> reader pb.SnapshotFile) :=
  match n with
  | 2 => Some (stringField true set_Filepath)
  | 3 => Some (varintField u64 set_FileSize)
  | 4 => Some (varintField u64 set_FileId)
  | 5 => Some (bytesField true set_Metadata)
  | _ => None
  end.

Definition Unmarshal (m : pb.SnapshotFile) (data : bytes) : result pb.SnapshotFile :=
  unmarshal true fields m data.
Definition Marshal (m : pb.SnapshotFile) : result bytes := runMarshal (Size m) (MarshalTo m).

End codec.
End SnapshotFile.

Module Membership.

Definition zero : pb.Membership := pb.zeroMembership.

Definition eta (m : pb.Membership) : pb.Membership :=
  pb.mkMembership (pb.mb_ConfigChangeId m) (pb.mb_Addresses m) (pb.mb_Removed m)
    (pb.mb_NonVotings m) (pb.mb_Witnesses m).
Definition set_ConfigChangeId (v : Z) (m : pb.Membership) : pb.Membership :=
  ltac:(set_field (eta m) (pb.mb_ConfigChangeId m) v).
Definition set_Addresses (v : gmap Z string) (m : pb.Membership) : pb.Membership :=
  ltac:(set_field (eta m) (pb.mb_Addresses m) v).
Definition set_Removed (v : gmap Z bool) (m : pb.Membership) : pb.Membership :=
  ltac:(set_field (eta m) (pb.mb_Removed m) v).
Definition set_NonVotings (v : gmap Z string) (m : pb.Membership) : pb.Membership :=
  ltac:(set_field (eta m) (pb.mb_NonVotings m) v).
Definition set_Witnesses (v : gmap Z string) (m : pb.Membership) : pb.Membership :=
  ltac:(set_field (eta m) (pb.mb_Witnesses m) v).

Section codec.
Context `{GoRuntime}.

Definition Size (m : pb.Membership) : Z :=
  (1 + sovRaft (pb.mb_ConfigChangeId m))
  + sizeMapString (pb.mb_Addresses m)
  + sizeMapBool (pb.mb_Removed m)
  + sizeMapString (pb.mb_NonVotings m)
  + sizeMapString (pb.mb_Witnesses m).

Definition MarshalTo (m : pb.Membership) : M wstate unit :=
  putVarint [0x8] (pb.mb_ConfigChangeId m) ;;
  putMapString [0x12] (pb.mb_Addresses m) ;;
  putMapBool [0x1a] (pb.mb_Removed m) ;;
  putMapString [0x22] (pb.mb_NonVotings m) ;;
  putMapString [0x2a] (pb.mb_Witnesses m).

Definition fields (n : Z) : option (Z -> pb.Membership -> reader pb.Membership) :=
  match n with
  | 1 => Some (varintField u64 set_ConfigChangeId)
  | 2 => Some (mapField EmptyString stringValue pb.mb_Addresses set_Addresses)
  | 3 => Some (mapField false boolValue pb.mb_Removed set_Removed)
  | 4 => Some (mapField EmptyString stringValue pb.mb_NonVotings set_NonVotings)
  | 5 => Some (mapField EmptyString stringValue pb.mb_Witnesses set_Witnesses)
  | _ => None
  end.

Definition Unmarshal (m : pb.Membership) (data : bytes) : result pb.Membership :=
  unmarshal true fields m data.
Definition Marshal (m : pb.Membership) : result bytes := runMarshal (Size m) (MarshalTo m).

End codec.
End Membership.

Module Snapshot.

Definition zero : pb.Snapshot := pb.zeroSnapshot.

Definition eta (m : pb.Snapshot) : pb.Snapshot :=
  pb.mkSnapshot (pb.ss_Filepath m) (pb.ss_FileSize m) (pb.ss_Index m) (pb.ss_Term m)
    (pb.ss_Membership m) (pb.ss_Files m) (pb.ss_Checksum m) (pb.ss_Dummy m) (pb.ss_ShardID m)
    (pb.ss_Type m) (pb.ss_Imported m) (pb.ss_OnDiskIndex m) (pb.ss_Witness m).
Definition set_Filepath (v : string) (m : pb.Snapshot) : pb.Snapshot :=
  ltac:(set_field (eta m) (pb.ss_Filepath m) v).
Definition set_FileSize (v : Z) (m : pb.Snapshot) : pb.Snapshot :=
  ltac:(set_field (eta m) (pb.ss_FileSize m) v).
Definition set_Index (v : Z) (m : pb.Snapshot) : pb.Snapshot :=
  ltac:(set_field (eta m) (pb.ss_Index m) v).
Definition set_Term (v : Z) (m : pb.Snapshot) : pb.Snapshot :=
  ltac:(set_field (eta m) (pb.ss_Term m) v).
Definition set_Membership (v : pb.Membership) (m : pb.Snapshot) : pb.Snapshot :=
  ltac:(set_field (eta m) (pb.ss_Membership m) v).
Definition set_Files (v : list pb.SnapshotFile) (m : pb.Snapshot) : pb.Snapshot :=
  ltac:(set_field (eta m) (pb.ss_Files m) v).
Definition set_Checksum (v : bytes) (m : pb.Snapshot) : pb.Snapshot :=
  ltac:(set_field (eta m) (pb.ss_Checksum m) v).
Definition set_Dummy (v : bool) (m : pb.Snapshot) : pb.Snapshot :=
  ltac:(set_field (eta m) (pb.ss_Dummy m) v).
Definition set_ShardID (v : Z) (m : pb.Snapshot) : pb.Snapshot :=
  ltac:(set_field (eta m) (pb.ss_ShardID m) v).
Definition set_Type (v : pb.StateMachineType) (m : pb.Snapshot) : pb.Snapshot :=
  ltac:(set_field (eta m) (pb.ss_Type m) v).
Definition set_Imported (v : bool) (m : pb.Snapshot) : pb.Snapshot :=
  ltac:(set_field (eta m) (pb.ss_Imported m) v).
Definition set_OnDiskIndex (v : Z) (m : pb.Snapshot) : pb.Snapshot :=
  ltac:(set_field (eta m) (pb.ss_OnDiskIndex m) v).
Definition set_Witness (v : bool) (m : pb.Snapshot) : pb.Snapshot :=
  ltac:(set_field (eta m) (pb.ss_Witness m) v).

Section codec.
Context `{GoRuntime}.

Definition Size (m : pb.Snapshot) : Z :=
  sizeString 1 (pb.ss_Filepath m)
  + (1 + sovRaft (pb.ss_FileSize m))
  + (1 + sovRaft (pb.ss_Index m))
  + (1 + sovRaft (pb.ss_Term m))
  + sizeMsg 1 (Membership.Size (pb.ss_Membership m))
  + (foldr (fun e n => sizeMsg 1 (SnapshotFile.Size e) + n) 0 (pb.ss_Files m))
  + (if negb (len (pb.ss_Checksum m) =? 0) then sizeBytes 1 (pb.ss_Checksum m) else 0)
  + 2
  + (1 + sovRaft (pb.ss_ShardID m))
  + (1 + sovRaft (u64 (StateMachineType_toZ (pb.ss_Type m))))
  + 2
  + (1 + sovRaft (pb.ss_OnDiskIndex m))
  + 2.

Definition MarshalTo (m : pb.Snapshot) : M wstate unit :=
  putString [0x12] (pb.ss_Filepath m) ;;
  putVarint [0x18] (pb.ss_FileSize m) ;;
  putVarint [0x20] (pb.ss_Index m) ;;
  putVarint [0x28] (pb.ss_Term m) ;;
  putMsg [0x32] (Membership.Size (pb.ss_Membership m)) (Membership.MarshalTo (pb.ss_Membership
    m)) ;;
  forM_ (pb.ss_Files m) (fun e => putMsg [0x3a] (SnapshotFile.Size e) (SnapshotFile.MarshalTo
    e)) ;;
  when (negb (len (pb.ss_Checksum m) =? 0)) (putBytes [0x42] (pb.ss_Checksum m)) ;;
  putBool [0x48] (pb.ss_Dummy m) ;;
  putVarint [0x50] (pb.ss_ShardID m) ;;
  putVarint [0x58] (u64 (StateMachineType_toZ (pb.ss_Type m))) ;;
  putBool [0x60] (pb.ss_Imported m) ;;
  putVarint [0x68] (pb.ss_OnDiskIndex m) ;;
  putBool [0x70] (pb.ss_Witness m).

Definition fields (n : Z) : option (Z -> pb.Snapshot -> reader pb.Snapshot) :=
  match n with
  | 2 => Some (stringField true set_Filepath)
  | 3 => Some (varintField u64 set_FileSize)
  | 4 => Some (varintField u64 set_Index)
  | 5 => Some (varintField u64 set_Term)
  | 6 => Some (msgField true Membership.Unmarshal pb.ss_Membership set_Membership)
  | 7 => Some (msgField true SnapshotFile.Unmarshal (fun _ => SnapshotFile.zero)
      (fun e m => set_Files (pb.ss_Files m ++ [e]) m))
  | 8 => Some (bytesField true set_Checksum)
  | 9 => Some (boolField set_Dummy)
  | 10 => Some (varintField u64 set_ShardID)
  | 11 => Some (varintField i32 (fun v => set_Type (StateMachineType_ofZ v)))
  | 12 => Some (boolField set_Imported)
  | 13 => Some (varintField u64 set_OnDiskIndex)
  | 14 => Some (boolField set_Witness)
  | _ => None
  end.

Definition Unmarshal (m : pb.Snapshot) (data : bytes) : result pb.Snapshot :=
  unmarshal true fields m data.
Definition Marshal (m : pb.Snapshot) : result bytes := runMarshal (Size m) (MarshalTo m).

End codec.
End Snapshot.

(** A varint read without any bound check, as [entryCount] and [messageCount]
    do; every round takes a byte. *)
Fixpoint rawVarintF (fuel : nat) (wrap : Z -> Z) (shift acc : Z) (data : bytes) : M Z Z :=
  match fuel with
  | O => panic_ OutOfFuel
  | S fuel =>
      b ← readr (byteAt data);
      modify (Z.add 1) ;;
      let acc := Z.lor acc (wrap (Z.shiftl (Z.land b 0x7f) shift)) in
      if b <? 0x80 then ret acc else rawVarintF fuel wrap (shift + 7) acc data
  end.

(** [entryCount] and [messageCount]: how many of the fields at the start of the
    data have number [num].  The index depends only on the previous index, so a
    run that takes more rounds than there are bytes never ends. *)
Fixpoint countF (num : Z) (fuel : nat) (count : Z) (data : bytes) : M Z Z :=
  match fuel with
  | O => panic_ OutOfFuel
  | S fuel =>
      i ← get;
      if i <? len data then
        wire ← rawVarintF (S (length data)) u64 0 0 data;
        if i32 (Z.shiftr wire 3) =? num then
          msglen ← rawVarintF (S (length data)) i64 0 0 data;
          modify (fun i => i64 (i + msglen)) ;;
          countF num fuel (count + 1) data
        else ret count
      else ret count
  end.
Definition fieldCount (num : Z) (data : bytes) : result Z :=
  r ← runReader (countF num (S (length data)) 0 data); OK r.1.

(** The case of a repeated field in [raft_optimized.go]: the first element also
    counts the elements that follow it, to allocate the slice.  The source tests the
    capacity of the slice: in a message that starts from its zero value, as here, it is
    zero exactly as long as the slice is empty. *)
Definition countedField {A X} (num : Z) (dec : bytes -> result X) (get_ : A -> list X)
    (set : list X -> A -> A) (wireType : Z) (m : A) : reader A := fun data =>
  if negb (wireType =? 2) then fail (errWireType wireType)
  else
    bs ← readBlock false data;
    when (len (get_ m) =? 0) (readr (fun post => fieldCount num (dropZ post data)) ;; skip) ;;
    e ← readr (fun _ => dec bs);
    ret (set (get_ m ++ [e]) m).

(** Elements whose [Size] can panic, as that of an entry does. *)
Fixpoint sizeRep {X} (size : X -> result Z) (xs : list X) : result Z :=
  match xs with
  | [] => OK 0
  | x :: xs => l ← size x; n ← sizeRep size xs; OK (sizeMsg 1 l + n)
  end.
Definition putRep {X} (tag : list Z) (size : X -> result Z) (put : X -> M wstate unit)
    (xs : list X) : M wstate unit :=
  forM_ xs (fun x => putTag tag ;; l ← readr (fun _ => size x); encodeVarintRaft l ;; put x).

Module Message.

Definition zero : pb.Message := pb.msg pb.LocalTick.

Definition eta (m : pb.Message) : pb.Message :=
  pb.mkMessage (pb.m_Type m) (pb.m_To m) (pb.m_From m) (pb.m_ShardID m) (pb.m_Term m)
    (pb.m_LogTerm m) (pb.m_LogIndex m) (pb.m_Commit m) (pb.m_Reject m) (pb.m_Hint m)
    (pb.m_Entries m) (pb.m_Snapshot m) (pb.m_HintHigh m).
Definition set_Type (v : pb.MessageType) (m : pb.Message) : pb.Message :=
  ltac:(set_field (eta m) (pb.m_Type m) v).
Definition set_To (v : Z) (m : pb.Message) : pb.Message :=
  ltac:(set_field (eta m) (pb.m_To m) v).
Definition set_From (v : Z) (m : pb.Message) : pb.Message :=
  ltac:(set_field (eta m) (pb.m_From m) v).
Definition set_ShardID (v : Z) (m : pb.Message) : pb.Message :=
  ltac:(set_field (eta m) (pb.m_ShardID m) v).
Definition set_Term (v : Z) (m : pb.Message) : pb.Message :=
  ltac:(set_field (eta m) (pb.m_Term m) v).
Definition set_LogTerm (v : Z) (m : pb.Message) : pb.Message :=
  ltac:(set_field (eta m) (pb.m_LogTerm m) v).
Definition set_LogIndex (v : Z) (m : pb.Message) : pb.Message :=
  ltac:(set_field (eta m) (pb.m_LogIndex m) v).
Definition set_Commit (v : Z) (m : pb.Message) : pb.Message :=
  ltac:(set_field (eta m) (pb.m_Commit m) v).
Definition set_Reject (v : bool) (m : pb.Message) : pb.Message :=
  ltac:(set_field (eta m) (pb.m_Reject m) v).
Definition set_Hint (v : Z) (m : pb.Message) : pb.Message :=
  ltac:(set_field (eta m) (pb.m_Hint m) v).
Definition set_Entries (v : list pb.Entry) (m : pb.Message) : pb.Message :=
  ltac:(set_field (eta m) (pb.m_Entries m) v).
Definition set_Snapshot (v : pb.Snapshot) (m : pb.Message) : pb.Message :=
  ltac:(set_field (eta m) (pb.m_Snapshot m) v).
Definition set_HintHigh (v : Z) (m : pb.Message) : pb.Message :=
  ltac:(set_field (eta m) (pb.m_HintHigh m) v).

Section codec.
Context `{GoRuntime}.


Definition entryCount (data : bytes) : result Z := fieldCount 11 data.
Definition entriesField : Z -> pb.Message -> reader pb.Message :=
  countedField 11 (Entry.Unmarshal pb.zeroEntry) pb.m_Entries set_Entries.

Definition Size (m : pb.Message) : result Z :=
  n ← sizeRep Entry.Size (pb.m_Entries m);
  OK ((1 + sovRaft (u64 (MessageType_toZ (pb.m_Type m))))
      + (1 + sovRaft (pb.m_To m)) + (1 + sovRaft (pb.m_From m))
      + (1 + sovRaft (pb.m_ShardID m)) + (1 + sovRaft (pb.m_Term m))
      + (1 + sovRaft (pb.m_LogTerm m)) + (1 + sovRaft (pb.m_LogIndex m))
      + (1 + sovRaft (pb.m_Commit m)) + 2 + (1 + sovRaft (pb.m_Hint m)) + n
      + sizeMsg 1 (Snapshot.Size (pb.m_Snapshot m)) + (1 + sovRaft (pb.m_HintHigh m))).

Definition MarshalTo (m : pb.Message) : M wstate unit :=
  putVarint [0x8] (u64 (MessageType_toZ (pb.m_Type m))) ;;
  putVarint [0x10] (pb.m_To m) ;;
  putVarint [0x18] (pb.m_From m) ;;
  putVarint [0x20] (pb.m_ShardID m) ;;
  putVarint [0x28] (pb.m_Term m) ;;
  putVarint [0x30] (pb.m_LogTerm m) ;;
  putVarint [0x38] (pb.m_LogIndex m) ;;
  putVarint [0x40] (pb.m_Commit m) ;;
  putBool [0x48] (pb.m_Reject m) ;;
  putVarint [0x50] (pb.m_Hint m) ;;
  putRep [0x5a] Entry.Size Entry.MarshalTo (pb.m_Entries m) ;;
  putMsg [0x62] (Snapshot.Size (pb.m_Snapshot m)) (Snapshot.MarshalTo (pb.m_Snapshot m)) ;;
  putVarint [0x68] (pb.m_HintHigh m).

Definition fields (n : Z) : option (Z -> pb.Message -> reader pb.Message) :=
  match n with
  | 1 => Some (varintField i32 (fun v => set_Type (MessageType_ofZ v)))
  | 2 => Some (varintField u64 set_To)
  | 3 => Some (varintField u64 set_From)
  | 4 => Some (varintField u64 set_ShardID)
  | 5 => Some (varintField u64 set_Term)
  | 6 => Some (varintField u64 set_LogTerm)
  | 7 => Some (varintField u64 set_LogIndex)
  | 8 => Some (varintField u64 set_Commit)
  | 9 => Some (boolField set_Reject)
  | 10 => Some (varintField u64 set_Hint)
  | 11 => Some (entriesField)
  | 12 => Some (msgField false Snapshot.Unmarshal pb.m_Snapshot set_Snapshot)
  | 13 => Some (varintField u64 set_HintHigh)
  | _ => None
  end.

Definition Unmarshal (m : pb.Message) (data : bytes) : result pb.Message :=
  unmarshal false fields m data.
Definition Marshal (m : pb.Message) : result bytes := n ← Size m; runMarshal n (MarshalTo m).

Definition SizeUpperLimit (m : pb.Message) : Z :=
  16 * 12 + Snapshot.Size (pb.m_Snapshot m)
  + foldr (fun e n => 16 + pb.SizeUpperLimit e + n) 0 (pb.m_Entries m).

End codec.
End Message.

Module MessageBatch.

Record MessageBatch : Type := mkMessageBatch {
  mb_Requests : list pb.Message;
  mb_DeploymentId : Z;
  mb_SourceAddress : string;
  mb_BinVer : Z
}.
Definition zero : MessageBatch := mkMessageBatch [] 0 EmptyString 0.

Definition eta (m : MessageBatch) : MessageBatch :=
  mkMessageBatch (mb_Requests m) (mb_DeploymentId m) (mb_SourceAddress m) (mb_BinVer m).
Definition set_Requests (v : list pb.Message) (m : MessageBatch) : MessageBatch :=
  ltac:(set_field (eta m) (mb_Requests m) v).
Definition set_DeploymentId (v : Z) (m : MessageBatch) : MessageBatch :=
  ltac:(set_field (eta m) (mb_DeploymentId m) v).
Definition set_SourceAddress (v : string) (m : MessageBatch) : MessageBatch :=
  ltac:(set_field (eta m) (mb_SourceAddress m) v).
Definition set_BinVer (v : Z) (m : MessageBatch) : MessageBatch :=
  ltac:(set_field (eta m) (mb_BinVer m) v).

Section codec.
Context `{GoRuntime}.


Definition messageCount (data : bytes) : result Z := fieldCount 1 data.
Definition requestsField : Z -> MessageBatch -> reader MessageBatch :=
  countedField 1 (Message.Unmarshal Message.zero) mb_Requests set_Requests.

Definition Size (m : MessageBatch) : result Z :=
  n ← sizeRep Message.Size (mb_Requests m);
  OK (n + (1 + sovRaft (mb_DeploymentId m)) + sizeString 1 (mb_SourceAddress m)
      + (1 + sovRaft (mb_BinVer m))).

Definition MarshalTo (m : MessageBatch) : M wstate unit :=
  putRep [0xa] Message.Size Message.MarshalTo (mb_Requests m) ;;
  putVarint [0x10] (mb_DeploymentId m) ;;
  putString [0x1a] (mb_SourceAddress m) ;;
  putVarint [0x20] (mb_BinVer m).

Definition fields (n : Z) : option (Z -> MessageBatch -> reader MessageBatch) :=
  match n with
  | 1 => Some (requestsField)
  | 2 => Some (varintField u64 set_DeploymentId)
  | 3 => Some (stringField false set_SourceAddress)
  | 4 => Some (varintField u32 set_BinVer)
  | _ => None
  end.

Definition Unmarshal (m : MessageBatch) (data : bytes) : result MessageBatch :=
  unmarshal false fields m data.
Definition Marshal (m : MessageBatch) : result bytes := n ← Size m; runMarshal n (MarshalTo m).

Definition SizeUpperLimit (m : MessageBatch) : Z :=
  16 * 3 + slen (mb_SourceAddress m)
  + foldr (fun e n => 16 + Message.SizeUpperLimit e + n) 0 (mb_Requests m).

End codec.
End MessageBatch.

Module EntryBatch.

Record EntryBatch : Type := mkEntryBatch {
  eb_Entries : list pb.Entry
}.
Definition zero : EntryBatch := mkEntryBatch [].

Definition eta (m : EntryBatch) : EntryBatch :=
  mkEntryBatch (eb_Entries m).
Definition set_Entries (v : list pb.Entry) (m : EntryBatch) : EntryBatch :=
  ltac:(set_field (eta m) (eb_Entries m) v).

Section codec.
Context `{GoRuntime}.

Definition Size (m : EntryBatch) : result Z := sizeRep Entry.Size (eb_Entries m).

Definition MarshalTo (m : EntryBatch) : M wstate unit :=
  putRep [0xa] Entry.Size Entry.MarshalTo (eb_Entries m).

Definition fields (n : Z) : option (Z -> EntryBatch -> reader EntryBatch) :=
  match n with
  | 1 => Some (msgField true Entry.Unmarshal (fun _ => pb.zeroEntry)
      (fun e m => set_Entries (eb_Entries m ++ [e]) m))
  | _ => None
  end.

Definition Unmarshal (m : EntryBatch) (data : bytes) : result EntryBatch :=
  unmarshal true fields m data.
Definition Marshal (m : EntryBatch) : result bytes := n ← Size m; runMarshal n (MarshalTo m).

End codec.
End EntryBatch.

Module Bootstrap.

Record Bootstrap : Type := mkBootstrap {
  bs_Addresses : gmap Z string;
  bs_Join : bool;
  bs_Type : pb.StateMachineType
}.
Definition zero : Bootstrap := mkBootstrap ∅ false pb.UnknownStateMachine.

Definition eta (m : Bootstrap) : Bootstrap :=
  mkBootstrap (bs_Addresses m) (bs_Join m) (bs_Type m).
Definition set_Addresses (v : gmap Z string) (m : Bootstrap) : Bootstrap :=
  ltac:(set_field (eta m) (bs_Addresses m) v).
Definition set_Join (v : bool) (m : Bootstrap) : Bootstrap :=
  ltac:(set_field (eta m) (bs_Join m) v).
Definition set_Type (v : pb.StateMachineType) (m : Bootstrap) : Bootstrap :=
  ltac:(set_field (eta m) (bs_Type m) v).

Section codec.
Context `{GoRuntime}.

Definition Size (m : Bootstrap) : Z :=
  sizeMapString (bs_Addresses m)
  + 2
  + (1 + sovRaft (u64 (StateMachineType_toZ (bs_Type m)))).

Definition MarshalTo (m : Bootstrap) : M wstate unit :=
  putMapString [0xa] (bs_Addresses m) ;;
  putBool [0x10] (bs_Join m) ;;
  putVarint [0x18] (u64 (StateMachineType_toZ (bs_Type m))).

Definition fields (n : Z) : option (Z -> Bootstrap -> reader Bootstrap) :=
  match n with
  | 1 => Some (mapField EmptyString stringValue bs_Addresses set_Addresses)
  | 2 => Some (boolField set_Join)
  | 3 => Some (varintField i32 (fun v => set_Type (StateMachineType_ofZ v)))
  | _ => None
  end.

Definition Unmarshal (m : Bootstrap) (data : bytes) : result Bootstrap :=
  unmarshal true fields m data.
Definition Marshal (m : Bootstrap) : result bytes := runMarshal (Size m) (MarshalTo m).

End codec.
End Bootstrap.

Module Chunk.

Record Chunk : Type := mkChunk {
  ck_ShardID : Z;
  ck_ReplicaID : Z;
  ck_From : Z;
  ck_ChunkId : Z;
  ck_ChunkSize : Z;
  ck_ChunkCount : Z;
  ck_Data : bytes;
  ck_Index : Z;
  ck_Term : Z;
  ck_Membership : pb.Membership;
  ck_Filepath : string;
  ck_FileSize : Z;
  ck_DeploymentId : Z;
  ck_FileChunkId : Z;
  ck_FileChunkCount : Z;
  ck_HasFileInfo : bool;
  ck_FileInfo : pb.SnapshotFile;
  ck_BinVer : Z;
  ck_OnDiskIndex : Z;
  ck_Witness : bool
}.
Definition zero : Chunk := mkChunk 0 0 0 0 0 0 [] 0 0 pb.zeroMembership EmptyString 0 0 0 0
  false SnapshotFile.zero 0 0 false.

Definition eta (m : Chunk) : Chunk :=
  mkChunk (ck_ShardID m) (ck_ReplicaID m) (ck_From m) (ck_ChunkId m) (ck_ChunkSize m)
    (ck_ChunkCount m) (ck_Data m) (ck_Index m) (ck_Term m) (ck_Membership m) (ck_Filepath m)
    (ck_FileSize m) (ck_DeploymentId m) (ck_FileChunkId m) (ck_FileChunkCount m)
    (ck_HasFileInfo m) (ck_FileInfo m) (ck_BinVer m) (ck_OnDiskIndex m) (ck_Witness m).
Definition set_ShardID (v : Z) (m : Chunk) : Chunk :=
  ltac:(set_field (eta m) (ck_ShardID m) v).
Definition set_ReplicaID (v : Z) (m : Chunk) : Chunk :=
  ltac:(set_field (eta m) (ck_ReplicaID m) v).
Definition set_From (v : Z) (m : Chunk) : Chunk :=
  ltac:(set_field (eta m) (ck_From m) v).
Definition set_ChunkId (v : Z) (m : Chunk) : Chunk :=
  ltac:(set_field (eta m) (ck_ChunkId m) v).
Definition set_ChunkSize (v : Z) (m : Chunk) : Chunk :=
  ltac:(set_field (eta m) (ck_ChunkSize m) v).
Definition set_ChunkCount (v : Z) (m : Chunk) : Chunk :=
  ltac:(set_field (eta m) (ck_ChunkCount m) v).
Definition set_Data (v : bytes) (m : Chunk) : Chunk :=
  ltac:(set_field (eta m) (ck_Data m) v).
Definition set_Index (v : Z) (m : Chunk) : Chunk :=
  ltac:(set_field (eta m) (ck_Index m) v).
Definition set_Term (v : Z) (m : Chunk) : Chunk :=
  ltac:(set_field (eta m) (ck_Term m) v).
Definition set_Membership (v : pb.Membership) (m : Chunk) : Chunk :=
  ltac:(set_field (eta m) (ck_Membership m) v).
Definition set_Filepath (v : string) (m : Chunk) : Chunk :=
  ltac:(set_field (eta m) (ck_Filepath m) v).
Definition set_FileSize (v : Z) (m : Chunk) : Chunk :=
  ltac:(set_field (eta m) (ck_FileSize m) v).
Definition set_DeploymentId (v : Z) (m : Chunk) : Chunk :=
  ltac:(set_field (eta m) (ck_DeploymentId m) v).
Definition set_FileChunkId (v : Z) (m : Chunk) : Chunk :=
  ltac:(set_field (eta m) (ck_FileChunkId m) v).
Definition set_FileChunkCount (v : Z) (m : Chunk) : Chunk :=
  ltac:(set_field (eta m) (ck_FileChunkCount m) v).
Definition set_HasFileInfo (v : bool) (m : Chunk) : Chunk :=
  ltac:(set_field (eta m) (ck_HasFileInfo m) v).
Definition set_FileInfo (v : pb.SnapshotFile) (m : Chunk) : Chunk :=
  ltac:(set_field (eta m) (ck_FileInfo m) v).
Definition set_BinVer (v : Z) (m : Chunk) : Chunk :=
  ltac:(set_field (eta m) (ck_BinVer m) v).
Definition set_OnDiskIndex (v : Z) (m : Chunk) : Chunk :=
  ltac:(set_field (eta m) (ck_OnDiskIndex m) v).
Definition set_Witness (v : bool) (m : Chunk) : Chunk :=
  ltac:(set_field (eta m) (ck_Witness m) v).

Section codec.
Context `{GoRuntime}.

Definition Size (m : Chunk) : Z :=
  (1 + sovRaft (ck_ShardID m))
  + (1 + sovRaft (ck_ReplicaID m))
  + (1 + sovRaft (ck_From m))
  + (1 + sovRaft (ck_ChunkId m))
  + (1 + sovRaft (ck_ChunkSize m))
  + (1 + sovRaft (ck_ChunkCount m))
  + (if negb (len (ck_Data m) =? 0) then sizeBytes 1 (ck_Data m) else 0)
  + (1 + sovRaft (ck_Index m))
  + (1 + sovRaft (ck_Term m))
  + sizeMsg 1 (Membership.Size (ck_Membership m))
  + sizeString 1 (ck_Filepath m)
  + (1 + sovRaft (ck_FileSize m))
  + (1 + sovRaft (ck_DeploymentId m))
  + (1 + sovRaft (ck_FileChunkId m))
  + (2 + sovRaft (ck_FileChunkCount m))
  + 3
  + sizeMsg 2 (SnapshotFile.Size (ck_FileInfo m))
  + (2 + sovRaft (ck_BinVer m))
  + (2 + sovRaft (ck_OnDiskIndex m))
  + 3.

Definition MarshalTo (m : Chunk) : M wstate unit :=
  putVarint [0x8] (ck_ShardID m) ;;
  putVarint [0x10] (ck_ReplicaID m) ;;
  putVarint [0x18] (ck_From m) ;;
  putVarint [0x20] (ck_ChunkId m) ;;
  putVarint [0x28] (ck_ChunkSize m) ;;
  putVarint [0x30] (ck_ChunkCount m) ;;
  when (negb (len (ck_Data m) =? 0)) (putBytes [0x3a] (ck_Data m)) ;;
  putVarint [0x40] (ck_Index m) ;;
  putVarint [0x48] (ck_Term m) ;;
  putMsg [0x52] (Membership.Size (ck_Membership m)) (Membership.MarshalTo (ck_Membership m)) ;;
  putString [0x62] (ck_Filepath m) ;;
  putVarint [0x68] (ck_FileSize m) ;;
  putVarint [0x70] (ck_DeploymentId m) ;;
  putVarint [0x78] (ck_FileChunkId m) ;;
  putVarint [0x80; 0x1] (ck_FileChunkCount m) ;;
  putBool [0x88; 0x1] (ck_HasFileInfo m) ;;
  putMsg [0x92; 0x1] (SnapshotFile.Size (ck_FileInfo m)) (SnapshotFile.MarshalTo (ck_FileInfo
    m)) ;;
  putVarint [0x98; 0x1] (ck_BinVer m) ;;
  putVarint [0xa0; 0x1] (ck_OnDiskIndex m) ;;
  putBool [0xa8; 0x1] (ck_Witness m).

Definition fields (n : Z) : option (Z -> Chunk -> reader Chunk) :=
  match n with
  | 1 => Some (varintField u64 set_ShardID)
  | 2 => Some (varintField u64 set_ReplicaID)
  | 3 => Some (varintField u64 set_From)
  | 4 => Some (varintField u64 set_ChunkId)
  | 5 => Some (varintField u64 set_ChunkSize)
  | 6 => Some (varintField u64 set_ChunkCount)
  | 7 => Some (bytesField true set_Data)
  | 8 => Some (varintField u64 set_Index)
  | 9 => Some (varintField u64 set_Term)
  | 10 => Some (msgField true Membership.Unmarshal ck_Membership set_Membership)
  | 12 => Some (stringField true set_Filepath)
  | 13 => Some (varintField u64 set_FileSize)
  | 14 => Some (varintField u64 set_DeploymentId)
  | 15 => Some (varintField u64 set_FileChunkId)
  | 16 => Some (varintField u64 set_FileChunkCount)
  | 17 => Some (boolField set_HasFileInfo)
  | 18 => Some (msgField true SnapshotFile.Unmarshal ck_FileInfo set_FileInfo)
  | 19 => Some (varintField u32 set_BinVer)
  | 20 => Some (varintField u64 set_OnDiskIndex)
  | 21 => Some (boolField set_Witness)
  | _ => None
  end.

Definition Unmarshal (m : Chunk) (data : bytes) : result Chunk :=
  unmarshal true fields m data.
Definition Marshal (m : Chunk) : result bytes := runMarshal (Size m) (MarshalTo m).

End codec.
End Chunk.

Module RaftDataStatus.

Record RaftDataStatus : Type := mkRaftDataStatus {
  rd_Address : string;
  rd_BinVer : Z;
  rd_HardHash : Z;
  rd_LogdbType : string;
  rd_Hostname : string;
  rd_DeploymentId : Z;
  rd_StepWorkerCount : Z;
  rd_LogdbShardCount : Z;
  rd_MaxSessionCount : Z;
  rd_EntryBatchSize : Z;
  rd_AddressByNodeHostId : bool
}.
Definition zero : RaftDataStatus := mkRaftDataStatus EmptyString 0 0 EmptyString EmptyString 0 0
  0 0 0 false.

Definition eta (m : RaftDataStatus) : RaftDataStatus :=
  mkRaftDataStatus (rd_Address m) (rd_BinVer m) (rd_HardHash m) (rd_LogdbType m) (rd_Hostname
    m) (rd_DeploymentId m) (rd_StepWorkerCount m) (rd_LogdbShardCount m) (rd_MaxSessionCount
    m) (rd_EntryBatchSize m) (rd_AddressByNodeHostId m).
Definition set_Address (v : string) (m : RaftDataStatus) : RaftDataStatus :=
  ltac:(set_field (eta m) (rd_Address m) v).
Definition set_BinVer (v : Z) (m : RaftDataStatus) : RaftDataStatus :=
  ltac:(set_field (eta m) (rd_BinVer m) v).
Definition set_HardHash (v : Z) (m : RaftDataStatus) : RaftDataStatus :=
  ltac:(set_field (eta m) (rd_HardHash m) v).
Definition set_LogdbType (v : string) (m : RaftDataStatus) : RaftDataStatus :=
  ltac:(set_field (eta m) (rd_LogdbType m) v).
Definition set_Hostname (v : string) (m : RaftDataStatus) : RaftDataStatus :=
  ltac:(set_field (eta m) (rd_Hostname m) v).
Definition set_DeploymentId (v : Z) (m : RaftDataStatus) : RaftDataStatus :=
  ltac:(set_field (eta m) (rd_DeploymentId m) v).
Definition set_StepWorkerCount (v : Z) (m : RaftDataStatus) : RaftDataStatus :=
  ltac:(set_field (eta m) (rd_StepWorkerCount m) v).
Definition set_LogdbShardCount (v : Z) (m : RaftDataStatus) : RaftDataStatus :=
  ltac:(set_field (eta m) (rd_LogdbShardCount m) v).
Definition set_MaxSessionCount (v : Z) (m : RaftDataStatus) : RaftDataStatus :=
  ltac:(set_field (eta m) (rd_MaxSessionCount m) v).
Definition set_EntryBatchSize (v : Z) (m : RaftDataStatus) : RaftDataStatus :=
  ltac:(set_field (eta m) (rd_EntryBatchSize m) v).
Definition set_AddressByNodeHostId (v : bool) (m : RaftDataStatus) : RaftDataStatus :=
  ltac:(set_field (eta m) (rd_AddressByNodeHostId m) v).

Section codec.
Context `{GoRuntime}.

Definition Size (m : RaftDataStatus) : Z :=
  sizeString 1 (rd_Address m)
  + (1 + sovRaft (rd_BinVer m))
  + (1 + sovRaft (rd_HardHash m))
  + sizeString 1 (rd_LogdbType m)
  + sizeString 1 (rd_Hostname m)
  + (1 + sovRaft (rd_DeploymentId m))
  + (1 + sovRaft (rd_StepWorkerCount m))
  + (1 + sovRaft (rd_LogdbShardCount m))
  + (1 + sovRaft (rd_MaxSessionCount m))
  + (1 + sovRaft (rd_EntryBatchSize m))
  + 2.

Definition MarshalTo (m : RaftDataStatus) : M wstate unit :=
  putString [0xa] (rd_Address m) ;;
  putVarint [0x10] (rd_BinVer m) ;;
  putVarint [0x18] (rd_HardHash m) ;;
  putString [0x22] (rd_LogdbType m) ;;
  putString [0x2a] (rd_Hostname m) ;;
  putVarint [0x30] (rd_DeploymentId m) ;;
  putVarint [0x38] (rd_StepWorkerCount m) ;;
  putVarint [0x40] (rd_LogdbShardCount m) ;;
  putVarint [0x48] (rd_MaxSessionCount m) ;;
  putVarint [0x50] (rd_EntryBatchSize m) ;;
  putBool [0x58] (rd_AddressByNodeHostId m).

Definition fields (n : Z) : option (Z -> RaftDataStatus -> reader RaftDataStatus) :=
  match n with
  | 1 => Some (stringField true set_Address)
  | 2 => Some (varintField u32 set_BinVer)
  | 3 => Some (varintField u64 set_HardHash)
  | 4 => Some (stringField true set_LogdbType)
  | 5 => Some (stringField true set_Hostname)
  | 6 => Some (varintField u64 set_DeploymentId)
  | 7 => Some (varintField u64 set_StepWorkerCount)
  | 8 => Some (varintField u64 set_LogdbShardCount)
  | 9 => Some (varintField u64 set_MaxSessionCount)
  | 10 => Some (varintField u64 set_EntryBatchSize)
  | 11 => Some (boolField set_AddressByNodeHostId)
  | _ => None
  end.

Definition Unmarshal (m : RaftDataStatus) (data : bytes) : result RaftDataStatus :=
  unmarshal true fields m data.
Definition Marshal (m : RaftDataStatus) : result bytes := runMarshal (Size m) (MarshalTo m).

End codec.
End RaftDataStatus.

Module SnapshotHeader.

Record SnapshotHeader : Type := mkSnapshotHeader {
  sh_SessionSize : Z;
  sh_DataStoreSize : Z;
  sh_UnreliableTime : Z;
  sh_GitVersion : string;
  sh_HeaderChecksum : bytes;
  sh_PayloadChecksum : bytes;
  sh_ChecksumType : Z;
  sh_Version : Z;
  sh_CompressionType : Z
}.
Definition zero : SnapshotHeader := mkSnapshotHeader 0 0 0 EmptyString [] [] 0 0 0.

Definition eta (m : SnapshotHeader) : SnapshotHeader :=
  mkSnapshotHeader (sh_SessionSize m) (sh_DataStoreSize m) (sh_UnreliableTime m)
    (sh_GitVersion m) (sh_HeaderChecksum m) (sh_PayloadChecksum m) (sh_ChecksumType m)
    (sh_Version m) (sh_CompressionType m).
Definition set_SessionSize (v : Z) (m : SnapshotHeader) : SnapshotHeader :=
  ltac:(set_field (eta m) (sh_SessionSize m) v).
Definition set_DataStoreSize (v : Z) (m : SnapshotHeader) : SnapshotHeader :=
  ltac:(set_field (eta m) (sh_DataStoreSize m) v).
Definition set_UnreliableTime (v : Z) (m : SnapshotHeader) : SnapshotHeader :=
  ltac:(set_field (eta m) (sh_UnreliableTime m) v).
Definition set_GitVersion (v : string) (m : SnapshotHeader) : SnapshotHeader :=
  ltac:(set_field (eta m) (sh_GitVersion m) v).
Definition set_HeaderChecksum (v : bytes) (m : SnapshotHeader) : SnapshotHeader :=
  ltac:(set_field (eta m) (sh_HeaderChecksum m) v).
Definition set_PayloadChecksum (v : bytes) (m : SnapshotHeader) : SnapshotHeader :=
  ltac:(set_field (eta m) (sh_PayloadChecksum m) v).
Definition set_ChecksumType (v : Z) (m : SnapshotHeader) : SnapshotHeader :=
  ltac:(set_field (eta m) (sh_ChecksumType m) v).
Definition set_Version (v : Z) (m : SnapshotHeader) : SnapshotHeader :=
  ltac:(set_field (eta m) (sh_Version m) v).
Definition set_CompressionType (v : Z) (m : SnapshotHeader) : SnapshotHeader :=
  ltac:(set_field (eta m) (sh_CompressionType m) v).

Section codec.
Context `{GoRuntime}.

Definition Size (m : SnapshotHeader) : Z :=
  (1 + sovRaft (sh_SessionSize m))
  + (1 + sovRaft (sh_DataStoreSize m))
  + (1 + sovRaft (sh_UnreliableTime m))
  + sizeString 1 (sh_GitVersion m)
  + (if negb (len (sh_HeaderChecksum m) =? 0) then sizeBytes 1 (sh_HeaderChecksum m) else 0)
  + (if negb (len (sh_PayloadChecksum m) =? 0) then sizeBytes 1 (sh_PayloadChecksum m) else 0)
  + (1 + sovRaft (u64 (sh_ChecksumType m)))
  + (1 + sovRaft (sh_Version m))
  + (1 + sovRaft (u64 (sh_CompressionType m))).

Definition MarshalTo (m : SnapshotHeader) : M wstate unit :=
  putVarint [0x8] (sh_SessionSize m) ;;
  putVarint [0x10] (sh_DataStoreSize m) ;;
  putVarint [0x18] (sh_UnreliableTime m) ;;
  putString [0x22] (sh_GitVersion m) ;;
  when (negb (len (sh_HeaderChecksum m) =? 0)) (putBytes [0x2a] (sh_HeaderChecksum m)) ;;
  when (negb (len (sh_PayloadChecksum m) =? 0)) (putBytes [0x32] (sh_PayloadChecksum m)) ;;
  putVarint [0x38] (u64 (sh_ChecksumType m)) ;;
  putVarint [0x40] (sh_Version m) ;;
  putVarint [0x48] (u64 (sh_CompressionType m)).

Definition fields (n : Z) : option (Z -> SnapshotHeader -> reader SnapshotHeader) :=
  match n with
  | 1 => Some (varintField u64 set_SessionSize)
  | 2 => Some (varintField u64 set_DataStoreSize)
  | 3 => Some (varintField u64 set_UnreliableTime)
  | 4 => Some (stringField true set_GitVersion)
  | 5 => Some (bytesField true set_HeaderChecksum)
  | 6 => Some (bytesField true set_PayloadChecksum)
  | 7 => Some (varintField i32 set_ChecksumType)
  | 8 => Some (varintField u64 set_Version)
  | 9 => Some (varintField i32 set_CompressionType)
  | _ => None
  end.

Definition Unmarshal (m : SnapshotHeader) (data : bytes) : result SnapshotHeader :=
  unmarshal true fields m data.
Definition Marshal (m : SnapshotHeader) : result bytes := runMarshal (Size m) (MarshalTo m).

End codec.
End SnapshotHeader.

