(* ===== verification/CodecSpec.v ===== *)
(** * The protobuf codecs: encoding and decoding are inverse

    For every message type: [MarshalTo] writes exactly [Size] bytes, so that
    [Marshal] never runs out of its buffer, and [Unmarshal] of those bytes gives
    the message back, whatever order the runtime picks for the maps. *)
From S2P Require Import Prelude Raftpb LogDB Wire WireSpec EntryCodec EntryCodecSpec Codec.

(** ** Fields, by type *)

(** The number a one- or two-byte tag stands for. *)
Definition tagVal (tag : list Z) : Z :=
  match tag with [a; b] => a - 128 + 128 * b | [a] => a | _ => 0 end.

Section fields.
Context {A : Type} {checked : bool} {fields : Z -> option (Z -> A -> reader A)}.
Implicit Types (m : A).

(** [tag] is the tag of a field with wire type [wt], decoded by [h]. *)
Definition tagged (tag : list Z) (wt : Z) (h : Z -> A -> reader A) : Prop :=
  map toByte tag = varint (tagVal tag) /\ 0 <= tagVal tag < W64 /\
  fields (i32 (Z.shiftr (tagVal tag) 3)) = Some h /\ Z.land (tagVal tag) 7 = wt /\
  wt <> 4 /\ 0 < i32 (Z.shiftr (tagVal tag) 3).

Lemma codes_tagged tag wt h c n m m' :
  tagged tag wt h -> 0 <= n -> writes c n (fun bs => takes (h wt) bs m m') ->
  codes checked fields (putTag tag ;; c) (len tag + n) m m'.
Proof.
  intros (Htag & Hw & Hf & <- & H4 & H0) Hn Hc. by eapply codes_field.
Qed.

Lemma codes_eq c n n' m m1 m2 :
  codes checked fields c n m m1 -> n = n' -> m1 = m2 -> codes checked fields c n' m m2.
Proof. by intros ? <- <-. Qed.

Lemma sovRaft_nonneg v : 0 <= v < W64 -> 0 <= sovRaft v.
Proof. intros. rewrite sovRaft_spec by done. apply len_nonneg. Qed.

Lemma codes_varint tag wrap set v m :
  tagged tag 0 (varintField wrap set) -> 0 <= v < W64 -> fits_width wrap v ->
  codes checked fields (putVarint tag v) (len tag + sovRaft v) m (set v m).
Proof.
  intros Ht Hv Hw. eapply codes_tagged; [done|by apply sovRaft_nonneg|].
  by apply payload_varint.
Qed.

Lemma codes_u64 tag set v m :
  tagged tag 0 (varintField u64 set) -> is_u64 v ->
  codes checked fields (putVarint tag v) (len tag + sovRaft v) m (set v m).
Proof. intros Ht Hv. by apply (codes_varint tag u64); [..|apply fits_u64]. Qed.

Lemma codes_u32 tag set v m :
  tagged tag 0 (varintField u32 set) -> 0 <= v < 2 ^ 32 ->
  codes checked fields (putVarint tag v) (len tag + sovRaft v) m (set v m).
Proof. intros Ht Hv. apply (codes_varint tag u32); [done|lia|by apply fits_u32]. Qed.

Lemma codes_i32 tag set v m :
  tagged tag 0 (varintField i32 set) -> 0 <= v < 2 ^ 31 ->
  codes checked fields (putVarint tag (u64 v)) (len tag + sovRaft (u64 v)) m (set v m).
Proof.
  intros Ht Hv. assert (u64 v = v) as -> by (apply Z.mod_small; lia).
  apply (codes_varint tag i32); [done|lia|by apply fits_i32].
Qed.

Lemma codes_bool tag set b m :
  tagged tag 0 (boolField set) -> codes checked fields (putBool tag b) (len tag + 1) m (set b m).
Proof. intros Ht. eapply codes_tagged; [done|lia|apply payload_bool]. Qed.

Lemma codes_bytes tag ck set bs m :
  tagged tag 2 (bytesField ck set) -> len bs < 2 ^ 63 ->
  codes checked fields (putBytes tag bs) (sizeBytes (len tag) bs) m (set bs m).
Proof.
  intros Ht Hl. pose proof (len_nonneg bs). pose proof (sovRaft_nonneg (len bs)).
  unfold sizeBytes. eapply codes_eq; [eapply codes_tagged; [done| |]|..].
  2: by apply (payload_block ck bs); [|apply writes_copyBytes].
  - lia.
  - lia.
  - done.
Qed.

(** A slice is written unless it is empty. *)
Lemma codes_bytes_opt tag ck set bs m :
  tagged tag 2 (bytesField ck set) -> len bs < 2 ^ 63 -> set [] m = m ->
  codes checked fields (when (negb (len bs =? 0)) (putBytes tag bs))
    (if negb (len bs =? 0) then sizeBytes (len tag) bs else 0) m (set bs m).
Proof.
  intros Ht Hl Hs. destruct (Z.eqb_spec (len bs) 0) as [Hz|Hz]; simpl; [|by eapply codes_bytes].
  destruct bs; [|rewrite len_cons in Hz; pose proof (len_nonneg bs); lia].
  rewrite Hs. apply codes_skip.
Qed.

Lemma codes_string tag ck set s m :
  tagged tag 2 (stringField ck set) -> slen s < 2 ^ 63 ->
  codes checked fields (putString tag s) (sizeString (len tag) s) m (set s m).
Proof.
  intros Ht Hl. unfold slen in Hl. pose proof (len_nonneg (String.list_byte_of_string s)).
  pose proof (sovRaft_nonneg (slen s)). unfold sizeString, slen in *.
  eapply codes_eq; [eapply codes_tagged; [done| |by apply (payload_string ck)]|..]; unfold slen.
  - lia.
  - lia.
  - done.
Qed.

Lemma codes_msg {B} tag ck (dec : B -> bytes -> result B) sub set c n b m :
  tagged tag 2 (msgField ck dec sub set) -> 0 <= n < 2 ^ 63 ->
  writes c n (fun bs => len bs < 2 ^ 63 -> dec (sub m) bs = OK b) ->
  codes checked fields (putMsg tag n c) (sizeMsg (len tag) n) m (set b m).
Proof.
  intros Ht Hn Hc. pose proof (sovRaft_nonneg n). unfold sizeMsg.
  eapply codes_eq; [eapply codes_tagged; [done| |by apply (payload_msg ck dec sub)]|..].
  - lia.
  - lia.
  - done.
Qed.

(** What [codes] says of [Marshal] and [Unmarshal]. *)
Lemma codes_unmarshal c n m m' :
  codes checked fields c n m m' ->
  writes c n (fun bs => len bs < 2 ^ 63 -> unmarshal checked fields m bs = OK m').
Proof.
  intros [_ Hc]. eapply writes_weaken; [exact Hc|]. intros bs Hr Hl. by apply unmarshal_reads.
Qed.

Lemma codes_marshal c n m m' :
  codes checked fields c n m m' -> n < 2 ^ 63 ->
  exists bs, runMarshal n c = OK bs /\ unmarshal checked fields m bs = OK m'.
Proof.
  intros Hc Hn. pose proof (codes_unmarshal _ _ _ _ Hc) as Hw.
  destruct (Hw (mkW [] n 0)) as (bs & k & E & L & HP); [simpl; lia|].
  exists bs. unfold runMarshal. rewrite E. split; [done|]. apply HP. lia.
Qed.

(** *** Repeated fields *)

Lemma fold_append {X} (get : A -> list X) (set : list X -> A -> A) xs m :
  (forall v m, get (set v m) = v) -> (forall v w m, set v (set w m) = set v m) ->
  (forall m, set (get m) m = m) ->
  fold_left (fun m x => set (get m ++ [x]) m) xs m = set (get m ++ xs) m.
Proof.
  intros Hgs Hss Hsg. revert m. induction xs as [|x xs IH]; intros m; simpl.
  - by rewrite app_nil_r, Hsg.
  - by rewrite IH, Hgs, Hss, <- app_assoc.
Qed.

End fields.

(** *** Map fields *)

Lemma foldr_add_perm {X} (f : X -> Z) xs ys :
  xs ≡ₚ ys -> foldr (fun x n => f x + n) 0 xs = foldr (fun x n => f x + n) 0 ys.
Proof. induction 1; simpl; lia. Qed.

Lemma writes_stringValue v :
  slen v < 2 ^ 63 ->
  writes (encodeVarintRaft (slen v) ;; copyBytes (String.list_byte_of_string v))
    (slen v + sovRaft (slen v)) (fun bs => takes stringValue bs EmptyString v).
Proof.
  intros Hl. unfold slen in *. set (bs := String.list_byte_of_string v) in *.
  pose proof (len_nonneg bs). rewrite Z.add_comm.
  eapply writes_weaken; [apply writes_app; [apply writes_varint; lia|apply writes_copyBytes]|].
  intros b <- data i rest Hd Hat. unfold stringValue, mbind, M_bind.
  rewrite (takes_block true bs data i rest) by done. unfold ret, bs.
  by rewrite String.string_of_list_byte_of_string.
Qed.

Lemma writes_boolValue (b : bool) :
  writes (putByte (if b then 1 else 0)) 1 (fun bs => takes boolValue bs false b).
Proof.
  eapply writes_weaken; [apply (payload_bool (fun b _ => b) b false)|].
  intros bs Ht data i rest Hd Hat. exact (Ht data i rest Hd Hat).
Qed.

(** Inserting the entries of a map in any order rebuilds it. *)
Lemma fold_insert_all {V} (mp : gmap Z V) ks d :
  ks ≡ₚ (map_to_list mp).*1 ->
  fold_left (fun a k => <[k := default d (mp !! k)]> a) ks ∅ = mp.
Proof.
  intros Hks. assert (forall k, k ∈ ks <-> is_Some (mp !! k)) as Hk.
  { intros k. rewrite Hks, list_elem_of_fmap. split.
    - intros ([k' v] & -> & Hin%elem_of_map_to_list). by eexists.
    - intros [v Hv%elem_of_map_to_list]. by exists (k, v). }
  apply map_eq. intros k.
  assert (forall l (m0 : gmap Z V),
    fold_left (fun a k => <[k := default d (mp !! k)]> a) l m0 !! k =
    if decide (k ∈ l) then Some (default d (mp !! k)) else m0 !! k) as Hl.
  { induction l as [|x l IH]; intros m0; simpl; [done|]. rewrite IH.
    destruct (decide (k ∈ l)); [by rewrite decide_True by set_solver|].
    destruct (decide (k = x)) as [->|Hne].
    - rewrite decide_True by set_solver. by rewrite lookup_insert_eq.
    - rewrite decide_False by set_solver. by rewrite lookup_insert_ne by done. }
  rewrite Hl. case_decide as Hd.
  - apply Hk in Hd as [v ->]. done.
  - rewrite lookup_empty. destruct (mp !! k) eqn:Hm; [|done]. destruct Hd. apply Hk. by eexists.
Qed.

Section maps.
Context `{GoRuntime} {A : Type} {checked : bool} {fields : Z -> option (Z -> A -> reader A)}.
Implicit Types (m : A).

Lemma codes_keysOf {V} (mp : gmap Z V) f n m m' :
  (forall ks, ks ≡ₚ (map_to_list mp).*1 -> codes checked fields (f ks) n m m') ->
  codes checked fields (ks ← keysOf mp; f ks) n m m'.
Proof.
  intros Hf. split; [by apply (Hf (map_to_list mp).*1)|]. intros [out room k] Hs.
  unfold keysOf, mbind, M_bind. simpl in *.
  destruct (proj2 (Hf (go_range k (map_to_list mp).*1) (go_range_perm _ _))
    (mkW out room (S k)) Hs) as (bs & k' & ?). by exists bs, k'.
Qed.

(** A map of the message, read with [get] and replaced with [set]. *)
Record lens {X} (get : A -> X) (set : X -> A -> A) : Prop := {
  lens_get : forall v m, get (set v m) = v;
  lens_set : forall v w m, set v (set w m) = set v m;
  lens_id : forall m, set (get m) m = m
}.

Lemma fold_lens {V} (get : A -> gmap Z V) set (g : Z -> V) ks m :
  lens get set ->
  fold_left (fun m k => set (<[k := g k]> (get m)) m) ks m =
  set (fold_left (fun a k => <[k := g k]> a) ks (get m)) m.
Proof.
  intros Hl. revert m. induction ks as [|k ks IH]; intros m; simpl.
  - by rewrite (lens_id _ _ Hl).
  - by rewrite IH, (lens_get _ _ Hl), (lens_set _ _ Hl).
Qed.

(** The entries of a map, each encoded with its key and value. *)
Lemma codes_map {V} tag (zero : V) readV get set (mp : gmap Z V) (size : Z -> Z)
    (c : Z -> V -> M wstate unit) m :
  tagged (fields := fields) tag 2 (mapField zero readV get set) -> lens get set -> get m = ∅ ->
  (forall k m, k ∈ (map_to_list mp).*1 ->
    codes checked fields (c k (default zero (mp !! k))) (size k) m
      (set (<[k := default zero (mp !! k)]> (get m)) m)) ->
  codes checked fields
    (when (negb (Z.of_nat (base.size mp) =? 0))
       (ks ← keysOf mp; forM_ ks (fun k => let v := default zero (mp !! k) in c k v)))
    (foldr (fun k n => size k + n) 0 (map_to_list mp).*1) m (set mp m).
Proof.
  intros Ht Hl Hm Hc. destruct (Z.eqb_spec (Z.of_nat (base.size mp)) 0) as [Hz|_]; simpl.
  - assert (mp = ∅) as -> by (apply map_size_empty_inv; lia).
    rewrite map_to_list_empty, <- Hm, (lens_id _ _ Hl). apply codes_skip.
  - apply codes_keysOf. intros ks Hks. rewrite <- (foldr_add_perm size ks) by done.
    eapply codes_eq; [apply codes_forM with (n := size)
      (g := fun m k => set (<[k := default zero (mp !! k)]> (get m)) m)|done|].
    + intros k m1 Hk. apply Hc. by rewrite <- Hks.
    + rewrite (fold_lens get set (fun k => default zero (mp !! k))), Hm by done.
      by rewrite fold_insert_all.
Qed.

Lemma sov_pos v : 0 <= v < W64 -> 1 <= sovRaft v <= 10.
Proof.
  intros Hv. rewrite sovRaft_spec by done. unfold varint.
  destruct (varintBytes_exact 10 v) as (Hn & _); [lia|simpl; lia|]. unfold len. lia.
Qed.

Lemma codes_mapString tag get set (mp : gmap Z string) m :
  tagged (fields := fields) tag 2 (mapField EmptyString stringValue get set) -> len tag = 1 ->
  lens get set -> get m = ∅ ->
  map_Forall (fun k v => is_u64 k /\ slen v < 2 ^ 62) mp ->
  codes checked fields (putMapString tag mp) (sizeMapString mp) m (set mp m).
Proof.
  intros Ht Ht1 Hl Hm Hmp. unfold putMapString, sizeMapString.
  apply (codes_map tag EmptyString stringValue get set mp
    (fun k => mapSizeString k (default EmptyString (mp !! k)) + 1
              + sovRaft (mapSizeString k (default EmptyString (mp !! k))))
    (fun k v => putMsg tag (mapSizeString k v) (putVarint [0x8] k ;; putString [0x12] v)));
    [done..|].
  intros k m1 Hk. apply list_elem_of_fmap in Hk as ([k' v] & -> & Hin%elem_of_map_to_list).
  destruct (Hmp k' v Hin) as [Hk' Hv]. simpl. rewrite Hin. simpl.
  pose proof (sov_pos k' Hk'). pose proof (len_nonneg (String.list_byte_of_string v)) as Hv0.
  fold (slen v) in Hv0. pose proof (sov_pos (slen v)) as Hsv.
  assert (0 <= slen v < W64) as Hsl by lia. specialize (Hsv Hsl).
  pose proof (sov_pos (mapSizeString k' v)) as Hsm. unfold mapSizeString in *.
  eapply codes_eq; [eapply codes_tagged; [exact Ht| |]| |done]; cycle 1.
  - apply (payload_map EmptyString v stringValue get set 0x12) with (n := slen v + sovRaft (slen v));
      [lia|done|lia|done|lia|lia|]. apply writes_stringValue. lia.
  - rewrite Ht1. lia.
  - lia.
Qed.

Lemma codes_mapBool tag get set (mp : gmap Z bool) m :
  tagged (fields := fields) tag 2 (mapField false boolValue get set) -> len tag = 1 ->
  lens get set -> get m = ∅ -> map_Forall (fun k _ => is_u64 k) mp ->
  codes checked fields (putMapBool tag mp) (sizeMapBool mp) m (set mp m).
Proof.
  intros Ht Ht1 Hl Hm Hmp. unfold putMapBool, sizeMapBool.
  apply (codes_map tag false boolValue get set mp
    (fun k => mapSizeBool k + 1 + sovRaft (mapSizeBool k))
    (fun k v => putMsg tag (mapSizeBool k) (putVarint [0x8] k ;; putBool [0x10] v))); [done..|].
  intros k m1 Hk. apply list_elem_of_fmap in Hk as ([k' v] & -> & Hin%elem_of_map_to_list).
  pose proof (Hmp k' v Hin) as Hk'. simpl. rewrite Hin. simpl.
  pose proof (sov_pos k' Hk'). pose proof (sov_pos (mapSizeBool k')) as Hsm.
  unfold mapSizeBool in *.
  eapply codes_eq; [eapply codes_tagged; [exact Ht| |]| |done]; cycle 1.
  - apply (payload_map false v boolValue get set 0x10) with (n := 1);
      [lia|done|lia|done|lia|lia|].
    apply writes_boolValue.
  - rewrite Ht1. lia.
  - lia.
Qed.

End maps.

(** ** Message types *)

Lemma len_1 {X} (x : X) : len [x] = 1.
Proof. done. Qed.
Lemma len_2 {X} (x y : X) : len [x; y] = 2.
Proof. done. Qed.

(** A concrete tag and the handler of its field. *)
Ltac tag := split_and!; [vm_compute; reflexivity|vm_compute; done|vm_compute; done
                        |reflexivity|reflexivity|done|vm_compute; done].

Ltac lens := split; [done|done|by intros []].

(** One field, by the handler of its tag; the bounds come from the hypotheses. *)
Ltac field_with fs t :=
  let n := eval vm_compute in (i32 (Z.shiftr (tagVal t) 3)) in
  let h := eval hnf in (fs n) in
  lazymatch h with
  | Some (varintField u64 ?s) => apply (codes_u64 t s); [tag|by auto]
  | Some (varintField u32 ?s) => apply (codes_u32 t s); [tag|by auto]
  | Some (varintField i32 ?s) => apply (codes_i32 t s); [tag|by auto]
  | Some (boolField ?s) => apply (codes_bool t s); tag
  | Some (stringField ?ck ?s) => apply (codes_string t ck s); [tag|lia]
  | Some (bytesField ?ck ?s) => apply (codes_bytes_opt t ck s); [tag|lia|done]
  | Some (mapField EmptyString stringValue ?g ?s) =>
      apply (codes_mapString t g s); [tag|done|lens|done|by auto]
  | Some (mapField false boolValue ?g ?s) =>
      apply (codes_mapBool t g s); [tag|done|lens|done|by auto]
  end.

Ltac field :=
  lazymatch goal with
  | |- codes _ ?fs (putVarint ?t _) _ _ _ => field_with fs t
  | |- codes _ ?fs (putBool ?t _) _ _ _ => field_with fs t
  | |- codes _ ?fs (putString ?t _) _ _ _ => field_with fs t
  | |- codes _ ?fs (when _ (putBytes ?t _)) _ _ _ => field_with fs t
  | |- codes _ ?fs (putMapString ?t _) _ _ _ => field_with fs t
  | |- codes _ ?fs (putMapBool ?t _) _ _ _ => field_with fs t
  end.

Ltac fields_ := repeat (eapply codes_bind; [field|]); try field.

Definition stateOk (m : pb.State) : Prop :=
  is_u64 (pb.st_Term m) /\ is_u64 (pb.st_Vote m) /\ is_u64 (pb.st_Commit m).

Lemma State_codes m :
  stateOk m -> codes true State.fields (State.MarshalTo m) (State.Size m) State.zero m.
Proof.
  intros (? & ? & ?). eapply codes_eq; [unfold State.MarshalTo; fields_|..].
  - unfold State.Size. rewrite !len_1. lia.
  - by destruct m.
Qed.

Definition configChangeOk (m : ConfigChange.ConfigChange) : Prop :=
  is_u64 (ConfigChange.cc_ConfigChangeId m) /\ 0 <= ConfigChange.cc_Type m < 2 ^ 31 /\
  is_u64 (ConfigChange.cc_ReplicaID m) /\ slen (ConfigChange.cc_Address m) < 2 ^ 62.

Lemma ConfigChange_codes m :
  configChangeOk m ->
  codes true ConfigChange.fields (ConfigChange.MarshalTo m) (ConfigChange.Size m)
    ConfigChange.zero m.
Proof.
  intros (? & ? & ? & ?). eapply codes_eq; [unfold ConfigChange.MarshalTo; fields_|..].
  - unfold ConfigChange.Size. rewrite !len_1. lia.
  - by destruct m.
Qed.

Definition fileOk (m : pb.SnapshotFile) : Prop :=
  slen (pb.sf_Filepath m) < 2 ^ 62 /\ is_u64 (pb.sf_FileSize m) /\ is_u64 (pb.sf_FileId m) /\
  len (pb.sf_Metadata m) < 2 ^ 62.

Lemma SnapshotFile_codes m :
  fileOk m ->
  codes true SnapshotFile.fields (SnapshotFile.MarshalTo m) (SnapshotFile.Size m)
    SnapshotFile.zero m.
Proof.
  intros (? & ? & ? & ?). eapply codes_eq; [unfold SnapshotFile.MarshalTo; fields_|..].
  - unfold SnapshotFile.Size. rewrite !len_1. lia.
  - by destruct m.
Qed.

(** The keys and addresses of a membership map. *)
Definition addressesOk (mp : gmap Z string) : Prop :=
  map_Forall (fun k v => is_u64 k /\ slen v < 2 ^ 62) mp.

Definition membershipOk (m : pb.Membership) : Prop :=
  is_u64 (pb.mb_ConfigChangeId m) /\ addressesOk (pb.mb_Addresses m) /\
  map_Forall (fun k _ => is_u64 k) (pb.mb_Removed m) /\ addressesOk (pb.mb_NonVotings m) /\
  addressesOk (pb.mb_Witnesses m).

Section runtime.
Context `{GoRuntime}.

Lemma Membership_codes m :
  membershipOk m ->
  codes true Membership.fields (Membership.MarshalTo m) (Membership.Size m) Membership.zero m.
Proof.
  intros (? & ? & ? & ? & ?). eapply codes_eq; [unfold Membership.MarshalTo; fields_|..].
  - unfold Membership.Size. rewrite !len_1. lia.
  - by destruct m.
Qed.

(** A repeated field of embedded messages. *)
Lemma codes_rep {A X} checked fields tag ck (dec : X -> bytes -> result X) zero
    (get : A -> list X) set (c : X -> M wstate unit) (n : X -> Z) (xs : list X) m :
  tagged (fields := fields) tag 2
    (msgField ck dec (fun _ => zero) (fun e m => set (get m ++ [e]) m)) ->
  lens get set -> get m = [] ->
  (forall x, x ∈ xs -> 0 <= n x < 2 ^ 63 /\
     writes (c x) (n x) (fun bs => len bs < 2 ^ 63 -> dec zero bs = OK x)) ->
  codes checked fields (forM_ xs (fun x => putMsg tag (n x) (c x)))
    (foldr (fun x t => sizeMsg (len tag) (n x) + t) 0 xs) m (set xs m).
Proof.
  intros Ht Hl Hm Hx.
  eapply codes_eq; [apply codes_forM with (n := fun x => sizeMsg (len tag) (n x))
    (g := fun m x => set (get m ++ [x]) m)|done|].
  - intros x m1 Hin. destruct (Hx x Hin) as [Hn Hw].
    exact (codes_msg tag ck dec (fun _ => zero) (fun e m => set (get m ++ [e]) m)
             (c x) (n x) x m1 Ht Hn Hw).
  - rewrite (fold_append get set) by apply Hl. by rewrite Hm.
Qed.

Definition smTypeOk (t : pb.StateMachineType) : Prop :=
  0 <= StateMachineType_toZ t < 2 ^ 31 /\ StateMachineType_ofZ (StateMachineType_toZ t) = t.

Definition snapshotOk (m : pb.Snapshot) : Prop :=
  slen (pb.ss_Filepath m) < 2 ^ 62 /\ is_u64 (pb.ss_FileSize m) /\ is_u64 (pb.ss_Index m) /\
  is_u64 (pb.ss_Term m) /\ membershipOk (pb.ss_Membership m) /\
  Membership.Size (pb.ss_Membership m) < 2 ^ 62 /\
  Forall (fun f => fileOk f /\ SnapshotFile.Size f < 2 ^ 62) (pb.ss_Files m) /\
  len (pb.ss_Checksum m) < 2 ^ 62 /\ is_u64 (pb.ss_ShardID m) /\ smTypeOk (pb.ss_Type m) /\
  is_u64 (pb.ss_OnDiskIndex m).

Lemma Snapshot_codes m :
  snapshotOk m ->
  codes true Snapshot.fields (Snapshot.MarshalTo m) (Snapshot.Size m) Snapshot.zero m.
Proof.
  intros (? & ? & ? & ? & Hmem & ? & Hfiles & ? & ? & [Hty Hty'] & ?).
  pose proof (Membership_codes _ Hmem) as Hmc.
  eapply codes_eq; [unfold Snapshot.MarshalTo; fields_|..].
  - eapply codes_bind.
    { eapply codes_msg; [tag|split; [apply Hmc|lia]|]. apply codes_unmarshal, Hmc. }
    eapply codes_bind.
    { eapply (codes_rep true Snapshot.fields [0x3a] true SnapshotFile.Unmarshal SnapshotFile.zero
        pb.ss_Files Snapshot.set_Files); [tag|lens|done|].
      intros f Hin. rewrite Forall_forall in Hfiles. destruct (Hfiles f Hin) as [Hf Hfs].
      pose proof (SnapshotFile_codes f Hf) as Hfc.
      split; [split; [apply Hfc|lia]|]. apply codes_unmarshal, Hfc. }
    fields_.
  - unfold Snapshot.Size. rewrite !len_1. lia.
  - destruct m; cbn in *. by rewrite Hty'.
Qed.

End runtime.
