(* ===== verification/MessageCodecSpec.v ===== *)
(** * Messages and batches: encoding and decoding are inverse

    The decoders of [raft_optimized.go] count the elements of a repeated field
    when they meet the first one, by looking ahead in the data.  On the encoding
    of a message that look-ahead is harmless, and messages, batches of messages
    and batches of entries survive their encoding. *)
From S2P Require Import Prelude Raftpb LogDB Wire WireSpec EntryCodec EntryCodecSpec Codec CodecSpec.

(** ** Looking ahead *)

Lemma rawVarint_spec f wrap : forall g v shift x data i rest,
  (0 < f <= g)%nat -> 0 <= v < 128 ^ Z.of_nat f -> 0 <= shift ->
  0 <= x < 2 ^ shift -> fits_width wrap (v * 2 ^ shift) ->
  at_ data i (varintBytes f v ++ rest) ->
  rawVarintF g wrap shift x data i = Ret (x + v * 2 ^ shift) (i + len (varintBytes f v)).
Proof.
  induction f as [|f IH]; intros g v shift x data i rest Hf Hv Hs Hx Hw Hat; [lia|].
  destruct g as [|g]; [lia|].
  destruct (varintBytes_cases (S f) v ltac:(lia) Hv) as [[Hlt Hb]|(Hge & Hf1 & Hv' & Hb)];
    rewrite Hb in *; simpl rawVarintF; read_byte Hat Hby; apply at_tail in Hat; cbv zeta.
  - rewrite byteZ_toByte_small by lia. rewrite (proj2 (Z.ltb_lt v 128)) by done.
    rewrite land_127, Z.mod_small by lia. rewrite <- (byteZ_toByte_small v) at 1 by lia.
    rewrite group_last by (done || lia). unfold ret, len. simpl. f_equal. lia.
  - rewrite Nat.sub_succ, Nat.sub_0_r in *.
    destruct (group_more wrap v shift x) as (Hx' & Hr' & Hw'); [done..|]. cbv zeta in *.
    set (x' := Z.lor x _) in *. pose proof (Z.mod_pos_bound v 128 ltac:(lia)).
    rewrite byteZ_toByte_small by lia. rewrite (proj2 (Z.ltb_ge _ _)) by lia.
    rewrite (IH g (v / 128) (shift + 7) x' data (1 + i) rest) by (done || lia).
    rewrite Hx', len_cons, Z.pow_add_r by lia. pose proof (Z.div_mod v 128 ltac:(lia)).
    f_equal; nia.
Qed.

Lemma rawVarint_varint wrap v data i rest :
  0 <= v < W64 -> fits_width wrap v -> at_ data i (varint v ++ rest) ->
  rawVarintF (S (length data)) wrap 0 0 data i = Ret v (i + len (varint v)).
Proof.
  intros Hv Hw Hat. unfold varint in *.
  destruct (varintBytes_exact 10 v) as (Hn & Hlt & Heq); [lia|simpl; lia|].
  rewrite <- Heq in Hat |- *. pose proof (at_len _ _ _ Hat) as Hl. rewrite len_app in Hl.
  rewrite (rawVarint_spec (length (varintBytes 10 v)) wrap _ v 0 0 data i rest).
  - by rewrite Z.mul_1_r.
  - destruct Hat as (Hi & _ & _). pose proof (len_nonneg rest). rewrite Heq in Hl.
    unfold len in Hl. lia.
  - lia.
  - lia.
  - lia.
  - by rewrite Z.mul_1_r.
  - done.
Qed.

(** An element of a repeated field whose tag is [w]. *)
Definition piece (w : Z) (enc : bytes) : bytes := varint w ++ varint (len enc) ++ enc.

Lemma varint_nonempty w : 0 < len (varint w).
Proof. unfold varint, len. cbn [varintBytes]. destruct (128 <=? w); simpl; lia. Qed.

Lemma countF_step num fuel count data :
  countF num (S fuel) count data =
    (i ← get;
     if i <? len data then
       wire ← rawVarintF (S (length data)) u64 0 0 data;
       if i32 (Z.shiftr wire 3) =? num then
         msglen ← rawVarintF (S (length data)) i64 0 0 data;
         modify (fun i => i64 (i + msglen)) ;;
         countF num fuel (count + 1) data
       else ret count
     else ret count).
Proof. done. Qed.

Lemma countF_spec num w w' encs : forall fuel count data i rest,
  (length encs < fuel)%nat -> 0 <= w < W64 -> i32 (Z.shiftr w 3) = num ->
  0 <= w' < W64 -> i32 (Z.shiftr w' 3) <> num -> len data < 2 ^ 63 ->
  at_ data i (concat (map (piece w) encs) ++ varint w' ++ rest) ->
  exists i', countF num fuel count data i = Ret (count + len encs) i'.
Proof.
  induction encs as [|enc encs IH]; intros fuel count data i rest Hf Hw Hnum Hw' Hne Hd Hat;
    (destruct fuel as [|fuel]; [simpl in Hf; lia|]); rewrite countF_step;
    pose proof (at_len _ _ _ Hat) as Hl; unfold mbind, M_bind, get.
  - simpl in Hat, Hl. rewrite len_app in Hl. pose proof (varint_nonempty w').
    pose proof (len_nonneg rest). rewrite (proj2 (Z.ltb_lt _ _)) by lia.
    erewrite (rawVarint_varint u64 w'); [|done|by apply fits_u64|exact Hat].
    rewrite (proj2 (Z.eqb_neq _ _)) by done. eexists. unfold ret. f_equal. unfold len. simpl. lia.
  - simpl in Hat. unfold piece in Hat at 1. rewrite <- !app_assoc in Hat.
    rewrite len_app in Hl. simpl in Hl. unfold piece in Hl at 1. rewrite !len_app in Hl.
    pose proof (varint_nonempty w). pose proof (varint_nonempty w'). pose proof (len_nonneg rest).
    pose proof (len_nonneg (concat (map (piece w) encs))). pose proof (len_nonneg enc).
    pose proof (varint_nonempty (len enc)). assert (0 <= i) as Hi by apply Hat.
    rewrite (proj2 (Z.ltb_lt _ _)) by lia.
    erewrite (rawVarint_varint u64 w); [|done|by apply fits_u64|exact Hat].
    rewrite (proj2 (Z.eqb_eq _ _)) by done. apply at_app in Hat.
    erewrite (rawVarint_varint i64 (len enc)); [|lia|apply fits_i64; lia|exact Hat].
    apply at_app in Hat. apply at_app in Hat. unfold modify.
    set (j := i + len (varint w) + len (varint (len enc))) in *.
    rewrite (fits_i64 (j + len enc)) by lia.
    destruct (IH fuel (count + 1) data (j + len enc) rest) as (i' & ->);
      [simpl in Hf; lia|done..|]. exists i'. f_equal. rewrite len_cons. lia.
Qed.

Lemma length_pieces w encs : (length encs <= length (concat (map (piece w) encs)))%nat.
Proof.
  induction encs as [|enc encs IH]; [done|]. simpl. rewrite length_app. unfold piece at 1.
  rewrite !length_app. pose proof (varint_nonempty w) as Hv. unfold len in Hv. lia.
Qed.

Lemma fieldCount_spec num w w' encs rest :
  0 <= w < W64 -> i32 (Z.shiftr w 3) = num -> 0 <= w' < W64 -> i32 (Z.shiftr w' 3) <> num ->
  let data := concat (map (piece w) encs) ++ varint w' ++ rest in
  len data < 2 ^ 63 -> fieldCount num data = OK (len encs).
Proof.
  intros Hw Hn Hw' Hne data Hd. unfold fieldCount, runReader.
  destruct (countF_spec num w w' encs (S (length data)) 0 data 0 rest) as (i' & ->); try done.
  - subst data. rewrite length_app. pose proof (length_pieces w encs). lia.
  - split_and!; [done|apply len_nonneg|done].
Qed.

(** ** Counted repeated fields *)

Section counted.
Context {A X : Type} {checked : bool} {fields : Z -> option (Z -> A -> reader A)}.
Context (num w : Z) (dec : bytes -> result X) (get : A -> list X) (set : list X -> A -> A).
Hypothesis Hlens : lens get set.
Hypothesis Hw : 0 <= w < W64.
Hypothesis Hnum : i32 (Z.shiftr w 3) = num.
Hypothesis Hpos : 0 < num.
Hypothesis Hwt : Z.land w 7 = 2.
Hypothesis Hfield : fields num = Some (countedField num dec get set).

Lemma reads_counted w' b2 encs xs m m' :
  0 <= w' < W64 -> i32 (Z.shiftr w' 3) <> num ->
  Forall2 (fun enc x => dec enc = OK x) encs xs ->
  reads checked fields (varint w' ++ b2) (set (get m ++ xs) m) m' ->
  reads checked fields (concat (map (piece w) encs) ++ varint w' ++ b2) m m'.
Proof using All.
  intros Hw' Hne HF. revert m. induction HF as [|enc x encs xs Hdec HF IH]; intros m Hr.
  { by rewrite app_nil_r, (lens_id _ _ Hlens) in Hr. }
  cbn [map concat]. unfold piece at 1. rewrite <- !app_assoc.
  rewrite (app_assoc (varint (len enc))).
  apply reads_then with (h := countedField num dec get set) (m1 := set (get m ++ [x]) m).
  - done.
  - by rewrite Hnum.
  - by rewrite Hwt.
  - by rewrite Hnum.
  - intros data i rest Hd Hat. rewrite Hwt. unfold countedField. simpl (negb _). cbv iota.
    unfold mbind, M_bind. rewrite (takes_block false enc data i _ Hd Hat).
    apply at_app in Hat. pose proof (at_len _ _ _ Hat) as Hl.
    destruct Hat as (Hi & Hle & Hdrop).
    assert (readr (fun post => fieldCount num (dropZ post data))
      (i + len (varint (len enc) ++ enc)) = Ret (len encs) (i + len (varint (len enc) ++ enc))) as Hc.
    { unfold readr. rewrite Hdrop. rewrite <- app_assoc. rewrite <- (app_assoc (varint w')).
      rewrite (fieldCount_spec num w w' encs); [done|done|done|done|done|].
      rewrite <- !app_assoc in Hl. rewrite Hl. lia. }
    unfold when. destruct (len (get m) =? 0); unfold mbind, M_bind; [rewrite Hc|];
      unfold skip, ret, readr; by rewrite Hdec.
  - apply IH. by rewrite (lens_get _ _ Hlens), (lens_set _ _ Hlens), <- app_assoc.
Qed.

End counted.

Section rep.
Context {X : Type} (tag : list Z) (size : X -> result Z) (put : X -> M wstate unit)
  (dec : bytes -> result X).

(** An element whose size is defined and which its decoder reads back. *)
Definition elem (x : X) (n : Z) : Prop :=
  size x = OK n /\ 0 <= n < 2 ^ 62 /\ writes (put x) n (fun bs => dec bs = OK x).

Lemma writes_putRep w xs :
  map toByte tag = varint w -> len tag = 1 -> (forall x, x ∈ xs -> exists n, elem x n) ->
  exists N, sizeRep size xs = OK N /\ 0 <= N /\
    writes (putRep tag size put xs) N (fun bs => exists encs,
      bs = concat (map (piece w) encs) /\ Forall2 (fun enc x => dec enc = OK x) encs xs).
Proof.
  intros Htag Ht1. induction xs as [|x xs IH]; intros Hx.
  { exists 0. split_and!; [done|done|]. apply writes_skip. exists []. by split. }
  destruct (Hx x) as (n & Hs & Hn & Hw); [set_solver|].
  destruct IH as (N & HsN & HN & HwN); [set_solver|].
  assert (0 <= n < W64) as Hn64 by lia. pose proof (sov_pos n Hn64).
  exists (sizeMsg 1 n + N). cbn [sizeRep]. rewrite Hs, HsN. cbn [mbind result_bind]. unfold sizeMsg.
  split_and!; [done|lia|].
  assert (writes (putTag tag ;; l ← readr (fun _ => size x); encodeVarintRaft l ;; put x)
    (1 + (sovRaft n + n)) (fun bs => exists enc, bs = piece w enc /\ dec enc = OK x)) as H1.
  { rewrite <- Ht1. intros s Hrm.
    assert (writes (encodeVarintRaft n ;; put x) (sovRaft n + n)
      (fun bs => exists enc, bs = varint (len enc) ++ enc /\ dec enc = OK x)) as H2.
    { intros s1 Hs1. destruct (writes_bind _ _ _ _ _ _ (proj1 Hn) (writes_varint n Hn64) Hw s1 Hs1)
        as (bs & k & E & L & b1 & b2 & -> & <- & Hd).
      exists (varint n ++ b2), k. split_and!; [done|done|]. exists b2. split; [|done].
      rewrite len_app in L. rewrite sovRaft_spec in L by lia. by assert (len b2 = n) as -> by lia. }
    assert (0 <= sovRaft n + n) as Hp by lia.
    destruct (writes_bind _ _ _ _ _ _ Hp (writes_putTag tag) H2 s Hrm)
      as (bs & k & E & L & b1 & b2 & -> & <- & enc & -> & Hd).
    exists (map toByte tag ++ varint (len enc) ++ enc), k. split_and!; [|done|].
    - unfold mbind, M_bind, readr in E |- *. destruct (putTag tag s); [|done..]. by rewrite Hs.
    - exists enc. split; [|done]. unfold piece. by rewrite Htag. }
  replace (1 + n + sovRaft n) with (1 + (sovRaft n + n)) by lia.
  eapply writes_weaken; [apply (writes_bind _ _ _ _ _ _ HN H1 HwN)|].
  intros bs (b1 & b2 & -> & (enc & -> & Hd) & encs & -> & HF).
  exists (enc :: encs). split; [done|]. by constructor.
Qed.

End rep.

(** Fields that start with a given tag. *)
Lemma codes_lead {A} checked fields tag wt h c n c' n' (m m1 m2 : A) :
  tagged (fields := fields) tag wt h -> 0 <= n -> writes c n (fun bs => takes (h wt) bs m m1) ->
  codes checked fields c' n' m1 m2 ->
  0 <= len tag + n + n' /\
  writes ((putTag tag ;; c) ;; c') (len tag + n + n')
    (fun bs => exists b, bs = varint (tagVal tag) ++ b /\ reads checked fields bs m m2).
Proof.
  intros (Htag & Hw & Hf & Hwt & H4 & H0) Hn Hc [Hn' Hc'].
  split; [pose proof (len_nonneg tag); lia|].
  eapply writes_weaken; [apply writes_bind;
    [done|apply writes_bind; [done|apply writes_putTag|exact Hc]|exact Hc']|].
  intros bs (b1 & b2 & -> & (b3 & b4 & -> & <- & Ht) & Hr). rewrite Htag.
  exists (b4 ++ b2). split; [by rewrite app_assoc|]. eapply reads_app; [|exact Hr].
  eapply reads_field; [done|done|by rewrite Hwt|done|]. by rewrite Hwt.
Qed.

(** A counted field and the field that follows it. *)
Lemma codes_counted {A X} fields num tag (size : X -> result Z) put dec (get : A -> list X) set
    xs N c n w' m m' :
  tagged (fields := fields) tag 2 (countedField num dec get set) ->
  i32 (Z.shiftr (tagVal tag) 3) = num -> lens get set -> get m = [] ->
  0 <= w' < W64 -> i32 (Z.shiftr w' 3) <> num ->
  writes (putRep tag size put xs) N (fun bs => exists encs,
    bs = concat (map (piece (tagVal tag)) encs) /\ Forall2 (fun enc x => dec enc = OK x) encs xs) ->
  0 <= N -> 0 <= n /\ writes c n
    (fun bs => exists b, bs = varint w' ++ b /\ reads false fields bs (set xs m) m') ->
  codes false fields (putRep tag size put xs ;; c) (N + n) m m'.
Proof.
  intros (Htag & Hw & Hf & Hwt & _ & H0) Hnum Hl Hm Hw' Hne HwN HN [Hn Hc]. split; [lia|].
  eapply writes_weaken; [apply (writes_bind _ _ _ _ _ _ Hn HwN Hc)|].
  intros bs (b1 & b2 & -> & (encs & -> & HF) & b & -> & Hr). rewrite Hnum in Hf, H0.
  eapply (reads_counted num (tagVal tag) dec get set); try done. by rewrite Hm.
Qed.

(** ** Messages *)

Section messages.
Context `{GoRuntime}.

Definition messageTypeOk (t : pb.MessageType) : Prop :=
  0 <= MessageType_toZ t < 2 ^ 31 /\ MessageType_ofZ (MessageType_toZ t) = t.

Definition messageOk (m : pb.Message) : Prop :=
  messageTypeOk (pb.m_Type m) /\ is_u64 (pb.m_To m) /\ is_u64 (pb.m_From m) /\
  is_u64 (pb.m_ShardID m) /\ is_u64 (pb.m_Term m) /\ is_u64 (pb.m_LogTerm m) /\
  is_u64 (pb.m_LogIndex m) /\ is_u64 (pb.m_Commit m) /\ is_u64 (pb.m_Hint m) /\
  Forall entryOk (pb.m_Entries m) /\ snapshotOk (pb.m_Snapshot m) /\
  Snapshot.Size (pb.m_Snapshot m) < 2 ^ 62 /\ is_u64 (pb.m_HintHigh m).

Lemma Entry_elem e :
  entryOk e -> exists n, elem Entry.Size Entry.MarshalTo (Entry.Unmarshal pb.zeroEntry) e n.
Proof.
  intros He. destruct (Entry_codes e He) as (n & Hs & Hn & _ & Hw). exists n.
  unfold Entry.ColferSizeMax in Hn. split_and!; [done|lia|lia|done].
Qed.

Lemma Message_codes m :
  messageOk m -> exists n, Message.Size m = OK n /\
    codes false Message.fields (Message.MarshalTo m) n Message.zero m.
Proof.
  intros ([Hty Hty'] & ? & ? & ? & ? & ? & ? & ? & ? & Hents & Hsnap & ? & ?).
  pose proof (Snapshot_codes _ Hsnap) as Hsc. rewrite Forall_forall in Hents.
  destruct (writes_putRep [0x5a] Entry.Size Entry.MarshalTo (Entry.Unmarshal pb.zeroEntry) 0x5a
    (pb.m_Entries m)) as (N & HN & HN0 & Hw); [done|done|by intros e He; apply Entry_elem, Hents|].
  eexists. unfold Message.Size. rewrite HN. split; [reflexivity|].
  assert (0 <= Snapshot.Size (pb.m_Snapshot m) < 2 ^ 63) as Hsz by (split; [apply Hsc|lia]).
  assert (0 <= Snapshot.Size (pb.m_Snapshot m) < W64) as Hsz' by lia.
  pose proof (sov_pos _ Hsz').
  eapply codes_eq; [unfold Message.MarshalTo; fields_| |].
  - eapply (codes_counted Message.fields 11 [0x5a]) with (w' := 0x62); [tag|done|lens|done|done|done
      |exact Hw|done|].
    eapply (codes_lead false Message.fields [0x62] 2
      (msgField false Snapshot.Unmarshal pb.m_Snapshot Message.set_Snapshot)); [tag| | |field].
    2: { apply (payload_msg false Snapshot.Unmarshal pb.m_Snapshot Message.set_Snapshot); [done|].
         apply codes_unmarshal, Hsc. }
    lia.
  - rewrite !len_1. unfold sizeMsg. lia.
  - destruct m; cbn in *. by rewrite Hty'.
Qed.

(** ** Batches *)

Definition batchOk (b : MessageBatch.MessageBatch) : Prop :=
  Forall (fun m => messageOk m /\ exists n, Message.Size m = OK n /\ n < 2 ^ 62)
    (MessageBatch.mb_Requests b) /\
  is_u64 (MessageBatch.mb_DeploymentId b) /\ slen (MessageBatch.mb_SourceAddress b) < 2 ^ 62 /\
  0 <= MessageBatch.mb_BinVer b < 2 ^ 32.

Lemma Message_elem m :
  messageOk m -> (exists n, Message.Size m = OK n /\ n < 2 ^ 62) ->
  exists n, elem Message.Size Message.MarshalTo (Message.Unmarshal Message.zero) m n.
Proof.
  intros Hm (n' & Hn' & Hlt). destruct (Message_codes m Hm) as (n & Hn & Hc). exists n.
  assert (n' = n) as -> by congruence. split_and!; [done|apply Hc|done|].
  intros s Hs. destruct (codes_unmarshal _ _ _ _ Hc s Hs) as (bs & k & E & L & P).
  exists bs, k. split_and!; [done..|]. apply P. lia.
Qed.

Lemma MessageBatch_codes b :
  batchOk b -> exists n, MessageBatch.Size b = OK n /\
    codes false MessageBatch.fields (MessageBatch.MarshalTo b) n MessageBatch.zero b.
Proof.
  intros (Hreq & ? & ? & ?). rewrite Forall_forall in Hreq.
  destruct (writes_putRep [0xa] Message.Size Message.MarshalTo (Message.Unmarshal Message.zero) 0xa
    (MessageBatch.mb_Requests b)) as (N & HN & HN0 & Hw); [done|done| |].
  { intros m Hm. destruct (Hreq m Hm). by apply Message_elem. }
  eexists. unfold MessageBatch.Size. rewrite HN. split; [reflexivity|].
  eapply codes_eq; [unfold MessageBatch.MarshalTo| |].
  - eapply (codes_counted MessageBatch.fields 1 [0xa]) with (w' := 0x10);
      [tag|done|lens|done|done|done|exact Hw|done|].
    eapply (codes_lead false MessageBatch.fields [0x10] 0
      (varintField u64 MessageBatch.set_DeploymentId)); [tag| | |fields_].
    2: by apply (payload_varint u64 MessageBatch.set_DeploymentId); [|apply fits_u64].
    by apply sovRaft_nonneg.
  - rewrite !len_1. lia.
  - by destruct b.
Qed.

Definition entryBatchOk (b : EntryBatch.EntryBatch) : Prop :=
  Forall entryOk (EntryBatch.eb_Entries b).

Lemma EntryBatch_codes b :
  entryBatchOk b -> exists n, EntryBatch.Size b = OK n /\
    codes true EntryBatch.fields (EntryBatch.MarshalTo b) n EntryBatch.zero b.
Proof.
  intros Hb. unfold EntryBatch.Size, EntryBatch.MarshalTo, putRep.
  unfold entryBatchOk in Hb. rewrite Forall_forall in Hb.
  assert (forall es, (forall e, e ∈ es -> entryOk e) -> forall m, exists n,
    sizeRep Entry.Size es = OK n /\
    codes true EntryBatch.fields (putRep [0xa] Entry.Size Entry.MarshalTo es) n m
      (EntryBatch.set_Entries (EntryBatch.eb_Entries m ++ es) m)) as Hes.
  { induction es as [|e es IH]; intros Hes m.
    { exists 0. split; [done|]. rewrite app_nil_r. destruct m. apply codes_skip. }
    destruct (Entry_codes e) as (n & Hs & Hn & _ & Hw); [set_solver|].
    destruct (IH ltac:(set_solver) (EntryBatch.set_Entries (EntryBatch.eb_Entries m ++ [e]) m))
      as (N & HN & Hc).
    unfold Entry.ColferSizeMax in Hn.
    exists (sizeMsg 1 n + N). cbn [sizeRep]. rewrite Hs, HN. split; [done|].
    eapply codes_eq; [eapply codes_bind with (n1 := sizeMsg 1 n); [|exact Hc]|done|].
    - assert (codes true EntryBatch.fields (putMsg [0xa] n (Entry.MarshalTo e)) (sizeMsg 1 n) m
        (EntryBatch.set_Entries (EntryBatch.eb_Entries m ++ [e]) m)) as [Hn0 H1].
      { apply (codes_msg [0xa] true Entry.Unmarshal (fun _ => pb.zeroEntry)
          (fun e m => EntryBatch.set_Entries (EntryBatch.eb_Entries m ++ [e]) m)); [tag|lia|].
        eapply writes_weaken; [exact Hw|]. by intros bs Hbs _. }
      split; [done|]. intros s Hrm. destruct (H1 s Hrm) as (bs & k & E & L & P). exists bs, k.
      split_and!; [|done..]. unfold putMsg, mbind, M_bind, readr in E |- *.
      destruct (putTag [0xa] s); [|done..]. by rewrite Hs.
    - simpl. by rewrite <- app_assoc. }
  destruct (Hes (EntryBatch.eb_Entries b) Hb EntryBatch.zero) as (n & Hs & Hc).
  exists n. split; [done|]. by destruct b.
Qed.

(** ** Snapshot chunks and the records kept on disk *)

Definition chunkOk (c : Chunk.Chunk) : Prop :=
  is_u64 (Chunk.ck_ShardID c) /\ is_u64 (Chunk.ck_ReplicaID c) /\ is_u64 (Chunk.ck_From c) /\
  is_u64 (Chunk.ck_ChunkId c) /\ is_u64 (Chunk.ck_ChunkSize c) /\ is_u64 (Chunk.ck_ChunkCount c) /\
  len (Chunk.ck_Data c) < 2 ^ 62 /\ is_u64 (Chunk.ck_Index c) /\ is_u64 (Chunk.ck_Term c) /\
  membershipOk (Chunk.ck_Membership c) /\ Membership.Size (Chunk.ck_Membership c) < 2 ^ 62 /\
  slen (Chunk.ck_Filepath c) < 2 ^ 62 /\ is_u64 (Chunk.ck_FileSize c) /\
  is_u64 (Chunk.ck_DeploymentId c) /\ is_u64 (Chunk.ck_FileChunkId c) /\
  is_u64 (Chunk.ck_FileChunkCount c) /\ fileOk (Chunk.ck_FileInfo c) /\
  SnapshotFile.Size (Chunk.ck_FileInfo c) < 2 ^ 62 /\ 0 <= Chunk.ck_BinVer c < 2 ^ 32 /\
  is_u64 (Chunk.ck_OnDiskIndex c).

Lemma Chunk_codes c :
  chunkOk c -> codes true Chunk.fields (Chunk.MarshalTo c) (Chunk.Size c) Chunk.zero c.
Proof.
  intros (? & ? & ? & ? & ? & ? & ? & ? & ? & Hmem & ? & ? & ? & ? & ? & ? & Hfile & ? & ? & ?).
  pose proof (Membership_codes _ Hmem) as Hmc. pose proof (SnapshotFile_codes _ Hfile) as Hfc.
  eapply codes_eq; [unfold Chunk.MarshalTo; fields_| |].
  - eapply codes_bind.
    { eapply (codes_msg [0x52] true Membership.Unmarshal Chunk.ck_Membership Chunk.set_Membership);
        [tag|split; [apply Hmc|lia]|]. apply codes_unmarshal, Hmc. }
    fields_. eapply codes_bind; [|fields_].
    eapply (codes_msg [0x92; 0x1] true SnapshotFile.Unmarshal Chunk.ck_FileInfo Chunk.set_FileInfo);
      [tag|split; [apply Hfc|lia]|]. apply codes_unmarshal, Hfc.
  - unfold Chunk.Size. rewrite !len_1, !len_2. lia.
  - by destruct c.
Qed.

Definition bootstrapOk (b : Bootstrap.Bootstrap) : Prop :=
  addressesOk (Bootstrap.bs_Addresses b) /\ smTypeOk (Bootstrap.bs_Type b).

Lemma Bootstrap_codes b :
  bootstrapOk b ->
  codes true Bootstrap.fields (Bootstrap.MarshalTo b) (Bootstrap.Size b) Bootstrap.zero b.
Proof.
  intros (? & Hty & Hty'). eapply codes_eq; [unfold Bootstrap.MarshalTo; fields_|..].
  - unfold Bootstrap.Size. rewrite !len_1. lia.
  - destruct b; cbn in *. by rewrite Hty'.
Qed.

Definition dataStatusOk (m : RaftDataStatus.RaftDataStatus) : Prop :=
  slen (RaftDataStatus.rd_Address m) < 2 ^ 62 /\ 0 <= RaftDataStatus.rd_BinVer m < 2 ^ 32 /\
  is_u64 (RaftDataStatus.rd_HardHash m) /\ slen (RaftDataStatus.rd_LogdbType m) < 2 ^ 62 /\
  slen (RaftDataStatus.rd_Hostname m) < 2 ^ 62 /\ is_u64 (RaftDataStatus.rd_DeploymentId m) /\
  is_u64 (RaftDataStatus.rd_StepWorkerCount m) /\ is_u64 (RaftDataStatus.rd_LogdbShardCount m) /\
  is_u64 (RaftDataStatus.rd_MaxSessionCount m) /\ is_u64 (RaftDataStatus.rd_EntryBatchSize m).

Lemma RaftDataStatus_codes m :
  dataStatusOk m ->
  codes true RaftDataStatus.fields (RaftDataStatus.MarshalTo m) (RaftDataStatus.Size m)
    RaftDataStatus.zero m.
Proof.
  intros (? & ? & ? & ? & ? & ? & ? & ? & ? & ?).
  eapply codes_eq; [unfold RaftDataStatus.MarshalTo; fields_|..].
  - unfold RaftDataStatus.Size. rewrite !len_1. lia.
  - by destruct m.
Qed.

Definition headerOk (m : SnapshotHeader.SnapshotHeader) : Prop :=
  is_u64 (SnapshotHeader.sh_SessionSize m) /\ is_u64 (SnapshotHeader.sh_DataStoreSize m) /\
  is_u64 (SnapshotHeader.sh_UnreliableTime m) /\ slen (SnapshotHeader.sh_GitVersion m) < 2 ^ 62 /\
  len (SnapshotHeader.sh_HeaderChecksum m) < 2 ^ 62 /\
  len (SnapshotHeader.sh_PayloadChecksum m) < 2 ^ 62 /\
  0 <= SnapshotHeader.sh_ChecksumType m < 2 ^ 31 /\ is_u64 (SnapshotHeader.sh_Version m) /\
  0 <= SnapshotHeader.sh_CompressionType m < 2 ^ 31.

Lemma SnapshotHeader_codes m :
  headerOk m ->
  codes true SnapshotHeader.fields (SnapshotHeader.MarshalTo m) (SnapshotHeader.Size m)
    SnapshotHeader.zero m.
Proof.
  intros (? & ? & ? & ? & ? & ? & ? & ? & ?).
  eapply codes_eq; [unfold SnapshotHeader.MarshalTo; fields_|..].
  - unfold SnapshotHeader.Size. rewrite !len_1. lia.
  - by destruct m.
Qed.

End messages.

(** ** Sizes *)

Lemma Entry_size_bound e n :
  entryOk e -> Entry.Size e = OK n -> sizeMsg 1 n <= 16 + pb.SizeUpperLimit e.
Proof.
  intros He Hs. destruct (Entry_codes e He) as (n' & Hs' & Hn & Hb & _).
  assert (n' = n) as -> by congruence. unfold Entry.ColferSizeMax in Hn.
  pose proof (sov_pos n ltac:(lia)). unfold sizeMsg, pb.SizeUpperLimit, pb.EntryNonCmdFieldsSize.
  lia.
Qed.

Section sizes.
Context `{GoRuntime}.

Lemma sizeRep_bound {X} (size : X -> result Z) (lim : X -> Z) xs N :
  (forall x n, x ∈ xs -> size x = OK n -> sizeMsg 1 n <= lim x) ->
  sizeRep size xs = OK N -> N <= foldr (fun x n => lim x + n) 0 xs.
Proof.
  revert N. induction xs as [|x xs IH]; intros N Hb Hs; cbn [sizeRep] in Hs; simpl.
  { injection Hs as <-. lia. }
  destruct (size x) as [l| |] eqn:Hx; cbn [mbind result_bind] in Hs; try done.
  destruct (sizeRep size xs) as [N'| |] eqn:Hr; cbn [mbind result_bind] in Hs; try done.
  injection Hs as <-. pose proof (Hb x l ltac:(set_solver) Hx).
  specialize (IH N' ltac:(set_solver) eq_refl). lia.
Qed.

Lemma OK_inj {A} (a b : A) : OK a = OK b -> b = a.
Proof. congruence. Qed.

Lemma sizeMsg_eq t l : sizeMsg t l = t + l + sovRaft l.
Proof. done. Qed.

(** The ten varint fields of a message take at most eleven bytes each. *)
Lemma message_size_arith t a1 a2 a3 a4 a5 a6 a7 a8 a9 ls S N L n ln :
  1 <= t <= 10 -> 1 <= a1 <= 10 -> 1 <= a2 <= 10 -> 1 <= a3 <= 10 -> 1 <= a4 <= 10 ->
  1 <= a5 <= 10 -> 1 <= a6 <= 10 -> 1 <= a7 <= 10 -> 1 <= a8 <= 10 -> 1 <= a9 <= 10 ->
  1 <= ls <= 10 -> 1 <= ln <= 10 -> N <= L ->
  1 + t + (1 + a1) + (1 + a2) + (1 + a3) + (1 + a4) + (1 + a5) + (1 + a6) + (1 + a7) + 2
    + (1 + a8) + N + (1 + S + ls) + (1 + a9) = n ->
  1 + n + ln <= 16 + (16 * 12 + S + L).
Proof. lia. Qed.

Lemma Message_size_bound m n :
  messageOk m -> Message.Size m = OK n -> n < 2 ^ 62 ->
  sizeMsg 1 n <= 16 + Message.SizeUpperLimit m.
Proof.
  intros Hm Hs Hn. destruct (Message_codes m Hm) as (n' & Hs' & [Hn0 _]).
  assert (n' = n) as -> by congruence. clear Hs'.
  destruct Hm as ([Hty _] & H1 & H2 & H3 & H4 & H5 & H6 & H7 & H8 & Hents & Hsnap & Hss & H9).
  pose proof (Snapshot_codes _ Hsnap) as [Hs0 _]. rewrite Forall_forall in Hents.
  assert (exists N, sizeRep Entry.Size (pb.m_Entries m) = OK N) as [N HN].
  { unfold Message.Size in Hs. destruct (sizeRep _ _) as [N| |]; [by exists N|done..]. }
  unfold Message.Size in Hs. rewrite HN in Hs. apply OK_inj in Hs.
  pose proof (sizeRep_bound Entry.Size (fun e => 16 + pb.SizeUpperLimit e) (pb.m_Entries m) N
    ltac:(intros e k He Hk; by apply Entry_size_bound; [apply Hents|]) HN) as HNb.
  assert (0 <= Snapshot.Size (pb.m_Snapshot m) < W64) as Hs64 by lia.
  assert (is_u64 (u64 (MessageType_toZ (pb.m_Type m)))) as Hty' by lia64.
  assert (is_u64 n) as Hn64 by (unfold is_u64; lia).
  rewrite sizeMsg_eq in Hs |- *. symmetry in Hs.
  exact (message_size_arith _ _ _ _ _ _ _ _ _ _ _ _ _ _ _ _ (sov_pos _ Hty') (sov_pos _ H1)
    (sov_pos _ H2) (sov_pos _ H3) (sov_pos _ H4) (sov_pos _ H5) (sov_pos _ H6) (sov_pos _ H7)
    (sov_pos _ H8) (sov_pos _ H9) (sov_pos _ Hs64) (sov_pos _ Hn64) HNb Hs).
Qed.

Lemma MessageBatch_size_bound b n :
  batchOk b -> MessageBatch.Size b = OK n -> n <= MessageBatch.SizeUpperLimit b.
Proof.
  intros (Hreq & Hd & Hsrc & Hbv) Hs. rewrite Forall_forall in Hreq.
  unfold MessageBatch.Size in Hs.
  destruct (sizeRep Message.Size (MessageBatch.mb_Requests b)) as [N| |] eqn:HN;
    cbn [mbind result_bind] in Hs; try done.
  assert (N <= foldr (fun m n => 16 + Message.SizeUpperLimit m + n) 0 (MessageBatch.mb_Requests b))
    as HNb.
  { apply (sizeRep_bound Message.Size (fun m => 16 + Message.SizeUpperLimit m)); [|done].
    intros m k Hm Hk. destruct (Hreq m Hm) as (Hok & k' & Hk' & Hlt).
    assert (k' = k) as -> by congruence. by apply Message_size_bound. }
  pose proof (sov_pos _ Hd). pose proof (sov_pos (MessageBatch.mb_BinVer b) ltac:(lia)).
  pose proof (len_nonneg (String.list_byte_of_string (MessageBatch.mb_SourceAddress b))) as Hl0.
  fold (slen (MessageBatch.mb_SourceAddress b)) in Hl0.
  pose proof (sov_pos (slen (MessageBatch.mb_SourceAddress b)) ltac:(lia)).
  unfold MessageBatch.SizeUpperLimit, sizeString in *.
  assert (forall a b : Z, OK a = OK b -> a = b) as Hinj by congruence. apply Hinj in Hs. lia.
Qed.

(** C35: a batch of messages survives the transport: encoded, as the sender does,
    in a buffer of [SizeUpperLimit] bytes, it never overruns the buffer, and
    decoding the bytes written gives the batch back with every message, entry,
    snapshot and membership map in it. *)
Theorem MessageBatch_roundtrip b :
  batchOk b -> MessageBatch.SizeUpperLimit b < 2 ^ 63 ->
  exists bs, runMarshal (MessageBatch.SizeUpperLimit b) (MessageBatch.MarshalTo b) = OK bs /\
    MessageBatch.Unmarshal MessageBatch.zero bs = OK b.
Proof.
  intros Hb Hlim. destruct (MessageBatch_codes b Hb) as (n & Hn & Hc).
  pose proof (MessageBatch_size_bound b n Hb Hn) as Hle.
  destruct (codes_unmarshal _ _ _ _ Hc (mkW [] (MessageBatch.SizeUpperLimit b) 0) Hle)
    as (bs & k & E & L & P).
  exists bs. unfold runMarshal. rewrite E. split; [done|]. apply P. lia.
Qed.

(** A snapshot chunk survives its encoding: [Marshal] fills a buffer of exactly
    [Size] bytes, and decoding them gives the chunk back with its membership and
    file information. *)
Theorem Chunk_roundtrip c :
  chunkOk c -> Chunk.Size c < 2 ^ 63 ->
  exists bs, Chunk.Marshal c = OK bs /\ Chunk.Unmarshal Chunk.zero bs = OK c.
Proof. intros Hc Hs. by apply codes_marshal; [apply Chunk_codes|]. Qed.

End sizes.

(** ** Malformed frames

    The look-ahead reads without bound checks.  [truncatedFrame] ends within a
    tag; the second element of [loopingFrame] has length -11, which takes the
    look-ahead back to the start of that element. *)
Definition truncatedFrame : bytes := map toByte [0xa; 0x0; 0x80].
Definition loopingTail : bytes :=
  map toByte [0xa; 0xf5; 0xff; 0xff; 0xff; 0xff; 0xff; 0xff; 0xff; 0xff; 0x1].
Definition loopingFrame : bytes := map toByte [0xa; 0x0] ++ loopingTail.

(** C36: decoding a malformed batch can crash or hang the receiver instead of
    returning an error: on a frame truncated within a tag the look-ahead of
    [messageCount] indexes past the data, and on a frame with a negative length it
    goes back to an index it has already visited and never ends, whatever the
    fuel. *)
Theorem messageCount_unchecked `{GoRuntime} :
  MessageBatch.Unmarshal MessageBatch.zero truncatedFrame = PANIC IndexOutOfRange /\
  MessageBatch.Unmarshal MessageBatch.zero loopingFrame = PANIC OutOfFuel /\
  forall fuel count, countF 1 fuel count loopingTail 0 = Panic OutOfFuel.
Proof.
  split_and!; [by vm_compute..|]. induction fuel as [|fuel IH]; intros count; [done|].
  rewrite <- (IH (count + 1)). reflexivity.
Qed.

(** ** Witnesses *)

Definition sampleAddresses : list (Z * string) := [(1, "a1"%string); (2, "a2"%string)].
Definition sampleMembership : pb.Membership :=
  pb.mkMembership 7 (list_to_map sampleAddresses) {[9 := true]} ∅ ∅.
Definition sampleFile : pb.SnapshotFile := pb.mkSnapshotFile "data/f" 1000 1 (map toByte [4; 200]).
Definition sampleSnapshot : pb.Snapshot :=
  pb.mkSnapshot "snap" 4096 300 2 sampleMembership [sampleFile] (map toByte [1; 2; 3; 4]) false 5
    pb.OnDiskStateMachine false 300 false.
Definition sampleMessage : pb.Message :=
  pb.mkMessage pb.Replicate 2 1 5 3 3 299 300 false 0 [sampleEntry; pb.zeroEntry]
    sampleSnapshot 0.
Definition sampleBatch : MessageBatch.MessageBatch :=
  MessageBatch.mkMessageBatch [sampleMessage; Message.zero] 1 "host:1" 210.

Lemma addressesOk_list (l : list (Z * string)) :
  Forall (fun kv => is_u64 kv.1 /\ slen kv.2 < 2 ^ 62) l -> addressesOk (list_to_map l).
Proof.
  intros Hl k v Hkv. apply elem_of_list_to_map_2 in Hkv.
  rewrite Forall_forall in Hl. exact (Hl _ Hkv).
Qed.

(** Closed bounds and equations, leaving the other conjuncts. *)
Ltac closed :=
  repeat lazymatch goal with
         | |- _ /\ _ => split
         | |- is_u64 _ => split
         | |- smTypeOk _ => split
         | |- messageTypeOk _ => split
         | |- fileOk _ => hnf
         | |- entryOk _ => hnf
         | |- typeOk _ => hnf
         end;
  try lazymatch goal with
      | |- _ <= _ => by vm_compute
      | |- _ < _ => by vm_compute
      | |- _ = _ => by vm_compute
      end.

Lemma sampleMembership_ok : membershipOk sampleMembership.
Proof.
  unfold membershipOk, sampleMembership, addressesOk.
  cbn [pb.mb_ConfigChangeId pb.mb_Addresses pb.mb_Removed pb.mb_NonVotings pb.mb_Witnesses].
  split; [closed|]. split_and!.
  - apply (addressesOk_list sampleAddresses). repeat constructor; closed.
  - apply map_Forall_singleton. closed.
  - apply map_Forall_empty.
  - apply map_Forall_empty.
Qed.

Lemma zeroMembership_ok : membershipOk Membership.zero.
Proof.
  unfold membershipOk, Membership.zero, pb.zeroMembership, addressesOk.
  cbn [pb.mb_ConfigChangeId pb.mb_Addresses pb.mb_Removed pb.mb_NonVotings pb.mb_Witnesses].
  split; [closed|].
  split_and!; apply map_Forall_empty.
Qed.

Lemma sampleSnapshot_ok : snapshotOk sampleSnapshot.
Proof.
  unfold snapshotOk. closed; [apply sampleMembership_ok|].
  constructor; [closed|constructor].
Qed.

Lemma zeroSnapshot_ok : snapshotOk pb.zeroSnapshot.
Proof. unfold snapshotOk. closed; [apply zeroMembership_ok|constructor]. Qed.

Lemma sampleMessage_ok : messageOk sampleMessage.
Proof.
  unfold messageOk. closed; [|apply sampleSnapshot_ok].
  repeat (constructor; [closed|]). constructor.
Qed.

Lemma zeroMessage_ok : messageOk Message.zero.
Proof. unfold messageOk. closed; [constructor|apply zeroSnapshot_ok]. Qed.

Lemma MessageBatch_roundtrip_witness :
  exists bs, runMarshal (MessageBatch.SizeUpperLimit sampleBatch)
               (MessageBatch.MarshalTo sampleBatch) = OK bs /\
    MessageBatch.Unmarshal MessageBatch.zero bs = OK sampleBatch.
Proof.
  apply (MessageBatch_roundtrip sampleBatch); [|by vm_compute].
  unfold batchOk. closed. constructor; [|constructor; [|constructor]].
  - split; [apply sampleMessage_ok|]. eexists. split; [vm_compute; reflexivity|by vm_compute].
  - split; [apply zeroMessage_ok|]. eexists. split; [vm_compute; reflexivity|by vm_compute].
Defined.

Definition sampleChunk : Chunk.Chunk :=
  Chunk.mkChunk 5 2 1 0 3 1 (map toByte [9; 8; 7]) 300 2 sampleMembership "snap/c0" 3 1 0 1 true
    sampleFile 210 300 false.

Lemma Chunk_roundtrip_witness :
  exists bs, Chunk.Marshal sampleChunk = OK bs /\ Chunk.Unmarshal Chunk.zero bs = OK sampleChunk.
Proof.
  apply (Chunk_roundtrip sampleChunk); [|by vm_compute].
  unfold chunkOk. closed. apply sampleMembership_ok.
Defined.
