(* ===== verification/Update.v ===== *)
(** * Updates and their persisted form

    [pb.Update] of [raft/raftpb/update.go]: what a raft replica asks its host to
    do, and the encoding of the fields the log database keeps. *)
From S2P Require Import Prelude Raftpb LogDB Wire EntryCodec Codec.

Module Update.

Record Update : Type := mkUpdate {
  u_ShardID : Z;
  u_ReplicaID : Z;
  u_State : pb.State;
  u_FastApply : bool;
  u_EntriesToSave : list pb.Entry;
  u_CommittedEntries : list pb.Entry;
  u_MoreCommittedEntries : bool;
  u_Snapshot : pb.Snapshot;
  u_ReadyToReads : list pb.ReadyToRead;
  u_Messages : list pb.Message;
  u_LastApplied : Z;
  u_UpdateCommit : pb.UpdateCommit;
  u_DroppedEntries : list pb.Entry;
  u_DroppedReadIndexes : list pb.SystemCtx;
  u_LogQueryResult : pb.LogQueryResult;
  u_LeaderUpdate : pb.LeaderUpdate
}.

Definition zeroCommit : pb.UpdateCommit := pb.mkUpdateCommit 0 0 0 0 0 0.
Definition zeroQuery : pb.LogQueryResult := pb.mkLogQueryResult 0 0 None [].
Definition zero : Update :=
  mkUpdate 0 0 pb.emptyState false [] [] false pb.zeroSnapshot [] [] 0 zeroCommit [] []
    zeroQuery (pb.mkLeaderUpdate 0 0).

Definition HasUpdate (u : Update) : bool :=
  negb (pb.IsEmptyState (u_State u)) || negb (pb.IsEmptySnapshot (u_Snapshot u))
  || (0 <? len (u_EntriesToSave u)) || (0 <? len (u_CommittedEntries u))
  || (0 <? len (u_Messages u)) || (0 <? len (u_ReadyToReads u))
  || (0 <? len (u_DroppedEntries u)).

(** The fields [Unmarshal] assigns. *)
Definition persist (shard replica : Z) (st : pb.State) (es : list pb.Entry) (ss : pb.Snapshot)
    (u : Update) : Update :=
  mkUpdate shard replica st (u_FastApply u) es (u_CommittedEntries u)
    (u_MoreCommittedEntries u) ss (u_ReadyToReads u) (u_Messages u) (u_LastApplied u)
    (u_UpdateCommit u) (u_DroppedEntries u) (u_DroppedReadIndexes u) (u_LogQueryResult u)
    (u_LeaderUpdate u).

(** ** Package [encoding/binary] *)

(** [PutUvarint] writes the groups [encodeVarintRaft] writes: [byte(x) | 0x80]
    and [byte(x & 0x7f | 0x80)] are the same byte. *)
Definition PutUvarint (x : Z) : M wstate unit := encodeVarintRaft x.

Definition PutUint32 (x : Z) : M wstate unit :=
  forM_ [0; 8; 16; 24] (fun k => putByte (Z.shiftr x k)).

Definition errEOF : error := ErrMsg "EOF".
Definition errOverflow : error := ErrMsg "binary: varint overflows a 64-bit integer".

(** [ReadUvarint] on a [countedByteReader]; the state is its count.  Ten rounds
    are [MaxVarintLen64]. *)
Fixpoint readUvarintF (fuel : nat) (x s : Z) : reader Z := fun data =>
  match fuel with
  | O => fail errOverflow
  | S fuel =>
      i ← get;
      modify (Z.add 1) ;;
      match nthZ data i with
      | None => fail (if s =? 0 then errEOF else ErrUnexpectedEOF)
      | Some b =>
          if byteZ b <? 0x80 then
            if (s =? 63) && (1 <? byteZ b) then fail errOverflow
            else ret (Z.lor x (u64 (Z.shiftl (byteZ b) s)))
          else
            readUvarintF fuel (Z.lor x (u64 (Z.shiftl (Z.land (byteZ b) 0x7f) s))) (s + 7) data
      end
  end.
Definition ReadUvarint : reader Z := readUvarintF 10 0 0.

(** [LittleEndian.Uint32(buf[offset:])] *)
Definition Uint32 : reader Z := fun data =>
  b3 ← readr (fun i => byteAt data (i + 3));
  b0 ← readr (byteAt data);
  b1 ← readr (fun i => byteAt data (i + 1));
  b2 ← readr (fun i => byteAt data (i + 2));
  ret (Z.lor (Z.lor b0 (Z.shiftl b1 8)) (Z.lor (Z.shiftl b2 16) (Z.shiftl b3 24))).

(** ** Encoding *)

(** [n, err := x.MarshalTo(buf[offset+4:])], then [n] in the four bytes before it. *)
Definition withLen (c : M wstate unit) : M wstate unit := fun s =>
  if w_room s <? 4 then Panic IndexOutOfRange
  else
    match c (mkW [] (w_room s - 4) (w_choices s)) with
    | Ret _ s' =>
        (PutUint32 (u32 (len (w_out s'))) ;; modify (fun t =>
           mkW (w_out t ++ w_out s') (w_room s') (w_choices s'))) s
    | Err e _ => Err e s
    | Panic p => Panic p
    end.

Section codec.
Context `{GoRuntime}.

Definition MarshalTo (u : Update) : M wstate unit :=
  PutUvarint (u_ShardID u) ;;
  PutUvarint (u_ReplicaID u) ;;
  (if pb.IsEmptyState (u_State u) then putByte 0
   else putByte 1 ;; withLen (State.MarshalTo (u_State u))) ;;
  PutUint32 (u32 (len (u_EntriesToSave u))) ;;
  forM_ (u_EntriesToSave u) (fun e => withLen (Entry.MarshalTo e)) ;;
  (if pb.IsEmptySnapshot (u_Snapshot u) then putByte 0
   else putByte 1 ;; withLen (Snapshot.MarshalTo (u_Snapshot u))).

End codec.

Definition SizeUpperLimit (u : Update) : Z :=
  2 + 4 + 16 + i64 (pb.GetEntrySliceSize (u_EntriesToSave u))
  + State.SizeUpperLimit (u_State u)
  + (if negb (pb.IsEmptySnapshot (u_Snapshot u)) then Snapshot.Size (u_Snapshot u) else 48).

(** ** Decoding

    A slice may extend over the spare capacity of [buf], so what follows [buf]
    in its array is an argument. *)
Section unmarshal.
Context (spare : bytes).

Definition slice (buf : bytes) (i j : Z) : result bytes :=
  if (i <=? j) && (j <=? len (buf ++ spare)) then OK (takeZ (j - i) (dropZ i (buf ++ spare)))
  else PANIC IndexOutOfRange.

(** A length at [offset] and the encoding after it. *)
Definition sized {A} (dec : bytes -> result A) : reader A := fun buf =>
  l ← Uint32 buf;
  bs ← readr (fun offset => slice buf (offset + 4) (offset + 4 + l));
  a ← readr (fun _ => dec bs);
  modify (Z.add (4 + l)) ;;
  ret a.

Fixpoint entriesF (n : nat) : reader (list pb.Entry) := fun buf =>
  match n with
  | O => ret []
  | S n =>
      e ← sized (Entry.Unmarshal pb.zeroEntry) buf;
      es ← entriesF n buf;
      ret (e :: es)
  end.

Definition unmarshal (u : Update) : reader Update := fun buf =>
  shard ← ReadUvarint buf;
  replica ← ReadUvarint buf;
  flag ← readr (byteAt buf);
  modify (Z.add 1) ;;
  st ← (if flag =? 0 then ret (u_State u) else sized (State.Unmarshal (u_State u)) buf);
  count ← Uint32 buf;
  modify (Z.add 4) ;;
  es ← (if 0 <? count then entriesF (Z.to_nat count) buf else ret (u_EntriesToSave u));
  flag ← readr (byteAt buf);
  ss ← (if flag =? 1
        then modify (Z.add 1) ;; sized (Snapshot.Unmarshal (u_Snapshot u)) buf
        else ret (u_Snapshot u));
  ret (persist shard replica st es ss u).

Definition Unmarshal (u : Update) (buf : bytes) : result Update :=
  r ← runReader (unmarshal u buf); OK r.1.

End unmarshal.

End Update.
