(* ===== verification/UpdateSpec.v ===== *)
(** * The persisted form of an update

    What the log database writes for an update decodes to the same identity,
    state, entries and snapshot, and fits the buffer it is written to. *)
From S2P Require Import Prelude Raftpb LogDB Wire WireSpec EntryCodec EntryCodecSpec Codec.
From S2P Require Import CodecSpec MessageCodecSpec Update.
Import Update.

(** ** Integers *)

Lemma readUvarintF_eq fuel : forall v shift acc data i rest,
  0 <= v < 128 ^ Z.of_nat fuel -> v * 2 ^ shift < W64 -> 0 <= shift ->
  at_ data i (varintBytes fuel v ++ rest) ->
  readUvarintF fuel acc shift data i = varintF fuel u64 shift acc data i \/ fuel = 0%nat.
Proof.
  induction fuel as [|fuel IH]; intros v shift acc data i rest Hv Hw Hs Hat; [by right|left].
  rewrite Nat2Z.inj_succ, Z.pow_succ_r in Hv by lia. rewrite varintBytes_step in Hat by lia.
  assert (exists b bs, (if 128 <=? v then toByte (v mod 128 + 128) :: varintBytes fuel (v / 128)
                        else [toByte v]) = b :: bs) as (b & bs & Hbs).
  { destruct (128 <=? v); eauto. }
  rewrite Hbs in Hat. destruct (at_byte _ _ _ _ Hat) as [Hby Hi].
  simpl. unfold mbind, M_bind, get, readr, modify.
  rewrite (proj2 (Z.leb_gt _ _)), Hby by done. unfold byteAt in Hby.
  destruct (nthZ data i) as [b'|] eqn:Hn; [|done]. injection Hby as Hby. cbv zeta. rewrite Hby.
  pose proof (Z.mod_pos_bound v 128 ltac:(lia)). pose proof (Z.div_mod v 128 ltac:(lia)).
  destruct (Z.leb_spec 128 v); injection Hbs as <- <-; rewrite byteZ_toByte_small by lia.
  - rewrite (proj2 (Z.ltb_ge _ 128)) by lia.
    assert (0 < 2 ^ shift) by (apply Z.pow_pos_nonneg; lia).
    assert (2 ^ (shift + 7) = 128 * 2 ^ shift) as Hp7 by (rewrite Z.pow_add_r; lia).
    apply (at_app _ i [toByte (v mod 128 + 128)]) in Hat. rewrite Z.add_comm in Hat.
    destruct (IH (v / 128) (shift + 7)
      (Z.lor acc (u64 (Z.shiftl (Z.land (v mod 128 + 128) 127) shift))) data (1 + i) rest)
      as [-> | ->]; [nia|nia|lia|done|done|simpl in Hv; lia].
  - rewrite (proj2 (Z.ltb_lt _ 128)) by lia. rewrite land_127, Z.mod_small by lia.
    destruct (Z.eqb_spec shift 63) as [->|]; [|done].
    rewrite (proj2 (Z.ltb_ge 1 v)); [done|lia].
Qed.

Lemma ReadUvarint_spec v data i rest :
  is_u64 v -> at_ data i (varint v ++ rest) -> ReadUvarint data i = Ret v (i + len (varint v)).
Proof.
  intros Hv Hat. pose proof Hv as [? ?]. rewrite <- (readVarint_spec u64 v data i rest);
    [|done|by apply fits_u64|done].
  destruct (readUvarintF_eq 10 v 0 0 data i rest) as [E|?]; [|lia..|exact Hat|exact E|done].
  simpl. lia.
Qed.

Definition le32 (x : Z) : bytes := map (fun k => toByte (Z.shiftr x k)) [0; 8; 16; 24].

Lemma len_le32 x : len (le32 x) = 4.
Proof. done. Qed.

Lemma writes_PutUint32 x : writes (PutUint32 x) 4 (eq (le32 x)).
Proof. apply (writes_forByte (fun k => Z.shiftr x k) [0; 8; 16; 24]). Qed.

Lemma lor_bytes b0 b1 b2 b3 :
  0 <= b0 < 256 -> 0 <= b1 < 256 -> 0 <= b2 < 256 -> 0 <= b3 < 256 ->
  Z.lor (Z.lor b0 (Z.shiftl b1 8)) (Z.lor (Z.shiftl b2 16) (Z.shiftl b3 24)) =
    b0 + 2 ^ 8 * b1 + 2 ^ 16 * b2 + 2 ^ 24 * b3.
Proof.
  intros ? ? ? ?. rewrite lor_shiftl by lia.
  replace (Z.lor (Z.shiftl b2 16) (Z.shiftl b3 24)) with (Z.shiftl (b2 + b3 * 2 ^ 8) 16).
  - rewrite lor_shiftl by lia. lia.
  - rewrite <- lor_shiftl by lia. rewrite Z.shiftl_lor, Z.shiftl_shiftl by lia. done.
Qed.

Lemma Uint32_spec x data i rest :
  0 <= x < 2 ^ 32 -> at_ data i (le32 x ++ rest) -> Uint32 data i = Ret x i.
Proof.
  intros Hx Hat. unfold le32 in Hat. simpl in Hat.
  assert (forall k b r, at_ data (i + k) (b :: r) -> at_ data (i + (k + 1)) r) as Hstep.
  { intros k b r Hk. apply (at_app _ _ [b]) in Hk. by rewrite <- Z.add_assoc in Hk. }
  rewrite <- (Z.add_0_r i) in Hat. pose proof (Hstep _ _ _ Hat) as H1.
  pose proof (Hstep _ _ _ H1) as H2. pose proof (Hstep _ _ _ H2) as H3.
  change (0 + 1) with 1 in *. change (1 + 1) with 2 in *. change (2 + 1) with 3 in *.
  destruct (at_byte _ _ _ _ Hat) as [B0 _]. destruct (at_byte _ _ _ _ H1) as [B1 _].
  destruct (at_byte _ _ _ _ H2) as [B2 _]. destruct (at_byte _ _ _ _ H3) as [B3 _].
  rewrite Z.add_0_r in B0. unfold Uint32, mbind, M_bind, readr. rewrite B3, B0, B1, B2.
  unfold ret. f_equal. rewrite !byteZ_toByte, lor_bytes by (apply Z.mod_pos_bound; lia).
  rewrite !Z.shiftr_div_pow2 by lia. change (2 ^ 0) with 1. rewrite Z.div_1_r.
  Z.div_mod_to_equations. lia.
Qed.

(** ** Sized blocks *)

Lemma writes_withLen c n P :
  writes c n P -> 0 <= n < 2 ^ 32 ->
  writes (withLen c) (4 + n) (fun bs => exists b, bs = le32 (len b) ++ b /\ len b < 2 ^ 32 /\ P b).
Proof.
  intros Hc Hn s Hs. unfold withLen. rewrite (proj2 (Z.ltb_ge _ _)) by lia.
  destruct (Hc (mkW [] (w_room s - 4) (w_choices s))) as (b & k & E & Hl & HP); [simpl; lia|].
  rewrite E. simpl w_out. rewrite app_nil_l. unfold u32. rewrite Z.mod_small by lia.
  destruct (writes_PutUint32 (len b) s) as (b4 & k4 & E4 & _ & <-); [lia|].
  unfold mbind, M_bind. rewrite E4. exists (le32 (len b) ++ b), k. simpl w_room.
  rewrite len_app, len_le32. split_and!; [|lia|by exists b; split_and!; [|lia|]].
  unfold modify. simpl. rewrite <- app_assoc. 
  by replace (w_room s - 4 - n) with (w_room s - (4 + n)) by lia.
Qed.

Lemma sized_spec {A} (dec : bytes -> result A) spare b a data i rest :
  at_ data i (le32 (len b) ++ b ++ rest) -> len b < 2 ^ 32 -> dec b = OK a ->
  sized spare dec data i = Ret a (i + (4 + len b)).
Proof.
  intros Hat Hb Hdec. pose proof (len_nonneg b). pose proof (len_nonneg spare).
  unfold sized, mbind, M_bind.
  rewrite (Uint32_spec (len b) data i (b ++ rest)) by (done || lia). apply at_app in Hat.
  rewrite len_le32 in Hat. pose proof (at_len _ _ _ Hat) as Hl. rewrite len_app in Hl.
  pose proof (len_nonneg rest). destruct Hat as (Hi & Hlen & Hd). unfold readr, slice.
  rewrite (proj2 (Z.leb_le _ _)), len_app, (proj2 (Z.leb_le _ _)) by lia. simpl.
  replace (takeZ (i + 4 + len b - (i + 4)) (dropZ (i + 4) (data ++ spare))) with b.
  - rewrite Hdec. unfold modify, ret. f_equal. lia.
  - unfold takeZ, dropZ, len in *. rewrite drop_app_le, Hd by lia.
    rewrite <- app_assoc, take_app_le by lia. rewrite take_ge by lia. done.
Qed.

Section update.
Context `{GoRuntime}.

Definition block {A} (dec : bytes -> result A) (a : A) (bs : bytes) : Prop :=
  exists b, bs = le32 (len b) ++ b /\ len b < 2 ^ 32 /\ dec b = OK a.

Lemma block_spec {A} (dec : bytes -> result A) spare a bs data i rest :
  block dec a bs -> at_ data i (bs ++ rest) -> sized spare dec data i = Ret a (i + len bs).
Proof.
  intros (b & -> & Hb & Hd) Hat. rewrite <- app_assoc in Hat.
  erewrite sized_spec by done. by rewrite len_app, len_le32.
Qed.

Lemma codes_block {A} fields c n (m m' : A) :
  codes true fields c n m m' -> 0 <= n < 2 ^ 32 ->
  writes (withLen c) (4 + n) (block (Wire.unmarshal true fields m) m').
Proof.
  intros Hc Hn. eapply writes_weaken;
    [apply writes_withLen; [eapply codes_unmarshal, Hc|done]|].
  intros bs (b & -> & Hb & Hd). exists b. split_and!; [done..|]. apply Hd. lia.
Qed.

(** The length of a block is a [uint32]. *)
Definition blockOk (e : pb.Entry) : Prop := entryOk e /\ len (pb.e_Cmd e) < 2 ^ 31.

Lemma entry_block e :
  blockOk e -> exists n, 4 + n <= pb.SizeUpperLimit e /\ 0 <= n /\
    writes (withLen (Entry.MarshalTo e)) (4 + n) (block (Entry.Unmarshal pb.zeroEntry) e).
Proof.
  intros [He Hcmd]. destruct (Entry_codes e He) as (n & _ & Hn & Hle & Hw). exists n.
  unfold pb.SizeUpperLimit, pb.EntryNonCmdFieldsSize.
  split_and!; [lia..|]. apply writes_withLen; [done|lia].
Qed.

(** The blocks of the entries, one after the other. *)
Fixpoint blocks (es : list pb.Entry) (bs : bytes) : Prop :=
  match es with
  | [] => bs = []
  | e :: es => exists b1 b2, bs = b1 ++ b2 /\ block (Entry.Unmarshal pb.zeroEntry) e b1 /\ blocks es b2
  end.

Definition entriesLimit (es : list pb.Entry) : Z :=
  foldr (fun e n => pb.SizeUpperLimit e + n) 0 es.

Lemma entries_blocks es :
  Forall blockOk es -> exists n, 0 <= n <= entriesLimit es /\
    writes (forM_ es (fun e => withLen (Entry.MarshalTo e))) n (blocks es).
Proof.
  induction 1 as [|e es He _ (n & Hn & Hw)]; [by exists 0; split; [simpl; lia|apply writes_skip]|].
  destruct (entry_block e He) as (k & Hk & Hk0 & Hwk). exists (4 + k + n). simpl. split; [lia|].
  apply writes_bind; [lia|done..].
Qed.

Lemma entriesF_spec spare es : forall bs data i rest,
  blocks es bs -> at_ data i (bs ++ rest) ->
  entriesF spare (length es) data i = Ret es (i + len bs).
Proof.
  induction es as [|e es IH]; intros bs data i rest Hbs Hat.
  - simpl in Hbs. subst. simpl. unfold ret. f_equal. unfold len. simpl. lia.
  - destruct Hbs as (b1 & b2 & -> & Hb & Hbs). rewrite <- app_assoc in Hat.
    simpl. unfold mbind, M_bind. erewrite block_spec by done. apply at_app in Hat.
    erewrite IH by done. unfold ret. f_equal. rewrite len_app. lia.
Qed.

Lemma sliceSize_limit es :
  entriesLimit es < 2 ^ 63 -> pb.GetEntrySliceSize es = entriesLimit es.
Proof.
  unfold pb.GetEntrySliceSize. intros Hl.
  enough (forall z, 0 <= z -> z + entriesLimit es < 2 ^ 63 ->
    fold_left (fun sz e => sz +ᵤ pb.SizeUpperLimit e) es z = z + entriesLimit es) as Hfold.
  { rewrite Hfold; lia. }
  clear Hl. induction es as [|e es IH]; intros z Hz Hl; simpl in *; [lia|].
  assert (0 <= pb.SizeUpperLimit e).
  { unfold pb.SizeUpperLimit, pb.EntryNonCmdFieldsSize. pose proof (len_nonneg (pb.e_Cmd e)). lia. }
  assert (0 <= entriesLimit es).
  { clear. induction es as [|e es IH]; simpl; [lia|]. revert IH.
    unfold pb.SizeUpperLimit, pb.EntryNonCmdFieldsSize. pose proof (len_nonneg (pb.e_Cmd e)). lia. }
  assert (z +ᵤ pb.SizeUpperLimit e = z + pb.SizeUpperLimit e) as -> by lia64.
  rewrite IH by lia. lia.
Qed.

(** ** Updates *)

Definition updateOk (u : Update) : Prop :=
  is_u64 (u_ShardID u) /\ is_u64 (u_ReplicaID u) /\ stateOk (u_State u) /\
  Forall blockOk (u_EntriesToSave u) /\ len (u_EntriesToSave u) < 2 ^ 32 /\
  entriesLimit (u_EntriesToSave u) < 2 ^ 63 /\
  snapshotOk (u_Snapshot u) /\ Snapshot.Size (u_Snapshot u) < 2 ^ 32.

(** What the log database is to keep of an update. *)
Definition persisted (u : Update) : Update :=
  persist (u_ShardID u) (u_ReplicaID u) (u_State u) (u_EntriesToSave u)
    (if pb.IsEmptySnapshot (u_Snapshot u) then pb.zeroSnapshot else u_Snapshot u) zero.

(** A flag and the block it announces, or just a zero. *)
Definition flagged {A} (absent : bool) (dec : bytes -> result A) (a : A) (bs : bytes) : Prop :=
  if absent then bs = [toByte 0] else exists b, bs = toByte 1 :: b /\ block dec a b.

Lemma writes_flagged {A} (absent : bool) c n (dec : bytes -> result A) a :
  0 <= n -> writes (withLen c) (4 + n) (block dec a) ->
  exists k, 0 <= k <= 5 + n /\ (absent = true -> k = 1) /\
    writes (if absent then putByte 0 else putByte 1 ;; withLen c) k (flagged absent dec a).
Proof.
  intros Hn Hw. destruct absent; unfold flagged.
  - exists 1. split_and!; [lia..|]. eapply writes_weaken; [apply writes_putByte|]. by intros ? <-.
  - exists (1 + (4 + n)). split_and!; [lia|lia|done|].
    eapply writes_weaken; [apply writes_bind; [|apply writes_putByte|exact Hw]; lia|].
    intros bs (b1 & b2 & -> & <- & Hb). by exists b2.
Qed.

Lemma State_block st :
  stateOk st -> 0 <= State.Size st <= 33 /\
  writes (withLen (State.MarshalTo st)) (4 + State.Size st) (block (State.Unmarshal State.zero) st).
Proof.
  intros Hst. pose proof (State_codes st Hst) as Hc. destruct Hst as (Ht & Hv & Hcm).
  assert (0 <= State.Size st <= 33) as Hsz.
  { unfold State.Size. pose proof (sov_pos _ Ht). pose proof (sov_pos _ Hv).
    pose proof (sov_pos _ Hcm). lia. }
  split; [done|]. apply codes_block; [done|lia].
Qed.

Lemma IsEmptyState_eq st : pb.IsEmptyState st = true -> st = pb.emptyState.
Proof.
  unfold pb.IsEmptyState, pb.isStateEqual. destruct st as [a b c]. simpl.
  rewrite !andb_true_iff, !Z.eqb_eq. intros [[-> ->] ->]. done.
Qed.

Definition layout (u : Update) (bs : bytes) : Prop :=
  exists b1 b2 b3, bs = varint (u_ShardID u) ++ varint (u_ReplicaID u) ++ b1 ++
      le32 (len (u_EntriesToSave u)) ++ b2 ++ b3 /\
    flagged (pb.IsEmptyState (u_State u)) (State.Unmarshal State.zero) (u_State u) b1 /\
    blocks (u_EntriesToSave u) b2 /\
    flagged (pb.IsEmptySnapshot (u_Snapshot u)) (Snapshot.Unmarshal Snapshot.zero) (u_Snapshot u) b3.

Lemma MarshalTo_layout u :
  updateOk u -> exists n, n <= SizeUpperLimit u /\ writes (MarshalTo u) n (layout u).
Proof.
  intros (Hsh & Hre & Hst & Hes & Hcnt & Hlim & Hss & Hsz).
  pose proof (Snapshot_codes _ Hss) as Hsc. pose proof (proj1 Hsc) as Hsz0.
  destruct (State_block _ Hst) as [Hstz Hstw].
  destruct (writes_flagged (pb.IsEmptyState (u_State u)) _ _ _ _ (proj1 Hstz) Hstw)
    as (k1 & Hk1 & _ & Hw1).
  destruct (entries_blocks _ Hes) as (k2 & Hk2 & Hw2).
  destruct (writes_flagged (pb.IsEmptySnapshot (u_Snapshot u)) (Snapshot.MarshalTo (u_Snapshot u))
    (Snapshot.Size (u_Snapshot u)) (Snapshot.Unmarshal Snapshot.zero) (u_Snapshot u))
    as (k3 & Hk3 & Hk3' & Hw3); [lia|apply codes_block; [done|lia]|].
  exists (sovRaft (u_ShardID u) + (sovRaft (u_ReplicaID u) + (k1 + (4 + (k2 + k3))))). split.
  - unfold SizeUpperLimit. rewrite sliceSize_limit by done. rewrite (fits_i64 (entriesLimit (u_EntriesToSave u))) by lia.
    unfold State.SizeUpperLimit. pose proof (sov_pos _ Hsh). pose proof (sov_pos _ Hre).
    destruct (pb.IsEmptySnapshot _); simpl; [specialize (Hk3' eq_refl)|]; lia.
  - eapply writes_weaken.
    { pose proof (len_nonneg (u_EntriesToSave u)). pose proof (sov_pos _ Hre).
      apply writes_bind; [lia|by apply writes_varint|].
      apply writes_bind; [lia|by apply writes_varint|].
      apply writes_bind; [lia|exact Hw1|]. apply writes_bind; [lia|apply writes_PutUint32|].
      apply writes_bind; [lia|exact Hw2|exact Hw3]. }
    intros bs (v1 & ? & -> & <- & v2 & ? & -> & <- & b1 & ? & -> & Hb1 & v3 & ? & -> & <- &
      b2 & b3 & -> & Hb2 & Hb3).
    pose proof (len_nonneg (u_EntriesToSave u)). unfold u32. rewrite Z.mod_small by lia.
    exists b1, b2, b3. done.
Qed.

(** Reading a flag. *)
Lemma flag_spec {A} absent (dec : bytes -> result A) a bs data i rest :
  flagged absent dec a bs -> at_ data i (bs ++ rest) ->
  byteAt data i = OK (if absent then 0 else 1) /\
  if absent then len bs = 1
  else exists b, bs = toByte 1 :: b /\ block dec a b /\ at_ data (1 + i) (b ++ rest).
Proof.
  intros Hf Hat. destruct absent; simpl in Hf.
  - subst. destruct (at_byte _ _ _ _ Hat) as [-> _]. done.
  - destruct Hf as (b & -> & Hb). destruct (at_byte _ _ _ _ Hat) as [-> _]. split; [done|].
    exists b. split_and!; [done..|]. apply (at_app _ _ [toByte 1]) in Hat. by rewrite Z.add_comm.
Qed.

(** The three parts after the identity. *)
Lemma state_part {B} spare u b1 data i rest (k : pb.State -> M Z B) :
  flagged (pb.IsEmptyState (u_State u)) (State.Unmarshal State.zero) (u_State u) b1 ->
  at_ data i (b1 ++ rest) ->
  (flag ← readr (byteAt data);
   modify (Z.add 1) ;;
   st ← (if flag =? 0 then ret pb.emptyState
         else sized spare (State.Unmarshal pb.emptyState) data);
   k st) i = k (u_State u) (i + len b1).
Proof.
  intros Hf Hat. destruct (flag_spec _ _ _ _ _ _ _ Hf Hat) as [Hby Hrest].
  unfold mbind, M_bind, readr, modify. rewrite Hby.
  destruct (pb.IsEmptyState (u_State u)) eqn:He; simpl.
  - by rewrite Hrest, (IsEmptyState_eq _ He), (Z.add_comm 1).
  - destruct Hrest as (b & -> & Hb & Hat'). erewrite block_spec by done. f_equal.
    rewrite len_cons. lia.
Qed.

Lemma entries_part {B} spare u b2 data i rest (k : list pb.Entry -> M Z B) :
  blocks (u_EntriesToSave u) b2 -> len (u_EntriesToSave u) < 2 ^ 32 ->
  at_ data i (le32 (len (u_EntriesToSave u)) ++ b2 ++ rest) ->
  (count ← Uint32 data;
   modify (Z.add 4) ;;
   es ← (if 0 <? count then entriesF spare (Z.to_nat count) data else ret []);
   k es) i = k (u_EntriesToSave u) (i + (4 + len b2)).
Proof.
  intros Hb Hc Hat. pose proof (len_nonneg (u_EntriesToSave u)).
  unfold mbind, M_bind, modify. rewrite (Uint32_spec _ _ _ _ (conj H0 Hc) Hat).
  apply at_app in Hat. rewrite len_le32 in Hat.
  destruct (Z.ltb_spec 0 (len (u_EntriesToSave u))).
  - unfold len at 1. rewrite Nat2Z.id. rewrite (Z.add_comm 4 i).
    erewrite entriesF_spec by done. f_equal. lia.
  - destruct (u_EntriesToSave u); [|unfold len in *; simpl in *; lia]. simpl in Hb. subst.
    unfold ret. f_equal. unfold len. simpl. lia.
Qed.

Lemma snapshot_part {B} spare u b3 data i (k : pb.Snapshot -> M Z B) :
  flagged (pb.IsEmptySnapshot (u_Snapshot u)) (Snapshot.Unmarshal Snapshot.zero) (u_Snapshot u) b3 ->
  at_ data i b3 ->
  exists j, (flag ← readr (byteAt data);
   ss ← (if flag =? 1
         then modify (Z.add 1) ;; sized spare (Snapshot.Unmarshal pb.zeroSnapshot) data
         else ret pb.zeroSnapshot);
   k ss) i = k (if pb.IsEmptySnapshot (u_Snapshot u) then pb.zeroSnapshot else u_Snapshot u) j.
Proof.
  intros Hf Hat. rewrite <- (app_nil_r b3) in Hat.
  destruct (flag_spec _ _ _ _ _ _ _ Hf Hat) as [Hby Hrest].
  unfold mbind, M_bind, readr, modify. rewrite Hby.
  destruct (pb.IsEmptySnapshot (u_Snapshot u)); simpl; [by exists i|].
  destruct Hrest as (b & -> & Hb & Hat'). erewrite block_spec by done. by eexists.
Qed.

Lemma Unmarshal_layout spare u bs :
  updateOk u -> layout u bs -> Unmarshal spare zero bs = OK (persisted u).
Proof.
  intros (Hsh & Hre & _ & _ & Hcnt & _) (b1 & b2 & b3 & Hbs & Hf1 & Hb2 & Hf3).
  assert (at_ bs 0 bs) as Hat by (split_and!; [lia|apply len_nonneg|by unfold dropZ]).
  rewrite Hbs in Hat at 2. clear Hbs.
  unfold Unmarshal, runReader, Update.unmarshal. unfold mbind at 2, M_bind at 1.
  rewrite (ReadUvarint_spec _ _ _ _ Hsh Hat). apply at_app in Hat.
  unfold mbind at 2, M_bind at 1. rewrite (ReadUvarint_spec _ _ _ _ Hre Hat). apply at_app in Hat.
  set (i := 0 + _ + _) in *. clearbody i.
  erewrite state_part by done. apply at_app in Hat.
  erewrite entries_part by done. apply at_app, at_app in Hat. rewrite len_le32 in Hat.
  rewrite <- Z.add_assoc in Hat.
  destruct (snapshot_part spare u b3 bs _ (fun ss => ret (persist (u_ShardID u) (u_ReplicaID u)
    (u_State u) (u_EntriesToSave u) ss zero)) Hf3 Hat) as (j & Hj).
  setoid_rewrite Hj. done.
Qed.

(** Saving an update and loading it back keeps the replica's identity, its
    state, the entries to save and the snapshot: [MarshalTo] fits the buffer of
    [SizeUpperLimit] bytes the log database gives it, and [Unmarshal] of the bytes
    written, whatever follows them in their array, restores those fields and no
    others. *)
Theorem Update_roundtrip u spare :
  updateOk u ->
  exists bs, runMarshal (SizeUpperLimit u) (MarshalTo u) = OK bs /\
    len bs <= SizeUpperLimit u /\ Unmarshal spare zero bs = OK (persisted u).
Proof.
  intros Hu. destruct (MarshalTo_layout u Hu) as (n & Hn & Hw).
  destruct (Hw (mkW [] (SizeUpperLimit u) 0) Hn) as (bs & k & E & L & P).
  exists bs. unfold runMarshal. rewrite E. split_and!; [done|lia|]. by apply Unmarshal_layout.
Qed.

End update.

Definition sampleUpdate : Update :=
  persist 300 2 (pb.mkState 3 2 299) [sampleEntry; pb.zeroEntry] sampleSnapshot zero.

Lemma Update_roundtrip_witness :
  exists bs, runMarshal (SizeUpperLimit sampleUpdate) (MarshalTo sampleUpdate) = OK bs /\
    len bs <= SizeUpperLimit sampleUpdate /\
    Unmarshal (map toByte [1; 2]) zero bs = OK (persisted sampleUpdate).
Proof.
  apply (Update_roundtrip sampleUpdate (map toByte [1; 2])).
  unfold updateOk, stateOk. closed; [|apply sampleSnapshot_ok].
  repeat (constructor; [unfold blockOk; closed|]). constructor.
Defined.
