(* ===== verification/InMemory.v ===== *)
(** * The in-memory log

    [raft/internal/raft/inmemory.go] and the helpers of [entryutils.go] it
    uses: the part of the log the protocol will need soon, starting at
    [markerIndex].  The rate limiter is shared by pointer between the in-memory
    log and the [raft] struct; it lives here and [raft] reaches it through the
    log.  The capacity of the [entries] slice is kept beside its contents. *)
From S2P Require Import Prelude Raftpb RateLimiter LogDB.

(** ** Helpers of [entryutils.go] *)

Definition countConfigChange (entries : list pb.Entry) : Z :=
  fold_left (fun c e => if pb.IsConfigChange e then c + 1 else c) entries 0.

Definition checkEntriesToAppend (ents toAppend : list pb.Entry) : result unit :=
  match last ents, toAppend with
  | Some l, a :: _ =>
      if negb ((pb.e_Index l +ᵤ 1) =? pb.e_Index a) then PANIC (PanicMsg "found a hole")
      else if pb.e_Term a <? pb.e_Term l then PANIC (PanicMsg "term value not expected")
      else OK tt
  | _, _ => OK tt
  end.

(** The loop of [limitSize] from its second element: how many more fit. *)
Fixpoint limitLoop (ents : list pb.Entry) (total limit : Z) : list pb.Entry :=
  match ents with
  | [] => []
  | e :: ents =>
      let total := total + pb.SizeUpperLimit e in
      if limit <? u64 total then [] else e :: limitLoop ents total limit
  end.

Definition limitSize (ents : list pb.Entry) (limit : Z) : list pb.Entry :=
  match ents with
  | [] => ents
  | e :: rest => e :: limitLoop rest (pb.SizeUpperLimit e) limit
  end.

Definition isLocalMessageType (t : pb.MessageType) : bool :=
  match t with
  | pb.Election | pb.LeaderHeartbeat | pb.Unreachable | pb.SnapshotStatus
  | pb.CheckQuorum | pb.LocalTick | pb.BatchedReadIndex => true
  | _ => false
  end.

Definition isResponseMessageType (t : pb.MessageType) : bool :=
  match t with
  | pb.ReplicateResp | pb.RequestVoteResp | pb.HeartbeatResp | pb.ReadIndexResp
  | pb.Unreachable | pb.SnapshotStatus | pb.LeaderTransfer => true
  | _ => false
  end.

(** A slice expression [l[lo:hi]]. *)
Definition slice {A} (l : list A) (lo hi : Z) : result (list A) :=
  if decide (0 <= lo <= hi /\ hi <= len l)
  then OK (takeZ (hi - lo) (dropZ lo l)) else PANIC IndexOutOfRange.

Definition index {A} (l : list A) (i : Z) : result A :=
  match nthZ l i with Some a => OK a | None => PANIC IndexOutOfRange end.

Module inMemory.

(** [settings.InMemEntrySliceSize] and [settings.MinEntrySliceFreeSize]. *)
Definition entrySliceSize : Z := 512.
Definition minEntrySliceSize : Z := 96.

Record inMemory : Type := mkInMemory {
  snapshot : option pb.Snapshot;
  rl : server.InMemRateLimiter;
  entries : list pb.Entry;
  entries_cap : Z;
  savedTo : Z;
  markerIndex : Z;
  appliedToIndex : Z;
  appliedToTerm : Z;
  shrunk : bool
}.

Definition inMemory_eta (r : inMemory) : inMemory :=
  mkInMemory (snapshot r) (rl r) (entries r) (entries_cap r) (savedTo r)
    (markerIndex r) (appliedToIndex r) (appliedToTerm r) (shrunk r).
Definition set_snapshot (v : option pb.Snapshot) (r : inMemory) : inMemory :=
  ltac:(set_field (inMemory_eta r) (snapshot r) v).
Definition set_rl (v : server.InMemRateLimiter) (r : inMemory) : inMemory :=
  ltac:(set_field (inMemory_eta r) (rl r) v).
Definition set_entries_ (v : list pb.Entry) (r : inMemory) : inMemory :=
  ltac:(set_field (inMemory_eta r) (entries r) v).
Definition set_cap (v : Z) (r : inMemory) : inMemory :=
  ltac:(set_field (inMemory_eta r) (entries_cap r) v).
Definition set_savedTo (v : Z) (r : inMemory) : inMemory :=
  ltac:(set_field (inMemory_eta r) (savedTo r) v).
Definition set_markerIndex (v : Z) (r : inMemory) : inMemory :=
  ltac:(set_field (inMemory_eta r) (markerIndex r) v).
Definition set_appliedTo (i t : Z) (r : inMemory) : inMemory :=
  mkInMemory (snapshot r) (rl r) (entries r) (entries_cap r) (savedTo r)
    (markerIndex r) i t (shrunk r).
Definition set_shrunk (v : bool) (r : inMemory) : inMemory :=
  ltac:(set_field (inMemory_eta r) (shrunk r) v).

(** The slice header: contents and capacity. *)
Definition set_entries (sl : list pb.Entry * Z) (r : inMemory) : inMemory :=
  set_cap sl.2 (set_entries_ sl.1 r).

Definition newInMemory (lastIndex : Z) (rl : server.InMemRateLimiter) : inMemory :=
  mkInMemory None rl [] 0 lastIndex (lastIndex +ᵤ 1) 0 0 false.

Definition checkMarkerIndex (im : inMemory) : result unit :=
  match entries im with
  | [] => OK tt
  | e :: _ => if negb (pb.e_Index e =? markerIndex im)
              then PANIC (PanicMsg "marker index") else OK tt
  end.

Definition getEntries (low high : Z) (im : inMemory) : result (list pb.Entry) :=
  let upperBound := markerIndex im +ᵤ len (entries im) in
  if (high <? low) || (low <? markerIndex im) then PANIC (PanicMsg "invalid low value")
  else if upperBound <? high then PANIC (PanicMsg "invalid high value")
  else slice (entries im) (low -ᵤ markerIndex im) (high -ᵤ markerIndex im).

Definition getSnapshotIndex (im : inMemory) : option Z :=
  match snapshot im with Some ss => Some (pb.ss_Index ss) | None => None end.

Definition getLastIndex (im : inMemory) : option Z :=
  match last (entries im) with
  | Some e => Some (pb.e_Index e)
  | None => getSnapshotIndex im
  end.

Definition getTerm (idx : Z) (im : inMemory) : result (option Z) :=
  if (0 <? idx) && (idx =? appliedToIndex im) then
    if appliedToTerm im =? 0 then PANIC (PanicMsg "im.appliedToTerm == 0")
    else OK (Some (appliedToTerm im))
  else if idx <? markerIndex im then
    match snapshot im with
    | Some ss => if pb.ss_Index ss =? idx then OK (Some (pb.ss_Term ss)) else OK None
    | None => OK None
    end
  else
    match getLastIndex im with
    | Some lastIndex =>
        if idx <=? lastIndex then
          e ← index (entries im) (idx -ᵤ markerIndex im); OK (Some (pb.e_Term e))
        else OK None
    | None => OK None
    end.

Definition rateLimited (im : inMemory) : bool := server.Enabled (rl im).

Definition modify_rl (f : server.InMemRateLimiter -> server.InMemRateLimiter)
    (im : inMemory) : inMemory :=
  set_rl (f (rl im)) im.

(** [make([]pb.Entry, 0, max(512, len))] followed by an [append] that fits. *)
Definition newEntrySlice (ents : list pb.Entry) : list pb.Entry * Z :=
  (ents, Z.max entrySliceSize (len ents)).

Definition resize (im : inMemory) : inMemory :=
  set_entries (newEntrySlice (entries im)) (set_shrunk false im).

Definition tryResize (im : inMemory) : inMemory := if shrunk im then resize im else im.

Definition resizeEntrySlice (im : inMemory) : inMemory :=
  let toResize := entries_cap im - len (entries im) <? minEntrySliceSize in
  if shrunk im && ((len (entries im) <=? 1) || toResize) then resize im else im.

(** The slice expression is within bounds by the test before it. *)
Definition entriesToSave (im : inMemory) : list pb.Entry :=
  let idx := savedTo im +ᵤ 1 in
  if len (entries im) <? (idx -ᵤ markerIndex im) then []
  else dropZ (idx -ᵤ markerIndex im) (entries im).

Definition savedLogTo (idx term : Z) : M inMemory unit :=
  im ← get;
  if idx <? markerIndex im then skip
  else match last (entries im) with
  | None => skip
  | Some l =>
      if pb.e_Index l <? idx then skip
      else
        e ← readr (fun im => index (entries im) (idx -ᵤ markerIndex im));
        if negb (term =? pb.e_Term e) then skip else modify (set_savedTo idx)
  end.

Definition savedSnapshotTo (idx : Z) (im : inMemory) : inMemory :=
  match getSnapshotIndex im with
  | Some i => if i =? idx then set_snapshot None im else im
  | None => im
  end.

Definition commitUpdate (cu : pb.UpdateCommit) : M inMemory unit :=
  when (0 <? pb.uc_StableLogTo cu)
    (savedLogTo (pb.uc_StableLogTo cu) (pb.uc_StableLogTerm cu)) ;;
  when (0 <? pb.uc_StableSnapshotTo cu)
    (modify (savedSnapshotTo (pb.uc_StableSnapshotTo cu))).

Definition appliedLogTo (idx : Z) : M inMemory unit :=
  im ← get;
  if idx <? markerIndex im then skip
  else match last (entries im) with
  | None => skip
  | Some l =>
      if pb.e_Index l <? idx then skip
      else
        lastEntry ← readr (fun im => index (entries im) (idx -ᵤ markerIndex im));
        if negb (pb.e_Index lastEntry =? idx) then panicf "lastEntry.Index != index"
        else
          modify (set_appliedTo (pb.e_Index lastEntry) (pb.e_Term lastEntry)) ;;
          let newMarkerIndex := idx +ᵤ 1 in
          let n := newMarkerIndex -ᵤ markerIndex im in
          applied ← readr (fun im => slice (entries im) 0 n);
          modify (set_shrunk true) ;;
          rest ← readr (fun im => slice (entries im) n (len (entries im)));
          modify (set_entries (rest, entries_cap im - n)) ;;
          modify (set_markerIndex newMarkerIndex) ;;
          modify resizeEntrySlice ;;
          readr checkMarkerIndex ;;
          im' ← get;
          when (rateLimited im')
            (modify (modify_rl (server.Decrease (pb.GetEntrySliceInMemSize applied))))
  end.

Section runtime.
Context `{GoRuntime}.

(** [append(s, ents...)] on a slice with its capacity. *)
Definition go_append (s : list pb.Entry * Z) (ents : list pb.Entry) : list pb.Entry * Z :=
  let n := len s.1 + len ents in
  (s.1 ++ ents, if n <=? s.2 then s.2 else go_growslice s.2 n).

Definition merge (ents : list pb.Entry) : M inMemory unit :=
  first ← readr (fun _ => index ents 0);
  let firstNewIndex := pb.e_Index first in
  modify resizeEntrySlice ;;
  im ← get;
  (if firstNewIndex =? (markerIndex im +ᵤ len (entries im)) then
     readr (fun im => checkEntriesToAppend (entries im) ents) ;;
     modify (set_entries (go_append (entries im, entries_cap im) ents)) ;;
     when (rateLimited im)
       (modify (modify_rl (server.Increase (pb.GetEntrySliceInMemSize ents))))
   else if firstNewIndex <=? markerIndex im then
     modify (set_markerIndex firstNewIndex) ;;
     modify (set_shrunk false) ;;
     modify (set_entries (newEntrySlice ents)) ;;
     modify (set_savedTo (firstNewIndex -ᵤ 1)) ;;
     when (rateLimited im)
       (modify (modify_rl (server.Set_ (pb.GetEntrySliceInMemSize ents))))
   else
     existing ← readr (getEntries (markerIndex im) firstNewIndex);
     readr (fun _ => checkEntriesToAppend existing ents) ;;
     modify (set_shrunk false) ;;
     modify (set_entries (go_append (newEntrySlice existing) ents)) ;;
     modify (set_savedTo (Z.min (savedTo im) (firstNewIndex -ᵤ 1))) ;;
     when (rateLimited im)
       (modify (modify_rl (server.Set_
          (pb.GetEntrySliceInMemSize ents +ᵤ pb.GetEntrySliceInMemSize existing))))) ;;
  readr checkMarkerIndex.

End runtime.

Definition restore (ss : pb.Snapshot) (im : inMemory) : inMemory :=
  let im := set_snapshot (Some ss) im in
  let im := set_markerIndex (pb.ss_Index ss +ᵤ 1) im in
  let im := set_appliedTo (pb.ss_Index ss) (pb.ss_Term ss) im in
  let im := set_shrunk false im in
  let im := set_entries ([], 0) im in
  let im := set_savedTo (pb.ss_Index ss) im in
  if rateLimited im then modify_rl (server.Set_ 0) im else im.

End inMemory.
