(* ===== verification/LogReader.v ===== *)
(** * The log reader

    [raft/logreader/logreader.go]: the view of the persisted log through which
    the Raft core reads it.  The reader keeps the range of indexes it serves, as
    a marker and a length, and fetches entries from the node's log database.

    The log database and the snapshot compactor are interfaces of the code;
    [IRaftIO] has the two operations the reader calls and [IRaftIOSpec] what
    their documentation promises.  [logReaderSpec] shows that a well-formed
    reader has the properties the core relies on. *)
From S2P Require Import Prelude Raftpb LogDB InMemory.

(** [IterateEntries] of [raftio.ILogDB], and the outcome of [Snapshot.Unref],
    which calls the compactor when it drops the last reference. *)
Class IRaftIO (S : Type) : Type := {
  IterateEntries : S -> list pb.Entry -> Z -> Z -> Z -> Z -> Z -> Z ->
    result (list pb.Entry * Z);
  Unref : S -> pb.Snapshot -> option error
}.

(** [IterateEntries] appends the continuous entries of the node found in
    [low, high), and stops early only past the size limit. *)
Class IRaftIOSpec (S : Type) `{IRaftIO S} : Type := {
  io_entry : S -> Z -> Z -> Z -> option pb.Entry;
  io_entry_index s sh rp i e : io_entry s sh rp i = Some e -> pb.e_Index e = i;
  io_iterate s sh rp low high mx :
    low < high -> 0 <= mx -> (forall i, low <= i < high -> is_Some (io_entry s sh rp i)) ->
    exists ents size, IterateEntries s [] 0 sh rp low high mx = OK (ents, size) /\
      0 < len ents <= high - low /\
      (forall k, 0 <= k < len ents -> nthZ ents k = io_entry s sh rp (low + k)) /\
      (len ents < high - low -> mx < size)
}.

Module logreader.

(** [maxEntrySliceSize], and the number of 80-byte entries it holds. *)
Definition maxEntrySliceSize : Z := 4 * 1024 * 1024.
Definition maxEntries : Z := maxEntrySliceSize / 80.

(** The two errors made with [fmt.Errorf]. *)
Definition errHighLow : error := ErrOther 1.
Definition errGap : error := ErrOther 2.

Section logreader.
Context {S : Type} `{IRaftIO S}.

Record LogReader : Type := mkLogReader {
  logdb : S;
  snapshot : pb.Snapshot;
  state : pb.State;
  markerIndex : Z;
  shardID : Z;
  replicaID : Z;
  markerTerm : Z;
  length_ : Z
}.

Definition LogReader_eta (lr : LogReader) : LogReader :=
  mkLogReader (logdb lr) (snapshot lr) (state lr) (markerIndex lr) (shardID lr)
    (replicaID lr) (markerTerm lr) (length_ lr).
Definition set_snapshot_ (v : pb.Snapshot) (lr : LogReader) : LogReader :=
  ltac:(set_field (LogReader_eta lr) (snapshot lr) v).
Definition set_state (v : pb.State) (lr : LogReader) : LogReader :=
  ltac:(set_field (LogReader_eta lr) (state lr) v).
Definition set_markerIndex (v : Z) (lr : LogReader) : LogReader :=
  ltac:(set_field (LogReader_eta lr) (markerIndex lr) v).
Definition set_markerTerm (v : Z) (lr : LogReader) : LogReader :=
  ltac:(set_field (LogReader_eta lr) (markerTerm lr) v).
Definition set_length (v : Z) (lr : LogReader) : LogReader :=
  ltac:(set_field (LogReader_eta lr) (length_ lr) v).

Definition NewLogReader (sh rp : Z) (db : S) : LogReader :=
  mkLogReader db pb.zeroSnapshot pb.emptyState 0 sh rp 0 1.

Definition nodeState (lr : LogReader) : pb.State * pb.Membership :=
  (state lr, pb.ss_Membership (snapshot lr)).

Definition firstIndex (lr : LogReader) : Z := markerIndex lr +ᵤ 1.
Definition lastIndex (lr : LogReader) : Z := markerIndex lr +ᵤ length_ lr -ᵤ 1.
Definition getRange (lr : LogReader) : Z * Z := (firstIndex lr, lastIndex lr).

Definition entriesLocked (low high maxSize : Z) (lr : LogReader)
    : result (list pb.Entry * Z) :=
  if high <? low then ERR errHighLow
  else if low <=? markerIndex lr then ERR ErrCompacted
  else if (lastIndex lr +ᵤ 1) <? high then ERR ErrUnavailable
  else
    let high := if maxEntries <? (high -ᵤ low) then low +ᵤ maxEntries else high in
    r ← IterateEntries (logdb lr) [] 0 (shardID lr) (replicaID lr) low high maxSize;
    let '(ents, size) := r in
    if (len ents =? (high -ᵤ low)) || (maxSize <? size) then OK (ents, size)
    else match ents, last ents with
    | e :: _, Some l =>
        if low <? pb.e_Index e then ERR ErrCompacted
        else if lastIndex lr <=? (pb.e_Index l +ᵤ 1) then ERR ErrUnavailable
        else ERR errGap
    | _, _ => ERR ErrUnavailable
    end.

Definition entries (low high maxSize : Z) (lr : LogReader) : result (list pb.Entry) :=
  r ← entriesLocked low high maxSize lr;
  let '(ents, size) := r in
  if (0 <? maxSize) && (maxSize <? size) && (1 <? len ents)
  then OK (takeZ (len ents - 1) ents)
  else if (maxSize =? 0) && (maxSize <? size) && (1 <? len ents) then OK (takeZ 1 ents)
  else OK ents.

Definition termLocked (index : Z) (lr : LogReader) : result Z :=
  if index =? markerIndex lr then OK (markerTerm lr)
  else
    r ← entriesLocked index (index +ᵤ 1) 0 lr;
    match r.1 with
    | [] => OK 0
    | e :: _ => OK (pb.e_Term e)
    end.

Definition setSnapshot (ss : pb.Snapshot) : M LogReader unit :=
  lr ← get;
  if pb.ss_Index ss <=? pb.ss_Index (snapshot lr) then fail ErrSnapshotOutOfDate
  else
    (if negb (pb.IsEmptySnapshot (snapshot lr)) then
       match Unref (logdb lr) (snapshot lr) with
       | Some e => fail e
       | None => skip
       end
     else skip) ;;
    modify (set_snapshot_ ss).

Definition applySnapshot (ss : pb.Snapshot) : M LogReader unit :=
  setSnapshot ss ;;
  modify (set_markerIndex (pb.ss_Index ss)) ;;
  modify (set_markerTerm (pb.ss_Term ss)) ;;
  modify (set_length 1).

Definition createSnapshot (ss : pb.Snapshot) : M LogReader unit := setSnapshot ss.

Definition setRange (first0 len0 : Z) : M LogReader unit :=
  if len0 =? 0 then skip
  else
    lr ← get;
    let first := firstIndex lr in
    let last := first0 +ᵤ len0 -ᵤ 1 in
    if last <? first then skip
    else
      let '(fi, n) := if first0 <? first
                      then (first, len0 -ᵤ (first -ᵤ first0)) else (first0, len0) in
      let offset := fi -ᵤ markerIndex lr in
      if offset <? length_ lr then modify (set_length (offset +ᵤ n))
      else if length_ lr =? offset then modify (set_length (length_ lr +ᵤ n))
      else panicf "gap in log entries".

Definition append (ents : list pb.Entry) : M LogReader unit :=
  match ents, last ents with
  | e :: _, Some l =>
      if negb ((pb.e_Index e +ᵤ len ents -ᵤ 1) =? pb.e_Index l) then panicf "gap in entries"
      else setRange (pb.e_Index e) (len ents)
  | _, _ => skip
  end.

Definition setState (st : pb.State) : M LogReader unit := modify (set_state st).

Definition compact (index : Z) : M LogReader unit :=
  lr ← get;
  if index <? markerIndex lr then fail ErrCompacted
  else if lastIndex lr <? index then fail ErrUnavailable
  else
    t ← readr (termLocked index);
    let i := index -ᵤ markerIndex lr in
    modify (set_length (length_ lr -ᵤ i)) ;;
    modify (set_markerIndex index) ;;
    modify (set_markerTerm t).

#[global] Instance LogReader_ILogDB : ILogDB LogReader := {|
  GetRange := getRange;
  SetRange := setRange;
  NodeState := nodeState;
  SetState := setState;
  CreateSnapshot := createSnapshot;
  ApplySnapshot := applySnapshot;
  Term := fun lr i => termLocked i lr;
  Entries := fun lr low high mx => entries low high mx lr;
  LogDB.Snapshot := snapshot;
  Compact := compact;
  Append := append
|}.

(** ** Well-formed readers *)

Section wf.
Context `{!IRaftIOSpec S}.

Definition stored (lr : LogReader) (i : Z) : option pb.Entry :=
  io_entry (logdb lr) (shardID lr) (replicaID lr) i.

(** The database holds every entry of the range. *)
Definition wf (lr : LogReader) : Prop :=
  0 <= markerIndex lr /\ 1 <= length_ lr /\ markerIndex lr + length_ lr < W64 /\
  forall i, markerIndex lr < i < markerIndex lr + length_ lr -> is_Some (stored lr i).

Definition termOf (lr : LogReader) (i : Z) : Z :=
  if i =? markerIndex lr then markerTerm lr
  else match stored lr i with Some e => pb.e_Term e | None => 0 end.

Lemma wf_range lr : wf lr ->
  firstIndex lr = markerIndex lr + 1 /\ lastIndex lr = markerIndex lr + length_ lr - 1.
Proof. intros (?&?&?&_). unfold firstIndex, lastIndex. lia64. Qed.

(** Reading within the range returns the stored entries, from [low] on. *)
Lemma entriesLocked_spec low high mx lr :
  wf lr -> markerIndex lr < low < high -> high <= lastIndex lr + 1 -> 0 <= mx ->
  exists ents size, entriesLocked low high mx lr = OK (ents, size) /\
    0 < len ents <= high - low /\
    forall k, 0 <= k < len ents -> nthZ ents k = stored lr (low + k).
Proof.
  intros Hwf Hlow Hhigh Hmx. destruct (wf_range lr Hwf) as [Hf Hl].
  destruct Hwf as (Hm & Hn & Hw & Hst). unfold entriesLocked.
  rewrite (proj2 (Z.ltb_ge high low)), (proj2 (Z.leb_gt low _)) by lia.
  rewrite (add64_small (lastIndex lr)), (proj2 (Z.ltb_ge (lastIndex lr + 1) high)) by lia.
  cbv zeta. rewrite (sub64_small high low) by lia.
  set (high' := if maxEntries <? high - low then low +ᵤ maxEntries else high).
  assert (low < high' <= high) as Hh.
  { unfold high'. destruct (Z.ltb_spec maxEntries (high - low)) as [Hc|Hc]; [|lia].
    unfold maxEntries, maxEntrySliceSize in *. cbn in Hc |- *. lia64. }
  destruct (io_iterate (logdb lr) (shardID lr) (replicaID lr) low high' mx)
    as (ents & size & Hi & Hlen & Hk & Hstop); [lia|done|intros; apply Hst; lia|].
  rewrite Hi. cbn [mbind result_bind]. exists ents, size. split_and!; [|lia|lia|done].
  rewrite sub64_small by lia. destruct (Z.eqb_spec (len ents) (high' - low)) as [|Hne]; [done|].
  by rewrite (proj2 (Z.ltb_lt mx size)) by (apply Hstop; lia).
Qed.

Lemma nthZ_takeZ {A} (l : list A) n k : 0 <= k < n -> nthZ (takeZ n l) k = nthZ l k.
Proof.
  intros Hk. unfold nthZ, takeZ. rewrite !decide_True by lia.
  apply lookup_take_lt. lia.
Qed.
Lemma len_takeZ {A} (l : list A) n : 0 <= n <= len l -> len (takeZ n l) = n.
Proof. unfold len, takeZ. rewrite length_take. lia. Qed.

Lemma entries_spec low high mx lr :
  wf lr -> markerIndex lr < low < high -> high <= lastIndex lr + 1 -> 0 <= mx ->
  exists ents, entries low high mx lr = OK ents /\ 0 < len ents <= high - low /\
    forall k, 0 <= k < len ents -> nthZ ents k = stored lr (low + k).
Proof.
  intros Hwf Hlow Hhigh Hmx.
  destruct (entriesLocked_spec low high mx lr) as (ents & size & He & Hlen & Hk); [done..|].
  assert (forall n, 0 < n <= len ents -> exists es, OK (takeZ n ents) = OK es /\
    0 < len es <= high - low /\ forall k, 0 <= k < len es -> nthZ es k = stored lr (low + k))
    as Htake.
  { intros n Hn. eexists. split; [done|]. rewrite len_takeZ by lia. split; [lia|].
    intros k Hk'. rewrite nthZ_takeZ by lia. apply Hk. lia. }
  unfold entries. rewrite He. cbn [mbind result_bind].
  destruct (_ && (1 <? len ents)) eqn:H1; [apply Htake; rewrite !andb_true_iff in H1; lia|].
  destruct (_ && (1 <? len ents)) eqn:H2 in |- *;
    [apply Htake; rewrite !andb_true_iff in H2; lia|].
  exists ents. eauto.
Qed.

Lemma termLocked_spec lr i :
  wf lr -> markerIndex lr <= i <= lastIndex lr -> termLocked i lr = OK (termOf lr i).
Proof.
  intros Hwf Hi. unfold termLocked, termOf. destruct (Z.eqb_spec i (markerIndex lr)); [done|].
  destruct (wf_range lr Hwf) as [Hf Hl]. pose proof Hwf as (Hm & Hn & Hw & _).
  rewrite add64_small by lia.
  destruct (entriesLocked_spec i (i + 1) 0 lr) as (ents & size & He & Hlen & Hk); [done|lia..|].
  rewrite He. cbn [mbind result_bind fst]. specialize (Hk 0). rewrite Z.add_0_r in Hk.
  destruct ents as [|e ents]; [by unfold len in Hlen; simpl in Hlen; lia|].
  rewrite <- Hk by lia. done.
Qed.

#[refine, global] Instance logReaderSpec : ILogDBSpec LogReader := {|
  db_wf := wf; db_entry := stored; db_term := termOf
|}.
Proof.
  - intros lr Hwf. destruct (wf_range lr Hwf) as [Hf Hl]. destruct Hwf as (?&?&?&_).
    simpl. rewrite Hf, Hl. lia.
  - intros lr i Hwf Hi. destruct (wf_range lr Hwf) as [Hf Hl]. simpl in Hi.
    destruct Hwf as (?&?&?&Hst). destruct (Hst i) as [e He]; [lia|].
    exists e. split_and!; [done|by eapply io_entry_index|].
    unfold termOf. rewrite (proj2 (Z.eqb_neq i (markerIndex lr))) by lia. by rewrite He.
  - intros lr i Hwf Hi. destruct (wf_range lr Hwf) as [Hf Hl]. simpl in *.
    apply termLocked_spec; [done|lia].
  - intros lr low high mx Hwf Hlow Hhigh Hmx. destruct (wf_range lr Hwf) as [Hf Hl]. simpl in *.
    apply entries_spec; [done|lia..].
Defined.

(** [SetRange] makes a range that starts inside the current one, or just
    after it, the new end of the range the reader serves; a range that ends before
    the first entry changes nothing, and one that leaves a gap panics. *)
Theorem setRange_spec first0 len0 lr :
  wf lr -> 0 <= first0 -> 1 <= len0 -> first0 + len0 < W64 ->
  setRange first0 len0 lr =
    if first0 + len0 - 1 <? firstIndex lr then Ret tt lr
    else if first0 <=? lastIndex lr + 1
    then Ret tt (set_length (first0 + len0 - markerIndex lr) lr)
    else Panic (PanicMsg "gap in log entries").
Proof.
  intros Hwf Hf0 Hl0 Hw0. destruct (wf_range lr Hwf) as [Hf Hl].
  destruct Hwf as (Hm & Hn & Hw & _). unfold setRange.
  rewrite (proj2 (Z.eqb_neq len0 0)) by lia. unfold mbind, M_bind, get. cbv zeta.
  assert (first0 +ᵤ len0 -ᵤ 1 = first0 + len0 - 1) as -> by lia64.
  destruct (Z.ltb_spec (first0 + len0 - 1) (firstIndex lr)); [done|].
  rewrite Hf, Hl in *. replace (markerIndex lr + length_ lr - 1 + 1)
    with (markerIndex lr + length_ lr) by lia.
  destruct (Z.ltb_spec first0 (markerIndex lr + 1)).
  - rewrite (proj2 (Z.leb_le first0 _)) by lia.
    assert (markerIndex lr + 1 -ᵤ markerIndex lr = 1) as -> by lia64.
    assert (1 +ᵤ (len0 -ᵤ (markerIndex lr + 1 -ᵤ first0)) = first0 + len0 - markerIndex lr)
      as Hset by lia64.
    destruct (Z.ltb_spec 1 (length_ lr)); [by rewrite Hset|].
    assert (length_ lr = 1) as -> by lia. by rewrite Hset.
  - rewrite (sub64_small first0) by lia.
    destruct (Z.leb_spec first0 (markerIndex lr + length_ lr)).
    + assert (length_ lr = first0 - markerIndex lr ->
        length_ lr +ᵤ len0 = first0 + len0 - markerIndex lr) as Heq by lia64.
      assert (first0 - markerIndex lr +ᵤ len0 = first0 + len0 - markerIndex lr) as -> by lia64.
      destruct (Z.ltb_spec (first0 - markerIndex lr) (length_ lr)); [done|].
      rewrite (proj2 (Z.eqb_eq _ _)), Heq by lia. done.
    + rewrite (proj2 (Z.ltb_ge _ _)), (proj2 (Z.eqb_neq _ _)) by lia. done.
Qed.

(** Compaction at any index of the range succeeds, moves the start of the
    range there and forgets nothing else: the last index and every remaining term,
    that of the compaction point included, are as before. *)
Theorem compact_spec index lr :
  wf lr -> markerIndex lr <= index <= lastIndex lr ->
  exists lr', compact index lr = Ret tt lr' /\ wf lr' /\
    firstIndex lr' = index + 1 /\ lastIndex lr' = lastIndex lr /\
    forall i, index <= i <= lastIndex lr -> termOf lr' i = termOf lr i.
Proof.
  intros Hwf Hi. destruct (wf_range lr Hwf) as [Hf Hl]. pose proof Hwf as (Hm & Hn & Hw & Hst).
  unfold compact, mbind, M_bind, get, readr.
  rewrite (proj2 (Z.ltb_ge index _)), (proj2 (Z.ltb_ge (lastIndex lr) _)) by lia.
  rewrite (termLocked_spec lr index) by done. cbv zeta. rewrite (sub64_small index) by lia.
  rewrite (sub64_small (length_ lr)) by lia. eexists. split; [done|].
  set (lr' := set_markerTerm _ _). assert (wf lr') as Hwf'.
  { unfold wf, stored. simpl. split_and!; [lia..|]. intros i Hi'. apply Hst. lia. }
  destruct (wf_range lr' Hwf') as [Hf' Hl']. rewrite Hf', Hl', Hl. simpl.
  split_and!; [done|lia|lia|]. intros i Hi'. unfold termOf, stored. simpl.
  destruct (Z.eqb_spec i index) as [->|]; [done|].
  by rewrite (proj2 (Z.eqb_neq i (markerIndex lr))) by lia.
Qed.

End wf.

End logreader.
Arguments LogReader S : clear implicits.
End logreader.

(** ** A log database kept in a list

    An instance of the interface for one node, which the concrete runs of the
    development use. *)
Module listStore.

Definition get (s : list pb.Entry) (i : Z) : option pb.Entry :=
  List.find (fun e => pb.e_Index e =? i) s.

Fixpoint iterate (s : list pb.Entry) (n : nat) (low size mx : Z) : list pb.Entry * Z :=
  match n with
  | O => ([], size)
  | S n =>
      match get s low with
      | None => ([], size)
      | Some e =>
          let size := size + pb.SizeUpperLimit e in
          if negb (mx =? 0) && (mx <? size) then ([e], size)
          else (e :: (iterate s n (low + 1) size mx).1, (iterate s n (low + 1) size mx).2)
      end
  end.

#[global] Instance listStore_IO : IRaftIO (list pb.Entry) := {|
  IterateEntries := fun s ents size _ _ low high mx =>
    let r := iterate s (Z.to_nat (high - low)) low size mx in OK (ents ++ r.1, r.2);
  Unref := fun _ _ => None
|}.

Lemma iterate_spec s n low size mx :
  (forall i, low <= i < low + Z.of_nat n -> is_Some (get s i)) ->
  let r := iterate s n low size mx in
  ((0 < n)%nat -> 0 < len r.1) /\ len r.1 <= Z.of_nat n /\
  (forall k, 0 <= k < len r.1 -> nthZ r.1 k = get s (low + k)) /\
  (len r.1 < Z.of_nat n -> mx < r.2).
Proof.
  revert low size. induction n as [|n IH]; intros low size Hs; cbv zeta.
  - unfold len. simpl. split_and!; intros; lia.
  - simpl. destruct (Hs low) as [e He]; [lia|]. rewrite He.
    destruct (IH (low + 1) (size + pb.SizeUpperLimit e)) as (_ & Hl & Hk & Hstop);
      [intros; apply Hs; lia|].
    destruct (negb _ && _) eqn:Hmx; cbn [fst snd]; unfold len in *; cbn [length].
    + apply andb_true_iff in Hmx as [_ Hmx%Z.ltb_lt]. split_and!; [lia..| |done].
      intros k Hk'. assert (k = 0) as -> by (simpl in *; lia). by rewrite Z.add_0_r, He.
    + split_and!; [lia..| |intros; apply Hstop; lia].
      intros k Hk'. destruct (decide (k = 0)) as [->|]; [by rewrite Z.add_0_r, He|].
      specialize (Hk (k - 1) ltac:(lia)). unfold nthZ in *.
      rewrite decide_True in Hk by lia. rewrite decide_True by lia.
      replace (Z.to_nat k) with (S (Z.to_nat (k - 1))) by lia.
      etrans; [exact Hk|]. f_equal. lia.
Qed.

#[refine, global] Instance listStore_IOSpec : IRaftIOSpec (list pb.Entry) := {|
  io_entry := fun s _ _ i => get s i
|}.
Proof.
  - intros s _ _ i e He. apply List.find_some in He as [_ He]. by apply Z.eqb_eq.
  - intros s sh rp low high mx Hlt Hmx Hs. eexists _, _. split; [reflexivity|].
    rewrite app_nil_l.
    destruct (iterate_spec s (Z.to_nat (high - low)) low 0 mx) as (H1 & H2 & H3 & H4).
    { intros i Hi. apply Hs. lia. }
    split_and!; [apply H1; lia|lia|done|]. intros. apply H4. lia.
Defined.

End listStore.

(** ** Witnesses *)

Definition sampleReader : logreader.LogReader (list pb.Entry) :=
  logreader.mkLogReader (map (pb.entry pb.ApplicationEntry 1) [1; 2; 3]) pb.zeroSnapshot
    pb.emptyState 0 1 1 0 4.

Lemma sampleReader_wf : logreader.wf sampleReader.
Proof.
  split_and!; try by vm_compute. intros i Hi. cbn in Hi.
  assert (i = 1 \/ i = 2 \/ i = 3) as [->|[->| ->]] by lia; by eexists.
Qed.

Lemma setRange_spec_witness :
  logreader.setRange 2 5 sampleReader = Ret tt (logreader.set_length 7 sampleReader) /\
  logreader.setRange 5 1 sampleReader = Panic (PanicMsg "gap in log entries").
Proof.
  rewrite (logreader.setRange_spec 2 5 sampleReader sampleReader_wf) by lia.
  rewrite (logreader.setRange_spec 5 1 sampleReader sampleReader_wf) by lia.
  split; reflexivity.
Defined.

Lemma compact_spec_witness :
  exists lr', logreader.compact 2 sampleReader = Ret tt lr' /\ logreader.firstIndex lr' = 3.
Proof.
  destruct (logreader.compact_spec 2 sampleReader sampleReader_wf) as (lr' & Hc & _ & Hf & _);
    [by vm_compute|].
  exists lr'. split; [exact Hc|exact Hf].
Defined.
