(* ===== verification/EntryLog.v ===== *)
(** * The Raft entry log

    [raft/internal/raft/logentry.go]: the log seen by the protocol, which reads
    recent entries from memory and older ones from the persisted log. *)
From S2P Require Import Prelude Raftpb RateLimiter LogDB InMemory.
Import inMemory(inMemory).

(** [settings.MaxApplyEntrySize] *)
Definition maxEntriesToApplySize : Z := 64 * 1024 * 1024.

Module entryLog.
Section entryLog.
Context {DB : Type} `{ILogDB DB} `{GoRuntime}.

Record entryLog : Type := mkEntryLog {
  logdb : DB;
  inmem : inMemory;
  committed : Z;
  processed : Z
}.

Definition entryLog_eta (l : entryLog) : entryLog :=
  mkEntryLog (logdb l) (inmem l) (committed l) (processed l).
Definition set_logdb (v : DB) (l : entryLog) : entryLog :=
  ltac:(set_field (entryLog_eta l) (logdb l) v).
Definition set_inmem (v : inMemory) (l : entryLog) : entryLog :=
  ltac:(set_field (entryLog_eta l) (inmem l) v).
Definition set_committed (v : Z) (l : entryLog) : entryLog :=
  ltac:(set_field (entryLog_eta l) (committed l) v).
Definition set_processed (v : Z) (l : entryLog) : entryLog :=
  ltac:(set_field (entryLog_eta l) (processed l) v).

Definition on_inmem {A} (c : M inMemory A) : M entryLog A := zoom inmem set_inmem c.

Definition newEntryLog (db : DB) (rl : server.InMemRateLimiter) : entryLog :=
  let '(firstIndex, lastIndex) := GetRange db in
  mkEntryLog db (inMemory.newInMemory lastIndex rl) (firstIndex -ᵤ 1) (firstIndex -ᵤ 1).

Definition firstIndex (l : entryLog) : Z :=
  match inMemory.getSnapshotIndex (inmem l) with
  | Some idx => idx +ᵤ 1
  | None => (GetRange (logdb l)).1
  end.

Definition lastIndex (l : entryLog) : Z :=
  match inMemory.getLastIndex (inmem l) with
  | Some idx => idx
  | None => (GetRange (logdb l)).2
  end.

Definition termEntryRange (l : entryLog) : Z * Z := (firstIndex l -ᵤ 1, lastIndex l).

Definition entryRange (l : entryLog) : option (Z * Z) :=
  match inMemory.snapshot (inmem l), inMemory.entries (inmem l) with
  | Some _, [] => None
  | _, _ => Some (firstIndex l, lastIndex l)
  end.

Definition term (idx : Z) (l : entryLog) : result Z :=
  let '(first, last) := termEntryRange l in
  if (idx <? first) || (last <? idx) then OK 0
  else
    ot ← inMemory.getTerm idx (inmem l);
    match ot with
    | Some t => OK t
    | None => Term (logdb l) idx
    end.

Definition lastTerm (l : entryLog) : result Z := term (lastIndex l) l.

Definition checkBound (low high : Z) (l : entryLog) : result unit :=
  if high <? low then PANIC (PanicMsg "input low > high")
  else match entryRange l with
  | None => ERR ErrCompacted
  | Some (first, last) =>
      if low <? first then ERR ErrCompacted
      else if (last +ᵤ 1) <? high then PANIC (PanicMsg "requested range is out of bound")
      else OK tt
  end.

Definition getEntriesFromInMem (ents : list pb.Entry) (low high : Z) (l : entryLog)
    : result (list pb.Entry) :=
  if high <=? inMemory.markerIndex (inmem l) then OK ents
  else
    let lowerBound := Z.max low (inMemory.markerIndex (inmem l)) in
    im ← inMemory.getEntries lowerBound high (inmem l);
    match im with
    | [] => OK ents
    | _ =>
        match ents with
        | [] => OK im
        | _ => checkEntriesToAppend ents im ;; OK (ents ++ im)
        end
    end.

Definition getUncommittedEntries (l : entryLog) : result (list pb.Entry) :=
  let lastIdx := inMemory.markerIndex (inmem l) +ᵤ len (inMemory.entries (inmem l)) in
  getEntriesFromInMem [] (committed l +ᵤ 1) lastIdx l.

Definition getEntriesFromLogDB (low high maxSize : Z) (l : entryLog)
    : result (list pb.Entry * bool) :=
  if inMemory.markerIndex (inmem l) <=? low then OK ([], true)
  else
    let upperBound := Z.min high (inMemory.markerIndex (inmem l)) in
    ents ← Entries (logdb l) low upperBound maxSize;
    if (upperBound -ᵤ low) <? len ents
    then PANIC (PanicMsg "uint64(len(ents)) > upperBound-low")
    else OK (ents, len ents =? (upperBound -ᵤ low)).

Definition getEntries (low high maxSize : Z) (l : entryLog) : result (list pb.Entry) :=
  checkBound low high l ;;
  if low =? high then OK []
  else
    r ← getEntriesFromLogDB low high maxSize l;
    let '(ents, checkInMem) := r in
    if negb checkInMem then OK ents
    else
      es ← getEntriesFromInMem ents low high l;
      OK (limitSize es maxSize).

Definition entries (start maxSize : Z) (l : entryLog) : result (list pb.Entry) :=
  if lastIndex l <? start then OK []
  else getEntries start (lastIndex l +ᵤ 1) maxSize l.

Definition snapshot (l : entryLog) : pb.Snapshot :=
  match inMemory.snapshot (inmem l) with
  | Some ss => ss
  | None => Snapshot (logdb l)
  end.

Definition firstNotAppliedIndex (l : entryLog) : Z :=
  Z.max (processed l +ᵤ 1) (firstIndex l).
Definition toApplyIndexLimit (l : entryLog) : Z := committed l +ᵤ 1.
Definition hasEntriesToApply (l : entryLog) : bool :=
  firstNotAppliedIndex l <? toApplyIndexLimit l.
Definition hasMoreEntriesToApply (appliedTo : Z) (l : entryLog) : bool :=
  appliedTo <? committed l.

Definition getEntriesToApply (limit : Z) (l : entryLog) : result (list pb.Entry) :=
  if hasEntriesToApply l
  then getEntries (firstNotAppliedIndex l) (toApplyIndexLimit l) limit l
  else OK [].
Definition entriesToApply (l : entryLog) : result (list pb.Entry) :=
  getEntriesToApply maxEntriesToApplySize l.

Definition getCommittedEntries (low high maxSize : Z) (l : entryLog)
    : result (list pb.Entry) :=
  if (low <? firstIndex l) || (committed l <? low) then ERR ErrCompacted
  else
    let high := Z.min high (committed l +ᵤ 1) in
    if low =? high then OK [] else getEntries low high maxSize l.

Definition entriesToSave (l : entryLog) : list pb.Entry :=
  inMemory.entriesToSave (inmem l).

Definition matchTerm (idx t : Z) (l : entryLog) : result bool :=
  lt ← term idx l; OK (lt =? t).

Fixpoint getConflictIndex (ents : list pb.Entry) (l : entryLog) : result Z :=
  match ents with
  | [] => OK 0
  | e :: ents =>
      m ← matchTerm (pb.e_Index e) (pb.e_Term e) l;
      if negb m then OK (pb.e_Index e) else getConflictIndex ents l
  end.

Definition append (ents : list pb.Entry) : M entryLog unit :=
  match ents with
  | [] => skip
  | e :: _ =>
      l ← get;
      if pb.e_Index e <=? committed l then panicf "committed entries being changed"
      else on_inmem (inMemory.merge ents)
  end.

Definition tryAppend (idx : Z) (ents : list pb.Entry) : M entryLog bool :=
  conflictIndex ← readr (getConflictIndex ents);
  if negb (conflictIndex =? 0) then
    l ← get;
    if conflictIndex <=? committed l
    then panicf "entry conflicts with committed entry"
    else
      es ← readr (fun _ => slice ents (conflictIndex -ᵤ idx -ᵤ 1) (len ents));
      append es ;;
      ret true
  else ret false.

Definition commitTo (idx : Z) : M entryLog unit :=
  l ← get;
  if idx <=? committed l then skip
  else if lastIndex l <? idx then panicf "invalid commitTo index"
  else if idx <? committed l then panicf "committed value moving backwards"
  else modify (set_committed idx).

Definition commitUpdate (cu : pb.UpdateCommit) : M entryLog unit :=
  on_inmem (inMemory.commitUpdate cu) ;;
  (if 0 <? pb.uc_Processed cu then
     l ← get;
     if (pb.uc_Processed cu <? processed l) || (committed l <? pb.uc_Processed cu)
     then panicf "invalid ApplyReturnedTo"
     else modify (set_processed (pb.uc_Processed cu))
   else skip) ;;
  if 0 <? pb.uc_LastApplied cu then
    l ← get;
    if committed l <? pb.uc_LastApplied cu then panicf "invalid last applied, committed"
    else if processed l <? pb.uc_LastApplied cu
    then panicf "invalid last applied, processed"
    else on_inmem (inMemory.appliedLogTo (pb.uc_LastApplied cu))
  else skip.

Definition upToDate (idx t : Z) (l : entryLog) : result bool :=
  lt ← term (lastIndex l) l;
  if lt <=? t then
    if lt <? t then OK true else OK (lastIndex l <=? idx)
  else OK false.

Definition tryCommit (idx t : Z) : M entryLog bool :=
  l ← get;
  if idx <=? committed l then ret false
  else
    rt ← try_ (readr (term idx));
    lterm ← match rt with
            | inl lt => ret lt
            | inr ErrCompacted => ret 0
            | inr e => fail e
            end;
    if (committed l <? idx) && (lterm =? t) then commitTo idx ;; ret true
    else ret false.

Definition restore (s : pb.Snapshot) : M entryLog unit :=
  on_inmem (modify (inMemory.restore s)) ;;
  l ← get;
  if pb.ss_Index s <? committed l then panicf "committed value moving backwards"
  else modify (set_committed (pb.ss_Index s)) ;; modify (set_processed (pb.ss_Index s)).

End entryLog.
Arguments entryLog DB : clear implicits.
End entryLog.
