(* ===== verification/LogInv.v ===== *)
(** * The entry log: invariant and reads

    [lwf] is the invariant of the entry log, which is split between the log
    database and memory; [entryAt] and [termAt] are the log as one sequence.
    On a well-formed log [term] and [getEntries] read that sequence, without
    errors or panics. *)
From S2P Require Import Prelude Raftpb RateLimiter LogDB InMemory EntryLog.
Import inMemory(inMemory) entryLog(entryLog).

(** ** Runs of consecutive entries *)

Definition contig (i : Z) (es : list pb.Entry) : Prop :=
  forall k e, es !! k = Some e -> pb.e_Index e = i + Z.of_nat k.

Lemma contig_nil i : contig i [].
Proof. by intros k e. Qed.
Lemma contig_cons i e es : contig i (e :: es) <-> pb.e_Index e = i /\ contig (i + 1) es.
Proof.
  split.
  - intros Hc. split; [rewrite (Hc 0%nat e eq_refl); lia|].
    intros k e' He. rewrite (Hc (S k) e' He). lia.
  - intros [He Hc] [|k] e' Hk; simplify_eq/=; [lia|]. rewrite (Hc k e' Hk). lia.
Qed.
Lemma contig_app i es es' : contig i es -> contig (i + len es) es' -> contig i (es ++ es').
Proof.
  intros H1 H2 k e Hk. apply lookup_app_Some in Hk as [Hk|[Hl Hk]]; [by apply H1|].
  rewrite (H2 _ _ Hk). unfold len. lia.
Qed.
Lemma contig_take i n es : contig i es -> contig i (take n es).
Proof. intros Hc k e Hk. apply lookup_take_Some in Hk as [Hk _]. by apply Hc. Qed.
Lemma contig_drop i n es : contig i es -> contig (i + Z.of_nat n) (drop n es).
Proof. intros Hc k e Hk. rewrite lookup_drop in Hk. rewrite (Hc _ _ Hk). lia. Qed.
Lemma contig_last i es e : contig i es -> last es = Some e -> pb.e_Index e = i + len es - 1.
Proof.
  intros Hc Hl. rewrite last_lookup in Hl. rewrite (Hc _ _ Hl). unfold len.
  apply lookup_lt_Some in Hl. lia.
Qed.

(** Terms are positive, do not decrease and start at [t] or above. *)
Definition goodTerms (t : Z) (es : list pb.Entry) : Prop :=
  (forall k e, es !! k = Some e -> t <= pb.e_Term e /\ 0 < pb.e_Term e) /\
  (forall j k e e', (j <= k)%nat -> es !! j = Some e -> es !! k = Some e' ->
     pb.e_Term e <= pb.e_Term e').

Lemma goodTerms_drop t t' n es :
  goodTerms t es -> (forall e, es !! n = Some e -> t' <= pb.e_Term e) -> goodTerms t' (drop n es).
Proof.
  intros [H1 H2] Ht. split.
  - intros k e Hk. rewrite lookup_drop in Hk. split; [|by eapply H1].
    destruct (lookup_lt_is_Some_2 es n) as [e1 He1].
    { apply lookup_lt_Some in Hk. lia. }
    specialize (Ht _ He1). specialize (H2 n (n + k)%nat _ _ ltac:(lia) He1 Hk). lia.
  - intros j k e e' Hjk Hj Hk. rewrite !lookup_drop in *. eapply H2; [|done..]. lia.
Qed.

(** ** [limitSize] keeps a non-empty prefix *)

Lemma limitLoop_prefix es total limit : limitLoop es total limit `prefix_of` es.
Proof.
  revert total. induction es as [|e es IH]; intros total; simpl; [done|].
  destruct (_ <? _); [apply prefix_nil|by apply prefix_cons].
Qed.
Lemma limitSize_prefix es limit : limitSize es limit `prefix_of` es.
Proof. destruct es; simpl; [done|]. apply prefix_cons, limitLoop_prefix. Qed.
Lemma limitSize_nonempty es limit : es <> [] -> limitSize es limit <> [].
Proof. by destruct es. Qed.

Section log.
Context {DB : Type} `{ILogDB DB} `{!ILogDBSpec DB} `{GoRuntime}.
Abbreviation entryLog := (entryLog DB).

Abbreviation dbfirst l := (GetRange (entryLog.logdb l)).1.
Abbreviation dblast l := (GetRange (entryLog.logdb l)).2.
Abbreviation marker l := (inMemory.markerIndex (entryLog.inmem l)).
Abbreviation ents l := (inMemory.entries (entryLog.inmem l)).
Abbreviation snap l := (inMemory.snapshot (entryLog.inmem l)).

(** ** The log as one sequence *)

Definition memAt (l : entryLog) (i : Z) : option pb.Entry := ents l !! Z.to_nat (i - marker l).

Definition entryAt (l : entryLog) (i : Z) : option pb.Entry :=
  if decide (entryLog.firstIndex l <= i <= entryLog.lastIndex l)
  then if decide (marker l <= i) then memAt l i else db_entry (entryLog.logdb l) i
  else None.

(** The term of the index just before the first entry. *)
Definition baseTerm (l : entryLog) : Z :=
  match snap l with
  | Some ss => pb.ss_Term ss
  | None => db_term (entryLog.logdb l) (dbfirst l - 1)
  end.

Definition termAt (l : entryLog) (i : Z) : Z :=
  if i =? entryLog.firstIndex l - 1 then baseTerm l
  else match entryAt l i with Some e => pb.e_Term e | None => 0 end.

(** ** The invariant *)

Record lwf (l : entryLog) : Prop := {
  lw_db : db_wf (entryLog.logdb l);
  lw_contig : contig (marker l) (ents l);
  lw_marker : 1 <= marker l /\ marker l + len (ents l) < W64;
  (** no gap between the database, or a snapshot being saved, and memory *)
  lw_base :
    match snap l with
    | None => marker l <= dblast l + 1 /\ (ents l = [] -> marker l = dblast l + 1)
    | Some ss => marker l = pb.ss_Index ss + 1
    end;
  lw_commit : entryLog.firstIndex l - 1 <= entryLog.committed l <= entryLog.lastIndex l;
  lw_processed : 0 <= entryLog.processed l <= entryLog.committed l;
  (** entries up to [savedTo] are in the database *)
  lw_saved : marker l - 1 <= inMemory.savedTo (entryLog.inmem l) < marker l + len (ents l) /\
    forall i, marker l <= i <= inMemory.savedTo (entryLog.inmem l) -> dbfirst l <= i ->
      i <= dblast l /\ db_entry (entryLog.logdb l) i = memAt l i;
  (** the cached term of the last applied entry *)
  lw_applied : 0 < inMemory.appliedToIndex (entryLog.inmem l) ->
    inMemory.appliedToTerm (entryLog.inmem l) <> 0 /\
    inMemory.appliedToIndex (entryLog.inmem l) < marker l /\
    inMemory.appliedToIndex (entryLog.inmem l) <= entryLog.committed l /\
    (entryLog.firstIndex l - 1 <= inMemory.appliedToIndex (entryLog.inmem l) ->
     termAt l (inMemory.appliedToIndex (entryLog.inmem l))
       = inMemory.appliedToTerm (entryLog.inmem l));
  (** a compaction past the marker kept the term of the entry in memory *)
  lw_edge : snap l = None -> marker l < dbfirst l ->
    pb.e_Term <$> memAt l (dbfirst l - 1) = Some (db_term (entryLog.logdb l) (dbfirst l - 1));
  lw_terms : forall i j, entryLog.firstIndex l - 1 <= i <= j -> j <= entryLog.lastIndex l ->
    termAt l i <= termAt l j;
  lw_pos : forall i e, entryAt l i = Some e -> 0 < pb.e_Term e;
  lw_mempos : forall i e, memAt l i = Some e -> 0 < pb.e_Term e;
  (** nothing is processed past a snapshot that is still to be saved *)
  lw_snap : forall ss, snap l = Some ss -> 0 < pb.ss_Index ss /\ entryLog.processed l <= pb.ss_Index ss;
  (** the database is not compacted past what it holds of the log *)
  lw_stable : entryLog.firstIndex l - 1 <= inMemory.savedTo (entryLog.inmem l)
}.

Section wf.
Context (l : entryLog) (Hl : lwf l).

Lemma lwf_last : entryLog.lastIndex l = marker l + len (ents l) - 1.
Proof.
  unfold entryLog.lastIndex, inMemory.getLastIndex, inMemory.getSnapshotIndex.
  destruct (last (ents l)) as [e|] eqn:He.
  - by apply (contig_last (marker l)); [apply lw_contig|].
  - apply last_None in He. pose proof (lw_base l Hl) as Hb. rewrite He. unfold len. simpl.
    destruct (snap l); [lia|]. destruct Hb as [_ Hb]. specialize (Hb He). lia.
Qed.

Lemma lwf_first :
  entryLog.firstIndex l = (match snap l with Some _ => marker l | None => dbfirst l end).
Proof.
  unfold entryLog.firstIndex, inMemory.getSnapshotIndex.
  pose proof (lw_base l Hl) as Hb. pose proof (lw_marker l Hl).
  destruct (snap l); [|done]. rewrite add64_small; [lia|]. unfold len in *. lia.
Qed.

Lemma lwf_bounds : 1 <= entryLog.firstIndex l <= entryLog.lastIndex l + 1 /\
  entryLog.lastIndex l + 1 < W64.
Proof.
  pose proof (lw_commit l Hl). pose proof lwf_first as Hf. pose proof lwf_last.
  pose proof (lw_marker l Hl). destruct (db_range_ok _ (lw_db l Hl)).
  destruct (snap l); lia.
Qed.

(** Indexes below memory are in the database. *)
Lemma lwf_below i :
  entryLog.firstIndex l - 1 <= i < marker l ->
  (exists ss, snap l = Some ss /\ i = pb.ss_Index ss) \/
  (snap l = None /\ dbfirst l - 1 <= i <= dblast l).
Proof.
  intros Hi. pose proof lwf_first as Hf. pose proof (lw_base l Hl) as Hb.
  destruct (snap l) as [ss|]; [left; exists ss|right]; (split; [done|lia]).
Qed.

Lemma entryAt_mem i :
  marker l <= i -> entryLog.firstIndex l <= i -> entryAt l i = memAt l i.
Proof.
  intros Hi Hf. unfold entryAt. rewrite (decide_True (P := marker l <= i)) by done.
  case_decide as Hd; [done|]. unfold memAt. symmetry. apply lookup_ge_None_2.
  pose proof lwf_last. unfold len in *. lia.
Qed.

Lemma entryAt_some i :
  entryLog.firstIndex l <= i <= entryLog.lastIndex l ->
  exists e, entryAt l i = Some e /\ pb.e_Index e = i.
Proof.
  intros Hi. unfold entryAt. rewrite decide_True by done. case_decide as Hm.
  - unfold memAt. pose proof lwf_last as Hla. unfold len in Hla.
    destruct (lookup_lt_is_Some_2 (ents l) (Z.to_nat (i - marker l))) as [e He]; [lia|].
    exists e. split; [done|]. rewrite (lw_contig l Hl _ _ He). lia.
  - destruct (lwf_below i) as [(ss & Hs & ->)|[Hs Hr]]; [lia|..].
    + pose proof lwf_first as Hf. pose proof (lw_base l Hl) as Hb. rewrite Hs in *. lia.
    + pose proof lwf_first as Hf. rewrite Hs in Hf.
      destruct (db_entry_ok _ i (lw_db l Hl)) as (e & He & Hx & _); [lia|]. eauto.
Qed.

Lemma entryAt_index i e : entryAt l i = Some e -> pb.e_Index e = i.
Proof.
  intros He. destruct (decide (entryLog.firstIndex l <= i <= entryLog.lastIndex l)) as [Hd|Hd].
  - destruct (entryAt_some i Hd) as (e' & He' & Hi). congruence.
  - unfold entryAt in He. by rewrite decide_False in He.
Qed.

(** In memory, [termAt] is the term of the entry there. *)
Lemma termAt_mem i :
  marker l <= i -> entryLog.firstIndex l - 1 <= i <= entryLog.lastIndex l ->
  exists e, memAt l i = Some e /\ pb.e_Term e = termAt l i.
Proof.
  intros Hm Hi. unfold termAt. destruct (Z.eqb_spec i (entryLog.firstIndex l - 1)) as [->|Hne].
  - pose proof lwf_first as Hf. unfold baseTerm. destruct (snap l) eqn:Hs; [lia|].
    rewrite Hf in *. pose proof (lw_edge l Hl Hs) as He.
    destruct (memAt l (dbfirst l - 1)) as [e|]; simpl in He; [|by specialize (He ltac:(lia))].
    exists e. split; [done|]. specialize (He ltac:(lia)). by simplify_eq.
  - destruct (entryAt_some i) as (e & He & _); [lia|]. exists e.
    rewrite <- entryAt_mem by lia. by rewrite He.
Qed.

(** ** Terms *)

Lemma getTerm_spec i :
  entryLog.firstIndex l - 1 <= i <= entryLog.lastIndex l ->
  inMemory.getTerm i (entryLog.inmem l) = OK (Some (termAt l i)) \/
  inMemory.getTerm i (entryLog.inmem l) = OK None /\ snap l = None /\
    dbfirst l - 1 <= i <= dblast l /\ termAt l i = db_term (entryLog.logdb l) i.
Proof.
  intros Hi. unfold inMemory.getTerm.
  destruct (_ && _) eqn:Hc.
  { rewrite andb_true_iff, Z.ltb_lt, Z.eqb_eq in Hc. destruct Hc as [H0i ->].
    destruct (lw_applied l Hl H0i) as (Hn & _ & _ & Ht).
    rewrite (proj2 (Z.eqb_neq _ 0)) by done. left. rewrite Ht by lia. done. }
  clear Hc. destruct (Z.ltb_spec i (marker l)) as [Hm|Hm].
  - pose proof lwf_first as Hf. pose proof (lw_base l Hl) as Hb.
    destruct (lwf_below i) as [(ss & Hs & ->)|[Hs Hr]]; [lia|..]; rewrite Hs in *.
    + left. rewrite Z.eqb_refl. unfold termAt, baseTerm. rewrite Hs.
      by rewrite (proj2 (Z.eqb_eq _ _)) by lia.
    + right. split_and!; [done..|lia|lia|]. unfold termAt, baseTerm. rewrite Hs, Hf.
      destruct (Z.eqb_spec i (dbfirst l - 1)) as [->|Hne]; [done|].
      destruct (db_entry_ok _ i (lw_db l Hl)) as (e & He & _ & Ht); [lia|].
      unfold entryAt. rewrite decide_True, decide_False by lia. by rewrite He.
  - left. destruct (termAt_mem i) as (e & He & Ht); [lia..|].
    pose proof lwf_last as Hla. unfold inMemory.getLastIndex.
    destruct (last (ents l)) as [e'|] eqn:Hlast.
    + rewrite (contig_last _ _ _ (lw_contig l Hl) Hlast), (proj2 (Z.leb_le i _)) by lia.
      pose proof (lw_marker l Hl). rewrite sub64_small by lia.
      unfold index, nthZ. rewrite decide_True by lia. unfold memAt in He. rewrite He.
      simpl. by rewrite Ht.
    + apply last_None in Hlast. rewrite Hlast in Hla. unfold len in Hla. simpl in Hla. lia.
Qed.

Lemma term_spec i : entryLog.term i l = OK (termAt l i).
Proof.
  pose proof lwf_bounds as [Hb1 Hb2]. unfold entryLog.term, entryLog.termEntryRange.
  rewrite sub64_small by lia. destruct (_ || _) eqn:Ho.
  - rewrite orb_true_iff, !Z.ltb_lt in Ho. unfold termAt, entryAt.
    rewrite (proj2 (Z.eqb_neq _ _)), decide_False by lia. done.
  - rewrite orb_false_iff, !Z.ltb_ge in Ho.
    destruct (getTerm_spec i) as [->|(-> & Hs & Hr & Ht)]; [lia|done|].
    simpl. rewrite db_term_ok by (apply Hl || done). by rewrite Ht.
Qed.

(** ** Reading entries *)

(** [es] is the log from [low] on. *)
Definition run (low : Z) (es : list pb.Entry) : Prop :=
  forall k e, es !! k = Some e -> entryAt l (low + Z.of_nat k) = Some e.

Lemma run_prefix low es es' : es `prefix_of` es' -> run low es' -> run low es.
Proof. intros [rest ->] Hr k e Hk. apply Hr. by apply lookup_app_l_Some. Qed.
Lemma run_app low es es' : run low es -> run (low + len es) es' -> run low (es ++ es').
Proof.
  intros H1 H2 k e Hk. apply lookup_app_Some in Hk as [Hk|[Hk' Hk]]; [by apply H1|].
  rewrite <- (H2 _ _ Hk). f_equal. unfold len. lia.
Qed.
Lemma run_contig low es : run low es -> contig low es.
Proof. intros Hr k e Hk. by apply entryAt_index, Hr. Qed.

Lemma slice_mem low high :
  marker l <= low -> entryLog.firstIndex l <= low < high -> high <= entryLog.lastIndex l + 1 ->
  exists es, inMemory.getEntries low high (entryLog.inmem l) = OK es /\
    len es = high - low /\ run low es.
Proof.
  intros Hm Hlow Hhigh. pose proof lwf_last as Hla. pose proof (lw_marker l Hl) as [Hm1 Hm2].
  unfold inMemory.getEntries. rewrite add64_small by lia.
  rewrite (proj2 (Z.ltb_ge high low)), (proj2 (Z.ltb_ge low _)), (proj2 (Z.ltb_ge _ high)) by lia.
  simpl. rewrite !sub64_small by lia. unfold slice. rewrite decide_True by lia.
  eexists. split; [done|]. unfold takeZ, dropZ, len in *.
  rewrite length_take, length_drop. split; [lia|].
  intros k e Hk. apply lookup_take_Some in Hk as [Hk Hlt]. rewrite lookup_drop in Hk.
  rewrite entryAt_mem by lia. unfold memAt. rewrite <- Hk. f_equal. lia.
Qed.

Lemma getEntriesFromLogDB_spec low high mx :
  entryLog.firstIndex l <= low < high -> low < marker l -> high <= entryLog.lastIndex l + 1 ->
  0 <= mx ->
  exists es, entryLog.getEntriesFromLogDB low high mx l
      = OK (es, len es =? Z.min high (marker l) - low) /\
    0 < len es <= Z.min high (marker l) - low /\ run low es.
Proof.
  intros Hlow Hm Hhigh Hmx. unfold entryLog.getEntriesFromLogDB.
  rewrite (proj2 (Z.leb_gt (marker l) low)) by lia.
  pose proof (lw_marker l Hl). pose proof lwf_bounds.
  assert (snap l = None /\ marker l <= dblast l + 1 /\ entryLog.firstIndex l = dbfirst l)
    as (Hs & Hb & Hf).
  { pose proof lwf_first as Hf. pose proof (lw_base l Hl) as Hb. destruct (snap l); [lia|].
    destruct Hb. done. }
  destruct (db_entries_ok (entryLog.logdb l) low (Z.min high (marker l)) mx)
    as (es & He & Hlen & Hk); [apply Hl|lia|lia|done|].
  rewrite He. cbn [mbind result_bind]. exists es. rewrite sub64_small by lia.
  rewrite (proj2 (Z.ltb_ge _ (len es))) by lia. split_and!; [done|lia|lia|].
  intros k e Hke. apply lookup_lt_Some in Hke as Hlt. unfold len in *.
  specialize (Hk (Z.of_nat k) ltac:(lia)). unfold nthZ in Hk.
  rewrite decide_True, Nat2Z.id in Hk by lia. unfold entryAt.
  rewrite decide_True, decide_False by lia. congruence.
Qed.

(** Terms do not decrease from one run to the next. *)
Lemma runs_join low es es' :
  entryLog.firstIndex l <= low -> es <> [] -> run low es -> run (low + len es) es' ->
  checkEntriesToAppend es es' = OK tt.
Proof.
  intros Hlow Hne H1 H2. unfold checkEntriesToAppend.
  destruct (last es) as [e|] eqn:He; [|done]. destruct es' as [|a es']; [done|].
  assert (entryAt l (low + len es) = Some a) as Ha.
  { rewrite <- (H2 0%nat a eq_refl). f_equal. lia. }
  rewrite last_lookup in He. apply H1 in He.
  assert (low + Z.of_nat (pred (length es)) = low + len es - 1) as Hp.
  { unfold len. destruct es; [done|]. simpl. lia. }
  rewrite Hp in He. rewrite (entryAt_index _ _ He), (entryAt_index _ _ Ha).
  assert (low + len es <= entryLog.lastIndex l) as Hlast.
  { unfold entryAt in Ha. case_decide; [lia|done]. }
  pose proof lwf_bounds as [??]. assert (0 < len es) by (destruct es; [done|unfold len; simpl; lia]).
  rewrite add64_small, (proj2 (Z.eqb_eq _ _)) by lia. simpl.
  pose proof (lw_terms l Hl (low + len es - 1) (low + len es)) as Ht. unfold termAt in Ht.
  rewrite !(proj2 (Z.eqb_neq _ _)) in Ht by lia. rewrite He, Ha in Ht.
  by rewrite (proj2 (Z.ltb_ge _ _)) by (apply Ht; lia).
Qed.

Lemma getEntriesFromInMem_spec low high es0 :
  entryLog.firstIndex l <= low < high -> high <= entryLog.lastIndex l + 1 ->
  run low es0 -> len es0 = Z.max 0 (Z.min high (marker l) - low) ->
  exists es, entryLog.getEntriesFromInMem es0 low high l = OK es /\
    len es = high - low /\ run low es.
Proof.
  intros Hlow Hhigh Hrun Hlen. unfold entryLog.getEntriesFromInMem.
  destruct (Z.leb_spec high (marker l)) as [Hm|Hm]; [exists es0; split_and!; [done|lia|done]|].
  destruct (slice_mem (Z.max low (marker l)) high) as (im & Hi & Hil & Hir); [lia..|].
  rewrite Hi. cbn [mbind result_bind].
  destruct im as [|e im]; [unfold len in Hil; simpl in Hil; lia|].
  destruct es0 as [|e0 es0].
  - exists (e :: im). unfold len in Hlen. simpl in Hlen.
    replace (Z.max low (marker l)) with low in * by lia. done.
  - replace (Z.max low (marker l)) with (low + len (e0 :: es0)) in *
      by (unfold len in *; simpl in *; lia).
    rewrite (runs_join low) by (done || lia). cbn [mbind result_bind].
    eexists. split; [done|]. split; [|by apply run_app].
    unfold len in *. rewrite length_app. lia.
Qed.

Lemma getEntries_spec low high mx :
  entryLog.firstIndex l <= low < high -> high <= entryLog.lastIndex l + 1 -> 0 <= mx ->
  exists es, entryLog.getEntries low high mx l = OK es /\
    0 < len es <= high - low /\ run low es.
Proof.
  intros Hlow Hhigh Hmx. pose proof lwf_bounds as [Hb1 Hb2].
  unfold entryLog.getEntries, entryLog.checkBound, entryLog.entryRange.
  rewrite (proj2 (Z.ltb_ge high low)) by lia.
  assert (forall (x : option (Z * Z)), (snap l <> None -> ents l = [] -> False) ->
    match snap l, ents l with Some _, [] => None | _, _ => x end = x) as Hrange.
  { intros x Hx. destruct (snap l), (ents l); try done. by destruct Hx. }
  rewrite Hrange.
  2:{ intros Hs He. pose proof lwf_last as Hla. pose proof lwf_first as Hf.
      destruct (snap l); [|done]. rewrite He in Hla. unfold len in Hla. simpl in Hla. lia. }
  rewrite (proj2 (Z.ltb_ge low _)), add64_small, (proj2 (Z.ltb_ge _ high)) by lia.
  cbn [mbind result_bind]. rewrite (proj2 (Z.eqb_neq low high)) by lia.
  assert (exists es0 b, entryLog.getEntriesFromLogDB low high mx l = OK (es0, b) /\ run low es0 /\
    if b then len es0 = Z.max 0 (Z.min high (marker l) - low)
    else 0 < len es0 <= high - low) as (es0 & b & Hdb & Hrun & Hlen).
  { destruct (decide (low < marker l)).
    - destruct (getEntriesFromLogDB_spec low high mx) as (es0 & He & Hn & Hr); [done..|].
      eexists es0, _. split; [exact He|]. split; [done|].
      destruct (Z.eqb_spec (len es0) (Z.min high (marker l) - low)); lia.
    - exists [], true. unfold entryLog.getEntriesFromLogDB.
      rewrite (proj2 (Z.leb_le _ low)) by lia. split_and!; [done|by intros k e|].
      unfold len. simpl. lia. }
  rewrite Hdb. cbn [mbind result_bind]. destruct b; simpl; [|eauto].
  destruct (getEntriesFromInMem_spec low high es0) as (es & He & Hn & Hr); [done..|].
  rewrite He. cbn [mbind result_bind]. eexists. split; [done|].
  pose proof (limitSize_prefix es mx) as Hp. split; [|by eapply run_prefix].
  assert (limitSize es mx <> []) as Hne.
  { apply limitSize_nonempty. intros ->. unfold len in Hn. simpl in Hn. lia. }
  apply prefix_length in Hp. unfold len in *.
  destruct (limitSize es mx); [done|]. simpl in *. lia.
Qed.

End wf.
End log.
