(* ===== verification/LogWrite.v ===== *)
(** * The entry log: appends, commits and snapshots

    On the log seen as one sequence ([entryAt]), [append] overwrites a suffix,
    [tryAppend] appends from the first conflict, [restore] starts the log
    anew after a snapshot.  Each keeps the invariant [lwf] and none panics where
    its precondition holds. *)
From S2P Require Import Prelude Raftpb RateLimiter LogDB InMemory EntryLog LogInv.
Import inMemory(inMemory) entryLog(entryLog).

Section merge.
Context `{GoRuntime}.

(** The part of the in-memory log below index [i], followed by [es]. *)
Definition overwrite (i : Z) (es : list pb.Entry) (im : inMemory) : list pb.Entry :=
  take (Z.to_nat (i - inMemory.markerIndex im)) (inMemory.entries im) ++ es.

(** The effect of [merge], up to slice allocation and rate limiting. *)
Record merged (i : Z) (es : list pb.Entry) (im im' : inMemory) : Prop := {
  mg_entries : inMemory.entries im' = overwrite i es im;
  mg_marker : inMemory.markerIndex im' = Z.min i (inMemory.markerIndex im);
  mg_saved : inMemory.savedTo im' = Z.min (inMemory.savedTo im) (i - 1);
  mg_snapshot : inMemory.snapshot im' = inMemory.snapshot im;
  mg_appliedIndex : inMemory.appliedToIndex im' = inMemory.appliedToIndex im;
  mg_appliedTerm : inMemory.appliedToTerm im' = inMemory.appliedToTerm im
}.

Lemma resizeEntrySlice_same im :
  let im' := inMemory.resizeEntrySlice im in
  inMemory.entries im' = inMemory.entries im /\
  inMemory.markerIndex im' = inMemory.markerIndex im /\
  inMemory.savedTo im' = inMemory.savedTo im /\
  inMemory.snapshot im' = inMemory.snapshot im /\
  inMemory.appliedToIndex im' = inMemory.appliedToIndex im /\
  inMemory.appliedToTerm im' = inMemory.appliedToTerm im.
Proof. unfold inMemory.resizeEntrySlice. by destruct (_ && _). Qed.

Lemma checkMarkerIndex_ok im :
  contig (inMemory.markerIndex im) (inMemory.entries im) ->
  inMemory.checkMarkerIndex im = OK tt.
Proof.
  intros Hc. unfold inMemory.checkMarkerIndex. destruct (inMemory.entries im) as [|e es]; [done|].
  apply contig_cons in Hc as [-> _]. by rewrite Z.eqb_refl.
Qed.

Lemma checkEntriesToAppend_ok m es i es' :
  contig m es -> contig i es' -> m + len es = i -> 0 <= m -> i < W64 ->
  (forall e e', last es = Some e -> head es' = Some e' -> pb.e_Term e <= pb.e_Term e') ->
  checkEntriesToAppend es es' = OK tt.
Proof.
  intros Hc Hi Hm H0 Hw Ht. unfold checkEntriesToAppend.
  destruct (last es) as [e|] eqn:Hlast; [|done]. destruct es' as [|e' es']; [done|].
  apply contig_cons in Hi as [Hi _].
  rewrite (contig_last _ _ _ Hc Hlast), Hi.
  assert (0 < len es) by (destruct es; [done|unfold len; simpl; lia]).
  rewrite add64_small, (proj2 (Z.eqb_eq _ _)) by lia. simpl.
  by rewrite (proj2 (Z.ltb_ge _ _)) by (by apply Ht).
Qed.

Lemma overwrite_contig im i es :
  contig (inMemory.markerIndex im) (inMemory.entries im) -> contig i es ->
  i <= inMemory.markerIndex im + len (inMemory.entries im) ->
  contig (Z.min i (inMemory.markerIndex im)) (overwrite i es im).
Proof.
  intros Hc Hes Hi. unfold overwrite. destruct (decide (i <= inMemory.markerIndex im)).
  - rewrite Z.min_l by lia.
    replace (Z.to_nat (i - inMemory.markerIndex im)) with 0%nat by lia. by rewrite take_0.
  - rewrite Z.min_r by lia. apply contig_app; [by apply contig_take|].
    unfold len in *. rewrite length_take.
    replace (inMemory.markerIndex im + _) with i by lia. done.
Qed.

Section merge_spec.
Context (im : inMemory) (i : Z) (e0 : pb.Entry) (es' : list pb.Entry).
Let es := e0 :: es'.
Abbreviation marker := (inMemory.markerIndex im).
Abbreviation old := (inMemory.entries im).
Context (Hc : contig marker old) (Hes : contig i es)
  (Hm : 1 <= marker) (Hw : marker + len old < W64) (Hi : 1 <= i <= marker + len old)
  (Hwi : i + len es < W64)
  (Hsaved : marker - 1 <= inMemory.savedTo im < marker + len old)
  (Hterm : forall e, old !! Z.to_nat (i - 1 - marker) = Some e -> marker < i ->
     pb.e_Term e <= pb.e_Term e0).

Lemma last_below e :
  marker < i -> last (take (Z.to_nat (i - marker)) old) = Some e -> pb.e_Term e <= pb.e_Term e0.
Proof.
  intros Hlt Hlast. apply Hterm; [|done]. rewrite last_lookup in Hlast.
  apply lookup_take_Some in Hlast as [Hlast _]. rewrite <- Hlast. f_equal.
  rewrite length_take. unfold len in *. lia.
Qed.

Lemma rl_when_merged b f im' :
  merged i es im im' ->
  wp no_panic (when b (modify (inMemory.modify_rl f)))
    (fun _ => merged i es im) (fun _ _ => False) im'.
Proof. intros [????? ?]. destruct b; by split. Qed.

(** [merge] overwrites the entries from the first new one on. *)
Lemma merge_wp : wp no_panic (inMemory.merge es) (fun _ => merged i es im) (fun _ _ => False) im.
Proof.
  destruct (resizeEntrySlice_same im) as (R1 & R2 & R3 & R4 & R5 & R6).
  pose proof (overwrite_contig im i es Hc Hes (proj2 Hi)) as Hcontig. pose proof Hes as Hes'. apply contig_cons in Hes' as [He0 _].
  unfold inMemory.merge. apply wp_bind, wp_readr.
  change (index es 0) with (@OK pb.Entry e0). cbv beta iota zeta. rewrite He0. apply wp_bind, wp_modify, wp_bind. unfold wp at 1, get.
  set (im1 := inMemory.resizeEntrySlice im) in *. apply wp_bind.
  eapply (wp_mono _ _ (fun _ => merged i es im) _ (fun _ _ => False)); [|intros _ im2 Hmg|done].
  2:{ apply wp_readr. rewrite checkMarkerIndex_ok; [done|].
      destruct Hmg as [-> -> _ _ _ _]. exact Hcontig. }
  rewrite R1, R2, add64_small by lia. unfold overwrite in *.
  destruct (Z.eqb_spec i (marker + len old)) as [Heq|Hne].
  - apply wp_bind, wp_readr. rewrite R1.
    rewrite (checkEntriesToAppend_ok marker _ i);
      [|done|done|done|lia|lia|].
    2:{ intros e ? Hlast [= <-]. destruct (decide (marker < i)) as [Hlt|Hlt].
        - apply (last_below e Hlt). rewrite take_ge; [done|]. unfold len in *. lia.
        - unfold len in *. destruct old; [done|]. simpl in *. lia. }
    apply wp_bind, wp_modify, rl_when_merged. split; simpl; try done; try lia.
    + unfold overwrite. rewrite take_ge; [done|]. unfold len in *. lia.
  - destruct (Z.leb_spec i marker) as [Hle|Hgt].
    + do 4 apply wp_bind, wp_modify. apply rl_when_merged. split; simpl; try done.
      * unfold overwrite. by replace (Z.to_nat (i - marker)) with 0%nat by lia.
      * lia.
      * rewrite sub64_small; lia.
    + apply wp_bind, wp_readr. unfold inMemory.getEntries. rewrite R1, R2.
      rewrite (proj2 (Z.ltb_ge i marker)), Z.ltb_irrefl, add64_small,
        (proj2 (Z.ltb_ge _ i)) by lia. simpl.
      rewrite !sub64_small by lia. unfold slice. rewrite decide_True by lia.
      replace (takeZ _ _) with (take (Z.to_nat (i - marker)) old)
        by (unfold takeZ, dropZ; rewrite Z.sub_diag, Z.sub_0_r; done).
      apply wp_bind, wp_readr. rewrite (checkEntriesToAppend_ok marker _ i);
        [|by apply contig_take|done| |lia|lia|intros e ? Hlast [= <-]; by apply last_below].
      2:{ unfold len in *. rewrite length_take. lia. }
      do 3 apply wp_bind, wp_modify. apply rl_when_merged. split; simpl; try done; lia.
Qed.

Lemma merge_spec : exists im', inMemory.merge es im = Ret tt im' /\ merged i es im im'.
Proof.
  pose proof merge_wp as Hmw. unfold wp in Hmw.
  destruct (inMemory.merge es im) as [[] im'| |]; [eauto|done..].
Qed.

End merge_spec.
End merge.

(** ** Appending *)

Section log.
Context {DB : Type} `{ILogDB DB} `{!ILogDBSpec DB} `{GoRuntime}.
Abbreviation entryLog := (entryLog DB).
Abbreviation dbfirst l := (GetRange (entryLog.logdb l)).1.
Abbreviation dblast l := (GetRange (entryLog.logdb l)).2.
Abbreviation marker l := (inMemory.markerIndex (entryLog.inmem l)).
Abbreviation ents l := (inMemory.entries (entryLog.inmem l)).
Abbreviation snap l := (inMemory.snapshot (entryLog.inmem l)).

(** [l'] is [l] with the log from index [i] on replaced by [es]. *)
Record appended (i : Z) (es : list pb.Entry) (l l' : entryLog) : Prop := {
  ap_last : entryLog.lastIndex l' = i + len es - 1;
  ap_first : entryLog.firstIndex l' = entryLog.firstIndex l;
  ap_base : baseTerm l' = baseTerm l;
  ap_old : forall j, j < i -> entryAt l' j = entryAt l j;
  ap_new : forall j, i <= j -> entryAt l' j = es !! Z.to_nat (j - i);
  ap_commit : entryLog.committed l' = entryLog.committed l;
  ap_processed : entryLog.processed l' = entryLog.processed l
}.

Lemma append_cons e0 es' (l : entryLog) im' :
  entryLog.committed l < pb.e_Index e0 ->
  inMemory.merge (e0 :: es') (entryLog.inmem l) = Ret tt im' ->
  entryLog.append (e0 :: es') l = Ret tt (entryLog.set_inmem im' l).
Proof.
  intros Hi Hm. unfold entryLog.append, mbind, M_bind, get, entryLog.on_inmem, zoom.
  by rewrite (proj2 (Z.leb_gt _ _)), Hm by lia.
Qed.

Section append.
Context (l : entryLog) (Hl : lwf l) (i : Z) (es : list pb.Entry).
Context (Hne : es <> []) (Hes : contig i es) (Hgood : goodTerms (termAt l (i - 1)) es)
  (Hi : entryLog.committed l < i <= entryLog.lastIndex l + 1) (Hw : i + len es < W64).

Section merged.
Context (im' : inMemory) (Hmg : merged i es (entryLog.inmem l) im').
Let l' := entryLog.set_inmem im' l.

Lemma append_pos : 0 < len es.
Proof. destruct es; [done|unfold len; simpl; lia]. Qed.

Lemma first_le : 1 <= entryLog.firstIndex l <= i.
Proof. pose proof (lwf_bounds l Hl). pose proof (lw_commit l Hl). lia. Qed.

Lemma append_marker : marker l' = Z.min i (marker l).
Proof. apply Hmg. Qed.

Lemma append_len : marker l' + len (ents l') = i + len es.
Proof.
  rewrite append_marker. unfold l'. simpl. rewrite (mg_entries _ _ _ _ Hmg). unfold overwrite, len.
  rewrite length_app, length_take. pose proof (lwf_last l Hl) as Hla. unfold len in *. lia.
Qed.

Lemma append_firstIndex : entryLog.firstIndex l' = entryLog.firstIndex l.
Proof.
  unfold entryLog.firstIndex, inMemory.getSnapshotIndex, l'. simpl.
  by rewrite (mg_snapshot _ _ _ _ Hmg).
Qed.

Lemma append_contig : contig (marker l') (ents l').
Proof.
  rewrite append_marker. unfold l'. simpl. rewrite (mg_entries _ _ _ _ Hmg).
  pose proof (lw_marker l Hl) as [??]. pose proof (lwf_last l Hl).
  apply overwrite_contig; [apply Hl|done|]. pose proof first_le. lia.
Qed.

Lemma append_lastIndex : entryLog.lastIndex l' = i + len es - 1.
Proof.
  pose proof append_len as Hlen. pose proof append_pos.
  unfold entryLog.lastIndex, inMemory.getLastIndex.
  destruct (last (ents l')) as [e|] eqn:Hlast.
  - rewrite (contig_last _ _ _ append_contig Hlast). lia.
  - apply last_None in Hlast. unfold l' in Hlast. simpl in Hlast.
    rewrite (mg_entries _ _ _ _ Hmg) in Hlast. apply app_nil in Hlast as [_ ?]. done.
Qed.

Lemma append_memAt_old j : marker l <= j < i -> memAt l' j = memAt l j.
Proof.
  intros Hj. unfold memAt. rewrite append_marker. unfold l'. simpl.
  rewrite (mg_entries _ _ _ _ Hmg). unfold overwrite. rewrite Z.min_r by lia.
  pose proof (lwf_last l Hl) as Hla. unfold len in Hla.
  rewrite lookup_app_l by (rewrite length_take; lia). apply lookup_take_lt. lia.
Qed.

Lemma append_old j : j < i -> entryAt l' j = entryAt l j.
Proof.
  intros Hj. unfold entryAt. rewrite append_firstIndex, append_lastIndex. pose proof append_pos.
  destruct (decide (entryLog.firstIndex l <= j)) as [Hf|Hf];
    [|rewrite !decide_False by lia; done].
  rewrite !(decide_True (P := _ <= j <= _)) by lia. rewrite append_marker.
  destruct (decide (marker l <= j)).
  - rewrite decide_True by lia. apply append_memAt_old. lia.
  - by rewrite decide_False by lia.
Qed.

Lemma append_new j : i <= j -> entryAt l' j = es !! Z.to_nat (j - i).
Proof.
  intros Hj. unfold entryAt. rewrite append_firstIndex, append_lastIndex. pose proof first_le.
  case_decide as Hd.
  - rewrite append_marker, decide_True by lia. unfold memAt. rewrite append_marker.
    unfold l'. simpl. rewrite (mg_entries _ _ _ _ Hmg). unfold overwrite.
    pose proof (lwf_last l Hl) as Hla. unfold len in *.
    rewrite lookup_app_r by (rewrite length_take; lia). f_equal. rewrite length_take. lia.
  - symmetry. apply lookup_ge_None_2. unfold len in *. lia.
Qed.

Lemma append_base : baseTerm l' = baseTerm l.
Proof. unfold baseTerm, l'. simpl. by rewrite (mg_snapshot _ _ _ _ Hmg). Qed.

Lemma append_termAt_old j : j < i -> termAt l' j = termAt l j.
Proof.
  intros Hj. unfold termAt. by rewrite append_firstIndex, append_base, append_old.
Qed.

Lemma append_termAt_new j :
  i <= j <= i + len es - 1 ->
  exists e, es !! Z.to_nat (j - i) = Some e /\ termAt l' j = pb.e_Term e.
Proof.
  intros Hj. destruct (lookup_lt_is_Some_2 es (Z.to_nat (j - i))) as [e He].
  { unfold len in *. lia. }
  exists e. split; [done|]. unfold termAt. pose proof first_le.
  rewrite append_firstIndex, append_new, He by lia. by rewrite (proj2 (Z.eqb_neq _ _)) by lia.
Qed.

Lemma append_terms j k :
  entryLog.firstIndex l - 1 <= j <= k -> k <= i + len es - 1 -> termAt l' j <= termAt l' k.
Proof.
  intros Hj Hk. destruct Hgood as [Hg1 Hg2]. destruct (decide (k < i)) as [Hki|Hki].
  { rewrite !append_termAt_old by lia. apply Hl; lia. }
  destruct (append_termAt_new k) as (e & He & ->); [lia|].
  destruct (decide (j < i)) as [Hji|Hji].
  - rewrite append_termAt_old by lia. destruct (Hg1 _ _ He) as [Ht _].
    pose proof (lw_terms l Hl j (i - 1)). lia.
  - destruct (append_termAt_new j) as (e' & He' & ->); [lia|].
    eapply Hg2; [|done..]. lia.
Qed.

Lemma append_lwf : lwf l'.
Proof.
  pose proof append_pos as Hpos. pose proof first_le as Hfl. pose proof append_len as Hlen.
  pose proof (lwf_last l Hl) as Hla. pose proof (lwf_first l Hl) as Hfi.
  pose proof append_marker as Hm. pose proof (lw_marker l Hl) as [Hm1 Hm2].
  pose proof (lw_commit l Hl) as Hcm.
  assert (inMemory.savedTo (entryLog.inmem l') = Z.min (inMemory.savedTo (entryLog.inmem l)) (i - 1))
    as Hsv by apply Hmg.
  split.
  - apply Hl.
  - apply append_contig.
  - lia.
  - pose proof (lw_base l Hl) as Hb. unfold l' in Hlen, Hm |- *. simpl in *.
    rewrite (mg_snapshot _ _ _ _ Hmg). destruct (snap l); [lia|]. split; [lia|].
    intros He. rewrite (mg_entries _ _ _ _ Hmg) in He. by apply app_nil in He as [_ ?].
  - rewrite append_firstIndex, append_lastIndex. simpl. lia.
  - apply Hl.
  - destruct (lw_saved l Hl) as [Hs1 Hs2]. rewrite Hsv, Hlen, Hm. split; [lia|].
    intros j Hj Hf. rewrite append_memAt_old by lia. apply Hs2; [lia|done].
  - simpl. rewrite (mg_appliedIndex _ _ _ _ Hmg), (mg_appliedTerm _ _ _ _ Hmg).
    rewrite append_firstIndex. intros H0i.
    destruct (lw_applied l Hl H0i) as (?&?&?&Ht). rewrite (mg_marker _ _ _ _ Hmg).
    split_and!; [done|lia|done|]. intros Hf. rewrite append_termAt_old by lia. by apply Ht.
  - simpl. rewrite (mg_snapshot _ _ _ _ Hmg), (mg_marker _ _ _ _ Hmg). intros Hs Hlt.
    rewrite Hs in Hfi. rewrite append_memAt_old by lia. apply Hl; [done|lia].
  - intros j k. rewrite append_firstIndex, append_lastIndex. apply append_terms.
  - intros j e He. destruct (decide (j < i)).
    + rewrite append_old in He by done. by eapply Hl.
    + rewrite append_new in He by lia. by eapply Hgood.
  - intros j e He. unfold memAt in He. simpl in He. rewrite (mg_entries _ _ _ _ Hmg) in He.
    unfold overwrite in He. apply lookup_app_Some in He as [He|[_ He]]; [|by eapply Hgood].
    apply lookup_take_Some in He as [He _].
    eapply (lw_mempos l Hl (marker l + Z.of_nat (Z.to_nat (j - marker l')))). unfold memAt.
    rewrite <- He. f_equal. unfold l'. simpl. lia.
  - simpl. rewrite (mg_snapshot _ _ _ _ Hmg). apply Hl.
  - rewrite append_firstIndex, Hsv. pose proof (lw_stable l Hl). lia.
Qed.

Lemma merged_appended : appended i es l l'.
Proof.
  split; [apply append_lastIndex|apply append_firstIndex|apply append_base|
    apply append_old|apply append_new|done|done].
Qed.

End merged.

Lemma append_spec : exists l', entryLog.append es l = Ret tt l' /\ lwf l' /\ appended i es l l'.
Proof.
  assert (exists e0 es', es = e0 :: es') as (e0 & es' & Heq).
  { pose proof Hne. destruct es; [done|eauto]. }
  assert (contig i (e0 :: es')) as Hes1 by (by rewrite <- Heq).
  assert (pb.e_Index e0 = i) as He0 by (by apply contig_cons in Hes1 as [? _]).
  destruct (merge_spec (entryLog.inmem l) i e0 es') as (im' & Hm & Hmg); rewrite <- ?Heq; try done.
  - apply Hl.
  - apply Hl.
  - apply Hl.
  - pose proof (lwf_last l Hl). pose proof first_le. lia.
  - apply Hl.
  - intros e He Hlt. pose proof (lwf_last l Hl). pose proof (lw_commit l Hl).
    destruct (termAt_mem l Hl (i - 1)) as (e1 & He1 & Ht1); [lia..|].
    unfold memAt in He1. rewrite He in He1. injection He1 as ->. rewrite Ht1.
    apply (proj1 Hgood 0%nat e0). by rewrite Heq.
  - rewrite <- Heq in Hm, Hmg. exists (entryLog.set_inmem im' l).
    split; [|by split; [apply append_lwf|apply merged_appended]].
    rewrite Heq in Hm |- *. apply append_cons; [lia|done].
Qed.

End append.
(** ** Appending the entries of a leader *)

Lemma termAt_pos (l : entryLog) j :
  0 < termAt l j -> entryLog.firstIndex l - 1 <= j <= Z.max (entryLog.lastIndex l) (entryLog.firstIndex l - 1).
Proof.
  unfold termAt, entryAt. destruct (Z.eqb_spec j (entryLog.firstIndex l - 1)); [lia|].
  case_decide; [lia|]. lia.
Qed.

(** [getConflictIndex] returns the index of the first entry the log does not
    have, 0 if it has them all. *)
Lemma getConflictIndex_spec (l : entryLog) es :
  lwf l -> exists n, 
    (forall k e, (k < n)%nat -> es !! k = Some e -> termAt l (pb.e_Index e) = pb.e_Term e) /\
    (n = length es /\ entryLog.getConflictIndex es l = OK 0 \/
     exists e, es !! n = Some e /\ termAt l (pb.e_Index e) <> pb.e_Term e /\
       entryLog.getConflictIndex es l = OK (pb.e_Index e)).
Proof.
  intros Hl. induction es as [|e es (n & Hm & Hn)]; simpl.
  { exists 0%nat. split; [lia|]. by left. }
  unfold entryLog.matchTerm. rewrite (term_spec l Hl). cbn [mbind result_bind].
  destruct (Z.eqb_spec (termAt l (pb.e_Index e)) (pb.e_Term e)) as [Heq|Hne]; simpl.
  - exists (S n). split.
    + intros [|k] e' Hk He'; simplify_eq/=; [done|]. eapply Hm; [|done]. lia.
    + destruct Hn as [[-> ->]|(e' & He' & Hne & ->)]; [by left|right; eauto].
  - exists 0%nat. split; [lia|]. right. eauto.
Qed.

Section tryAppend.
Context (l : entryLog) (Hl : lwf l) (idx : Z) (es : list pb.Entry).
Context (Hes : contig (idx + 1) es) (Hgood : goodTerms (termAt l idx) es)
  (Hidx : entryLog.committed l <= idx <= entryLog.lastIndex l)
  (Hw : idx + 1 + len es < W64).

(** The effect of [tryAppend]: nothing when the log has every entry, otherwise
    an append from the first one it does not have, entry number [n]. *)
Definition accepted (b : bool) (l' : entryLog) : Prop :=
  lwf l' /\
  (forall k e, es !! k = Some e -> termAt l' (pb.e_Index e) = pb.e_Term e) /\
  if b then exists n, (n < length es)%nat /\ appended (idx + 1 + Z.of_nat n) (drop n es) l l'
  else l' = l.

Lemma conflict_append n e :
  (forall k e, (k < n)%nat -> es !! k = Some e -> termAt l (pb.e_Index e) = pb.e_Term e) ->
  es !! n = Some e ->
  exists l', entryLog.append (drop n es) l = Ret tt l' /\ lwf l' /\
    appended (idx + 1 + Z.of_nat n) (drop n es) l l'.
Proof.
  intros Hm He. apply append_spec; [done|..].
  - intros Hnil. apply lookup_lt_Some in He. apply (f_equal length) in Hnil.
    rewrite length_drop in Hnil. simpl in Hnil. lia.
  - by apply contig_drop.
  - apply (goodTerms_drop (termAt l idx)); [done|]. intros e' He'.
    destruct n as [|n].
    { replace (idx + 1 + Z.of_nat 0 - 1) with idx by lia. by apply (proj1 Hgood 0%nat). }
    destruct (lookup_lt_is_Some_2 es n) as [e1 He1]; [apply lookup_lt_Some in He; lia|].
    replace (idx + 1 + Z.of_nat (S n) - 1) with (pb.e_Index e1) by (rewrite (Hes _ _ He1); lia).
    rewrite (Hm n e1) by (lia || done). eapply (proj2 Hgood n (S n)); [lia|done..].
  - assert (idx + Z.of_nat n <= entryLog.lastIndex l); [|pose proof (lw_commit l Hl); lia].
    destruct n as [|n]; [lia|].
    destruct (lookup_lt_is_Some_2 es n) as [e1 He1]; [apply lookup_lt_Some in He; lia|].
    pose proof (Hm n e1 ltac:(lia) He1) as Ht. destruct (proj1 Hgood _ _ He1) as [_ Hpos].
    rewrite <- Ht in Hpos. apply termAt_pos in Hpos. rewrite (Hes _ _ He1) in Hpos.
    pose proof (lw_commit l Hl). lia.
  - unfold len in *. rewrite length_drop. apply lookup_lt_Some in He. lia.
Qed.

Lemma appended_terms n l' :
  (forall k e, (k < n)%nat -> es !! k = Some e -> termAt l (pb.e_Index e) = pb.e_Term e) ->
  lwf l' -> appended (idx + 1 + Z.of_nat n) (drop n es) l l' ->
  forall k e, es !! k = Some e -> termAt l' (pb.e_Index e) = pb.e_Term e.
Proof.
  intros Hm Hl' Ha k e He. pose proof (lw_commit l Hl). rewrite (Hes _ _ He).
  destruct (decide (k < n)%nat) as [Hk|Hk].
  - rewrite <- (Hm k e Hk He), (Hes _ _ He). unfold termAt.
    rewrite (ap_first _ _ _ _ Ha), (ap_base _ _ _ _ Ha), (ap_old _ _ _ _ Ha) by lia. done.
  - unfold termAt. rewrite (ap_first _ _ _ _ Ha), (ap_new _ _ _ _ Ha), lookup_drop by lia.
    rewrite (proj2 (Z.eqb_neq _ _)) by lia.
    replace (n + _)%nat with k by lia. by rewrite He.
Qed.

Lemma tryAppend_spec : exists b l', entryLog.tryAppend idx es l = Ret b l' /\ accepted b l'.
Proof.
  destruct (getConflictIndex_spec l es Hl) as (n & Hm & Hn).
  pose proof (lw_commit l Hl) as Hc. pose proof (lwf_bounds l Hl) as [Hb _].
  unfold entryLog.tryAppend, mbind, M_bind, readr, get.
  destruct Hn as [[-> ->]|(e & He & Hne & ->)].
  - exists false, l. split; [done|]. split_and!; [done| |done].
    intros k e He. apply (Hm k e); [|done]. by apply lookup_lt_Some in He.
  - destruct (conflict_append n e Hm He) as (l' & Ha & Hl' & Hap).
    exists true, l'. rewrite (Hes _ _ He). apply lookup_lt_Some in He.
    rewrite (proj2 (Z.eqb_neq _ 0)) by lia. cbn [negb].
    rewrite (proj2 (Z.leb_gt _ _)) by lia. unfold len in Hw.
    assert (idx + 1 + Z.of_nat n -ᵤ idx -ᵤ 1 = Z.of_nat n) as -> by lia64. unfold slice, len.
    rewrite decide_True by lia. replace (takeZ _ _) with (drop n es).
    { rewrite Ha. split; [done|]. split_and!; [done| |eauto]. by apply (appended_terms n). }
    unfold takeZ, dropZ. rewrite Nat2Z.id.
    symmetry. apply take_ge. rewrite length_drop. lia.
Qed.

End tryAppend.

(** ** Commits, snapshots and comparisons *)

Lemma commit_lwf (l : entryLog) i :
  lwf l -> entryLog.committed l <= i <= entryLog.lastIndex l ->
  lwf (entryLog.set_committed i l).
Proof.
  intros [? ? ? ? Hc ? ? Ha ? ? ? ? ? ?] Hi. split; try done.
  - simpl. change (entryLog.firstIndex (entryLog.set_committed i l)) with (entryLog.firstIndex l).
    change (entryLog.lastIndex (entryLog.set_committed i l)) with (entryLog.lastIndex l). lia.
  - simpl. lia.
  - intros H0i. destruct (Ha H0i) as (?&?&?&?). split_and!; try done. simpl. lia.
Qed.

Lemma restore_lwf (l l' : entryLog) ss :
  lwf l -> 0 < pb.ss_Term ss -> 1 <= pb.ss_Index ss -> pb.ss_Index ss + 1 < W64 ->
  l' = entryLog.set_processed (pb.ss_Index ss) (entryLog.set_committed (pb.ss_Index ss)
         (entryLog.set_inmem (inMemory.restore ss (entryLog.inmem l)) l)) ->
  lwf l' /\ entryLog.firstIndex l' = pb.ss_Index ss + 1 /\
  entryLog.lastIndex l' = pb.ss_Index ss /\ termAt l' (pb.ss_Index ss) = pb.ss_Term ss.
Proof.
  intros Hl Ht Hi Hw ->. set (l' := entryLog.set_processed _ _).
  assert (exists rl, entryLog.inmem l' = inMemory.mkInMemory (Some ss) rl [] 0 (pb.ss_Index ss)
    (pb.ss_Index ss + 1) (pb.ss_Index ss) (pb.ss_Term ss) false) as [rl Him].
  { unfold l', inMemory.restore. simpl. rewrite add64_small by lia.
    destruct (inMemory.rateLimited _); eexists; reflexivity. }
  assert (entryLog.firstIndex l' = pb.ss_Index ss + 1) as Hf.
  { unfold entryLog.firstIndex. rewrite Him. simpl. rewrite add64_small; lia. }
  assert (entryLog.lastIndex l' = pb.ss_Index ss) as Hla.
  { unfold entryLog.lastIndex. by rewrite Him. }
  assert (termAt l' (pb.ss_Index ss) = pb.ss_Term ss) as Hta.
  { unfold termAt, baseTerm. rewrite Hf, Him. by rewrite (proj2 (Z.eqb_eq _ _)) by lia. }
  split; [|done]. split; rewrite ?Him, ?Hf, ?Hla; simpl.
  - apply Hl.
  - apply contig_nil.
  - unfold len. simpl. lia.
  - done.
  - lia.
  - lia.
  - unfold len. simpl. split; [lia|]. intros; lia.
  - intros _. split_and!; [lia..|]. intros _. exact Hta.
  - done.
  - intros j k Hj Hk. by replace k with j by lia.
  - intros j e. unfold entryAt. rewrite Hf, Hla. by rewrite decide_False by lia.
  - intros j e. unfold memAt. by rewrite Him.
  - intros ss' [= <-]. lia.
  - lia.
Qed.

(** [upToDate] compares the last entries, term first. *)
Lemma upToDate_spec (l : entryLog) idx t :
  lwf l -> entryLog.upToDate idx t l =
    OK ((termAt l (entryLog.lastIndex l) <? t) ||
        (termAt l (entryLog.lastIndex l) =? t) && (entryLog.lastIndex l <=? idx)).
Proof.
  intros Hl. unfold entryLog.upToDate. rewrite (term_spec l Hl). cbn [mbind result_bind].
  set (lt := termAt l _). destruct (Z.leb_spec lt t), (Z.ltb_spec lt t), (Z.eqb_spec lt t);
    try lia; done.
Qed.

(** [tryCommit] moves the commit index to [i] when it is ahead of the current
    one and its entry is of term [t]. *)
Lemma logTryCommit_spec (l : entryLog) i t :
  lwf l -> 0 < t -> entryLog.tryCommit i t l =
    if (entryLog.committed l <? i) && (termAt l i =? t)
    then Ret true (entryLog.set_committed i l) else Ret false l.
Proof.
  intros Hl Ht. unfold entryLog.tryCommit, mbind, M_bind, get, try_, readr.
  destruct (Z.leb_spec i (entryLog.committed l)) as [Hi|Hi].
  { by rewrite (proj2 (Z.ltb_ge _ i)) by lia. }
  rewrite (term_spec l Hl), (proj2 (Z.ltb_lt _ i)) by lia. unfold ret. cbn [andb].
  destruct (Z.eqb_spec (termAt l i) t) as [He|He]; [|done].
  assert (i <= entryLog.lastIndex l).
  { assert (0 < termAt l i) as Hp by lia. apply termAt_pos in Hp.
    pose proof (lw_commit l Hl). lia. }
  unfold entryLog.commitTo, mbind, M_bind, get.
  rewrite (proj2 (Z.leb_gt i _)), (proj2 (Z.ltb_ge _ i)), (proj2 (Z.ltb_ge i _)) by lia. done.
Qed.

(** ** The initial log *)

(** Terms in the database are positive and do not decrease. *)
Definition dbTerms (db : DB) : Prop :=
  (forall i j, (GetRange db).1 - 1 <= i <= j -> j <= (GetRange db).2 -> db_term db i <= db_term db j) /\
  (forall i, (GetRange db).1 <= i <= (GetRange db).2 -> 0 < db_term db i).

Lemma newEntryLog_lwf (db : DB) rl :
  db_wf db -> dbTerms db -> lwf (entryLog.newEntryLog db rl) /\
  (forall i, termAt (entryLog.newEntryLog db rl) i =
     if decide ((GetRange db).1 - 1 <= i <= (GetRange db).2) then db_term db i else 0).
Proof.
  intros Hdb [Hmono Hpos]. destruct (db_range_ok db Hdb) as [Hr1 Hr2].
  set (l := entryLog.newEntryLog db rl). destruct (GetRange db) as [f la] eqn:Hr. simpl in *.
  assert (l = entryLog.mkEntryLog db (inMemory.newInMemory la rl) (f - 1) (f - 1)) as Hl.
  { unfold l, entryLog.newEntryLog. rewrite Hr. by rewrite sub64_small by lia. }
  assert (entryLog.firstIndex l = f) as Hf by (rewrite Hl; unfold entryLog.firstIndex; simpl; by rewrite Hr).
  assert (entryLog.lastIndex l = la) as Hla by (rewrite Hl; unfold entryLog.lastIndex; simpl; by rewrite Hr).
  assert (marker l = la + 1) as Hm by (rewrite Hl; simpl; rewrite add64_small; lia).
  assert (forall i, f <= i <= la -> exists e, entryAt l i = Some e /\ pb.e_Term e = db_term db i) as He.
  { intros i Hi. unfold entryAt. rewrite Hf, Hla, Hm, decide_True, decide_False by lia.
    rewrite Hl. simpl. destruct (db_entry_ok db i Hdb) as (e & He & _ & Ht); [rewrite Hr; simpl; lia|].
    eauto. }
  assert (forall i, termAt l i = if decide (f - 1 <= i <= la) then db_term db i else 0) as Hta.
  { intros i. unfold termAt, baseTerm. rewrite Hf. destruct (Z.eqb_spec i (f - 1)) as [->|Hne].
    - rewrite Hl. simpl. rewrite Hr, decide_True by lia. done.
    - case_decide as Hd.
      + destruct (He i) as (e & -> & Ht); [lia|done].
      + unfold entryAt. by rewrite Hf, Hla, decide_False by lia. }
  split; [|done]. split; rewrite ?Hf, ?Hla.
  - by rewrite Hl.
  - rewrite Hl. apply contig_nil.
  - rewrite Hm, Hl. unfold len. simpl. lia.
  - rewrite Hm, Hl. simpl. rewrite Hr. simpl. lia.
  - rewrite Hl. simpl. lia.
  - rewrite Hl. simpl. lia.
  - rewrite Hm, Hl. unfold len. simpl. split; [lia|]. intros i Hi. lia.
  - rewrite Hl. simpl. lia.
  - rewrite Hm, Hl. simpl. rewrite Hr. simpl. lia.
  - intros i j Hi Hj. rewrite !Hta, !decide_True by lia. by apply Hmono.
  - intros i e Hi. destruct (decide (f <= i <= la)) as [Hd|Hd].
    + destruct (He i Hd) as (e' & He' & Ht). simplify_eq. rewrite Ht. by apply Hpos.
    + unfold entryAt in Hi. by rewrite Hf, Hla, decide_False in Hi.
  - by rewrite Hl.
  - by rewrite Hl.
  - rewrite Hl. simpl. lia.
Qed.

End log.
