(* ===== verification/RaftState.v ===== *)
(** * The Raft protocol core: state

    The [raft] struct of [raft/internal/raft/raft.go], its configuration
    ([raft/config/config.go]) and the accessors shared by the handlers.  The
    state-independent [handlers] table is the function [handlers] of [Raft.v].
    Calls of the event listener are recorded in [emitted]; [choices] counts the
    choices taken from the [GoRuntime]. *)
From S2P Require Import Prelude Raftpb RateLimiter Remote ReadIndex LogDB InMemory EntryLog.
Import inMemory(inMemory) entryLog(entryLog) remote(remote).

Definition NoLeader : Z := 0.
Definition NoNode : Z := 0.
(** [settings.MaxEntrySize], [settings.InMemGCTimeout] *)
Definition maxEntrySize : Z := 64 * 1024 * 1024.
Definition inMemGcTimeout : Z := 100.

Inductive State : Type :=
| follower | candidate | preVoteCandidate | leader | nonVoting | witness.
#[export] Instance State_eq_dec : EqDecision State.
Proof. solve_decision. Defined.

(** ** Event listener ([raft/internal/server/event.go]) *)

Record LeaderInfo : Type := mkLeaderInfo {
  li_ShardID : Z; li_ReplicaID : Z; li_Term : Z; li_LeaderID : Z
}.

Inductive Event : Type :=
| LeaderUpdated (info : LeaderInfo)
| CampaignLaunched (shard replica term : Z)
| CampaignSkipped (shard replica term : Z)
| SnapshotRejected (shard replica from index term : Z)
| ReplicationRejected (shard replica from index term : Z)
| ProposalDropped (shard replica : Z) (entries : list pb.Entry)
| ReadIndexDropped (shard replica : Z).

(** ** Configuration *)

Record Config : Type := mkConfig {
  c_ReplicaID : Z;
  c_ShardID : Z;
  c_CheckQuorum : bool;
  c_PreVote : bool;
  c_ElectionRTT : Z;
  c_HeartbeatRTT : Z;
  c_SnapshotEntries : Z;
  c_MaxInMemLogSize : Z;
  c_SnapshotCompressionType : Z;
  c_EntryCompressionType : Z;
  c_IsNonVoting : bool;
  c_IsWitness : bool
}.

(** [pb.NoCompression] and [pb.Snappy]. *)
Definition NoCompression : Z := 0.
Definition Snappy : Z := 1.

(** [(c *Config) Validate()]: the error message, if any. *)
Definition Validate (c : Config) : option string :=
  if c_ReplicaID c =? 0 then Some "invalid ReplicaID, it must be >= 1"
  else if c_HeartbeatRTT c =? 0 then Some "HeartbeatRTT must be > 0"
  else if c_ElectionRTT c =? 0 then Some "ElectionRTT must be > 0"
  else if c_ElectionRTT c <=? u64 (2 * c_HeartbeatRTT c) then Some "invalid election rtt"
  else if (0 <? c_MaxInMemLogSize c)
          && (c_MaxInMemLogSize c <? pb.EntryNonCmdFieldsSize + 1)
  then Some "MaxInMemLogSize is too small"
  else if negb (c_SnapshotCompressionType c =? Snappy)
          && negb (c_SnapshotCompressionType c =? NoCompression)
  then Some "unknown compression type"
  else if negb (c_EntryCompressionType c =? Snappy)
          && negb (c_EntryCompressionType c =? NoCompression)
  then Some "unknown compression type"
  else if c_IsWitness c && (0 <? c_SnapshotEntries c)
  then Some "witness node can not take snapshot"
  else if c_IsWitness c && c_IsNonVoting c
  then Some "witness node can not be a non-voting node"
  else None.

(** ** The [raft] struct *)

Section raft.
Context {DB : Type} `{ILogDB DB} `{GoRuntime}.

Record raft : Type := mkRaft {
  events_on : bool;
  emitted : list Event;
  choices : nat;
  hasNotAppliedConfigChange : option bool;
  votes : gmap Z bool;
  log : entryLog DB;
  remotes : gmap Z remote;
  nonVotings : gmap Z remote;
  witnesses : gmap Z remote;
  logQueryResult : option pb.LogQueryResult;
  leaderUpdate : option pb.LeaderUpdate;
  readIndex : readIndex.readIndex;
  matched : list Z;
  msgs : list pb.Message;
  droppedReadIndexes : list pb.SystemCtx;
  droppedEntries : list pb.Entry;
  readyToRead : list pb.ReadyToRead;
  prevLeader : LeaderInfo;
  state : State;
  leaderTransferTarget : Z;
  leaderID : Z;
  shardID : Z;
  replicaID : Z;
  term : Z;
  applied : Z;
  vote : Z;
  tickCount : Z;
  electionTick : Z;
  heartbeatTick : Z;
  heartbeatTimeout : Z;
  electionTimeout : Z;
  randomizedElectionTimeout : Z;
  snapshotting : bool;
  checkQuorum : bool;
  quiesce : bool;
  isLeaderTransferTarget : bool;
  pendingConfigChange : bool;
  preVote : bool
}.

Definition raft_eta (r : raft) : raft :=
  mkRaft (events_on r) (emitted r) (choices r) (hasNotAppliedConfigChange r) (votes r)
    (log r) (remotes r) (nonVotings r) (witnesses r) (logQueryResult r) (leaderUpdate r)
    (readIndex r) (matched r) (msgs r) (droppedReadIndexes r) (droppedEntries r)
    (readyToRead r) (prevLeader r) (state r) (leaderTransferTarget r) (leaderID r)
    (shardID r) (replicaID r) (term r) (applied r) (vote r) (tickCount r)
    (electionTick r) (heartbeatTick r) (heartbeatTimeout r) (electionTimeout r)
    (randomizedElectionTimeout r) (snapshotting r) (checkQuorum r) (quiesce r)
    (isLeaderTransferTarget r) (pendingConfigChange r) (preVote r).

Definition set_events_on (v : bool) (r : raft) : raft :=
  ltac:(set_field (raft_eta r) (events_on r) v).
Definition set_emitted (v : list Event) (r : raft) : raft :=
  ltac:(set_field (raft_eta r) (emitted r) v).
Definition set_choices (v : nat) (r : raft) : raft :=
  ltac:(set_field (raft_eta r) (choices r) v).
Definition set_hasNotAppliedConfigChange (v : option bool) (r : raft) : raft :=
  ltac:(set_field (raft_eta r) (hasNotAppliedConfigChange r) v).
Definition set_votes (v : gmap Z bool) (r : raft) : raft :=
  ltac:(set_field (raft_eta r) (votes r) v).
Definition set_log (v : entryLog DB) (r : raft) : raft :=
  ltac:(set_field (raft_eta r) (log r) v).
Definition set_remotes (v : gmap Z remote) (r : raft) : raft :=
  ltac:(set_field (raft_eta r) (remotes r) v).
Definition set_nonVotings (v : gmap Z remote) (r : raft) : raft :=
  ltac:(set_field (raft_eta r) (nonVotings r) v).
Definition set_witnesses (v : gmap Z remote) (r : raft) : raft :=
  ltac:(set_field (raft_eta r) (witnesses r) v).
Definition set_logQueryResult (v : option pb.LogQueryResult) (r : raft) : raft :=
  ltac:(set_field (raft_eta r) (logQueryResult r) v).
Definition set_leaderUpdate (v : option pb.LeaderUpdate) (r : raft) : raft :=
  ltac:(set_field (raft_eta r) (leaderUpdate r) v).
Definition set_readIndex (v : readIndex.readIndex) (r : raft) : raft :=
  ltac:(set_field (raft_eta r) (readIndex r) v).
Definition set_matched (v : list Z) (r : raft) : raft :=
  ltac:(set_field (raft_eta r) (matched r) v).
Definition set_msgs (v : list pb.Message) (r : raft) : raft :=
  ltac:(set_field (raft_eta r) (msgs r) v).
Definition set_droppedReadIndexes (v : list pb.SystemCtx) (r : raft) : raft :=
  ltac:(set_field (raft_eta r) (droppedReadIndexes r) v).
Definition set_droppedEntries (v : list pb.Entry) (r : raft) : raft :=
  ltac:(set_field (raft_eta r) (droppedEntries r) v).
Definition set_readyToRead (v : list pb.ReadyToRead) (r : raft) : raft :=
  ltac:(set_field (raft_eta r) (readyToRead r) v).
Definition set_prevLeader (v : LeaderInfo) (r : raft) : raft :=
  ltac:(set_field (raft_eta r) (prevLeader r) v).
Definition set_state (v : State) (r : raft) : raft :=
  ltac:(set_field (raft_eta r) (state r) v).
Definition set_leaderTransferTarget (v : Z) (r : raft) : raft :=
  ltac:(set_field (raft_eta r) (leaderTransferTarget r) v).
Definition set_leaderID (v : Z) (r : raft) : raft :=
  ltac:(set_field (raft_eta r) (leaderID r) v).
Definition set_shardID (v : Z) (r : raft) : raft :=
  ltac:(set_field (raft_eta r) (shardID r) v).
Definition set_replicaID (v : Z) (r : raft) : raft :=
  ltac:(set_field (raft_eta r) (replicaID r) v).
Definition set_term (v : Z) (r : raft) : raft :=
  ltac:(set_field (raft_eta r) (term r) v).
Definition set_applied (v : Z) (r : raft) : raft :=
  ltac:(set_field (raft_eta r) (applied r) v).
Definition set_vote (v : Z) (r : raft) : raft :=
  ltac:(set_field (raft_eta r) (vote r) v).
Definition set_tickCount (v : Z) (r : raft) : raft :=
  ltac:(set_field (raft_eta r) (tickCount r) v).
Definition set_electionTick (v : Z) (r : raft) : raft :=
  ltac:(set_field (raft_eta r) (electionTick r) v).
Definition set_heartbeatTick (v : Z) (r : raft) : raft :=
  ltac:(set_field (raft_eta r) (heartbeatTick r) v).
Definition set_heartbeatTimeout (v : Z) (r : raft) : raft :=
  ltac:(set_field (raft_eta r) (heartbeatTimeout r) v).
Definition set_electionTimeout (v : Z) (r : raft) : raft :=
  ltac:(set_field (raft_eta r) (electionTimeout r) v).
Definition set_randomizedElectionTimeout (v : Z) (r : raft) : raft :=
  ltac:(set_field (raft_eta r) (randomizedElectionTimeout r) v).
Definition set_snapshotting (v : bool) (r : raft) : raft :=
  ltac:(set_field (raft_eta r) (snapshotting r) v).
Definition set_checkQuorum (v : bool) (r : raft) : raft :=
  ltac:(set_field (raft_eta r) (checkQuorum r) v).
Definition set_quiesce (v : bool) (r : raft) : raft :=
  ltac:(set_field (raft_eta r) (quiesce r) v).
Definition set_isLeaderTransferTarget (v : bool) (r : raft) : raft :=
  ltac:(set_field (raft_eta r) (isLeaderTransferTarget r) v).
Definition set_pendingConfigChange (v : bool) (r : raft) : raft :=
  ltac:(set_field (raft_eta r) (pendingConfigChange r) v).
Definition set_preVote (v : bool) (r : raft) : raft :=
  ltac:(set_field (raft_eta r) (preVote r) v).

Definition on_log {A} (c : M (entryLog DB) A) : M raft A := zoom log set_log c.
Definition log_r {A} (f : entryLog DB -> result A) : M raft A := readr (fun r => f (log r)).
Definition lastIndex (r : raft) : Z := entryLog.lastIndex (log r).
Definition committed (r : raft) : Z := entryLog.committed (log r).

(** The rate limiter, shared with the in-memory log. *)
Definition rl (r : raft) : server.InMemRateLimiter :=
  inMemory.rl (entryLog.inmem (log r)).
Definition on_rl {A} (c : M server.InMemRateLimiter A) : M raft A :=
  on_log (entryLog.on_inmem (zoom inMemory.rl inMemory.set_rl c)).

(** [for k := range m]: the keys in the order the runtime picks. *)
Definition range_ {V} (m : gmap Z V) : M raft (list Z) := fun r =>
  Ret (go_range (choices r) (map_to_list m).*1) (set_choices (S (choices r)) r).

Definition emit (e : raft -> Event) : M raft unit :=
  r ← get;
  when (events_on r) (modify (set_emitted (emitted r ++ [e r]))).

(** *** The remotes of the three member maps

    A [*remote] handed to a handler is the entry of one of the three maps; it
    is named by the map and the replica id. *)
Inductive rkind : Type := KRemote | KNonVoting | KWitness.

Definition rmap (k : rkind) (r : raft) : gmap Z remote :=
  match k with KRemote => remotes r | KNonVoting => nonVotings r | KWitness => witnesses r end.
Definition set_rmap (k : rkind) (v : gmap Z remote) (r : raft) : raft :=
  match k with
  | KRemote => set_remotes v r
  | KNonVoting => set_nonVotings v r
  | KWitness => set_witnesses v r
  end.

(** Running a method of the remote [id] of map [k]. *)
Definition on_remote {A} (k : rkind) (id : Z) (c : M remote A) : M raft A := fun r =>
  match rmap k r !! id with
  | None => Panic NilDereference
  | Some rp =>
      match c rp with
      | Ret a rp' => Ret a (set_rmap k (<[id := rp']> (rmap k r)) r)
      | Err e rp' => Err e (set_rmap k (<[id := rp']> (rmap k r)) r)
      | Panic p => Panic p
      end
  end.
Definition mod_remote (k : rkind) (id : Z) (f : remote -> remote) : M raft unit :=
  on_remote k id (modify f).
Definition get_remote (k : rkind) (id : Z) : M raft remote := on_remote k id get.

(** The map holding the remote of [id], searched in the order of the code. *)
Definition find_remote (id : Z) (r : raft) : option rkind :=
  match remotes r !! id, nonVotings r !! id, witnesses r !! id with
  | Some _, _, _ => Some KRemote
  | None, Some _, _ => Some KNonVoting
  | None, None, Some _ => Some KWitness
  | None, None, None => None
  end.

(** *** Accessors *)

Definition isState (s : State) (r : raft) : bool := bool_decide (state r = s).
Definition isCandidate : raft -> bool := isState candidate.
Definition isLeader : raft -> bool := isState leader.
Definition isNonVoting : raft -> bool := isState nonVoting.
Definition isWitness : raft -> bool := isState witness.

(** [describe], evaluated by every log line that prints it: it reads the term
    of the last entry and panics when the log cannot tell. *)
Definition describe : M raft unit :=
  t ← try_ (log_r (fun l => entryLog.term (entryLog.lastIndex l) l));
  match t with
  | inl _ | inr ErrCompacted => skip
  | inr _ => panicf "failed to get term"
  end.

Definition mustBeLeader : M raft unit :=
  r ← get; if isLeader r then skip else panicf "is not leader".

Definition setLeaderID (id : Z) : M raft unit :=
  modify (set_leaderID id) ;;
  modify (fun r => set_leaderUpdate (Some (pb.mkLeaderUpdate id (term r))) r) ;;
  r ← get;
  when (events_on r &&
        (((term r =? 0) && (id =? NoLeader)) || negb (id =? li_LeaderID (prevLeader r))
         || negb (term r =? li_Term (prevLeader r))))
    (let info := mkLeaderInfo (shardID r) (replicaID r) (term r) id in
     modify (set_prevLeader info) ;; emit (fun _ => LeaderUpdated info)).

Definition leaderTransfering (r : raft) : bool :=
  negb (leaderTransferTarget r =? NoNode) && isLeader r.
Definition abortLeaderTransfer : M raft unit := modify (set_leaderTransferTarget NoNode).

Definition numVotingMembers (r : raft) : Z :=
  Z.of_nat (size (remotes r)) + Z.of_nat (size (witnesses r)).
Definition quorum (r : raft) : Z := numVotingMembers r `div` 2 + 1.
Definition isSingleNodeQuorum (r : raft) : bool := quorum r =? 1.

Definition resetMatchValueArray : M raft unit :=
  modify (fun r => set_matched (replicate (Z.to_nat (numVotingMembers r)) 0) r).

(** [votingMembers]: the remotes, overridden by the witnesses. *)
Definition votingMembers (r : raft) : gmap Z remote := witnesses r ∪ remotes r.

(** [leaderHasQuorum] counts the members heard from and clears their flags; a
    flag is cleared in the map the merged entry came from. *)
Definition heardFrom (r : raft) (nid : Z) (member : remote) : bool :=
  (nid =? replicaID r) || remote.isActive member.
Definition leaderHasQuorum : M raft bool :=
  r ← get;
  let clear nid member :=
    Some (if heardFrom r nid member then remote.setNotActive member else member) in
  let c := size (filter (fun kv => heardFrom r kv.1 kv.2 = true) (votingMembers r)) in
  modify (set_remotes (map_imap (fun nid m =>
            if decide (is_Some (witnesses r !! nid)) then Some m else clear nid m)
            (remotes r))) ;;
  modify (set_witnesses (map_imap clear (witnesses r))) ;;
  ret (quorum r <=? Z.of_nat c).

Definition nodes : M raft (list Z) :=
  r ← get;
  a ← range_ (remotes r);
  b ← range_ (nonVotings r);
  c ← range_ (witnesses r);
  ret (a ++ b ++ c).

Definition raftState (r : raft) : pb.State :=
  pb.mkState (term r) (vote r) (committed r).

Definition selfRemoved (r : raft) : bool :=
  if isNonVoting r then bool_decide (nonVotings r !! replicaID r = None)
  else if isWitness r then bool_decide (witnesses r !! replicaID r = None)
  else bool_decide (remotes r !! replicaID r = None).

Definition setPendingConfigChange : M raft unit := modify (set_pendingConfigChange true).
Definition clearPendingConfigChange : M raft unit := modify (set_pendingConfigChange false).
Definition hasPendingConfigChange (r : raft) : bool := pendingConfigChange r.

Definition setApplied (a : Z) : M raft unit := modify (set_applied a).
Definition getApplied (r : raft) : Z := applied r.

End raft.
Arguments raft DB : clear implicits.
