(* ===== verification/Raft.v ===== *)
(** * The Raft protocol core: operations and message handlers

    [raft/internal/raft/raft.go], function by function.  A handler is a
    computation on the [raft] struct; [Handle] is the entry point.  Handlers of
    ticks call [Handle] again, so the recursion is open: a handler that needs it
    takes it as its argument [self], and [Handle] ties the knot with fuel.
    [RaftFuel.v] shows that two levels are always enough. *)
From S2P Require Import Prelude Raftpb RateLimiter Remote ReadIndex LogDB InMemory EntryLog.
From S2P Require Import RaftState.
Import inMemory(inMemory) entryLog(entryLog) remote(remote).

Reserved Notation "m |> f" (at level 50, left associativity).
Notation "m |> f" := (f m) (only parsing).

Section raft.
Context {DB : Type} `{ILogDB DB} `{GoRuntime}.
Abbreviation raft := (raft DB).

(** ** Message classification *)

Definition isPreVoteMessage (t : pb.MessageType) : bool :=
  match t with pb.RequestPreVote | pb.RequestPreVoteResp => true | _ => false end.
Definition isRequestVoteMessage (t : pb.MessageType) : bool :=
  match t with pb.RequestVote | pb.RequestPreVote => true | _ => false end.
Definition isRequestMessage (t : pb.MessageType) : bool :=
  match t with pb.Propose | pb.ReadIndex | pb.LeaderTransfer => true | _ => false end.
Definition isLeaderMessage (t : pb.MessageType) : bool :=
  match t with
  | pb.Replicate | pb.InstallSnapshot | pb.Heartbeat | pb.TimeoutNow | pb.ReadIndexResp => true
  | _ => false
  end.
Definition isPreVoteMessageWithExpectedHigherTerm (m : pb.Message) : bool :=
  match pb.m_Type m with
  | pb.RequestPreVote => true
  | pb.RequestPreVoteResp => negb (pb.m_Reject m)
  | _ => false
  end.

(** ** Send and broadcast *)

Definition finalizeMessageTerm (m : pb.Message) (r : raft) : result pb.Message :=
  let t := pb.m_Type m in
  let preResp := bool_decide (t = pb.RequestPreVoteResp) in
  if (pb.m_Term m =? 0) && bool_decide (t = pb.RequestVote)
  then PANIC (PanicMsg "sending RequestVote with 0 term")
  else if (0 <? pb.m_Term m) && negb (isRequestVoteMessage t) && negb preResp
  then PANIC (PanicMsg "term unexpectedly set for message type")
  else if negb (isRequestMessage t) && negb (isRequestVoteMessage t) && negb preResp
  then OK (pb.set_Term (term r) m)
  else OK m.

Definition send (m : pb.Message) : M raft unit :=
  r ← get;
  m ← readr (finalizeMessageTerm (pb.set_From (replicaID r) m));
  modify (fun r => set_msgs (msgs r ++ [m]) r).

(** [max] of an unsigned difference and zero is the difference. *)
Definition sendRateLimitMessage : M raft unit :=
  r ← get;
  if isLeader r then panicf "leader node called sendRateLimitMessage"
  else if leaderID r =? NoLeader then describe
  else if negb (server.Enabled (rl r)) then skip
  else
    limited ← on_rl server.RateLimited;
    mv ← (if limited : bool then
            r ← get;
            let inmemSz := server.Get (rl r) in
            ents ← log_r entryLog.getUncommittedEntries;
            let notCommitedSz := pb.GetEntrySliceSize ents in
            ret (Z.max (inmemSz -ᵤ notCommitedSz) 0)
          else ret 0);
    send (pb.msg pb.RateLimit |> pb.set_To (leaderID r) |> pb.set_Hint mv).

Definition makeWitnessSnapshot (s : pb.Snapshot) : pb.Snapshot :=
  pb.mkSnapshot "" 0 (pb.ss_Index s) (pb.ss_Term s) (pb.ss_Membership s) []
    (pb.ss_Checksum s) false (pb.ss_ShardID s) (pb.ss_Type s) (pb.ss_Imported s)
    (pb.ss_OnDiskIndex s) true.

(** The snapshot to install on [to]; the message fields are set by the caller
    from it. *)
Definition makeInstallSnapshotMessage (to : Z) (r : raft) : result pb.Message :=
  let ss := entryLog.snapshot (log r) in
  if pb.IsEmptySnapshot ss then PANIC (PanicMsg "got an empty snapshot")
  else
    let ss := if decide (is_Some (witnesses r !! to)) then makeWitnessSnapshot ss else ss in
    OK (pb.msg pb.InstallSnapshot |> pb.set_To to |> pb.set_Snapshot ss).

Definition makeMetadataEntries (entries : list pb.Entry) : list pb.Entry :=
  map (fun ent =>
         if decide (pb.e_Type ent = pb.ConfigChangeEntry) then ent
         else pb.entry pb.MetadataEntry (pb.e_Term ent) (pb.e_Index ent)) entries.

Definition makeReplicateMessage (to next maxSize : Z) (r : raft) : result pb.Message :=
  t ← entryLog.term (next -ᵤ 1) (log r);
  entries ← entryLog.entries next maxSize (log r);
  (match last entries with
   | Some e =>
       if negb (pb.e_Index e =? (next -ᵤ 1 +ᵤ len entries))
       then PANIC (PanicMsg "expected last index in Replicate") else OK tt
   | None => OK tt
   end) ;;
  let entries := if decide (is_Some (witnesses r !! to))
                 then makeMetadataEntries entries else entries in
  OK (pb.msg pb.Replicate |> pb.set_To to |> pb.set_LogIndex (next -ᵤ 1)
        |> pb.set_LogTerm t |> pb.set_Entries entries |> pb.set_Commit (committed r)).

Definition sendReplicateMessage (to : Z) : M raft unit :=
  r ← get;
  match find_remote to r with
  | None => panicf "failed to get the remote instance"
  | Some k =>
      rp ← get_remote k to;
      if remote.isPaused rp then skip
      else
        rm ← try_ (readr (makeReplicateMessage to (remote.next rp) maxEntrySize));
        match rm with
        | inr _ =>
            if negb (remote.isActive rp) then describe
            else
              m ← readr (makeInstallSnapshotMessage to);
              describe ;;
              mod_remote k to (remote.becomeSnapshot (pb.ss_Index (pb.m_Snapshot m))) ;;
              send m
        | inl m =>
            (match last (pb.m_Entries m) with
             | Some e => on_remote k to (remote.progress (pb.e_Index e))
             | None => skip
             end) ;;
            send m
        end
  end.

Definition broadcastReplicateMessage : M raft unit :=
  mustBeLeader ;;
  r ← get;
  if decide (is_Some (nonVotings r !! replicaID r))
  then panicf "nonVoting is broadcasting Replicate msg"
  else
    nids ← nodes;
    forM_ nids (fun nid => if nid =? replicaID r then skip else sendReplicateMessage nid).

Definition sendHeartbeatMessage (to : Z) (hint : pb.SystemCtx) (mtch : Z) : M raft unit :=
  r ← get;
  send (pb.msg pb.Heartbeat |> pb.set_To to |> pb.set_Commit (Z.min mtch (committed r))
          |> pb.set_Hint (pb.Low hint) |> pb.set_HintHigh (pb.High hint)).

Definition broadcastHeartbeatMessageWithHint (ctx : pb.SystemCtx) : M raft unit :=
  r ← get;
  ids ← range_ (votingMembers r);
  forM_ ids (fun id =>
    match votingMembers r !! id with
    | Some rm => if id =? replicaID r then skip
                 else sendHeartbeatMessage id ctx (remote.match_ rm)
    | None => skip
    end) ;;
  if decide (ctx = pb.zeroCtx) then
    ids ← range_ (nonVotings r);
    forM_ ids (fun id =>
      match nonVotings r !! id with
      | Some rm => sendHeartbeatMessage id pb.zeroCtx (remote.match_ rm)
      | None => skip
      end)
  else skip.

Definition broadcastHeartbeatMessage : M raft unit :=
  mustBeLeader ;;
  r ← get;
  if readIndex.hasPendingRequest (readIndex r) then
    ctx ← readr (fun r => readIndex.peepCtx (readIndex r));
    broadcastHeartbeatMessageWithHint ctx
  else broadcastHeartbeatMessageWithHint pb.zeroCtx.

Definition sendTimeoutNowMessage (id : Z) : M raft unit :=
  send (pb.msg pb.TimeoutNow |> pb.set_To id).

(** ** Log append and commit *)

Definition sortMatchValues (matched : list Z) : list Z :=
  match matched with
  | [a; b; c] =>
      let '(a, b) := if b <? a then (b, a) else (a, b) in
      let '(b, c) := if c <? b then (c, b) else (b, c) in
      let '(a, b) := if b <? a then (b, a) else (a, b) in
      [a; b; c]
  | [a] => [a]
  | _ => merge_sort Z.le matched
  end.

Definition matches (m : gmap Z remote) (ids : list Z) : list Z :=
  omap (fun id => remote.match_ <$> m !! id) ids.

Definition tryCommit : M raft bool :=
  mustBeLeader ;;
  r ← get;
  when (negb (numVotingMembers r =? len (matched r))) resetMatchValueArray ;;
  a ← range_ (remotes r);
  b ← range_ (witnesses r);
  modify (set_matched (sortMatchValues (matches (remotes r) a ++ matches (witnesses r) b))) ;;
  q ← readr (fun r => index (matched r) (numVotingMembers r - quorum r));
  on_log (entryLog.tryCommit q (term r)).

(** The loop that stamps the new entries with the term and their indexes. *)
Fixpoint stampEntries (t idx : Z) (ents : list pb.Entry) : list pb.Entry :=
  match ents with
  | [] => []
  | e :: ents => pb.stamp t idx e :: stampEntries t (idx +ᵤ 1) ents
  end.

Definition appendEntries (entries : list pb.Entry) : M raft unit :=
  r ← get;
  on_log (entryLog.append (stampEntries (term r) (lastIndex r +ᵤ 1) entries)) ;;
  r ← get;
  mod_remote KRemote (replicaID r) (fun rp => (remote.tryUpdate (lastIndex r) rp).1) ;;
  r ← get;
  if isSingleNodeQuorum r then tryCommit ;; skip else skip.

(** ** Configuration changes *)

Fixpoint pendingCountLoop (fuel : nat) (idx count : Z) (r : raft) : result Z :=
  match fuel with
  | O => PANIC OutOfFuel
  | S fuel =>
      match entryLog.entries idx maxEntriesToApplySize (log r) with
      | PANIC p => PANIC p
      | ERR _ => PANIC (PanicMsg "failed to get entries")
      | OK ents =>
          match last ents with
          | None => OK count
          | Some e =>
              pendingCountLoop fuel (pb.e_Index e +ᵤ 1) (count + countConfigChange ents) r
          end
      end
  end.

(** One iteration per returned batch, each of at least one entry, and a last
    one past the end of the log. *)
Definition pendingCountFuel (r : raft) : nat := Z.to_nat (lastIndex r - committed r + 1).

Definition getPendingConfigChangeCount (r : raft) : result Z :=
  pendingCountLoop (pendingCountFuel r) (committed r +ᵤ 1) 0 r.

Definition preLeaderPromotionHandleConfigChange : M raft unit :=
  n ← readr getPendingConfigChangeCount;
  if 1 <? n then panicf "multiple uncommitted config change entries"
  else if n =? 1 then describe ;; setPendingConfigChange
  else skip.

(** ** State transitions *)

Definition setRandomizedElectionTimeout : M raft unit := fun r =>
  if electionTimeout r =? 0 then Panic DivideByZero
  else
    let randTime := go_rand (choices r) `mod` electionTimeout r in
    Ret tt (set_randomizedElectionTimeout (electionTimeout r +ᵤ randTime)
              (set_choices (S (choices r)) r)).

Definition resetMembers (r : raft) (m : gmap Z remote) : gmap Z remote :=
  map_imap (fun id _ => Some (remote.newRemote
              (if id =? replicaID r then lastIndex r else 0) (lastIndex r +ᵤ 1))) m.
Definition resetRemotes : M raft unit :=
  modify (fun r => set_remotes (resetMembers r (remotes r)) r).
Definition resetNonVotings : M raft unit :=
  modify (fun r => set_nonVotings (resetMembers r (nonVotings r)) r).
Definition resetWitnesses : M raft unit :=
  modify (fun r => set_witnesses (resetMembers r (witnesses r)) r).

Definition reset (t : Z) (resetElectionTimeout : bool) : M raft unit :=
  r ← get;
  when (negb (term r =? t)) (modify (set_term t) ;; modify (set_vote NoLeader)) ;;
  when (server.Enabled (rl r)) (on_rl (modify server.Reset_)) ;;
  when resetElectionTimeout (modify (set_electionTick 0) ;; setRandomizedElectionTimeout) ;;
  modify (set_votes ∅) ;;
  modify (set_heartbeatTick 0) ;;
  modify (set_readIndex readIndex.newReadIndex) ;;
  clearPendingConfigChange ;;
  abortLeaderTransfer ;;
  resetRemotes ;;
  resetNonVotings ;;
  resetWitnesses ;;
  resetMatchValueArray.

Definition toFollowerState (t id : Z) (resetElectionTimeout : bool) : M raft unit :=
  r ← get;
  if isWitness r then panicf "transitioning to follower from witness state"
  else
    modify (set_state follower) ;;
    reset t resetElectionTimeout ;;
    setLeaderID id ;;
    describe.
Definition becomeFollower (t id : Z) : M raft unit := toFollowerState t id true.
Definition becomeFollowerKE (t id : Z) : M raft unit := toFollowerState t id false.

Definition becomeNonVoting (t id : Z) : M raft unit :=
  r ← get;
  if negb (isNonVoting r) then panicf "transitioning to nonVoting state from other states"
  else if isWitness r then panicf "transitioning to nonVoting from witness state"
  else reset t true ;; setLeaderID id ;; describe.

Definition becomeWitness (t id : Z) : M raft unit :=
  r ← get;
  if negb (isWitness r) then panicf "transitioning to witness state from non-witness"
  else reset t true ;; setLeaderID id ;; describe.

Definition becomePreVoteCandidate : M raft unit :=
  r ← get;
  if negb (preVote r) then panicf "becomePreVoteCandidate called when preVote not enabled"
  else if isLeader r then panicf "transitioning to candidate state from leader"
  else if isNonVoting r then panicf "nonVoting is becoming candidate"
  else if isWitness r then panicf "witness is becoming candidate"
  else
    modify (set_state preVoteCandidate) ;;
    reset (term r) true ;;
    setLeaderID NoLeader ;;
    describe.

Definition becomeCandidate : M raft unit :=
  r ← get;
  if isLeader r then panicf "transitioning to candidate state from leader"
  else if isNonVoting r then panicf "nonVoting is becoming candidate"
  else if isWitness r then panicf "witness is becoming candidate"
  else
    modify (set_state candidate) ;;
    reset (term r +ᵤ 1) true ;;
    setLeaderID NoLeader ;;
    modify (fun r => set_vote (replicaID r) r) ;;
    describe.

Definition becomeLeader : M raft unit :=
  r ← get;
  if negb (isLeader r) && negb (isCandidate r) then panicf "transitioning to leader state"
  else
    modify (set_state leader) ;;
    reset (term r) true ;;
    setLeaderID (replicaID r) ;;
    preLeaderPromotionHandleConfigChange ;;
    describe ;;
    appendEntries [pb.entry pb.ApplicationEntry 0 0].

(** ** Elections *)

Definition votedFor (r : raft) : Z :=
  Z.of_nat (size (filter (fun kv => kv.2 = true) (votes r))).

Definition handleVoteResp (from : Z) (rejected : bool) : M raft Z :=
  describe ;;
  r ← get;
  when (bool_decide (votes r !! from = None))
    (modify (set_votes (<[from := negb rejected]> (votes r)))) ;;
  gets votedFor.

Definition campaign : M raft unit :=
  becomeCandidate ;;
  r ← get;
  let t := term r in
  emit (fun r => CampaignLaunched (shardID r) (replicaID r) t) ;;
  handleVoteResp (replicaID r) false ;;
  r ← get;
  if isSingleNodeQuorum r then becomeLeader
  else
    hint ← (if isLeaderTransferTarget r
            then modify (set_isLeaderTransferTarget false) ;; ret (replicaID r)
            else ret 0);
    let idx := lastIndex r in
    lastTerm ← log_r entryLog.lastTerm;
    ks ← range_ (votingMembers r);
    forM_ ks (fun k =>
      if k =? replicaID r then skip
      else
        send (pb.msg pb.RequestVote |> pb.set_Term t |> pb.set_To k |> pb.set_LogIndex idx
                |> pb.set_LogTerm lastTerm |> pb.set_Hint hint) ;;
        describe).

Definition preVoteCampaign : M raft unit :=
  becomePreVoteCandidate ;;
  r ← get;
  handleVoteResp (replicaID r) false ;;
  if isSingleNodeQuorum r then campaign
  else
    let idx := lastIndex r in
    lastTerm ← log_r entryLog.lastTerm;
    ks ← range_ (votingMembers r);
    forM_ ks (fun k =>
      if k =? replicaID r then skip
      else
        send (pb.msg pb.RequestPreVote |> pb.set_Term (term r +ᵤ 1) |> pb.set_To k
                |> pb.set_LogIndex idx |> pb.set_LogTerm lastTerm) ;;
        describe).

(** ** Membership management *)

Definition setMember (k : rkind) (id mtch next : Z) : M raft unit :=
  describe ;;
  modify (fun r => set_rmap k (<[id := remote.newRemote mtch next]> (rmap k r)) r).
Definition setRemote : Z -> Z -> Z -> M raft unit := setMember KRemote.
Definition setNonVoting : Z -> Z -> Z -> M raft unit := setMember KNonVoting.
Definition setWitness : Z -> Z -> Z -> M raft unit := setMember KWitness.

Definition deleteRemote (id : Z) : M raft unit :=
  modify (fun r => set_remotes (delete id (remotes r)) r).
Definition deleteNonVoting (id : Z) : M raft unit :=
  modify (fun r => set_nonVotings (delete id (nonVotings r)) r).
Definition deleteWitness (id : Z) : M raft unit :=
  modify (fun r => set_witnesses (delete id (witnesses r)) r).

Definition addNode (id : Z) : M raft unit :=
  clearPendingConfigChange ;;
  r ← get;
  if (id =? replicaID r) && isWitness r then panicf "is witness"
  else match remotes r !! id with
  | Some _ => skip
  | None =>
      match nonVotings r !! id with
      | Some rp =>
          deleteNonVoting id ;;
          modify (fun r => set_remotes (<[id := rp]> (remotes r)) r) ;;
          when (id =? replicaID r) (becomeFollower (term r) (leaderID r))
      | None =>
          if decide (is_Some (witnesses r !! id))
          then panicf "could not promote witness to full member"
          else setRemote id 0 (lastIndex r +ᵤ 1)
      end
  end.

Definition addNonVoting (id : Z) : M raft unit :=
  clearPendingConfigChange ;;
  r ← get;
  if (id =? replicaID r) && negb (isNonVoting r) then panicf "is not a nonVoting"
  else if decide (is_Some (nonVotings r !! id)) then skip
  else setNonVoting id 0 (lastIndex r +ᵤ 1).

Definition addWitness (id : Z) : M raft unit :=
  clearPendingConfigChange ;;
  r ← get;
  if (id =? replicaID r) && negb (isWitness r) then panicf "is not witness"
  else if decide (is_Some (witnesses r !! id)) then skip
  else setWitness id 0 (lastIndex r +ᵤ 1).

Definition removeNode (id : Z) : M raft unit :=
  deleteRemote id ;;
  deleteNonVoting id ;;
  deleteWitness id ;;
  clearPendingConfigChange ;;
  r ← get;
  when ((replicaID r =? id) && isLeader r) (becomeFollower (term r) NoLeader) ;;
  r ← get;
  when (leaderTransfering r && (leaderTransferTarget r =? id)) abortLeaderTransfer ;;
  r ← get;
  if isLeader r && (0 <? numVotingMembers r) then
    ok ← tryCommit;
    if ok : bool then broadcastReplicateMessage else skip
  else skip.

(** ** Snapshots *)

Definition loadState (st : pb.State) : M raft unit :=
  r ← get;
  if (pb.st_Commit st <? committed r) || (lastIndex r <? pb.st_Commit st)
  then panicf "got out of range state"
  else
    on_log (modify (entryLog.set_committed (pb.st_Commit st))) ;;
    modify (set_term (pb.st_Term st)) ;;
    modify (set_vote (pb.st_Vote st)).

Definition restore (ss : pb.Snapshot) : M raft bool :=
  r ← get;
  if pb.ss_Index ss <=? committed r then describe ;; ret false
  else if negb (isNonVoting r)
          && bool_decide (is_Some (pb.mb_NonVotings (pb.ss_Membership ss) !! replicaID r))
  then panicf "converting to nonVoting"
  else if negb (isWitness r)
          && bool_decide (is_Some (pb.mb_Witnesses (pb.ss_Membership ss) !! replicaID r))
  then panicf "converting to witness"
  else
    mt ← log_r (entryLog.matchTerm (pb.ss_Index ss) (pb.ss_Term ss));
    if mt : bool then on_log (entryLog.commitTo (pb.ss_Index ss)) ;; ret false
    else
      describe ;;
      on_log (entryLog.restore ss) ;;
      ret true.

(** One member of the snapshot's membership. *)
Definition restoreMember (k : rkind) (id : Z) : M raft unit :=
  r ← get;
  let next := lastIndex r +ᵤ 1 in
  let mtch := if id =? replicaID r then next -ᵤ 1 else 0 in
  setMember k id mtch next ;;
  describe.

Definition restoreRemotes (ss : pb.Snapshot) : M raft unit :=
  let mb := pb.ss_Membership ss in
  modify (set_remotes ∅) ;;
  ids ← range_ (pb.mb_Addresses mb);
  forM_ ids (fun id =>
    r ← get;
    when ((id =? replicaID r) && isNonVoting r) (becomeFollower (term r) (leaderID r)) ;;
    r ← get;
    if decide (is_Some (witnesses r !! id))
    then panicf "Assumed witness could not promote to full member"
    else restoreMember KRemote id) ;;
  r ← get;
  when (selfRemoved r && isLeader r) (becomeFollower (term r) NoLeader) ;;
  modify (set_nonVotings ∅) ;;
  ids ← range_ (pb.mb_NonVotings mb);
  forM_ ids (restoreMember KNonVoting) ;;
  modify (set_witnesses ∅) ;;
  ids ← range_ (pb.mb_Witnesses mb);
  forM_ ids (restoreMember KWitness) ;;
  resetMatchValueArray.

(** ** Handlers of leader traffic *)

Definition handleHeartbeatMessage (m : pb.Message) : M raft unit :=
  on_log (entryLog.commitTo (pb.m_Commit m)) ;;
  send (pb.msg pb.HeartbeatResp |> pb.set_To (pb.m_From m) |> pb.set_Hint (pb.m_Hint m)
          |> pb.set_HintHigh (pb.m_HintHigh m)).

Definition handleInstallSnapshotMessage (m : pb.Message) : M raft unit :=
  describe ;;
  let ss := pb.m_Snapshot m in
  let resp := pb.msg pb.ReplicateResp |> pb.set_To (pb.m_From m) in
  ok ← restore ss;
  describe ;;
  r ← get;
  if ok : bool then send (pb.set_LogIndex (lastIndex r) resp)
  else
    emit (fun r => SnapshotRejected (shardID r) (replicaID r) (pb.m_From m)
                     (pb.ss_Index ss) (pb.ss_Term ss)) ;;
    send (pb.set_LogIndex (committed r) resp).

Definition handleReplicateMessage (m : pb.Message) : M raft unit :=
  let resp := pb.msg pb.ReplicateResp |> pb.set_To (pb.m_From m) in
  r ← get;
  if pb.m_LogIndex m <? committed r then send (pb.set_LogIndex (committed r) resp)
  else
    ok ← log_r (entryLog.matchTerm (pb.m_LogIndex m) (pb.m_LogTerm m));
    if ok : bool then
      on_log (entryLog.tryAppend (pb.m_LogIndex m) (pb.m_Entries m)) ;;
      let lastIdx := pb.m_LogIndex m +ᵤ len (pb.m_Entries m) in
      on_log (entryLog.commitTo (Z.min lastIdx (pb.m_Commit m))) ;;
      send (pb.set_LogIndex lastIdx resp)
    else
      describe ;;
      emit (fun r => ReplicationRejected (shardID r) (replicaID r) (pb.m_From m)
                       (pb.m_LogIndex m) (pb.m_LogTerm m)) ;;
      send (resp |> pb.set_Reject true |> pb.set_LogIndex (pb.m_LogIndex m)
              |> pb.set_Hint (lastIndex r)).

(** ** Term checks *)

Definition dropRequestVoteFromHighTermNode (m : pb.Message) : M raft bool :=
  r ← get;
  if negb (isRequestVoteMessage (pb.m_Type m)) || negb (checkQuorum r)
     || (pb.m_Term m <=? term r)
  then ret false
  else if pb.m_Hint m =? pb.m_From m then describe ;; ret false
  else if isLeader r && negb (quiesce r) && (electionTimeout r <=? electionTick r)
  then panicf "r.electionTick >= r.electionTimeout on leader"
  else ret (negb (leaderID r =? NoLeader) && (electionTick r <? electionTimeout r)).

(** Whether the message is to be ignored. *)
Definition onMessageTermNotMatched (m : pb.Message) : M raft bool :=
  r ← get;
  if (pb.m_Term m =? 0) || (pb.m_Term m =? term r) then ret false
  else
    drop ← dropRequestVoteFromHighTermNode m;
    if drop : bool then describe ;; ret true
    else if term r <? pb.m_Term m then
      (if isPreVoteMessageWithExpectedHigherTerm m then skip
       else
         describe ;;
         let id := if isLeaderMessage (pb.m_Type m) then pb.m_From m else NoLeader in
         if isNonVoting r then becomeNonVoting (pb.m_Term m) id
         else if isWitness r then becomeWitness (pb.m_Term m) id
         else if decide (pb.m_Type m = pb.RequestVote)
         then describe ;; becomeFollowerKE (pb.m_Term m) id
         else describe ;; becomeFollower (pb.m_Term m) id) ;;
      ret false
    else
      (if bool_decide (pb.m_Type m = pb.RequestPreVote)
          || (isLeaderMessage (pb.m_Type m) && (checkQuorum r || preVote r))
       then send (pb.msg pb.NoOP |> pb.set_To (pb.m_From m))
       else describe) ;;
      ret true.

Definition inconsistentRaftConfig (m : pb.Message) (r : raft) : bool :=
  negb (preVote r) && isPreVoteMessage (pb.m_Type m).

Definition doubleCheckTermMatched (msgTerm : Z) : M raft unit :=
  r ← get;
  if negb (msgTerm =? 0) && negb (term r =? msgTerm)
  then panicf "mismatched term found" else skip.

Definition hasConfigChangeToApply (r : raft) : bool :=
  match hasNotAppliedConfigChange r with
  | Some b => b
  | None => getApplied r <? committed r
  end.

Definition canGrantVote (m : pb.Message) (r : raft) : bool :=
  (vote r =? NoNode) || (vote r =? pb.m_From m) || (term r <? pb.m_Term m).

(** ** Reports *)

Definition reportDroppedConfigChange (e : pb.Entry) : M raft unit :=
  modify (fun r => set_droppedEntries (droppedEntries r ++ [e]) r).
Definition reportDroppedProposal (m : pb.Message) : M raft unit :=
  modify (fun r => set_droppedEntries (droppedEntries r ++ pb.m_Entries m) r) ;;
  emit (fun r => ProposalDropped (shardID r) (replicaID r) (pb.m_Entries m)).
Definition msgCtx (m : pb.Message) : pb.SystemCtx :=
  pb.mkSystemCtx (pb.m_Hint m) (pb.m_HintHigh m).
Definition reportDroppedReadIndex (m : pb.Message) : M raft unit :=
  modify (fun r => set_droppedReadIndexes (droppedReadIndexes r ++ [msgCtx m]) r) ;;
  emit (fun r => ReadIndexDropped (shardID r) (replicaID r)).

Definition clearReadyToRead : M raft unit := modify (set_readyToRead []).
Definition addReadyToRead (idx : Z) (ctx : pb.SystemCtx) : M raft unit :=
  modify (fun r => set_readyToRead (readyToRead r ++ [pb.mkReadyToRead idx ctx]) r).

(** ** Handlers for nodes in any state *)

Definition handleNodeElection (m : pb.Message) : M raft unit :=
  r ← get;
  if negb (isLeader r) then
    if hasConfigChangeToApply r then
      describe ;;
      emit (fun r => CampaignSkipped (shardID r) (replicaID r) (term r))
    else if preVote r && negb (isLeaderTransferTarget r)
    then describe ;; preVoteCampaign
    else describe ;; campaign
  else describe.

Definition handleNodeRequestPreVote (m : pb.Message) : M raft unit :=
  let resp := pb.msg pb.RequestPreVoteResp |> pb.set_To (pb.m_From m) in
  isUpToDate ← log_r (entryLog.upToDate (pb.m_LogIndex m) (pb.m_LogTerm m));
  r ← get;
  if pb.m_Term m <? term r then panicf "m.term < r.term"
  else
    describe ;;
    if (term r <? pb.m_Term m) && isUpToDate
    then send (pb.set_Term (pb.m_Term m) resp)
    else send (resp |> pb.set_Term (term r) |> pb.set_Reject true).

Definition handleNodeRequestVote (m : pb.Message) : M raft unit :=
  let resp := pb.msg pb.RequestVoteResp |> pb.set_To (pb.m_From m) in
  r ← get;
  let canGrant := canGrantVote m r in
  isUpToDate ← log_r (entryLog.upToDate (pb.m_LogIndex m) (pb.m_LogTerm m));
  describe ;;
  if canGrant && isUpToDate then
    modify (set_electionTick 0) ;;
    modify (set_vote (pb.m_From m)) ;;
    send resp
  else send (pb.set_Reject true resp).

(** [(pb.ConfigChangeType)(m.HintHigh)] truncates to an [int32]; the four known
    values are tested on the low 32 bits. *)
Definition handleNodeConfigChange (m : pb.Message) : M raft unit :=
  if pb.m_Reject m then clearPendingConfigChange
  else
    let cctype := pb.m_HintHigh m `mod` 2 ^ 32 in
    let nodeid := pb.m_Hint m in
    if cctype =? pb.AddNode then addNode nodeid
    else if cctype =? pb.RemoveNode then removeNode nodeid
    else if cctype =? pb.AddNonVoting then addNonVoting nodeid
    else if cctype =? pb.AddWitness then addWitness nodeid
    else panicf "unexpected config change type".

Definition handleLogQuery (m : pb.Message) : M raft unit :=
  r ← get;
  match logQueryResult r with
  | None =>
      q ← try_ (log_r (entryLog.getCommittedEntries (pb.m_From m) (pb.m_To m) (pb.m_Hint m)));
      let '(ents, err) := match q with inl es => (es, None) | inr e => ([], Some e) end in
      modify (set_logQueryResult (Some (pb.mkLogQueryResult
        (entryLog.firstIndex (log r)) (committed r +ᵤ 1) err ents)))
  | Some _ => panicf "log query result is not nil"
  end.

Definition handleRestoreRemote (m : pb.Message) : M raft unit :=
  restoreRemotes (pb.m_Snapshot m).

(** ** Handlers used by the leader *)

Definition handleLeaderHeartbeat (m : pb.Message) : M raft unit := broadcastHeartbeatMessage.

Definition handleLeaderCheckQuorum (m : pb.Message) : M raft unit :=
  mustBeLeader ;;
  ok ← leaderHasQuorum;
  if negb ok then describe ;; r ← get; becomeFollower (term r) NoLeader else skip.

(** The loop of [handleLeaderPropose]: a configuration change proposed while
    one is pending is replaced by an empty entry. *)
Fixpoint filterConfigChanges (ents : list pb.Entry) : M raft (list pb.Entry) :=
  match ents with
  | [] => ret []
  | e :: ents =>
      e' ← (if decide (pb.e_Type e = pb.ConfigChangeEntry) then
              r ← get;
              e' ← (if hasPendingConfigChange r then
                      describe ;; reportDroppedConfigChange e ;;
                      ret (pb.entry pb.ApplicationEntry 0 0)
                    else ret e);
              setPendingConfigChange ;; ret e'
            else ret e);
      es ← filterConfigChanges ents;
      ret (e' :: es)
  end.

Definition handleLeaderPropose (m : pb.Message) : M raft unit :=
  mustBeLeader ;;
  r ← get;
  if leaderTransfering r then describe ;; reportDroppedProposal m
  else
    ents ← filterConfigChanges (pb.m_Entries m);
    appendEntries ents ;;
    broadcastReplicateMessage.

Definition hasCommittedEntryAtCurrentTerm : M raft bool :=
  r ← get;
  if term r =? 0 then panicf "not suppose to reach here"
  else
    t ← try_ (log_r (entryLog.term (committed r)));
    match t with
    | inl lastCommittedTerm => ret (lastCommittedTerm =? term r)
    | inr ErrCompacted => ret (0 =? term r)
    | inr _ => panicf "failed to get term"
    end.

Definition handleLeaderReadIndex (m : pb.Message) : M raft unit :=
  mustBeLeader ;;
  r ← get;
  let ctx := msgCtx m in
  if decide (is_Some (witnesses r !! pb.m_From m)) then describe
  else if negb (isSingleNodeQuorum r) then
    ok ← hasCommittedEntryAtCurrentTerm;
    if negb ok then describe ;; reportDroppedReadIndex m
    else
      zoom readIndex set_readIndex
        (readIndex.addRequest (committed r) ctx (pb.m_From m)) ;;
      broadcastHeartbeatMessageWithHint ctx
  else
    addReadyToRead (committed r) ctx ;;
    if negb (pb.m_From m =? replicaID r)
       && bool_decide (is_Some (nonVotings r !! pb.m_From m))
    then send (pb.msg pb.ReadIndexResp |> pb.set_To (pb.m_From m)
                 |> pb.set_LogIndex (committed r) |> pb.set_Hint (pb.m_Hint m)
                 |> pb.set_HintHigh (pb.m_HintHigh m) |> pb.set_Commit (pb.m_Commit m))
    else skip.

Definition enterRetryState (k : rkind) (id : Z) : M raft unit :=
  mod_remote k id (fun rp =>
    if decide (remote.state rp = remote.remoteReplicate) then remote.becomeRetry rp else rp).

(** A method of the remote that returns a flag. *)
Definition flag_remote (k : rkind) (id : Z) (f : remote -> remote * bool) : M raft bool :=
  on_remote k id (fun rp => Ret (f rp).2 (f rp).1).

Definition handleLeaderReplicateResp (m : pb.Message) (k : rkind) : M raft unit :=
  let from := pb.m_From m in
  mustBeLeader ;;
  mod_remote k from remote.setActive ;;
  if negb (pb.m_Reject m) then
    rp ← get_remote k from;
    let paused := remote.isPaused rp in
    updated ← flag_remote k from (remote.tryUpdate (pb.m_LogIndex m));
    if updated : bool then
      mod_remote k from remote.respondedTo ;;
      ok ← tryCommit;
      (if ok : bool then broadcastReplicateMessage
       else if paused then sendReplicateMessage from else skip) ;;
      r ← get;
      rp ← get_remote k from;
      when (leaderTransfering r && (from =? leaderTransferTarget r)
            && (lastIndex r =? remote.match_ rp))
        (sendTimeoutNowMessage (leaderTransferTarget r))
    else skip
  else
    decreased ← flag_remote k from (remote.decreaseTo (pb.m_LogIndex m) (pb.m_Hint m));
    if decreased : bool then enterRetryState k from ;; sendReplicateMessage from else skip.

Definition handleReadIndexLeaderConfirmation (m : pb.Message) : M raft unit :=
  r ← get;
  ris ← zoom readIndex set_readIndex
          (readIndex.confirm (msgCtx m) (pb.m_From m) (quorum r));
  forM_ ris (fun s =>
    if (readIndex.from s =? NoNode) || (readIndex.from s =? replicaID r)
    then addReadyToRead (readIndex.index s) (readIndex.ctx s)
    else send (pb.msg pb.ReadIndexResp |> pb.set_To (readIndex.from s)
                 |> pb.set_LogIndex (readIndex.index s)
                 |> pb.set_Hint (pb.Low (readIndex.ctx s))
                 |> pb.set_HintHigh (pb.High (readIndex.ctx s)))).

Definition handleLeaderHeartbeatResp (m : pb.Message) (k : rkind) : M raft unit :=
  let from := pb.m_From m in
  mustBeLeader ;;
  mod_remote k from remote.setActive ;;
  mod_remote k from remote.waitToRetry ;;
  rp ← get_remote k from;
  r ← get;
  when (remote.match_ rp <? lastIndex r) (sendReplicateMessage from) ;;
  when (negb (pb.m_Hint m =? 0)) (handleReadIndexLeaderConfirmation m).

Definition handleLeaderTransfer (m : pb.Message) : M raft unit :=
  mustBeLeader ;;
  describe ;;
  r ← get;
  let target := pb.m_Hint m in
  if target =? NoNode then panicf "leader transfer target not set"
  else if leaderTransfering r then skip
  else if replicaID r =? target then skip
  else match remotes r !! target with
  | None => skip
  | Some rp =>
      modify (set_leaderTransferTarget target) ;;
      modify (set_electionTick 0) ;;
      when (remote.match_ rp =? lastIndex r) (sendTimeoutNowMessage target)
  end.

Definition handleLeaderSnapshotStatus (m : pb.Message) (k : rkind) : M raft unit :=
  let from := pb.m_From m in
  rp ← get_remote k from;
  if decide (remote.state rp <> remote.remoteSnapshot) then skip
  else if pb.m_Hint m =? 0 then
    when (pb.m_Reject m) (mod_remote k from remote.clearPendingSnapshot) ;;
    describe ;;
    mod_remote k from remote.becomeWait
  else
    on_remote k from (remote.setSnapshotAck (pb.m_Hint m) (pb.m_Reject m)) ;;
    modify (set_snapshotting true).

Definition handleLeaderUnreachable (m : pb.Message) (k : rkind) : M raft unit :=
  describe ;; enterRetryState k (pb.m_From m).

Definition handleLeaderRateLimit (m : pb.Message) : M raft unit :=
  r ← get;
  if server.Enabled (rl r)
  then on_rl (modify (server.SetFollowerState (pb.m_From m) (pb.m_Hint m)))
  else describe.

(** ** Handlers used by followers, non-voting members and witnesses *)

Definition handleFollowerPropose (m : pb.Message) : M raft unit :=
  r ← get;
  if leaderID r =? NoLeader then describe ;; reportDroppedProposal m
  else send (pb.set_To (leaderID r) m).

Definition leaderIsAvailable : M raft unit := modify (set_electionTick 0).

Definition handleFollowerReplicate (m : pb.Message) : M raft unit :=
  leaderIsAvailable ;; setLeaderID (pb.m_From m) ;; handleReplicateMessage m.
Definition handleFollowerHeartbeat (m : pb.Message) : M raft unit :=
  leaderIsAvailable ;; setLeaderID (pb.m_From m) ;; handleHeartbeatMessage m.
Definition handleFollowerInstallSnapshot (m : pb.Message) : M raft unit :=
  leaderIsAvailable ;; setLeaderID (pb.m_From m) ;; handleInstallSnapshotMessage m.

Definition handleFollowerReadIndex (m : pb.Message) : M raft unit :=
  r ← get;
  if leaderID r =? NoLeader then describe ;; reportDroppedReadIndex m
  else send (pb.set_To (leaderID r) m).

Definition handleFollowerLeaderTransfer (m : pb.Message) : M raft unit :=
  r ← get;
  if leaderID r =? NoLeader then describe else send (pb.set_To (leaderID r) m).

Definition handleFollowerReadIndexResp (m : pb.Message) : M raft unit :=
  leaderIsAvailable ;;
  setLeaderID (pb.m_From m) ;;
  addReadyToRead (pb.m_LogIndex m) (msgCtx m).

(** ** Handlers used by candidates *)

Definition handleCandidatePropose (m : pb.Message) : M raft unit :=
  describe ;; reportDroppedProposal m.

Definition handleCandidateReadIndex (m : pb.Message) : M raft unit :=
  describe ;;
  reportDroppedReadIndex m ;;
  modify (fun r => set_droppedReadIndexes (droppedReadIndexes r ++ [msgCtx m]) r).

Definition handleCandidateReplicate (m : pb.Message) : M raft unit :=
  r ← get; becomeFollower (term r) (pb.m_From m) ;; handleReplicateMessage m.
Definition handleCandidateInstallSnapshot (m : pb.Message) : M raft unit :=
  r ← get; becomeFollower (term r) (pb.m_From m) ;; handleInstallSnapshotMessage m.
Definition handleCandidateHeartbeat (m : pb.Message) : M raft unit :=
  r ← get; becomeFollower (term r) (pb.m_From m) ;; handleHeartbeatMessage m.

Definition handleCandidateRequestVoteResp (m : pb.Message) : M raft unit :=
  r ← get;
  if decide (is_Some (nonVotings r !! pb.m_From m)) then skip
  else
    count ← handleVoteResp (pb.m_From m) (pb.m_Reject m);
    describe ;;
    r ← get;
    if count =? quorum r then becomeLeader ;; broadcastReplicateMessage
    else if Z.of_nat (size (votes r)) - count =? quorum r
    then becomeFollower (term r) NoLeader
    else skip.

Definition handlePreVoteCandidateRequestPreVoteResp (m : pb.Message) : M raft unit :=
  r ← get;
  if decide (is_Some (nonVotings r !! pb.m_From m)) then skip
  else
    count ← handleVoteResp (pb.m_From m) (pb.m_Reject m);
    describe ;;
    r ← get;
    if count =? quorum r then campaign
    else if Z.of_nat (size (votes r)) - count =? quorum r
    then becomeFollower (term r) NoLeader
    else skip.

(** [lw]: the handlers that need the sender's remote. *)
Definition lw (f : pb.Message -> rkind -> M raft unit) (nm : pb.Message) : M raft unit :=
  r ← get;
  match find_remote (pb.m_From nm) r with
  | Some k => f nm k
  | None => describe
  end.

(** ** Ticks and the entry point *)

Definition timeForElection (r : raft) : bool :=
  randomizedElectionTimeout r <=? electionTick r.
Definition timeForHeartbeat (r : raft) : bool := heartbeatTimeout r <=? heartbeatTick r.
Definition timeForCheckQuorum (r : raft) : bool := electionTimeout r <=? electionTick r.
Definition timeToAbortLeaderTransfer (r : raft) : bool :=
  leaderTransfering r && (electionTimeout r <=? electionTick r).
Definition timeForRateLimitCheck (r : raft) : result bool :=
  if electionTimeout r =? 0 then PANIC DivideByZero
  else OK (tickCount r `mod` electionTimeout r =? 0).
Definition timeForInMemGC (r : raft) : bool := tickCount r `mod` inMemGcTimeout =? 0.

Definition quiescedTick : M raft unit :=
  r ← get;
  when (negb (quiesce r))
    (modify (set_quiesce true) ;;
     on_log (entryLog.on_inmem (modify inMemory.resize))) ;;
  modify (fun r => set_electionTick (electionTick r +ᵤ 1) r).

Section self.
Context (self : pb.Message -> M raft unit).

Definition nonLeaderTick : M raft unit :=
  r ← get;
  if isLeader r then panicf "noleader tick called on leader node"
  else
    modify (fun r => set_electionTick (electionTick r +ᵤ 1) r) ;;
    tm ← readr timeForRateLimitCheck;
    when (tm && server.Enabled (rl r))
      (on_rl (modify server.Tick) ;; sendRateLimitMessage) ;;
    r ← get;
    if isNonVoting r || isWitness r then skip
    else if negb (selfRemoved r) && timeForElection r then
      modify (set_electionTick 0) ;;
      self (pb.msg pb.Election |> pb.set_From (replicaID r))
    else skip.

(** [check] of [checkPendingSnapshotAck] on one member map. *)
Definition checkPendingAcks (k : rkind) : M raft unit :=
  r ← get;
  ids ← range_ (rmap k r);
  forM_ ids (fun from =>
    r ← get;
    match rmap k r !! from with
    | None => skip
    | Some rp =>
        if decide (remote.state rp = remote.remoteSnapshot) then
          let '(ack, expired) := remote.ack_tick (remote.delayed rp) in
          mod_remote k from (remote.set_delayed ack) ;;
          if expired : bool then
            self (pb.msg pb.SnapshotStatus |> pb.set_From from
                    |> pb.set_Reject (remote.rejected ack) |> pb.set_Hint 0) ;;
            mod_remote k from remote.clearSnapshotAck
          else modify (set_snapshotting true)
        else skip
    end).

Definition checkPendingSnapshotAck : M raft unit :=
  r ← get;
  if isLeader r && snapshotting r then
    modify (set_snapshotting false) ;;
    checkPendingAcks KRemote ;;
    checkPendingAcks KNonVoting ;;
    checkPendingAcks KWitness
  else skip.

Definition leaderTick : M raft unit :=
  mustBeLeader ;;
  modify (fun r => set_electionTick (electionTick r +ᵤ 1) r) ;;
  tm ← readr timeForRateLimitCheck;
  r ← get;
  when (tm && server.Enabled (rl r)) (on_rl (modify server.Tick)) ;;
  let abort := timeToAbortLeaderTransfer r in
  when (timeForCheckQuorum r)
    (modify (set_electionTick 0) ;;
     when (checkQuorum r) (self (pb.msg pb.CheckQuorum |> pb.set_From (replicaID r)))) ;;
  when abort abortLeaderTransfer ;;
  modify (fun r => set_heartbeatTick (heartbeatTick r +ᵤ 1) r) ;;
  r ← get;
  when (timeForHeartbeat r)
    (modify (set_heartbeatTick 0) ;;
     self (pb.msg pb.LeaderHeartbeat |> pb.set_From (replicaID r))) ;;
  checkPendingSnapshotAck.

Definition tick : M raft unit :=
  modify (set_quiesce false) ;;
  modify (fun r => set_tickCount (tickCount r +ᵤ 1) r) ;;
  r ← get;
  when (timeForInMemGC r) (on_log (entryLog.on_inmem (modify inMemory.tryResize))) ;;
  if isLeader r then leaderTick else nonLeaderTick.

Definition handleLocalTick (m : pb.Message) : M raft unit :=
  if pb.m_Reject m then quiescedTick else tick.

Definition handleFollowerTimeoutNow (m : pb.Message) : M raft unit :=
  describe ;;
  modify (fun r => set_electionTick (randomizedElectionTimeout r) r) ;;
  modify (set_isLeaderTransferTarget true) ;;
  tick ;;
  r ← get;
  when (isLeaderTransferTarget r) (modify (set_isLeaderTransferTarget false)).

(** [initializeHandlerMap] *)
Definition handlers (st : State) (t : pb.MessageType) : option (pb.Message -> M raft unit) :=
  match st, t with
  (* candidate *)
  | candidate, pb.Heartbeat => Some handleCandidateHeartbeat
  | candidate, pb.Propose => Some handleCandidatePropose
  | candidate, pb.ReadIndex => Some handleCandidateReadIndex
  | candidate, pb.Replicate => Some handleCandidateReplicate
  | candidate, pb.InstallSnapshot => Some handleCandidateInstallSnapshot
  | candidate, pb.RequestVoteResp => Some handleCandidateRequestVoteResp
  | candidate, pb.Election => Some handleNodeElection
  | candidate, pb.RequestVote => Some handleNodeRequestVote
  | candidate, pb.RequestPreVote => Some handleNodeRequestPreVote
  | candidate, pb.ConfigChangeEvent => Some handleNodeConfigChange
  | candidate, pb.LocalTick => Some handleLocalTick
  | candidate, pb.SnapshotReceived => Some handleRestoreRemote
  | candidate, pb.LogQuery => Some handleLogQuery
  (* prevote candidate *)
  | preVoteCandidate, pb.Heartbeat => Some handleCandidateHeartbeat
  | preVoteCandidate, pb.Propose => Some handleCandidatePropose
  | preVoteCandidate, pb.ReadIndex => Some handleCandidateReadIndex
  | preVoteCandidate, pb.Replicate => Some handleCandidateReplicate
  | preVoteCandidate, pb.InstallSnapshot => Some handleCandidateInstallSnapshot
  | preVoteCandidate, pb.RequestPreVoteResp => Some handlePreVoteCandidateRequestPreVoteResp
  | preVoteCandidate, pb.Election => Some handleNodeElection
  | preVoteCandidate, pb.RequestVote => Some handleNodeRequestVote
  | preVoteCandidate, pb.RequestPreVote => Some handleNodeRequestPreVote
  | preVoteCandidate, pb.ConfigChangeEvent => Some handleNodeConfigChange
  | preVoteCandidate, pb.LocalTick => Some handleLocalTick
  | preVoteCandidate, pb.SnapshotReceived => Some handleRestoreRemote
  | preVoteCandidate, pb.LogQuery => Some handleLogQuery
  (* follower *)
  | follower, pb.Propose => Some handleFollowerPropose
  | follower, pb.Replicate => Some handleFollowerReplicate
  | follower, pb.Heartbeat => Some handleFollowerHeartbeat
  | follower, pb.ReadIndex => Some handleFollowerReadIndex
  | follower, pb.LeaderTransfer => Some handleFollowerLeaderTransfer
  | follower, pb.ReadIndexResp => Some handleFollowerReadIndexResp
  | follower, pb.InstallSnapshot => Some handleFollowerInstallSnapshot
  | follower, pb.Election => Some handleNodeElection
  | follower, pb.RequestVote => Some handleNodeRequestVote
  | follower, pb.RequestPreVote => Some handleNodeRequestPreVote
  | follower, pb.TimeoutNow => Some handleFollowerTimeoutNow
  | follower, pb.ConfigChangeEvent => Some handleNodeConfigChange
  | follower, pb.LocalTick => Some handleLocalTick
  | follower, pb.SnapshotReceived => Some handleRestoreRemote
  | follower, pb.LogQuery => Some handleLogQuery
  (* leader *)
  | leader, pb.LeaderHeartbeat => Some handleLeaderHeartbeat
  | leader, pb.CheckQuorum => Some handleLeaderCheckQuorum
  | leader, pb.Propose => Some handleLeaderPropose
  | leader, pb.ReadIndex => Some handleLeaderReadIndex
  | leader, pb.ReplicateResp => Some (lw handleLeaderReplicateResp)
  | leader, pb.HeartbeatResp => Some (lw handleLeaderHeartbeatResp)
  | leader, pb.SnapshotStatus => Some (lw handleLeaderSnapshotStatus)
  | leader, pb.Unreachable => Some (lw handleLeaderUnreachable)
  | leader, pb.LeaderTransfer => Some handleLeaderTransfer
  | leader, pb.Election => Some handleNodeElection
  | leader, pb.RequestVote => Some handleNodeRequestVote
  | leader, pb.RequestPreVote => Some handleNodeRequestPreVote
  | leader, pb.ConfigChangeEvent => Some handleNodeConfigChange
  | leader, pb.LocalTick => Some handleLocalTick
  | leader, pb.SnapshotReceived => Some handleRestoreRemote
  | leader, pb.RateLimit => Some handleLeaderRateLimit
  | leader, pb.LogQuery => Some handleLogQuery
  (* nonVoting: re-routed to the follower handlers *)
  | nonVoting, pb.Heartbeat => Some handleFollowerHeartbeat
  | nonVoting, pb.Replicate => Some handleFollowerReplicate
  | nonVoting, pb.InstallSnapshot => Some handleFollowerInstallSnapshot
  | nonVoting, pb.RequestVote => Some handleNodeRequestVote
  | nonVoting, pb.RequestPreVote => Some handleNodeRequestPreVote
  | nonVoting, pb.Propose => Some handleFollowerPropose
  | nonVoting, pb.ReadIndex => Some handleFollowerReadIndex
  | nonVoting, pb.ReadIndexResp => Some handleFollowerReadIndexResp
  | nonVoting, pb.ConfigChangeEvent => Some handleNodeConfigChange
  | nonVoting, pb.LocalTick => Some handleLocalTick
  | nonVoting, pb.SnapshotReceived => Some handleRestoreRemote
  | nonVoting, pb.LogQuery => Some handleLogQuery
  (* witness: re-routed to the follower handlers *)
  | witness, pb.Heartbeat => Some handleFollowerHeartbeat
  | witness, pb.Replicate => Some handleFollowerReplicate
  | witness, pb.InstallSnapshot => Some handleFollowerInstallSnapshot
  | witness, pb.RequestVote => Some handleNodeRequestVote
  | witness, pb.RequestPreVote => Some handleNodeRequestPreVote
  | witness, pb.ConfigChangeEvent => Some handleNodeConfigChange
  | witness, pb.LocalTick => Some handleLocalTick
  | witness, pb.SnapshotReceived => Some handleRestoreRemote
  | _, _ => None
  end.

Definition defaultHandle (m : pb.Message) : M raft unit :=
  r ← get;
  match handlers (state r) (pb.m_Type m) with
  | Some f => f m
  | None => if pb.isNamed (pb.m_Type m) then skip else panic_ IndexOutOfRange
  end.

(** The body of [Handle]. *)
Definition handleStep (m : pb.Message) : M raft unit :=
  r ← get;
  if inconsistentRaftConfig m r
  then panicf "received preVote message when preVote is not enabled"
  else
    ignored ← onMessageTermNotMatched m;
    if negb ignored then
      (if negb (isPreVoteMessage (pb.m_Type m)) then doubleCheckTermMatched (pb.m_Term m)
       else skip) ;;
      defaultHandle m
    else describe.

End self.

Fixpoint HandleF (fuel : nat) (m : pb.Message) : M raft unit :=
  match fuel with
  | O => panic_ OutOfFuel
  | S fuel => handleStep (HandleF fuel) m
  end.

(** A tick handler calls [Handle] with messages whose handlers do not. *)
Definition Handle (m : pb.Message) : M raft unit := HandleF 2 m.

(** [checkHandlerMap]: the table must have no handler at these places. *)
Definition checkHandlerMap_checks : list (State * pb.MessageType) :=
  [(leader, pb.Heartbeat); (leader, pb.Replicate); (leader, pb.InstallSnapshot);
   (leader, pb.ReadIndexResp); (leader, pb.RequestPreVoteResp);
   (follower, pb.ReplicateResp); (follower, pb.HeartbeatResp);
   (follower, pb.SnapshotStatus); (follower, pb.Unreachable);
   (follower, pb.RequestPreVoteResp);
   (candidate, pb.ReplicateResp); (candidate, pb.HeartbeatResp);
   (candidate, pb.SnapshotStatus); (candidate, pb.Unreachable);
   (candidate, pb.RequestPreVoteResp);
   (preVoteCandidate, pb.ReplicateResp); (preVoteCandidate, pb.HeartbeatResp);
   (preVoteCandidate, pb.SnapshotStatus); (preVoteCandidate, pb.Unreachable);
   (nonVoting, pb.Election); (nonVoting, pb.RequestVoteResp);
   (nonVoting, pb.ReplicateResp); (nonVoting, pb.HeartbeatResp);
   (nonVoting, pb.RequestPreVoteResp);
   (witness, pb.Election); (witness, pb.Propose); (witness, pb.ReadIndex);
   (witness, pb.ReadIndexResp); (witness, pb.RequestVoteResp);
   (witness, pb.ReplicateResp); (witness, pb.HeartbeatResp);
   (witness, pb.RequestPreVoteResp); (witness, pb.LogQuery)].

Definition checkHandlerMap : result unit :=
  if forallb (fun '(st, t) => match handlers (fun _ => skip) st t with
                              | None => true | Some _ => false end)
       checkHandlerMap_checks
  then OK tt else PANIC (PanicMsg "unexpected msg handler").

(** ** Construction *)

Definition newMembers (m : gmap Z string) : gmap Z remote :=
  (fun _ => remote.newRemote 0 1) <$> m.

(** The struct literal of [newRaft] before the membership is loaded. *)
Definition initRaft (c : Config) (db : DB) : raft :=
  let mb := (NodeState db).2 in
  {| events_on := false; emitted := []; choices := 0; hasNotAppliedConfigChange := None;
     votes := ∅;
     log := entryLog.newEntryLog db (server.NewInMemRateLimiter (c_MaxInMemLogSize c));
     remotes := newMembers (pb.mb_Addresses mb);
     nonVotings := newMembers (pb.mb_NonVotings mb);
     witnesses := newMembers (pb.mb_Witnesses mb);
     logQueryResult := None; leaderUpdate := None; readIndex := readIndex.newReadIndex;
     matched := []; msgs := []; droppedReadIndexes := []; droppedEntries := [];
     readyToRead := []; prevLeader := mkLeaderInfo 0 0 0 0; state := follower;
     leaderTransferTarget := 0; leaderID := NoLeader; shardID := c_ShardID c;
     replicaID := c_ReplicaID c; term := 0; applied := 0; vote := 0; tickCount := 0;
     electionTick := 0; heartbeatTick := 0; heartbeatTimeout := c_HeartbeatRTT c;
     electionTimeout := c_ElectionRTT c; randomizedElectionTimeout := 0;
     snapshotting := false; checkQuorum := c_CheckQuorum c; quiesce := false;
     isLeaderTransferTarget := false; pendingConfigChange := false;
     preVote := c_PreVote c |}.

Definition initState (c : Config) (db : DB) : M raft unit :=
  resetMatchValueArray ;;
  let st := (NodeState db).1 in
  when (negb (pb.IsEmptyState st)) (loadState st) ;;
  r ← get;
  (if c_IsNonVoting c then
     modify (set_state nonVoting) ;; becomeNonVoting (term r) NoLeader
   else if c_IsWitness c then
     modify (set_state witness) ;; becomeWitness (term r) NoLeader
   else becomeFollower (term r) NoLeader) ;;
  readr (fun _ => checkHandlerMap).

Definition newRaft (c : Config) (db : DB) : result raft :=
  match Validate c with
  | Some e => PANIC (PanicMsg e)
  | None =>
      match initState c db (initRaft c db) with
      | Ret _ r => OK r
      | Err e _ => ERR e
      | Panic p => PANIC p
      end
  end.

End raft.
