(* ===== verification/Samples.v ===== *)
(** * Concrete replicas

    Replica 1 of a three-member shard, and the states it goes through in a
    short run: follower, candidate, leader with proposals, follower of a new
    leader.  The witnesses of the theorems evaluate the model on them. *)
From S2P Require Import Prelude Raftpb RateLimiter Remote ReadIndex LogDB InMemory LogReader.
From S2P Require Import EntryLog RaftState Raft.

Abbreviation reader := (logreader.LogReader (list pb.Entry)).

Definition members3 : gmap Z string := {[1 := "a1"; 2 := "a2"; 3 := "a3"]}.
Definition bootSnapshot : pb.Snapshot :=
  pb.mkSnapshot "" 0 0 0 (pb.mkMembership 0 members3 ∅ ∅ ∅) [] [] false 0
    pb.UnknownStateMachine false 0 false.

(** A log reader with two entries of term 1 on disk. *)
Definition disk : list pb.Entry :=
  [pb.entry pb.ApplicationEntry 1 1; pb.entry pb.ApplicationEntry 1 2].
Definition reader0 : reader :=
  logreader.mkLogReader disk bootSnapshot (pb.mkState 1 0 0) 0 1 1 0 3.

Definition config0 (checkQuorum preVote : bool) : Config :=
  mkConfig 1 1 checkQuorum preVote 10 1 0 0 0 0 false false.

Definition of_result (x : result (raft reader)) (d : raft reader) : raft reader :=
  match x with OK r => r | _ => d end.
Definition boot (c : Config) : raft reader := of_result (newRaft c reader0) (initRaft c reader0).

(** The state after a message, the same state if it panics. *)
Definition next (m : pb.Message) (r : raft reader) : raft reader :=
  match Handle m r with Ret _ r' | Err _ r' => r' | Panic _ => r end.
Definition play (ms : list pb.Message) (r : raft reader) : raft reader :=
  fold_left (fun r m => next m r) ms r.

Definition election : pb.Message := pb.msg pb.Election.
Definition grant (from term : Z) : pb.Message :=
  pb.set_Term term (pb.set_From from (pb.msg pb.RequestVoteResp)).
Definition propose (n : nat) : pb.Message :=
  pb.set_Entries (replicate n pb.zeroEntry) (pb.msg pb.Propose).
Definition ack (from term idx : Z) : pb.Message :=
  pb.set_LogIndex idx (pb.set_Term term (pb.set_From from (pb.msg pb.ReplicateResp))).
Definition voteRequest (from term idx logTerm : Z) : pb.Message :=
  pb.set_LogTerm logTerm (pb.set_LogIndex idx
    (pb.set_Term term (pb.set_From from (pb.msg pb.RequestVote)))).
Definition replicateMsg (from term idx logTerm commit : Z) (es : list pb.Entry) : pb.Message :=
  pb.set_Entries es (pb.set_Commit commit (pb.set_LogTerm logTerm (pb.set_LogIndex idx
    (pb.set_Term term (pb.set_From from (pb.msg pb.Replicate)))))).

Definition follower1 : raft reader := boot (config0 false false).
Definition candidate1 : raft reader := next election follower1.
Definition leader1 : raft reader := next (grant 2 2) candidate1.
Definition leader1_log : raft reader := play [propose 2; ack 2 2 3] leader1.
Definition deposed1 : raft reader := next (replicateMsg 3 4 3 2 3 []) leader1_log.

(** The run goes where its names say. *)
Lemma run_ok :
  state follower1 = follower /\ term follower1 = 1 /\ lastIndex follower1 = 2 /\
  state candidate1 = candidate /\ term candidate1 = 2 /\ vote candidate1 = 1 /\
  state leader1 = leader /\ lastIndex leader1 = 3 /\
  lastIndex leader1_log = 5 /\ committed leader1_log = 3 /\
  state deposed1 = follower /\ term deposed1 = 4.
Proof. vm_compute. repeat split. Qed.
