(* ===== verification/RaftFuel.v ===== *)
(** * The recursion of [Handle]

    [Handle] calls itself only from the tick handlers, with local messages whose
    handlers do not call it again.  Two levels of fuel are therefore enough: the
    model satisfies the recursive equation of the source, and more fuel changes
    nothing. *)
From S2P Require Import Prelude Raftpb RateLimiter Remote ReadIndex LogDB InMemory EntryLog.
From S2P Require Import RaftState Raft.
Import inMemory(inMemory) entryLog(entryLog) remote(remote).

(** ** Computations equal at every state *)

Definition eqM {S A} (c c' : M S A) : Prop := forall s, c s = c' s.

Lemma eqM_refl {S A} (c : M S A) : eqM c c.
Proof. done. Qed.
Lemma eqM_bind {S A C} (c c' : M S A) (k k' : A -> M S C) :
  eqM c c' -> (forall a, eqM (k a) (k' a)) -> eqM (c ≫= k) (c' ≫= k').
Proof. intros Hc Hk s. unfold mbind, M_bind. rewrite Hc. destruct (c' s); [apply Hk|done..]. Qed.
Lemma eqM_when {S} b (c c' : M S unit) : eqM c c' -> eqM (when b c) (when b c').
Proof. by destruct b. Qed.
Lemma eqM_forM {S Y} (l : list Y) (f f' : Y -> M S unit) :
  (forall y, eqM (f y) (f' y)) -> eqM (forM_ l f) (forM_ l f').
Proof. intros Hf. induction l; simpl; [done|]. by apply eqM_bind. Qed.

(** Walks two copies of a program down to the places where they differ. *)
Ltac eqM_step :=
  lazymatch goal with
  | |- forall _, _ => intro
  | |- eqM ?c ?c => apply eqM_refl
  | |- eqM (let x := _ in _) _ => cbv zeta
  | |- eqM (mbind _ _) (mbind _ _) => apply eqM_bind
  | |- eqM (when _ _) (when _ _) => apply eqM_when
  | |- eqM (forM_ _ _) (forM_ _ _) => apply eqM_forM
  | |- eqM (match ?x with _ => _ end) _ => destruct x
  end.
Ltac eqM_tac := repeat eqM_step.

Section fuel.
Context {DB : Type} `{ILogDB DB} `{GoRuntime}.
Abbreviation raft := (raft DB).

(** The messages a tick sends to its own replica. *)
Definition tickMsg (m : pb.Message) : Prop :=
  pb.m_Type m = pb.Election \/ pb.m_Type m = pb.CheckQuorum \/
  pb.m_Type m = pb.LeaderHeartbeat \/ pb.m_Type m = pb.SnapshotStatus.

Section congruence.
Context (self self' : pb.Message -> M raft unit).
Context (Hself : forall m, tickMsg m -> eqM (self m) (self' m)).

Ltac self_tac := eqM_tac; apply Hself; unfold tickMsg; simpl; auto.

Lemma nonLeaderTick_eqM : eqM (nonLeaderTick self) (nonLeaderTick self').
Proof. unfold nonLeaderTick. self_tac. Qed.
Lemma checkPendingAcks_eqM k : eqM (checkPendingAcks self k) (checkPendingAcks self' k).
Proof. unfold checkPendingAcks. self_tac. Qed.
Lemma leaderTick_eqM : eqM (leaderTick self) (leaderTick self').
Proof.
  unfold leaderTick, checkPendingSnapshotAck.
  eqM_tac; try apply checkPendingAcks_eqM; apply Hself; unfold tickMsg; simpl; auto.
Qed.
Lemma tick_eqM : eqM (tick self) (tick self').
Proof. unfold tick. eqM_tac; [apply leaderTick_eqM|apply nonLeaderTick_eqM]. Qed.
Lemma handleLocalTick_eqM m : eqM (handleLocalTick self m) (handleLocalTick self' m).
Proof. unfold handleLocalTick. eqM_tac. apply tick_eqM. Qed.
Lemma handleFollowerTimeoutNow_eqM m :
  eqM (handleFollowerTimeoutNow self m) (handleFollowerTimeoutNow self' m).
Proof. unfold handleFollowerTimeoutNow. eqM_tac. apply tick_eqM. Qed.

Lemma defaultHandle_eqM m : eqM (defaultHandle self m) (defaultHandle self' m).
Proof.
  unfold defaultHandle. apply eqM_bind; [done|]. intros r.
  destruct (state r), (pb.m_Type m); simpl;
    solve [apply eqM_refl|apply handleLocalTick_eqM|apply handleFollowerTimeoutNow_eqM].
Qed.
Lemma handleStep_eqM m : eqM (handleStep self m) (handleStep self' m).
Proof. unfold handleStep. eqM_tac. apply defaultHandle_eqM. Qed.

End congruence.

(** A tick's message is handled without calling [Handle] again. *)
Lemma tickMsg_leaf self self' m :
  tickMsg m -> eqM (handleStep self m) (handleStep self' m).
Proof.
  intros Ht. unfold handleStep. eqM_tac. unfold defaultHandle.
  apply eqM_bind; [done|]. intros r.
  destruct Ht as [Ht|[Ht|[Ht|Ht]]]; rewrite Ht; destruct (state r); apply eqM_refl.
Qed.

Lemma HandleF_tick n n' m : tickMsg m -> eqM (HandleF (S n) m) (HandleF (S n') m).
Proof. intros Ht. simpl. by apply tickMsg_leaf. Qed.

Lemma HandleF_enough n m : eqM (HandleF (S (S n)) m) (Handle m).
Proof.
  unfold Handle. change (HandleF (S (S n)) m) with (handleStep (HandleF (S n)) m).
  change (HandleF 2 m) with (handleStep (HandleF 1) m).
  apply handleStep_eqM. intros m' Hm'. by apply HandleF_tick.
Qed.

(** C32: the fuel of [Handle] is enough: it satisfies the recursive equation of
    the source, where the tick handlers call [Handle] itself, and any larger fuel
    gives the same result. *)
Theorem Handle_recursion (m : pb.Message) (r : raft) :
  Handle m r = handleStep Handle m r /\ forall n, HandleF (2 + n) m r = Handle m r.
Proof.
  split; [|intros n; apply HandleF_enough].
  change (Handle m r) with (handleStep (HandleF 1) m r).
  apply handleStep_eqM. intros m' Hm'. apply (HandleF_tick 0 1 m' Hm').
Qed.

(** The handler table passes the code's own check at construction: no role
    has a handler for a message it must never process. *)
Theorem handler_table_checked : @checkHandlerMap DB _ _ = OK tt.
Proof. reflexivity. Qed.

End fuel.
