(* ===== verification/RaftFrame.v ===== *)
(** * Bookkeeping in the Raft core

    [mem] relates two states with the same term, vote, role and log (up to slice
    allocation and the rate limiter).  Most operations of [Raft.v] only send
    messages, update replication progress and move timers: they preserve
    [mem]. *)
From S2P Require Import Prelude Raftpb RateLimiter Remote ReadIndex LogDB InMemory EntryLog.
From S2P Require Import RaftState Raft.
Import inMemory(inMemory) entryLog(entryLog) remote(remote).

Section frame.
Context {DB : Type} `{ILogDB DB} `{GoRuntime}.
Abbreviation raft := (raft DB).

(** Same log up to the rate limiter and the slice allocation. *)
Definition logsoft (l l' : entryLog DB) : Prop :=
  entryLog.logdb l' = entryLog.logdb l /\
  entryLog.committed l' = entryLog.committed l /\
  entryLog.processed l' = entryLog.processed l /\
  inMemory.snapshot (entryLog.inmem l') = inMemory.snapshot (entryLog.inmem l) /\
  inMemory.entries (entryLog.inmem l') = inMemory.entries (entryLog.inmem l) /\
  inMemory.savedTo (entryLog.inmem l') = inMemory.savedTo (entryLog.inmem l) /\
  inMemory.markerIndex (entryLog.inmem l') = inMemory.markerIndex (entryLog.inmem l) /\
  inMemory.appliedToIndex (entryLog.inmem l') = inMemory.appliedToIndex (entryLog.inmem l) /\
  inMemory.appliedToTerm (entryLog.inmem l') = inMemory.appliedToTerm (entryLog.inmem l).

#[global] Instance logsoft_preorder : PreOrder logsoft.
Proof.
  split; unfold logsoft; [done|]. intros l1 l2 l3 H1 H2.
  destruct_and!. repeat split; congruence.
Qed.

(** The fields fixed at construction. *)
Definition static (r : raft) : Z * Z * Z * Z * bool * bool :=
  (shardID r, replicaID r, electionTimeout r, heartbeatTimeout r, checkQuorum r, preVote r).

(** Same protocol state: term, vote, role and log. *)
Definition mem (r r' : raft) : Prop :=
  term r' = term r /\ vote r' = vote r /\ state r' = state r /\
  static r' = static r /\ logsoft (log r) (log r').

#[global] Instance mem_preorder : PreOrder mem.
Proof.
  split; unfold mem.
  - intros r. repeat split; reflexivity.
  - intros r1 r2 r3 (?&?&?&?&?) (?&?&?&?&?).
    do 4 (split; [congruence|]). etrans; eassumption.
Qed.

Lemma pres_mem_modify f : (forall r, mem r (f r)) -> pres mem (modify f).
Proof. apply pres_modify. Qed.


Ltac mem_tac := intros; unfold mem; simpl; repeat split_and!; reflexivity.
Ltac mpres := repeat (pres_step || (apply pres_mem_modify; mem_tac)).

Lemma range_mem {V} (m : gmap Z V) : pres mem (range_ m).
Proof. intros r. unfold wp, range_. mem_tac. Qed.
Lemma log_r_mem {A} (f : entryLog DB -> result A) : pres mem (log_r f).
Proof. unfold log_r. mpres. Qed.
#[local] Hint Resolve range_mem log_r_mem : pres.
Lemma emit_mem e : pres mem (emit e).
Proof. unfold emit. mpres. Qed.
Lemma describe_mem : pres mem describe.
Proof. unfold describe. mpres. Qed.
#[local] Hint Resolve emit_mem describe_mem : pres.
Lemma describe_pure (r : raft) (Q : unit -> raft -> Prop) E :
  Q tt r -> wp any_panic describe Q E r.
Proof.
  intros HQ. unfold describe. apply wp_bind, wp_try, wp_readr.
  destruct (entryLog.term _ _) as [t|e|p]; [done| |done]. by destruct e.
Qed.
Lemma mustBeLeader_mem : pres mem mustBeLeader.
Proof. unfold mustBeLeader. mpres. Qed.
Lemma setLeaderID_mem id : pres mem (setLeaderID id).
Proof. unfold setLeaderID. mpres. Qed.
Lemma send_mem m : pres mem (send m).
Proof. unfold send. mpres. Qed.
#[local] Hint Resolve mustBeLeader_mem setLeaderID_mem send_mem : pres.

Lemma on_remote_mem {A} k id (c : M remote A) : pres mem (on_remote k id c).
Proof.
  intros r. unfold wp, on_remote. destruct (rmap k r !! id) as [rp|]; [|done].
  destruct (c rp), k; (done || mem_tac).
Qed.
Lemma zoom_readIndex_mem {A} (c : M readIndex.readIndex A) :
  pres mem (zoom readIndex set_readIndex c).
Proof. intros r. unfold wp, zoom. destruct (c _); (done || mem_tac). Qed.
Lemma on_rl_mem {A} (c : M server.InMemRateLimiter A) : pres mem (on_rl c).
Proof.
  intros r. unfold wp, on_rl, on_log, entryLog.on_inmem, zoom.
  destruct (c _); (done || mem_tac).
Qed.
#[local] Hint Resolve on_remote_mem zoom_readIndex_mem on_rl_mem : pres.
Lemma mod_remote_mem k id f : pres mem (mod_remote k id f).
Proof. apply on_remote_mem. Qed.
Lemma get_remote_mem k id : pres mem (get_remote k id).
Proof. apply on_remote_mem. Qed.
Lemma flag_remote_mem k id f : pres mem (flag_remote k id f).
Proof. apply on_remote_mem. Qed.
Lemma nodes_mem : pres mem nodes.
Proof. unfold nodes. mpres. Qed.
Lemma resetMatchValueArray_mem : pres mem resetMatchValueArray.
Proof. unfold resetMatchValueArray. mpres. Qed.
Lemma leaderHasQuorum_mem : pres mem leaderHasQuorum.
Proof. unfold leaderHasQuorum. mpres. Qed.
Lemma setPending_mem : pres mem setPendingConfigChange.
Proof. unfold setPendingConfigChange. mpres. Qed.
Lemma clearPending_mem : pres mem clearPendingConfigChange.
Proof. unfold clearPendingConfigChange. mpres. Qed.
Lemma abortLeaderTransfer_mem : pres mem abortLeaderTransfer.
Proof. unfold abortLeaderTransfer. mpres. Qed.
#[local] Hint Resolve mod_remote_mem get_remote_mem flag_remote_mem nodes_mem
  resetMatchValueArray_mem leaderHasQuorum_mem setPending_mem clearPending_mem
  abortLeaderTransfer_mem : pres.

Lemma sendRateLimitMessage_mem : pres mem sendRateLimitMessage.
Proof. unfold sendRateLimitMessage. mpres. Qed.
Lemma sendReplicateMessage_mem to : pres mem (sendReplicateMessage to).
Proof. unfold sendReplicateMessage. mpres. Qed.
Lemma sendHeartbeatMessage_mem to h m : pres mem (sendHeartbeatMessage to h m).
Proof. unfold sendHeartbeatMessage. mpres. Qed.
Lemma sendTimeoutNowMessage_mem id : pres mem (sendTimeoutNowMessage id).
Proof. unfold sendTimeoutNowMessage. mpres. Qed.
#[local] Hint Resolve sendRateLimitMessage_mem sendReplicateMessage_mem
  sendHeartbeatMessage_mem sendTimeoutNowMessage_mem : pres.
Lemma broadcastReplicateMessage_mem : pres mem broadcastReplicateMessage.
Proof. unfold broadcastReplicateMessage. mpres. Qed.
Lemma broadcastHeartbeatMessageWithHint_mem c :
  pres mem (broadcastHeartbeatMessageWithHint c).
Proof. unfold broadcastHeartbeatMessageWithHint. mpres. Qed.
#[local] Hint Resolve broadcastReplicateMessage_mem
  broadcastHeartbeatMessageWithHint_mem : pres.
Lemma broadcastHeartbeatMessage_mem : pres mem broadcastHeartbeatMessage.
Proof. unfold broadcastHeartbeatMessage. mpres. Qed.
Lemma preLeaderPromotion_mem : pres mem preLeaderPromotionHandleConfigChange.
Proof. unfold preLeaderPromotionHandleConfigChange. mpres. Qed.
Lemma setRandomizedElectionTimeout_mem : pres mem setRandomizedElectionTimeout.
Proof.
  intros r. unfold wp, setRandomizedElectionTimeout. destruct (_ =? _); [done|mem_tac].
Qed.
Lemma handleVoteResp_mem f b : pres mem (handleVoteResp f b).
Proof. unfold handleVoteResp. mpres. Qed.
Lemma setMember_mem k id m n : pres mem (setMember k id m n).
Proof.
  unfold setMember. mpres. apply pres_mem_modify. intros r. destruct k; mem_tac.
Qed.
#[local] Hint Resolve broadcastHeartbeatMessage_mem preLeaderPromotion_mem
  setRandomizedElectionTimeout_mem handleVoteResp_mem setMember_mem : pres.
Lemma restoreMember_mem k id : pres mem (restoreMember k id).
Proof. unfold restoreMember. mpres. Qed.
Lemma reportDroppedProposal_mem m : pres mem (reportDroppedProposal m).
Proof. unfold reportDroppedProposal. mpres. Qed.
Lemma reportDroppedReadIndex_mem m : pres mem (reportDroppedReadIndex m).
Proof. unfold reportDroppedReadIndex. mpres. Qed.
Lemma addReadyToRead_mem i c : pres mem (addReadyToRead i c).
Proof. unfold addReadyToRead. mpres. Qed.
#[local] Hint Resolve restoreMember_mem reportDroppedProposal_mem
  reportDroppedReadIndex_mem addReadyToRead_mem : pres.

Lemma filterConfigChanges_mem ents : pres mem (filterConfigChanges ents).
Proof. induction ents; simpl; mpres. Qed.
Lemma enterRetryState_mem k id : pres mem (enterRetryState k id).
Proof. unfold enterRetryState. mpres. Qed.
Lemma hasCommittedEntryAtCurrentTerm_mem : pres mem hasCommittedEntryAtCurrentTerm.
Proof. unfold hasCommittedEntryAtCurrentTerm. mpres. Qed.
#[local] Hint Resolve filterConfigChanges_mem enterRetryState_mem
  hasCommittedEntryAtCurrentTerm_mem : pres.
Lemma handleReadIndexLeaderConfirmation_mem m :
  pres mem (handleReadIndexLeaderConfirmation m).
Proof. unfold handleReadIndexLeaderConfirmation. mpres. Qed.
#[local] Hint Resolve handleReadIndexLeaderConfirmation_mem : pres.

(** *** Handlers that only do bookkeeping *)
Lemma handleNodeRequestPreVote_mem m : pres mem (handleNodeRequestPreVote m).
Proof. unfold handleNodeRequestPreVote. mpres. Qed.
Lemma handleLogQuery_mem m : pres mem (handleLogQuery m).
Proof. unfold handleLogQuery. mpres. Qed.
Lemma handleLeaderHeartbeat_mem m : pres mem (handleLeaderHeartbeat m).
Proof. unfold handleLeaderHeartbeat. mpres. Qed.
Lemma handleLeaderReadIndex_mem m : pres mem (handleLeaderReadIndex m).
Proof. unfold handleLeaderReadIndex. mpres. Qed.
Lemma handleLeaderHeartbeatResp_mem m k : pres mem (handleLeaderHeartbeatResp m k).
Proof. unfold handleLeaderHeartbeatResp. mpres. Qed.
Lemma handleLeaderTransfer_mem m : pres mem (handleLeaderTransfer m).
Proof. unfold handleLeaderTransfer. mpres. Qed.
Lemma handleLeaderSnapshotStatus_mem m k : pres mem (handleLeaderSnapshotStatus m k).
Proof. unfold handleLeaderSnapshotStatus. mpres. Qed.
Lemma handleLeaderUnreachable_mem m k : pres mem (handleLeaderUnreachable m k).
Proof. unfold handleLeaderUnreachable. mpres. Qed.
Lemma handleLeaderRateLimit_mem m : pres mem (handleLeaderRateLimit m).
Proof. unfold handleLeaderRateLimit. mpres. Qed.
Lemma handleFollowerPropose_mem m : pres mem (handleFollowerPropose m).
Proof. unfold handleFollowerPropose. mpres. Qed.
Lemma leaderIsAvailable_mem : pres mem leaderIsAvailable.
Proof. unfold leaderIsAvailable. mpres. Qed.
#[local] Hint Resolve leaderIsAvailable_mem : pres.
Lemma handleFollowerReadIndex_mem m : pres mem (handleFollowerReadIndex m).
Proof. unfold handleFollowerReadIndex. mpres. Qed.
Lemma handleFollowerLeaderTransfer_mem m : pres mem (handleFollowerLeaderTransfer m).
Proof. unfold handleFollowerLeaderTransfer. mpres. Qed.
Lemma handleFollowerReadIndexResp_mem m : pres mem (handleFollowerReadIndexResp m).
Proof. unfold handleFollowerReadIndexResp. mpres. Qed.
Lemma handleCandidatePropose_mem m : pres mem (handleCandidatePropose m).
Proof. unfold handleCandidatePropose. mpres. Qed.
Lemma handleCandidateReadIndex_mem m : pres mem (handleCandidateReadIndex m).
Proof. unfold handleCandidateReadIndex. mpres. Qed.
Lemma quiescedTick_mem : pres mem quiescedTick.
Proof. unfold quiescedTick. mpres. Qed.
Lemma tryResize_mem : pres mem (on_log (entryLog.on_inmem (modify inMemory.tryResize))).
Proof.
  apply pres_mem_modify. intros r. unfold inMemory.tryResize.
  destruct (inMemory.shrunk _); mem_tac.
Qed.
Lemma dropRequestVote_mem m : pres mem (dropRequestVoteFromHighTermNode m).
Proof. unfold dropRequestVoteFromHighTermNode. mpres. Qed.
Lemma doubleCheckTermMatched_mem t : pres mem (doubleCheckTermMatched t).
Proof. unfold doubleCheckTermMatched. mpres. Qed.
End frame.

Ltac mem_tac := intros; unfold mem; simpl; repeat split_and!; reflexivity.

#[export] Hint Resolve
  range_mem log_r_mem emit_mem describe_mem mustBeLeader_mem setLeaderID_mem
  send_mem on_remote_mem zoom_readIndex_mem on_rl_mem mod_remote_mem
  get_remote_mem flag_remote_mem nodes_mem resetMatchValueArray_mem
  leaderHasQuorum_mem setPending_mem clearPending_mem abortLeaderTransfer_mem
  sendRateLimitMessage_mem sendReplicateMessage_mem sendHeartbeatMessage_mem
  sendTimeoutNowMessage_mem broadcastReplicateMessage_mem
  broadcastHeartbeatMessageWithHint_mem broadcastHeartbeatMessage_mem
  preLeaderPromotion_mem setRandomizedElectionTimeout_mem handleVoteResp_mem
  setMember_mem restoreMember_mem reportDroppedProposal_mem
  reportDroppedReadIndex_mem addReadyToRead_mem filterConfigChanges_mem
  enterRetryState_mem hasCommittedEntryAtCurrentTerm_mem
  handleReadIndexLeaderConfirmation_mem handleNodeRequestPreVote_mem
  handleLogQuery_mem handleLeaderHeartbeat_mem handleLeaderReadIndex_mem
  handleLeaderHeartbeatResp_mem handleLeaderTransfer_mem
  handleLeaderSnapshotStatus_mem handleLeaderUnreachable_mem
  handleLeaderRateLimit_mem handleFollowerPropose_mem leaderIsAvailable_mem
  handleFollowerReadIndex_mem handleFollowerLeaderTransfer_mem
  handleFollowerReadIndexResp_mem handleCandidatePropose_mem
  handleCandidateReadIndex_mem quiescedTick_mem tryResize_mem dropRequestVote_mem
  doubleCheckTermMatched_mem : pres.
#[export] Hint Extern 1 (pres mem (modify _)) => apply pres_mem_modify; mem_tac : pres.
