(* ===== verification/RaftSteps.v ===== *)
(** * Every execution of [Handle] is a sequence of atomic protocol steps

    [astep] is the step relation of one Raft replica: raising the term, casting
    a vote, changing role, committing, appending as leader, accepting entries
    or a snapshot as a non-leader, and bookkeeping that touches none of these.
    [Handle_steps] shows that whatever message [Handle] processes, and whether
    it returns normally or with an error, the replica moves along [astep].
    Safety properties are then proved by induction on the steps. *)
From S2P Require Import Prelude Raftpb RateLimiter Remote ReadIndex LogDB InMemory EntryLog.
From S2P Require Import RaftState Raft RaftFrame.
Import inMemory(inMemory) entryLog(entryLog) remote(remote).

(** The roles that only learn a term from others. *)
Definition passive (s : State) : Prop := s = follower \/ s = nonVoting \/ s = witness.
(** The roles that may start an election. *)
Definition electable (s : State) : Prop := s <> leader /\ s <> nonVoting /\ s <> witness.

(** The role changes within a term. *)
Definition edge (s s' : State) : Prop :=
  match s' with
  | follower => s <> witness
  | preVoteCandidate => electable s
  | leader => s = candidate \/ s = leader
  | candidate | nonVoting | witness => False
  end.

Section steps.
Context {DB : Type} `{ILogDB DB} `{GoRuntime}.
Abbreviation raft := (raft DB).

(** What is known of the messages received, and of the last index after an
    append by the leader. *)
Context (V : pb.Message -> Prop) (B : Z -> Prop).

(** The message carries no term, or the replica's. *)
Definition inTerm (m : pb.Message) (t : Z) : Prop := pb.m_Term m = 0 \/ pb.m_Term m = t.

Inductive astep (r : raft) : raft -> Prop :=
| a_mem r' : mem r r' -> astep r r'
| a_term t : term r < t -> passive (state r) ->
    astep r (set_vote NoLeader (set_term t r))
| a_candidate : electable (state r) ->
    astep r (set_vote (replicaID r) (set_term (term r + 1) (set_state candidate r)))
| a_vote v : vote r = NoNode \/ vote r = v -> astep r (set_vote v r)
| a_state s : edge (state r) s -> astep r (set_state s r)
| a_commit i : committed r < i <= lastIndex r ->
    astep r (set_log (entryLog.set_committed i (log r)) r)
| a_append es l' : state r = leader -> B (lastIndex r + len es) ->
    entryLog.append (stampEntries (term r) (lastIndex r +ᵤ 1) es) (log r) = Ret tt l' ->
    astep r (set_log l' r)
| a_accept m b l' : state r <> leader -> V m -> inTerm m (term r) ->
    pb.m_Type m = pb.Replicate -> committed r <= pb.m_LogIndex m ->
    entryLog.matchTerm (pb.m_LogIndex m) (pb.m_LogTerm m) (log r) = OK true ->
    entryLog.tryAppend (pb.m_LogIndex m) (pb.m_Entries m) (log r) = Ret b l' ->
    astep r (set_log l' r)
| a_restore m l' : state r <> leader -> V m -> inTerm m (term r) ->
    pb.m_Type m = pb.InstallSnapshot -> committed r < pb.ss_Index (pb.m_Snapshot m) ->
    entryLog.restore (pb.m_Snapshot m) (log r) = Ret tt l' -> astep r (set_log l' r).

Definition steps : raft -> raft -> Prop := rtc astep.

#[global] Instance steps_preorder : PreOrder steps.
Proof. unfold steps. apply _. Qed.

Lemma mem_steps r r' : mem r r' -> steps r r'.
Proof. intros. by apply rtc_once, a_mem. Qed.

Lemma pres_mem_steps {A} (c : M raft A) : pres mem c -> pres steps c.
Proof. intros Hc. eapply pres_weaken; [done|]. apply mem_steps. Qed.

Lemma logsoft_lastIndex (l l' : entryLog DB) :
  logsoft l l' -> entryLog.lastIndex l' = entryLog.lastIndex l.
Proof.
  unfold logsoft, entryLog.lastIndex, inMemory.getLastIndex, inMemory.getSnapshotIndex.
  intros. destruct_and!. by repeat case_match; simplify_eq; congruence.
Qed.

Lemma mem_lastIndex (r r' : raft) : mem r r' -> lastIndex r' = lastIndex r.
Proof. intros (?&?&?&?&?). by apply logsoft_lastIndex. Qed.

(** ** Commit *)

Lemma commitTo_wp i (l : entryLog DB) (Q : unit -> entryLog DB -> Prop) E :
  Q tt l ->
  (entryLog.committed l < i <= entryLog.lastIndex l -> Q tt (entryLog.set_committed i l)) ->
  wp any_panic (entryLog.commitTo i) Q E l.
Proof.
  intros Hsame Hset. unfold entryLog.commitTo. apply wp_bind. unfold wp, get.
  destruct (Z.leb_spec i (entryLog.committed l)); [done|].
  destruct (Z.ltb_spec (entryLog.lastIndex l) i); [done|].
  destruct (Z.ltb_spec i (entryLog.committed l)); [done|]. apply Hset. lia.
Qed.

Lemma logTryCommit_wp i t (l : entryLog DB) (Q : bool -> entryLog DB -> Prop) E :
  (forall b, Q b l) -> (forall e, E e l) ->
  (forall b, entryLog.committed l < i <= entryLog.lastIndex l ->
     Q b (entryLog.set_committed i l)) ->
  wp any_panic (entryLog.tryCommit i t) Q E l.
Proof.
  intros Hsame Herr Hset. unfold entryLog.tryCommit. apply wp_bind.
  unfold wp at 1, get. destruct (_ <=? _); [by apply wp_ret|].
  apply wp_bind, wp_try, wp_readr.
  destruct (entryLog.term i l) as [lt|e|p]; [| |done].
  - apply wp_bind, wp_ret. destruct (_ && _); [|by apply wp_ret].
    apply wp_bind, commitTo_wp; intros; apply wp_ret; auto.
  - destruct e; try (unfold wp, mbind, M_bind, fail; by apply Herr).
    apply wp_bind, wp_ret. destruct (_ && _); [|by apply wp_ret].
    apply wp_bind, commitTo_wp; intros; apply wp_ret; auto.
Qed.

Lemma set_log_steps (r : raft) l' : l' = log r -> steps r (set_log l' r).
Proof. intros ->. apply mem_steps. unfold mem. simpl. repeat split. Qed.

Lemma commitTo_steps i : pres steps (on_log (entryLog.commitTo i)).
Proof.
  intros r. apply wp_zoom, commitTo_wp; [by apply set_log_steps|].
  intros. by apply rtc_once, a_commit.
Qed.

Lemma logTryCommit_steps i t : pres steps (on_log (entryLog.tryCommit i t)).
Proof.
  intros r. apply wp_zoom, logTryCommit_wp; intros; try by apply set_log_steps.
  by apply rtc_once, a_commit.
Qed.

#[local] Hint Resolve commitTo_steps logTryCommit_steps : pres.
#[local] Hint Extern 5 (pres steps _) => apply pres_mem_steps; solve [eauto with pres] : pres.
#[local] Hint Extern 1 (pres steps (modify _)) =>
  apply pres_mem_steps, pres_mem_modify; mem_tac : pres.

Lemma tryCommit_steps : pres steps tryCommit.
Proof. unfold tryCommit. pres. Qed.
#[local] Hint Resolve tryCommit_steps : pres.

(** ** Role changes *)

Lemma mem_wp {A} (c : M raft A) r0 r :
  pres mem c -> mem r0 r ->
  wp any_panic c (fun _ r' => mem r0 r') (fun _ r' => mem r0 r') r.
Proof. intros Hc Hr. eapply pres_wp; [done|..]; intros; by etrans. Qed.

(** The effect of [reset] on term and vote. *)
Definition resetTV (t : Z) (r : raft) : raft :=
  if term r =? t then r else set_vote NoLeader (set_term t r).

Definition mayReset (t : Z) (r : raft) : Prop :=
  term r = t \/ term r <= t /\ passive (state r).

Lemma resetTV_steps t (r : raft) : mayReset t r -> steps r (resetTV t r).
Proof.
  unfold resetTV, mayReset. intros Ht.
  destruct (Z.eqb_spec (term r) t); [reflexivity|].
  apply rtc_once, a_term; [lia|]. tauto.
Qed.
Lemma resetTV_term t (r : raft) : term (resetTV t r) = t.
Proof. unfold resetTV. by destruct (Z.eqb_spec (term r) t). Qed.
Lemma resetTV_log t (r : raft) : log (resetTV t r) = log r.
Proof. unfold resetTV. by destruct (_ =? _). Qed.
Lemma resetTV_state t (r : raft) : state (resetTV t r) = state r.
Proof. unfold resetTV. by destruct (_ =? _). Qed.

Lemma reset_wp t b (r : raft) :
  wp any_panic (reset t b) (fun _ r' => mem (resetTV t r) r')
    (fun _ r' => mem (resetTV t r) r') r.
Proof.
  unfold reset. apply wp_bind. unfold wp at 1, get.
  apply wp_bind. eapply (wp_mono _ _ (fun _ r' => r' = resetTV t r) _ (fun _ _ => False)).
  { unfold resetTV, wp, when. by destruct (term r =? t). }
  2: done.
  intros [] ? ->. apply mem_wp; [|reflexivity].
  pres; apply pres_mem_modify; mem_tac.
Qed.

Lemma toFollowerState_wp t id b (r : raft) :
  wp any_panic (toFollowerState t id b)
    (fun _ r' => state r <> witness /\ mem (resetTV t (set_state follower r)) r')
    (fun _ r' => state r <> witness /\ mem (resetTV t (set_state follower r)) r') r.
Proof.
  unfold toFollowerState. apply wp_bind. unfold wp at 1, get.
  unfold isWitness, isState. case_bool_decide as Hw; [done|].
  apply wp_bind, wp_modify, wp_bind.
  eapply wp_mono; [apply reset_wp|..]; [|done]. intros [] r1 Hr1.
  eapply wp_mono; [apply mem_wp; [pres|exact Hr1]|..]; done.
Qed.

(** [wpS r0 c r]: running [c] from [r], which [r0] stepped to, continues the
    steps of [r0]. *)
Definition wpS {A} (r0 : raft) (c : M raft A) (r : raft) : Prop :=
  wp any_panic c (fun _ r' => steps r0 r') (fun _ r' => steps r0 r') r.

Lemma wpS_pres {A} r0 (c : M raft A) r : steps r0 r -> pres steps c -> wpS r0 c r.
Proof. intros Hr Hc. eapply pres_wp; [done|..]; intros; by etrans. Qed.
Lemma wpS_mem {A C} r0 (c : M raft A) (k : A -> M raft C) r :
  steps r0 r -> pres mem c ->
  (forall a r', steps r0 r' -> mem r r' -> wpS r0 (k a) r') -> wpS r0 (c ≫= k) r.
Proof.
  intros Hr Hc Hk. apply wp_bind. eapply pres_wp; [done|..]; simpl.
  - intros a r' Hm. apply Hk; [|done]. etrans; [done|by apply mem_steps].
  - intros e r' Hm. etrans; [done|by apply mem_steps].
Qed.
Lemma wpS_get {C} r0 (k : raft -> M raft C) r : wpS r0 (k r) r -> wpS r0 (get ≫= k) r.
Proof. done. Qed.
Lemma wpS_panic {A} r0 p r : wpS r0 (panic_ p : M raft A) r.
Proof. done. Qed.
Lemma wpS_panicf {A} r0 p r : wpS r0 (panicf p : M raft A) r.
Proof. done. Qed.
Lemma wpS_bind {A C} r0 (c : M raft A) (k : A -> M raft C) (Q : A -> raft -> Prop) r :
  wp any_panic c Q (fun _ r' => steps r0 r') r ->
  (forall a r', Q a r' -> wpS r0 (k a) r') -> wpS r0 (c ≫= k) r.
Proof. intros Hc Hk. apply wp_bind. by eapply wp_mono. Qed.
Lemma pres_of_wpS {A} (c : M raft A) : (forall r, wpS r c r) -> pres steps c.
Proof. done. Qed.

(** A role change: the steps made, and the parts of the state it fixes. *)
Definition moved (r0 r : raft) (t : Z) (s : State) (r' : raft) : Prop :=
  steps r0 r' /\ term r' = t /\ lastIndex r' = lastIndex r /\ state r' = s.

Lemma moved_resetTV r0 t (r r' : raft) :
  steps r0 r -> mayReset t r -> mem (resetTV t r) r' -> moved r0 r t (state r) r'.
Proof.
  intros Hr Ht Hm. pose proof Hm as (Ht' & _ & Hs' & _). split_and!.
  - etrans; [exact Hr|]. etrans; [by apply resetTV_steps|by apply mem_steps].
  - rewrite Ht'. apply resetTV_term.
  - rewrite (mem_lastIndex _ _ Hm). unfold lastIndex. by rewrite resetTV_log.
  - rewrite Hs'. apply resetTV_state.
Qed.

Lemma toFollower_moved r0 t id b (r : raft) :
  steps r0 r -> term r <= t ->
  wp any_panic (toFollowerState t id b) (fun _ r' => moved r0 r t follower r')
    (fun _ r' => steps r0 r') r.
Proof.
  intros Hr Ht.
  assert (forall r', state r <> witness /\ mem (resetTV t (set_state follower r)) r' ->
    moved r0 r t follower r') as Hmv.
  { intros r' [Hw Hm]. apply (moved_resetTV r0 t (set_state follower r)); [| |done].
    - etrans; [exact Hr|]. by apply rtc_once, a_state.
    - right. split; [done|by left]. }
  eapply wp_mono; [apply toFollowerState_wp|..]; simpl; intros ? r' H'; by apply Hmv.
Qed.

Lemma becomeFollower_moved r0 t id (r : raft) :
  steps r0 r -> term r <= t ->
  wp any_panic (becomeFollower t id) (fun _ r' => moved r0 r t follower r')
    (fun _ r' => steps r0 r') r.
Proof. apply toFollower_moved. Qed.

Lemma becomeFollower_wpS r0 t id (r : raft) :
  steps r0 r -> term r <= t -> wpS r0 (becomeFollower t id) r.
Proof.
  intros. eapply wp_mono; [by apply toFollower_moved|..]; simpl; [|done].
  intros ? ? Hm. apply Hm.
Qed.

(** [reset] followed by the leader update of a replica that keeps its role. *)
Lemma resetSame_moved r0 t id (r : raft) :
  steps r0 r -> mayReset t r ->
  wp any_panic (reset t true ;; setLeaderID id ;; describe)
    (fun _ r' => moved r0 r t (state r) r') (fun _ r' => steps r0 r') r.
Proof.
  intros Hr Ht.
  assert (forall r', mem (resetTV t r) r' -> moved r0 r t (state r) r') as Hmv
    by (intros; by apply moved_resetTV).
  apply wp_bind. eapply wp_mono; [apply reset_wp|..]; simpl.
  - intros [] r1 Hr1. eapply wp_mono; [apply mem_wp; [pres|exact Hr1]|..]; simpl;
      intros ? r' H'; by apply Hmv.
  - intros ? r' H'. by apply Hmv.
Qed.

Lemma becomeNonVoting_moved r0 t id (r : raft) :
  steps r0 r -> term r <= t ->
  wp any_panic (becomeNonVoting t id) (fun _ r' => moved r0 r t (state r) r')
    (fun _ r' => steps r0 r') r.
Proof.
  intros. unfold becomeNonVoting. apply wp_bind. unfold wp at 1, get.
  unfold isNonVoting, isState. case_bool_decide as Hs; [|done].
  destruct (isWitness r); [done|].
  apply resetSame_moved; [done|]. right. by split; [|right; left].
Qed.

Lemma becomeWitness_moved r0 t id (r : raft) :
  steps r0 r -> term r <= t ->
  wp any_panic (becomeWitness t id) (fun _ r' => moved r0 r t (state r) r')
    (fun _ r' => steps r0 r') r.
Proof.
  intros. unfold becomeWitness. apply wp_bind. unfold wp at 1, get.
  unfold isWitness, isState. case_bool_decide as Hs; [|done].
  apply resetSame_moved; [done|]. right. by split; [|right; right].
Qed.

Lemma becomePreVoteCandidate_moved r0 (r : raft) :
  steps r0 r ->
  wp any_panic becomePreVoteCandidate
    (fun _ r' => moved r0 r (term r) preVoteCandidate r') (fun _ r' => steps r0 r') r.
Proof.
  intros Hr. unfold becomePreVoteCandidate. apply wp_bind. unfold wp at 1, get.
  unfold isLeader, isNonVoting, isWitness, isState.
  destruct (preVote r); [|done]. simpl.
  case_bool_decide; [done|]. case_bool_decide; [done|]. case_bool_decide; [done|].
  apply wp_bind, wp_modify.
  apply (resetSame_moved r0 (term r) NoLeader (set_state preVoteCandidate r)); [|by left].
  etrans; [exact Hr|]. by apply rtc_once, a_state.
Qed.

(** Computations that return or panic, but never report an error. *)
Definition noerr {S A} (c : M S A) : Prop :=
  forall s, wp any_panic c (fun _ _ => True) (fun _ _ => False) s.

Lemma noerr_bind {S A C} (c : M S A) (k : A -> M S C) :
  noerr c -> (forall a, noerr (k a)) -> noerr (c ≫= k).
Proof. intros Hc Hk s. apply wp_bind. eapply wp_mono; [apply Hc|..]; [|done]. intros; apply Hk. Qed.
Lemma noerr_when {S} b (c : M S unit) : noerr c -> noerr (when b c).
Proof. intros Hc. by destruct b. Qed.
Lemma noerr_readr {S A} (f : S -> result A) : (forall s e, f s <> ERR e) -> noerr (readr f).
Proof. intros Hf s. apply wp_readr. specialize (Hf s). destruct (f s); [done|by eapply Hf|done]. Qed.

Lemma noerr_mem {A} (c : M raft A) r0 r :
  noerr c -> pres mem c -> mem r0 r ->
  wp any_panic c (fun _ r' => mem r0 r') (fun _ _ => False) r.
Proof.
  intros Hn Hc Hr. specialize (Hn r). specialize (Hc r). unfold wp in *.
  destruct (c r); [by etrans|done..].
Qed.

Ltac noerr := repeat first
  [ done | apply noerr_bind; [|intro] | apply noerr_when
  | apply noerr_readr; by intros | case_match ].

Lemma setLeaderID_noerr id : noerr (setLeaderID id : M raft unit).
Proof. unfold setLeaderID, emit. noerr. Qed.
Lemma reset_noerr t b : noerr (reset t b : M raft unit).
Proof.
  unfold reset, resetMatchValueArray. noerr.
  intros r. unfold wp, setRandomizedElectionTimeout. by destruct (_ =? 0).
Qed.

Lemma set_vote_mem v (r r' : raft) : mem r r' -> mem (set_vote v r) (set_vote v r').
Proof. intros (Ht & _ & Hs & Hst & Hl). by repeat split; try apply Hl. Qed.

Lemma becomeCandidate_moved r0 (r : raft) :
  steps r0 r -> 0 <= term r -> term r + 1 < W64 ->
  wp any_panic becomeCandidate
    (fun _ r' => moved r0 r (term r + 1) candidate r') (fun _ r' => steps r0 r') r.
Proof.
  intros Hr Ht0 Ht1. unfold becomeCandidate. apply wp_bind. unfold wp at 1, get.
  unfold isLeader, isNonVoting, isWitness, isState.
  case_bool_decide; [done|]. case_bool_decide; [done|]. case_bool_decide; [done|].
  apply wp_bind, wp_modify. set (r1 := set_state candidate r).
  rewrite add64_small by lia. set (r2 := set_vote NoLeader (set_term (term r + 1) r1)).
  assert (resetTV (term r + 1) r1 = r2) as Htv.
  { unfold resetTV. destruct (Z.eqb_spec (term r1) (term r + 1)); [|done].
    unfold r1 in *; simpl in *; lia. }
  apply wp_bind. pose proof (reset_wp (term r + 1) true r1) as Hreset.
  pose proof (reset_noerr (term r + 1) true r1) as Hn. rewrite Htv in Hreset.
  unfold wp in Hreset, Hn |- * at 1.
  destruct (reset _ _ r1) as [[] r3|e r3|p]; [|done|done]. clear Hn.
  apply wp_bind.
  eapply wp_mono; [apply noerr_mem; [apply setLeaderID_noerr|pres|exact Hreset]|..]; [|done].
  intros [] r4 Hr4. simpl. apply wp_bind, wp_modify.
  assert (mem (set_vote (replicaID r) r2) (set_vote (replicaID r4) r4)) as Hm.
  { assert (replicaID r4 = replicaID r) as ->; [|by apply set_vote_mem].
    destruct Hr4 as (_ & _ & _ & Hst & _). unfold static in Hst. by simplify_eq/=. }
  assert (steps r0 (set_vote (replicaID r) r2)) as Hs2.
  { etrans; [exact Hr|]. apply rtc_once. exact (a_candidate r (conj H1 (conj H2 H3))). }
  assert (forall r', mem (set_vote (replicaID r4) r4) r' -> moved r0 r (term r + 1) candidate r')
    as Hmv.
  { intros r' Hm'. assert (mem (set_vote (replicaID r) r2) r') as Hm2 by (by etrans).
    split_and!; [etrans; [exact Hs2|by apply mem_steps]|..];
      [|rewrite (mem_lastIndex _ _ Hm2)|]; destruct Hm2 as (? & _ & ? & _); done. }
  eapply pres_wp; [apply describe_mem|..]; simpl; intros ? r' Hm'; by apply Hmv.
Qed.

(** ** Appending and restoring *)

Lemma merge_noerr ents : noerr (inMemory.merge ents).
Proof.
  unfold inMemory.merge. noerr; apply noerr_readr; intros im e.
  all: unfold index, checkEntriesToAppend, inMemory.getEntries, inMemory.checkMarkerIndex, slice;
    by repeat case_match.
Qed.

Lemma logAppend_wp ents (l : entryLog DB) (Q : unit -> entryLog DB -> Prop) E :
  (forall l', entryLog.append ents l = Ret tt l' -> Q tt l') ->
  wp any_panic (entryLog.append ents) Q E l.
Proof.
  intros HQ. assert (noerr (entryLog.append ents : M (entryLog DB) unit)) as Hn.
  { unfold entryLog.append. destruct ents; [done|]. apply noerr_bind; [done|].
    intros l0. destruct (_ <=? _); [done|]. intros s. apply wp_zoom. apply merge_noerr. }
  specialize (Hn l). unfold wp in *. destruct (entryLog.append ents l) as [[] l'| |]; auto; done.
Qed.

Lemma tryAppend_wp idx ents (l : entryLog DB) (Q : bool -> entryLog DB -> Prop) E :
  (forall e, E e l) ->
  (forall b l', entryLog.tryAppend idx ents l = Ret b l' -> Q b l') ->
  wp any_panic (entryLog.tryAppend idx ents) Q E l.
Proof.
  intros HE HA. cut (wp any_panic (entryLog.tryAppend idx ents) (fun _ _ => True)
    (fun _ l' => l' = l) l).
  { unfold wp. intros Hw. destruct (entryLog.tryAppend idx ents l) as [b l'|e l'|]; subst; auto. }
  unfold entryLog.tryAppend. apply wp_bind, wp_readr.
  destruct (entryLog.getConflictIndex ents l) as [ci|e|]; [|done|done].
  destruct (negb _); [|by apply wp_ret]. apply wp_bind. unfold wp at 1, get.
  destruct (_ <=? _); [done|]. apply wp_bind, wp_readr.
  unfold slice. case_decide as Hd; [|done]. apply wp_bind.
  apply logAppend_wp. intros l' Hl'. by apply wp_ret.
Qed.

Lemma appendEntries_wpS r0 es (r : raft) :
  steps r0 r -> state r = leader -> B (lastIndex r + len es) -> wpS r0 (appendEntries es) r.
Proof.
  intros Hr Hs HB. unfold appendEntries. apply wpS_get. unfold wpS.
  apply wp_bind, wp_zoom, logAppend_wp. intros l' Hl'.
  apply wpS_pres.
  - etrans; [exact Hr|]. apply rtc_once. by eapply a_append.
  - pres.
Qed.

Lemma becomeLeader_wpS r0 (r : raft) :
  steps r0 r -> B (lastIndex r + 1) -> wpS r0 becomeLeader r.
Proof.
  intros Hr HB. unfold becomeLeader. apply wpS_get.
  destruct (negb (isLeader r) && _) eqn:Hst; [apply wpS_panicf|].
  apply wp_bind, wp_modify.
  assert (steps r0 (set_state leader r)) as Hr1.
  { etrans; [exact Hr|]. apply rtc_once, a_state. simpl.
    apply andb_false_iff in Hst. unfold isLeader, isCandidate, isState in Hst.
    rewrite !negb_false_iff, !bool_decide_eq_true in Hst. tauto. }
  eapply wpS_bind.
  { eapply wp_mono; [apply reset_wp|..]; simpl.
    - intros ? r' Hm. exact (moved_resetTV r0 (term r) (set_state leader r) r' Hr1
        (or_introl eq_refl) Hm).
    - intros ? r' Hm. by apply (moved_resetTV r0 (term r) (set_state leader r) r' Hr1
        (or_introl eq_refl) Hm). }
  intros [] r2 (Hr2 & _ & Hl2 & Hs2). simpl in Hs2.
  assert (forall r3 r4 : raft, mem r3 r4 -> state r3 = leader /\ B (lastIndex r3 + 1) ->
    state r4 = leader /\ B (lastIndex r4 + 1)) as Hst3.
  { intros r3 r4 Hm [H3 H3']. split; [|by rewrite (mem_lastIndex _ _ Hm)].
    destruct Hm as (_ & _ & -> & _). done. }
  assert (state r2 = leader /\ B (lastIndex r2 + 1)) as HI2 by (rewrite Hl2; done).
  do 3 (eapply wpS_mem; [eassumption|eauto with pres|];
        let r' := fresh "r" in intros [] r' ? ?Hm; eapply Hst3 in Hm; [|eassumption]).
  destruct_and!. by apply appendEntries_wpS.
Qed.

(** ** Walking through a handler

    [sees P r] is a fact about the term, last index and role of [r]; the
    operations that preserve [mem] keep it, so [walk] carries it along. *)
Definition sees (P : Z -> Z -> State -> Prop) (r : raft) : Prop :=
  P (term r) (lastIndex r) (state r).

Lemma sees_mem P (r r' : raft) : mem r r' -> sees P r -> sees P r'.
Proof.
  intros Hm. unfold sees. rewrite (mem_lastIndex _ _ Hm).
  by destruct Hm as (-> & _ & -> & _).
Qed.

Ltac keep Hm :=
  lazymatch type of Hm with
  | mem ?r ?r' =>
      repeat match goal with
      | HI : sees ?P r |- _ => apply (sees_mem P r r' Hm) in HI
      end
  end.
Ltac walk1 :=
  lazymatch goal with
  | |- wpS _ (let x := ?e in _) _ => cbv zeta
  | |- wpS _ (panicf _) _ => apply wpS_panicf
  | |- wpS _ (get ≫= _) _ => apply wpS_get
  | |- wpS _ (match ?x with _ => _ end ≫= _) _ => destruct x eqn:?
  | |- wpS _ (match ?x with _ => _ end) _ => destruct x eqn:?
  | |- wpS ?r0 (_ ≫= _) ?r =>
      eapply wpS_mem; [eassumption|solve [pres]|];
      let a := fresh "a" in let r' := fresh "r" in let Hs := fresh "Hs" in
      let Hm := fresh "Hm" in
      intros a r' Hs Hm; keep Hm
  | |- wpS _ _ _ => apply wpS_pres; [eassumption|solve [pres]]
  end.
Ltac walk := repeat walk1.

(** Room for one more term and one more entry. *)
Definition room (t i : Z) (_ : State) : Prop := 0 <= t /\ t + 1 < W64 /\ B (i + 1).

Lemma campaign_wpS r0 (r : raft) : steps r0 r -> sees room r -> wpS r0 campaign r.
Proof.
  intros Hr (Ht0 & Ht1 & HB). unfold campaign.
  eapply wpS_bind; [by apply becomeCandidate_moved|].
  intros _ r1 (Hr1 & _ & Hl1 & _).
  assert (sees (fun _ i _ => B (i + 1)) r1) as HB1 by (unfold sees; by rewrite Hl1).
  clear Hr HB. walk. by apply becomeLeader_wpS.
Qed.

Lemma preVoteCampaign_wpS r0 (r : raft) :
  steps r0 r -> sees room r -> wpS r0 preVoteCampaign r.
Proof.
  intros Hr HI. unfold preVoteCampaign.
  eapply wpS_bind; [by apply becomePreVoteCandidate_moved|].
  intros _ r1 (Hr1 & Ht1 & Hl1 & _).
  assert (sees room r1) as HI1 by (unfold sees, room; by rewrite Hl1, Ht1).
  clear Hr HI. walk. by apply campaign_wpS.
Qed.

Lemma handleNodeElection_wpS r0 m (r : raft) :
  steps r0 r -> sees room r -> wpS r0 (handleNodeElection m) r.
Proof.
  intros Hr HI. unfold handleNodeElection. walk.
  - by apply preVoteCampaign_wpS.
  - by apply campaign_wpS.
Qed.

Lemma handleCandidateRequestVoteResp_wpS r0 m (r : raft) :
  steps r0 r -> sees room r -> wpS r0 (handleCandidateRequestVoteResp m) r.
Proof.
  intros Hr HI. unfold handleCandidateRequestVoteResp. walk1. walk1; [walk|].
  do 3 walk1. walk1; [|walk1].
  - eapply wpS_bind; [apply becomeLeader_wpS; [done|apply HI]|].
    intros ? r' Hr'. simpl in Hr'. walk.
  - by apply becomeFollower_wpS.
  - walk.
Qed.

Lemma handlePreVoteCandidateRequestPreVoteResp_wpS r0 m (r : raft) :
  steps r0 r -> sees room r -> wpS r0 (handlePreVoteCandidateRequestPreVoteResp m) r.
Proof.
  intros Hr HI. unfold handlePreVoteCandidateRequestPreVoteResp. walk1. walk1; [walk|].
  do 3 walk1. walk1; [|walk1].
  - by apply campaign_wpS.
  - by apply becomeFollower_wpS.
  - walk.
Qed.

(** ** Handlers with no precondition *)

Lemma becomeFollower_same_steps (k : raft -> Z) :
  pres steps (r ← get; becomeFollower (term r) (k r)).
Proof. intros r. apply wpS_get, becomeFollower_wpS; reflexivity. Qed.

Lemma handleLeaderCheckQuorum_steps m : pres steps (handleLeaderCheckQuorum m).
Proof.
  intros r. assert (steps r r) as Hr by done. change (wpS r (handleLeaderCheckQuorum m) r).
  unfold handleLeaderCheckQuorum. walk1. walk1. walk1; [|walk].
  walk1. walk1. by apply becomeFollower_wpS.
Qed.

Lemma becomeFollower_when r0 b (r r' : raft) id :
  steps r0 r' -> term r' = term r ->
  wpS r0 (when b (becomeFollower (term r) id)) r'.
Proof.
  intros Hr Ht. destruct b; [apply becomeFollower_wpS; [done|lia]|apply wpS_pres; [done|simpl; pres]].
Qed.

Lemma addNode_steps id : pres steps (addNode id).
Proof.
  intros r. assert (steps r r) as Hr by done. change (wpS r (addNode id) r).
  unfold addNode. walk1. walk1. walk1; [walk|]. walk1; [walk|]. walk1; [|walk].
  do 2 walk1. apply becomeFollower_when; [done|].
  destruct Hm0 as (Ht0 & _), Hm1 as (Ht1 & _). congruence.
Qed.

Lemma get_follower_steps {A} (b : raft -> bool) (id : raft -> Z) (k : raft -> M raft A) :
  (forall r, pres steps (k r)) ->
  pres steps (r ← get; when (b r) (becomeFollower (term r) (id r)) ;; k r).
Proof.
  intros Hk r. apply wpS_get. eapply wpS_bind.
  - apply becomeFollower_when; reflexivity.
  - intros ? r' Hr'. by apply wpS_pres.
Qed.

Lemma removeNode_steps id : pres steps (removeNode id).
Proof.
  unfold removeNode. do 4 (apply pres_bind; [typeclasses eauto|pres|intros _]).
  apply (get_follower_steps _ (fun _ => NoLeader)). pres.
Qed.

Lemma restoreRemotes_steps ss : pres steps (restoreRemotes ss).
Proof.
  unfold restoreRemotes. cbv zeta.
  do 2 (apply pres_bind; [typeclasses eauto|pres|intro]).
  apply pres_bind; [typeclasses eauto|apply pres_forM|intros _]; [typeclasses eauto|..].
  - intros id. apply (get_follower_steps _ (fun r => leaderID r)). pres.
  - apply (get_follower_steps _ (fun _ => NoLeader)). pres.
Qed.
#[local] Hint Resolve addNode_steps removeNode_steps restoreRemotes_steps
  handleLeaderCheckQuorum_steps : pres.

Lemma handleNodeConfigChange_steps m : pres steps (handleNodeConfigChange m).
Proof. unfold handleNodeConfigChange, addNonVoting, addWitness, setNonVoting, setWitness. pres. Qed.
Lemma handleRestoreRemote_steps m : pres steps (handleRestoreRemote m).
Proof. unfold handleRestoreRemote. pres. Qed.
Lemma handleLeaderReplicateResp_steps m k : pres steps (handleLeaderReplicateResp m k).
Proof. unfold handleLeaderReplicateResp. pres. Qed.
Lemma handleHeartbeatMessage_steps m : pres steps (handleHeartbeatMessage m).
Proof. unfold handleHeartbeatMessage. pres. Qed.
#[local] Hint Resolve handleNodeConfigChange_steps handleRestoreRemote_steps
  handleLeaderReplicateResp_steps handleHeartbeatMessage_steps : pres.
Lemma handleFollowerHeartbeat_steps m : pres steps (handleFollowerHeartbeat m).
Proof. unfold handleFollowerHeartbeat. pres. Qed.
Lemma handleCandidateHeartbeat_steps m : pres steps (handleCandidateHeartbeat m).
Proof.
  unfold handleCandidateHeartbeat. intros r. apply wpS_get. eapply wpS_bind.
  - apply becomeFollower_wpS; reflexivity.
  - intros ? r' Hr'. apply wpS_pres; [done|pres].
Qed.
Lemma lw_steps f m : (forall k, pres steps (f m k)) -> pres steps (lw f m).
Proof. intros Hf. unfold lw. pres. Qed.
#[local] Hint Resolve handleFollowerHeartbeat_steps handleCandidateHeartbeat_steps : pres.

(** ** Votes, proposals, replication and snapshots *)

Lemma handleNodeRequestVote_wpS r0 m (r : raft) :
  steps r0 r -> pb.m_Term m = 0 \/ pb.m_Term m = term r -> 0 <= term r ->
  wpS r0 (handleNodeRequestVote m) r.
Proof.
  intros Hr Hm Ht. unfold handleNodeRequestVote. do 3 walk1. walk1; [|walk]. walk1.
  apply wp_bind, wp_modify. apply wpS_pres; [|pres].
  etrans; [exact Hs1|]. apply rtc_once, a_vote.
  destruct Hm2 as (_ & -> & _), Hm1 as (_ & -> & _), Hm0 as (_ & -> & _).
  apply andb_true_iff in Heqb as [Hg _]. unfold canGrantVote in Hg.
  rewrite !orb_true_iff, !Z.eqb_eq, Z.ltb_lt in Hg.
  destruct Hg as [[?|?]|?]; [by left|by right|lia].
Qed.

Lemma filterConfigChanges_wp ents (r : raft) :
  wp any_panic (filterConfigChanges ents)
    (fun es r' => len es = len ents /\ mem r r') (fun _ r' => mem r r') r.
Proof.
  revert r. induction ents as [|e ents IH]; intros r; simpl; [by apply wp_ret; split|].
  apply wp_bind. eapply (pres_wp mem); [pres|..]; simpl; [|done].
  intros e' r1 Hm1. apply wp_bind. eapply wp_mono; [apply IH|..]; simpl.
  - intros es r2 [Hl Hm2]. apply wp_ret. split; [|by etrans].
    unfold len in *. simpl. lia.
  - intros ? r2 Hm2. by etrans.
Qed.

Lemma handleLeaderPropose_wpS r0 m (r : raft) :
  steps r0 r -> sees (fun _ i s => s = leader /\ B (i + len (pb.m_Entries m))) r ->
  wpS r0 (handleLeaderPropose m) r.
Proof.
  intros Hr HI. unfold handleLeaderPropose. do 3 walk1; [walk|].
  eapply wpS_bind.
  { eapply wp_mono; [apply filterConfigChanges_wp|..]; simpl.
    - intros es r' H'. exact H'.
    - intros ? r' Hm'. etrans; [exact Hs|by apply mem_steps]. }
  intros es r2 [Hl Hm2]. keep Hm2. destruct HI as [HI1 HI2].
  eapply wpS_bind.
  - apply appendEntries_wpS; [|done|by rewrite Hl].
    etrans; [exact Hs|by apply mem_steps].
  - intros ? r3 Hr3. simpl in Hr3. walk.
Qed.

(** A non-leader handling a message of its own term. *)
Definition accepts (m : pb.Message) (t _ : Z) (s : State) : Prop := s <> leader /\ inTerm m t.

Lemma handleReplicateMessage_wpS r0 m (r : raft) :
  steps r0 r -> sees (accepts m) r -> V m -> pb.m_Type m = pb.Replicate ->
  wpS r0 (handleReplicateMessage m) r.
Proof.
  intros Hr Hn HV Hty. unfold handleReplicateMessage. do 2 walk1; [walk|].
  unfold log_r. apply wp_bind, wp_readr.
  destruct (entryLog.matchTerm _ _ _) as [[]|e|] eqn:Hmt;
    [|apply (wpS_pres r0); [done|pres]|done|done].
  apply wp_bind, wp_zoom, tryAppend_wp.
  - intros e. etrans; [exact Hr|by apply set_log_steps].
  - intros b l' Hl'. apply (wpS_pres r0).
    + etrans; [exact Hr|]. destruct Hn. apply rtc_once, (a_accept _ m b); try done.
      by apply Z.ltb_ge.
    + pres.
Qed.

Lemma logRestore_wp ss (l : entryLog DB) (Q : unit -> entryLog DB -> Prop) E :
  (forall l', entryLog.restore ss l = Ret tt l' -> Q tt l') ->
  wp any_panic (entryLog.restore ss) Q E l.
Proof.
  intros HQ. assert (noerr (entryLog.restore ss : M (entryLog DB) unit)) as Hn.
  { unfold entryLog.restore. apply noerr_bind; [done|]. intros _.
    apply noerr_bind; [done|]. intros l0. by destruct (_ <? _). }
  specialize (Hn l). unfold wp in *. destruct (entryLog.restore ss l) as [[] l'| |]; auto; done.
Qed.

Lemma restore_wpS {A} r0 m (k : bool -> M raft A) (r : raft) :
  steps r0 r -> sees (accepts m) r -> V m -> pb.m_Type m = pb.InstallSnapshot ->
  (forall b r', steps r0 r' -> wpS r0 (k b) r') ->
  wpS r0 (restore (pb.m_Snapshot m) ≫= k) r.
Proof.
  intros Hr Hn HV Hty Hk. set (ss := pb.m_Snapshot m). eapply (wpS_bind _ _ _ (fun _ r' => steps r0 r'));
    [|intros; by apply Hk]. fold (wpS r0 (restore ss) r).
  unfold restore. walk1. walk1; [walk|]. do 2 (walk1; [walk|]).
  walk1. walk1; [apply wpS_pres; [done|pres]|]. walk1.
  apply wp_bind, wp_zoom, logRestore_wp. intros l' Hl'. apply wp_ret.
  etrans; [eassumption|]. apply rtc_once, (a_restore _ m); try apply Hn; try done.
  unfold committed in *. destruct Hm as (_&_&_&_&_&Hm&_), Hm0 as (_&_&_&_&_&Hm0&_).
  rewrite Hm0, Hm. by apply Z.leb_gt.
Qed.

Lemma handleInstallSnapshotMessage_wpS r0 m (r : raft) :
  steps r0 r -> sees (accepts m) r -> V m -> pb.m_Type m = pb.InstallSnapshot ->
  wpS r0 (handleInstallSnapshotMessage m) r.
Proof.
  intros Hr Hn HV Hty. unfold handleInstallSnapshotMessage. walk1.
  apply restore_wpS; [done..|]. intros b r' Hr'. apply wpS_pres; [done|]. pres.
Qed.

Lemma candidate_then_wpS {A} r0 m id (k : M raft A) (r : raft) :
  steps r0 r -> inTerm m (term r) ->
  (forall r', steps r0 r' -> sees (accepts m) r' -> wpS r0 k r') ->
  wpS r0 (becomeFollower (term r) id ;; k) r.
Proof.
  intros Hr Ht Hk. eapply wpS_bind; [apply becomeFollower_moved; [done|reflexivity]|].
  intros ? r' (Hr' & Ht' & _ & Hs'). apply Hk; [done|]. unfold sees, accepts.
  by rewrite Hs', Ht'.
Qed.

(** ** Ticks *)

Section self.
Context (self : pb.Message -> M raft unit).
Context (self_quiet : forall m, pb.m_Term m = 0 ->
  pb.m_Type m = pb.CheckQuorum \/ pb.m_Type m = pb.LeaderHeartbeat \/
  pb.m_Type m = pb.SnapshotStatus -> pres steps (self m)).
Context (self_election : forall m r0 r, pb.m_Term m = 0 -> pb.m_Type m = pb.Election ->
  steps r0 r -> sees room r -> wpS r0 (self m) r).

#[local] Hint Extern 1 (pres steps (self _)) =>
  apply self_quiet; [reflexivity|simpl; tauto] : pres.

Lemma leaderTick_steps : pres steps (leaderTick self).
Proof. unfold leaderTick, checkPendingSnapshotAck, checkPendingAcks. pres. Qed.

Lemma nonLeaderTick_wpS r0 (r : raft) :
  steps r0 r -> sees room r -> wpS r0 (nonLeaderTick self) r.
Proof. intros Hr HI. unfold nonLeaderTick. walk. by apply self_election. Qed.

Lemma tick_wpS r0 (r : raft) : steps r0 r -> sees room r -> wpS r0 (tick self) r.
Proof.
  intros Hr HI. unfold tick. walk1. walk1. walk1. walk1. walk1.
  - apply wpS_pres; [done|apply leaderTick_steps].
  - by apply nonLeaderTick_wpS.
Qed.

Lemma handleFollowerTimeoutNow_wpS r0 m (r : raft) :
  steps r0 r -> sees room r -> wpS r0 (handleFollowerTimeoutNow self m) r.
Proof.
  intros Hr HI. unfold handleFollowerTimeoutNow. do 3 walk1.
  eapply wpS_bind; [by apply tick_wpS|]. intros ? r' Hr'. simpl in Hr'. walk.
Qed.

(** What a handler may assume of the replica and of the message. *)
Record fit (m : pb.Message) (r : raft) : Prop := {
  fit_room : sees room r;
  fit_batch : sees (fun _ i _ => B (i + len (pb.m_Entries m))) r;
  fit_msg : V m;
  fit_term : isPreVoteMessage (pb.m_Type m) = false -> inTerm m (term r)
}.

Lemma handlers_wpS r0 m f (r : raft) :
  handlers self (state r) (pb.m_Type m) = Some f -> steps r0 r -> fit m r ->
  wpS r0 (f m) r.
Proof.
  intros Hf Hr [Hroom Hbatch HV Hterm].
  assert (isPreVoteMessage (pb.m_Type m) = false -> state r <> leader -> sees (accepts m) r)
    as Hacc by (intros; split; auto).
  destruct (state r) eqn:Hst, (pb.m_Type m) eqn:Hty; simpl in Hf; simplify_eq;
    try (apply wpS_pres; [done|]; solve [pres | apply lw_steps; pres]).
  all: try (apply handleNodeRequestVote_wpS; [done|by apply Hterm|apply Hroom]).
  all: try (by apply handleNodeElection_wpS).
  all: try (by apply handleCandidateRequestVoteResp_wpS).
  all: try (by apply handlePreVoteCandidateRequestPreVoteResp_wpS).
  all: try (by apply handleFollowerTimeoutNow_wpS).
  all: try (apply handleLeaderPropose_wpS; [done|]; by split).
  all: try (unfold handleLocalTick; destruct (pb.m_Reject m);
    [apply wpS_pres; [done|pres]|by apply tick_wpS]).
  all: try (apply wpS_get, (candidate_then_wpS _ m); [done|by apply Hterm|]; intros;
    by apply handleReplicateMessage_wpS || by apply handleInstallSnapshotMessage_wpS).
  all: assert (sees (accepts m) r) as Ha by (by apply Hacc).
  all: unfold handleFollowerReplicate, handleFollowerInstallSnapshot; walk1; walk1;
    by apply handleReplicateMessage_wpS || by apply handleInstallSnapshotMessage_wpS.
Qed.

Lemma defaultHandle_wpS r0 m (r : raft) :
  steps r0 r -> fit m r -> wpS r0 (defaultHandle self m) r.
Proof.
  intros Hr Hf. unfold defaultHandle. apply wpS_get.
  destruct (handlers self _ _) eqn:He; [by eapply handlers_wpS|].
  destruct (pb.isNamed _); (apply wpS_pres; [done|pres]).
Qed.

End self.

(** ** The entry point *)

(** The state after the term check of [m], which may move to [m]'s term. *)
Definition settled (r0 r : raft) (m : pb.Message) (r' : raft) : Prop :=
  steps r0 r' /\ lastIndex r' = lastIndex r /\ (term r' = term r \/ term r' = pb.m_Term m).

Lemma settled_mem r0 (r : raft) m {A} (c : M raft A) r1 :
  steps r0 r -> pres mem c -> mem r r1 ->
  wp any_panic c (fun _ => settled r0 r m) (fun _ r' => steps r0 r') r1.
Proof.
  intros Hr Hc Hm. assert (forall r', mem r1 r' -> settled r0 r m r') as HQ.
  { intros r' Hm'. assert (mem r r') as Hrr by (by etrans). split_and!.
    - etrans; [exact Hr|by apply mem_steps].
    - by apply mem_lastIndex.
    - left. by destruct Hrr. }
  eapply pres_wp; [done|..]; simpl; intros ? r' Hm'; by apply HQ.
Qed.

Lemma settled_moved r0 (r : raft) m (c : M raft unit) s' r1 :
  mem r r1 ->
  wp any_panic c (fun _ => moved r0 r1 (pb.m_Term m) s') (fun _ r' => steps r0 r') r1 ->
  wp any_panic c (fun _ => settled r0 r m) (fun _ r' => steps r0 r') r1.
Proof.
  intros Hm Hc. eapply wp_mono; [exact Hc|..]; simpl; [|done].
  intros ? r' (Hr' & Ht' & Hl' & _). split_and!; [done| |by right].
  by rewrite Hl', (mem_lastIndex _ _ Hm).
Qed.

Lemma settled_describe r0 (r : raft) m (k : M raft unit) r1 :
  steps r0 r -> mem r r1 ->
  (forall r2, mem r r2 -> wp any_panic k (fun _ => settled r0 r m) (fun _ r' => steps r0 r') r2) ->
  wp any_panic (describe ;; k) (fun _ => settled r0 r m) (fun _ r' => steps r0 r') r1.
Proof.
  intros Hr Hm Hk. apply wp_bind. eapply pres_wp; [apply describe_mem|..]; simpl.
  - intros _ r3 Hm3. apply Hk. by etrans.
  - intros _ r3 Hm3. etrans; [exact Hr|]. apply mem_steps. by etrans.
Qed.

Lemma onMessageTermNotMatched_wp r0 m (r : raft) :
  steps r0 r ->
  wp any_panic (onMessageTermNotMatched m) (fun _ => settled r0 r m)
    (fun _ r' => steps r0 r') r.
Proof.
  intros Hr. unfold onMessageTermNotMatched. apply wp_bind. unfold wp at 1, get.
  destruct (_ || _) eqn:Hz; [apply settled_mem; [done|pres|done]|].
  apply wp_bind. eapply (pres_wp mem); [pres|..]; simpl;
    [|intros ? r' Hm; etrans; [exact Hr|by apply mem_steps]].
  intros drop r1 Hm1. destruct drop; [apply settled_mem; [done|pres|done]|].
  destruct (Z.ltb_spec (term r) (pb.m_Term m)) as [Hlt|];
    [|apply settled_mem; [done|pres|done]].
  apply wp_bind. eapply wp_mono.
  2: { intros ? r' HQ. apply wp_ret. exact HQ. }
  2: { intros ? r' HQ. exact HQ. }
  assert (forall r2, mem r r2 -> steps r0 r2 /\ term r2 <= pb.m_Term m) as Hpre.
  { intros r2 Hm. split; [etrans; [exact Hr|by apply mem_steps]|].
    destruct Hm as (-> & _). lia. }
  destruct (isPreVoteMessageWithExpectedHigherTerm m); [apply settled_mem; [done|pres|done]|].
  apply settled_describe; [done..|]. intros r2 Hm2.
  destruct (Hpre r2 Hm2) as [Hs2 Ht2]. cbv zeta.
  destruct (isNonVoting r); [eapply settled_moved; [done|by apply becomeNonVoting_moved]|].
  destruct (isWitness r); [eapply settled_moved; [done|by apply becomeWitness_moved]|].
  destruct (decide _); (apply settled_describe; [done..|]); intros r3 Hm3;
    destruct (Hpre r3 Hm3) as [Hs3 Ht3];
    (eapply settled_moved; [done|by apply toFollower_moved]).
Qed.

(** A message without a term skips the term checks. *)
Lemma handleStep_zero self r0 m (r : raft) :
  pb.m_Term m = 0 -> wpS r0 (defaultHandle self m) r -> wpS r0 (handleStep self m) r.
Proof.
  intros Hz Hd. unfold handleStep. apply wpS_get.
  destruct (inconsistentRaftConfig m r); [apply wpS_panicf|].
  assert (onMessageTermNotMatched m r = Ret false r) as Hn.
  { unfold onMessageTermNotMatched, mbind, M_bind, get. by rewrite Hz. }
  apply wp_bind. unfold wp at 1. rewrite Hn. cbv beta iota delta [negb].
  apply wp_bind. rewrite Hz. by destruct (isPreVoteMessage _).
Qed.

Lemma handleStep_quiet self m :
  pb.m_Term m = 0 ->
  pb.m_Type m = pb.CheckQuorum \/ pb.m_Type m = pb.LeaderHeartbeat \/
  pb.m_Type m = pb.SnapshotStatus -> pres steps (handleStep self m).
Proof.
  intros Hz Ht r. apply handleStep_zero; [done|]. unfold defaultHandle. apply wpS_get.
  destruct Ht as [Ht|[Ht|Ht]]; rewrite Ht; destruct (state r); simpl;
    (apply wpS_pres; [reflexivity|]); (pres || apply lw_steps; pres).
Qed.

Lemma handleStep_election self m r0 r :
  pb.m_Term m = 0 -> pb.m_Type m = pb.Election ->
  steps r0 r -> sees room r -> wpS r0 (handleStep self m) r.
Proof.
  intros Hz Ht Hr HI. apply handleStep_zero; [done|]. unfold defaultHandle. apply wpS_get.
  rewrite Ht. destruct (state r); simpl;
    (by apply handleNodeElection_wpS) || (apply wpS_pres; [done|pres]).
Qed.

(** The whole of [Handle]: every run that does not panic is a sequence of
    protocol steps. *)
Lemma Handle_steps m (r : raft) :
  0 <= term r -> term r + 1 < W64 -> 0 <= pb.m_Term m -> pb.m_Term m + 1 < W64 ->
  B (lastIndex r + 1) -> B (lastIndex r + len (pb.m_Entries m)) -> V m ->
  wp any_panic (Handle m) (fun _ r' => steps r r') (fun _ r' => steps r r') r.
Proof.
  intros Ht Ht1 Hmt Hmt1 HB HBn HV. fold (wpS r (Handle m) r).
  unfold Handle. simpl. set (self := handleStep _). unfold handleStep. apply wpS_get.
  destruct (inconsistentRaftConfig m r); [apply wpS_panicf|].
  eapply wpS_bind; [by apply onMessageTermNotMatched_wp|].
  intros ignored r1 (Hr1 & Hl1 & Ht1').
  destruct (negb ignored); [|apply wpS_pres; [done|pres]].
  assert (sees room r1) as Hroom
    by (unfold sees, room; rewrite Hl1; split_and!; [lia..|done]).
  eapply (wpS_bind _ _ _ (fun _ r' => r' = r1 /\
    (isPreVoteMessage (pb.m_Type m) = false -> inTerm m (term r1)))).
  - destruct (isPreVoteMessage (pb.m_Type m)); simpl; [by apply wp_ret; split|].
    unfold doubleCheckTermMatched, inTerm; apply wp_bind; unfold wp at 1, get.
    destruct (Z.eqb_spec (pb.m_Term m) 0), (Z.eqb_spec (term r1) (pb.m_Term m)); simpl;
      try done; apply wp_ret; (split; [done|]); auto.
  - intros _ ? [-> Hvote]. apply defaultHandle_wpS; [..|done|].
    + intros m' Hz Hq. by apply handleStep_quiet.
    + intros m' r0 r' Hz Hq. by apply handleStep_election.
    + split; try done. unfold sees. by rewrite Hl1.
Qed.

End steps.

(** Knowing less about messages allows more steps. *)
Lemma astep_weaken {DB} `{ILogDB DB} `{GoRuntime} V V' B B' (r r' : raft DB) :
  (forall m, V m -> V' m : Prop) -> (forall i, B i -> B' i : Prop) ->
  astep V B r r' -> astep V' B' r r'.
Proof.
  intros HV HB [r1 Hm|t Ht Hp|He|v Hv|s Hs|i Hi|es l' Hs Hb Ha|m b l' Hs Hm Ht Hty Hc Hmt Ha
    |m l' Hs Hm Ht Hty Hc Ha].
  - by apply a_mem.
  - by apply a_term.
  - by apply a_candidate.
  - by apply a_vote.
  - by apply a_state.
  - by apply a_commit.
  - apply (a_append _ _ _ es l'); auto.
  - apply (a_accept _ _ _ m b l'); auto.
  - apply (a_restore _ _ _ m l'); auto.
Qed.
