(* ===== verification/RaftSafety.v ===== *)
(** * Safety of one replica

    Invariants of the term, the vote, the role and the commit index across any
    call of [Handle], proved by induction on the protocol steps of
    [RaftSteps.v]. *)
From S2P Require Import Prelude Raftpb RateLimiter Remote ReadIndex LogDB InMemory EntryLog.
From S2P Require Import LogReader RaftState Raft Samples RaftFrame RaftSteps.
Import inMemory(inMemory) entryLog(entryLog) remote(remote).

Section safety.
Context {DB : Type} `{ILogDB DB} `{GoRuntime}.
Abbreviation raft := (raft DB).

(** [after m r r']: [Handle m] takes [r] to [r'], returning normally or with an
    error. *)
Definition after (m : pb.Message) (r r' : raft) : Prop :=
  match Handle m r with Ret _ r1 | Err _ r1 => r' = r1 | Panic _ => False end.

(** Terms stay below the last 64-bit value, so that a campaign can move to the
    next one. *)
Definition terms_fit (m : pb.Message) (r : raft) : Prop :=
  0 <= term r /\ term r + 1 < W64 /\ 0 <= pb.m_Term m /\ pb.m_Term m + 1 < W64.

Abbreviation any_step := (astep (fun _ => True) (fun _ => True)).
Abbreviation any_steps := (steps (fun _ => True) (fun _ => True)).

Lemma after_steps m (r r' : raft) : terms_fit m r -> after m r r' -> any_steps r r'.
Proof.
  intros (?&?&?&?) Ha. unfold after in Ha.
  assert (wp any_panic (Handle m) (fun _ r' => any_steps r r') (fun _ r' => any_steps r r') r)
    as Hw by (apply Handle_steps; done).
  unfold wp in Hw. by destruct (Handle m r); subst.
Qed.

(** A preorder that contains the atomic steps contains the runs of [Handle]. *)
Lemma after_rel (R : raft -> raft -> Prop) `{!PreOrder R} m r r' :
  (forall r1 r2, any_step r1 r2 -> R r1 r2) ->
  terms_fit m r -> after m r r' -> R r r'.
Proof.
  intros HR Hf Ha. apply after_steps in Ha; [|done]. clear Hf.
  induction Ha as [|r1 r2 r3 H12 _ IH]; [reflexivity|]. etrans; [by apply HR|done].
Qed.

(** ** What appending and restoring leave alone *)

Lemma logAppend_inv es (l l' : entryLog DB) :
  entryLog.append es l = Ret tt l' -> exists im, l' = entryLog.set_inmem im l.
Proof.
  unfold entryLog.append, mbind, M_bind, get, entryLog.on_inmem, zoom.
  destruct es as [|e es]; intros; [exists (entryLog.inmem l)|].
  - unfold skip, ret in *. simplify_eq. by destruct l'.
  - destruct (_ <=? _); [done|]. repeat case_match; simplify_eq. eauto.
Qed.

Lemma tryAppend_inv idx es b (l l' : entryLog DB) :
  entryLog.tryAppend idx es l = Ret b l' -> exists im, l' = entryLog.set_inmem im l.
Proof.
  unfold entryLog.tryAppend, mbind, M_bind, readr, get.
  assert (exists im, l = entryLog.set_inmem im l) as Hl by (exists (entryLog.inmem l); by destruct l).
  destruct (entryLog.getConflictIndex es l); try done. destruct (negb _);
    [|intros; unfold ret in *; by simplify_eq].
  destruct (_ <=? _); [done|]. destruct (slice _ _ _); try done.
  destruct (entryLog.append _ l) as [[] l1| |] eqn:Ha; try done.
  apply logAppend_inv in Ha as [im ->]. intros. unfold ret in *. simplify_eq. eauto.
Qed.

Lemma logRestore_inv ss (l l' : entryLog DB) :
  entryLog.restore ss l = Ret tt l' ->
  entryLog.committed l <= pb.ss_Index ss /\
  l' = entryLog.set_processed (pb.ss_Index ss) (entryLog.set_committed (pb.ss_Index ss)
         (entryLog.set_inmem (inMemory.restore ss (entryLog.inmem l)) l)).
Proof.
  unfold entryLog.restore, mbind, M_bind, get, entryLog.on_inmem, zoom, modify.
  cbn -[inMemory.restore]. destruct (Z.ltb_spec (pb.ss_Index ss) (entryLog.committed l));
    [done|]. intros. by simplify_eq.
Qed.

(** ** The term and the vote *)

(** Terms grow; within a term a vote that was cast stays. *)
Definition vote_rel (r r' : raft) : Prop :=
  term r < term r' \/ term r' = term r /\ (vote r = NoNode \/ vote r' = vote r).

#[global] Instance vote_rel_preorder : PreOrder vote_rel.
Proof.
  split; unfold vote_rel; [intros r; auto|]. intros r1 r2 r3 H1 H2.
  destruct H1 as [?|[Ht1 [?|Hv1]]], H2 as [?|[Ht2 [?|Hv2]]]; try (left; lia); right;
    (split; [lia|]); rewrite <- ?Hv1, ?Hv2; auto.
Qed.

Lemma astep_vote (r r' : raft) : any_step r r' -> vote_rel r r'.
Proof.
  unfold vote_rel.
  destruct 1 as [r' Hm|t Ht Hp|He|v Hv|s Hs|i Hi|es l' Hs HB Ha|m b l' Hs _ _ _ _ _ Ha|m l' Hs _ _ _ Hc Ha];
    simpl; auto.
  - destruct Hm as (-> & -> & _). auto.
  - left. lia.
  - right. destruct Hv as [->| ->]; auto.
Qed.

(** ** The commit index *)

Definition commit_rel (r r' : raft) : Prop := committed r <= committed r'.
#[global] Instance commit_rel_preorder : PreOrder commit_rel.
Proof. split; unfold commit_rel; [intros r; lia|intros ???; lia]. Qed.

Lemma astep_commit (r r' : raft) : any_step r r' -> commit_rel r r'.
Proof.
  unfold commit_rel, committed.
  destruct 1 as [r' Hm|t Ht Hp|He|v Hv|s Hs|i Hi|es l' Hs HB Ha|m b l' Hs _ _ _ _ _ Ha|m l' Hs _ _ _ Hc Ha];
    simpl; unfold committed in *; try lia.
  - destruct Hm as (_&_&_&_&_&->&_). lia.
  - apply logAppend_inv in Ha as [im ->]. simpl. lia.
  - apply tryAppend_inv in Ha as [im ->]. simpl. lia.
  - apply logRestore_inv in Ha as [? ->]. simpl. lia.
Qed.

(** ** Roles *)

Definition role_rel (r r' : raft) : Prop :=
  term r <= term r' /\
  (state r = witness <-> state r' = witness) /\
  (state r' = nonVoting -> state r = nonVoting) /\
  (state r' = candidate -> state r = candidate \/ term r < term r') /\
  (state r' = leader -> state r = leader \/ state r = candidate \/ term r < term r').

#[global] Instance role_rel_preorder : PreOrder role_rel.
Proof.
  split; unfold role_rel; [intros r; tauto || (split_and!; auto; lia)|].
  intros r1 r2 r3 (?&?&?&Hc&Hl) (?&?&?&Hc'&Hl'). split_and!; [lia|tauto|tauto|..]; intros Hs.
  - destruct (Hc' Hs) as [Hs2|]; [|right; lia]. destruct (Hc Hs2); [auto|right; lia].
  - destruct (Hl' Hs) as [Hs2|[Hs2|]]; [| |right; right; lia].
    + destruct (Hl Hs2) as [|[|]]; [auto|auto|right; right; lia].
    + destruct (Hc Hs2); [auto|right; right; lia].
Qed.

Lemma astep_role (r r' : raft) : any_step r r' -> role_rel r r'.
Proof.
  unfold role_rel.
  destruct 1 as [r' Hm|t Ht Hp|He|v Hv|s Hs|i Hi|es l' Hs HB Ha|m b l' Hs _ _ _ _ _ Ha|m l' Hs _ _ _ Hc Ha];
    simpl; try (split_and!; auto; lia).
  - destruct Hm as (-> & _ & -> & _). split_and!; auto; lia.
  - destruct He as (?&?&?). split_and!; auto; try lia; intros; congruence || (split; congruence).
  - destruct s; simpl in Hs; try done; unfold electable in Hs;
      split_and!; try lia; intuition congruence.
Qed.

(** ** A candidate or leader has voted for itself *)

Definition voted_self (r : raft) : Prop :=
  state r = candidate \/ state r = leader -> vote r = replicaID r.
Definition self_rel (r r' : raft) : Prop :=
  static r' = static r /\ (replicaID r <> NoNode -> voted_self r -> voted_self r').

Lemma static_replicaID (r r' : raft) : static r' = static r -> replicaID r' = replicaID r.
Proof. unfold static. by intros [=]. Qed.

#[global] Instance self_rel_preorder : PreOrder self_rel.
Proof.
  split; unfold self_rel; [done|]. intros r1 r2 r3 [Hs1 H1] [Hs2 H2].
  split; [congruence|]. intros Hid Hv. rewrite (static_replicaID _ _ Hs1) in H2. auto.
Qed.

Lemma astep_self (r r' : raft) : any_step r r' -> self_rel r r'.
Proof.
  unfold self_rel, voted_self.
  destruct 1 as [r' Hm|t Ht Hp|He|v Hv|s Hs|i Hi|es l' Hs HB Ha|m b l' Hs _ _ _ _ _ Ha|m l' Hs _ _ _ Hc Ha];
    simpl; (split; [done || apply Hm|]); intros Hid; auto.
  - destruct Hm as (_ & -> & -> & Hst & _). by rewrite (static_replicaID _ _ Hst).
  - intros _ Hs. destruct Hp as [?|[?|?]]; destruct Hs; congruence.
  - intros Hself Hs. specialize (Hself Hs). destruct Hv; congruence.
  - intros Hself Hs'. apply Hself. destruct s; simpl in Hs; destruct Hs'; try done; tauto.
Qed.

(** ** Claims *)

(** C1: whatever message a replica handles, its term never decreases, and once
    it has voted in a term its vote in that term never changes: it votes at most
    once per term.  The terms of the replica and of the message are below the largest
    64-bit number. *)
Theorem handle_vote_once m (r r' : raft) :
  terms_fit m r -> after m r r' ->
  term r <= term r' /\ (term r' = term r -> vote r <> NoNode -> vote r' = vote r).
Proof.
  intros Hf Ha. destruct (after_rel vote_rel m r r' astep_vote Hf Ha) as [?|[Ht Hv]].
  - split; lia.
  - split; [lia|]. intros _ Hn. by destruct Hv.
Qed.

(** C7: the commit index of a replica never decreases: no message, not even an
    installed snapshot, rolls a commit back. *)
Theorem handle_commit_monotone m (r r' : raft) :
  terms_fit m r -> after m r r' -> committed r <= committed r'.
Proof. apply (after_rel commit_rel m r r' astep_commit). Qed.

(** C8: a replica becomes leader only from candidate, or by starting an election
    in a new term; it becomes candidate only by moving to a new term; a witness
    stays a witness and no other replica becomes one or becomes non-voting.  In
    particular a leader that steps down cannot lead again in the same term. *)
Theorem handle_roles m (r r' : raft) :
  terms_fit m r -> after m r r' ->
  (state r = witness <-> state r' = witness) /\
  (state r' = nonVoting -> state r = nonVoting) /\
  (state r' = candidate -> state r <> candidate -> term r < term r') /\
  (state r' = leader -> state r <> leader -> state r <> candidate -> term r < term r').
Proof.
  intros Hf Ha.
  destruct (after_rel role_rel m r r' astep_role Hf Ha) as (_ & Hw & Hn & Hc & Hl).
  split_and!; [done|done|..]; intros Hs Hn1.
  - by destruct (Hc Hs).
  - intros Hn2. by destruct (Hl Hs) as [|[|]].
Qed.

(** A candidate or leader has its vote cast for itself, and keeps it across
    every message; the identity and the configured timeouts of a replica never
    change. *)
Theorem handle_voted_self m (r r' : raft) :
  terms_fit m r -> after m r r' -> replicaID r <> NoNode -> voted_self r ->
  voted_self r' /\ static r' = static r.
Proof.
  intros Hf Ha Hid Hv. destruct (after_rel self_rel m r r' astep_self Hf Ha) as [Hs Hself].
  auto.
Qed.

End safety.

(** ** Witnesses *)

Lemma handle_vote_once_witness :
  term candidate1 <= term (next (voteRequest 3 2 9 9) candidate1) /\
  vote (next (voteRequest 3 2 9 9) candidate1) = 1.
Proof.
  destruct (handle_vote_once (voteRequest 3 2 9 9) candidate1
              (next (voteRequest 3 2 9 9) candidate1)) as [Ht Hv].
  - by vm_compute.
  - by vm_compute.
  - split; [exact Ht|]. rewrite Hv; by vm_compute.
Defined.

Lemma handle_commit_monotone_witness :
  committed leader1 <= committed (next (ack 2 2 3) leader1).
Proof. apply (handle_commit_monotone (ack 2 2 3)); by vm_compute. Defined.

Lemma handle_roles_witness : term follower1 < term (next election follower1).
Proof.
  destruct (handle_roles election follower1 (next election follower1)) as (_ & _ & Hc & _);
    [by vm_compute..|]. apply Hc; by vm_compute.
Defined.

Lemma handle_voted_self_witness : vote leader1 = 1.
Proof.
  destruct (handle_voted_self (grant 2 2) candidate1 leader1) as [Hv Hs];
    [by vm_compute..|]. rewrite Hv; by vm_compute; auto.
Defined.
