(* ===== verification/RaftLog.v ===== *)
(** * The log of a replica across messages

    [rwf] is the invariant of a replica's log and term.  [Handle] keeps it for
    every well-formed message, never changes a committed entry, and a leader
    only appends to its log. *)
From S2P Require Import Prelude Raftpb RateLimiter Remote ReadIndex LogDB InMemory EntryLog.
From S2P Require Import LogReader RaftState Raft Samples RaftFrame RaftSteps RaftSafety.
From S2P Require Import LogInv LogWrite.
Import inMemory(inMemory) entryLog(entryLog) remote(remote).

(** What a correct leader sends: entries that follow the entry named by the
    message, with terms up to the leader's; snapshots of a real index and term.
    Other messages may hold anything. *)
Definition validMsg (m : pb.Message) : Prop :=
  match pb.m_Type m with
  | pb.Replicate =>
      pb.m_Term m <> 0 /\ 0 <= pb.m_LogIndex m /\ 0 <= pb.m_LogTerm m /\
      (pb.m_LogTerm m = 0 -> pb.m_LogIndex m = 0) /\
      pb.m_LogIndex m + 1 + len (pb.m_Entries m) < W64 /\
      contig (pb.m_LogIndex m + 1) (pb.m_Entries m) /\
      goodTerms (pb.m_LogTerm m) (pb.m_Entries m) /\
      (forall e, e ∈ pb.m_Entries m -> pb.e_Term e <= pb.m_Term m)
  | pb.InstallSnapshot =>
      pb.m_Term m <> 0 /\ 0 < pb.ss_Term (pb.m_Snapshot m) <= pb.m_Term m /\
      pb.ss_Index (pb.m_Snapshot m) + 1 < W64
  | _ => True
  end.

Section raftlog.
Context {DB : Type} `{ILogDB DB} `{!ILogDBSpec DB} `{GoRuntime}.
Abbreviation raft := (raft DB).
Abbreviation entryLog := (entryLog DB).

(** The log is well formed and its terms are at most the replica's. *)
Definition rwf (r : raft) : Prop :=
  lwf (log r) /\ 0 <= term r /\ (state r = candidate \/ state r = leader -> 0 < term r) /\
  termAt (log r) (lastIndex r) <= term r.

(** Room for the entries the leader appends. *)
Definition index_fits (i : Z) : Prop := i + 1 < W64.

(** ** Slice allocation does not matter *)

Lemma logsoft_eq (l l' : entryLog) :
  logsoft l l' -> exists rl cap sh, l' =
    entryLog.mkEntryLog (entryLog.logdb l)
      (inMemory.mkInMemory (inMemory.snapshot (entryLog.inmem l)) rl
        (inMemory.entries (entryLog.inmem l)) cap (inMemory.savedTo (entryLog.inmem l))
        (inMemory.markerIndex (entryLog.inmem l)) (inMemory.appliedToIndex (entryLog.inmem l))
        (inMemory.appliedToTerm (entryLog.inmem l)) sh)
      (entryLog.committed l) (entryLog.processed l).
Proof.
  intros (H1&H2&H3&H4&H5&H6&H7&H8&H9). destruct l' as [db' [ss rl es cap sv mk ai at_ sh] c p].
  simpl in *. subst. eauto.
Qed.

Lemma logsoft_lwf (l l' : entryLog) : logsoft l l' -> lwf l -> lwf l'.
Proof. intros (rl & cap & sh & ->)%logsoft_eq [? ? ? ? ? ? ? ? ? ? ? ? ? ?]. by split. Qed.
Lemma logsoft_entryAt (l l' : entryLog) j : logsoft l l' -> entryAt l' j = entryAt l j.
Proof. by intros (rl & cap & sh & ->)%logsoft_eq. Qed.
Lemma logsoft_termAt (l l' : entryLog) j : logsoft l l' -> termAt l' j = termAt l j.
Proof. by intros (rl & cap & sh & ->)%logsoft_eq. Qed.
Lemma logsoft_firstIndex (l l' : entryLog) :
  logsoft l l' -> entryLog.firstIndex l' = entryLog.firstIndex l.
Proof. by intros (rl & cap & sh & ->)%logsoft_eq. Qed.

(** ** The entries a leader appends *)

Lemma stampEntries_lookup t i es k e :
  0 <= i -> i + len es < W64 -> stampEntries t i es !! k = Some e ->
  pb.e_Index e = i + Z.of_nat k /\ pb.e_Term e = t.
Proof.
  revert i k. induction es as [|e0 es IH]; intros i k Hi Hw Hk; [done|].
  unfold len in *. simpl in *. rewrite add64_small in Hk by lia.
  destruct k as [|k]; simplify_eq/=; [split; [lia|done]|].
  destruct (IH (i + 1) k) as [-> ->]; [lia|lia|done|]. split; [lia|done].
Qed.
Lemma stampEntries_length t i es : length (stampEntries t i es) = length es.
Proof. revert i. induction es; intros; simpl; auto. Qed.

(** ** The relation every step satisfies *)

(** Log positions keep their entries: committed ones always, and all of a
    leader's while it leads. *)
Record log_step (r r' : raft) : Prop := {
  ls_wf : rwf r';
  ls_first : entryLog.firstIndex (log r) <= entryLog.firstIndex (log r');
  ls_commit : committed r <= committed r';
  ls_committed : forall j, entryLog.firstIndex (log r') <= j <= committed r ->
    entryAt (log r') j = entryAt (log r) j;
  ls_leader : state r = leader -> state r' = leader -> term r' = term r ->
    lastIndex r <= lastIndex r' /\
    forall j, j <= lastIndex r -> entryLog.firstIndex (log r') <= j ->
      entryAt (log r') j = entryAt (log r) j;
  ls_processed : entryLog.processed (log r) <= entryLog.processed (log r')
}.

Definition log_rel (r r' : raft) : Prop := role_rel r r' /\ (rwf r -> log_step r r').

#[global] Instance log_rel_preorder : PreOrder log_rel.
Proof.
  split.
  - intros r. split; [reflexivity|]. intros Hr. split; try done; intros; split; done || lia.
  - intros r1 r2 r3 [R12 H12] [R23 H23]. split; [by etrans|]. intros Hr.
    destruct (H12 Hr) as [W2 F2 C2 E2 L2 P2]. destruct (H23 W2) as [W3 F3 C3 E3 L3 P3].
    split; [done|lia|lia|..].
    + intros j Hj. rewrite E3, E2 by lia. done.
    + intros Hs1 Hs3 Ht.
      destruct R12 as (T12 & _ & _ & Hc12 & _), R23 as (T23 & _ & _ & _ & Hl23).
      assert (state r2 = leader) as Hs2.
      { destruct (Hl23 Hs3) as [?|[Hc|?]]; [done| |lia].
        destruct (Hc12 Hc); [congruence|lia]. }
      destruct (L2 Hs1 Hs2) as [? L2']; [lia|]. destruct (L3 Hs2 Hs3) as [? L3']; [lia|].
      split; [lia|]. intros j Hj Hf. rewrite L3', L2' by lia. done.
    + lia.
Qed.

(** Steps that leave the log alone. *)
Lemma log_step_same (r r' : raft) :
  log r' = log r -> rwf r' -> log_step r r'.
Proof.
  intros Hl Hw. unfold committed, lastIndex. split; unfold committed, lastIndex in *; rewrite ?Hl;
    try done; try lia; intros; split; done || lia.
Qed.

Lemma mem_log_step (r r' : raft) : mem r r' -> rwf r -> log_step r r'.
Proof.
  intros Hm (Hl & Ht0 & Hp & Ht). pose proof (mem_lastIndex _ _ Hm) as Hli.
  destruct Hm as (Htm & _ & Hst & _ & Hls). split; rewrite ?Hli.
  - split; [by eapply logsoft_lwf|]. rewrite Htm, Hst, Hli, (logsoft_termAt (log r)) by done.
    done.
  - by rewrite (logsoft_firstIndex _ _ Hls).
  - unfold committed. destruct Hls as (_ & -> & _). lia.
  - intros j _. by apply logsoft_entryAt.
  - intros _ _ _. split; [lia|]. intros j _ _. by apply logsoft_entryAt.
  - apply logsoft_eq in Hls as (rl & cap & sh & ->). simpl. lia.
Qed.

Lemma commit_log_step (r : raft) i :
  committed r < i <= lastIndex r -> rwf r ->
  log_step r (set_log (entryLog.set_committed i (log r)) r).
Proof.
  intros Hi (Hl & Ht0 & Hp & Ht). split; try done; try (simpl; lia).
  - split; [|done]. simpl. apply commit_lwf; [done|]. unfold committed, lastIndex in Hi. lia.
  - unfold committed in *. simpl. lia.
Qed.

(** What an append gives: everything below [i] is kept. *)
Lemma append_log_step (r : raft) i es l' :
  rwf r -> lwf l' -> appended i es (log r) l' -> committed r < i ->
  (state r = leader -> i = lastIndex r + 1) -> 0 < len es ->
  (forall k e, es !! k = Some e -> pb.e_Term e <= term r) ->
  log_step r (set_log l' r).
Proof.
  intros (Hl & Ht0 & Hp & Ht) Hl' Ha Hi Hlead Hpos Hterms.
  pose proof (lw_commit _ Hl) as Hc. pose proof (lw_commit _ Hl') as Hc'.
  pose proof (ap_last _ _ _ _ Ha) as Hla. unfold committed in *. split; simpl.
  - split; [done|]. split; [done|]. split; [done|]. unfold lastIndex. simpl. rewrite Hla.
    unfold termAt. rewrite (ap_first _ _ _ _ Ha), (ap_new _ _ _ _ Ha) by lia.
    rewrite (proj2 (Z.eqb_neq _ _)) by lia.
    destruct (es !! _) as [e|] eqn:He; [by eapply Hterms|lia].
  - by rewrite (ap_first _ _ _ _ Ha).
  - unfold committed. simpl. by rewrite (ap_commit _ _ _ _ Ha).
  - unfold committed. intros j Hj. apply (ap_old _ _ _ _ Ha). lia.
  - intros Hs _ _. specialize (Hlead Hs). unfold lastIndex in *. simpl. rewrite Hla.
    split; [lia|]. intros j Hj _. apply (ap_old _ _ _ _ Ha). lia.
  - by rewrite (ap_processed _ _ _ _ Ha).
Qed.

Lemma leader_append_step (r : raft) es l' :
  rwf r -> state r = leader -> index_fits (lastIndex r + len es) ->
  entryLog.append (stampEntries (term r) (lastIndex r +ᵤ 1) es) (log r) = Ret tt l' ->
  log_step r (set_log l' r).
Proof.
  intros Hr Hs HB Ha. pose proof Hr as (Hl & Ht0 & Hp & Ht).
  destruct (lwf_bounds _ Hl) as [Hb1 Hb2]. unfold index_fits in HB. unfold lastIndex in *.
  rewrite add64_small in Ha by lia. set (st := stampEntries _ _ _) in *.
  assert (length st = length es) as Hlen by apply stampEntries_length.
  destruct (decide (es = [])) as [->|Hne].
  { destruct st; [|done]. unfold entryLog.append, skip, ret in Ha. simplify_eq.
    by apply log_step_same. }
  assert (forall k e, st !! k = Some e ->
    pb.e_Index e = entryLog.lastIndex (log r) + 1 + Z.of_nat k /\ pb.e_Term e = term r) as Hst.
  { intros k e. apply stampEntries_lookup; [lia|]. unfold len in *. lia. }
  specialize (Hp (or_intror Hs)). pose proof (lw_commit _ Hl) as Hc.
  destruct (append_spec (log r) Hl (entryLog.lastIndex (log r) + 1) st) as (l1 & Ha1 & Hl1 & Hap).
  - intros Hnil. rewrite Hnil in Hlen. by destruct es.
  - intros k e Hk. by apply Hst.
  - split.
    + intros k e Hk. destruct (Hst k e Hk) as [_ ->].
      replace (entryLog.lastIndex (log r) + 1 - 1) with (entryLog.lastIndex (log r)) by lia. lia.
    + intros j k e e' _ Hj Hk. destruct (Hst j e Hj) as [_ ->]. destruct (Hst k e' Hk) as [_ ->].
      lia.
  - lia.
  - unfold len in *. lia.
  - rewrite Ha in Ha1. simplify_eq. eapply append_log_step; [done..| | | |].
    + unfold committed. lia.
    + done.
    + unfold len. destruct es; [done|]. simpl in *. lia.
    + intros k e Hk. destruct (Hst k e Hk) as [_ ->]. lia.
Qed.

Lemma accept_log_step (r : raft) m b l' :
  rwf r -> state r <> leader -> validMsg m -> inTerm m (term r) -> pb.m_Type m = pb.Replicate ->
  committed r <= pb.m_LogIndex m ->
  entryLog.matchTerm (pb.m_LogIndex m) (pb.m_LogTerm m) (log r) = OK true ->
  entryLog.tryAppend (pb.m_LogIndex m) (pb.m_Entries m) (log r) = Ret b l' ->
  log_step r (set_log l' r).
Proof.
  intros Hr Hs HV Hin Hty Hci Hmt Hta. pose proof Hr as (Hl & Ht0 & Hp & Ht).
  unfold validMsg in HV. rewrite Hty in HV. destruct HV as (Hz & Hli & Hlt & Hlz & Hw & Hc & Hg & Hle).
  unfold entryLog.matchTerm in Hmt. rewrite (term_spec _ Hl) in Hmt. simpl in Hmt.
  injection Hmt as Hmt. apply Z.eqb_eq in Hmt. pose proof (lw_commit _ Hl) as Hcm.
  assert (pb.m_LogIndex m <= entryLog.lastIndex (log r)) as Hla.
  { destruct (decide (pb.m_LogTerm m = 0)) as [Hz0|Hz0].
    - rewrite (Hlz Hz0). pose proof (lwf_bounds _ Hl). lia.
    - assert (0 < termAt (log r) (pb.m_LogIndex m)) as Hpos by lia.
      apply termAt_pos in Hpos. lia. }
  destruct (tryAppend_spec (log r) Hl (pb.m_LogIndex m) (pb.m_Entries m))
    as (b1 & l1 & Ht1 & Hl1 & _ & Hb1); [done|by rewrite Hmt|done|done|].
  rewrite Hta in Ht1. simplify_eq. destruct b1.
  - destruct Hb1 as (n & Hn & Ha). eapply append_log_step; [done..| | | |].
    + lia.
    + done.
    + unfold len. rewrite length_drop. lia.
    + intros k e Hk. rewrite lookup_drop in Hk. apply list_elem_of_lookup_2 in Hk.
      specialize (Hle e Hk). destruct Hin; lia.
  - subst l1. by apply log_step_same.
Qed.

Lemma restore_log_step (r : raft) m l' :
  rwf r -> state r <> leader -> validMsg m -> inTerm m (term r) ->
  pb.m_Type m = pb.InstallSnapshot -> committed r < pb.ss_Index (pb.m_Snapshot m) ->
  entryLog.restore (pb.m_Snapshot m) (log r) = Ret tt l' -> log_step r (set_log l' r).
Proof.
  intros (Hl & Ht0 & Hp & Ht) Hs HV Hin Hty Hci Hre.
  unfold validMsg in HV. rewrite Hty in HV. destruct HV as (Hz & Hst & Hw).
  apply logRestore_inv in Hre as [_ Hre]. pose proof (lw_commit _ Hl) as Hcm.
  pose proof (lwf_bounds _ Hl) as [Hb _]. unfold committed in Hci.
  destruct (restore_lwf _ _ _ Hl (proj1 Hst) ltac:(lia) Hw Hre) as (Hl' & Hf & Hla & Hta).
  split; simpl; try done; try lia.
  - split; [done|]. split; [done|]. split; [done|]. unfold lastIndex. simpl.
    rewrite Hla, Hta. destruct Hin; lia.
  - unfold committed. rewrite Hre. simpl. lia.
  - unfold committed. intros j Hj. lia.
  - rewrite Hre. simpl. pose proof (lw_processed _ Hl). lia.
Qed.

Lemma astep_log (r r' : raft) : astep validMsg index_fits r r' -> log_rel r r'.
Proof.
  intros Hs. split.
  { apply astep_role. by eapply astep_weaken. }
  intros Hr. pose proof Hr as (Hl & Ht0 & Hp & Htm).
  destruct Hs as [r' Hm|t Ht Hps|He|v Hv|s Hs|i Hi|es l' Hs HB Ha|m b l' Hs HV Ht Hty Hc Hm Ha
      |m l' Hs HV Ht Hty Hc Ha].
  - by apply mem_log_step.
  - apply log_step_same; [done|]. split; [done|]. simpl. split; [lia|]. split.
    + destruct Hps as [->|[->| ->]]; intros [?|?]; done.
    + change (lastIndex (set_vote NoLeader (set_term t r))) with (lastIndex r). lia.
  - apply log_step_same; [done|]. split; [done|]. simpl. split; [lia|]. split; [lia|].
    change (lastIndex (set_vote _ _)) with (lastIndex r). lia.
  - apply log_step_same; [done|exact Hr].
  - apply log_step_same; [done|]. split; [done|]. split; [done|]. split; [|exact Htm].
    simpl. intros Hs'. apply Hp. destruct s; simpl in Hs; destruct Hs'; try done; tauto.
  - by apply commit_log_step.
  - by eapply leader_append_step.
  - by eapply accept_log_step.
  - by eapply restore_log_step.
Qed.

Lemma steps_log (r r' : raft) : steps validMsg index_fits r r' -> log_rel r r'.
Proof.
  induction 1 as [|r1 r2 r3 H12 _ IH]; [reflexivity|]. etrans; [by apply astep_log|done].
Qed.

(** ** Claims *)

(** What [Handle] may assume of a message. *)
Definition msg_fits (m : pb.Message) (r : raft) : Prop :=
  terms_fit m r /\ validMsg m /\ index_fits (lastIndex r + 1) /\
  index_fits (lastIndex r + len (pb.m_Entries m)).

Lemma after_log m (r r' : raft) : msg_fits m r -> after m r r' -> log_rel r r'.
Proof.
  intros ((?&?&?&?) & HV & HB1 & HBn) Ha. unfold after in Ha.
  assert (wp any_panic (Handle m) (fun _ r' => log_rel r r') (fun _ r' => log_rel r r') r) as Hw.
  { eapply wp_mono; [by apply (Handle_steps validMsg index_fits)|..]; simpl; intros;
      by apply steps_log. }
  unfold wp in Hw. by destruct (Handle m r); subst.
Qed.

(** C4: the log invariant of a replica ([rwf]: contiguous indexes, terms that do
    not decrease and stay within the replica's term, no gap between disk and
    memory, commit index within the log) holds after every well-formed message. *)
Theorem handle_log_invariant m (r r' : raft) :
  rwf r -> msg_fits m r -> after m r r' -> rwf r'.
Proof. intros Hr Hm Ha. destruct (after_log m r r' Hm Ha) as [_ Hs]. by apply Hs. Qed.

(** C2: no well-formed message changes a committed entry.  From a replica whose log
    invariant holds ([rwf]), a message that a correct sender can send, that is one whose
    entries, if it replicates any, follow each other and the entry it names, with terms
    that do not decrease and do not exceed its own, leaves the entry at every index up to
    the commit index that the log still holds.  The code itself compares only the first
    entry it appends with the log and relies on the sender for the others; terms and
    indexes are assumed to fit 64 bits. *)
Theorem handle_committed_stable m (r r' : raft) :
  rwf r -> msg_fits m r -> after m r r' ->
  forall j, entryLog.firstIndex (log r') <= j <= committed r ->
    entryAt (log r') j = entryAt (log r) j.
Proof.
  intros Hr Hm Ha j Hj. destruct (after_log m r r' Hm Ha) as [_ Hs].
  by apply (ls_committed _ _ (Hs Hr)).
Qed.

(** C6: a leader never overwrites or deletes entries of its log: while it stays
    leader of a term, every message leaves the entries it had and may only add
    more. *)
Theorem handle_leader_append_only m (r r' : raft) :
  rwf r -> msg_fits m r -> after m r r' ->
  state r = leader -> state r' = leader -> term r' = term r ->
  lastIndex r <= lastIndex r' /\
  forall j, entryLog.firstIndex (log r') <= j <= lastIndex r ->
    entryAt (log r') j = entryAt (log r) j.
Proof.
  intros Hr Hm Ha Hs Hs' Ht. destruct (after_log m r r' Hm Ha) as [_ Hst].
  destruct (ls_leader _ _ (Hst Hr) Hs Hs' Ht) as [? Hj]. split; [done|].
  intros j [??]. by apply Hj.
Qed.

End raftlog.

(** ** Witnesses *)

Lemma reader0_wf : db_wf reader0.
Proof.
  split_and!; [done..|]. intros i Hi. change (0 < i < 0 + 3) in Hi.
  assert (i = 1 \/ i = 2) as [->| ->] by lia; by vm_compute; eauto.
Qed.

Lemma reader0_terms : dbTerms reader0.
Proof.
  split.
  - intros i j Hi Hj. change (1 - 1 <= i <= j) in Hi. change (j <= 2) in Hj.
    assert (i = 0 \/ i = 1 \/ i = 2) as [->|[->| ->]] by lia;
      assert (j = 0 \/ j = 1 \/ j = 2) as [->|[->| ->]] by lia; try lia; by vm_compute.
  - intros i Hi. change (1 <= i <= 2) in Hi.
    assert (i = 1 \/ i = 2) as [->| ->] by lia; by vm_compute.
Qed.

Lemma follower1_rwf : rwf follower1.
Proof.
  assert (log follower1 = entryLog.newEntryLog reader0 (server.NewInMemRateLimiter 0)) as Hlog
    by (vm_compute; reflexivity).
  destruct (newEntryLog_lwf reader0 (server.NewInMemRateLimiter 0) reader0_wf reader0_terms)
    as [Hl Ht]. split; [by rewrite Hlog|]. split; [by vm_compute|].
  split; [intros _; by vm_compute|]. rewrite Hlog, Ht. by vm_compute.
Qed.

Lemma next_rwf m r : rwf r -> msg_fits m r -> after m r (next m r) -> rwf (next m r).
Proof. intros Hr Hm Ha. by apply (after_log m r _ Hm Ha). Qed.

Ltac fits := split_and!; by vm_compute.

Lemma candidate1_rwf : rwf candidate1.
Proof. apply next_rwf; [apply follower1_rwf|fits|by vm_compute]. Qed.
Lemma leader1_rwf : rwf leader1.
Proof. apply next_rwf; [apply candidate1_rwf|fits|by vm_compute]. Qed.
Lemma leader1_log_rwf : rwf leader1_log.
Proof.
  apply (next_rwf (ack 2 2 3)); [|fits|by vm_compute].
  apply (next_rwf (propose 2) leader1); [apply leader1_rwf|fits|by vm_compute].
Qed.

Lemma handle_log_invariant_witness : rwf (next (propose 2) leader1).
Proof.
  apply (handle_log_invariant (propose 2) leader1); [apply leader1_rwf|fits|by vm_compute].
Defined.

(** Entry 5 of the old leader is replaced by the new leader's; entry 3, which is
    committed, stays. *)
Definition takeover : pb.Message :=
  replicateMsg 3 4 4 2 3 [pb.entry pb.ApplicationEntry 4 5; pb.entry pb.ApplicationEntry 4 6].

Lemma handle_committed_stable_witness :
  entryAt (log (next takeover leader1_log)) 3 = entryAt (log leader1_log) 3.
Proof.
  apply (handle_committed_stable takeover leader1_log);
    [apply leader1_log_rwf| |by vm_compute|by vm_compute].
  split_and!; [by vm_compute..| |by vm_compute|by vm_compute].
  split_and!; [by vm_compute..| | |].
  - by intros [|[|k]] e; simplify_eq/=; intros; simplify_eq.
  - split; [by intros [|[|k]] e; simplify_eq/=; intros; simplify_eq|].
    intros [|[|j]] [|[|k]] e e' Hjk Hj Hk; simplify_eq/=; lia.
  - intros e He. set_unfold in He. destruct He as [->|[->|[]]]; done.
Defined.

Lemma handle_leader_append_only_witness :
  lastIndex leader1 <= lastIndex (next (propose 2) leader1) /\
  forall j, 1 <= j <= 3 -> entryAt (log (next (propose 2) leader1)) j = entryAt (log leader1) j.
Proof.
  destruct (handle_leader_append_only (propose 2) leader1 (next (propose 2) leader1))
    as [Hlast Hj]; [apply leader1_rwf|fits|by vm_compute..|].
  split; [exact Hlast|]. intros j Hj1. apply Hj.
  assert (lastIndex leader1 = 3) as -> by (by vm_compute).
  assert (entryLog.firstIndex (log (next (propose 2) leader1)) = 1) as -> by (by vm_compute).
  exact Hj1.
Defined.
