(* ===== verification/LogCycle.v ===== *)
(** * Saving and applying the log

    What an update takes from the log and what committing it does: the entries to
    save are the part of the log that is not in the database yet, the entries to
    apply are the next committed ones, and once an update has been saved,
    [commitUpdate] leaves the log as a sequence unchanged. *)
From S2P Require Import Prelude Raftpb RateLimiter LogDB InMemory EntryLog LogInv LogWrite.
Import inMemory(inMemory) entryLog(entryLog).

Lemma len_nonneg' {A} (xs : list A) : 0 <= len xs.
Proof. unfold len. lia. Qed.

(** ** Dropping applied entries from memory *)

(** What [appliedLogTo] leaves when [idx] is in memory. *)
Record dropped (idx : Z) (im im' : inMemory) : Prop := {
  dr_snap : inMemory.snapshot im' = inMemory.snapshot im;
  dr_saved : inMemory.savedTo im' = inMemory.savedTo im;
  dr_marker : inMemory.markerIndex im' = idx + 1;
  dr_ents : inMemory.entries im' = dropZ (idx + 1 - inMemory.markerIndex im) (inMemory.entries im);
  dr_index : inMemory.appliedToIndex im' = idx;
  dr_term : Some (inMemory.appliedToTerm im') =
    pb.e_Term <$> inMemory.entries im !! Z.to_nat (idx - inMemory.markerIndex im)
}.

Section applied.
Context (im : inMemory) (idx : Z).
Abbreviation mk := (inMemory.markerIndex im).
Abbreviation es := (inMemory.entries im).
Context (Hc : contig mk es) (Hm : 1 <= mk) (Hw : mk + len es < W64) (Hi : idx < mk + len es).

Lemma appliedLogTo_below : idx < mk -> inMemory.appliedLogTo idx im = Ret tt im.
Proof.
  intros Hlt. unfold inMemory.appliedLogTo, mbind, M_bind, get.
  by rewrite (proj2 (Z.ltb_lt _ _)) by done.
Qed.

Lemma appliedLogTo_wp :
  mk <= idx -> wp no_panic (inMemory.appliedLogTo idx) (fun _ => dropped idx im) (fun _ _ => False) im.
Proof.
  intros Hge. unfold inMemory.appliedLogTo. apply wp_bind. unfold wp at 1, get.
  rewrite (proj2 (Z.ltb_ge _ _)) by done.
  destruct (last es) as [lst|] eqn:Hlast.
  2:{ apply last_None in Hlast. rewrite Hlast in Hi. unfold len in Hi. simpl in Hi. lia. }
  rewrite (contig_last _ _ _ Hc Hlast), (proj2 (Z.ltb_ge _ _)) by lia.
  destruct (lookup_lt_is_Some_2 es (Z.to_nat (idx - mk))) as [e He]; [unfold len in Hi; lia|].
  assert (pb.e_Index e = idx) as Hei by (rewrite (Hc _ _ He); lia).
  apply wp_bind, wp_readr. rewrite sub64_small by lia. unfold index, nthZ.
  rewrite decide_True, He, Hei, Z.eqb_refl by lia. simpl.
  apply wp_bind, wp_modify, wp_bind, wp_readr. rewrite add64_small, sub64_small by lia.
  unfold slice. simpl. rewrite decide_True by lia. apply wp_bind, wp_modify, wp_bind, wp_readr.
  simpl. rewrite decide_True by lia. do 3 apply wp_bind, wp_modify. apply wp_bind, wp_readr.
  set (im1 := inMemory.set_markerIndex _ _).
  destruct (resizeEntrySlice_same im1) as (R1 & R2 & R3 & R4 & R5 & R6).
  assert (inMemory.entries im1 = dropZ (idx + 1 - mk) es) as Hes.
  { unfold im1. simpl. unfold takeZ, dropZ. apply take_ge. rewrite length_drop.
    unfold len in *. lia. }
  rewrite checkMarkerIndex_ok.
  2:{ rewrite R1, R2, Hes. unfold dropZ. simpl.
      replace (idx + 1) with (mk + Z.of_nat (Z.to_nat (idx + 1 - mk))) at 1 by lia.
      by apply contig_drop. }
  assert (dropped idx im (inMemory.resizeEntrySlice im1)) as Hdr.
  { split; rewrite ?R1, ?R2, ?R3, ?R4, ?R5, ?R6; try done. by rewrite He. }
  apply wp_bind. unfold wp at 1, get. apply wp_when; [|done]. intros _. apply wp_modify.
  destruct Hdr. by split.
Qed.

Lemma appliedLogTo_spec :
  mk <= idx -> exists im', inMemory.appliedLogTo idx im = Ret tt im' /\ dropped idx im im'.
Proof.
  intros Hge. pose proof (appliedLogTo_wp Hge) as Ha. unfold wp in Ha.
  destruct (inMemory.appliedLogTo idx im) as [[] im'| |]; [eauto|done..].
Qed.

End applied.

Section cycle.
Context {DB : Type} `{ILogDB DB} `{!ILogDBSpec DB} `{GoRuntime}.
Abbreviation entryLog := (entryLog DB).
Abbreviation marker l := (inMemory.markerIndex (entryLog.inmem l)).
Abbreviation ents l := (inMemory.entries (entryLog.inmem l)).
Abbreviation snap l := (inMemory.snapshot (entryLog.inmem l)).
Abbreviation savedTo l := (inMemory.savedTo (entryLog.inmem l)).

(** ** What an update takes *)

Lemma entriesToSave_spec (l : entryLog) :
  lwf l -> let es := entryLog.entriesToSave l in
  es = dropZ (savedTo l + 1 - marker l) (ents l) /\ run l (savedTo l + 1) es /\
  len es = entryLog.lastIndex l - savedTo l.
Proof.
  intros Hl es. pose proof (lwf_last l Hl) as Hla. pose proof (lw_marker l Hl) as [Hm Hw].
  destruct (lw_saved l Hl) as [Hs _]. pose proof (lw_stable l Hl) as Hst.
  assert (es = dropZ (savedTo l + 1 - marker l) (ents l)) as Hes.
  { unfold es, entryLog.entriesToSave, inMemory.entriesToSave.
    rewrite add64_small, sub64_small by lia. by rewrite (proj2 (Z.ltb_ge _ _)) by lia. }
  rewrite Hes. split; [done|]. unfold dropZ, len in *. rewrite length_drop. split; [|lia].
  intros k e Hk. rewrite lookup_drop in Hk. apply lookup_lt_Some in Hk as Hlt.
  rewrite entryAt_mem by (done || lia). unfold memAt. rewrite <- Hk. f_equal. lia.
Qed.
(** The first index not yet handed out. *)
Definition nextToApply (l : entryLog) : Z :=
  Z.max (entryLog.processed l + 1) (entryLog.firstIndex l).

Lemma entriesToApply_spec (l : entryLog) :
  lwf l -> exists es, entryLog.entriesToApply l = OK es /\ run l (nextToApply l) es /\
    nextToApply l + len es <= entryLog.committed l + 1 /\
    (nextToApply l <= entryLog.committed l -> es <> []).
Proof.
  intros Hl. pose proof (lwf_bounds l Hl) as [Hb1 Hb2]. pose proof (lw_commit l Hl) as Hc.
  pose proof (lw_processed l Hl) as Hp.
  unfold entryLog.entriesToApply, entryLog.getEntriesToApply, entryLog.hasEntriesToApply.
  unfold entryLog.firstNotAppliedIndex, entryLog.toApplyIndexLimit, nextToApply.
  rewrite !add64_small by lia. set (n := Z.max _ _).
  destruct (Z.ltb_spec n (entryLog.committed l + 1)).
  - destruct (getEntries_spec l Hl n (entryLog.committed l + 1) maxEntriesToApplySize)
      as (es & He & Hn & Hr); [lia|lia|by vm_compute|].
    exists es. split_and!; [done..|lia|]. intros _ ->. unfold len in Hn. simpl in Hn. lia.
  - exists []. split_and!; [done|by intros k e|unfold len; simpl; lia|lia].
Qed.

(** ** The update is in the database *)

(** [db] holds the whole log [l]. *)
Record holds (l : entryLog) (db : DB) : Prop := {
  ho_wf : db_wf db;
  ho_first : (GetRange db).1 = entryLog.firstIndex l;
  ho_last : (GetRange db).2 = entryLog.lastIndex l;
  ho_entry : forall i, entryLog.firstIndex l <= i <= entryLog.lastIndex l ->
    db_entry db i = entryAt l i;
  ho_base : db_term db (entryLog.firstIndex l - 1) = baseTerm l
}.

(** [l'] is [l] read from [db] as far as possible, with everything saved, no
    snapshot in memory and the entries from [marker l'] on still there. *)
Record moved (l : entryLog) (db : DB) (l' : entryLog) : Prop := {
  mv_db : entryLog.logdb l' = db;
  mv_snap : snap l' = None;
  mv_commit : entryLog.committed l' = entryLog.committed l;
  mv_processed : 0 <= entryLog.processed l' <= entryLog.committed l;
  mv_saved : savedTo l' = entryLog.lastIndex l;
  mv_marker : marker l <= marker l' <= entryLog.lastIndex l + 1;
  mv_ents : ents l' = dropZ (marker l' - marker l) (ents l);
  mv_applied : 0 < inMemory.appliedToIndex (entryLog.inmem l') ->
    inMemory.appliedToTerm (entryLog.inmem l') <> 0 /\
    inMemory.appliedToIndex (entryLog.inmem l') < marker l' /\
    inMemory.appliedToIndex (entryLog.inmem l') <= entryLog.committed l /\
    (entryLog.firstIndex l - 1 <= inMemory.appliedToIndex (entryLog.inmem l') ->
     termAt l (inMemory.appliedToIndex (entryLog.inmem l'))
       = inMemory.appliedToTerm (entryLog.inmem l'))
}.

Section moved.
Context (l : entryLog) (Hl : lwf l) (db : DB) (Hdb : holds l db) (l' : entryLog)
  (Hm : moved l db l').

Lemma moved_first : entryLog.firstIndex l' = entryLog.firstIndex l.
Proof.
  unfold entryLog.firstIndex at 1, inMemory.getSnapshotIndex.
  rewrite (mv_snap _ _ _ Hm), (mv_db _ _ _ Hm). apply Hdb.
Qed.

Lemma moved_len : marker l' + len (ents l') = marker l + len (ents l).
Proof.
  rewrite (mv_ents _ _ _ Hm). pose proof (mv_marker _ _ _ Hm). pose proof (lwf_last l Hl).
  unfold dropZ, len in *. rewrite length_drop. lia.
Qed.

Lemma moved_memAt i : marker l' <= i -> memAt l' i = memAt l i.
Proof.
  intros Hi. unfold memAt. rewrite (mv_ents _ _ _ Hm). unfold dropZ. rewrite lookup_drop.
  pose proof (mv_marker _ _ _ Hm). f_equal. lia.
Qed.

Lemma moved_contig : contig (marker l') (ents l').
Proof.
  rewrite (mv_ents _ _ _ Hm). pose proof (mv_marker _ _ _ Hm). unfold dropZ.
  replace (marker l') with (marker l + Z.of_nat (Z.to_nat (marker l' - marker l))) at 1 by lia.
  apply contig_drop, Hl.
Qed.

Lemma moved_last : entryLog.lastIndex l' = entryLog.lastIndex l.
Proof.
  pose proof moved_len as Hlen. pose proof (lwf_last l Hl) as Hla.
  unfold entryLog.lastIndex at 1, inMemory.getLastIndex, inMemory.getSnapshotIndex.
  rewrite (mv_snap _ _ _ Hm), (mv_db _ _ _ Hm).
  destruct (last (ents l')) as [e|] eqn:He; [|apply Hdb].
  rewrite (contig_last _ _ _ moved_contig He). lia.
Qed.

Lemma moved_entryAt i : entryAt l' i = entryAt l i.
Proof.
  unfold entryAt at 1. rewrite moved_first, moved_last.
  destruct (decide (entryLog.firstIndex l <= i <= entryLog.lastIndex l)) as [Hd|Hd].
  - case_decide.
    + rewrite moved_memAt by done. pose proof (mv_marker _ _ _ Hm).
      by rewrite (entryAt_mem l Hl) by lia.
    + rewrite (mv_db _ _ _ Hm). by apply Hdb.
  - unfold entryAt. by rewrite decide_False by done.
Qed.

Lemma moved_base : baseTerm l' = baseTerm l.
Proof.
  unfold baseTerm at 1. rewrite (mv_snap _ _ _ Hm), (mv_db _ _ _ Hm), (ho_first _ _ Hdb).
  apply Hdb.
Qed.

Lemma moved_termAt i : termAt l' i = termAt l i.
Proof. unfold termAt. by rewrite moved_first, moved_base, moved_entryAt. Qed.

Lemma moved_lwf : lwf l'.
Proof.
  pose proof moved_first as Hf. pose proof moved_last as Hla. pose proof moved_len as Hlen.
  pose proof (lwf_last l Hl) as Hll. pose proof (mv_marker _ _ _ Hm) as Hmk.
  pose proof (lw_marker l Hl) as [Hm1 Hm2]. pose proof (lw_commit l Hl) as Hc.
  pose proof (mv_db _ _ _ Hm) as Hd.
  split; rewrite ?Hf, ?Hla, ?Hd, ?(mv_snap _ _ _ Hm), ?(mv_commit _ _ _ Hm), ?(mv_saved _ _ _ Hm).
  - apply Hdb.
  - apply moved_contig.
  - lia.
  - rewrite (ho_last _ _ Hdb). split; [lia|]. intros He. rewrite He in Hlen.
    unfold len in *. simpl in Hlen. lia.
  - done.
  - apply Hm.
  - split; [lia|]. intros i Hi. rewrite (ho_first _ _ Hdb), (ho_last _ _ Hdb). intros Hi'.
    split; [lia|]. rewrite (ho_entry _ _ Hdb) by lia.
    rewrite moved_memAt by lia. apply (entryAt_mem l Hl); lia.
  - intros H0i. rewrite moved_termAt. by apply Hm.
  - intros _. rewrite (ho_first _ _ Hdb), (ho_base _ _ Hdb). intros Hlt.
    pose proof (lwf_first l Hl) as Hfl. unfold baseTerm. destruct (snap l) eqn:Hs; [lia|].
    rewrite moved_memAt, Hfl by lia. apply Hl; [done|lia].
  - intros i j Hi Hj. rewrite !moved_termAt. by apply Hl.
  - intros i e. rewrite moved_entryAt. apply Hl.
  - intros i e. unfold memAt. rewrite (mv_ents _ _ _ Hm). unfold dropZ. rewrite lookup_drop.
    intros He. apply (lw_mempos l Hl (marker l + Z.of_nat (Z.to_nat (marker l' - marker l)
      + Z.to_nat (i - marker l')))). unfold memAt. rewrite <- He. f_equal. lia.
  - done.
  - lia.
Qed.

End moved.

(** ** Committing an update *)

Definition withDB (db : DB) (l : entryLog) : entryLog :=
  entryLog.mkEntryLog db (entryLog.inmem l) (entryLog.committed l) (entryLog.processed l).

(** The state of memory once the entries and the snapshot are saved. *)
Definition settled (l : entryLog) : inMemory :=
  inMemory.set_snapshot None (inMemory.set_savedTo (entryLog.lastIndex l) (entryLog.inmem l)).

(** The part of an update commit that [getUpdateCommit] derives from the log. *)
Record commits (l : entryLog) (cu : pb.UpdateCommit) : Prop := {
  cm_log : match last (entryLog.entriesToSave l) with
           | Some e => pb.uc_StableLogTo cu = pb.e_Index e /\ pb.uc_StableLogTerm cu = pb.e_Term e
           | None => pb.uc_StableLogTo cu = 0
           end;
  cm_snap : pb.uc_StableSnapshotTo cu =
            match snap l with Some ss => pb.ss_Index ss | None => 0 end;
  cm_processed : pb.uc_Processed cu = 0 \/
    entryLog.processed l <= pb.uc_Processed cu <= entryLog.committed l
}.

Section commit.
Context (l : entryLog) (Hl : lwf l) (cu : pb.UpdateCommit) (Hcu : commits l cu).

Definition newProcessed : Z :=
  if 0 <? pb.uc_Processed cu then pb.uc_Processed cu else entryLog.processed l.

Lemma savedLogTo_spec :
  when (0 <? pb.uc_StableLogTo cu)
    (inMemory.savedLogTo (pb.uc_StableLogTo cu) (pb.uc_StableLogTerm cu)) (entryLog.inmem l)
  = Ret tt (inMemory.set_savedTo (entryLog.lastIndex l) (entryLog.inmem l)).
Proof.
  destruct (entriesToSave_spec l Hl) as (Hes & Hrun & Hlen). pose proof (cm_log _ _ Hcu) as Hto.
  pose proof (lwf_last l Hl) as Hla. pose proof (lw_marker l Hl) as [Hm1 Hm2].
  destruct (lw_saved l Hl) as [Hsv _].
  destruct (last (entryLog.entriesToSave l)) as [e|] eqn:Hlast.
  - destruct Hto as [Hto Htm]. pose proof (run_contig l Hl _ _ Hrun) as Hc.
    pose proof (contig_last _ _ _ Hc Hlast) as Hidx. rewrite Hto, Htm.
    replace (pb.e_Index e) with (entryLog.lastIndex l) by lia.
    rewrite last_lookup in Hlast. pose proof (Hrun _ _ Hlast) as He.
    apply lookup_lt_Some in Hlast as Hlt.
    replace (savedTo l + 1 + _) with (entryLog.lastIndex l) in He by (unfold len in *; lia).
    rewrite (entryAt_mem l Hl) in He by (pose proof (lw_stable l Hl); unfold len in *; lia).
    unfold memAt in He. unfold len in Hlen.
    rewrite (proj2 (Z.ltb_lt _ _)) by lia. simpl.
    unfold inMemory.savedLogTo, mbind, M_bind, get, readr.
    rewrite (proj2 (Z.ltb_ge _ _)) by lia.
    destruct (last (ents l)) as [e'|] eqn:Hl'.
    2:{ apply last_None in Hl'. by rewrite Hl' in He. }
    rewrite (contig_last _ _ _ (lw_contig l Hl) Hl'), <- Hla, Z.ltb_irrefl.
    unfold index, nthZ. rewrite sub64_small, decide_True, He by lia.
    by rewrite Z.eqb_refl.
  - rewrite Hto. apply last_None in Hlast. rewrite Hlast in Hlen. unfold len in Hlen.
    simpl in Hlen. replace (entryLog.lastIndex l) with (savedTo l) by lia.
    unfold when. simpl. unfold skip, ret. by destruct (entryLog.inmem l).
Qed.

Lemma inMemory_commit :
  inMemory.commitUpdate cu (entryLog.inmem l) = Ret tt (settled l).
Proof.
  unfold inMemory.commitUpdate, mbind, M_bind. rewrite savedLogTo_spec.
  rewrite (cm_snap _ _ Hcu). unfold settled.
  destruct (snap l) as [ss|] eqn:Hs.
  - destruct (lw_snap l Hl ss Hs) as [Hss _]. rewrite (proj2 (Z.ltb_lt _ _)) by done.
    unfold when, modify, inMemory.savedSnapshotTo, inMemory.getSnapshotIndex. simpl.
    by rewrite Hs, Z.eqb_refl.
  - simpl. unfold skip, ret. f_equal. destruct (entryLog.inmem l). simpl in *. by subst.
Qed.

Context (db : DB).

Definition moved_to (l' : entryLog) : Prop :=
  moved l db l' /\ entryLog.processed l' = newProcessed.

(** Before the applied entries are dropped. *)
Lemma window_moved :
  moved_to (entryLog.mkEntryLog db (settled l) (entryLog.committed l) newProcessed).
Proof.
  pose proof (cm_processed _ _ Hcu). pose proof (lw_processed l Hl) as Hp.
  pose proof (lwf_last l Hl). pose proof (lw_marker l Hl). pose proof (len_nonneg' (ents l)).
  split; [|done]. split; simpl; try done.
  - unfold newProcessed. destruct (Z.ltb_spec 0 (pb.uc_Processed cu)); lia.
  - lia.
  - unfold dropZ. by rewrite Z.sub_diag.
  - apply Hl.
Qed.

Lemma dropped_moved idx im' :
  marker l <= idx <= entryLog.committed l -> dropped idx (settled l) im' ->
  moved_to (entryLog.mkEntryLog db im' (entryLog.committed l) newProcessed).
Proof.
  intros Hi [D1 D2 D3 D4 D5 D6]. pose proof (lw_commit l Hl) as Hc.
  destruct window_moved as [[M1 M2 M3 M4 M5 M6 M7 M8] _]. simpl in *.
  split; [|done]. split; simpl; rewrite ?D1, ?D2, ?D3, ?D5; try done; try lia.
  intros _. fold (memAt l idx) in D6. destruct (memAt l idx) as [e|] eqn:He; [|done].
  injection D6 as ->. split_and!; [pose proof (lw_mempos l Hl _ _ He); lia|lia|lia|].
  intros Hf. unfold termAt. destruct (Z.eqb_spec idx (entryLog.firstIndex l - 1)) as [Heq|Hne].
  - pose proof (lwf_first l Hl) as Hfi. unfold baseTerm. destruct (snap l) eqn:Hs; [lia|].
    pose proof (lw_edge l Hl Hs) as Hed. rewrite <- Hfi, <- Heq, He in Hed.
    rewrite <- Hfi, <- Heq. injection Hed; [done|lia].
  - by rewrite (entryAt_mem l Hl), He by lia.
Qed.

Lemma commitUpdate_spec :
  pb.uc_LastApplied cu <= newProcessed ->
  exists l', entryLog.commitUpdate cu (withDB db l) = Ret tt l' /\ moved_to l'.
Proof.
  intros Hla. pose proof (cm_processed _ _ Hcu) as Hpr. pose proof (lw_processed l Hl) as Hp.
  pose proof window_moved as Hset. pose proof (lw_commit l Hl) as Hc.
  pose proof (lwf_last l Hl) as Hlast. pose proof (lw_marker l Hl) as [Hm1 Hm2].
  assert (newProcessed <= entryLog.committed l) as Hnew.
  { unfold newProcessed. destruct (Z.ltb_spec 0 (pb.uc_Processed cu)); lia. }
  unfold entryLog.commitUpdate, entryLog.on_inmem, zoom, mbind, M_bind. simpl.
  rewrite inMemory_commit. simpl. unfold get.
  set (l1 := entryLog.mkEntryLog db (settled l) (entryLog.committed l) newProcessed) in *.
  match goal with
  | |- exists _, match ?c with _ => _ end = _ /\ _ => assert (c = Ret tt l1) as ->
  end.
  { unfold l1, newProcessed. destruct (Z.ltb_spec 0 (pb.uc_Processed cu)); [|done]. simpl.
    rewrite (proj2 (Z.ltb_ge _ (entryLog.processed l))), (proj2 (Z.ltb_ge _ (pb.uc_Processed cu)))
      by lia. done. }
  destruct (Z.ltb_spec 0 (pb.uc_LastApplied cu)); [|by exists l1]. simpl.
  rewrite (proj2 (Z.ltb_ge (entryLog.committed l) _)), (proj2 (Z.ltb_ge newProcessed _)) by lia.
  change (entryLog.inmem l1) with (settled l).
  destruct (decide (pb.uc_LastApplied cu < marker l)).
  - rewrite appliedLogTo_below by done. by exists l1.
  - destruct (appliedLogTo_spec (settled l) (pb.uc_LastApplied cu)) as (im' & -> & Hdr);
      [apply Hl|done|done|simpl; lia|simpl; lia|].
    eexists. split; [reflexivity|]. eapply dropped_moved; [|done]. lia.
Qed.

End commit.
End cycle.
