(* ===== verification/LogSpec.v ===== *)
(** * What the entry log promises

    The contract of [raft/internal/raft/logentry.go], stated on the log as one
    list of entries ([contents]): reads return a prefix of what is asked,
    appends replace a suffix, snapshots restart the list. *)
From S2P Require Import Prelude Raftpb RateLimiter Remote ReadIndex LogDB InMemory EntryLog.
From S2P Require Import LogReader RaftState Raft Samples LogInv LogWrite RaftFrame RaftSteps.
From S2P Require Import RaftSafety RaftLog.
Import inMemory(inMemory) entryLog(entryLog) remote(remote).

(** ** Size limits *)

Definition totalSize (es : list pb.Entry) : Z := foldr (fun e z => pb.SizeUpperLimit e + z) 0 es.

Lemma SizeUpperLimit_pos e : 0 < pb.SizeUpperLimit e.
Proof. unfold pb.SizeUpperLimit, pb.EntryNonCmdFieldsSize, len. lia. Qed.
Lemma totalSize_nonneg es : 0 <= totalSize es.
Proof. induction es as [|e es IH]; simpl; [lia|]. pose proof (SizeUpperLimit_pos e). lia. Qed.

Lemma limitLoop_spec es total limit :
  0 <= total -> total + totalSize es < W64 ->
  let es' := limitLoop es total limit in
  (es' <> [] -> total + totalSize es' <= limit) /\
  (forall e, es !! length es' = Some e -> limit < total + totalSize es' + pb.SizeUpperLimit e).
Proof.
  revert total. induction es as [|e es IH]; intros total H0 Hw; simpl; [done|].
  simpl in Hw. pose proof (SizeUpperLimit_pos e). pose proof (totalSize_nonneg es).
  unfold u64. rewrite Z.mod_small by lia.
  destruct (Z.ltb_spec limit (total + pb.SizeUpperLimit e)); simpl.
  - split; [done|]. intros e' [= <-]. lia.
  - destruct (IH (total + pb.SizeUpperLimit e)) as [IH1 IH2]; [lia..|]. split.
    + intros _. destruct (limitLoop es _ limit) eqn:Hl; [simpl; lia|].
      specialize (IH1 ltac:(done)). lia.
    + intros e' He'. specialize (IH2 e' He'). lia.
Qed.

(** [limitSize] returns the longest prefix within the limit, and always at
    least one entry: a result of two or more entries fits the limit, and adding
    the next entry would exceed it. *)
Theorem limitSize_longest es limit :
  es <> [] -> totalSize es < W64 ->
  let es' := limitSize es limit in
  es' `prefix_of` es /\ es' <> [] /\
  (1 < len es' -> totalSize es' <= limit) /\
  (forall e, es !! length es' = Some e -> limit < totalSize es' + pb.SizeUpperLimit e).
Proof.
  intros Hne Hw. destruct es as [|e es]; [done|]. cbv zeta. split; [apply limitSize_prefix|].
  simpl in *. pose proof (SizeUpperLimit_pos e).
  destruct (limitLoop_spec es (pb.SizeUpperLimit e) limit) as [H1 H2]; [lia..|].
  split_and!; [done| |].
  - intros Hl. apply H1. intros Hnil. rewrite Hnil in Hl. by vm_compute in Hl.
  - intros e' He'. specialize (H2 e' He'). lia.
Qed.

Lemma limitSize_longest_witness : limitSize disk 100 <> [] /\ limitSize disk 100 `prefix_of` disk.
Proof.
  destruct (limitSize_longest disk 100) as (Hp & Hne & _); [done|by vm_compute|].
  split; [exact Hne|exact Hp].
Defined.

Section spec.
Context {DB : Type} `{ILogDB DB} `{!ILogDBSpec DB} `{GoRuntime}.
Abbreviation entryLog := (entryLog DB).

(** The entries of the log, from the first index on. *)
Definition contents (l : entryLog) : list pb.Entry :=
  omap (entryAt l) (seqZ (entryLog.firstIndex l)
                      (entryLog.lastIndex l + 1 - entryLog.firstIndex l)).

Lemma omap_total {A B} (f : A -> option B) (xs : list A) (k : nat) :
  (forall x, x ∈ xs -> is_Some (f x)) -> omap f xs !! k = xs !! k ≫= f.
Proof.
  revert k. induction xs as [|x xs IH]; intros k Hf; [done|].
  destruct (Hf x) as [b Hb]; [set_solver|].
  change (omap f (x :: xs)) with (match f x with Some y => y :: omap f xs | None => omap f xs end).
  rewrite Hb. destruct k as [|k]; simpl; [done|]. apply IH. set_solver.
Qed.

Lemma prefix_by_lookup {A} (xs ys : list A) :
  (forall k x, xs !! k = Some x -> ys !! k = Some x) -> xs `prefix_of` ys.
Proof.
  revert ys. induction xs as [|x xs IH]; intros ys Hl; [apply prefix_nil|].
  destruct ys as [|y ys]; [by specialize (Hl 0%nat x eq_refl)|].
  specialize (Hl 0%nat x eq_refl) as Hx. injection Hx as ->.
  apply prefix_cons, IH. intros k. apply (Hl (S k)).
Qed.

Lemma contents_lookup l k :
  lwf l -> contents l !! k = entryAt l (entryLog.firstIndex l + Z.of_nat k).
Proof.
  intros Hl. unfold contents. pose proof (lwf_bounds l Hl). rewrite omap_total.
  - destruct (decide (entryLog.firstIndex l + Z.of_nat k <= entryLog.lastIndex l)) as [Hd|Hd].
    + rewrite lookup_seqZ_lt by lia. done.
    + rewrite lookup_seqZ_ge by lia. simpl. unfold entryAt. by rewrite decide_False by lia.
  - intros i Hi. apply elem_of_seqZ in Hi. destruct (entryAt_some l Hl i) as (e & -> & _); [lia|done].
Qed.

(** On a well-formed log [term] never fails: it returns the term of every
    index from the one before the first entry to the last, and 0 elsewhere,
    wherever the entry is kept. *)
Theorem log_term_total l i :
  lwf l -> entryLog.term i l =
    OK (if decide (i = entryLog.firstIndex l - 1) then baseTerm l
        else match contents l !! Z.to_nat (i - entryLog.firstIndex l) with
             | Some e => if decide (entryLog.firstIndex l <= i) then pb.e_Term e else 0
             | None => 0
             end).
Proof.
  intros Hl. rewrite (term_spec l Hl), contents_lookup by done. unfold termAt. do 2 f_equal.
  destruct (Z.eqb_spec i (entryLog.firstIndex l - 1)); case_decide; try done; try lia.
  destruct (decide (entryLog.firstIndex l <= i)).
  - replace (entryLog.firstIndex l + _) with i by lia. done.
  - unfold entryAt at 1. rewrite decide_False by lia. by destruct (entryAt _ _).
Qed.

(** On a well-formed log [getEntries] returns, for any non-empty range within
    the log and any size limit, a non-empty prefix of the entries asked for; it
    never fails or panics, even when the range straddles disk and memory. *)
Theorem log_getEntries l low high maxSize :
  lwf l -> entryLog.firstIndex l <= low < high -> high <= entryLog.lastIndex l + 1 ->
  0 <= maxSize ->
  exists es, entryLog.getEntries low high maxSize l = OK es /\ es <> [] /\
    es `prefix_of` take (Z.to_nat (high - low))
                     (drop (Z.to_nat (low - entryLog.firstIndex l)) (contents l)).
Proof.
  intros Hl Hlow Hhigh Hmx.
  destruct (getEntries_spec l Hl low high maxSize) as (es & He & Hlen & Hrun); [done..|].
  exists es. split; [done|]. split; [intros ->; unfold len in Hlen; simpl in Hlen; lia|].
  apply prefix_by_lookup. intros k e Hk. apply lookup_lt_Some in Hk as Hlt. unfold len in Hlen.
  rewrite lookup_take_lt, lookup_drop, contents_lookup by (done || lia).
  rewrite <- (Hrun k e Hk). f_equal. lia.
Qed.

(** [append] on a well-formed log refines the list operation that cuts the
    log before the first new entry and adds the new ones; the result is again
    well formed, and indexes and commit index are as before. *)
Theorem log_append_refines l i es :
  lwf l -> es <> [] -> contig i es -> goodTerms (termAt l (i - 1)) es ->
  entryLog.committed l < i <= entryLog.lastIndex l + 1 -> i + len es < W64 ->
  exists l', entryLog.append es l = Ret tt l' /\ lwf l' /\
    contents l' = take (Z.to_nat (i - entryLog.firstIndex l)) (contents l) ++ es /\
    entryLog.firstIndex l' = entryLog.firstIndex l /\
    entryLog.committed l' = entryLog.committed l.
Proof.
  intros Hl Hne Hc Hg Hi Hw. pose proof (lw_commit l Hl).
  destruct (append_spec l Hl i es Hne Hc Hg Hi Hw) as (l' & Ha & Hl' & Hap).
  exists l'. split_and!; [done|done| |apply Hap|apply Hap]. apply list_eq. intros k.
  assert (length (contents l) = Z.to_nat (entryLog.lastIndex l + 1 - entryLog.firstIndex l)) as Hlen.
  { apply Nat.le_antisymm; apply Nat.nlt_ge; intros Hlt.
    - apply lookup_lt_is_Some_2 in Hlt as [e He]. rewrite contents_lookup in He by done.
      unfold entryAt in He. case_decide; [lia|done].
    - destruct (entryAt_some l Hl (entryLog.firstIndex l + Z.of_nat (length (contents l))))
        as (e & He & _); [lia|].
      rewrite <- contents_lookup in He by done. apply lookup_lt_Some in He. lia. }
  rewrite contents_lookup, (ap_first _ _ _ _ Hap) by done.
  destruct (decide (entryLog.firstIndex l + Z.of_nat k < i)).
  - rewrite (ap_old _ _ _ _ Hap) by done.
    rewrite lookup_app_l, lookup_take_lt, contents_lookup by (done || rewrite ?length_take; lia).
    done.
  - rewrite (ap_new _ _ _ _ Hap) by lia. rewrite lookup_app_r by (rewrite length_take; lia).
    f_equal. rewrite length_take. lia.
Qed.

(** Accepting a leader's entries after a matching entry never fails: the log
    keeps everything up to that entry and its commit index, ends up with an entry
    of the right term for each entry sent, and is unchanged when it had them all
    already. *)
Theorem log_tryAppend l idx t es :
  lwf l -> entryLog.matchTerm idx t l = OK true ->
  contig (idx + 1) es -> goodTerms t es ->
  entryLog.committed l <= idx <= entryLog.lastIndex l -> idx + 1 + len es < W64 ->
  exists b l', entryLog.tryAppend idx es l = Ret b l' /\ lwf l' /\
    entryLog.committed l' = entryLog.committed l /\
    (forall j, j <= idx -> entryAt l' j = entryAt l j) /\
    (forall e, e ∈ es -> entryLog.term (pb.e_Index e) l' = OK (pb.e_Term e)) /\
    (b = false -> l' = l) /\
    (b = true -> entryLog.lastIndex l' = idx + len es).
Proof.
  intros Hl Hmt Hc Hg Hidx Hw. unfold entryLog.matchTerm in Hmt.
  rewrite (term_spec l Hl) in Hmt. injection Hmt as <-%Z.eqb_eq.
  destruct (tryAppend_spec l Hl idx es Hc Hg Hidx Hw) as (b & l' & Ht & Hl' & Hterms & Hb).
  assert (forall e, e ∈ es -> entryLog.term (pb.e_Index e) l' = OK (pb.e_Term e)) as Hterm.
  { intros e [k Hk]%list_elem_of_lookup. rewrite (term_spec l' Hl'). f_equal. by eapply Hterms. }
  exists b, l'. destruct b.
  - destruct Hb as (n & Hn & Ha). split_and!; try done; [apply Ha|..].
    + intros j Hj. apply (ap_old _ _ _ _ Ha). lia.
    + intros _. rewrite (ap_last _ _ _ _ Ha). unfold len. rewrite length_drop. lia.
  - subst l'. by split_and!.
Qed.

(** Restoring a snapshot ahead of the commit index restarts the log after it:
    the log is empty, its base index and term are the snapshot's, and everything
    up to it is committed. *)
Theorem log_restore l ss :
  lwf l -> entryLog.committed l < pb.ss_Index ss -> pb.ss_Index ss + 1 < W64 ->
  0 < pb.ss_Term ss ->
  exists l', entryLog.restore ss l = Ret tt l' /\ lwf l' /\ contents l' = [] /\
    entryLog.firstIndex l' = pb.ss_Index ss + 1 /\
    entryLog.lastTerm l' = OK (pb.ss_Term ss) /\
    entryLog.committed l' = pb.ss_Index ss.
Proof.
  intros Hl Hi Hw Ht. pose proof (lw_commit l Hl). pose proof (lwf_bounds l Hl).
  set (l' := entryLog.set_processed (pb.ss_Index ss) (entryLog.set_committed (pb.ss_Index ss)
         (entryLog.set_inmem (inMemory.restore ss (entryLog.inmem l)) l))).
  destruct (restore_lwf l l' ss Hl Ht ltac:(lia) Hw eq_refl) as (Hl' & Hf & Hla & Hta).
  exists l'. split_and!; [|done| |done| |done].
  - unfold entryLog.restore, mbind, M_bind, get, entryLog.on_inmem, zoom, modify.
    cbn -[inMemory.restore]. by rewrite (proj2 (Z.ltb_ge _ _)) by lia.
  - unfold contents. rewrite Hf, Hla. by replace (_ - _) with 0 by lia.
  - unfold entryLog.lastTerm. by rewrite (term_spec l' Hl'), Hla, Hta.
Qed.

(** The election restriction: [upToDate] accepts a candidate exactly when its
    last entry is at least as recent, by term and then by index. *)
Theorem log_upToDate l idx t :
  lwf l -> exists b, entryLog.upToDate idx t l = OK b /\
    (b = true <-> termAt l (entryLog.lastIndex l) < t \/
                 termAt l (entryLog.lastIndex l) = t /\ entryLog.lastIndex l <= idx).
Proof.
  intros Hl. rewrite (upToDate_spec l idx t Hl). eexists. split; [done|].
  rewrite orb_true_iff, andb_true_iff, Z.ltb_lt, Z.eqb_eq, Z.leb_le. done.
Qed.

End spec.

(** ** Witnesses *)

Abbreviation log1 := (log leader1_log).

Lemma log1_lwf : lwf log1.
Proof. apply leader1_log_rwf. Qed.

Lemma log_term_total_witness : entryLog.term 2 log1 = OK 1.
Proof. rewrite (log_term_total log1 2 log1_lwf). vm_compute. reflexivity. Defined.

(** Entries 1 and 2 are on disk, 3 to 5 in memory. *)
Lemma log_getEntries_witness :
  exists es, entryLog.getEntries 2 5 1000 log1 = OK es /\ es <> [] /\
    es `prefix_of` take 3 (drop 1 (contents log1)).
Proof. apply (log_getEntries log1 2 5 1000 log1_lwf); by vm_compute. Defined.

Definition newEntry5 : pb.Entry := pb.entry pb.ApplicationEntry 4 5.

Lemma newEntry5_contig : contig 5 [newEntry5].
Proof. intros [|k] e He; by simplify_eq/=. Qed.
Lemma newEntry5_good : goodTerms 2 [newEntry5].
Proof.
  split.
  - intros [|k] e He; by simplify_eq/=.
  - intros [|j] [|k] e e' _ Hj Hk; by simplify_eq/=.
Qed.

Lemma log_append_refines_witness :
  exists l', entryLog.append [newEntry5] log1 = Ret tt l' /\ lwf l' /\
    contents l' = take 4 (contents log1) ++ [newEntry5] /\
    entryLog.firstIndex l' = entryLog.firstIndex log1 /\
    entryLog.committed l' = entryLog.committed log1.
Proof.
  apply (log_append_refines log1 5 [newEntry5] log1_lwf);
    [done|apply newEntry5_contig| |by vm_compute..].
  assert (termAt log1 (5 - 1) = 2) as -> by (by vm_compute). apply newEntry5_good.
Defined.

Lemma log_tryAppend_witness :
  exists b l', entryLog.tryAppend 4 [newEntry5] log1 = Ret b l' /\ lwf l'.
Proof.
  destruct (log_tryAppend log1 4 2 [newEntry5] log1_lwf) as (b & l' & Ht & Hl' & _);
    [by vm_compute|apply newEntry5_contig|apply newEntry5_good|by vm_compute..|].
  exists b, l'. split; [exact Ht|exact Hl'].
Defined.

Definition snapshot9 : pb.Snapshot :=
  pb.mkSnapshot "" 0 9 3 (pb.mkMembership 0 members3 ∅ ∅ ∅) [] [] false 0
    pb.UnknownStateMachine false 0 false.

Lemma log_restore_witness :
  exists l', entryLog.restore snapshot9 log1 = Ret tt l' /\ lwf l'.
Proof.
  destruct (log_restore log1 snapshot9 log1_lwf) as (l' & Hr & Hl' & _); [by vm_compute..|].
  exists l'. split; [exact Hr|exact Hl'].
Defined.

Lemma log_upToDate_witness : exists b, entryLog.upToDate 5 2 log1 = OK b /\ b = true.
Proof.
  destruct (log_upToDate log1 5 2 log1_lwf) as (b & Hu & Hb). exists b. split; [exact Hu|].
  apply Hb. right. split; [by vm_compute|]. by vm_compute.
Defined.
