(* ===== verification/Quorum.v ===== *)
(** * Quorums

    Commitment and elections by majority: the leader commits exactly up to the
    largest index of its own term that a quorum of the voting members hold, and
    a candidate becomes leader only on a quorum of granted votes. *)
From S2P Require Import Prelude Raftpb RateLimiter Remote ReadIndex LogDB InMemory EntryLog.
From S2P Require Import LogReader RaftState Raft Samples RaftFrame RaftSteps RaftSafety.
From S2P Require Import LogInv LogWrite RaftLog.
Import inMemory(inMemory) entryLog(entryLog) remote(remote).

(** ** Sorting the match values *)

Ltac split_tests := repeat match goal with
  | |- context [?x <? ?y] => destruct (Z.ltb_spec x y)
  end.

Lemma sortMatchValues_perm xs : sortMatchValues xs ≡ₚ xs.
Proof.
  destruct xs as [|a [|b [|c [|d xs]]]]; try done; unfold sortMatchValues;
    try apply merge_sort_Permutation.
  split_tests; solve_Permutation.
Qed.

Lemma sortMatchValues_sorted xs : Sorted Z.le (sortMatchValues xs).
Proof.
  destruct xs as [|a [|b [|c [|d xs]]]]; unfold sortMatchValues;
    try (apply (Sorted_merge_sort Z.le)); [by repeat constructor|].
  split_tests; repeat constructor; lia.
Qed.

(** How many values are at least [i]. *)
Definition atLeast (i : Z) (xs : list Z) : nat := length (filter (fun v => i <= v) xs).

Lemma atLeast_perm i xs ys : xs ≡ₚ ys -> atLeast i xs = atLeast i ys.
Proof. intros Hp. unfold atLeast. by rewrite Hp. Qed.
Lemma atLeast_app i xs ys : atLeast i (xs ++ ys) = (atLeast i xs + atLeast i ys)%nat.
Proof. unfold atLeast. by rewrite filter_app, length_app. Qed.
Lemma atLeast_all i xs : (forall x, x ∈ xs -> i <= x) -> atLeast i xs = length xs.
Proof.
  unfold atLeast. induction xs as [|x xs IH]; intros Hx; [done|].
  rewrite filter_cons_True by (apply Hx; set_solver). simpl. f_equal. apply IH. set_solver.
Qed.
Lemma atLeast_none i xs : (forall x, x ∈ xs -> x < i) -> atLeast i xs = 0%nat.
Proof.
  unfold atLeast. induction xs as [|x xs IH]; intros Hx; [done|].
  rewrite filter_cons_False by (specialize (Hx x); set_unfold; lia). apply IH. set_solver.
Qed.
Lemma atLeast_le i xs : (atLeast i xs <= length xs)%nat.
Proof. apply length_filter. Qed.

(** In a sorted list, the value at position [k] splits the counts. *)
Lemma sorted_atLeast xs k q i :
  Sorted Z.le xs -> xs !! k = Some q ->
  (i <= q -> (length xs - k <= atLeast i xs)%nat) /\
  (q < i -> (atLeast i xs < length xs - k)%nat).
Proof.
  intros Hs%Sorted_StronglySorted Hk; [|intros ???; lia]. apply lookup_lt_Some in Hk as Hlt.
  rewrite <- (take_drop_middle xs k q Hk) in Hs |- *.
  rewrite !atLeast_app, length_app. simpl. rewrite length_take, length_drop.
  apply StronglySorted_app in Hs as (Hle & Hs1 & Hs2). inversion Hs2 as [|?? _ Hq]; subst.
  rewrite Forall_forall in Hq. split; intros Hi.
  - pose proof (atLeast_all i (q :: drop (S k) xs)) as Ha. simpl in Ha.
    rewrite length_drop in Ha. rewrite Ha; [lia|].
    intros x [->|Hx]%elem_of_cons; [lia|]. specialize (Hq x Hx). lia.
  - rewrite (atLeast_none i (take k xs)).
    + pose proof (atLeast_le i (drop (S k) xs)) as Hd. rewrite length_drop in Hd.
      unfold atLeast in *. rewrite filter_cons_False by lia. lia.
    + intros x Hx. specialize (Hle x q Hx ltac:(set_solver)). lia.
Qed.

Section quorum.
Context {DB : Type} `{ILogDB DB} `{!ILogDBSpec DB} `{GoRuntime}.
Abbreviation raft := (raft DB).

(** The match values of the voting members. *)
Definition matchValues (r : raft) : list Z :=
  remote.match_ <$> ((map_to_list (remotes r)).*2 ++ (map_to_list (witnesses r)).*2).

(** The number of voting members known to hold the log up to [i]. *)
Definition acks (i : Z) (r : raft) : Z := Z.of_nat (atLeast i (matchValues r)).

Lemma matches_keys (m : gmap Z remote) ids :
  ids ≡ₚ (map_to_list m).*1 -> matches m ids ≡ₚ remote.match_ <$> (map_to_list m).*2.
Proof.
  intros Hp. unfold matches. rewrite Hp.
  assert (forall l, (forall kv, kv ∈ l -> m !! kv.1 = Some kv.2) ->
    omap (fun id => remote.match_ <$> m !! id) l.*1 = remote.match_ <$> l.*2) as Hl.
  { induction l as [|[k v] l IH]; intros Hkv; [done|]. simpl.
    pose proof (Hkv (k, v)) as Hk. simpl in Hk. rewrite Hk by set_solver. simpl.
    f_equal. apply IH. set_solver. }
  rewrite Hl; [done|]. intros [k v] Hkv. by apply elem_of_map_to_list.
Qed.

Lemma matchValues_length (r : raft) : Z.of_nat (length (matchValues r)) = numVotingMembers r.
Proof.
  unfold matchValues, numVotingMembers. rewrite length_fmap, length_app, !length_fmap.
  rewrite !length_map_to_list. lia.
Qed.

Lemma quorum_bounds (r : raft) :
  0 < numVotingMembers r -> 1 <= quorum r <= numVotingMembers r.
Proof. unfold quorum. intros. Z.div_mod_to_equations. lia. Qed.

(** The state [tryCommit] reads the quorum value from. *)
Lemma tryCommit_reads (r : raft) :
  state r = leader -> 0 < numVotingMembers r ->
  exists vs q r1, vs ≡ₚ matchValues r /\
    sortMatchValues vs !! Z.to_nat (numVotingMembers r - quorum r) = Some q /\
    log r1 = log r /\ term r1 = term r /\
    tryCommit r = on_log (entryLog.tryCommit q (term r)) r1.
Proof.
  intros Hs Hn. unfold tryCommit, mustBeLeader, mbind, M_bind, get, when, isLeader, isState.
  rewrite bool_decide_eq_true_2 by done. unfold skip, ret.
  set (r0 := if negb (numVotingMembers r =? len (matched r))
             then set_matched (replicate (Z.to_nat (numVotingMembers r)) 0) r else r).
  assert ((if negb (numVotingMembers r =? len (matched r)) then resetMatchValueArray
           else fun s : raft => Ret () s) r = Ret tt r0) as ->.
  { unfold r0, resetMatchValueArray, modify. by destruct (negb _). }
  cbn beta iota. unfold range_. cbn beta iota.
  set (r1 := set_choices _ _). set (a := go_range _ _).
  set (r2 := set_choices _ _). set (b := go_range _ _).
  set (vs := matches (remotes r) a ++ matches (witnesses r) b).
  assert (vs ≡ₚ matchValues r) as Hvs.
  { unfold vs, matchValues. rewrite fmap_app.
    apply Permutation_app; apply matches_keys; apply go_range_perm. }
  destruct (lookup_lt_is_Some_2 (sortMatchValues vs) (Z.to_nat (numVotingMembers r - quorum r)))
    as [q Hq].
  { rewrite sortMatchValues_perm, Hvs. pose proof (matchValues_length r).
    pose proof (quorum_bounds r Hn). lia. }
  assert (remotes r0 = remotes r /\ witnesses r0 = witnesses r /\ log r0 = log r /\ term r0 = term r)
    as (E1 & E2 & E3 & E4) by (unfold r0; by destruct (negb _)).
  exists vs, q, (set_matched (sortMatchValues vs) r2). split_and!; [done..|].
  unfold modify, readr. cbn beta iota.
  assert (numVotingMembers (set_matched (sortMatchValues vs) r2) = numVotingMembers r) as Hnv
    by (unfold numVotingMembers; simpl; by rewrite E1, E2).
  unfold quorum. rewrite Hnv. unfold index, nthZ. simpl. fold (quorum r).
  rewrite decide_True, Hq; [done|]. pose proof (quorum_bounds r Hn). lia.
Qed.

(** C3: the leader commits by counting replicas, and only entries of its own
    term: [tryCommit] does not fail, and when it moves the commit index the new
    one is held by a quorum of the voting members, is in the current term, and is
    the largest such index; when it does not, there is none to commit. *)
Theorem tryCommit_quorum (r : raft) :
  rwf r -> state r = leader -> 0 < numVotingMembers r ->
  (forall v, v ∈ matchValues r -> v <= lastIndex r) ->
  exists b r', tryCommit r = Ret b r' /\
    (b = true -> committed r < committed r' /\ quorum r <= acks (committed r') r /\
                 termAt (log r) (committed r') = term r) /\
    (b = false -> committed r' = committed r) /\
    (forall i, committed r < i -> termAt (log r) i = term r -> quorum r <= acks i r ->
       b = true /\ i <= committed r').
Proof.
  intros (Hl & Ht0 & Hpos & Hlast) Hs Hn Hmax.
  destruct (tryCommit_reads r Hs Hn) as (vs & q & r1 & Hvs & Hq & Hl1 & Ht1 & ->).
  specialize (Hpos (or_intror Hs)).
  assert (forall i, i <= q <-> quorum r <= acks i r) as Hsplit.
  { intros i. destruct (sorted_atLeast _ _ _ i (sortMatchValues_sorted vs) Hq) as [Hle Hlt].
    rewrite (atLeast_perm i _ (matchValues r)) in Hle, Hlt by (by rewrite sortMatchValues_perm).
    rewrite sortMatchValues_perm, Hvs in Hle, Hlt. unfold acks.
    pose proof (matchValues_length r) as Hlen. pose proof (quorum_bounds r Hn).
    split; intros Hi.
    - specialize (Hle Hi). lia.
    - destruct (decide (i <= q)); [done|]. specialize (Hlt ltac:(lia)). lia. }
  assert (q <= lastIndex r) as Hql.
  { apply Hmax. rewrite <- Hvs, <- (sortMatchValues_perm vs). by apply list_elem_of_lookup_2 in Hq. }
  unfold on_log, zoom. rewrite Hl1, (logTryCommit_spec (log r) q (term r) Hl) by lia.
  fold (committed r). destruct (Z.ltb_spec (committed r) q) as [Hcq|Hcq];
    [destruct (Z.eqb_spec (termAt (log r) q) (term r)) as [He|He]|]; cbn [andb].
  - exists true, (set_log (entryLog.set_committed q (log r)) r1). split; [done|].
    change (committed (set_log _ _)) with q.
    split_and!; [intros _; split_and!; [done|by apply Hsplit|done]|done|].
    intros i Hi _ Ha. split; [done|]. by apply Hsplit.
  - exists false, (set_log (log r) r1). split; [done|]. split_and!; [done|done|].
    intros i Hi Hti Ha. exfalso. apply He. apply Hsplit in Ha.
    assert (termAt (log r) i <= termAt (log r) q) as H1.
    { apply Hl; [|done]. pose proof (lw_commit _ Hl). unfold committed in *. lia. }
    assert (termAt (log r) q <= termAt (log r) (lastIndex r)) as H2.
    { apply Hl; [|unfold lastIndex; lia]. pose proof (lw_commit _ Hl). unfold committed in *.
      unfold lastIndex in *. lia. }
    unfold lastIndex in *. lia.
  - exists false, (set_log (log r) r1). split; [done|]. split_and!; [done|done|].
    intros i Hi Hti Ha. apply Hsplit in Ha. lia.
Qed.

(** ** Elections *)

(** The votes after a response from [from]: the first response counts. *)
Definition recordVote (from : Z) (rejected : bool) (r : raft) : gmap Z bool :=
  if bool_decide (votes r !! from = None) then <[from := negb rejected]> (votes r) else votes r.

Lemma handleVoteResp_wp from rejected (r : raft) (Q : Z -> raft -> Prop) E :
  (let r' := set_votes (recordVote from rejected r) r in Q (votedFor r') r') ->
  wp any_panic (handleVoteResp from rejected) Q E r.
Proof.
  intros HQ. unfold handleVoteResp. apply wp_bind, describe_pure, wp_bind.
  unfold wp at 1, get. apply wp_bind. unfold recordVote in HQ.
  destruct (bool_decide _); [apply wp_modify, wp_gets, HQ|].
  apply wp_ret, wp_gets. assert (set_votes (votes r) r = r) as <- by (by destruct r). exact HQ.
Qed.

(** C5: a candidate becomes leader on a vote response only when exactly a quorum
    of the members whose responses it recorded granted their vote, each member
    being counted once. *)
Theorem election_needs_quorum m (r r' : raft) :
  state r = candidate -> handleCandidateRequestVoteResp m r = Ret tt r' -> state r' = leader ->
  votedFor (set_votes (recordVote (pb.m_From m) (pb.m_Reject m) r) r) = quorum r.
Proof.
  intros Hs Hh Hl.
  set (r1 := set_votes (recordVote (pb.m_From m) (pb.m_Reject m) r) r).
  assert (wp any_panic (handleCandidateRequestVoteResp m)
    (fun _ r' => state r' = leader -> votedFor r1 = quorum r) (fun _ _ => True) r) as Hw.
  { unfold handleCandidateRequestVoteResp. apply wp_bind. unfold wp at 1, get.
    destruct (decide _); [apply wp_ret; congruence|].
    apply wp_bind, handleVoteResp_wp. cbv zeta. fold r1.
    apply wp_bind, describe_pure, wp_bind. unfold wp at 1, get.
    change (quorum r1) with (quorum r).
    destruct (Z.eqb_spec (votedFor r1) (quorum r)) as [Heq|Hne].
    { unfold wp. by destruct ((becomeLeader ;; broadcastReplicateMessage) r1). }
    destruct (_ - _ =? _); [|apply wp_ret; simpl; congruence].
    eapply wp_mono; [apply (toFollower_moved (fun _ => True) (fun _ => True) r1)|..];
      [reflexivity|reflexivity| |done].
    intros ? r2 (_ & _ & _ & Hs2). simpl. congruence. }
  unfold wp in Hw. rewrite Hh in Hw. by apply Hw.
Qed.

End quorum.

(** ** Witnesses *)

(** The leader after replica 2 acknowledged the whole log. *)
Definition leader1_acked : raft reader :=
  set_remotes (<[2 := remote.newRemote 5 6]> (remotes leader1_log)) leader1_log.

Lemma rwf_set_remotes ms (r : raft reader) : rwf r -> rwf (set_remotes ms r).
Proof. intros H. exact H. Qed.

Lemma tryCommit_quorum_witness : exists r', tryCommit leader1_acked = Ret true r' /\ 5 <= committed r'.
Proof.
  destruct (tryCommit_quorum leader1_acked) as (b & r' & Ht & _ & _ & Hmax).
  - apply rwf_set_remotes, leader1_log_rwf.
  - by vm_compute.
  - by vm_compute.
  - assert (matchValues leader1_acked = [5; 0; 5] \/ matchValues leader1_acked = [5; 5; 0]
      \/ matchValues leader1_acked = [0; 5; 5]) as Hv by (vm_compute; auto).
    assert (lastIndex leader1_acked = 5) as -> by (by vm_compute).
    intros v Hin. destruct Hv as [Hv|[Hv|Hv]]; rewrite Hv in Hin; set_unfold in Hin; lia.
  - destruct (Hmax 5) as [-> Hle]; [by vm_compute..|]. exists r'. split; [exact Ht|exact Hle].
Defined.

Lemma election_needs_quorum_witness :
  votedFor (set_votes (recordVote 2 false candidate1) candidate1) = quorum candidate1.
Proof.
  apply (election_needs_quorum (grant 2 2) candidate1 leader1); by vm_compute.
Defined.
