(* ===== verification/ConfigChange.v ===== *)
(** * Configuration changes

    A leader keeps at most one configuration change in flight: it filters the
    entries it is asked to propose, and on taking over it counts the changes in
    the uncommitted part of its log. *)
From S2P Require Import Prelude Raftpb RateLimiter Remote ReadIndex LogDB InMemory EntryLog.
From S2P Require Import LogReader RaftState Raft Samples RaftFrame RaftSteps RaftSafety.
From S2P Require Import LogInv LogWrite RaftLog LogSpec.
Import inMemory(inMemory) entryLog(entryLog) remote(remote).

Section configchange.
Context {DB : Type} `{ILogDB DB} `{!ILogDBSpec DB} `{GoRuntime}.
Abbreviation raft := (raft DB).

(** ** Proposals *)

Definition isCC (e : pb.Entry) : bool := bool_decide (pb.e_Type e = pb.ConfigChangeEntry).
Definition numCC (es : list pb.Entry) : nat := length (filter (fun e => isCC e = true) es).

Lemma numCC_cons e es : numCC (e :: es) = ((if isCC e then 1 else 0) + numCC es)%nat.
Proof. unfold numCC. rewrite filter_cons. by destruct (isCC e). Qed.

(** The entry proposed in place of a configuration change. *)
Definition emptied (e : pb.Entry) : pb.Entry :=
  if isCC e then pb.entry pb.ApplicationEntry 0 0 else e.

(** The replica after the changes of [post] were refused. *)
Definition refused (ents post : list pb.Entry) (r : raft) : raft :=
  set_droppedEntries (droppedEntries r ++ filter (fun e => isCC e = true) post)
    (set_pendingConfigChange (pendingConfigChange r || bool_decide (0 < numCC ents)%nat) r).

(** [es] are the entries [ents] up to a place after which every change is emptied. *)
Definition keepsOne (ents es : list pb.Entry) (r r' : raft) : Prop :=
  exists pre post, ents = pre ++ post /\ es = pre ++ map emptied post /\
    numCC pre = (if pendingConfigChange r then 0 else min 1 (numCC ents))%nat /\
    r' = refused ents post r.

Lemma no_changes es : numCC es = 0%nat -> map emptied es = es /\ filter (fun e => isCC e = true) es = [].
Proof.
  induction es as [|e es IH]; [done|]. rewrite numCC_cons, filter_cons. cbn [map]. unfold emptied at 1.
  destruct (isCC e); [lia|]. intros Hn. destruct (IH Hn) as [-> ->]. done.
Qed.

Lemma keepsOne_plain e ents es (r r' : raft) :
  isCC e = false -> keepsOne ents es r r' -> keepsOne (e :: ents) (e :: es) r r'.
Proof.
  intros He (pre & post & -> & -> & Hn & ->). exists (e :: pre), post. unfold refused.
  rewrite !numCC_cons, He. by split_and!.
Qed.

(** A change while another one is pending. *)
Lemma keepsOne_refused e ents es (r r' : raft) :
  isCC e = true -> pendingConfigChange r = true ->
  keepsOne ents es (set_pendingConfigChange true (set_droppedEntries (droppedEntries r ++ [e]) r)) r' ->
  keepsOne (e :: ents) (emptied e :: es) r r'.
Proof.
  intros He Hp (pre & post & -> & -> & Hn & ->). cbn in Hn. destruct (no_changes pre Hn) as [Em Ef].
  exists [], (e :: pre ++ post). rewrite Hp. split_and!; [done| |done|].
  - cbn. by rewrite map_app, Em.
  - unfold refused. rewrite filter_cons, He, filter_app, Ef, numCC_cons, He, Hp. destruct r; cbn.
    by rewrite <- app_assoc.
Qed.

(** The first change. *)
Lemma keepsOne_first e ents es (r r' : raft) :
  isCC e = true -> pendingConfigChange r = false ->
  keepsOne ents es (set_pendingConfigChange true r) r' -> keepsOne (e :: ents) (e :: es) r r'.
Proof.
  intros He Hp (pre & post & -> & -> & Hn & ->). cbn in Hn.
  exists (e :: pre), post. unfold refused. rewrite !numCC_cons, He, Hp, Hn. split_and!; [done..|].
  rewrite (bool_decide_true (0 < 1 + _)%nat) by lia. by destruct r.
Qed.

Lemma filterConfigChanges_keeps ents (r : raft) :
  wp any_panic (filterConfigChanges ents) (fun es r' => keepsOne ents es r r') (fun _ _ => False) r.
Proof.
  revert r. induction ents as [|e ents IH]; intros r; simpl.
  { apply wp_ret. exists [], []. unfold refused. destruct r as []; cbn.
    rewrite app_nil_r, orb_false_r. by destruct pendingConfigChange. }
  apply wp_bind. destruct (decide (pb.e_Type e = pb.ConfigChangeEntry)) as [Hcc|Hcc].
  - assert (isCC e = true) as He by (by apply bool_decide_eq_true).
    apply wp_bind. unfold wp at 1, get, hasPendingConfigChange.
    destruct (pendingConfigChange r) eqn:Hp.
    + apply wp_bind, wp_bind, describe_pure, wp_bind, wp_modify, wp_ret, wp_bind, wp_modify, wp_ret.
      apply wp_bind. eapply wp_mono; [apply IH|..]; [|done]. simpl. intros es r' Hk. apply wp_ret.
      apply keepsOne_refused in Hk; [|done..]. unfold emptied in Hk. by rewrite He in Hk.
    + apply wp_bind, wp_ret, wp_bind, wp_modify, wp_ret.
      apply wp_bind. eapply wp_mono; [apply IH|..]; [|done]. simpl. intros es r' Hk. apply wp_ret.
      by apply keepsOne_first.
  - apply wp_ret, wp_bind. eapply wp_mono; [apply IH|..]; [|done]. simpl. intros es r' Hk. apply wp_ret.
    apply keepsOne_plain; [by apply bool_decide_eq_false|done].
Qed.

(** C31: a leader lets at most one configuration change through.  If none is pending,
    the proposed entries stay as they are up to and including the first configuration
    change, and every later change is replaced by an empty entry; if one is pending,
    every change is.  The changes replaced, and only they, are reported as dropped, in
    order; a change is pending afterwards if one was before or one was proposed, and
    nothing else of the replica changes. *)
Theorem propose_one_config_change ents (r r' : raft) es :
  filterConfigChanges ents r = Ret es r' ->
  exists pre post, ents = pre ++ post /\ es = pre ++ map emptied post /\
    numCC pre = (if pendingConfigChange r then 0 else min 1 (numCC ents))%nat /\
    r' = refused ents post r.
Proof.
  intros Hf. pose proof (filterConfigChanges_keeps ents r) as Hw. unfold wp in Hw.
  by rewrite Hf in Hw.
Qed.

(** ** Changes in the uncommitted log *)

(** The part of the log from index [i] on. *)
Definition logFrom (l : entryLog DB) (i : Z) : list pb.Entry :=
  drop (Z.to_nat (i - entryLog.firstIndex l)) (contents l).
Definition changes (es : list pb.Entry) : Z :=
  Z.of_nat (length (filter (fun e => pb.IsConfigChange e = true) es)).

Lemma countConfigChange_changes es : countConfigChange es = changes es.
Proof.
  unfold countConfigChange. assert (forall c, fold_left (fun c e =>
    if pb.IsConfigChange e then c + 1 else c) es c = c + changes es) as Hf; [|by rewrite Hf].
  induction es as [|e es IH]; intros c; [unfold changes; simpl; lia|].
  simpl. rewrite IH. unfold changes. rewrite filter_cons.
  destruct (pb.IsConfigChange e); simpl; lia.
Qed.
Lemma changes_app es es' : changes (es ++ es') = changes es + changes es'.
Proof. unfold changes. rewrite filter_app, length_app. lia. Qed.

(** A batch read at [i] is followed by the rest of the log. *)
Lemma logFrom_run (l : entryLog DB) i es :
  lwf l -> entryLog.firstIndex l <= i -> run l i es -> len es <= entryLog.lastIndex l + 1 - i ->
  logFrom l i = es ++ logFrom l (i + len es).
Proof.
  intros Hl Hi Hrun Hlen. apply list_eq. intros k. unfold logFrom.
  rewrite lookup_drop, contents_lookup by done.
  replace (entryLog.firstIndex l + _) with (i + Z.of_nat k) by lia. unfold len in *.
  destruct (decide (k < length es)%nat) as [Hk|Hk].
  - destruct (lookup_lt_is_Some_2 es k Hk) as [e He].
    rewrite lookup_app_l, He by done. by apply Hrun.
  - rewrite lookup_app_r, lookup_drop, contents_lookup by (done || lia). f_equal. lia.
Qed.

Lemma logFrom_end (l : entryLog DB) i :
  lwf l -> entryLog.lastIndex l < i -> logFrom l i = [].
Proof.
  intros Hl Hi. apply list_eq. intros k. unfold logFrom.
  rewrite lookup_drop, contents_lookup by done. pose proof (lwf_bounds l Hl).
  unfold entryAt. by rewrite decide_False by lia.
Qed.

Lemma pendingCountLoop_spec (r : raft) fuel i c :
  lwf (log r) -> entryLog.firstIndex (log r) <= i <= lastIndex r + 1 ->
  (Z.to_nat (lastIndex r + 1 - i) < fuel)%nat ->
  pendingCountLoop fuel i c r = OK (c + changes (logFrom (log r) i)).
Proof.
  intros Hl. revert i c. unfold lastIndex.
  induction fuel as [|fuel IH]; intros i c Hi Hf; [lia|]. simpl. unfold entryLog.entries.
  pose proof (lwf_bounds _ Hl) as [Hb1 Hb2].
  destruct (Z.ltb_spec (entryLog.lastIndex (log r)) i) as [Hlt|Hle].
  { rewrite (logFrom_end (log r) i) by done. simpl. f_equal. unfold changes. simpl. lia. }
  rewrite add64_small by lia.
  destruct (getEntries_spec (log r) Hl i (entryLog.lastIndex (log r) + 1) maxEntriesToApplySize)
    as (es & -> & Hlen & Hrun); [lia|lia|done|].
  destruct (last es) as [e|] eqn:Hlast;
    [|apply last_None in Hlast; subst es; unfold len in Hlen; simpl in Hlen; lia].
  rewrite (contig_last i es e (run_contig (log r) Hl i es Hrun) Hlast).
  replace (i + len es - 1 +ᵤ 1) with (i + len es) by lia64.
  rewrite IH by lia. f_equal. rewrite (logFrom_run (log r) i es) by (done || lia).
  rewrite changes_app, countConfigChange_changes. lia.
Qed.

(** On taking over, a leader counts the configuration changes of its
    uncommitted log exactly, in batches bounded by the size limit, and the count
    always terminates. *)
Theorem pending_changes_counted (r : raft) :
  lwf (log r) ->
  getPendingConfigChangeCount r = OK (changes (logFrom (log r) (committed r + 1))).
Proof.
  intros Hl. pose proof (lw_commit _ Hl) as Hc. pose proof (lwf_bounds _ Hl) as [Hb1 Hb2].
  unfold getPendingConfigChangeCount, pendingCountFuel, committed, lastIndex.
  rewrite add64_small by lia. rewrite pendingCountLoop_spec; [done|done|unfold lastIndex; lia|].
  unfold lastIndex. lia.
Qed.

End configchange.

(** ** Witnesses *)

Definition ccEntry : pb.Entry := pb.entry pb.ConfigChangeEntry 0 0.

(** Of two changes proposed together, the first goes through. *)
Lemma propose_one_config_change_witness :
  exists pre post, [ccEntry; pb.zeroEntry; ccEntry] = pre ++ post /\
    [ccEntry; pb.zeroEntry; pb.entry pb.ApplicationEntry 0 0] = pre ++ map emptied post /\ numCC pre = 1%nat.
Proof.
  destruct (filterConfigChanges [ccEntry; pb.zeroEntry; ccEntry] leader1) as [es r'| |] eqn:Hf;
    [|by vm_compute in Hf..].
  destruct (propose_one_config_change _ _ _ _ Hf) as (pre & post & He & Hes & Hn & _).
  exists pre, post. split_and!; [done| |by rewrite Hn; vm_compute].
  rewrite <- Hes. vm_compute in Hf. by injection Hf as <- _.
Defined.

Lemma pending_changes_counted_witness :
  getPendingConfigChangeCount leader1_log
    = OK (changes (logFrom (log leader1_log) (committed leader1_log + 1))).
Proof. apply (pending_changes_counted leader1_log). apply leader1_log_rwf. Defined.
