(* ===== verification/Peer.v ===== *)
(** * The peer

    [raft/internal/raft/peer.go]: the interface the engine has to the raft core.
    Requests become messages to the core; [GetUpdate] collects what the core wants
    done, and [Commit] records that it was done.  A raft listener is there or not
    ([events_on]); the [Launch] arguments are those of the source. *)
From S2P Require Import Prelude Raftpb RateLimiter Remote ReadIndex LogDB Wire Codec Update.
From S2P Require Import InMemory EntryLog RaftState Raft.
Import Update.

Record PeerAddress : Type := mkPeerAddress { pa_Address : string; pa_ReplicaID : Z }.

(** [sort.Slice] by replica: Go leaves the order of two addresses with the same
    replica open; here they keep theirs. *)
Fixpoint insertAddress (a : PeerAddress) (l : list PeerAddress) : list PeerAddress :=
  match l with
  | [] => [a]
  | b :: l' => if pa_ReplicaID b <? pa_ReplicaID a then b :: insertAddress a l' else a :: l
  end.
Definition sortAddresses (l : list PeerAddress) : list PeerAddress := foldr insertAddress [] l.

Definition MustMarshal (r : result bytes) : result bytes :=
  match r with ERR _ => PANIC (PanicMsg "marshal failed") | _ => r end.

(** ** Updates *)

Definition set_FastApply (b : bool) (u : Update) : Update :=
  mkUpdate (u_ShardID u) (u_ReplicaID u) (u_State u) b (u_EntriesToSave u)
    (u_CommittedEntries u) (u_MoreCommittedEntries u) (u_Snapshot u) (u_ReadyToReads u)
    (u_Messages u) (u_LastApplied u) (u_UpdateCommit u) (u_DroppedEntries u)
    (u_DroppedReadIndexes u) (u_LogQueryResult u) (u_LeaderUpdate u).
Definition set_UpdateCommit (uc : pb.UpdateCommit) (u : Update) : Update :=
  mkUpdate (u_ShardID u) (u_ReplicaID u) (u_State u) (u_FastApply u) (u_EntriesToSave u)
    (u_CommittedEntries u) (u_MoreCommittedEntries u) (u_Snapshot u) (u_ReadyToReads u)
    (u_Messages u) (u_LastApplied u) uc (u_DroppedEntries u)
    (u_DroppedReadIndexes u) (u_LogQueryResult u) (u_LeaderUpdate u).

Definition setFastApply (ud : Update) : Update :=
  let fast := pb.IsEmptySnapshot (u_Snapshot ud) in
  let fast :=
    match last (u_CommittedEntries ud), last (u_EntriesToSave ud), u_EntriesToSave ud with
    | Some lastApply, Some lastSave, firstSave :: _ =>
        if fast && (pb.e_Index firstSave <=? pb.e_Index lastApply)
           && (pb.e_Index lastApply <=? pb.e_Index lastSave)
        then false else fast
    | _, _, _ => fast
    end in
  set_FastApply fast ud.

Definition validateUpdate (ud : Update) : result unit :=
  (match last (u_CommittedEntries ud) with
   | Some e => if (0 <? pb.st_Commit (u_State ud)) && (pb.st_Commit (u_State ud) <? pb.e_Index e)
               then PANIC (PanicMsg "trying to apply not committed entry") else OK tt
   | None => OK tt
   end) ;;
  match last (u_CommittedEntries ud), last (u_EntriesToSave ud) with
  | Some lastApply, Some lastSave =>
      if pb.e_Index lastSave <? pb.e_Index lastApply
      then PANIC (PanicMsg "trying to apply not saved entry") else OK tt
  | _, _ => OK tt
  end.

Definition getUpdateCommit (ud : Update) : pb.UpdateCommit :=
  let processed := match last (u_CommittedEntries ud) with
                   | Some e => pb.e_Index e | None => 0 end in
  let '(stableTo, stableTerm) := match last (u_EntriesToSave ud) with
                                 | Some e => (pb.e_Index e, pb.e_Term e) | None => (0, 0) end in
  let '(snapshotTo, processed) :=
    if negb (pb.IsEmptySnapshot (u_Snapshot ud))
    then (pb.ss_Index (u_Snapshot ud), Z.max processed (pb.ss_Index (u_Snapshot ud)))
    else (0, processed) in
  pb.mkUpdateCommit processed (u_LastApplied ud) stableTo stableTerm snapshotTo
    (len (u_ReadyToReads ud)).

Section peer.
Context {DB : Type} `{ILogDB DB} `{GoRuntime}.
Abbreviation raft := (raft DB).

Record Peer : Type := mkPeer { p_raft : raft; p_prevState : pb.State }.

Definition set_raft (r : raft) (p : Peer) : Peer := mkPeer r (p_prevState p).
Definition set_prevState (st : pb.State) (p : Peer) : Peer := mkPeer (p_raft p) st.
Definition on_raft {A} (c : M raft A) : M Peer A := zoom p_raft set_raft c.

(** ** Launch *)

Definition checkLaunchRequest (c : Config) (addresses : list PeerAddress)
    (initial newNode : bool) : result unit :=
  if c_ReplicaID c =? 0 then PANIC (PanicMsg "config.ReplicaID must not be zero")
  else if initial && newNode && (len addresses =? 0)
  then PANIC (PanicMsg "addresses must be specified")
  else if negb (Z.of_nat (size (list_to_set (map pa_Address addresses) : gset string))
                =? len addresses)
  then PANIC (PanicMsg "duplicated address found")
  else if initial && c_IsWitness c
  then PANIC (PanicMsg "witness can not be used as initial member")
  else if initial && c_IsNonVoting c
  then PANIC (PanicMsg "non-voting can not be used as initial member")
  else OK tt.

Definition addNodeChange (a : PeerAddress) : ConfigChange.ConfigChange :=
  ConfigChange.mkConfigChange 0 pb.AddNode (pa_ReplicaID a) (pa_Address a) true.

(** The entries of [bootstrap]: the configuration changes that add the members. *)
Fixpoint bootstrapEntries (i : Z) (addresses : list PeerAddress) : result (list pb.Entry) :=
  match addresses with
  | [] => OK []
  | a :: addresses =>
      cmd ← MustMarshal (ConfigChange.Marshal (addNodeChange a));
      es ← bootstrapEntries (i + 1) addresses;
      OK (pb.mkEntry 1 i pb.ConfigChangeEntry 0 0 0 0 cmd :: es)
  end.

Definition bootstrap (addresses : list PeerAddress) : M raft unit :=
  let addresses := sortAddresses addresses in
  ents ← readr (fun _ => bootstrapEntries 1 addresses);
  on_log (entryLog.append ents) ;;
  on_log (modify (entryLog.set_committed (len ents))) ;;
  forM_ addresses (fun a => addNode (pa_ReplicaID a)).

Definition Launch (c : Config) (db : DB) (events : bool) (addresses : list PeerAddress)
    (initial newNode : bool) : result Peer :=
  checkLaunchRequest c addresses initial newNode ;;
  r ← newRaft c db;
  let r := set_events_on events r in
  let prev := raftState r in
  if initial && newNode then
    match (becomeFollower 1 NoLeader ;; bootstrap addresses) r with
    | Ret _ r => OK (mkPeer r prev)
    | Err e _ => ERR e
    | Panic p => PANIC p
    end
  else OK (mkPeer r prev).

(** ** Requests *)

Definition Tick : M Peer unit := on_raft (Handle (pb.msg pb.LocalTick)).
Definition QuiescedTick : M Peer unit :=
  on_raft (Handle (pb.set_Reject true (pb.msg pb.LocalTick))).
Definition QueryRaftLog (firstIndex lastIndex maxSize : Z) : M Peer unit :=
  on_raft (Handle (pb.set_From firstIndex (pb.set_To lastIndex
    (pb.set_Hint maxSize (pb.msg pb.LogQuery))))).
Definition RequestLeaderTransfer (target : Z) : M Peer unit :=
  p ← get;
  on_raft (Handle (pb.set_To (replicaID (p_raft p))
    (pb.set_Hint target (pb.msg pb.LeaderTransfer)))).
Definition ProposeEntries (ents : list pb.Entry) : M Peer unit :=
  p ← get;
  on_raft (Handle (pb.set_From (replicaID (p_raft p))
    (pb.set_Entries ents (pb.msg pb.Propose)))).
Definition ProposeConfigChange (cc : ConfigChange.ConfigChange) (key : Z) : M Peer unit :=
  data ← readr (fun _ => MustMarshal (ConfigChange.Marshal cc));
  on_raft (Handle (pb.set_Entries [pb.mkEntry 0 0 pb.ConfigChangeEntry key 0 0 0 data]
    (pb.msg pb.Propose))).
Definition ApplyConfigChange (cc : ConfigChange.ConfigChange) : M Peer unit :=
  if ConfigChange.cc_ReplicaID cc =? NoLeader then on_raft clearPendingConfigChange
  else on_raft (Handle (pb.set_Hint (ConfigChange.cc_ReplicaID cc)
    (pb.set_HintHigh (u64 (ConfigChange.cc_Type cc)) (pb.msg pb.ConfigChangeEvent)))).
Definition RejectConfigChange : M Peer unit :=
  on_raft (Handle (pb.set_Reject true (pb.msg pb.ConfigChangeEvent))).
Definition RestoreRemotes (ss : pb.Snapshot) : M Peer unit :=
  on_raft (Handle (pb.set_Snapshot ss (pb.msg pb.SnapshotReceived))).
Definition ReportUnreachableNode (id : Z) : M Peer unit :=
  on_raft (Handle (pb.set_From id (pb.msg pb.Unreachable))).
Definition ReportSnapshotStatus (id : Z) (reject : bool) : M Peer unit :=
  on_raft (Handle (pb.set_From id (pb.set_Reject reject (pb.msg pb.SnapshotStatus)))).
Definition ReadIndex_ (ctx : pb.SystemCtx) : M Peer unit :=
  on_raft (Handle (pb.set_Hint (pb.Low ctx) (pb.set_HintHigh (pb.High ctx)
    (pb.msg pb.ReadIndex)))).
Definition NotifyRaftLastApplied (lastApplied : Z) : M Peer unit :=
  on_raft (setApplied lastApplied).

(** [Peer.Handle]: responses of replicas that are not members are ignored. *)
Definition Peer_Handle (m : pb.Message) : M Peer unit :=
  if isLocalMessageType (pb.m_Type m) then panicf "local message sent to Step"
  else
    p ← get;
    let r := p_raft p in
    if bool_decide (is_Some (remotes r !! pb.m_From m))
       || bool_decide (is_Some (nonVotings r !! pb.m_From m))
       || bool_decide (is_Some (witnesses r !! pb.m_From m))
       || negb (isResponseMessageType (pb.m_Type m))
    then on_raft (Handle m) else skip.

Definition RateLimited : M Peer bool := on_raft (on_rl server.RateLimited).
Definition HasEntryToApply (p : Peer) : bool := entryLog.hasEntriesToApply (log (p_raft p)).

(** ** The update cycle *)

Definition HasUpdate (moreToApply : bool) (p : Peer) : bool :=
  let r := p_raft p in
  let pst := raftState r in
  (0 <? len (entryLog.entriesToSave (log r)))
  || bool_decide (is_Some (logQueryResult r)) || bool_decide (is_Some (leaderUpdate r))
  || (0 <? len (msgs r))
  || (moreToApply && entryLog.hasEntriesToApply (log r))
  || (negb (pb.IsEmptyState pst) && negb (pb.isStateEqual pst (p_prevState p)))
  || (match inMemory.snapshot (entryLog.inmem (log r)) with
      | Some ss => negb (pb.IsEmptySnapshot ss) | None => false end)
  || negb (len (readyToRead r) =? 0) || (0 <? len (droppedEntries r))
  || (0 <? len (droppedReadIndexes r)).

(** The messages of the update are the slice of the core, so setting their shard
    sets it there as well. *)
Definition getUpdate (moreToApply : bool) (lastApplied : Z) : M Peer Update :=
  on_raft (modify (fun r => set_msgs (map (pb.set_ShardID (shardID r)) (msgs r)) r)) ;;
  p ← get;
  let r := p_raft p in
  let l := log r in
  toApply ← (if moreToApply : bool then readr (fun _ => entryLog.entriesToApply l) else ret []);
  let more := match last toApply with
              | Some e => entryLog.hasMoreEntriesToApply (pb.e_Index e) l
              | None => false
              end in
  let pst := raftState r in
  ret (mkUpdate (shardID r) (replicaID r)
    (if negb (pb.isStateEqual pst (p_prevState p)) then pst else pb.emptyState) true
    (entryLog.entriesToSave l) toApply more
    (match inMemory.snapshot (entryLog.inmem l) with
     | Some ss => ss | None => pb.zeroSnapshot end)
    (readyToRead r) (msgs r) lastApplied zeroCommit (droppedEntries r)
    (droppedReadIndexes r)
    (match logQueryResult r with Some q => q | None => zeroQuery end)
    (match leaderUpdate r with Some u => u | None => pb.mkLeaderUpdate 0 0 end)).

Definition GetUpdate (moreToApply : bool) (lastApplied : Z) : M Peer Update :=
  ud ← getUpdate moreToApply lastApplied;
  readr (fun _ => validateUpdate ud) ;;
  let ud := setFastApply ud in
  ret (set_UpdateCommit (getUpdateCommit ud) ud).

Definition Commit (ud : Update) : M Peer unit :=
  on_raft (modify (set_msgs []) ;; modify (set_logQueryResult None) ;;
           modify (set_leaderUpdate None) ;; modify (set_droppedEntries []) ;;
           modify (set_droppedReadIndexes [])) ;;
  when (negb (pb.IsEmptyState (u_State ud))) (modify (set_prevState (u_State ud))) ;;
  when (0 <? pb.uc_ReadyToRead (u_UpdateCommit ud)) (on_raft clearReadyToRead) ;;
  on_raft (on_log (entryLog.commitUpdate (u_UpdateCommit ud))).

End peer.
Arguments Peer DB : clear implicits.
