(* ===== verification/PeerSpec.v ===== *)
(** * The update cycle of a peer

    [GetUpdate] never panics on a well-formed log, hands out committed entries
    only, and sets [FastApply] only when they are already saved.  Once an update
    is in the database, [Commit] keeps the log and moves on exactly past the
    entries handed out, so over any run entries are applied in order, once. *)
From S2P Require Import Prelude Raftpb RateLimiter Remote ReadIndex LogDB Wire Codec Update.
From S2P Require Import InMemory EntryLog LogReader RaftState Raft Samples RaftSafety LogInv.
From S2P Require Import LogWrite RaftLog LogCycle Peer.
Import inMemory(inMemory) entryLog(entryLog) Update.

Section peer.
Context {DB : Type} `{ILogDB DB} `{!ILogDBSpec DB} `{GoRuntime}.
Abbreviation Peer := (Peer DB).
Abbreviation savedTo l := (inMemory.savedTo (entryLog.inmem l)).
Abbreviation snap l := (inMemory.snapshot (entryLog.inmem l)).
Abbreviation plog p := (log (p_raft p)).

(** ** What an update holds *)

(** The parts of an update [ud] taken from the log [l]. *)
Record taken (more : bool) (l : entryLog DB) (ud : Update) : Prop := {
  tk_save : u_EntriesToSave ud = entryLog.entriesToSave l;
  tk_apply : run l (nextToApply l) (u_CommittedEntries ud);
  tk_committed : nextToApply l + len (u_CommittedEntries ud) <= entryLog.committed l + 1;
  tk_progress : more = true -> nextToApply l <= entryLog.committed l ->
    u_CommittedEntries ud <> [];
  tk_snap : u_Snapshot ud = match snap l with Some ss => ss | None => pb.zeroSnapshot end
}.

Section taken.
Context (more : bool) (l : entryLog DB) (Hl : lwf l) (ud : Update) (Ht : taken more l ud).

Lemma taken_contig : contig (nextToApply l) (u_CommittedEntries ud).
Proof. apply (run_contig l Hl), Ht. Qed.

Lemma taken_last e :
  last (u_CommittedEntries ud) = Some e ->
  pb.e_Index e = nextToApply l + len (u_CommittedEntries ud) - 1 /\
  pb.e_Index e <= entryLog.committed l.
Proof.
  intros He. rewrite (contig_last _ _ _ taken_contig He).
  pose proof (tk_committed _ _ _ Ht). lia.
Qed.

Lemma taken_lastSave e :
  last (u_EntriesToSave ud) = Some e -> pb.e_Index e = entryLog.lastIndex l.
Proof.
  rewrite (tk_save _ _ _ Ht). intros He. destruct (entriesToSave_spec l Hl) as (_ & Hr & Hlen).
  rewrite (contig_last _ _ _ (run_contig l Hl _ _ Hr) He). lia.
Qed.

Lemma taken_firstSave e es :
  u_EntriesToSave ud = e :: es -> pb.e_Index e = savedTo l + 1.
Proof.
  rewrite (tk_save _ _ _ Ht). intros He. destruct (entriesToSave_spec l Hl) as (_ & Hr & _).
  apply (run_contig l Hl) in Hr. rewrite He in Hr. by apply contig_cons in Hr as [-> _].
Qed.

Lemma taken_valid :
  pb.st_Commit (u_State ud) = 0 \/ pb.st_Commit (u_State ud) = entryLog.committed l ->
  validateUpdate ud = OK tt.
Proof.
  intros Hst. unfold validateUpdate. pose proof (lw_commit l Hl).
  destruct (last (u_CommittedEntries ud)) as [e|] eqn:He; [|done].
  destruct (taken_last e He) as [_ Hle].
  assert ((0 <? pb.st_Commit (u_State ud)) && (pb.st_Commit (u_State ud) <? pb.e_Index e) = false)
    as ->.
  { destruct Hst as [->| ->]; [done|]. rewrite (proj2 (Z.ltb_ge (entryLog.committed l) _)) by done.
    apply andb_false_r. }
  cbn [mbind result_bind]. destruct (last (u_EntriesToSave ud)) as [e'|] eqn:He'; [|done].
  rewrite (taken_lastSave e' He'). by rewrite (proj2 (Z.ltb_ge _ _)) by lia.
Qed.

Lemma taken_snapshot ss : snap l = Some ss -> pb.IsEmptySnapshot (u_Snapshot ud) = false.
Proof.
  intros Hs. rewrite (tk_snap _ _ _ Ht), Hs. unfold pb.IsEmptySnapshot.
  destruct (lw_snap l Hl ss Hs). by apply Z.eqb_neq; lia.
Qed.

(** [FastApply] is set exactly when everything handed out is already saved. *)
Lemma taken_fast :
  u_FastApply (setFastApply ud) = true <->
  snap l = None /\ forall e, e ∈ u_CommittedEntries ud -> pb.e_Index e <= savedTo l.
Proof.
  unfold setFastApply. simpl. pose proof (lw_commit l Hl) as Hc.
  destruct (snap l) as [ss|] eqn:Hs.
  { rewrite (taken_snapshot ss Hs). simpl.
    split; [|by intros [? _]]. by repeat case_match. }
  rewrite (tk_snap _ _ _ Ht), Hs. change (pb.IsEmptySnapshot pb.zeroSnapshot) with true. simpl.
  destruct (last (u_CommittedEntries ud)) as [a|] eqn:Ha.
  2:{ apply last_None in Ha. rewrite Ha. split; [|done]. split; [done|].
      intros e He. set_solver. }
  assert ((forall e, e ∈ u_CommittedEntries ud -> pb.e_Index e <= savedTo l) <->
    pb.e_Index a <= savedTo l) as ->.
  { split.
    - intros Hall. apply Hall. rewrite last_lookup in Ha. by eapply list_elem_of_lookup_2.
    - intros Hle e [k Hk]%list_elem_of_lookup. rewrite (taken_contig _ _ Hk).
      apply lookup_lt_Some in Hk. destruct (taken_last a Ha) as [Hia _]. unfold len in Hia. lia. }
  destruct (taken_last a Ha) as [_ Hac].
  destruct (u_EntriesToSave ud) as [|f es] eqn:Hes.
  - simpl. split; [|done]. intros _. split; [done|].
    destruct (entriesToSave_spec l Hl) as (_ & _ & Hlen). rewrite <- (tk_save _ _ _ Ht), Hes in Hlen.
    unfold len in Hlen. simpl in Hlen. lia.
  - destruct (last (f :: es)) as [b|] eqn:Hb; [|by apply last_None in Hb].
    rewrite <- Hes in Hb. rewrite (taken_firstSave f es Hes), (taken_lastSave b Hb).
    destruct (Z.leb_spec (savedTo l + 1) (pb.e_Index a)); simpl.
    + rewrite (proj2 (Z.leb_le _ _)) by lia. split; [done|]. intros [_ ?]. lia.
    + split; [|done]. split; [done|lia].
Qed.

Lemma taken_commits :
  commits l (getUpdateCommit ud).
Proof.
  unfold getUpdateCommit. pose proof (lw_processed l Hl) as Hp. pose proof (lwf_first l Hl) as Hf.
  pose proof (lw_commit l Hl) as Hc. pose proof (lw_base l Hl) as Hb.
  assert (match last (u_CommittedEntries ud) with Some e => pb.e_Index e | None => 0 end = 0 \/
    entryLog.processed l <= match last (u_CommittedEntries ud) with
      | Some e => pb.e_Index e | None => 0 end <= entryLog.committed l) as Hpr.
  { destruct (last (u_CommittedEntries ud)) as [e|] eqn:He; [right|by left].
    destruct (taken_last e He) as [Hi Hle]. split; [|done]. rewrite Hi. unfold nextToApply.
    assert (0 < len (u_CommittedEntries ud)) by (destruct (u_CommittedEntries ud); [done|unfold len; simpl; lia]).
    lia. }
  destruct (last (u_EntriesToSave ud)) as [s|] eqn:Hsv;
    rewrite (tk_snap _ _ _ Ht); destruct (snap l) as [ss|] eqn:Hs;
    try (change (pb.IsEmptySnapshot pb.zeroSnapshot) with true; cbn [negb]);
    try (pose proof (taken_snapshot ss Hs) as He; rewrite (tk_snap _ _ _ Ht), Hs in He; rewrite He;
         destruct (lw_snap l Hl ss Hs); cbn [negb]);
    (split; simpl; [rewrite <- (tk_save _ _ _ Ht), Hsv; done|by rewrite Hs|]);
    try exact Hpr; right; destruct Hpr; lia.
Qed.

End taken.

(** ** Getting an update *)

Definition stampedMsgs (p : Peer) : Peer :=
  set_raft (set_msgs (map (pb.set_ShardID (shardID (p_raft p))) (msgs (p_raft p))) (p_raft p)) p.

Lemma getUpdate_spec more la (p : Peer) :
  lwf (plog p) -> exists ud, getUpdate more la p = Ret ud (stampedMsgs p) /\
    taken more (plog p) ud /\ u_LastApplied ud = la /\
    u_ReadyToReads ud = readyToRead (p_raft p) /\
    u_State ud = (if pb.isStateEqual (raftState (p_raft p)) (p_prevState p)
                  then pb.emptyState else raftState (p_raft p)).
Proof.
  intros Hl. unfold getUpdate, on_raft, zoom, mbind, M_bind, modify, get. simpl.
  fold (stampedMsgs p). destruct more.
  - destruct (entriesToApply_spec _ Hl) as (es & He & Hr & Hc & Hne). unfold readr. rewrite He.
    eexists. split; [reflexivity|]. split; [by split|]. simpl. split_and!; [done..|].
    by destruct (pb.isStateEqual _ _).
  - eexists. split; [reflexivity|]. split; [|simpl; split_and!; [done..|by destruct (pb.isStateEqual _ _)]].
    split; try done. simpl. unfold nextToApply, len. simpl.
    pose proof (lw_commit _ Hl). pose proof (lw_processed _ Hl). lia.
Qed.

Lemma setFastApply_taken more l ud : taken more l ud -> taken more l (setFastApply ud).
Proof. by intros []. Qed.

Lemma getUpdateCommit_fast ud : getUpdateCommit (setFastApply ud) = getUpdateCommit ud.
Proof. done. Qed.

(** What [GetUpdate] returns. *)
Record gotten (more : bool) (la : Z) (p : Peer) (ud : Update) : Prop := {
  gt_taken : taken more (plog p) ud;
  gt_applied : u_LastApplied ud = la;
  gt_reads : u_ReadyToReads ud = readyToRead (p_raft p);
  gt_state : u_State ud = (if pb.isStateEqual (raftState (p_raft p)) (p_prevState p)
                  then pb.emptyState else raftState (p_raft p));
  gt_fast : u_FastApply ud = true <->
    snap (plog p) = None /\ forall e, e ∈ u_CommittedEntries ud -> pb.e_Index e <= savedTo (plog p);
  gt_commit : u_UpdateCommit ud = getUpdateCommit ud
}.

Lemma GetUpdate_spec more la (p : Peer) :
  lwf (plog p) -> exists ud, GetUpdate more la p = Ret ud (stampedMsgs p) /\ gotten more la p ud.
Proof.
  intros Hl. destruct (getUpdate_spec more la p Hl) as (ud & Hg & Ht & Hla & Hrr & Hst).
  unfold GetUpdate, mbind, M_bind. rewrite Hg. unfold readr.
  rewrite (taken_valid more (plog p) Hl ud Ht).
  2:{ rewrite Hst. destruct (pb.isStateEqual _ _); [by left|by right]. }
  eexists. split; [reflexivity|]. pose proof (taken_fast more _ Hl ud Ht) as Hf.
  destruct Ht. split; try done.
Qed.

(** [GetUpdate] never fails on a well-formed log: the update holds every entry
    not yet saved and the next committed entries, in order and none beyond the
    commit index, at least one of them if any is left; its [FastApply] flag is set
    exactly when there is no snapshot to save and every entry to apply is already
    saved. *)
Theorem getUpdate_sound more la (p : Peer) :
  lwf (plog p) -> exists ud p', GetUpdate more la p = Ret ud p' /\ plog p' = plog p /\
    run (plog p) (savedTo (plog p) + 1) (u_EntriesToSave ud) /\
    savedTo (plog p) + len (u_EntriesToSave ud) = entryLog.lastIndex (plog p) /\
    run (plog p) (nextToApply (plog p)) (u_CommittedEntries ud) /\
    nextToApply (plog p) + len (u_CommittedEntries ud) <= entryLog.committed (plog p) + 1 /\
    (more = true -> nextToApply (plog p) <= entryLog.committed (plog p) ->
     u_CommittedEntries ud <> []) /\
    (u_FastApply ud = true <-> snap (plog p) = None /\
       forall e, e ∈ u_CommittedEntries ud -> pb.e_Index e <= savedTo (plog p)).
Proof.
  intros Hl. destruct (GetUpdate_spec more la p Hl) as (ud & Hg & [[Hs Ha Hc Hp Hss] _ _ _ Hf _]).
  destruct (entriesToSave_spec _ Hl) as (_ & Hr & Hlen). rewrite <- Hs in Hr, Hlen.
  exists ud, (stampedMsgs p). split_and!; try done. lia.
Qed.

(** ** Committing it *)

Definition onDB (db : DB) (p : Peer) : Peer :=
  set_raft (set_log (withDB db (plog p)) (p_raft p)) p.

(** The state after a cycle. *)
Record cycled (p : Peer) (db : DB) (ud : Update) (p' : Peer) : Prop := {
  cy_moved : moved (plog p) db (plog p');
  cy_next : nextToApply (plog p') = nextToApply (plog p) + len (u_CommittedEntries ud);
  cy_core : term (p_raft p') = term (p_raft p) /\ vote (p_raft p') = vote (p_raft p) /\
    state (p_raft p') = state (p_raft p);
  cy_idle : Peer.HasUpdate false p' = false
}.

Lemma newProcessed_next more l ud (Hl : lwf l) :
  taken more l ud -> let n := newProcessed l (getUpdateCommit ud) in
  entryLog.processed l <= n /\
  Z.max (n + 1) (entryLog.firstIndex l) = nextToApply l + len (u_CommittedEntries ud).
Proof.
  intros Ht n. pose proof (lw_processed l Hl) as Hp. pose proof (lwf_first l Hl) as Hf.
  pose proof (lw_base l Hl) as Hb. pose proof (lwf_bounds l Hl) as [Hb1 _].
  pose proof (tk_snap _ _ _ Ht) as Hsn.
  assert (match last (u_CommittedEntries ud) with Some e => pb.e_Index e | None => 0 end =
    if len (u_CommittedEntries ud) =? 0 then 0
    else nextToApply l + len (u_CommittedEntries ud) - 1) as Hlast.
  { destruct (last (u_CommittedEntries ud)) as [e|] eqn:He.
    - destruct (taken_last more l Hl ud Ht e He) as [-> _].
      destruct (u_CommittedEntries ud); [done|]. by rewrite (proj2 (Z.eqb_neq _ _)) by (unfold len; simpl; lia).
    - apply last_None in He. by rewrite He. }
  pose proof (len_nonneg' (u_CommittedEntries ud)) as Hn0.
  unfold n, newProcessed, getUpdateCommit. rewrite Hlast.
  destruct (last (u_EntriesToSave ud)); cbv iota beta;
    rewrite Hsn; destruct (snap l) as [ss|] eqn:Hs;
    try (change (pb.IsEmptySnapshot pb.zeroSnapshot) with true; cbn [negb]; cbv iota beta);
    try (pose proof (taken_snapshot more l Hl ud Ht ss Hs) as He; rewrite Hsn in He; rewrite He;
         destruct (lw_snap l Hl ss Hs); cbn [negb]; cbv iota beta);
    simpl; unfold nextToApply in *;
    destruct (Z.eqb_spec (len (u_CommittedEntries ud)) 0) as [Hz|Hz]; try rewrite Hz in *;
    match goal with |- context [0 <? ?x] => destruct (Z.ltb_spec 0 x) end; lia.
Qed.

(** The peer once [Commit] has moved its log to [l']. *)
Definition committedPeer (ud : Update) (l' : entryLog DB) (p : Peer) : Peer :=
  let r := set_droppedReadIndexes [] (set_droppedEntries [] (set_leaderUpdate None
             (set_logQueryResult None (set_msgs [] (p_raft p))))) in
  let r := if 0 <? pb.uc_ReadyToRead (u_UpdateCommit ud) then set_readyToRead [] r else r in
  mkPeer (set_log l' r) (if pb.IsEmptyState (u_State ud) then p_prevState p else u_State ud).

Lemma Commit_spec ud (p : Peer) l' :
  entryLog.commitUpdate (u_UpdateCommit ud) (plog p) = Ret tt l' ->
  Commit ud p = Ret tt (committedPeer ud l' p).
Proof.
  intros Hc. destruct p as [r prev]. simpl in Hc.
  unfold Commit, on_raft, on_log, zoom, mbind, M_bind, modify, when, skip, ret, clearReadyToRead.
  simpl. destruct (pb.IsEmptyState (u_State ud)) eqn:He; simpl;
    unfold committedPeer; rewrite He; simpl;
    destruct (0 <? pb.uc_ReadyToRead (u_UpdateCommit ud)); simpl; by rewrite Hc.
Qed.

Lemma isStateEqual_true a b : pb.isStateEqual a b = true <-> a = b.
Proof.
  unfold pb.isStateEqual. rewrite !andb_true_iff, !Z.eqb_eq.
  destruct a, b; simpl. split; [by intros [[-> ->] ->]|by intros [= -> -> ->]].
Qed.

Lemma state_settled pst prev :
  let st := if pb.isStateEqual pst prev then pb.emptyState else pst in
  negb (pb.IsEmptyState pst)
    && negb (pb.isStateEqual pst (if pb.IsEmptyState st then prev else st)) = false.
Proof.
  destruct (pb.isStateEqual pst prev) eqn:He; simpl; [by rewrite He, andb_false_r|].
  destruct (pb.IsEmptyState pst); [done|]. by rewrite (proj2 (isStateEqual_true pst pst) eq_refl).
Qed.

(** After [Commit] nothing of the update is left to do. *)
Lemma committed_idle more la (p : Peer) ud db l' :
  lwf (plog p) -> holds (plog p) db -> gotten more la p ud -> moved (plog p) db l' ->
  Peer.HasUpdate false (committedPeer ud l' (onDB db (stampedMsgs p))) = false.
Proof.
  intros Hl Hdb [_ _ Hrr Hst _ Hcm] Hm. pose proof (moved_lwf _ Hl db Hdb l' Hm) as Hl'.
  destruct (entriesToSave_spec l' Hl') as (_ & _ & Hlen).
  rewrite (moved_last _ Hl db Hdb l' Hm), (mv_saved _ _ _ Hm) in Hlen.
  assert (pb.uc_ReadyToRead (u_UpdateCommit ud) = len (readyToRead (p_raft p))) as Hrd.
  { rewrite Hcm, <- Hrr. unfold getUpdateCommit. by repeat case_match. }
  pose proof (state_settled (raftState (p_raft p)) (p_prevState p)) as Hss. simpl in Hss.
  rewrite <- Hst in Hss.
  assert (raftState (set_log l' (p_raft p)) = raftState (p_raft p)) as Hrs.
  { unfold raftState, committed. simpl. by rewrite (mv_commit _ _ _ Hm). }
  unfold Peer.HasUpdate, committedPeer. rewrite Hrd.
  destruct (Z.ltb_spec 0 (len (readyToRead (p_raft p)))) as [Hr|Hr]; simpl;
    rewrite Hlen, Z.sub_diag, (mv_snap _ _ _ Hm); simpl;
    change (raftState (set_log l' _)) with (raftState (set_log l' (p_raft p)));
    rewrite Hrs, Hss; [done|]. pose proof (len_nonneg' (readyToRead (p_raft p))).
  rewrite (proj2 (Z.eqb_eq _ 0)) by lia. done.
Qed.

Lemma cycle_spec more la (p : Peer) db :
  lwf (plog p) -> holds (plog p) db -> la <= entryLog.processed (plog p) ->
  exists ud p', GetUpdate more la p = Ret ud (stampedMsgs p) /\ gotten more la p ud /\
    Commit ud (onDB db (stampedMsgs p)) = Ret tt p' /\ cycled p db ud p'.
Proof.
  intros Hl Hdb Hla. destruct (GetUpdate_spec more la p Hl) as (ud & Hg & Hgt).
  pose proof (gt_taken _ _ _ _ Hgt) as Ht.
  pose proof (taken_commits more _ Hl ud Ht) as Hcu. rewrite <- (gt_commit _ _ _ _ Hgt) in Hcu.
  destruct (newProcessed_next more _ ud Hl Ht) as [Hnp Hnx].
  rewrite <- (gt_commit _ _ _ _ Hgt) in Hnp, Hnx.
  assert (pb.uc_LastApplied (u_UpdateCommit ud) = la) as Hua.
  { rewrite (gt_commit _ _ _ _ Hgt), <- (gt_applied _ _ _ _ Hgt).
    unfold getUpdateCommit. by repeat case_match. }
  destruct (commitUpdate_spec _ Hl _ Hcu db) as (l' & Hc & Hm & Hp'); [rewrite Hua; lia|].
  exists ud. eexists. split; [done|]. split; [done|]. split; [by apply Commit_spec|].
  assert (plog (committedPeer ud l' (onDB db (stampedMsgs p))) = l') as Hlog by done.
  split; rewrite ?Hlog.
  - done.
  - unfold nextToApply at 1. rewrite Hp', (moved_first _ db Hdb l' Hm). exact Hnx.
  - unfold committedPeer. simpl. by destruct (0 <? _).
  - by eapply committed_idle.
Qed.

(** C27: an update cycle completes and loses nothing: once the entries and snapshot
    of an update are in the database, [Commit] of it succeeds, keeps every entry
    of the log and the invariant, leaves nothing to save or send, and moves on by
    exactly the entries the update handed out. *)
Theorem update_cycle more la (p : Peer) db :
  lwf (plog p) -> holds (plog p) db -> la <= entryLog.processed (plog p) ->
  exists ud p1 p2, GetUpdate more la p = Ret ud p1 /\ Commit ud (onDB db p1) = Ret tt p2 /\
    lwf (plog p2) /\ (forall i, entryAt (plog p2) i = entryAt (plog p) i) /\
    entryLog.committed (plog p2) = entryLog.committed (plog p) /\
    nextToApply (plog p2) = nextToApply (plog p) + len (u_CommittedEntries ud) /\
    Peer.HasUpdate false p2 = false.
Proof.
  intros Hl Hdb Hla. destruct (cycle_spec more la p db Hl Hdb Hla) as (ud & p2 & Hg & _ & Hc & [Hm Hn _ Hi]).
  exists ud, (stampedMsgs p), p2. split_and!; try done.
  - by eapply moved_lwf.
  - intros i. by eapply moved_entryAt.
  - apply Hm.
Qed.

(** ** Runs *)

(** A run of a peer: messages handled by the core and update cycles, with the
    entries the cycles hand out. *)
Inductive prun : Peer -> list pb.Entry -> Peer -> Prop :=
| prun_nil p : prun p [] p
| prun_handle m p r' es p' :
    msg_fits m (p_raft p) -> after m (p_raft p) r' ->
    prun (set_raft r' p) es p' -> prun p es p'
| prun_cycle more la db p ud p1 p2 es p' :
    holds (plog p) db -> la <= entryLog.processed (plog p) ->
    GetUpdate more la p = Ret ud p1 -> Commit ud (onDB db p1) = Ret tt p2 ->
    prun p2 es p' -> prun p (u_CommittedEntries ud ++ es) p'.

(** [es] has increasing indexes from [i] to below [j]. *)
Definition ascending (i : Z) (es : list pb.Entry) (j : Z) : Prop :=
  (forall e, e ∈ es -> i <= pb.e_Index e < j) /\
  forall a b e e', (a < b)%nat -> es !! a = Some e -> es !! b = Some e' ->
    pb.e_Index e < pb.e_Index e'.

Lemma ascending_contig i es : contig i es -> ascending i es (i + len es).
Proof.
  intros Hc. split.
  - intros e [k Hk]%list_elem_of_lookup. rewrite (Hc _ _ Hk). apply lookup_lt_Some in Hk.
    unfold len. lia.
  - intros a b e e' Hab Ha Hb. rewrite (Hc _ _ Ha), (Hc _ _ Hb). lia.
Qed.

Lemma ascending_weaken i i' es j : i' <= i -> ascending i es j -> ascending i' es j.
Proof. intros Hi [H1 H2]. split; [|done]. intros e He. specialize (H1 e He). lia. Qed.

Lemma ascending_app i es j es' k :
  j <= k -> ascending i es j -> ascending j es' k -> i <= j -> ascending i (es ++ es') k.
Proof.
  intros Hjk [A1 A2] [B1 B2] Hij. split.
  - intros e [He|He]%elem_of_app; [specialize (A1 e He)|specialize (B1 e He)]; lia.
  - intros a b e e' Hab Ha Hb. apply lookup_app_Some in Ha as [Ha|[Hla Ha]];
      apply lookup_app_Some in Hb as [Hb|[Hlb Hb]].
    + by eapply A2.
    + apply list_elem_of_lookup_2, A1 in Ha. apply list_elem_of_lookup_2, B1 in Hb. lia.
    + apply lookup_lt_Some in Hb. lia.
    + eapply B2; [|done..]. lia.
Qed.

(** What both kinds of step keep. *)
Record kept (p p' : Peer) : Prop := {
  kp_rwf : rwf (p_raft p');
  kp_first : entryLog.firstIndex (plog p) <= entryLog.firstIndex (plog p');
  kp_commit : entryLog.committed (plog p) <= entryLog.committed (plog p');
  kp_next : nextToApply (plog p) <= nextToApply (plog p');
  kp_log : forall j, entryLog.firstIndex (plog p') <= j <= entryLog.committed (plog p) ->
    entryAt (plog p') j = entryAt (plog p) j
}.

Lemma kept_trans p p' p'' : kept p p' -> kept p' p'' -> kept p p''.
Proof.
  intros [W1 F1 C1 N1 L1] [W2 F2 C2 N2 L2]. split; try done; try lia.
  intros j Hj. rewrite L2, L1 by lia. done.
Qed.

Lemma handle_kept m p r' :
  rwf (p_raft p) -> msg_fits m (p_raft p) -> after m (p_raft p) r' -> kept p (set_raft r' p).
Proof.
  intros Hr Hm Ha. destruct (after_log m _ _ Hm Ha) as [_ Hs]. destruct (Hs Hr) as [W F C E _ P].
  split; simpl; try done. unfold nextToApply. lia.
Qed.

Lemma cycled_kept p db ud p' :
  rwf (p_raft p) -> holds (plog p) db -> cycled p db ud p' -> kept p p'.
Proof.
  intros (Hl & Ht0 & Hst & Htm) Hdb [Hm Hn (Hterm & _ & Hstate) _]. split.
  - split; [by eapply moved_lwf|]. rewrite Hterm, Hstate. split_and!; [done..|].
    unfold lastIndex. rewrite (moved_last _ Hl db Hdb _ Hm), (moved_termAt _ Hl db Hdb _ Hm). done.
  - by rewrite (moved_first _ db Hdb _ Hm).
  - by rewrite (mv_commit _ _ _ Hm).
  - rewrite Hn. pose proof (len_nonneg' (u_CommittedEntries ud)). lia.
  - intros j _. by eapply moved_entryAt.
Qed.

(** C13: over any run of messages and update cycles, the entries handed out for
    application have strictly increasing indexes, so none is handed out twice or
    out of order, and each is the committed entry of its index and stays so for
    as long as the log holds that index. *)
Theorem applied_in_order p es p' :
  rwf (p_raft p) -> prun p es p' ->
  ascending (nextToApply (plog p)) es (nextToApply (plog p')) /\
  forall e, e ∈ es -> pb.e_Index e <= entryLog.committed (plog p') /\
    (entryLog.firstIndex (plog p') <= pb.e_Index e -> entryAt (plog p') (pb.e_Index e) = Some e).
Proof.
  intros Hr Hrun.
  enough (kept p p' /\ ascending (nextToApply (plog p)) es (nextToApply (plog p')) /\
    forall e, e ∈ es -> pb.e_Index e <= entryLog.committed (plog p') /\
    (entryLog.firstIndex (plog p') <= pb.e_Index e -> entryAt (plog p') (pb.e_Index e) = Some e))
    by tauto.
  induction Hrun as [p|m p r' es p' Hm Ha Hrun IH|more la db p ud p1 p2 es p' Hdb Hla Hg Hc Hrun IH].
  - split; [by split|]. split; [split; [set_solver|by intros ? []]|set_solver].
  - pose proof (handle_kept m p r' Hr Hm Ha) as Hk. destruct IH as (Hk' & Has & He); [apply Hk|].
    split; [by eapply kept_trans|]. split; [|done].
    eapply ascending_weaken; [|done]. apply Hk.
  - destruct (cycle_spec more la p db (proj1 Hr) Hdb Hla) as (ud' & p2' & Hg' & Hgt & Hc' & Hcy).
    rewrite Hg in Hg'. simplify_eq. rewrite Hc in Hc'. simplify_eq.
    pose proof (cycled_kept p db ud' p2' Hr Hdb Hcy) as Hk.
    destruct IH as (Hk' & Has & He); [apply Hk|]. pose proof (gt_taken _ _ _ _ Hgt) as Ht.
    pose proof (cy_next _ _ _ _ Hcy) as Hn. pose proof (len_nonneg' (u_CommittedEntries ud')).
    split; [by eapply kept_trans|]. split.
    + eapply ascending_app; [apply Hk'| |exact Has|lia]. rewrite Hn.
      by apply ascending_contig, (taken_contig more _ (proj1 Hr)).
    + intros e [He'|He']%elem_of_app; [|by apply He].
      apply list_elem_of_lookup in He' as [k Hke]. apply lookup_lt_Some in Hke as Hlt.
      pose proof (tk_apply _ _ _ Ht _ _ Hke) as Hat. pose proof (tk_committed _ _ _ Ht) as Hcm.
      pose proof (taken_contig more _ (proj1 Hr) ud' Ht _ _ Hke) as Hi.
      unfold len in Hcm. pose proof (kept_trans _ _ _ Hk Hk') as [_ _ Kc _ Kl].
      split; [lia|]. intros Hf. rewrite Kl by lia. by rewrite Hi.
Qed.

(** ** Progress *)

(** [n] update cycles that ask for entries to apply. *)
Inductive cycles : nat -> Peer -> Peer -> Prop :=
| cycles_O p : cycles 0 p p
| cycles_S n la db p ud p1 p2 p' :
    holds (plog p) db -> la <= entryLog.processed (plog p) ->
    GetUpdate true la p = Ret ud p1 -> Commit ud (onDB db p1) = Ret tt p2 ->
    cycles n p2 p' -> cycles (S n) p p'.

(** C28: committed entries are handed out eventually: every update cycle hands out
    at least one of those left, so after as many cycles as there are committed
    entries left none of them is. *)
Theorem cycles_progress n p p' :
  lwf (plog p) -> cycles n p p' ->
  entryLog.committed (plog p') = entryLog.committed (plog p) /\
  Z.min (nextToApply (plog p) + Z.of_nat n) (entryLog.committed (plog p) + 1)
    <= nextToApply (plog p').
Proof.
  intros Hl Hrun. induction Hrun as [p|n la db p ud p1 p2 p' Hdb Hla Hg Hc Hrun IH]; [lia|].
  destruct (cycle_spec true la p db Hl Hdb Hla) as (ud' & p2' & Hg' & Hgt & Hc' & [Hm Hn _ _]).
  rewrite Hg in Hg'. simplify_eq. rewrite Hc in Hc'. simplify_eq.
  destruct IH as [IHc IHn]; [by eapply moved_lwf|]. rewrite IHc, (mv_commit _ _ _ Hm) in *.
  split; [done|]. pose proof (tk_progress _ _ _ (gt_taken _ _ _ _ Hgt) eq_refl) as Hp.
  destruct (decide (nextToApply (plog p) <= entryLog.committed (plog p))) as [Hd|Hd].
  - specialize (Hp Hd). assert (0 < len (u_CommittedEntries ud')); [|lia].
    destruct (u_CommittedEntries ud'); [done|unfold len; simpl; lia].
  - pose proof (len_nonneg' (u_CommittedEntries ud')). lia.
Qed.

End peer.

(** ** Witnesses

    A leader that has three of its five entries committed. *)
Definition peer1 : Peer reader := mkPeer leader1_log (pb.mkState 1 0 0).
Definition disk5 : list pb.Entry :=
  disk ++ map (fun i => pb.entry pb.ApplicationEntry 2 i) [3; 4; 5].
Definition reader5 : reader :=
  logreader.mkLogReader disk5 bootSnapshot (pb.mkState 2 1 3) 0 1 1 0 6.

Lemma cases5 (i : Z) (P : Z -> Prop) :
  1 <= i <= 5 -> P 1 -> P 2 -> P 3 -> P 4 -> P 5 -> P i.
Proof.
  intros Hi **. assert (i = 1 \/ i = 2 \/ i = 3 \/ i = 4 \/ i = 5) as [->|[->|[->|[->| ->]]]] by lia; done.
Qed.

Lemma peer1_holds : holds (log (p_raft peer1)) reader5.
Proof.
  split; try by vm_compute.
  - split_and!; [done..|]. intros i Hi. change (0 < i < 0 + 6) in Hi.
    apply (cases5 i); [lia|..]; by vm_compute; eauto.
  - intros i Hi. change (1 <= i <= 5) in Hi. apply (cases5 i); [lia|..]; by vm_compute.
Qed.

Lemma getUpdate_sound_witness :
  exists ud p', GetUpdate true 0 peer1 = Ret ud p' /\ u_CommittedEntries ud <> [].
Proof.
  destruct (getUpdate_sound true 0 peer1) as (ud & p' & Hg & _ & _ & _ & _ & _ & Hne & _).
  - apply leader1_log_rwf.
  - exists ud, p'. split; [exact Hg|]. apply Hne; [reflexivity|by vm_compute].
Defined.

Lemma update_cycle_witness :
  exists ud p1 p2, GetUpdate true 0 peer1 = Ret ud p1 /\ Commit ud (onDB reader5 p1) = Ret tt p2 /\
    lwf (log (p_raft p2)) /\
    nextToApply (log (p_raft p2)) = 1 + len (u_CommittedEntries ud).
Proof.
  destruct (update_cycle true 0 peer1 reader5) as (ud & p1 & p2 & Hg & Hc & Hl & _ & _ & Hn & _);
    [apply leader1_log_rwf|apply peer1_holds|by vm_compute|].
  exists ud, p1, p2. split; [exact Hg|]. split; [exact Hc|]. split; [exact Hl|exact Hn].
Defined.

Definition outcomeOf {S A} (x : outcome S A) (d : A * S) : A * S :=
  match x with Ret a s => (a, s) | _ => d end.
Definition update1 : Update := (outcomeOf (GetUpdate true 0 peer1) (Update.zero, peer1)).1.
Definition peer2 : Peer reader :=
  (outcomeOf (Commit update1 (onDB reader5 (stampedMsgs peer1))) (tt, peer1)).2.

Lemma peer2_run : prun peer1 (u_CommittedEntries update1 ++ []) peer2.
Proof.
  eapply (prun_cycle true 0 reader5 peer1 update1 (stampedMsgs peer1) peer2);
    [apply peer1_holds|by vm_compute|vm_compute; reflexivity|vm_compute; reflexivity|constructor].
Qed.

Lemma applied_in_order_witness :
  ascending (nextToApply (log (p_raft peer1))) (u_CommittedEntries update1 ++ [])
    (nextToApply (log (p_raft peer2))).
Proof.
  apply (applied_in_order peer1 (u_CommittedEntries update1 ++ []) peer2);
    [apply leader1_log_rwf|apply peer2_run].
Defined.

Lemma cycles_progress_witness :
  entryLog.committed (log (p_raft peer2)) = entryLog.committed (log (p_raft peer1)) /\
  Z.min (nextToApply (log (p_raft peer1)) + Z.of_nat 1) (entryLog.committed (log (p_raft peer1)) + 1)
    <= nextToApply (log (p_raft peer2)).
Proof.
  apply (cycles_progress 1 peer1 peer2); [apply leader1_log_rwf|].
  eapply (cycles_S 0 0 reader5 peer1 update1 (stampedMsgs peer1) peer2);
    [apply peer1_holds|by vm_compute|vm_compute; reflexivity|vm_compute; reflexivity|constructor].
Defined.
