(* ===== verification/Session.v ===== *)
(** * Client sessions

    [raft/internal/rsm]: [session.go], [sessionmanager.go] and the in-memory part
    of [lrusession.go].  A session records the results of the updates of a client
    that the client has not confirmed yet, so that a repeated update is answered
    and not executed again.

    The ordered cache that holds the sessions is third-party code, so it is an
    interface with what the manager relies on; a session is reached through a
    pointer the cache returns, so assigning to it ([cache_Set]) changes the cached
    session without touching the order of eviction. *)
From S2P Require Import Prelude Raftpb.

(** [sm.Result]; a nil [Data] is [None]. *)
Record Result : Type := mkResult { Value : Z; Data : option (list Byte.byte) }.
Definition emptyResult : Result := mkResult 0 None.
Definition isEmptyResult (r : Result) : bool := bool_decide (Data r = None) && (Value r =? 0).

Record Session : Type := mkSession {
  History : gmap Z Result;
  ClientID : Z;
  RespondedUpTo : Z
}.

Definition newSession (id : Z) : Session := mkSession ∅ id 0.

Definition getResponse (id : Z) (s : Session) : option Result := History s !! id.

Definition addResponse (id : Z) (r : Result) (s : Session) : result Session :=
  match History s !! id with
  | None => OK (mkSession (<[id := r]> (History s)) (ClientID s) (RespondedUpTo s))
  | Some _ => PANIC (PanicMsg "adding a duplicated response")
  end.

Definition clearTo (to : Z) (s : Session) : Session :=
  if to <=? RespondedUpTo s then s
  else if to =? RespondedUpTo s +ᵤ 1 then mkSession (delete to (History s)) (ClientID s) to
  else mkSession (filter (fun kv => to < kv.1) (History s)) (ClientID s) to.

Definition hasResponded (id : Z) (s : Session) : bool := id <=? RespondedUpTo s.

(** ** The cache *)

Class OrderedCache (C : Type) : Type := {
  NewOrderedCache : C;
  cache_Get : Z -> C -> option Session * C;
  (** [AddEntry] with the [ShouldEvict] of [newLRUSession] for the size given *)
  cache_AddEntry : Z -> Z -> Session -> C -> C;
  cache_Del : Z -> C -> C;
  cache_Set : Z -> Session -> C -> C
}.

Class OrderedCacheSpec (C : Type) `{OrderedCache C} : Type := {
  cached : C -> gmap Z Session;
  cached_new : cached NewOrderedCache = ∅;
  cached_get k c : (cache_Get k c).1 = cached c !! k /\ cached (cache_Get k c).2 = cached c;
  cached_add size k s c : 0 < size -> cached (cache_AddEntry size k s c) !! k = Some s;
  cached_add_ne size k s c j : j <> k ->
    cached (cache_AddEntry size k s c) !! j = cached c !! j \/
    cached (cache_AddEntry size k s c) !! j = None;
  cached_add_fits size k s c : Z.of_nat (base.size (cached c)) < size -> cached c !! k = None ->
    cached (cache_AddEntry size k s c) = <[k := s]> (cached c);
  cached_del k c : cached (cache_Del k c) = delete k (cached c);
  cached_set k s c : cached (cache_Set k s c) = alter (fun _ => s) k (cached c)
}.

(** [settings.LRUMaxSessionCount] *)
Definition LRUMaxSessionCount : Z := 4096.

Section manager.
Context {C : Type} `{OrderedCache C}.

(** The session manager with its [lrusession]. *)
Record SessionManager : Type := mkSessionManager { lru_sessions : C; lru_size : Z }.

Definition NewSessionManager : SessionManager :=
  mkSessionManager NewOrderedCache LRUMaxSessionCount.

Definition set_sessions (c : C) (m : SessionManager) : SessionManager :=
  mkSessionManager c (lru_size m).

Definition getSession (key : Z) : M SessionManager (option Session) := fun m =>
  let r := cache_Get key (lru_sessions m) in Ret r.1 (set_sessions r.2 m).
Definition addSession (key : Z) (s : Session) : M SessionManager unit :=
  modify (fun m => set_sessions (cache_AddEntry (lru_size m) key s (lru_sessions m)) m).
Definition delSession (key : Z) : M SessionManager unit :=
  modify (fun m => set_sessions (cache_Del key (lru_sessions m)) m).

(** Assigning to the session of [key] through the pointer. *)
Definition setSession (key : Z) (s : Session) : M SessionManager unit :=
  modify (fun m => set_sessions (cache_Set key s (lru_sessions m)) m).

Definition checkSession (clientID : Z) (es : Session) : M SessionManager unit :=
  if negb (ClientID es =? clientID) then panicf "returned an expected session" else skip.

Definition RegisterClientID (clientID : Z) : M SessionManager Result :=
  es ← getSession clientID;
  match es with
  | Some es => checkSession clientID es ;; ret emptyResult
  | None => addSession clientID (newSession clientID) ;; ret (mkResult clientID None)
  end.

Definition UnregisterClientID (clientID : Z) : M SessionManager Result :=
  es ← getSession clientID;
  match es with
  | None => ret emptyResult
  | Some es => checkSession clientID es ;; delSession clientID ;; ret (mkResult clientID None)
  end.

Definition ClientRegistered (clientID : Z) : M SessionManager (option Session) :=
  es ← getSession clientID;
  match es with
  | Some s => checkSession clientID s ;; ret es
  | None => ret None
  end.

(** [UpdateRequired] returns the result, whether the client has confirmed it and
    whether the update is to be executed. *)
Definition UpdateRequired (s : Session) (seriesID : Z) : Result * bool * bool :=
  if hasResponded seriesID s then (emptyResult, true, false)
  else match getResponse seriesID s with
       | Some v => (v, false, false)
       | None => (emptyResult, false, true)
       end.

End manager.
Arguments SessionManager C : clear implicits.

(** ** A least-recently-used cache

    An instance of the interface: the sessions, and the keys from the most to the
    least recently used one. *)
Record lruCache : Type := mkLRU { lru_map : gmap Z Session; lru_order : list Z }.

Definition lru_touch (k : Z) (c : lruCache) : lruCache :=
  mkLRU (lru_map c) (k :: filter (fun j => j <> k) (lru_order c)).

(** The least recently used session other than that of [k]. *)
Definition lru_victim (k : Z) (c : lruCache) : option Z :=
  last (filter (fun j => j <> k /\ is_Some (lru_map c !! j)) (lru_order c)).

Definition lru_add (size : Z) (k : Z) (s : Session) (c : lruCache) : lruCache :=
  let c := lru_touch k (mkLRU (<[k := s]> (lru_map c)) (lru_order c)) in
  if size <? Z.of_nat (base.size (lru_map c)) then
    match lru_victim k c with
    | Some j => mkLRU (delete j (lru_map c)) (lru_order c)
    | None => c
    end
  else c.

#[global] Instance lruCache_cache : OrderedCache lruCache := {|
  NewOrderedCache := mkLRU ∅ [];
  cache_Get := fun k c =>
    match lru_map c !! k with Some s => (Some s, lru_touch k c) | None => (None, c) end;
  cache_AddEntry := lru_add;
  cache_Del := fun k c => mkLRU (delete k (lru_map c)) (lru_order c);
  cache_Set := fun k s c => mkLRU (alter (fun _ => s) k (lru_map c)) (lru_order c)
|}.

Lemma lru_victim_ne k c j : lru_victim k c = Some j -> j <> k.
Proof.
  unfold lru_victim. rewrite last_lookup. intros Hj. apply list_elem_of_lookup_2 in Hj.
  by apply list_elem_of_filter in Hj as [[? _] _].
Qed.

#[refine, global] Instance lruCache_spec : OrderedCacheSpec lruCache := {| cached := lru_map |}.
Proof.
  - done.
  - intros k c. simpl. by destruct (lru_map c !! k) eqn:E.
  - intros size k s c _. simpl. unfold lru_add. destruct (_ <? _).
    + destruct (lru_victim k _) as [j|] eqn:Hj; simpl.
      * apply lru_victim_ne in Hj. by rewrite lookup_delete_ne, lookup_insert_eq.
      * by rewrite lookup_insert_eq.
    + simpl. by rewrite lookup_insert_eq.
  - intros size k s c j Hne. simpl. unfold lru_add. destruct (_ <? _).
    + destruct (lru_victim k _) as [i|] eqn:Hi; simpl.
      * destruct (decide (i = j)) as [->|Hij]; [right; by rewrite lookup_delete_eq|left].
        by rewrite lookup_delete_ne, lookup_insert_ne.
      * left. by rewrite lookup_insert_ne.
    + left. simpl. by rewrite lookup_insert_ne.
  - intros size k s c Hsz Hk. simpl. unfold lru_add. simpl. rewrite map_size_insert_None by done.
    by rewrite (proj2 (Z.ltb_ge _ _)) by lia.
  - done.
  - done.
Defined.
