(* ===== verification/RsmMembership.v ===== *)
(** * Membership of a shard

    [raft/internal/rsm/membership.go]: which configuration changes are accepted
    and what they do.  Addresses are compared the way [strings.TrimSpace] and
    [strings.EqualFold] do on ASCII strings. *)
From S2P Require Import Prelude Raftpb LogDB Wire Codec.
From Stdlib Require Import Strings.Ascii Strings.String.
Import ConfigChange.

(** ** Addresses *)

Definition isSpace (c : ascii) : bool :=
  let n := Z.of_nat (nat_of_ascii c) in ((9 <=? n) && (n <=? 13)) || (n =? 32).
Definition toLower (c : ascii) : ascii :=
  let n := nat_of_ascii c in
  if ((65 <=? n) && (n <=? 90))%nat then ascii_of_nat (n + 32) else c.

Fixpoint dropSpaces (l : list ascii) : list ascii :=
  match l with
  | c :: l' => if isSpace c then dropSpaces l' else l
  | [] => []
  end.
Definition trimSpace (s : string) : list ascii :=
  rev (dropSpaces (rev (dropSpaces (list_ascii_of_string s)))).

Definition addressEqual (a b : string) : bool :=
  bool_decide (map toLower (trimSpace a) = map toLower (trimSpace b)).

(** ** State *)

Record membership : Type := mkMembership {
  members : pb.Membership;
  shardID_ : Z;
  replicaID_ : Z;
  ordered : bool
}.

Definition newMembership (shardID replicaID : Z) (ordered : bool) : membership :=
  mkMembership pb.zeroMembership shardID replicaID ordered.

Definition set_members (n : pb.Membership) (m : membership) : membership :=
  mkMembership n (shardID_ m) (replicaID_ m) (ordered m).

(** [set] copies its argument, whose removed replicas are all marked. *)
Definition membership_set (n : pb.Membership) (m : membership) : membership :=
  set_members (Membership.set_Removed ((fun _ => true) <$> pb.mb_Removed n) n) m.

Definition isEmpty (m : membership) : bool := bool_decide (pb.mb_Addresses (members m) = ∅).

(** ** The tests on a configuration change *)

Section tests.
Context (m : membership) (cc : ConfigChange).
Abbreviation id := (cc_ReplicaID cc).
Abbreviation addresses := (pb.mb_Addresses (members m)).
Abbreviation nonVotings := (pb.mb_NonVotings (members m)).
Abbreviation witnesses := (pb.mb_Witnesses (members m)).
Abbreviation has mp := (bool_decide (is_Some (mp !! id))).

Definition isUpToDate : bool :=
  if negb (ordered m) || cc_Initialize cc then true
  else pb.mb_ConfigChangeId (members m) =? cc_ConfigChangeId cc.

Definition isAdd : bool :=
  (cc_Type cc =? pb.AddNode) || (cc_Type cc =? pb.AddNonVoting) || (cc_Type cc =? pb.AddWitness).

Definition isAddRemovedNode : bool := if isAdd then has (pb.mb_Removed (members m)) else false.

Definition isPromoteNonVoting : bool :=
  if cc_Type cc =? pb.AddNode then
    match nonVotings !! id with Some oa => addressEqual oa (cc_Address cc) | None => false end
  else false.

Definition isInvalidNonVotingPromotion : bool :=
  if cc_Type cc =? pb.AddNode then
    match nonVotings !! id with
    | Some oa => negb (addressEqual oa (cc_Address cc)) | None => false end
  else false.

Definition hasAddress (mp : gmap Z string) : bool :=
  existsb (fun kv => addressEqual kv.2 (cc_Address cc)) (map_to_list mp).

Definition isAddExistingMember : bool :=
  if (cc_Type cc =? pb.AddNode) && has addresses then true
  else if (cc_Type cc =? pb.AddNonVoting) && has nonVotings then true
  else if (cc_Type cc =? pb.AddWitness) && has witnesses then true
  else if isPromoteNonVoting then false
  else isAdd && (hasAddress addresses || hasAddress nonVotings || hasAddress witnesses).

Definition isAddNodeAsNonVoting : bool :=
  if cc_Type cc =? pb.AddNonVoting then has addresses else false.
Definition isAddNodeAsWitness : bool :=
  if cc_Type cc =? pb.AddWitness then has addresses else false.
Definition isAddWitnessAsNonVoting : bool :=
  if cc_Type cc =? pb.AddNonVoting then has witnesses else false.
Definition isAddWitnessAsNode : bool :=
  if cc_Type cc =? pb.AddNode then has witnesses else false.
Definition isAddNonVotingAsWitness : bool :=
  if cc_Type cc =? pb.AddWitness then has nonVotings else false.

Definition isDeleteOnlyNode : bool :=
  if (cc_Type cc =? pb.RemoveNode) && (Z.of_nat (size addresses) =? 1) then has addresses
  else false.

Definition accepts : bool :=
  isUpToDate && negb isAddRemovedNode && negb isAddExistingMember
  && negb isAddNodeAsNonVoting && negb isAddNodeAsWitness && negb isAddWitnessAsNode
  && negb isAddWitnessAsNonVoting && negb isAddNonVotingAsWitness
  && negb isDeleteOnlyNode && negb isInvalidNonVotingPromotion.

End tests.

(** ** Applying a change *)

Definition on_members (f : pb.Membership -> pb.Membership) : M membership unit :=
  modify (fun m => set_members (f (members m)) m).

Definition apply (cc : ConfigChange) (index : Z) : M membership unit :=
  let id := cc_ReplicaID cc in
  let t := cc_Type cc in
  on_members (Membership.set_ConfigChangeId index) ;;
  m ← gets members;
  if t =? pb.AddNode then
    on_members (fun n => Membership.set_NonVotings (delete id (pb.mb_NonVotings n)) n) ;;
    if decide (is_Some (pb.mb_Witnesses m !! id)) then panicf "not suppose to reach here"
    else on_members (fun n =>
      Membership.set_Addresses (<[id := cc_Address cc]> (pb.mb_Addresses n)) n)
  else if t =? pb.AddNonVoting then
    if decide (is_Some (pb.mb_Addresses m !! id)) then panicf "not suppose to reach here"
    else on_members (fun n =>
      Membership.set_NonVotings (<[id := cc_Address cc]> (pb.mb_NonVotings n)) n)
  else if t =? pb.AddWitness then
    if decide (is_Some (pb.mb_Addresses m !! id)) then panicf "not suppose to reach here"
    else if decide (is_Some (pb.mb_NonVotings m !! id)) then panicf "not suppose to reach here"
    else on_members (fun n =>
      Membership.set_Witnesses (<[id := cc_Address cc]> (pb.mb_Witnesses n)) n)
  else if t =? pb.RemoveNode then
    on_members (fun n =>
      Membership.set_Removed (<[id := true]> (pb.mb_Removed n))
        (Membership.set_Witnesses (delete id (pb.mb_Witnesses n))
          (Membership.set_NonVotings (delete id (pb.mb_NonVotings n))
            (Membership.set_Addresses (delete id (pb.mb_Addresses n)) n))))
  else panicf "unknown config change type".

Definition handleConfigChange (cc : ConfigChange) (index : Z) : M membership bool :=
  m ← gets (fun m => m);
  if accepts m cc then apply cc index ;; ret true else ret false.

(** ** What a membership keeps

    A replica has one role, and a removed replica has none. *)
Record mwf (m : pb.Membership) : Prop := {
  mw_an : dom (pb.mb_Addresses m) ## dom (pb.mb_NonVotings m);
  mw_aw : dom (pb.mb_Addresses m) ## dom (pb.mb_Witnesses m);
  mw_nw : dom (pb.mb_NonVotings m) ## dom (pb.mb_Witnesses m);
  mw_removed : dom (pb.mb_Removed m) ##
    dom (pb.mb_Addresses m) ∪ dom (pb.mb_NonVotings m) ∪ dom (pb.mb_Witnesses m)
}.

(** The replicas that vote: the voting members and the witnesses. *)
Definition voters (m : pb.Membership) : gset Z :=
  dom (pb.mb_Addresses m) ∪ dom (pb.mb_Witnesses m).

Definition known (cc : ConfigChange) : Prop := 0 <= cc_Type cc <= 3.

(** The membership an accepted change leads to. *)
Definition changed (cc : ConfigChange) (index : Z) (m : pb.Membership) : pb.Membership :=
  let id := cc_ReplicaID cc in
  let a := pb.mb_Addresses m in
  let n := pb.mb_NonVotings m in
  let w := pb.mb_Witnesses m in
  if cc_Type cc =? pb.AddNode then
    pb.mkMembership index (<[id := cc_Address cc]> a) (pb.mb_Removed m) (delete id n) w
  else if cc_Type cc =? pb.AddNonVoting then
    pb.mkMembership index a (pb.mb_Removed m) (<[id := cc_Address cc]> n) w
  else if cc_Type cc =? pb.AddWitness then
    pb.mkMembership index a (pb.mb_Removed m) n (<[id := cc_Address cc]> w)
  else
    pb.mkMembership index (delete id a) (<[id := true]> (pb.mb_Removed m)) (delete id n)
      (delete id w).

(** What acceptance says of the replica of the change. *)
Record admissible (cc : ConfigChange) (m : pb.Membership) : Prop := {
  ad_removed : cc_Type cc <> pb.RemoveNode -> cc_ReplicaID cc ∉ dom (pb.mb_Removed m);
  ad_address : cc_Type cc <> pb.RemoveNode -> cc_ReplicaID cc ∉ dom (pb.mb_Addresses m);
  ad_witness : cc_Type cc <> pb.RemoveNode -> cc_ReplicaID cc ∉ dom (pb.mb_Witnesses m);
  ad_nonVoting : cc_Type cc <> pb.RemoveNode -> cc_Type cc <> pb.AddNode ->
    cc_ReplicaID cc ∉ dom (pb.mb_NonVotings m);
  ad_promoted oa : cc_Type cc = pb.AddNode ->
    pb.mb_NonVotings m !! cc_ReplicaID cc = Some oa -> addressEqual oa (cc_Address cc) = true;
  ad_last : cc_Type cc = pb.RemoveNode -> cc_ReplicaID cc ∈ dom (pb.mb_Addresses m) ->
    size (pb.mb_Addresses m) <> 1%nat
}.

Lemma known_cases cc : known cc ->
  cc_Type cc = pb.AddNode \/ cc_Type cc = pb.RemoveNode \/
  cc_Type cc = pb.AddNonVoting \/ cc_Type cc = pb.AddWitness.
Proof. unfold known, pb.AddNode, pb.RemoveNode, pb.AddNonVoting, pb.AddWitness. lia. Qed.

Lemma accepts_admissible m cc : known cc -> accepts m cc = true -> admissible cc (members m).
Proof.
  intros Hk H.
  unfold accepts, isAddRemovedNode, isAddExistingMember, isAddNodeAsNonVoting,
    isAddNodeAsWitness, isAddWitnessAsNode, isAddWitnessAsNonVoting,
    isAddNonVotingAsWitness, isDeleteOnlyNode, isInvalidNonVotingPromotion, isAdd in H.
  apply known_cases in Hk as [E | [E | [E | E]]]; rewrite E in H; cbn in H;
    rewrite ?andb_true_iff, ?negb_true_iff in H; destruct_and?.
  all: split; rewrite E; try done; intros; rewrite ?elem_of_dom, ?not_elem_of_dom in *.
  all: repeat case_bool_decide; simplify_eq/=; try done;
    rewrite ?eq_None_not_Some; try tauto; try congruence.
  all: try match goal with E : ?mp !! _ = Some _, H : context [?mp !! _] |- _ =>
         rewrite E in H; cbn in H; by destruct (addressEqual _ _) end.
  all: try (intros Hs; by rewrite Hs in *).
Qed.

(** The four types of a change, with the hypotheses guarded by the type released. *)
Ltac by_type Hk :=
  let E := fresh "E" in
  apply known_cases in Hk as [E | [E | [E | E]]]; rewrite E in *; cbn in *;
  repeat match goal with H : _ <> _ -> _ |- _ =>
    specialize (H ltac:(unfold pb.AddNode, pb.RemoveNode, pb.AddNonVoting, pb.AddWitness; lia))
  end;
  repeat match goal with H : ?t <> ?t -> _ |- _ => clear H end.

Lemma apply_changed cc index m : known cc -> admissible cc (members m) ->
  apply cc index m = Ret tt (set_members (changed cc index (members m)) m).
Proof.
  intros Hk [_ A W N _ _]. destruct m as [[ci a r n w] sh re o]; cbn in *.
  unfold apply, changed, on_members, modify, gets, panicf, mbind, M_bind; cbn.
  rewrite !elem_of_dom in *.
  by_type Hk; repeat case_decide; done.
Qed.

Lemma handleConfigChange_eq cc index m : known cc ->
  handleConfigChange cc index m =
    if accepts m cc then Ret true (set_members (changed cc index (members m)) m)
    else Ret false m.
Proof.
  intros Hk. unfold handleConfigChange, gets, ret, mbind, M_bind; cbn.
  destruct (accepts m cc) eqn:E; [|done].
  by rewrite apply_changed by auto using accepts_admissible.
Qed.

Lemma changed_mwf cc index m : known cc -> admissible cc m -> mwf m -> mwf (changed cc index m).
Proof.
  intros Hk [R A W N _ _] [? ? ? ?]. unfold changed.
  by_type Hk; split; cbn; rewrite ?dom_insert_L, ?dom_delete_L; set_solver.
Qed.

Lemma changed_nonempty cc index m : known cc -> admissible cc m ->
  pb.mb_Addresses m <> ∅ -> pb.mb_Addresses (changed cc index m) <> ∅.
Proof.
  intros Hk Ha Hm. pose proof (ad_last _ _ Ha) as L. unfold changed.
  apply known_cases in Hk as [E | [E | [E | E]]]; rewrite E in *; cbn in *; try done.
  - apply insert_non_empty.
  - intros H0. specialize (L eq_refl). rewrite elem_of_dom in L.
    destruct (pb.mb_Addresses m !! cc_ReplicaID cc) as [v|] eqn:Ei.
    + apply L; [eauto|].
      rewrite <- (insert_delete_id _ _ _ Ei), H0, insert_empty, map_size_singleton. done.
    + rewrite delete_id in H0 by done. done.
Qed.

(** ** Majorities *)

Definition majority (q v : gset Z) : Prop := q ⊆ v /\ (size v < 2 * size q)%nat.

Lemma size_one_more (v v' : gset Z) x : v ⊆ v' ∪ {[x]} -> (size v <= size v' + 1)%nat.
Proof.
  intros H. transitivity (size (v' ∪ {[x]})); [by apply subseteq_size|].
  rewrite size_union_alt, <- (size_singleton (C := gset Z) x). apply Nat.add_le_mono_l, subseteq_size.
  set_solver.
Qed.

Lemma majority_overlap (v v' q q' : gset Z) x :
  v' ⊆ v ∪ {[x]} -> v ⊆ v' ∪ {[x]} -> majority q v -> majority q' v' -> q ∩ q' <> ∅.
Proof.
  intros H1 H2 [Hq Sq] [Hq' Sq'] H0.
  assert (Hu : (size q + size q' <= size (v ∪ v'))%nat).
  { rewrite <- size_union by set_solver. apply subseteq_size. set_solver. }
  apply size_one_more in H1 as L1. apply size_one_more in H2 as L2.
  destruct (decide (x ∈ v)) as [Hx | Hx].
  - replace (v ∪ v') with v in Hu by set_solver. lia.
  - replace (v ∪ v') with v' in Hu by set_solver. lia.
Qed.

Lemma changed_voters cc index m : known cc -> admissible cc m ->
  voters (changed cc index m) ⊆ voters m ∪ {[cc_ReplicaID cc]} /\
  voters m ⊆ voters (changed cc index m) ∪ {[cc_ReplicaID cc]}.
Proof.
  intros Hk _. unfold voters, changed.
  by_type Hk; rewrite ?dom_insert_L, ?dom_delete_L;
    (split; intros j; destruct (decide (j = cc_ReplicaID cc)); set_solver).
Qed.

Lemma changed_removed cc index m : known cc ->
  dom (pb.mb_Removed m) ⊆ dom (pb.mb_Removed (changed cc index m)) /\
  (cc_Type cc = pb.RemoveNode -> cc_ReplicaID cc ∈ dom (pb.mb_Removed (changed cc index m))).
Proof.
  intros Hk. unfold changed.
  by_type Hk; rewrite ?dom_insert_L; split; try done; set_solver.
Qed.

(** A replica that has a role. *)
Definition isMember (id : Z) (m : pb.Membership) : Prop :=
  id ∈ dom (pb.mb_Addresses m) ∪ dom (pb.mb_NonVotings m) ∪ dom (pb.mb_Witnesses m).

(** A sequence of changes with the indexes of their entries. *)
Definition handleConfigChanges (l : list (ConfigChange * Z)) : M membership unit :=
  forM_ l (fun ci => handleConfigChange ci.1 ci.2 ;; skip).

Lemma handleConfigChange_wp X cc index m (Q : bool -> membership -> Prop) E : known cc ->
  (accepts m cc = false -> Q false m) ->
  (accepts m cc = true -> admissible cc (members m) ->
   Q true (set_members (changed cc index (members m)) m)) ->
  wp X (handleConfigChange cc index) Q E m.
Proof.
  intros Hk H0 H1. unfold wp. rewrite handleConfigChange_eq by done.
  destruct (accepts m cc) eqn:Ea; auto using accepts_admissible.
Qed.

(** What every sequence of changes keeps: roles are disjoint, there is a voting member,
    and nobody leaves the set of removed replicas. *)
Definition keepsShard (m m' : membership) : Prop :=
  mwf (members m') /\ pb.mb_Addresses (members m') <> ∅ /\
  dom (pb.mb_Removed (members m)) ⊆ dom (pb.mb_Removed (members m')).

Lemma handleConfigChanges_keeps l (m : membership) :
  Forall (fun ci => known ci.1) l -> mwf (members m) -> pb.mb_Addresses (members m) <> ∅ ->
  exists m', handleConfigChanges l m = Ret tt m' /\ keepsShard m m'.
Proof.
  intros Hl Hm Hn.
  assert (H : wp no_panic (handleConfigChanges l) (fun _ => keepsShard m) (fun _ _ => False) m).
  { apply wp_forM; [by split_and!|]. intros [cc i] m1 Hin (W & N & R).
    rewrite Forall_forall in Hl. specialize (Hl _ Hin). cbn in *.
    apply wp_bind, handleConfigChange_wp; [done | by intros _; split_and! |].
    intros _ Ha. apply wp_ret. unfold keepsShard; cbn.
    split_and!; [by apply changed_mwf | by apply changed_nonempty |].
    etrans; [exact R | by apply changed_removed]. }
  unfold wp in H. destruct (handleConfigChanges l m) as [[] m'|?|?]; [eauto|done..].
Qed.

Lemma handleConfigChanges_app l l' (m m1 : membership) :
  handleConfigChanges l m = Ret tt m1 ->
  handleConfigChanges (l ++ l') m = handleConfigChanges l' m1.
Proof.
  revert m. induction l as [|ci l IH]; intros m; cbn; [by intros [= ->]|].
  unfold mbind, M_bind. destruct (handleConfigChange ci.1 ci.2 m) as [b m2|?|?]; [|done..]. apply IH.
Qed.

Lemma handleConfigChanges_cons cc index l b (m m1 : membership) :
  handleConfigChange cc index m = Ret b m1 ->
  handleConfigChanges ((cc, index) :: l) m = handleConfigChanges l m1.
Proof.
  intros H. unfold handleConfigChanges. cbn [forM_ fst snd].
  unfold mbind at 1, M_bind at 1. unfold mbind at 1, M_bind at 1. by rewrite H.
Qed.

Lemma removed_not_member id m m' :
  keepsShard m m' -> id ∈ dom (pb.mb_Removed (members m)) ->
  id ∈ dom (pb.mb_Removed (members m')) /\ ~ isMember id (members m').
Proof.
  intros (W & _ & R) Hid%R. split; [done|]. pose proof (mw_removed _ W) as D.
  unfold isMember. set_solver.
Qed.

(** C23: whatever configuration changes of the four known types are committed, in
    whatever order, [handleConfigChange] handles them all without panicking and keeps
    the membership well formed: every replica has one role only and there is still a
    voting member.  A replica that is recorded as removed, or whose removal is accepted
    anywhere in the sequence, is recorded as removed at the end and has no role. *)
Theorem membership_changes (l : list (ConfigChange * Z)) (m : membership) :
  Forall (fun ci => known ci.1) l -> mwf (members m) -> pb.mb_Addresses (members m) <> ∅ ->
  exists m', handleConfigChanges l m = Ret tt m' /\ mwf (members m') /\
    pb.mb_Addresses (members m') <> ∅ /\
    (forall id, id ∈ dom (pb.mb_Removed (members m)) ->
      id ∈ dom (pb.mb_Removed (members m')) /\ ~ isMember id (members m')) /\
    (forall l1 cc index l2 m1 m2, l = l1 ++ (cc, index) :: l2 ->
      handleConfigChanges l1 m = Ret tt m1 -> handleConfigChange cc index m1 = Ret true m2 ->
      cc_Type cc = pb.RemoveNode ->
      cc_ReplicaID cc ∈ dom (pb.mb_Removed (members m')) /\ ~ isMember (cc_ReplicaID cc) (members m')).
Proof.
  intros Hl Hm Hn. destruct (handleConfigChanges_keeps l m Hl Hm Hn) as (m' & Hr & Hk).
  exists m'. split_and!; [done|apply Hk|apply Hk|by intros id; apply removed_not_member|].
  intros l1 cc index l2 m1 m2 -> H1 H2 Ht. apply Forall_app in Hl as [Hl1 Hl2].
  apply Forall_cons in Hl2 as [Hc Hl2]. cbn in Hc.
  destruct (handleConfigChanges_keeps l1 m Hl1 Hm Hn) as (m1' & E & W1 & N1 & _).
  rewrite H1 in E. injection E as <-.
  rewrite (handleConfigChanges_app _ _ _ _ H1), (handleConfigChanges_cons _ _ _ _ _ _ H2) in Hr.
  rewrite handleConfigChange_eq in H2 by done.
  destruct (accepts m1 cc) eqn:Ea; [|done]. injection H2 as <-. apply accepts_admissible in Ea; [|done].
  destruct (handleConfigChanges_keeps l2 (set_members (changed cc index (members m1)) m1)) as (m'' & E & Hk2);
    [done|by apply changed_mwf|by apply changed_nonempty|].
  rewrite Hr in E. injection E as <-.
  eapply removed_not_member; [exact Hk2|]. by apply changed_removed.
Qed.

(** C22: an accepted configuration change moves between voting configurations whose
    majorities intersect, so no two disjoint groups of replicas can commit entries
    or elect a leader across the change. *)
Theorem change_majorities (cc : ConfigChange) (index : Z) (m m' : membership) (q q' : gset Z) :
  known cc -> handleConfigChange cc index m = Ret true m' ->
  majority q (voters (members m)) -> majority q' (voters (members m')) -> q ∩ q' <> ∅.
Proof.
  intros Hk H Hq Hq'. rewrite handleConfigChange_eq in H by done.
  destruct (accepts m cc) eqn:Ea; [|done]. simplify_eq.
  destruct (changed_voters cc index (members m) Hk) as [H1 H2]; [by apply accepts_admissible|].
  by eapply (majority_overlap (voters (members m))).
Qed.

(** ** A shard of three replicas *)

Definition shard3 : membership :=
  mkMembership (pb.mkMembership 3 {[1 := "a1"; 2 := "a2"; 3 := "a3"]} {[9 := true]} ∅ ∅) 1 1 false.
Definition removeSecond : ConfigChange := mkConfigChange 0 pb.RemoveNode 2 "" false.
Definition addSecond : ConfigChange := mkConfigChange 0 pb.AddNode 2 "a2" false.
Definition addFourth : ConfigChange := mkConfigChange 0 pb.AddNode 4 "a4" false.
Definition shard4 : membership := set_members (changed addFourth 7 (members shard3)) shard3.

Lemma shard3_mwf : mwf (members shard3).
Proof. split; apply (bool_decide_unpack _); by vm_compute. Qed.

(** Replica 2 is removed, and the attempt to add it again fails. *)
Lemma membership_changes_witness :
  exists m', handleConfigChanges [(removeSecond, 4); (addSecond, 5); (addFourth, 6)] shard3 = Ret tt m' /\
    2 ∈ dom (pb.mb_Removed (members m')) /\ ~ isMember 2 (members m') /\ ~ isMember 9 (members m').
Proof.
  destruct (membership_changes [(removeSecond, 4); (addSecond, 5); (addFourth, 6)] shard3)
    as (m' & Hr & _ & _ & Hold & Hnew); [| exact shard3_mwf | done |].
  - rewrite !Forall_cons, Forall_nil. split_and!; done || (vm_compute; discriminate).
  - exists m'. split; [done|]. destruct (Hold 9) as [_ H9]; [by vm_compute|].
    destruct (Hnew [] removeSecond 4 [(addSecond, 5); (addFourth, 6)] shard3
      (set_members (changed removeSecond 4 (members shard3)) shard3)) as [H2 H2']; [done..|by vm_compute|done|].
    by split_and!.
Defined.

Lemma change_majorities_witness : ({[1; 2]} : gset Z) ∩ {[2; 3; 4]} <> ∅.
Proof.
  apply (change_majorities addFourth 7 shard3 shard4);
    [split; vm_compute; discriminate | by vm_compute | split | split];
    (apply (bool_decide_unpack _); by vm_compute) || (vm_compute; lia).
Defined.
