(* ===== verification/Encoded.v ===== *)
(** * Encoded entries

    [raft/internal/rsm/encoded.go] and the block functions of
    [raft/internal/utils/dio/io.go]: the payload of an entry, which an entry of
    type [EncodedEntry] carries behind a header and possibly compressed.

    [github.com/golang/snappy] is third-party code, so it is an interface with
    what its documentation says: the length of an encoded block is bounded, a
    block starts with the uncompressed length as a varint, and decoding inverts
    encoding. *)
From S2P Require Import Prelude Raftpb LogDB Wire.
From Stdlib Require Import Strings.Byte.

Inductive CompressionType : Type := NoCompression | Snappy | OtherCompression (n : Z).

(** [binary.Uvarint]: the value and the number of bytes read; 0 bytes when the
    buffer is too small, a negative number on overflow. *)
Fixpoint uvarintF (buf : bytes) (i x s : Z) : Z * Z :=
  match buf with
  | [] => (0, 0)
  | b :: buf' =>
      if i =? 10 then (0, - (i + 1))
      else if byteZ b <? 0x80 then
        if (i =? 9) && (1 <? byteZ b) then (0, - (i + 1))
        else (Z.lor x (u64 (Z.shiftl (byteZ b) s)), i + 1)
      else uvarintF buf' (i + 1) (Z.lor x (u64 (Z.shiftl (Z.land (byteZ b) 0x7f) s))) (s + 7)
  end.
Definition Uvarint (buf : bytes) : Z * Z := uvarintF buf 0 0 0.

(** ** Snappy blocks *)

Class SnappyLib : Type := {
  snappy_MaxEncodedLen : Z -> Z;
  snappy_Encode : bytes -> bytes;
  (** the decoded block, for a destination of the given length, and the error *)
  snappy_Decode : Z -> bytes -> bytes * option error
}.

Definition MaxBlockLen (ct : CompressionType) : Z :=
  match ct with Snappy => 6 * (0xffffffff - 32) / 7 | _ => W64 - 1 end.

Section dio.
Context `{SnappyLib}.

Definition MaxEncodedLen (ct : CompressionType) (srcLen : Z) : result (Z * bool) :=
  match ct with
  | Snappy =>
      if MaxBlockLen ct <? srcLen then OK (0, false)
      else let sz := snappy_MaxEncodedLen srcLen in
           if sz =? -1 then OK (0, false) else OK (u64 sz, true)
  | _ => PANIC (PanicMsg "not supported compression type")
  end.

(** The block, of which the code returns the length having stored it in [dst]. *)
Definition CompressSnappyBlock (src : bytes) (dstLen : Z) : result bytes :=
  let r := snappy_Encode src in
  if dstLen <? len r then PANIC (PanicMsg "dst length is too small") else OK r.

Definition DecompressSnappyBlock (src : bytes) (dstLen : Z) : result bytes :=
  let (r, err) := snappy_Decode dstLen src in
  if negb (len r =? dstLen) then PANIC (PanicMsg "corrupted decodedLen in header")
  else match err with Some e => ERR e | None => OK r end.
End dio.

(** ** Headers *)

Definition EEHeaderSize : Z := 1.
Definition EEV0 : Z := 0.
Definition EENoCompression : Z := 0.
Definition EESnappy : Z := 2.
Definition EENoSession : Z := 0.
Definition EEHasSession : Z := 1.
Definition EEV0SizeOffset : Z := 1.

Definition getEncodedHeader (version cf : Z) (session : bool) : Z :=
  Z.lor (Z.lor (Z.lor 0 version) cf) (if session then EEHasSession else EENoSession).

Definition parseEncodedHeader (cmd : bytes) : result (Z * Z * bool) :=
  match cmd with
  | [] => PANIC IndexOutOfRange
  | h :: _ =>
      let h := byteZ h in
      OK (Z.land h 0xf0, Z.land h 0x0e, Z.land h 1 =? 1)
  end.

(** ** Payloads *)

(** [copy(dst, src)] *)
Definition copyTo (dst src : bytes) : bytes := takeZ (len dst) src ++ dropZ (len src) dst.

(** [cmd[i:]] *)
Definition sliceFrom (cmd : bytes) (i : Z) : result bytes :=
  if len cmd <? i then PANIC IndexOutOfRange else OK (dropZ i cmd).

Section payload.
Context `{SnappyLib}.

Definition getEncoded (ct : CompressionType) (cmd dst : bytes) : result bytes :=
  match ct with
  | NoCompression =>
      let dst := if len dst <? len cmd + 1 then replicate (Z.to_nat (len cmd + 1)) x00 else dst in
      let dst := toByte (getEncodedHeader EEV0 EENoCompression false) :: copyTo (dropZ 1 dst) cmd in
      OK (takeZ (len cmd + 1) dst)
  | Snappy =>
      '(maxSize, ok) ← MaxEncodedLen Snappy (len cmd);
      if negb ok then PANIC (PanicMsg "invalid payload length")
      else
        let maxSize := maxSize +ᵤ 1 in
        let dstLen := if len dst <? maxSize then maxSize else len dst in
        block ← CompressSnappyBlock cmd (dstLen - 1);
        OK (toByte (getEncodedHeader EEV0 EESnappy false) :: block)
  | OtherCompression _ => PANIC (PanicMsg "unknown compression type")
  end.

Definition GetEncoded (ct : CompressionType) (cmd dst : bytes) : result bytes :=
  if len cmd =? 0 then PANIC (PanicMsg "empty payload") else getEncoded ct cmd dst.

Definition getV0NoCompressPayload (cmd : bytes) : result bytes := sliceFrom cmd EEHeaderSize.
Definition getV0PayloadUncompressedSize (cmd : bytes) : result (Z * Z) :=
  rest ← sliceFrom cmd EEV0SizeOffset; OK (Uvarint rest).

(** The buffer passed by [GetPayload] is nil, so the result is a new slice. *)
Definition getDecodedPayload (cmd : bytes) : result bytes :=
  '(ver, ct, hasSession) ← parseEncodedHeader cmd;
  if ver =? EEV0 then
    if hasSession : bool then PANIC (PanicMsg "v0 cmd has session info")
    else if ct =? EENoCompression then getV0NoCompressPayload cmd
    else if ct =? EESnappy then
      '(sz, offset) ← getV0PayloadUncompressedSize cmd;
      if sz =? 0 then PANIC (PanicMsg "empty uncompressed size found")
      else if offset =? 0 then PANIC (PanicMsg "zero offset found")
      else compressed ← sliceFrom cmd EEV0SizeOffset; DecompressSnappyBlock compressed sz
    else PANIC (PanicMsg "unknown compression type")
  else PANIC (PanicMsg "unknown cmd encoding version").

Definition GetPayload (e : pb.Entry) : result bytes :=
  match pb.e_Type e with
  | pb.ApplicationEntry | pb.ConfigChangeEntry => OK (pb.e_Cmd e)
  | pb.EncodedEntry => getDecodedPayload (pb.e_Cmd e)
  | _ => PANIC (PanicMsg "unknown entry type")
  end.
End payload.
