(* ===== verification/EncodedSpec.v ===== *)
(** * Payloads survive encoding

    What the code relies on of the compression library, an instance of it, and
    the round trip of a payload through the encoded form of an entry. *)
From S2P Require Import Prelude Raftpb LogDB Wire WireSpec CodecSpec Encoded.
From Stdlib Require Import Strings.Byte.

Class SnappySpec `{SnappyLib} : Prop := {
  snappy_max n : 0 <= n <= MaxBlockLen Snappy -> 0 <= snappy_MaxEncodedLen n < 2 ^ 33;
  snappy_len src : len src <= MaxBlockLen Snappy ->
    len (snappy_Encode src) <= snappy_MaxEncodedLen (len src);
  snappy_header src : len src <= MaxBlockLen Snappy ->
    exists n, 0 < n /\ Uvarint (snappy_Encode src) = (len src, n);
  snappy_decode src : len src <= MaxBlockLen Snappy ->
    snappy_Decode (len src) (snappy_Encode src) = (src, None)
}.

(** ** Reading a varint *)

Lemma uvarintF_spec fuel v : forall i x rest,
  (0 < fuel)%nat -> i = 10 - Z.of_nat fuel -> 0 <= i -> 0 <= x < 2 ^ (7 * i) ->
  0 <= v < 2 ^ (64 - 7 * i) ->
  uvarintF (varintBytes fuel v ++ rest) i x (7 * i) =
    (x + v * 2 ^ (7 * i), i + len (varintBytes fuel v)).
Proof.
  revert v. induction fuel as [|fuel IH]; intros v i x rest Hf Hi Hi0 Hx Hv; [lia|].
  assert (0 < 2 ^ (7 * i)) as Hp by (apply Z.pow_pos_nonneg; lia).
  assert (Hw : 2 ^ (64 - 7 * i) * 2 ^ (7 * i) = W64) by (rewrite <- Z.pow_add_r by lia; by replace (64 - 7 * i + 7 * i) with 64 by lia).
  pose proof (Z.div_mod v 128 ltac:(lia)) as Hdm. pose proof (Z.mod_pos_bound v 128 ltac:(lia)).
  rewrite varintBytes_step by lia.
  destruct (Z.leb_spec 128 v); cbn [app uvarintF]; rewrite (proj2 (Z.eqb_neq i 10)) by lia;
    rewrite byteZ_toByte_small by lia.
  - rewrite (proj2 (Z.ltb_ge _ _)) by lia.
    assert (i < 9) as Hi9.
    { destruct (Z.lt_ge_cases i 9); [done|]. assert (i = 9) as -> by lia. cbn in Hv. lia. }
    rewrite land_127.
    replace ((v mod 128 + 128) mod 128) with (v mod 128)
      by (rewrite <- (Z.mul_1_l 128) at 3; rewrite Z.mod_add, Z.mod_mod by lia; done).
    assert (Hs : 0 <= v mod 128 * 2 ^ (7 * i) < W64) by nia.
    unfold u64. rewrite Z.mod_small, lor_shiftl by (rewrite ?Z.shiftl_mul_pow2; lia).
    assert (Hp7 : 2 ^ (7 * i + 7) = 128 * 2 ^ (7 * i)) by (rewrite Z.pow_add_r; lia).
    assert (Hq : 2 ^ (64 - 7 * i) = 128 * 2 ^ (64 - 7 * (i + 1))).
    { change 128 with (2 ^ 7). rewrite <- Z.pow_add_r by lia. f_equal. lia. }
    replace (7 * i + 7) with (7 * (i + 1)) in * by lia.
    rewrite IH; [| lia | lia | lia | rewrite Hp7; nia | nia].
    rewrite Hp7, len_cons. f_equal; nia.
  - rewrite (proj2 (Z.ltb_lt _ _)) by lia.
    assert (Hs : 0 <= v * 2 ^ (7 * i) < W64) by nia.
    assert ((i =? 9) && (1 <? v) = false) as ->.
    { destruct (Z.eqb_spec i 9) as [-> |]; [|done]. apply Z.ltb_ge. cbn in Hv. lia. }
    unfold u64. rewrite Z.mod_small, lor_shiftl by (rewrite ?Z.shiftl_mul_pow2; lia). done.
Qed.

Lemma Uvarint_varint v rest : 0 <= v < W64 -> Uvarint (varint v ++ rest) = (v, len (varint v)).
Proof.
  intros Hv. unfold Uvarint, varint.
  etransitivity; [apply (uvarintF_spec 10 v 0 0 rest); lia | f_equal; lia].
Qed.

(** ** Round trip *)

Section roundtrip.
Context `{SnappySpec}.

Lemma sliceFrom_1 b l : sliceFrom (b :: l) 1 = OK l.
Proof.
  unfold sliceFrom. rewrite len_cons, (proj2 (Z.ltb_ge _ _)) by (pose proof (len_nonneg l); lia).
  done.
Qed.

Lemma decode_plain cmd : getDecodedPayload (x00 :: cmd) = OK cmd.
Proof. apply sliceFrom_1. Qed.

Lemma decode_snappy cmd : 0 < len cmd <= MaxBlockLen Snappy ->
  getDecodedPayload (x02 :: snappy_Encode cmd) = OK cmd.
Proof.
  intros Hc. destruct (snappy_header cmd) as (n & Hn & Hu); [lia|].
  unfold getDecodedPayload, getV0PayloadUncompressedSize, EEV0SizeOffset, mbind, result_bind.
  rewrite sliceFrom_1, Hu. simpl parseEncodedHeader. cbv beta iota.
  rewrite (proj2 (Z.eqb_neq (len cmd) 0)), (proj2 (Z.eqb_neq n 0)) by lia.
  unfold DecompressSnappyBlock. rewrite snappy_decode, !Z.eqb_refl by lia.
  by change (Z.land (byteZ x02) 0x0e) with 2.
Qed.

Lemma encode_plain cmd dst : getEncoded NoCompression cmd dst = OK (x00 :: cmd).
Proof.
  unfold getEncoded, copyTo; cbv zeta. f_equal.
  set (d := if len dst <? len cmd + 1 then _ else dst).
  assert (Hd : len cmd + 1 <= len d).
  { unfold d. pose proof (len_nonneg cmd). destruct (Z.ltb_spec (len dst) (len cmd + 1)); [|done].
    unfold len at 2. rewrite length_replicate. lia. }
  assert (Hl : len (dropZ 1 d) = len d - 1).
  { unfold dropZ, len. rewrite length_drop. unfold len in Hd. lia. }
  unfold takeZ. replace (Z.to_nat (len cmd + 1)) with (S (length cmd)) by (unfold len; lia).
  rewrite firstn_cons, (take_ge cmd) by (unfold len in *; lia). by rewrite take_app_length.
Qed.

Lemma encode_snappy cmd dst : len cmd <= MaxBlockLen Snappy ->
  getEncoded Snappy cmd dst = OK (x02 :: snappy_Encode cmd).
Proof.
  intros Hc. pose proof (snappy_max (len cmd)) as Hm. pose proof (snappy_len cmd Hc) as Hs.
  pose proof (len_nonneg cmd). specialize (Hm ltac:(lia)).
  unfold getEncoded, MaxEncodedLen. rewrite (proj2 (Z.ltb_ge _ _)) by lia.
  rewrite (proj2 (Z.eqb_neq _ _)) by lia. cbn.
  assert (Hw : u64 (snappy_MaxEncodedLen (len cmd)) +ᵤ 1 = snappy_MaxEncodedLen (len cmd) + 1) by lia64.
  rewrite Hw. unfold CompressSnappyBlock.
  rewrite (proj2 (Z.ltb_ge _ _)); [done|].
  destruct (Z.ltb_spec (len dst) (snappy_MaxEncodedLen (len cmd) + 1)); lia.
Qed.

(** A non-empty payload put into an encoded entry, compressed or not and
    whatever buffer is passed, is what the state machine is given when the entry
    is applied. *)
Theorem payload_roundtrip (ct : CompressionType) (cmd dst : bytes) (e : pb.Entry) :
  0 < len cmd <= MaxBlockLen Snappy -> ct = NoCompression \/ ct = Snappy ->
  pb.e_Type e = pb.EncodedEntry -> GetEncoded ct cmd dst = OK (pb.e_Cmd e) ->
  GetPayload e = OK cmd.
Proof.
  intros Hc Hct Ht Hg. unfold GetPayload. rewrite Ht. unfold GetEncoded in Hg.
  rewrite (proj2 (Z.eqb_neq _ _)) in Hg by lia.
  destruct Hct as [-> | ->].
  - rewrite encode_plain in Hg. injection Hg as <-. apply decode_plain.
  - rewrite encode_snappy in Hg by lia. injection Hg as <-. by apply decode_snappy.
Qed.
End roundtrip.

(** ** A library that stores blocks uncompressed *)

#[global] Instance storedSnappy : SnappyLib := {
  snappy_MaxEncodedLen n := 32 + n + n / 6;
  snappy_Encode src := varint (len src) ++ src;
  snappy_Decode _ block := (dropZ (Uvarint block).2 block, None)
}.

#[global] Instance storedSnappy_spec : SnappySpec.
Proof.
  assert (Hb : MaxBlockLen Snappy = 3681400511) by done.
  split; rewrite Hb; cbn [snappy_MaxEncodedLen snappy_Encode snappy_Decode storedSnappy].
  - intros n Hn. pose proof (Z.div_le_upper_bound n 6 3681400511). pose proof (Z.div_pos n 6). lia.
  - intros src Hs. pose proof (len_nonneg src). pose proof (Z.div_pos (len src) 6).
    rewrite len_app, <- sovRaft_spec by lia. pose proof (sov_pos (len src)). lia.
  - intros src Hs. pose proof (len_nonneg src). exists (len (varint (len src))). split.
    + rewrite <- sovRaft_spec by lia. pose proof (sov_pos (len src)). lia.
    + apply Uvarint_varint. lia.
  - intros src Hs. pose proof (len_nonneg src). rewrite Uvarint_varint by lia.
    unfold dropZ. cbn [snd]. replace (Z.to_nat _) with (length (varint (len src)))
      by (unfold len at 2; by rewrite Nat2Z.id). by rewrite drop_app_length.
Qed.

Lemma payload_roundtrip_witness :
  GetPayload (pb.mkEntry 1 1 pb.EncodedEntry 1 1 1 0 [x02; x03; x07; x08; x09])
    = OK [x07; x08; x09].
Proof. apply (payload_roundtrip Snappy _ []); [done | by right | done | by vm_compute]. Defined.
