(* ===== verification/TaskQueue.v ===== *)
(** * The task queue of a state machine

    [raft/internal/rsm/taskqueue.go] with the [Task] and [SSRequest] types of
    [statemachine.go].  The slice of tasks has the capacity the runtime gives it,
    since [resize] looks at it. *)
From S2P Require Import Prelude Raftpb LogDB.

(** The snapshot requests: periodic, by the user, exported and streaming. *)
Inductive SSReqType : Type := Periodic | UserRequested | Exported | Streaming.

Record SSRequest : Type := mkSSRequest {
  sr_Path : string;
  sr_Type : SSReqType;
  sr_Key : Z;
  sr_CompactionOverhead : Z;
  sr_CompactionIndex : Z;
  sr_OverrideCompaction : bool
}.
Definition DefaultSSRequest : SSRequest := mkSSRequest EmptyString Periodic 0 0 0 false.

Record Task : Type := mkTask {
  t_Entries : list pb.Entry;
  t_SSRequest : SSRequest;
  t_ShardID : Z;
  t_ReplicaID : Z;
  t_Index : Z;
  t_Save : bool;
  t_Stream : bool;
  t_PeriodicSync : bool;
  t_NewNode : bool;
  t_Recover : bool;
  t_Initial : bool
}.
Definition emptyTask : Task :=
  mkTask [] DefaultSSRequest 0 0 0 false false false false false false.

Definition IsSnapshotTask (t : Task) : bool := t_Recover t || t_Save t || t_Stream t.
Definition isSyncTask (t : Task) : result bool :=
  if t_PeriodicSync t && IsSnapshotTask t then PANIC (PanicMsg "invalid task")
  else OK (t_PeriodicSync t).

(** [settings.TaskQueueInitialCap] and [settings.TaskQueueTargetLength] *)
Definition initialTaskQueueCap : Z := 24.
Definition taskQueueBusyCap : Z := 64.

Record TaskQueue : Type := mkTaskQueue {
  tasks : list Task;
  tasks_cap : Z;
  next : Z
}.
Definition NewTaskQueue : TaskQueue := mkTaskQueue [] initialTaskQueueCap 0.

Definition size (tq : TaskQueue) : Z := len (tasks tq) -ᵤ next tq.
Definition MoreEntryToApply (tq : TaskQueue) : bool := size tq <? taskQueueBusyCap.

Definition resize (tq : TaskQueue) : TaskQueue :=
  if (initialTaskQueueCap * 2 <? tasks_cap tq) && (size tq <? initialTaskQueueCap)
  then mkTaskQueue (dropZ (next tq) (tasks tq)) (size tq) 0
  else tq.

Section queue.
Context `{GoRuntime}.

Definition Add (task : Task) : M TaskQueue unit :=
  modify (fun tq =>
    let n := len (tasks tq) + 1 in
    mkTaskQueue (tasks tq ++ [task])
      (if n <=? tasks_cap tq then tasks_cap tq else go_growslice (tasks_cap tq) n) (next tq)).

Definition GetAll : M TaskQueue (list Task) :=
  all ← gets tasks; modify (fun _ => NewTaskQueue) ;; ret all.

Definition Get : M TaskQueue (option Task) :=
  tq ← get;
  match nthZ (tasks tq) (next tq) with
  | Some task =>
      modify (fun tq => resize (mkTaskQueue (<[Z.to_nat (next tq) := emptyTask]> (tasks tq))
        (tasks_cap tq) (next tq +ᵤ 1))) ;;
      ret (Some task)
  | None => modify resize ;; ret None
  end.
End queue.

(** ** A first-in first-out queue *)

Definition queued (tq : TaskQueue) : list Task := dropZ (next tq) (tasks tq).
Definition tqwf (tq : TaskQueue) : Prop := 0 <= next tq <= len (tasks tq) /\ len (tasks tq) < W64.

Lemma queued_resize tq : tqwf tq -> queued (resize tq) = queued tq /\ tqwf (resize tq).
Proof.
  intros [Hn Hl]. unfold resize. destruct (_ && _); [|done].
  unfold queued, tqwf, dropZ, len in *; cbn. rewrite drop_0. split; [done|].
  rewrite length_drop. lia.
Qed.

Lemma size_queued tq : tqwf tq -> size tq = len (queued tq).
Proof.
  intros [Hn Hl]. unfold size, queued, dropZ, len in *. rewrite length_drop. lia64.
Qed.

Section fifo.
Context `{GoRuntime}.

(** One operation on the queue, with the task it returns. *)
Inductive tqop : Type := OpAdd (t : Task) | OpGet.
Definition tqrun (o : tqop) : M TaskQueue (option Task) :=
  match o with OpAdd t => Add t ;; ret None | OpGet => Get end.

(** The same operation on a list. *)
Definition tqspec (o : tqop) (q : list Task) : option Task * list Task :=
  match o with OpAdd t => (None, q ++ [t]) | OpGet => (head q, tail q) end.

Lemma Get_fifo tq : tqwf tq ->
  exists tq', Get tq = Ret (head (queued tq)) tq' /\ queued tq' = tail (queued tq) /\ tqwf tq'.
Proof.
  intros Hw. pose proof Hw as [Hn Hl].
  unfold Get, get, mbind, M_bind, modify, ret, nthZ. rewrite decide_True by lia.
  destruct (tasks tq !! Z.to_nat (next tq)) as [t|] eqn:Ht.
  - apply lookup_lt_Some in Ht as Hlt.
    assert (Hq : queued tq = t :: dropZ (next tq + 1) (tasks tq)).
    { unfold queued, dropZ. rewrite (drop_S _ _ _ Ht). do 2 f_equal. lia. }
    destruct (queued_resize (mkTaskQueue (<[Z.to_nat (next tq) := emptyTask]> (tasks tq))
      (tasks_cap tq) (next tq +ᵤ 1))) as [E W].
    { unfold tqwf, len in *; cbn. rewrite length_insert. rewrite add64_small; lia. }
    eexists. split; [by rewrite Hq|]. split; [|done].
    rewrite E, Hq. unfold queued, dropZ; cbn. unfold len in *. rewrite add64_small by lia.
    by rewrite drop_insert_lt by lia.
  - apply lookup_ge_None in Ht. destruct (queued_resize tq Hw) as [E W].
    assert (Hq : queued tq = []) by (unfold queued, dropZ; by rewrite drop_ge).
    eexists. rewrite Hq, E, Hq. done.
Qed.

Lemma resize_len tq : len (tasks (resize tq)) <= len (tasks tq).
Proof.
  unfold resize. destruct (_ && _); [|done]. unfold dropZ, len; cbn. rewrite length_drop. lia.
Qed.

Lemma Get_len tq r tq' : Get tq = Ret r tq' -> len (tasks tq') <= len (tasks tq).
Proof.
  unfold Get, get, mbind, M_bind, modify, ret.
  destruct (nthZ _ _); intros [= <- <-]; etrans; try apply resize_len; [|done].
  unfold len; cbn. by rewrite length_insert.
Qed.

Lemma tqrun_refines o tq : tqwf tq -> len (tasks tq) + 1 < W64 ->
  exists tq', tqrun o tq = Ret (tqspec o (queued tq)).1 tq' /\
    queued tq' = (tqspec o (queued tq)).2 /\ tqwf tq' /\ len (tasks tq') <= len (tasks tq) + 1.
Proof.
  intros Hw Hl. destruct o as [t|].
  - destruct Hw as [Hn _]. eexists. split; [done|].
    unfold queued, tqwf, dropZ, len in *; cbn. rewrite drop_app_le, length_app by lia.
    cbn. split_and!; [done | lia..].
  - destruct (Get_fifo tq Hw) as (tq' & E & Q & W). exists tq'. split_and!; [done..|].
    apply Get_len in E. lia.
Qed.

Fixpoint tqruns (os : list tqop) : M TaskQueue (list (option Task)) :=
  match os with
  | [] => ret []
  | o :: os => r ← tqrun o; rs ← tqruns os; ret (r :: rs)
  end.
Fixpoint tqspecs (os : list tqop) (q : list Task) : list (option Task) * list Task :=
  match os with
  | [] => ([], q)
  | o :: os => let r := tqspec o q in let rs := tqspecs os r.2 in (r.1 :: rs.1, rs.2)
  end.

Lemma tqruns_refines os : forall tq, tqwf tq -> len (tasks tq) + len os < W64 ->
  exists tq', tqruns os tq = Ret (tqspecs os (queued tq)).1 tq' /\
    queued tq' = (tqspecs os (queued tq)).2 /\ tqwf tq'.
Proof.
  induction os as [|o os IH]; intros tq Hw Hl; [by exists tq|].
  unfold len in Hl; cbn [length] in Hl. fold (len os) (len (tasks tq)) in Hl.
  destruct (tqrun_refines o tq Hw) as (tq1 & E & Q & W & L); [unfold len in *; lia|].
  destruct (IH tq1 W) as (tq2 & E2 & Q2 & W2); [unfold len in *; lia|].
  exists tq2. cbn. unfold mbind, M_bind. rewrite E, E2, <- Q. done.
Qed.

(** C37: a task queue is a first-in first-out queue: whatever tasks are added and
    removed, and however the slice is moved and resized on the way, every [Get]
    returns what it would from a plain list, and what is left, and its size, are the
    same. *)
Theorem taskqueue_fifo (os : list tqop) : len os < W64 ->
  exists tq, tqruns os NewTaskQueue = Ret (tqspecs os []).1 tq /\
    queued tq = (tqspecs os []).2 /\ size tq = len (tqspecs os []).2.
Proof.
  intros Hl. destruct (tqruns_refines os NewTaskQueue) as (tq & E & Q & W); [done | done |].
  exists tq. split_and!; [done..|]. by rewrite size_queued, Q.
Qed.
End fifo.

Lemma taskqueue_fifo_witness :
  exists tq, tqruns [OpAdd emptyTask; OpGet; OpGet] NewTaskQueue
      = Ret (tqspecs [OpAdd emptyTask; OpGet; OpGet] []).1 tq /\
    queued tq = (tqspecs [OpAdd emptyTask; OpGet; OpGet] []).2 /\
    size tq = len (tqspecs [OpAdd emptyTask; OpGet; OpGet] []).2.
Proof. by apply taskqueue_fifo. Defined.

(** [GetAll] returns the slots of the tasks that [Get] has already handed out too,
    as empty tasks, not only the tasks still queued. *)
Lemma GetAll_returns_consumed :
  exists tq, (Add emptyTask ;; Get) NewTaskQueue = Ret (Some emptyTask) tq /\
    queued tq = [] /\ GetAll tq = Ret [emptyTask] NewTaskQueue.
Proof. eexists. split; [by vm_compute | done]. Qed.
