(* ===== verification/Rsm.v ===== *)
(** * The replicated state machine manager

    [raft/internal/rsm/statemachine.go] with the adapters of [adapter.go] and the
    [NativeSM] of [managed.go].

    The user's state machine, the node and the snapshotter are reached through
    interfaces in the code ([IStateMachine], [INode], [ISnapshotter]) and are
    classes here.  The locks only serialise the operations, so they are left out.
    Not modelled: lookups, saving and streaming snapshots. *)
From S2P Require Import Prelude Raftpb LogDB Wire Codec Session RsmMembership Encoded TaskQueue.

Definition getEntryTypes (entries : list pb.Entry) : bool * bool :=
  fold_left (fun acc v =>
    (if acc.1 && negb (pb.IsUpdateEntry v) then false else acc.1,
     if acc.2 && negb (pb.IsNoOPSession v) then false else acc.2)) entries (true, true).

(** ** User state machines *)

(** [sm.Entry] *)
Record smEntry : Type := mkSmEntry {
  sme_Index : Z;
  sme_Cmd : bytes;
  sme_Result : Result
}.
Definition set_Result (r : Result) (e : smEntry) : smEntry :=
  mkSmEntry (sme_Index e) (sme_Cmd e) r.

Class IStateMachine (U : Type) : Type := {
  sm_Open : M U Z;
  sm_Update : list smEntry -> M U (list smEntry);
  sm_Sync : M U unit;
  sm_Concurrent : bool;
  sm_OnDisk : bool
}.

(** [errors.WithStack] of the third-party package the adapters use: it wraps an
    error, so it returns a value different from every error the code compares with. *)
Class ErrorsLib : Type := { WithStack : error -> error }.
Definition withStack `{ErrorsLib} {S A} (c : M S A) : M S A := fun s =>
  match c s with Err e s' => Err (WithStack e) s' | o => o end.

(** The three interfaces a user implements, and their adapters. *)
Class IRegularSM (U : Type) : Type := { regular_Update : smEntry -> M U Result }.
Class IConcurrentSM (U : Type) : Type := {
  concurrent_Update : list smEntry -> M U (list smEntry)
}.
Class IOnDiskSM (U : Type) : Type := {
  disk_Open : M U Z;
  disk_Update : list smEntry -> M U (list smEntry);
  disk_Sync : M U unit
}.

Record diskSM (U : Type) : Type := mkDiskSM { od_sm : U; od_opened : bool }.
Arguments mkDiskSM {U} od_sm od_opened.
Arguments od_sm {U} d.
Arguments od_opened {U} d.
Definition on_disk {U A} (c : M U A) : M (diskSM U) A :=
  zoom od_sm (fun u d => mkDiskSM u (od_opened d)) c.
Definition ensureOpened {U} : M (diskSM U) unit :=
  d ← get; if negb (od_opened d) then panicf "not opened" else skip.

Section adapters.
Context `{ErrorsLib}.

Definition InMemStateMachine {U} `{IRegularSM U} : IStateMachine U := {|
  sm_Open := panicf "Open() called on InMemStateMachine";
  sm_Update := fun entries =>
    match entries with
    | [e] => r ← withStack (regular_Update e); ret [set_Result r e]
    | _ => panicf "len(entries) != 1"
    end;
  sm_Sync := panicf "Sync not implemented in InMemStateMachine";
  sm_Concurrent := false;
  sm_OnDisk := false
|}.

Definition ConcurrentStateMachine {U} `{IConcurrentSM U} : IStateMachine U := {|
  sm_Open := panicf "Open() not implemented ConcurrentStateMachine";
  sm_Update := fun entries => withStack (concurrent_Update entries);
  sm_Sync := panicf "Sync not implemented in ConcurrentStateMachine";
  sm_Concurrent := true;
  sm_OnDisk := false
|}.

Definition OnDiskStateMachine {U} `{IOnDiskSM U} : IStateMachine (diskSM U) := {|
  sm_Open :=
    d ← get;
    if od_opened d then panicf "Open invoked again"
    else modify (fun d => mkDiskSM (od_sm d) true) ;; withStack (on_disk disk_Open);
  sm_Update := fun entries => ensureOpened ;; withStack (on_disk (disk_Update entries));
  sm_Sync := ensureOpened ;; withStack (on_disk disk_Sync);
  sm_Concurrent := true;
  sm_OnDisk := true
|}.
End adapters.

(** [NativeSM]; the one-entry slice it passes to [Update] is overwritten before
    every use. *)
Definition NativeSM_Update {U} `{IStateMachine U} (e : smEntry) : M U Result :=
  results ← sm_Update [e];
  match results with
  | [r] => ret (sme_Result r)
  | _ => panicf "len(results) != 1"
  end.
Definition NativeSM_BatchedUpdate {U} `{IStateMachine U} (ents : list smEntry)
    : M U (list smEntry) :=
  results ← sm_Update ents;
  if negb (len results =? len ents) then panicf "unexpected result length" else ret results.

(** ** The node and the snapshotter *)

Class INode (N : Type) : Type := {
  node_StepReady : M N unit;
  node_RestoreRemotes : pb.Snapshot -> M N unit;
  (** the entry and its result, rejected, ignored, last of the batch *)
  node_ApplyUpdate : pb.Entry -> Result -> bool -> bool -> bool -> M N unit;
  node_ApplyConfigChange : ConfigChange.ConfigChange -> Z -> bool -> M N unit
}.

Class ISnapshotter (C U : Type) : Type := {
  ss_GetSnapshot : pb.Snapshot * option error;
  ss_IsNoSnapshotError : error -> bool;
  ss_Shrunk : pb.Snapshot -> result bool;
  ss_Load : pb.Snapshot -> M (SessionManager C * U) unit
}.

Definition ErrRestoreSnapshot : error := ErrMsg "failed to restore snapshot".
Definition ErrSnapshotStopped : error := ErrMsg "snapshot stopped".
Definition ErrOpenStopped : error := ErrMsg "open method did not complete".

(** [defer d()] around [c]. *)
Definition deferring {S A} (d : M S unit) (c : M S A) : M S A := fun s =>
  match c s with
  | Ret a s' => (d ;; ret a) s'
  | Err e s' => (d ;; fail e) s'
  | Panic p => Panic p
  end.

(** ** State *)

Record StateMachine (N U C : Type) : Type := mkStateMachine {
  s_node : N;
  s_sm : U;
  s_taskQ : TaskQueue;
  s_sessions : SessionManager C;
  s_members : membership;
  s_lastApplied : Z * Z;
  s_index : Z;
  s_term : Z;
  s_onDiskInitIndex : Z;
  s_onDiskIndex : Z;
  s_syncedIndex : Z;
  s_onDiskSM : bool;
  s_aborted : bool
}.
Arguments mkStateMachine {N U C}.
Arguments s_node {N U C}.
Arguments s_sm {N U C}.
Arguments s_taskQ {N U C}.
Arguments s_sessions {N U C}.
Arguments s_members {N U C}.
Arguments s_lastApplied {N U C}.
Arguments s_index {N U C}.
Arguments s_term {N U C}.
Arguments s_onDiskInitIndex {N U C}.
Arguments s_onDiskIndex {N U C}.
Arguments s_syncedIndex {N U C}.
Arguments s_onDiskSM {N U C}.
Arguments s_aborted {N U C}.

Section machine.
Context {N U C : Type} `{INode N} `{IStateMachine U} `{OrderedCache C} `{SnappyLib}
  `{GoRuntime}.
Abbreviation SM := (StateMachine N U C).

Definition eta (s : SM) : SM :=
  mkStateMachine (s_node s) (s_sm s) (s_taskQ s) (s_sessions s) (s_members s)
    (s_lastApplied s) (s_index s) (s_term s) (s_onDiskInitIndex s) (s_onDiskIndex s)
    (s_syncedIndex s) (s_onDiskSM s) (s_aborted s).
Definition set_node (v : N) (s : SM) : SM := ltac:(set_field (eta s) (s_node s) v).
Definition set_sm (v : U) (s : SM) : SM := ltac:(set_field (eta s) (s_sm s) v).
Definition set_taskQ (v : TaskQueue) (s : SM) : SM := ltac:(set_field (eta s) (s_taskQ s) v).
Definition set_smSessions (v : SessionManager C) (s : SM) : SM :=
  ltac:(set_field (eta s) (s_sessions s) v).
Definition set_smMembers (v : membership) (s : SM) : SM :=
  ltac:(set_field (eta s) (s_members s) v).
Definition set_lastApplied (v : Z * Z) (s : SM) : SM :=
  ltac:(set_field (eta s) (s_lastApplied s) v).
Definition set_index (v : Z) (s : SM) : SM := ltac:(set_field (eta s) (s_index s) v).
Definition set_term (v : Z) (s : SM) : SM := ltac:(set_field (eta s) (s_term s) v).
Definition set_onDiskInitIndex (v : Z) (s : SM) : SM :=
  ltac:(set_field (eta s) (s_onDiskInitIndex s) v).
Definition set_onDiskIndex (v : Z) (s : SM) : SM :=
  ltac:(set_field (eta s) (s_onDiskIndex s) v).
Definition set_syncedIndex (v : Z) (s : SM) : SM :=
  ltac:(set_field (eta s) (s_syncedIndex s) v).
Definition set_aborted (v : bool) (s : SM) : SM := ltac:(set_field (eta s) (s_aborted s) v).

Definition on_node {A} (c : M N A) : M SM A := zoom s_node set_node c.
Definition on_sm {A} (c : M U A) : M SM A := zoom s_sm set_sm c.
Definition on_taskQ {A} (c : M TaskQueue A) : M SM A := zoom s_taskQ set_taskQ c.
Definition on_sessions {A} (c : M (SessionManager C) A) : M SM A :=
  zoom s_sessions set_smSessions c.
Definition on_smMembers {A} (c : M membership A) : M SM A := zoom s_members set_smMembers c.

Definition NewStateMachine (node : N) (sm : U) (shardID replicaID : Z) (ordered : bool) : SM :=
  mkStateMachine node sm NewTaskQueue NewSessionManager (newMembership shardID replicaID ordered)
    (0, 0) 0 0 0 0 0 sm_OnDisk false.

Definition GetLastApplied (s : SM) : Z := (s_lastApplied s).1.

(** ** Indexes *)

Definition setSyncedIndex (index : Z) : M SM unit :=
  s ← get;
  if index <? s_syncedIndex s then panicf "synced index moving backward"
  else modify (set_syncedIndex index).

Definition setApplied (index term : Z) : M SM unit :=
  s ← get;
  if negb (s_index s +ᵤ 1 =? index) then panicf "applied index, new index"
  else if term <? s_term s then panicf "applied term, new term"
  else modify (fun s => set_term term (set_index index s)).

(** The loop of [setLastApplied] over the entries after the first. *)
Fixpoint checkContiguous (index term : Z) (entries : list pb.Entry) : result unit :=
  match entries with
  | [] => OK tt
  | e :: entries =>
      if (pb.e_Index e =? 0) || (pb.e_Term e =? 0) then PANIC (PanicMsg "invalid entry")
      else if negb (pb.e_Index e =? index +ᵤ 1) then PANIC (PanicMsg "index gap found")
      else if pb.e_Term e <? term then PANIC (PanicMsg "term moving backward")
      else checkContiguous (pb.e_Index e) (pb.e_Term e) entries
  end.

Definition setLastApplied (entries : list pb.Entry) : M SM unit :=
  match entries, last entries with
  | e :: es, Some e' =>
      (if (pb.e_Index e =? 0) || (pb.e_Term e =? 0) then panicf "invalid entry" else skip) ;;
      readr (fun _ => checkContiguous (pb.e_Index e) (pb.e_Term e) es) ;;
      s ← get;
      if negb ((s_lastApplied s).1 +ᵤ 1 =? pb.e_Index e) then panicf "gap between batches"
      else if pb.e_Term e <? (s_lastApplied s).2 then panicf "invalid term"
      else modify (set_lastApplied (pb.e_Index e', pb.e_Term e'))
  | _, _ => skip
  end.

Definition entryInInitDiskSM (index : Z) (s : SM) : bool :=
  if negb (s_onDiskSM s) then false else index <=? s_onDiskInitIndex s.

Definition setOnDiskIndex (first last : Z) : M SM unit :=
  s ← get;
  if negb (s_onDiskSM s) then skip
  else if last <? first then panicf "first > last"
  else if first <=? s_onDiskInitIndex s then panicf "first index, init on disk"
  else if first <=? s_onDiskIndex s then panicf "first index, on disk index"
  else modify (set_onDiskIndex last).

Definition sync : M SM unit :=
  s ← get;
  if negb (s_onDiskSM s) then skip
  else let index := GetLastApplied s in
       on_sm sm_Sync ;; setSyncedIndex index.

(** ** Handling entries *)

Definition configChange (e : pb.Entry) : M SM unit :=
  cc ← readr (fun _ =>
    match ConfigChange.Unmarshal ConfigChange.zero (pb.e_Cmd e) with
    | ERR _ => PANIC (PanicMsg "unmarshal failed") | r => r end);
  accepted ← deferring (setApplied (pb.e_Index e) (pb.e_Term e))
    (on_smMembers (handleConfigChange cc (pb.e_Index e)));
  on_node (node_ApplyConfigChange cc (pb.e_Key e) (negb accepted)).

Definition registerSession (e : pb.Entry) : M SM Result :=
  deferring (setApplied (pb.e_Index e) (pb.e_Term e))
    (on_sessions (RegisterClientID (pb.e_ClientID e))).
Definition unregisterSession (e : pb.Entry) : M SM Result :=
  deferring (setApplied (pb.e_Index e) (pb.e_Term e))
    (on_sessions (UnregisterClientID (pb.e_ClientID e))).

Definition noop (e : pb.Entry) : M SM unit :=
  deferring (setApplied (pb.e_Index e) (pb.e_Term e))
    (if negb (pb.IsEmpty e) || pb.IsSessionManaged e
     then panicf "handle empty event called on non-empty event" else skip).

(** The part of [update] that executes the entry, with the session it belongs to. *)
Definition execute (e : pb.Entry) (session : option Session) : M SM (Result * bool * bool) :=
  (if negb (pb.IsNoOPSession e) && bool_decide (session = None)
   then panicf "session not found" else skip) ;;
  (match session with
   | Some ss => if bool_decide (is_Some (getResponse (pb.e_SeriesID e) ss))
                then panicf "already has response in session" else skip
   | None => skip
   end) ;;
  payload ← readr (fun _ => GetPayload e);
  r ← on_sm (NativeSM_Update (mkSmEntry (pb.e_Index e) payload emptyResult));
  setOnDiskIndex (pb.e_Index e) (pb.e_Index e) ;;
  (match session with
   | Some ss =>
       ss ← readr (fun _ => addResponse (pb.e_SeriesID e) r ss);
       on_sessions (setSession (pb.e_ClientID e) ss)
   | None => skip
   end) ;;
  ret (r, false, false).

(** The result, whether to ignore it and whether the update is rejected. *)
Definition update (e : pb.Entry) : M SM (Result * bool * bool) :=
  deferring (setApplied (pb.e_Index e) (pb.e_Term e))
    (if pb.IsNoOPSession e then execute e None
     else
       session ← on_sessions (ClientRegistered (pb.e_ClientID e));
       match session with
       | None => ret (emptyResult, false, true)
       | Some ss =>
           let ss := clearTo (pb.e_RespondedTo e) ss in
           on_sessions (setSession (pb.e_ClientID e) ss) ;;
           let '(v, responded, toUpdate) := UpdateRequired ss (pb.e_SeriesID e) in
           if responded : bool then ret (emptyResult, true, false)
           else if negb toUpdate then ret (v, false, false)
           else execute e (Some ss)
       end).

Definition handleEntry (e : pb.Entry) (last : bool) : M SM unit :=
  if pb.IsConfigChange e then configChange e
  else if negb (pb.IsSessionManaged e) then
    if pb.IsEmpty e then noop e ;; on_node (node_ApplyUpdate e emptyResult false true last)
    else panicf "not session managed, not empty"
  else if pb.IsNewSessionRequest e then
    r ← registerSession e; on_node (node_ApplyUpdate e r (isEmptyResult r) false last)
  else if pb.IsEndOfSessionRequest e then
    r ← unregisterSession e; on_node (node_ApplyUpdate e r (isEmptyResult r) false last)
  else
    s ← get;
    if negb (entryInInitDiskSM (pb.e_Index e) s) then
      '(r, ignored, rejected) ← update e;
      (if negb ignored then on_node (node_ApplyUpdate e r rejected ignored last) else skip)
    else noop (pb.mkEntry (pb.e_Term e) (pb.e_Index e) pb.ApplicationEntry 0 0 0 0 []).

Definition onApplied (e : pb.Entry) (r : Result) (ignored rejected last : bool) : M SM unit :=
  if negb ignored then on_node (node_ApplyUpdate e r rejected ignored last) else skip.

(** The first loop of [handleBatch]: the entries to execute and the number of
    those skipped, which an on-disk state machine has already. *)
Fixpoint collectBatch (input : list pb.Entry) : M SM (list smEntry * Z) :=
  match input with
  | [] => ret ([], 0)
  | e :: input =>
      s ← get;
      if negb (entryInInitDiskSM (pb.e_Index e) s) then
        payload ← readr (fun _ => GetPayload e);
        '(ents, skipped) ← collectBatch input;
        ret (mkSmEntry (pb.e_Index e) payload emptyResult :: ents, skipped)
      else
        setApplied (pb.e_Index e) (pb.e_Term e) ;;
        '(ents, skipped) ← collectBatch input;
        ret (ents, skipped + 1)
  end.

(** Its second loop, over the results and their positions in the input. *)
Fixpoint applyResults (input : list pb.Entry) (lastIndex pos : Z) (results : list smEntry)
    : M SM unit :=
  match results with
  | [] => skip
  | e :: results =>
      match nthZ input pos with
      | None => panic_ IndexOutOfRange
      | Some ce =>
          (if negb (pb.e_Index ce =? sme_Index e) then panicf "alignment error" else skip) ;;
          onApplied ce (sme_Result e) false false (pb.e_Index ce =? lastIndex) ;;
          setApplied (pb.e_Index ce) (pb.e_Term ce) ;;
          applyResults input lastIndex (pos + 1) results
      end
  end.

Definition handleBatch (input : list pb.Entry) : M SM unit :=
  '(ents, skipped) ← collectBatch input;
  match ents, last ents, last input with
  | e :: _, Some e', Some ie =>
      results ← on_sm (NativeSM_BatchedUpdate ents);
      applyResults input (pb.e_Index ie) skipped results ;;
      setOnDiskIndex (sme_Index e) (sme_Index e')
  | _, _, _ => skip
  end.

Fixpoint handleEntries (lastTask : bool) (entries : list pb.Entry) : M SM unit :=
  match entries with
  | [] => skip
  | e :: es => handleEntry e (lastTask && bool_decide (es = [])) ;; handleEntries lastTask es
  end.

Fixpoint handle (ts : list Task) : M SM unit :=
  match ts with
  | [] => skip
  | t :: ts =>
      (if IsSnapshotTask t then panicf "trying to handle a snapshot/sync request"
       else isSync ← readr (fun _ => isSyncTask t);
            if isSync : bool then panicf "trying to handle a snapshot/sync request" else skip) ;;
      entries ← readr (fun s => pb.EntriesToApply (t_Entries t) (s_index s) false);
      (let '(update, noop) := getEntryTypes entries in
       if sm_Concurrent && update && noop then handleBatch entries
       else handleEntries (bool_decide (ts = [])) entries) ;;
      setLastApplied entries ;;
      handle ts
  end.

(** ** Tasks *)

(** The loop of [Handle]; it takes a task from the queue each time round. *)
Fixpoint drain (fuel : nat) (batch : list Task) : M SM Task :=
  match fuel with
  | O => panic_ OutOfFuel
  | S fuel =>
      rec ← on_taskQ Get;
      match rec with
      | Some rec =>
          if IsSnapshotTask rec then handle batch ;; ret rec
          else
            isSync ← readr (fun _ => isSyncTask rec);
            if negb isSync then drain fuel (batch ++ [rec]) else sync ;; drain fuel batch
      | None => handle batch ;; ret emptyTask
      end
  end.

(** [Handle] returns the snapshot task it stopped at, or the empty task. *)
Definition Handle : M SM Task :=
  rec ← on_taskQ Get;
  match rec with
  | Some rec =>
      deferring (on_node node_StepReady)
        (if IsSnapshotTask rec then ret rec
         else
           isSync ← readr (fun _ => isSyncTask rec);
           s ← get;
           let fuel := S (length (tasks (s_taskQ s))) in
           if negb isSync then drain fuel [rec] else sync ;; drain fuel [])
  | None => handle [] ;; ret emptyTask
  end.

(** ** Recovering from a snapshot *)

Definition mustBeOnDiskSM : M SM unit :=
  s ← get; if negb (s_onDiskSM s) then panicf "not an IOnDiskStateMachine" else skip.

Definition OpenOnDiskStateMachine : M SM Z :=
  mustBeOnDiskSM ;;
  r ← try_ (on_sm sm_Open);
  match r with
  | inr err =>
      (if bool_decide (err = ErrOpenStopped) then modify (set_aborted true) else skip) ;; fail err
  | inl index =>
      modify (fun s => set_onDiskIndex index (set_onDiskInitIndex index s)) ;; ret index
  end.

Definition ReadyToStream (s : SM) : bool :=
  if negb (s_onDiskSM s) then true else s_onDiskInitIndex s <=? GetLastApplied s.

Definition recoverRequired (ss : pb.Snapshot) (init : bool) : M SM bool :=
  mustBeOnDiskSM ;;
  s ← get;
  if pb.ss_Witness ss || pb.ss_Dummy ss then panicf "called on a partial snapshot"
  else if init then
    if pb.ss_Imported ss then ret true else ret (s_onDiskInitIndex s <? pb.ss_OnDiskIndex ss)
  else ret (s_onDiskIndex s <? pb.ss_OnDiskIndex ss).

Definition checkRecoverOnDiskSM (ss : pb.Snapshot) (init : bool) : M SM unit :=
  mustBeOnDiskSM ;;
  s ← get;
  if pb.ss_Imported ss && init then skip
  else if pb.ss_OnDiskIndex ss <=? s_onDiskInitIndex s then panicf "OnDiskIndex, onDiskInitIndex"
  else if pb.ss_OnDiskIndex ss <=? s_onDiskIndex s then panicf "OnDiskIndex, onDiskIndex"
  else skip.

Definition checkPartialSnapshotApplyOnDiskSM (ss : pb.Snapshot) (init : bool) : M SM unit :=
  mustBeOnDiskSM ;;
  s ← get;
  if init then
    if s_onDiskInitIndex s <? pb.ss_OnDiskIndex ss then panicf "OnDiskIndex, onDiskInitIndex"
    else skip
  else if s_onDiskIndex s <? pb.ss_OnDiskIndex ss then panicf "OnDiskIndex, onDiskIndex"
  else skip.

Definition applySnapshot (ss : pb.Snapshot) : M SM unit :=
  modify (fun s => set_term (pb.ss_Term ss) (set_index (pb.ss_Index ss)
    (set_lastApplied (pb.ss_Index ss, pb.ss_Term ss)
      (set_smMembers (membership_set (pb.ss_Membership ss) (s_members s)) s)))).

Definition applyOnDisk (ss : pb.Snapshot) (init : bool) : M SM unit :=
  mustBeOnDiskSM ;;
  modify (set_onDiskIndex (pb.ss_OnDiskIndex ss)) ;;
  (if pb.ss_Imported ss && init then modify (set_onDiskInitIndex (pb.ss_OnDiskIndex ss)) else skip).

Context `{ISnapshotter C U}.

Definition getSnapshot (t : Task) : result pb.Snapshot :=
  let (ss, err) := ss_GetSnapshot in
  let noSnapshot := match err with Some e => ss_IsNoSnapshotError e | None => false end in
  if negb (t_Initial t) then
    match err with
    | Some e => if noSnapshot then ERR e else ERR ErrRestoreSnapshot
    | None => if pb.ss_Index ss <? t_Index t then PANIC (PanicMsg "out of date snapshot") else OK ss
    end
  else if noSnapshot then OK pb.zeroSnapshot
  else OK ss.

Definition isShrunkSnapshot (ss : pb.Snapshot) (init : bool) : M SM bool :=
  s ← get;
  if negb (s_onDiskSM s) then ret false
  else if pb.ss_Witness ss || pb.ss_Dummy ss then ret false
  else
    shrunk ← readr (fun _ => ss_Shrunk ss);
    if negb init && shrunk then panicf "not initial recovery but snapshot shrunk" else ret shrunk.

Definition load (ss : pb.Snapshot) : M SM unit :=
  r ← try_ (zoom (fun s => (s_sessions s, s_sm s)) (fun p s => set_sm p.2 (set_smSessions p.1 s))
              (ss_Load ss));
  match r with
  | inl _ => skip
  | inr err =>
      (if bool_decide (err = ErrSnapshotStopped) then modify (set_aborted true) else skip) ;; fail err
  end.

Definition doRecover (ss : pb.Snapshot) (init : bool) : M SM unit :=
  s ← get;
  if pb.ss_Index ss <=? GetLastApplied s then fail ErrSnapshotOutOfDate
  else if s_aborted s then fail ErrSnapshotStopped
  else
    let onDisk := s_onDiskSM s in
    shrunk ← isShrunkSnapshot ss init;
    if pb.ss_Witness ss || pb.ss_Dummy ss || shrunk then
      (if onDisk then checkPartialSnapshotApplyOnDiskSM ss init else skip)
    else if negb onDisk then load ss
    else
      required ← recoverRequired ss init;
      if required : bool then checkRecoverOnDiskSM ss init ;; load ss ;; applyOnDisk ss init
      else skip.

Definition recover (ss : pb.Snapshot) (init : bool) : M SM unit :=
  doRecover ss init ;; applySnapshot ss.

Definition Recover (t : Task) : M SM pb.Snapshot :=
  ss ← readr (fun _ => getSnapshot t);
  if pb.IsEmptySnapshot ss then ret pb.zeroSnapshot
  else recover ss (t_Initial t) ;; on_node (node_RestoreRemotes ss) ;; ret ss.

End machine.
