(* ===== verification/RsmSteps.v ===== *)
(** * What handling one entry does

    [handleEntry] either executes the entry on the user's state machine, once, or
    leaves that state machine alone; [effect] lists the cases with what becomes of
    the client sessions.  The entries a Raft log hands over ([ready]) never make it
    panic. *)
From S2P Require Import Prelude Raftpb LogDB Wire Codec Session RsmMembership Encoded TaskQueue Rsm.

(** ** What the interfaces promise *)

(** A state machine returns the entries it is given with their results set, or an
    error. *)
Class IStateMachineSpec (U : Type) `{IStateMachine U} : Type := {
  sm_ok : U -> Prop;
  sm_Update_ok es u : es <> [] -> sm_Concurrent = true \/ length es = 1%nat -> sm_ok u ->
    wp no_panic (sm_Update es)
      (fun rs u' => map sme_Index rs = map sme_Index es /\ sm_ok u') (fun _ _ => True) u
}.

(** The node takes results of entries that have a key, and changes of the known
    types. *)
Class INodeSpec (N : Type) `{INode N} : Prop := {
  node_StepReady_ok n :
    wp no_panic node_StepReady (fun _ _ => True) (fun _ _ => False) n;
  node_ApplyUpdate_ok e r rejected ignored last n : pb.e_Key e <> 0 \/ ignored = true ->
    wp no_panic (node_ApplyUpdate e r rejected ignored last) (fun _ _ => True) (fun _ _ => False) n;
  node_ApplyConfigChange_ok cc key rejected n : known cc ->
    wp no_panic (node_ApplyConfigChange cc key rejected) (fun _ _ => True) (fun _ _ => True) n
}.

Lemma wp_deferring {S A} X (d : M S unit) (c : M S A) Q E s :
  wp X c (fun a => wp X d (fun _ => Q a) E) (fun e => wp X d (fun _ => E e) E) s ->
  wp X (deferring d c) Q E s.
Proof.
  unfold wp, deferring, mbind, M_bind, ret, fail.
  destruct (c s) as [a s1|e s1|p]; [destruct (d s1); auto.. | auto].
Qed.

Section steps.
Context {N U C : Type} `{INode N} `{IStateMachine U} `{OrderedCacheSpec C} `{SnappyLib}
  `{GoRuntime}.
Abbreviation SM := (StateMachine N U C).

Definition sess (s : SM) : gmap Z Session := cached (lru_sessions (s_sessions s)).

(** The answer to update [k] of the client is on record. *)
Definition recorded (k : Z) (ss : Session) : Prop :=
  hasResponded k ss = true \/ is_Some (getResponse k ss).

Definition withResponse (k : Z) (r : Result) (ss : Session) : Session :=
  mkSession (<[k := r]> (History ss)) (ClientID ss) (RespondedUpTo ss).

(** The parts of the state no entry changes. *)
Record kept (s s1 : SM) : Prop := {
  kp_taskQ : s_taskQ s1 = s_taskQ s;
  kp_last : s_lastApplied s1 = s_lastApplied s;
  kp_init : s_onDiskInitIndex s1 = s_onDiskInitIndex s;
  kp_disk : s_onDiskSM s1 = s_onDiskSM s;
  kp_synced : s_syncedIndex s1 = s_syncedIndex s;
  kp_aborted : s_aborted s1 = s_aborted s;
  kp_size : lru_size (s_sessions s1) = lru_size (s_sessions s)
}.

Definition idle (s s1 : SM) : Prop := s_sm s1 = s_sm s /\ s_onDiskIndex s1 = s_onDiskIndex s.

Inductive effect (e : pb.Entry) (s s1 : SM) : Prop :=
| eff_quiet : idle s s1 -> sess s1 = sess s -> effect e s s1
| eff_registered :
    idle s s1 -> pb.IsNewSessionRequest e = true -> sess s !! pb.e_ClientID e = None ->
    (0 < lru_size (s_sessions s) -> sess s1 !! pb.e_ClientID e = Some (newSession (pb.e_ClientID e))) ->
    (forall j, j <> pb.e_ClientID e -> sess s1 !! j = sess s !! j \/ sess s1 !! j = None) ->
    effect e s s1
| eff_unregistered :
    idle s s1 -> pb.IsEndOfSessionRequest e = true -> sess s1 = delete (pb.e_ClientID e) (sess s) ->
    effect e s s1
| eff_answered ss :
    idle s s1 -> pb.IsNoOPSession e = false -> sess s !! pb.e_ClientID e = Some ss ->
    recorded (pb.e_SeriesID e) (clearTo (pb.e_RespondedTo e) ss) ->
    sess s1 = <[pb.e_ClientID e := clearTo (pb.e_RespondedTo e) ss]> (sess s) ->
    effect e s s1
| eff_executed payload r :
    pb.IsUpdateEntry e = true -> entryInInitDiskSM (pb.e_Index e) s = false ->
    GetPayload e = OK payload ->
    NativeSM_Update (mkSmEntry (pb.e_Index e) payload emptyResult) (s_sm s) = Ret r (s_sm s1) ->
    s_onDiskIndex s1 = (if s_onDiskSM s then pb.e_Index e else s_onDiskIndex s) ->
    (if pb.IsNoOPSession e then sess s1 = sess s
     else exists ss, sess s !! pb.e_ClientID e = Some ss /\
       ~ recorded (pb.e_SeriesID e) (clearTo (pb.e_RespondedTo e) ss) /\
       sess s1 = <[pb.e_ClientID e :=
         withResponse (pb.e_SeriesID e) r (clearTo (pb.e_RespondedTo e) ss)]> (sess s)) ->
    effect e s s1.

Record stepped (e : pb.Entry) (s s1 : SM) : Prop := {
  sp_next : s_index s +ᵤ 1 = pb.e_Index e;
  sp_index : s_index s1 = pb.e_Index e;
  sp_mono : s_term s <= pb.e_Term e;
  sp_term : s_term s1 = pb.e_Term e;
  sp_kept : kept s s1;
  sp_effect : effect e s s1
}.

(** The same before the index and the term are set. *)
Definition acted (e : pb.Entry) (s s1 : SM) : Prop :=
  s_index s1 = s_index s /\ s_term s1 = s_term s /\ kept s s1 /\ effect e s s1.

(** The entries of a log: changes that decode and have a known type, empty entries,
    and session-managed ones with a key, whose payload decodes if they are updates. *)
Record entryOk (e : pb.Entry) : Prop := {
  eo_change : pb.IsConfigChange e = true ->
    exists cc, ConfigChange.Unmarshal ConfigChange.zero (pb.e_Cmd e) = OK cc /\ known cc;
  eo_empty : pb.IsConfigChange e = false -> pb.IsSessionManaged e = false -> pb.IsEmpty e = true;
  eo_payload : pb.IsUpdateEntry e = true ->
    match GetPayload e with PANIC _ => False | _ => True end;
  eo_key : pb.IsSessionManaged e = true -> pb.e_Key e <> 0
}.

Context `{!IStateMachineSpec U} `{!INodeSpec N}.

Record swf (s : SM) : Prop := {
  sw_sess k ss : sess s !! k = Some ss -> ClientID ss = k;
  sw_size : 0 < lru_size (s_sessions s);
  sw_disk : s_onDiskSM s = true -> s_onDiskIndex s <= Z.max (s_index s) (s_onDiskInitIndex s);
  sw_sm : sm_ok (s_sm s)
}.

Record ready (e : pb.Entry) (s : SM) : Prop := {
  rd_wf : swf s;
  rd_entry : entryOk e;
  rd_next : s_index s +ᵤ 1 = pb.e_Index e;
  rd_lt : s_index s < pb.e_Index e;
  rd_term : s_term s <= pb.e_Term e
}.

(** Either panics are of no interest or the entry does not cause any. *)
Definition safe (X : panic -> Prop) (P : Prop) : Prop := (forall p, X p) \/ P.

Lemma safe_weaken X (P Q : Prop) : safe X P -> (P -> Q) -> safe X Q.
Proof. unfold safe. tauto. Qed.

Lemma wp_safe {S A} X (P : Prop) (c : M S A) Q0 Q (E : error -> S -> Prop) s :
  safe X P -> (P -> wp no_panic c Q0 (fun _ _ => True) s) ->
  (forall a s', c s = Ret a s' -> Q a s') -> (forall e s', E e s') -> wp X c Q E s.
Proof.
  unfold wp, no_panic. intros Hs Hw HQ HE. destruct (c s) eqn:Hc; auto.
  destruct Hs as [HX | HP]; [done|]. by specialize (Hw HP).
Qed.

(** ** Setting the index *)

Lemma setApplied_wp X i t Q E (s : SM) :
  safe X (s_index s +ᵤ 1 = i /\ s_term s <= t) ->
  (s_index s +ᵤ 1 = i -> s_term s <= t -> Q tt (set_term t (set_index i s))) ->
  wp X (setApplied i t) Q E s.
Proof.
  intros Hs HQ. unfold setApplied, get, mbind, M_bind, wp, panicf, panic_, modify.
  destruct (Z.eqb_spec (s_index s +ᵤ 1) i); cbn [negb]; [|destruct Hs; [done | tauto]].
  destruct (Z.ltb_spec t (s_term s)); [destruct Hs; [done | lia] | by apply HQ].
Qed.

Lemma effect_applied e s s1 i t : effect e s s1 -> effect e s (set_term t (set_index i s1)).
Proof.
  intros []; [eapply eff_quiet | eapply eff_registered | eapply eff_unregistered
    | eapply eff_answered | eapply eff_executed]; eauto.
Qed.

Lemma deferred_wp {A} X e (c : M SM A) (Q : A -> SM -> Prop) s :
  safe X (ready e s) ->
  wp X c (fun a s1 => acted e s s1 /\ (forall s2, stepped e s s2 -> Q a s2))
    (fun _ s1 => s_index s1 = s_index s /\ s_term s1 = s_term s) s ->
  wp X (deferring (setApplied (pb.e_Index e) (pb.e_Term e)) c) Q (fun _ _ => True) s.
Proof.
  intros Hs Hc. apply wp_deferring. eapply wp_mono; [exact Hc | |].
  - intros a s1 ((Ei & Et & Hk & He) & HQ). apply setApplied_wp; rewrite Ei, Et.
    + eapply safe_weaken; [exact Hs|]. by intros [].
    + intros Hi Ht. apply HQ. split; try done; [|by apply effect_applied].
      destruct Hk. by split.
  - intros err s1 [Ei Et]. apply setApplied_wp; rewrite ?Ei, ?Et; [|done].
    eapply safe_weaken; [exact Hs|]. by intros [].
Qed.

(** ** Sessions *)

Lemma kept_sessions s m : lru_size m = lru_size (s_sessions s) -> kept s (set_smSessions m s).
Proof. by split. Qed.

Definition sessOk (s : SM) : Prop := forall k ss, sess s !! k = Some ss -> ClientID ss = k.

Lemma checkSession_wp X c ss Q E (m : SessionManager C) :
  safe X (ClientID ss = c) -> Q tt m -> wp X (checkSession c ss) Q E m.
Proof.
  intros Hs HQ. unfold checkSession, wp, panicf, panic_, skip, ret.
  destruct (Z.eqb_spec (ClientID ss) c); cbn [negb]; [done|]. destruct Hs as [HX |]; [apply HX | done].
Qed.

Lemma getSession_eq c (s : SM) :
  exists m, getSession c (s_sessions s) = Ret (sess s !! c) m /\
    cached (lru_sessions m) = sess s /\ lru_size m = lru_size (s_sessions s).
Proof.
  unfold getSession, sess. destruct (cached_get c (lru_sessions (s_sessions s))) as [E1 E2].
  eexists. rewrite E1. split; [done|]. by split.
Qed.

(** Looking a session up and going on with [k]. *)
Lemma onSession_wp {A} X c (k : option Session -> M (SessionManager C) A) Q E (s : SM) :
  (forall m, cached (lru_sessions m) = sess s -> lru_size m = lru_size (s_sessions s) ->
    wp X (k (sess s !! c)) (fun a m' => Q a (set_smSessions m' s))
      (fun e m' => E e (set_smSessions m' s)) m) ->
  wp X (on_sessions (es ← getSession c; k es)) Q E s.
Proof.
  intros Hk. apply wp_zoom, wp_bind. destruct (getSession_eq c s) as (m & Eg & Ec & El).
  unfold wp at 1. rewrite Eg. by apply Hk.
Qed.

Lemma alter_insert (mp : gmap Z Session) k x y :
  mp !! k = Some x -> alter (fun _ => y) k mp = <[k := y]> mp.
Proof.
  intros Hk. apply map_eq. intros j. destruct (decide (k = j)) as [<- |].
  - by rewrite lookup_alter_eq, lookup_insert_eq, Hk.
  - by rewrite lookup_alter_ne, lookup_insert_ne.
Qed.

Lemma setSession_wp X c ss x Q E (s : SM) :
  sess s !! c = Some x ->
  (forall m, cached (lru_sessions m) = <[c := ss]> (sess s) ->
    lru_size m = lru_size (s_sessions s) -> Q tt (set_smSessions m s)) ->
  wp X (on_sessions (setSession c ss)) Q E s.
Proof.
  intros Hx HQ. apply wp_zoom, wp_modify, HQ; cbn; [|done].
  rewrite cached_set. by eapply alter_insert.
Qed.

Lemma recorded_dec k ss : {recorded k ss} + {~ recorded k ss}.
Proof.
  unfold recorded. destruct (hasResponded k ss); [by left; left|].
  destruct (getResponse k ss) eqn:E; [left; right; by eexists|].
  right. intros [? | [? ?]]; congruence.
Qed.

Lemma UpdateRequired_spec ss k :
  match UpdateRequired ss k with
  | (v, responded, toUpdate) =>
      (responded = true -> recorded k ss) /\
      (responded = false -> toUpdate = false -> recorded k ss) /\
      (responded = false -> toUpdate = true -> ~ recorded k ss)
  end.
Proof.
  unfold UpdateRequired, recorded.
  destruct (hasResponded k ss); [by split_and!; auto|].
  destruct (getResponse k ss) eqn:Eg; split_and!; try done.
  - intros. right. by eexists.
  - intros _ _ [? | [? ?]]; congruence.
Qed.

(** ** Nodes *)

Lemma kept_set_node n s s1 : kept s s1 -> kept s (set_node n s1).
Proof. intros []. by split. Qed.

Lemma stepped_node e s s1 n : stepped e s s1 -> stepped e s (set_node n s1).
Proof.
  intros [? ? ? ? Hk He]. split; try done; [by apply kept_set_node|].
  destruct He; [eapply eff_quiet | eapply eff_registered | eapply eff_unregistered
    | eapply eff_answered | eapply eff_executed]; eauto.
Qed.

Lemma onNode_wp X e (c : M N unit) s s1 :
  safe X (wp no_panic c (fun _ _ => True) (fun _ _ => True) (s_node s1)) -> stepped e s s1 ->
  wp X (on_node c) (fun _ s2 => stepped e s s2) (fun _ _ => True) s1.
Proof.
  intros Hs Hst. apply wp_zoom. eapply wp_safe; [exact Hs | done | | done].
  intros. by apply stepped_node.
Qed.

(** ** Entries that execute nothing *)

Lemma configChange_wp X e s : safe X (ready e s) -> pb.IsConfigChange e = true ->
  wp X (configChange e) (fun _ s1 => stepped e s s1) (fun _ _ => True) s.
Proof.
  intros Hs Hc. apply wp_bind, wp_readr.
  destruct (ConfigChange.Unmarshal ConfigChange.zero (pb.e_Cmd e)) as [cc|err|p] eqn:Eu.
  2, 3: destruct Hs as [HX | Hr]; [by apply HX|];
    destruct (eo_change _ (rd_entry _ _ Hr) Hc) as (? & ? & _); congruence.
  assert (Hk : safe X (known cc)).
  { eapply safe_weaken; [exact Hs|]. intros Hr.
    destruct (eo_change _ (rd_entry _ _ Hr) Hc) as (? & ? & ?). congruence. }
  apply wp_bind, deferred_wp; [done|]. apply wp_zoom.
  eapply (wp_safe _ _ _ (fun _ _ => True)); [exact Hk | | | done].
  { intros Hkn. apply handleConfigChange_wp; auto. }
  intros a m _. split.
  { split_and!; try done. by apply eff_quiet. }
  intros s2 Hst. apply onNode_wp; [|done].
  eapply safe_weaken; [exact Hk|]. intros. by apply node_ApplyConfigChange_ok.
Qed.

Lemma noop_wp X e e' s : safe X (ready e s) ->
  pb.e_Index e' = pb.e_Index e -> pb.e_Term e' = pb.e_Term e ->
  pb.IsEmpty e' = true -> pb.IsSessionManaged e' = false ->
  wp X (noop e') (fun _ s1 => stepped e s s1) (fun _ _ => True) s.
Proof.
  intros Hs Ei Et He Hm. unfold noop. rewrite Ei, Et, He, Hm.
  apply deferred_wp; [done|]. apply wp_ret. split; [|done].
  split_and!; try done. by apply eff_quiet.
Qed.

Lemma registerSession_wp X e s : safe X (ready e s) -> pb.IsNewSessionRequest e = true ->
  wp X (registerSession e) (fun _ s1 => stepped e s s1) (fun _ _ => True) s.
Proof.
  intros Hs He. apply deferred_wp; [done|]. apply onSession_wp. intros m Hc Hl.
  destruct (sess s !! pb.e_ClientID e) as [ss|] eqn:Hss.
  - apply wp_bind, checkSession_wp.
    { eapply safe_weaken; [exact Hs|]. intros Hr. by apply (sw_sess _ (rd_wf _ _ Hr)). }
    apply wp_ret. split; [|done].
    split_and!; [done | done | by apply kept_sessions | by apply eff_quiet].
  - apply wp_bind, wp_modify, wp_ret. split; [|done].
    split_and!; [done | done | by apply kept_sessions |].
    apply eff_registered; try done; unfold sess; cbn; rewrite Hl.
    + intros. by apply cached_add.
    + intros j Hj. fold (sess s). rewrite <- Hc. by apply cached_add_ne.
Qed.

Lemma unregisterSession_wp X e s : safe X (ready e s) -> pb.IsEndOfSessionRequest e = true ->
  wp X (unregisterSession e) (fun _ s1 => stepped e s s1) (fun _ _ => True) s.
Proof.
  intros Hs He. apply deferred_wp; [done|]. apply onSession_wp. intros m Hc Hl.
  destruct (sess s !! pb.e_ClientID e) as [ss|] eqn:Hss.
  - apply wp_bind, checkSession_wp.
    { eapply safe_weaken; [exact Hs|]. intros Hr. by apply (sw_sess _ (rd_wf _ _ Hr)). }
    apply wp_bind, wp_modify, wp_ret. split; [|done].
    split_and!; [done | done | by apply kept_sessions |].
    apply eff_unregistered; try done. unfold sess; cbn. by rewrite cached_del, Hc.
  - apply wp_ret. split; [|done].
    split_and!; [done | done | by apply kept_sessions | by apply eff_quiet].
Qed.

(** ** Executing an entry *)

Lemma setOnDiskIndex_wp X f (Q : unit -> SM -> Prop) E s :
  safe X (s_onDiskSM s = true -> s_onDiskInitIndex s < f /\ s_onDiskIndex s < f) ->
  Q tt (if s_onDiskSM s then set_onDiskIndex f s else s) ->
  wp X (setOnDiskIndex f f) Q E s.
Proof.
  intros Hs HQ. unfold setOnDiskIndex, get, mbind, M_bind, wp, panicf, panic_, modify, skip, ret.
  destruct (s_onDiskSM s); cbn [negb]; [|done].
  rewrite (proj2 (Z.ltb_ge _ _)) by lia.
  destruct (Z.leb_spec f (s_onDiskInitIndex s)); [destruct Hs as [HX | Hs]; [done | lia]|].
  destruct (Z.leb_spec f (s_onDiskIndex s)); [destruct Hs as [HX | Hs]; [done | lia] | done].
Qed.

Lemma NativeSM_Update_ok e u : sm_ok u ->
  wp no_panic (NativeSM_Update e) (fun _ u' => sm_ok u') (fun _ _ => True) u.
Proof.
  intros Hu. apply wp_bind. eapply wp_mono; [apply (sm_Update_ok [e]); [done | by right | done] | | done].
  intros rs u' [Hi Hu']. destruct rs as [|r [|]]; try done.
Qed.

(** What [execute] does for an update with the session given. *)
Record executed (e : pb.Entry) (session : option Session) (s : SM) (r : Result) (s1 : SM)
    : Prop := {
  ex_index : s_index s1 = s_index s;
  ex_term : s_term s1 = s_term s;
  ex_kept : kept s s1;
  ex_disk : s_onDiskIndex s1 = if s_onDiskSM s then pb.e_Index e else s_onDiskIndex s;
  ex_sm : exists payload, GetPayload e = OK payload /\
    NativeSM_Update (mkSmEntry (pb.e_Index e) payload emptyResult) (s_sm s) = Ret r (s_sm s1);
  ex_sess : sess s1 = match session with
    | Some ss => <[pb.e_ClientID e := withResponse (pb.e_SeriesID e) r ss]> (sess s)
    | None => sess s end
}.

Record executable (e : pb.Entry) (s : SM) : Prop := {
  xb_payload : match GetPayload e with PANIC _ => False | _ => True end;
  xb_disk : s_onDiskSM s = true ->
    s_onDiskInitIndex s < pb.e_Index e /\ s_onDiskIndex s < pb.e_Index e;
  xb_sm : sm_ok (s_sm s)
}.

Definition sessionOf (e : pb.Entry) (s : SM) (session : option Session) : Prop :=
  match session with
  | Some ss => sess s !! pb.e_ClientID e = Some ss /\ ~ recorded (pb.e_SeriesID e) ss
  | None => pb.IsNoOPSession e = true
  end.

Lemma sessionOf_checks e session s : sessionOf e s session ->
  negb (pb.IsNoOPSession e) && bool_decide (session = None) = false /\
  match session with
  | Some ss => bool_decide (is_Some (getResponse (pb.e_SeriesID e) ss)) = false
  | None => True end.
Proof.
  intros Hs. destruct session as [ss|]; cbn in Hs; [|by rewrite Hs].
  destruct Hs as [_ Hr]. split; [by rewrite bool_decide_eq_false_2, andb_false_r|].
  apply bool_decide_eq_false_2. intros Hg. apply Hr. by right.
Qed.

(** Recording the result in the session of the entry. *)
Lemma addResponse_wp X e session s (r : Result) (Q : unit -> SM -> Prop) E :
  sessionOf e s session ->
  (forall m, cached (lru_sessions m) = match session with
      | Some ss => <[pb.e_ClientID e := withResponse (pb.e_SeriesID e) r ss]> (sess s)
      | None => sess s end ->
    lru_size m = lru_size (s_sessions s) -> Q tt (set_smSessions m s)) ->
  wp X (match session with
        | Some ss => ss ← readr (fun _ => addResponse (pb.e_SeriesID e) r ss);
                     on_sessions (setSession (pb.e_ClientID e) ss)
        | None => skip
        end) Q E s.
Proof.
  intros Hs HQ. destruct session as [ss|]; cbn in Hs.
  - destruct Hs as [Hss Hr]. apply wp_bind, wp_readr. unfold addResponse.
    destruct (History ss !! pb.e_SeriesID e) eqn:Eg; [destruct Hr; right; by eexists|].
    eapply setSession_wp; [exact Hss|]. intros m Hm Hl. by apply HQ.
  - specialize (HQ (s_sessions s) eq_refl eq_refl). by destruct s.
Qed.

Lemma execute_wp X e session s : safe X (executable e s) -> sessionOf e s session ->
  wp X (execute e session) (fun a s1 => exists r, a = (r, false, false) /\ executed e session s r s1)
    (fun _ s1 => s_index s1 = s_index s /\ s_term s1 = s_term s) s.
Proof.
  intros Hx Hs. unfold execute. destruct (sessionOf_checks e session s Hs) as [-> Hc2].
  apply wp_bind, wp_ret, wp_bind.
  assert (Hsk : wp X (match session with
    | Some ss => if bool_decide (is_Some (getResponse (pb.e_SeriesID e) ss))
                 then panicf "already has response in session" else skip
    | None => skip end) (fun _ t => t = s) (fun _ _ => False) s).
  { destruct session; [by rewrite Hc2 | done]. }
  eapply wp_mono; [exact Hsk | | done]. intros _ t ->.
  apply wp_bind, wp_readr. destruct (GetPayload e) as [payload|err|p] eqn:Ep; [|done|].
  2:{ destruct Hx as [HX | Hx]; [done|]. pose proof (xb_payload _ _ Hx) as Hp. by rewrite Ep in Hp. }
  apply wp_bind, wp_zoom. eapply (wp_safe _ _ _ (fun _ _ => True)); [exact Hx | | | done].
  { intros Hx'. eapply wp_mono; [apply NativeSM_Update_ok, (xb_sm _ _ Hx') | done..]. }
  intros r u Hu. apply wp_bind, setOnDiskIndex_wp.
  { eapply safe_weaken; [exact Hx|]. intros Hx'. apply (xb_disk _ _ Hx'). }
  apply wp_bind. set (s1 := if _ : bool then _ else _).
  assert (E1 : s_index s1 = s_index s /\ s_term s1 = s_term s /\ kept s s1 /\ sess s1 = sess s /\
    s_sm s1 = u /\ s_onDiskIndex s1 = if s_onDiskSM s then pb.e_Index e else s_onDiskIndex s).
  { unfold s1; cbn. destruct (s_onDiskSM s); done. }
  destruct E1 as (Ei & Et & Hk & Es & Eu & Ed).
  apply addResponse_wp; [by destruct session; cbn in *; rewrite ?Es|].
  intros m Hm Hl. apply wp_ret. exists r. split; [done|]. rewrite Es in Hm.
  split; cbn; try done; [|exists payload; by rewrite Eu].
  destruct Hk. split; cbn; congruence.
Qed.

Lemma ready_executable e s : pb.IsUpdateEntry e = true ->
  entryInInitDiskSM (pb.e_Index e) s = false -> ready e s -> executable e s.
Proof.
  intros Hu Hd [Hw He _ Hl _]. split; [by apply eo_payload | | apply (sw_sm _ Hw)].
  intros Ho. pose proof (sw_disk _ Hw Ho) as Hm. unfold entryInInitDiskSM in Hd.
  rewrite Ho in Hd. cbn in Hd. lia.
Qed.

Lemma sm_kept_trans s1 s2 s3 : kept s1 s2 -> kept s2 s3 -> kept s1 s3.
Proof. intros [] []. split; congruence. Qed.

(** Executing from a state that differs from [s] in the sessions only. *)
Lemma executed_acted e session s m r s1 :
  pb.IsUpdateEntry e = true -> entryInInitDiskSM (pb.e_Index e) s = false ->
  lru_size m = lru_size (s_sessions s) ->
  executed e session (set_smSessions m s) r s1 ->
  match session with
  | None => pb.IsNoOPSession e = true /\ cached (lru_sessions m) = sess s
  | Some ss' => pb.IsNoOPSession e = false /\ exists ss, ss' = clearTo (pb.e_RespondedTo e) ss /\
      sess s !! pb.e_ClientID e = Some ss /\ ~ recorded (pb.e_SeriesID e) ss' /\
      cached (lru_sessions m) = <[pb.e_ClientID e := ss']> (sess s)
  end -> acted e s s1.
Proof.
  intros Hu Hd Hl [Ei Et Hk Ed (payload & Ep & Es) Ess] Hsess. cbn in *.
  split_and!; [done | done | by eapply sm_kept_trans; [apply kept_sessions | exact Hk] |].
  eapply eff_executed; [done.. |]. change (sess (set_smSessions m s)) with (cached (lru_sessions m)) in Ess.
  destruct session as [ss'|]; [|destruct Hsess as [-> Hm]; by rewrite Ess].
  destruct Hsess as (-> & ss & -> & Hss & Hr & Hm). exists ss. split_and!; [done..|].
  rewrite Ess, Hm. apply insert_insert_eq.
Qed.

Lemma update_wp X e s : safe X (ready e s) -> pb.IsUpdateEntry e = true ->
  entryInInitDiskSM (pb.e_Index e) s = false ->
  wp X (update e) (fun _ s1 => stepped e s s1) (fun _ _ => True) s.
Proof.
  intros Hs Hu Hd. apply deferred_wp; [done|].
  assert (Hx : safe X (executable e s)) by (eapply safe_weaken; [exact Hs | by apply ready_executable]).
  destruct (pb.IsNoOPSession e) eqn:En.
  - eapply wp_mono; [apply execute_wp; done | | done].
    intros a s1 (r & -> & Hex). split; [|done].
    apply (executed_acted e None s (s_sessions s) r); try done. by destruct s.
  - apply wp_bind, onSession_wp. intros m Hc Hl.
    destruct (sess s !! pb.e_ClientID e) as [ss|] eqn:Hss.
    + apply wp_bind, checkSession_wp.
      { eapply safe_weaken; [exact Hs|]. intros Hr. by apply (sw_sess _ (rd_wf _ _ Hr)). }
      apply wp_ret. cbv zeta. apply wp_bind.
      eapply setSession_wp; [unfold sess; cbn; rewrite Hc; exact Hss|].
      intros m1 Hm1 Hl1. unfold sess in Hm1; cbn in Hm1, Hl1. rewrite Hc in Hm1.
      pose proof (UpdateRequired_spec (clearTo (pb.e_RespondedTo e) ss) (pb.e_SeriesID e)) as Hq.
      destruct (UpdateRequired _ _) as [[v responded] toUpdate]. destruct Hq as (R1 & R2 & R3).
      assert (Ha : recorded (pb.e_SeriesID e) (clearTo (pb.e_RespondedTo e) ss) ->
        acted e s (set_smSessions m1 (set_smSessions m s))).
      { intros. split_and!; [done | done | split; cbn; congruence | by eapply eff_answered]. }
      destruct responded; [apply wp_ret; auto|]. destruct toUpdate; cbn [negb]; [|apply wp_ret; auto].
      eapply wp_mono; [apply execute_wp | | done].
      * eapply safe_weaken; [exact Hx|]. intros []. by split.
      * split; [|auto]. unfold sess; cbn. by rewrite Hm1, lookup_insert_eq.
      * intros a s1 (r & -> & Hex). split; [|done].
        apply (executed_acted e (Some (clearTo (pb.e_RespondedTo e) ss)) s m1 r); try done.
        -- congruence.
        -- split; [done|]. exists ss. by split_and!; auto.
    + apply wp_ret. split; [|done]. split_and!; [done | done | by apply kept_sessions | by apply eff_quiet].
Qed.

(** ** One entry *)

Lemma handleEntry_wp X e last s : safe X (ready e s) ->
  wp X (handleEntry e last) (fun _ s1 => stepped e s s1) (fun _ _ => True) s.
Proof.
  intros Hs. unfold handleEntry.
  assert (Hn : forall r rejected ignored s1, pb.IsSessionManaged e = true \/ ignored = true ->
    stepped e s s1 -> wp X (on_node (node_ApplyUpdate e r rejected ignored last))
      (fun _ s2 => stepped e s s2) (fun _ _ => True) s1).
  { intros r rejected ignored s1 Hm Hst. apply onNode_wp; [|done].
    eapply safe_weaken; [exact Hs|]. intros Hr. eapply wp_mono; [apply node_ApplyUpdate_ok | done..].
    destruct Hm as [Hm |]; [left; by apply (eo_key _ (rd_entry _ _ Hr)) | by right]. }
  destruct (pb.IsConfigChange e) eqn:Ec; [by apply configChange_wp|].
  destruct (pb.IsSessionManaged e) eqn:Em; cbn [negb].
  2:{ destruct (pb.IsEmpty e) eqn:Ee.
      - apply wp_bind. eapply wp_mono; [by apply (noop_wp X e e) | | done]. auto.
      - destruct Hs as [HX | Hr]; [by apply HX|].
        pose proof (eo_empty _ (rd_entry _ _ Hr) Ec Em). congruence. }
  destruct (pb.IsNewSessionRequest e) eqn:En.
  { apply wp_bind. eapply wp_mono; [by apply registerSession_wp | auto | done]. }
  destruct (pb.IsEndOfSessionRequest e) eqn:Ee.
  { apply wp_bind. eapply wp_mono; [by apply unregisterSession_wp | auto | done]. }
  apply wp_bind. unfold wp at 1, get. cbv iota beta.
  destruct (entryInInitDiskSM (pb.e_Index e) s) eqn:Ed; cbn [negb].
  { by apply (noop_wp X e). }
  apply wp_bind. eapply wp_mono; [apply update_wp; try done | | done].
  { unfold pb.IsUpdateEntry. by rewrite Ec, Em, En, Ee. }
  intros [[r ignored] rejected] s1 Hst. destruct ignored; cbn [negb]; [by apply wp_ret | auto].
Qed.

Lemma clearTo_ClientID to ss : ClientID (clearTo to ss) = ClientID ss.
Proof. unfold clearTo. by repeat case_match. Qed.

Lemma stepped_swf e s s1 : ready e s -> stepped e s s1 -> swf s1.
Proof.
  intros [[W1 W2 W3 W4] _ _ Hlt _] [Hn Hi _ _ Hk He]. destruct Hk as [_ _ Ki Kd _ _ Ks].
  assert (Hsess : forall c ss', ClientID ss' = c -> sess s1 = <[c := ss']> (sess s) ->
    forall k ss, sess s1 !! k = Some ss -> ClientID ss = k).
  { intros c ss' Hc -> k ss. destruct (decide (c = k)) as [-> |].
    - rewrite lookup_insert_eq. congruence.
    - rewrite lookup_insert_ne by done. apply W1. }
  split; [| by rewrite Ks | |].
  - destruct He as [_ -> | _ _ Hnone Hreg Hne | _ _ -> | ss _ _ Hss _ E | pl r _ _ _ _ _ E].
    + apply W1.
    + intros k ss Hss. destruct (decide (k = pb.e_ClientID e)) as [-> | Hk].
      * rewrite Hreg in Hss by done. by injection Hss as <-.
      * destruct (Hne k Hk) as [E | E]; rewrite E in Hss; [by apply W1 | done].
    + intros k ss [_ Hss]%lookup_delete_Some. by apply W1.
    + eapply Hsess; [|exact E]. rewrite clearTo_ClientID. by apply W1.
    + destruct (pb.IsNoOPSession e); [rewrite E; apply W1|]. destruct E as (ss & Hss & _ & E).
      eapply Hsess; [|exact E]. cbn. rewrite clearTo_ClientID. by apply W1.
  - rewrite Kd, Ki, Hi. intros Ho. specialize (W3 Ho).
    destruct He as [[_ ->] _ | [_ ->] _ _ _ _ | [_ ->] _ _ | ss [_ ->] _ _ _ _ | pl r _ _ _ _ -> _]; try lia.
    rewrite Ho. lia.
  - destruct He as [[-> _] _ | [-> _] _ _ _ _ | [-> _] _ _ | ss [-> _] _ _ _ _ | pl r _ _ _ E _ _]; try done.
    pose proof (NativeSM_Update_ok (mkSmEntry (pb.e_Index e) pl emptyResult) (s_sm s) W4) as Hw.
    unfold wp in Hw. by rewrite E in Hw.
Qed.
End steps.
