(* ===== verification/RsmSessions.v ===== *)
(** * An update is executed at most once

    The calls of the user's state machine are recorded by wrapping it; over any
    sequence of entries during which a client stays registered, the updates of that
    client that reach the state machine have distinct series IDs, however often each
    of them is proposed and committed. *)
From S2P Require Import Prelude Raftpb LogDB Wire Codec Session RsmMembership Encoded TaskQueue Rsm.
From S2P Require Import RsmSteps.

(** ** Recording the calls *)

Section logged.
Context {U : Type} `{IStateMachine U}.
Abbreviation LU := (U * list smEntry)%type.

Definition on_logged {A} (c : M U A) : M LU A := zoom fst (fun u l => (u, l.2)) c.

#[global] Instance loggedSM : IStateMachine LU := {
  sm_Open := on_logged sm_Open;
  sm_Update es := modify (fun l => (l.1, l.2 ++ es)) ;; on_logged (sm_Update es);
  sm_Sync := on_logged sm_Sync;
  sm_Concurrent := sm_Concurrent;
  sm_OnDisk := sm_OnDisk
}.

#[global, refine] Instance loggedSM_spec `{!IStateMachineSpec U} : IStateMachineSpec LU := {|
  sm_ok := fun l => sm_ok l.1
|}.
Proof.
  intros es [u l] Hne Hc Hu. apply wp_bind, wp_modify, wp_zoom. cbn in *.
  eapply wp_mono; [by apply sm_Update_ok | | done]. intros rs u' [Hi Hu']. by split.
Defined.

Lemma logged_Update e l r l' :
  NativeSM_Update e l = Ret r l' -> l'.2 = l.2 ++ [e].
Proof.
  unfold NativeSM_Update, sm_Update at 1; cbn.
  unfold mbind, M_bind, modify, on_logged, zoom; cbn.
  destruct (sm_Update [e] l.1) as [rs u|err u|p]; try done.
  destruct rs as [|? [|]]; try done. by intros [= _ <-].
Qed.
End logged.

(** ** What is on record stays on record *)

Lemma clearTo_recorded k to ss : recorded k ss -> recorded k (clearTo to ss).
Proof.
  unfold recorded, clearTo, hasResponded, getResponse. intros Hr.
  destruct (Z.leb_spec to (RespondedUpTo ss)); [done|].
  destruct (Z.leb_spec k to); [left; destruct (_ =? _); cbn; lia|].
  destruct Hr as [Hr | [r Hr]]; [lia|]. right. exists r.
  destruct (_ =? _); cbn.
  - by rewrite lookup_delete_ne by lia.
  - by apply map_lookup_filter_Some.
Qed.

Lemma withResponse_recorded k j r ss : recorded k ss \/ k = j -> recorded k (withResponse j r ss).
Proof.
  unfold recorded, withResponse, hasResponded, getResponse; cbn.
  destruct (decide (j = k)) as [-> |].
  - intros _. right. by rewrite lookup_insert_eq.
  - intros [[? | ?] | ?]; [by left | right; by rewrite lookup_insert_ne | congruence].
Qed.

Section once.
Context {N U C : Type} `{INodeSpec N} `{IStateMachineSpec U} `{OrderedCacheSpec C} `{SnappyLib}
  `{GoRuntime}.
Abbreviation SM := (StateMachine N (U * list smEntry) C).

Definition calls (s : SM) : list smEntry := (s_sm s).2.

Lemma handleEntry_stepped e last (s s1 : SM) : handleEntry e last s = Ret tt s1 -> stepped e s s1.
Proof.
  intros E. pose proof (handleEntry_wp any_panic e last s (or_introl (fun _ => I))) as Hw.
  unfold wp in Hw. by rewrite E in Hw.
Qed.

(** The state machine was called for [e] between [s] and [s1]. *)
Definition called (e : pb.Entry) (s s1 : SM) : Prop :=
  exists payload, GetPayload e = OK payload /\
    calls s1 = calls s ++ [mkSmEntry (pb.e_Index e) payload emptyResult].

Lemma step_calls e (s s1 : SM) : stepped e s s1 ->
  (called e s s1 /\ pb.IsUpdateEntry e = true) \/ calls s1 = calls s.
Proof.
  intros Hst. destruct (sp_effect _ _ _ Hst) as [[E _] _ | [E _] _ _ _ _ | [E _] _ _
    | ss [E _] _ _ _ _ | payload r Hu _ Hp E _ _]; [right; unfold calls; by rewrite E.. |].
  left. split; [|done]. exists payload. split; [done|]. by apply logged_Update in E.
Qed.

Lemma step_recorded e (s s1 : SM) c k ss ss1 : stepped e s s1 ->
  sess s !! c = Some ss -> sess s1 !! c = Some ss1 -> recorded k ss -> recorded k ss1.
Proof.
  intros Hst Hs Hs1 Hr.
  destruct (sp_effect _ _ _ Hst) as [_ E | _ _ Hnone _ Hne | _ _ E
    | ss0 _ _ Hss _ E | payload r _ _ _ _ _ E].
  - congruence.
  - destruct (decide (c = pb.e_ClientID e)) as [-> | Hc]; [congruence|].
    destruct (Hne c Hc); congruence.
  - rewrite E in Hs1. apply lookup_delete_Some in Hs1 as [_ Hs1]. congruence.
  - rewrite E in Hs1. destruct (decide (pb.e_ClientID e = c)) as [<- | Hc].
    + rewrite lookup_insert_eq in Hs1. simplify_eq. by apply clearTo_recorded.
    + rewrite lookup_insert_ne in Hs1 by done. congruence.
  - destruct (pb.IsNoOPSession e); [congruence|]. destruct E as (ss0 & Hss & _ & E).
    rewrite E in Hs1. destruct (decide (pb.e_ClientID e = c)) as [<- | Hc].
    + rewrite lookup_insert_eq in Hs1. simplify_eq.
      apply withResponse_recorded. left. by apply clearTo_recorded.
    + rewrite lookup_insert_ne in Hs1 by done. congruence.
Qed.

(** A call for an update of a client records it, and it was not on record before. *)
Lemma called_records e (s s1 : SM) ss ss1 : stepped e s s1 -> pb.IsNoOPSession e = false ->
  calls s1 <> calls s -> sess s !! pb.e_ClientID e = Some ss ->
  sess s1 !! pb.e_ClientID e = Some ss1 ->
  ~ recorded (pb.e_SeriesID e) ss /\ recorded (pb.e_SeriesID e) ss1.
Proof.
  intros Hst Hn Hc Hs Hs1.
  destruct (sp_effect _ _ _ Hst) as [[E _] _ | [E _] _ _ _ _ | [E _] _ _
    | ss0 [E _] _ _ _ _ | payload r _ _ _ _ _ E]; [destruct Hc; unfold calls; by rewrite E.. |].
  rewrite Hn in E. destruct E as (ss0 & Hss & Hr & E). simplify_eq. split.
  - intros Hrec. by apply Hr, clearTo_recorded.
  - rewrite E, lookup_insert_eq in Hs1. simplify_eq. apply withResponse_recorded. by right.
Qed.

Definition registered (c : Z) (s : SM) : Prop := is_Some (sess s !! c).

(** Handling entries one after the other while client [c] is registered;
    [handled c s es tr s']: of [es], the state machine was called for [tr]. *)
Inductive handled (c : Z) : SM -> list pb.Entry -> list pb.Entry -> SM -> Prop :=
| handled_nil s : registered c s -> handled c s [] [] s
| handled_quiet e last s s1 es tr s2 :
    registered c s -> handleEntry e last s = Ret tt s1 -> calls s1 = calls s ->
    handled c s1 es tr s2 -> handled c s (e :: es) tr s2
| handled_called e last s s1 es tr s2 :
    registered c s -> handleEntry e last s = Ret tt s1 -> calls s1 <> calls s ->
    handled c s1 es tr s2 -> handled c s (e :: es) (e :: tr) s2.

Lemma handled_registered c s es tr s' : handled c s es tr s' -> registered c s.
Proof. by intros []. Qed.

Definition updatesOf (c : Z) (tr : list pb.Entry) : list pb.Entry :=
  filter (fun e => pb.e_ClientID e = c /\ pb.IsNoOPSession e = false) tr.

Lemma handled_recorded c s es tr s' k ss : handled c s es tr s' ->
  sess s !! c = Some ss -> recorded k ss -> k ∉ map pb.e_SeriesID (updatesOf c tr).
Proof.
  intros Hh. revert ss.
  induction Hh as [s Hr | e last s s1 es tr s2 Hr E Hc Hh IH | e last s s1 es tr s2 Hr E Hc Hh IH];
    intros ss Hs Hk; [apply not_elem_of_nil | |];
    apply handleEntry_stepped in E; destruct (handled_registered _ _ _ _ _ Hh) as [ss1 Hs1];
    pose proof (step_recorded e s s1 c k ss ss1 E Hs Hs1 Hk) as Hk1; specialize (IH ss1 Hs1 Hk1);
    [done|].
  unfold updatesOf in *. rewrite filter_cons. case_decide as Hd; [|done].
  destruct Hd as [<- Hn]. cbn. rewrite not_elem_of_cons. split; [|done]. intros ->.
  by destruct (called_records e s s1 ss ss1 E Hn Hc Hs Hs1).
Qed.

(** C14: no-more-than-once execution.  However often the updates of a registered
    client are proposed, committed and applied, the user's state machine is called
    at most once for each series ID: the updates of the client it was called for
    have distinct series IDs, and it was called for exactly the entries recorded,
    in the order of the log. *)
Theorem update_at_most_once (c : Z) (s s' : SM) (es tr : list pb.Entry) :
  handled c s es tr s' ->
  NoDup (map pb.e_SeriesID (updatesOf c tr)) /\
  map sme_Index (calls s') = map sme_Index (calls s) ++ map pb.e_Index tr.
Proof.
  induction 1 as [s Hr | e last s s1 es tr s2 Hr E Hc Hh IH | e last s s1 es tr s2 Hr E Hc Hh IH].
  - split; [constructor | by rewrite app_nil_r].
  - by rewrite <- Hc.
  - destruct IH as [IHn IHc]. apply handleEntry_stepped in E. split.
    + unfold updatesOf in *. rewrite filter_cons. case_decide as Hd; [|done].
      destruct Hd as [<- Hn], Hr as [ss Hs]. cbn. constructor; [|done].
      destruct (handled_registered _ _ _ _ _ Hh) as [ss1 Hs1].
      destruct (called_records e s s1 ss ss1 E Hn Hc Hs Hs1) as [_ Hk].
      by eapply handled_recorded.
    + destruct (step_calls e s s1 E) as [[(payload & _ & Ec) _] | Ec]; [|done].
      rewrite IHc, Ec, map_app. cbn. by rewrite <- app_assoc.
Qed.
End once.
