(* ===== verification/RsmSamples.v ===== *)
(** * A state machine, a node and a log

    Instances of the interfaces of the state machine manager, small enough to
    compute with: a counter whose batches are applied one entry at a time, a node
    that writes down what it is told, and the entries of a client. *)
From S2P Require Import Prelude Raftpb LogDB Wire Codec Session RsmMembership Encoded EncodedSpec.
From S2P Require Import TaskQueue Rsm RsmSteps RsmSessions.
From Stdlib Require Import Strings.Byte.

(** ** A counter *)

Fixpoint countF (es : list smEntry) (u : Z) : list smEntry * Z :=
  match es with
  | [] => ([], u)
  | e :: es => let r := countF es (u + 1) in (set_Result (mkResult (u + 1) None) e :: r.1, r.2)
  end.

#[global] Instance counter : IConcurrentSM Z := {
  concurrent_Update es := fun u => let r := countF es u in Ret r.1 r.2
}.
#[global] Instance wrapErrors : ErrorsLib := {
  WithStack e := match e with ErrOther c => ErrOther (c + 1) | _ => ErrOther 0 end
}.
#[global] Instance counterSM : IStateMachine Z := ConcurrentStateMachine.

Lemma countF_index es u : map sme_Index (countF es u).1 = map sme_Index es.
Proof. revert u. induction es as [|e es IH]; intros u; cbn; [done | by rewrite IH]. Qed.

#[global, refine] Instance counterSM_spec : IStateMachineSpec Z := {| sm_ok := fun _ => True |}.
Proof. intros es u _ _ _. split; [apply countF_index | done]. Defined.

(** ** A node *)

Inductive nodeCall : Type :=
| CalledUpdate (index : Z) (r : Result) (rejected ignored last : bool)
| CalledConfigChange (replica : Z) (rejected : bool)
| CalledStep
| CalledRestore (index : Z).

#[global] Instance traceNode : INode (list nodeCall) := {
  node_StepReady := modify (fun n => n ++ [CalledStep]);
  node_RestoreRemotes ss := modify (fun n => n ++ [CalledRestore (pb.ss_Index ss)]);
  node_ApplyUpdate e r rejected ignored last :=
    if (pb.e_Key e =? 0) && negb ignored then panicf "key is 0"
    else modify (fun n => n ++ [CalledUpdate (pb.e_Index e) r rejected ignored last]);
  node_ApplyConfigChange cc key rejected :=
    modify (fun n => n ++ [CalledConfigChange (ConfigChange.cc_ReplicaID cc) rejected])
}.

#[global] Instance traceNode_spec : INodeSpec (list nodeCall).
Proof.
  split; [done | | done]. intros e r rejected ignored last n Hk. cbn.
  destruct (Z.eqb_spec (pb.e_Key e) 0), ignored; cbn; try done. by destruct Hk.
Qed.

(** ** A client *)

Definition proposal (index series responded : Z) : pb.Entry :=
  pb.mkEntry 1 index pb.ApplicationEntry 100 7 series responded [x01].

Abbreviation sampleSM := (StateMachine (list nodeCall) (Z * list smEntry) lruCache).

Definition run1 (e : pb.Entry) (s : sampleSM) : sampleSM :=
  match handleEntry e false s with Ret _ s' => s' | _ => s end.

(** The machine after the client has registered at index 1. *)
Definition rsm0 : sampleSM := NewStateMachine [] (0, []) 1 1 false.
Definition rsm1 : sampleSM :=
  run1 (pb.mkEntry 1 1 pb.ApplicationEntry 100 7 pb.SeriesIDForRegister 0 []) rsm0.
Definition rsm2 : sampleSM := run1 (proposal 2 1 0) rsm1.
Definition rsm3 : sampleSM := run1 (proposal 3 1 0) rsm2.
Definition rsm4 : sampleSM := run1 (proposal 4 2 1) rsm3.

Lemma update_at_most_once_witness :
  NoDup (map pb.e_SeriesID (updatesOf 7 [proposal 2 1 0; proposal 4 2 1])) /\
  map sme_Index (calls rsm4) =
    map sme_Index (calls rsm1) ++ map pb.e_Index [proposal 2 1 0; proposal 4 2 1].
Proof.
  apply (update_at_most_once 7 rsm1 rsm4 [proposal 2 1 0; proposal 3 1 0; proposal 4 2 1]).
  apply (handled_called 7 _ false _ rsm2); [by vm_compute; eexists | by vm_compute | by vm_compute |].
  apply (handled_quiet 7 _ false _ rsm3); [by vm_compute; eexists | by vm_compute | by vm_compute |].
  apply (handled_called 7 _ false _ rsm4); [by vm_compute; eexists | by vm_compute | by vm_compute |].
  apply handled_nil. by vm_compute; eexists.
Defined.
