(* ===== verification/RsmApply.v ===== *)
(** * Applying committed entries

    The entries of a task are applied one by one or, for a state machine that
    supports it, in a batch.  Either way the entries of a log are applied without a
    panic and the indexes advance with them, and both ways lead to the same state. *)
From S2P Require Import Prelude Raftpb LogDB Wire WireSpec Codec Session RsmMembership Encoded.
From S2P Require Import TaskQueue Rsm RsmSteps.

(** ** Entries of a log *)

Section log.
Context `{SnappyLib} `{GoRuntime}.

(** Entries that follow index [i] and term [t] in a log. *)
Fixpoint upcoming (i t : Z) (es : list pb.Entry) : Prop :=
  match es with
  | [] => True
  | e :: es =>
      (pb.e_Index e = i + 1 /\ i + 1 < W64 /\ 0 < pb.e_Term e /\ t <= pb.e_Term e /\ entryOk e) /\
      upcoming (i + 1) (pb.e_Term e) es
  end.

Fixpoint lastTerm (t : Z) (es : list pb.Entry) : Z :=
  match es with [] => t | e :: es => lastTerm (pb.e_Term e) es end.

Lemma upcoming_app es1 es2 : forall i t,
  upcoming i t (es1 ++ es2) <->
  upcoming i t es1 /\ upcoming (i + len es1) (lastTerm t es1) es2.
Proof.
  induction es1 as [|e es1 IH]; intros i t; cbn.
  - rewrite Z.add_0_r. tauto.
  - rewrite IH, len_cons. replace (i + 1 + len es1) with (i + (1 + len es1)) by lia. tauto.
Qed.

Lemma lastTerm_app t es1 es2 : lastTerm t (es1 ++ es2) = lastTerm (lastTerm t es1) es2.
Proof. revert t. induction es1 as [|e es1 IH]; intros t; [done | apply IH]. Qed.

Lemma lastTerm_last t es e : last es = Some e -> lastTerm t es = pb.e_Term e.
Proof.
  revert t. induction es as [|x es IH]; intros t; [done|].
  destruct es as [|y es]; [by intros [= <-] | intros Hl; by apply (IH (pb.e_Term x))].
Qed.

Lemma upcoming_last i t es e : upcoming i t es -> last es = Some e -> pb.e_Index e = i + len es.
Proof.
  revert i t. induction es as [|x es IH]; intros i t; [done|]. intros [Hx Hes] Hl.
  rewrite len_cons. destruct es as [|y es].
  - injection Hl as <-. unfold len; cbn. lia.
  - rewrite (IH (i + 1) (pb.e_Term x)) by done. lia.
Qed.

Lemma EntriesToApply_upcoming i t es : 0 <= i -> upcoming i t es -> pb.EntriesToApply es i false = OK es.
Proof.
  intros Hi Hu. unfold pb.EntriesToApply. destruct es as [|e es]; [done|].
  destruct (last (e :: es)) as [e'|] eqn:Hl; [|done].
  rewrite (upcoming_last i t _ _ Hu Hl). destruct Hu as [(Ei & Hw & _) _].
  pose proof (len_nonneg es). rewrite len_cons. rewrite (proj2 (Z.leb_gt _ _)) by lia.
  rewrite add64_small, Ei, (proj2 (Z.ltb_ge _ _)) by lia.
  replace ((i -ᵤ (i + 1)) +ᵤ 1) with 0; [by rewrite (proj2 (Z.ltb_lt _ _)) by lia|].
  unfold add64, sub64, u64. rewrite Zplus_mod_idemp_l. replace (i - (i + 1) + 1) with 0 by lia. done.
Qed.

Lemma checkContiguous_upcoming i t es : upcoming i t es -> 0 <= i -> checkContiguous i t es = OK tt.
Proof.
  revert i t. induction es as [|e es IH]; intros i t Hu Hi; [done|]. cbn in *.
  destruct Hu as [(Ei & Hw & Hp & Ht & _) Hes].
  rewrite (proj2 (Z.eqb_neq _ _)), (proj2 (Z.eqb_neq _ _)) by lia. cbn.
  rewrite add64_small, (proj2 (Z.eqb_eq _ _)), (proj2 (Z.ltb_ge _ _)) by lia. cbn.
  rewrite Ei. by apply IH; [|lia].
Qed.

Lemma getEntryTypes_spec es :
  getEntryTypes es = (forallb pb.IsUpdateEntry es, forallb pb.IsNoOPSession es).
Proof.
  unfold getEntryTypes.
  assert (Hg : forall a b, fold_left (fun acc v =>
    (if acc.1 && negb (pb.IsUpdateEntry v) then false else acc.1,
     if acc.2 && negb (pb.IsNoOPSession v) then false else acc.2)) es (a, b) =
    (a && forallb pb.IsUpdateEntry es, b && forallb pb.IsNoOPSession es)); [|by rewrite Hg].
  induction es as [|e es IH]; intros a b; cbn; [by rewrite !andb_true_r|].
  rewrite IH. f_equal; destruct a, b, (pb.IsUpdateEntry e), (pb.IsNoOPSession e); done.
Qed.
End log.

Section apply.
Context {N U C : Type} `{INodeSpec N} `{IStateMachineSpec U} `{OrderedCacheSpec C} `{SnappyLib}
  `{GoRuntime}.
Abbreviation SM := (StateMachine N U C).

(** The entries [es] have been applied to [s]. *)
Record moved (es : list pb.Entry) (s s1 : SM) : Prop := {
  mv_wf : swf s1;
  mv_kept : kept s s1;
  mv_index : s_index s1 = s_index s + len es;
  mv_term : s_term s1 = lastTerm (s_term s) es
}.

(** ** One entry at a time *)

Lemma upcoming_ready e es (s : SM) : swf s -> 0 <= s_index s ->
  upcoming (s_index s) (s_term s) (e :: es) -> ready e s.
Proof. intros Hw Hi [(Ei & Hl & _ & Ht & He) _]. split; try done; rewrite Ei; [lia64 | lia]. Qed.

Lemma handleEntries_wp b es : forall s : SM, swf s -> 0 <= s_index s ->
  upcoming (s_index s) (s_term s) es ->
  wp no_panic (handleEntries b es) (fun _ s1 => moved es s s1) (fun _ _ => True) s.
Proof.
  induction es as [|e es IH]; intros s Hw Hi Hu.
  { apply wp_ret. split; [done | by split | unfold len; cbn; lia | done]. }
  pose proof (upcoming_ready e es s Hw Hi Hu) as Hr.
  apply wp_bind. eapply wp_mono; [apply handleEntry_wp; right; exact Hr | | done].
  intros [] s1 Hst. pose proof (stepped_swf e s s1 Hr Hst) as Hw1.
  destruct Hu as [(Ei & _ & _) Hes]. destruct Hst as [_ Hi1 _ Ht1 Hk _].
  rewrite Ei in Hi1. eapply wp_mono; [apply IH; rewrite ?Hi1, ?Ht1; [done | lia | done] | | done].
  intros [] s2 [W K I T]. split; [done | by eapply sm_kept_trans | | by rewrite T, Ht1].
  rewrite I, Hi1, len_cons. lia.
Qed.

Lemma setLastApplied_wp es i t (Q : unit -> SM -> Prop) E s :
  0 <= i -> upcoming i t es -> s_lastApplied s = (i, t) ->
  Q tt (if bool_decide (es = []) then s
        else set_lastApplied (i + len es, lastTerm t es) s) ->
  wp no_panic (setLastApplied es) Q E s.
Proof.
  intros Hi Hu Hl HQ. unfold setLastApplied. destruct es as [|e es]; [done|].
  destruct (last (e :: es)) as [e'|] eqn:He; [|by apply last_None in He].
  rewrite (bool_decide_eq_false_2 (e :: es = [])) in HQ by done.
  rewrite (lastTerm_last _ _ _ He), <- (upcoming_last _ _ _ _ Hu He) in HQ.
  destruct Hu as [(Ei & Hw & Hp & Ht & _) Hes].
  rewrite (proj2 (Z.eqb_neq _ _)), (proj2 (Z.eqb_neq _ _)) by lia. cbn [orb].
  apply wp_bind, wp_ret, wp_bind, wp_readr.
  rewrite Ei, checkContiguous_upcoming by (done || lia).
  apply wp_bind. unfold wp, get, panicf, panic_, modify. rewrite Hl. cbn [fst snd].
  rewrite add64_small, Z.eqb_refl by lia. cbn [negb]. by rewrite (proj2 (Z.ltb_ge _ _)) by lia.
Qed.

(** ** Batches *)

Definition batchable (e : pb.Entry) : Prop := pb.IsUpdateEntry e = true /\ pb.IsNoOPSession e = true.

(** Setting the index and the term of each entry in turn. *)
Fixpoint advance (es : list pb.Entry) (s : SM) : SM :=
  match es with
  | [] => s
  | e :: es => advance es (set_term (pb.e_Term e) (set_index (pb.e_Index e) s))
  end.

Fixpoint payloads (es : list pb.Entry) : result (list smEntry) :=
  match es with
  | [] => OK []
  | e :: es =>
      payload ← GetPayload e;
      ents ← payloads es;
      OK (mkSmEntry (pb.e_Index e) payload emptyResult :: ents)
  end.

Definition isInit (s : SM) (e : pb.Entry) : Prop := entryInInitDiskSM (pb.e_Index e) s = true.
Definition isNew (s : SM) (e : pb.Entry) : Prop := entryInInitDiskSM (pb.e_Index e) s = false.

Lemma setApplied_eq e es (s : SM) : 0 <= s_index s -> upcoming (s_index s) (s_term s) (e :: es) ->
  setApplied (pb.e_Index e) (pb.e_Term e) s =
    Ret tt (set_term (pb.e_Term e) (set_index (pb.e_Index e) s)).
Proof.
  intros Hi [(Ei & Hl & _ & Ht & _) _]. unfold setApplied, get, mbind, M_bind, panicf, panic_, modify.
  rewrite Ei, add64_small, Z.eqb_refl by lia. cbn [negb]. by rewrite (proj2 (Z.ltb_ge _ _)) by lia.
Qed.

Lemma payloads_index es ents : payloads es = OK ents -> map sme_Index ents = map pb.e_Index es.
Proof.
  revert ents. induction es as [|e es IH]; intros ents; cbn; [by intros [= <-]|].
  unfold mbind, result_bind. destruct (GetPayload e); [|done..]. destruct (payloads es); [|done..].
  intros [= <-]. cbn. by rewrite (IH _ eq_refl).
Qed.

Lemma payloads_no_panic i t es p : upcoming i t es -> Forall batchable es -> payloads es <> PANIC p.
Proof.
  revert i t. induction es as [|e es IH]; intros i t Hu Hb; cbn; [done|].
  destruct Hu as [(_ & _ & _ & _ & He) Hes]. apply Forall_cons in Hb as [[Hb _] Hbs].
  pose proof (eo_payload e He Hb) as Hp. unfold mbind, result_bind.
  destruct (GetPayload e); [|done..]. specialize (IH _ _ Hes Hbs). by destruct (payloads es).
Qed.

Lemma collectBatch_new es (s : SM) : Forall (isNew s) es ->
  collectBatch es s = match payloads es with
    | OK ents => Ret (ents, 0) s | ERR e => Err e s | PANIC p => Panic p end.
Proof.
  induction es as [|e es IH]; intros Hn; cbn; [done|]. apply Forall_cons in Hn as [Hn Hns].
  unfold isNew in Hn. unfold mbind, M_bind, get, readr, result_bind. rewrite Hn. cbn [negb].
  destruct (GetPayload e); [|done..]. rewrite IH by done. by destruct (payloads es).
Qed.

Lemma new_upwards i t e es (s : SM) :
  upcoming i t (e :: es) -> isNew s e -> Forall (isNew s) (e :: es).
Proof.
  revert i t e. induction es as [|e' es IH]; intros i t e Hu Hn; constructor; try done.
  destruct Hu as [(Ei & _) Hu]. pose proof Hu as [(Ei' & _) _].
  apply (IH (i + 1) (pb.e_Term e)); [done|]. unfold isNew, entryInInitDiskSM in *.
  destruct (s_onDiskSM s); cbn in *; [lia | done].
Qed.

Lemma collectBatch_eq input : forall s : SM, 0 <= s_index s ->
  upcoming (s_index s) (s_term s) input ->
  exists pre post, input = pre ++ post /\ Forall (isInit s) pre /\ Forall (isNew s) post /\
    collectBatch input s = match payloads post with
      | OK ents => Ret (ents, len pre) (advance pre s)
      | ERR e => Err e (advance pre s)
      | PANIC p => Panic p end.
Proof.
  induction input as [|e input IH]; intros s Hi Hu; [by exists [], []|].
  destruct (entryInInitDiskSM (pb.e_Index e) s) eqn:Hd.
  - pose proof (setApplied_eq e input s Hi Hu) as Hsa.
    destruct Hu as [(Ei & _) Hu].
    destruct (IH (set_term (pb.e_Term e) (set_index (pb.e_Index e) s)))
      as (pre & post & -> & Hpre & Hpost & Hc); [cbn; lia | cbn; by rewrite Ei |].
    exists (e :: pre), post. split_and!; [done | by constructor | done |].
    cbn. unfold mbind, M_bind, get, ret. rewrite Hd. cbn [negb]. rewrite Hsa, Hc, len_cons.
    destruct (payloads post); [|done..]. cbn. do 2 f_equal. lia.
  - pose proof (new_upwards _ _ _ _ s Hu Hd) as Hn. exists [], (e :: input).
    split_and!; [done.. |]. by apply collectBatch_new.
Qed.

Lemma advance_node es n (s : SM) : advance es (set_node n s) = set_node n (advance es s).
Proof. revert s. induction es as [|e es IH]; intros s; [done|].
  exact (IH (set_term (pb.e_Term e) (set_index (pb.e_Index e) s))).
Qed.

Lemma onApplied_eq e r last (s : SM) : pb.e_Key e <> 0 ->
  exists n, onApplied e r false false last s = Ret tt (set_node n s).
Proof.
  intros Hk. pose proof (node_ApplyUpdate_ok e r false false last (s_node s) (or_introl Hk)) as Hw.
  unfold wp in Hw. unfold onApplied, on_node, zoom. cbn [negb].
  destruct (node_ApplyUpdate _ _ _ _ _ _) as [[] n|? ?|?]; [by exists n | done..].
Qed.

Lemma batchable_key e : entryOk e -> batchable e -> pb.e_Key e <> 0.
Proof.
  intros He [Hu _]. apply (eo_key e He). unfold pb.IsUpdateEntry in Hu.
  by destruct (pb.IsSessionManaged e); [|rewrite andb_false_r in Hu].
Qed.

Lemma applyResults_eq post : forall pre li rs (s : SM), 0 <= s_index s ->
  upcoming (s_index s) (s_term s) post -> Forall batchable post ->
  map sme_Index rs = map pb.e_Index post ->
  exists n, applyResults (pre ++ post) li (len pre) rs s = Ret tt (set_node n (advance post s)).
Proof.
  induction post as [|e post IH]; intros pre li rs s Hi Hu Hb Hrs.
  { destruct rs; [|done]. exists (s_node s). by destruct s. }
  destruct rs as [|r rs]; [done|]. injection Hrs as Er Hrs. apply Forall_cons in Hb as [Hb Hbs].
  pose proof Hu as [(Ei & _ & _ & _ & He) Hes].
  destruct (onApplied_eq e (sme_Result r) (pb.e_Index e =? li) s (batchable_key e He Hb)) as [n Hn].
  pose proof (setApplied_eq e post (set_node n s) Hi Hu) as Hsa.
  cbn [applyResults]. unfold nthZ. rewrite decide_True by apply len_nonneg.
  unfold len at 1. rewrite Nat2Z.id, list_lookup_middle by done.
  rewrite Er, Z.eqb_refl. cbn [negb]. unfold mbind at 1, M_bind, skip, ret.
  unfold mbind, M_bind. rewrite Hn, Hsa.
  destruct (IH (pre ++ [e]) li rs (set_term (pb.e_Term e) (set_index (pb.e_Index e) (set_node n s))))
    as [n' Hn']; [cbn; lia | cbn; by rewrite Ei | done | done |].
  rewrite <- app_assoc in Hn'. cbn [app] in Hn'.
  replace (len pre + 1) with (len (pre ++ [e])) by (rewrite len_app; done).
  rewrite Hn'. exists n'. f_equal. cbn [advance].
  change (set_term (pb.e_Term e) (set_index (pb.e_Index e) (set_node n s)))
    with (set_node n (set_term (pb.e_Term e) (set_index (pb.e_Index e) s))).
  by rewrite advance_node.
Qed.

Lemma advance_eq es : forall s : SM, upcoming (s_index s) (s_term s) es ->
  advance es s = set_term (lastTerm (s_term s) es) (set_index (s_index s + len es) s).
Proof.
  induction es as [|e es IH]; intros s Hu; cbn [advance lastTerm].
  - destruct s; cbn. by rewrite Z.add_0_r.
  - destruct Hu as [(Ei & _) Hes]. rewrite IH by (cbn; by rewrite Ei).
    cbn. rewrite Ei, len_cons, Z.add_assoc. by destruct s.
Qed.

(** The on-disk index after the new entries [es] have been executed. *)
Definition onDisk_to (es : list pb.Entry) (s : SM) : SM :=
  match last es with
  | Some e => if s_onDiskSM s then set_onDiskIndex (pb.e_Index e) s else s
  | None => s
  end.

(** What a batch leads to. *)
Definition batched (input : list pb.Entry) (s s1 : SM) : Prop :=
  exists pre post ents u n, input = pre ++ post /\ Forall (isInit s) pre /\
    Forall (isNew s) post /\ payloads post = OK ents /\
    ((post = [] /\ u = s_sm s) \/ (post <> [] /\ exists rs, sm_Update ents (s_sm s) = Ret rs u)) /\
    s1 = set_node n (onDisk_to post (set_sm u (advance input s))).

Lemma setOnDiskIndex_eq first last (s : SM) :
  (s_onDiskSM s = true ->
    first <= last /\ s_onDiskInitIndex s < first /\ s_onDiskIndex s < first) ->
  setOnDiskIndex first last s = Ret tt (if s_onDiskSM s then set_onDiskIndex last s else s).
Proof.
  intros Hd. unfold setOnDiskIndex, get, mbind, M_bind, skip, ret, modify.
  destruct (s_onDiskSM s); cbn [negb]; [|done]. destruct (Hd eq_refl) as (? & ? & ?).
  by rewrite (proj2 (Z.ltb_ge _ _)), !(proj2 (Z.leb_gt _ _)) by lia.
Qed.

Lemma BatchedUpdate_wp ents (u : U) : sm_Concurrent = true -> ents <> [] -> sm_ok u ->
  wp no_panic (NativeSM_BatchedUpdate ents)
    (fun rs u' => sm_Update ents u = Ret rs u' /\ map sme_Index rs = map sme_Index ents)
    (fun _ _ => True) u.
Proof.
  intros Hc Hne Hu. pose proof (sm_Update_ok ents u Hne (or_introl Hc) Hu) as Hw.
  unfold NativeSM_BatchedUpdate, wp, mbind, M_bind in *.
  destruct (sm_Update ents u) as [rs u'|? ?|?]; [|done..]. destruct Hw as [Hi _].
  replace (len rs) with (len ents); [by rewrite Z.eqb_refl|].
  unfold len. by rewrite <- (length_map sme_Index ents), <- Hi, length_map.
Qed.

Lemma onDisk_last e es s i t : upcoming i t (e :: es) -> swf s -> s_index s <= i ->
  isNew s e -> forall e', last (e :: es) = Some e' -> s_onDiskSM s = true ->
  pb.e_Index e <= pb.e_Index e' /\ s_onDiskInitIndex s < pb.e_Index e /\
  s_onDiskIndex s < pb.e_Index e.
Proof.
  intros Hu Hw Hle Hn e' Hl Ho. rewrite (upcoming_last i t _ _ Hu Hl), len_cons.
  destruct Hu as [(Ei & _) _]. pose proof (sw_disk _ Hw Ho). pose proof (len_nonneg es).
  unfold isNew, entryInInitDiskSM in Hn. rewrite Ho in Hn. cbn in Hn. lia.
Qed.

(** The end of a batch: the results are passed on and the on-disk index is set. *)
Lemma finishBatch_eq pre e post rs (u : U) li (s : SM) e' x x' :
  0 <= s_index s -> swf s -> upcoming (s_index s) (s_term s) (pre ++ e :: post) ->
  Forall batchable (e :: post) -> isNew s e ->
  map sme_Index rs = map pb.e_Index (e :: post) ->
  last (e :: post) = Some e' -> sme_Index x = pb.e_Index e -> sme_Index x' = pb.e_Index e' ->
  exists n, (applyResults (pre ++ e :: post) li (len pre) rs ;;
     setOnDiskIndex (sme_Index x) (sme_Index x')) (set_sm u (advance pre s)) =
    Ret tt (set_node n (onDisk_to (e :: post) (set_sm u (advance (pre ++ e :: post) s)))).
Proof.
  intros Hi Hw Hu Hb Hn Hrs Hl Hx Hx'. pose proof Hu as Hu0. apply upcoming_app in Hu as [Hu1 Hu2].
  pose proof (len_nonneg pre). rewrite (advance_eq pre s Hu1).
  set (s1 := set_sm u _).
  destruct (applyResults_eq (e :: post) pre li rs s1) as [n En]; [cbn; lia | done | done | done |].
  unfold mbind, M_bind. rewrite En, Hx, Hx'.
  rewrite setOnDiskIndex_eq; rewrite (advance_eq (e :: post) s1 Hu2).
  - exists n. rewrite (advance_eq _ s Hu0). unfold onDisk_to, s1. rewrite Hl. cbn.
    rewrite lastTerm_app, len_app, Z.add_assoc. by destruct s as [? ? ? ? ? ? ? ? ? ? ? [] ?].
  - cbn. eapply onDisk_last; [exact Hu2 | done | lia | done | done].
Qed.

Lemma last_indexes ents post e' : map sme_Index ents = map pb.e_Index post ->
  last post = Some e' -> exists x', last ents = Some x' /\ sme_Index x' = pb.e_Index e'.
Proof.
  intros Hm Hl. assert (Hf : sme_Index <$> last ents = pb.e_Index <$> last post).
  { rewrite <- !fmap_last. by f_equal. }
  rewrite Hl in Hf. destruct (last ents) as [x'|]; [|done]. injection Hf as Hf. by exists x'.
Qed.

Lemma handleBatch_wp input s : sm_Concurrent = true -> swf s -> 0 <= s_index s ->
  upcoming (s_index s) (s_term s) input -> Forall batchable input ->
  wp no_panic (handleBatch input) (fun _ s1 => batched input s s1) (fun _ _ => True) s.
Proof.
  intros Hc Hw Hi Hu Hb. unfold handleBatch.
  destruct (collectBatch_eq input s Hi Hu) as (pre & post & -> & Hpre & Hpost & Ecol).
  pose proof Hu as Hu0. apply upcoming_app in Hu as [Hu1 Hu2].
  apply Forall_app in Hb as [_ Hb].
  apply wp_bind. unfold wp at 1. rewrite Ecol. destruct (payloads post) as [ents|err|p] eqn:Ep; [|done|].
  2:{ by destruct (payloads_no_panic _ _ _ p Hu2 Hb). }
  pose proof (payloads_index _ _ Ep) as Hm. destruct post as [|e post].
  { destruct ents; [|done]. exists pre, [], [], (s_sm s), (s_node s). split_and!; [done..| by left |].
    rewrite app_nil_r, (advance_eq pre s Hu1). by destruct s. }
  destruct (last (e :: post)) as [e'|] eqn:Hl; [|by apply last_None in Hl].
  destruct (last_indexes ents _ e' Hm Hl) as (x' & Hx' & Ex').
  destruct ents as [|x ents]; [done|]. injection Hm as Ex Hm. rewrite Hx', last_app, Hl.
  apply wp_bind, wp_zoom. assert (Esm : s_sm (advance pre s) = s_sm s) by (by rewrite (advance_eq pre s Hu1)).
  rewrite Esm. eapply wp_mono; [apply BatchedUpdate_wp; [done | done | apply (sw_sm _ Hw)] | | done].
  intros rs u [Eu Hrs].
  destruct (finishBatch_eq pre e post rs u (pb.e_Index e') s e' x x') as [n En]; try done.
  { by apply Forall_cons in Hpost as [? _]. }
  { rewrite Hrs. cbn. by rewrite Ex, Hm. }
  unfold wp. rewrite En. exists pre, (e :: post), (x :: ents), u, n. split_and!; [done..| |done].
  right. split; [done|]. by exists rs.
Qed.

Lemma batched_moved input s s1 : sm_Concurrent = true -> swf s -> 0 <= s_index s ->
  upcoming (s_index s) (s_term s) input -> batched input s s1 -> moved input s s1.
Proof.
  intros Hc Hw Hi Hu (pre & post & ents & u & n & -> & _ & Hpost & Ep & Hsm & ->).
  rewrite (advance_eq _ s Hu). pose proof Hu as Hu0. apply upcoming_app in Hu as [_ Hu2].
  assert (Hok : sm_ok u).
  { destruct Hsm as [[_ ->] | (Hne & rs & Eu)]; [apply (sw_sm _ Hw)|].
    assert (ents <> []) as Hne' by (intros ->; apply payloads_index in Ep; by destruct post).
    pose proof (sm_Update_ok ents (s_sm s) Hne' (or_introl Hc) (sw_sm _ Hw)) as Hok.
    unfold wp in Hok. rewrite Eu in Hok. apply Hok. }
  pose proof (len_nonneg (pre ++ post)). destruct Hw as [W1 W2 W3 W4].
  unfold onDisk_to. destruct (last post) as [e'|] eqn:Hl.
  - assert (Ei : pb.e_Index e' = s_index s + len (pre ++ post)).
    { rewrite (upcoming_last _ _ _ _ Hu2 Hl), len_app. lia. }
    cbn. destruct (s_onDiskSM s) eqn:Ho; split; try done; split; cbn; try done; try lia.
    rewrite Ho. done.
  - split; try done; split; cbn; try done. intros Ho. specialize (W3 Ho). lia.
Qed.

(** ** Tasks *)

Definition entriesTask (t : Task) : Prop := IsSnapshotTask t = false /\ t_PeriodicSync t = false.

Lemma forallb_batchable es :
  forallb pb.IsUpdateEntry es = true -> forallb pb.IsNoOPSession es = true -> Forall batchable es.
Proof.
  rewrite !forallb_forall, Forall_forall. intros H1' H2' e He%list_elem_of_In. split; auto.
Qed.

Lemma handleTask_wp b es s : swf s -> 0 <= s_index s -> upcoming (s_index s) (s_term s) es ->
  wp no_panic (let '(update, noop) := getEntryTypes es in
     if sm_Concurrent && update && noop then handleBatch es else handleEntries b es)
    (fun _ s1 => moved es s s1) (fun _ _ => True) s.
Proof.
  intros Hw Hi Hu. rewrite getEntryTypes_spec.
  destruct (sm_Concurrent && _ && _) eqn:Eb; [|by apply handleEntries_wp].
  rewrite !andb_true_iff in Eb. destruct Eb as [[Ec E1] E2].
  eapply wp_mono; [apply handleBatch_wp; eauto using forallb_batchable | | done].
  intros [] s1 Hb. by apply batched_moved.
Qed.

Lemma handle_wp (ts : list Task) : forall s : SM,
  Forall entriesTask ts -> swf s -> 0 <= s_index s -> s_lastApplied s = (s_index s, s_term s) ->
  upcoming (s_index s) (s_term s) (concat (map t_Entries ts)) ->
  wp no_panic (handle ts) (fun _ s1 =>
      s_index s1 = s_index s + len (concat (map t_Entries ts)) /\
      s_term s1 = lastTerm (s_term s) (concat (map t_Entries ts)) /\
      s_lastApplied s1 = (s_index s1, s_term s1) /\ swf s1 /\ s_taskQ s1 = s_taskQ s)
    (fun _ _ => True) s.
Proof.
  induction ts as [|t ts IH]; intros s Hts Hw Hi Hl Hu.
  { apply wp_ret. cbn. rewrite Z.add_0_r. done. }
  apply Forall_cons in Hts as [[Hn Hp] Hts]. cbn [map concat] in Hu. apply upcoming_app in Hu as [Hu1 Hu2].
  cbn [handle]. rewrite Hn. unfold isSyncTask. rewrite Hp. cbn [andb].
  apply wp_bind. eapply (wp_mono _ _ (fun _ s1 => s1 = s) _ (fun _ _ => True)); [done | | done].
  intros [] ? ->. apply wp_bind, wp_readr.
  rewrite (EntriesToApply_upcoming _ _ _ Hi Hu1).
  apply wp_bind. eapply wp_mono; [by apply handleTask_wp | | done]. intros [] s1 [W K I T].
  apply wp_bind, (setLastApplied_wp _ (s_index s) (s_term s)); [done | done | by rewrite (kp_last _ _ K) |].
  set (s2 := if bool_decide (t_Entries t = []) then s1 else _).
  assert (E2 : s_index s2 = s_index s1 /\ s_term s2 = s_term s1 /\ swf s2 /\
    s_lastApplied s2 = (s_index s1, s_term s1) /\ s_taskQ s2 = s_taskQ s).
  { unfold s2. case_bool_decide as He; split_and!; try done.
    - rewrite (kp_last _ _ K), Hl, I, T, He. cbn. by rewrite Z.add_0_r.
    - apply (kp_taskQ _ _ K).
    - destruct W. by split.
    - cbn. by rewrite I, T.
    - apply (kp_taskQ _ _ K). }
  destruct E2 as (Ei & Et & W2 & El & Eq). pose proof (len_nonneg (t_Entries t)).
  eapply wp_mono; [apply IH; rewrite ?Ei, ?Et; [done | done | lia | done | by rewrite I, T] | | done].
  intros [] s3 (I3 & T3 & L3 & W3 & Q3). cbn [map concat]. rewrite len_app, lastTerm_app.
  split_and!; [rewrite I3, Ei, I; lia | by rewrite T3, Et, T | done | done | congruence].
Qed.

(** ** Batches and single entries *)

(** A state machine for which a batch is the sequence of its entries. *)
Definition sequential : Prop := forall e es (u : U), es <> [] ->
  sm_Update (e :: es) u = (rs1 ← sm_Update [e]; rs2 ← sm_Update es; ret (rs1 ++ rs2)) u.

Lemma batchable_cases e : batchable e ->
  pb.IsConfigChange e = false /\ pb.IsSessionManaged e = true /\
  pb.IsNewSessionRequest e = false /\ pb.IsEndOfSessionRequest e = false /\ pb.IsNoOPSession e = true.
Proof.
  intros [Hu Hn]. unfold pb.IsUpdateEntry in Hu. rewrite !andb_true_iff, !negb_true_iff in Hu. tauto.
Qed.

Lemma handleEntry_init e es b (s : SM) : 0 <= s_index s -> batchable e -> isInit s e ->
  upcoming (s_index s) (s_term s) (e :: es) ->
  handleEntry e b s = Ret tt (set_term (pb.e_Term e) (set_index (pb.e_Index e) s)).
Proof.
  intros Hi Hb Hin Hu. unfold handleEntry.
  destruct (batchable_cases e Hb) as (-> & -> & -> & -> & _). cbn [negb].
  unfold mbind, M_bind, get. unfold isInit in Hin. rewrite Hin. cbn [negb].
  unfold noop, deferring, mbind, M_bind, skip, ret. cbn [pb.e_Index pb.e_Term].
  change (negb (pb.IsEmpty _) || pb.IsSessionManaged _) with false. cbv beta iota.
  by rewrite (setApplied_eq e es s Hi Hu).
Qed.

Lemma NativeSM_Update_eq x (u u' : U) rs : sm_ok u -> sm_Update [x] u = Ret rs u' ->
  exists r, NativeSM_Update x u = Ret r u'.
Proof.
  intros Hok E. pose proof (sm_Update_ok [x] u ltac:(done) (or_intror eq_refl) Hok) as Hw.
  unfold wp in Hw. rewrite E in Hw. destruct Hw as [Hi _].
  unfold NativeSM_Update, mbind, M_bind. rewrite E.
  destruct rs as [|r [|]]; try done. by exists (sme_Result r).
Qed.

Lemma handleEntry_new e es b payload rs (u : U) (s : SM) :
  0 <= s_index s -> swf s -> batchable e -> isNew s e ->
  upcoming (s_index s) (s_term s) (e :: es) -> GetPayload e = OK payload ->
  sm_Update [mkSmEntry (pb.e_Index e) payload emptyResult] (s_sm s) = Ret rs u ->
  exists n, handleEntry e b s = Ret tt (set_node n (set_term (pb.e_Term e)
    (set_index (pb.e_Index e) (onDisk_to [e] (set_sm u s))))).
Proof.
  intros Hi Hw Hb Hn Hu Hp Eu. destruct (NativeSM_Update_eq _ _ _ _ (sw_sm _ Hw) Eu) as [r Er].
  pose proof Hu as [(Ei & _ & _ & _ & He) _].
  destruct (onApplied_eq e r b (set_term (pb.e_Term e)
    (set_index (pb.e_Index e) (onDisk_to [e] (set_sm u s)))) (batchable_key e He Hb)) as [n En].
  exists n. unfold handleEntry, update, execute.
  destruct (batchable_cases e Hb) as (-> & -> & -> & -> & ->). cbn [negb andb].
  unfold isNew in Hn. unfold deferring, mbind, M_bind, get, skip, ret, readr.
  rewrite Hn, Hp. cbn [negb]. unfold on_sm, zoom. rewrite Er.
  rewrite setOnDiskIndex_eq.
  2:{ intros Ho. eapply (onDisk_last e [] s (s_index s) (s_term s)); try done.
      destruct Hu as [Hu _]. by split. }
  change (if s_onDiskSM (set_sm u s) then set_onDiskIndex (pb.e_Index e) (set_sm u s) else set_sm u s)
    with (onDisk_to [e] (set_sm u s)).
  assert (Hsa : setApplied (pb.e_Index e) (pb.e_Term e) (onDisk_to [e] (set_sm u s)) =
    Ret tt (set_term (pb.e_Term e) (set_index (pb.e_Index e) (onDisk_to [e] (set_sm u s))))).
  { apply (setApplied_eq e es); unfold onDisk_to; cbn; by destruct (s_onDiskSM s). }
  rewrite Hsa. exact En.
Qed.

Lemma handleEntries_init b pre : forall post (s : SM), 0 <= s_index s -> Forall batchable pre ->
  Forall (isInit s) pre -> upcoming (s_index s) (s_term s) (pre ++ post) ->
  handleEntries b (pre ++ post) s = handleEntries b post (advance pre s).
Proof.
  induction pre as [|e pre IH]; intros post s Hi Hb Hin Hu; [done|].
  apply Forall_cons in Hb as [Hb Hbs]. apply Forall_cons in Hin as [Hin Hins].
  cbn [app handleEntries advance]. unfold mbind, M_bind.
  rewrite (handleEntry_init e (pre ++ post)) by done. destruct Hu as [(Ei & _) Hu].
  apply IH; [cbn; lia | done | done | cbn; by rewrite Ei].
Qed.

(** Splitting off the first entry of a batch. *)
Lemma batch_split : sequential -> forall x ents rs (u0 u : U), sm_Update (x :: ents) u0 = Ret rs u ->
  exists rs1 u1, sm_Update [x] u0 = Ret rs1 u1 /\
    ((ents = [] /\ u1 = u) \/ (ents <> [] /\ exists rs2, sm_Update ents u1 = Ret rs2 u)).
Proof.
  intros Hs x ents rs u0 u E. destruct ents as [|y ents].
  - exists rs, u. split; [done|]. by left.
  - rewrite Hs in E by done. unfold mbind, M_bind, ret in E.
    destruct (sm_Update [x] u0) as [rs1 u1|? ?|?]; [|done..].
    destruct (sm_Update (y :: ents) u1) as [rs2 u2|? ?|?] eqn:E2; [|done..].
    exists rs1, u1. split; [done|]. right. split; [done|]. exists rs2. by simplify_eq.
Qed.

(** The state between the first entry of a batch and the others. *)
Definition afterFirst (e : pb.Entry) (u : U) (n : N) (s : SM) : SM :=
  set_node n (set_term (pb.e_Term e) (set_index (pb.e_Index e) (onDisk_to [e] (set_sm u s)))).

Lemma afterFirst_fields e u n s : let s' := afterFirst e u n s in
  s_index s' = pb.e_Index e /\ s_term s' = pb.e_Term e /\ s_sm s' = u /\
  (forall x, isNew s' x <-> isNew s x).
Proof. unfold afterFirst, onDisk_to. cbn. by destruct s as [? ? ? ? ? ? ? ? ? ? ? [] ?]. Qed.

Lemma afterFirst_rest e e2 post u1 u n n' s :
  upcoming (s_index s) (s_term s) (e :: e2 :: post) ->
  set_node n' (onDisk_to (e2 :: post) (set_sm u (advance (e2 :: post) (afterFirst e u1 n s)))) =
  set_node n' (onDisk_to (e :: e2 :: post) (set_sm u (advance (e :: e2 :: post) s))).
Proof.
  intros Hu. destruct (afterFirst_fields e u1 n s) as (Ei & Et & _ & _).
  rewrite (advance_eq (e :: e2 :: post) s Hu). destruct Hu as [(E1 & _) Hu].
  rewrite advance_eq, Ei, Et by (by rewrite Ei, Et, E1). unfold onDisk_to at 1 2.
  change (last (e :: e2 :: post)) with (last (e2 :: post)).
  rewrite (len_cons e), E1, Z.add_assoc. cbn [lastTerm].
  destruct (last (e2 :: post)) eqn:Hl; [|by apply last_None in Hl].
  unfold afterFirst, onDisk_to. by destruct s as [? ? ? ? ? ? ? ? ? ? ? [] ?].
Qed.

Lemma handleEntries_new b post : sequential -> forall ents rs (u : U) (s : SM),
  post <> [] -> 0 <= s_index s -> swf s -> Forall batchable post -> Forall (isNew s) post ->
  upcoming (s_index s) (s_term s) post -> payloads post = OK ents ->
  sm_Update ents (s_sm s) = Ret rs u ->
  exists n, handleEntries b post s =
    Ret tt (set_node n (onDisk_to post (set_sm u (advance post s)))).
Proof.
  intros Hseq. induction post as [|e post IH]; intros ents rs u s Hne Hi Hw Hb Hn Hu Hp Eu; [done|].
  apply Forall_cons in Hb as [Hb Hbs]. apply Forall_cons in Hn as [Hn Hns].
  cbn [payloads] in Hp. unfold mbind, result_bind in Hp.
  destruct (GetPayload e) as [payload|?|?] eqn:Epl; [|done..].
  destruct (payloads post) as [ents'|?|?] eqn:Eps; [|done..]. injection Hp as <-.
  destruct (batch_split Hseq _ _ _ _ _ Eu) as (rs1 & u1 & Eu1 & Hrest).
  set (bl := b && bool_decide (post = [])).
  destruct (handleEntry_new e post bl payload rs1 u1 s) as [n En]; [done..|].
  fold (afterFirst e u1 n s) in En. pose proof (upcoming_ready e post s Hw Hi Hu) as Hr.
  pose proof (handleEntry_wp no_panic e bl s (or_intror Hr)) as Hst. unfold wp in Hst.
  rewrite En in Hst. apply (stepped_swf e s _ Hr) in Hst.
  destruct (afterFirst_fields e u1 n s) as (Fi & Ft & Fs & Fn). pose proof Hu as [(Ei & _) Hes].
  cbn [handleEntries]. fold bl. unfold mbind, M_bind. rewrite En. destruct post as [|e2 post].
  - destruct Hrest as [[_ ->] | [Hx _]]; [|by injection Eps as <-]. exists n. cbn. unfold skip, ret.
    f_equal. by destruct s as [? ? ? ? ? ? ? ? ? ? ? [] ?].
  - destruct Hrest as [[-> _] | (_ & rs2 & Eu2)]; [by apply payloads_index in Eps|].
    destruct (IH ents' rs2 u (afterFirst e u1 n s)) as [n' En'];
      rewrite ?Fi, ?Ft, ?Fs; try done; [lia | | by rewrite Ei |].
    + eapply Forall_impl; [exact Hns|]. intros x. apply Fn.
    + exists n'. rewrite En'. f_equal. by apply afterFirst_rest.
Qed.

(** C24: batching is an optimisation only.  For a state machine whose batches are the
    sequence of their entries, applying a batch leads to the state that applying the
    entries one at a time leads to, up to what the node was told to notify. *)
Theorem handleBatch_equiv (input : list pb.Entry) (b : bool) (s s1 : SM) :
  sm_Concurrent = true -> sequential -> swf s -> 0 <= s_index s ->
  upcoming (s_index s) (s_term s) input -> Forall batchable input ->
  handleBatch input s = Ret tt s1 ->
  exists n, handleEntries b input s = Ret tt (set_node n s1).
Proof.
  intros Hc Hseq Hw Hi Hu Hb E. pose proof (handleBatch_wp input s Hc Hw Hi Hu Hb) as Hbat.
  unfold wp in Hbat. rewrite E in Hbat.
  destruct Hbat as (pre & post & ents & u & n & -> & Hpre & Hpost & Ep & Hsm & ->).
  apply Forall_app in Hb as [Hb1 Hb2]. rewrite handleEntries_init by done.
  pose proof Hu as Hu0. apply upcoming_app in Hu as [Hu1 Hu2]. pose proof (len_nonneg pre).
  pose proof (advance_eq pre s Hu1) as Ha.
  destruct Hsm as [[-> ->] | (Hne & rs & Eu)].
  - exists (s_node s). rewrite app_nil_r, Ha. cbn. by destruct s.
  - destruct (handleEntries_new b post Hseq ents rs u (advance pre s)) as [n' En']; rewrite ?Ha; try done.
    + cbn. lia.
    + destruct Hw as [W1 W2 W3 W4]. split; cbn; try done. intros Ho. specialize (W3 Ho). lia.
    + rewrite Ha in En'. exists n'. rewrite En'. f_equal.
      rewrite (advance_eq post) by done. rewrite (advance_eq (pre ++ post) s Hu0).
      rewrite lastTerm_app, len_app, Z.add_assoc. unfold onDisk_to.
      destruct (last post); by destruct s as [? ? ? ? ? ? ? ? ? ? ? [] ?].
Qed.

(** ** The task queue *)

(** What [Handle] finds behind the tasks it applies: nothing, or a snapshot task. *)
Definition stopsAt (rest : list Task) : Prop :=
  match rest with [] => True | t :: _ => IsSnapshotTask t = true end.

Lemma onTaskQ_Get (s : SM) : tqwf (s_taskQ s) ->
  exists q, on_taskQ Get s = Ret (head (queued (s_taskQ s))) (set_taskQ q s) /\
    queued q = tail (queued (s_taskQ s)) /\ tqwf q.
Proof.
  intros Hq. destruct (Get_fifo (s_taskQ s) Hq) as (q & E & Q & W). exists q.
  unfold on_taskQ, zoom. by rewrite E.
Qed.

Lemma drain_eq ts : forall fuel batch rest (s : SM), Forall entriesTask ts -> stopsAt rest ->
  tqwf (s_taskQ s) -> queued (s_taskQ s) = ts ++ rest -> (length ts < fuel)%nat ->
  exists q, queued q = tail rest /\ tqwf q /\
    drain fuel batch s =
      (handle (batch ++ ts) ;; ret (default emptyTask (head rest))) (set_taskQ q s).
Proof.
  induction ts as [|t ts IH]; intros fuel batch rest s Hts Hr Hq Eq Hf;
    (destruct fuel as [|fuel]; [cbn in Hf; lia|]); destruct (onTaskQ_Get s Hq) as (q & Eg & Q & W);
    cbn [drain]; unfold mbind at 1, M_bind; rewrite Eg, Eq; cbn [app head].
  - rewrite app_nil_r. exists q. rewrite Q, Eq. split_and!; [done | done |].
    destruct rest as [|t rest]; [done|]. cbn in Hr. cbn. by rewrite Hr.
  - apply Forall_cons in Hts as [[Hn Hp] Hts]. rewrite Hn. unfold isSyncTask. rewrite Hp.
    cbn [andb]. unfold mbind at 1, M_bind, readr. cbn [negb].
    destruct (IH fuel (batch ++ [t]) rest (set_taskQ q s)) as (q' & Q' & W' & E');
      [done | done | done | cbn; by rewrite Q, Eq | cbn in Hf; lia |].
    exists q'. split_and!; [done | done |]. rewrite E', <- app_assoc. done.
Qed.

Lemma queued_length q : tqwf q -> (length (queued q) <= length (tasks q))%nat.
Proof. intros _. unfold queued, dropZ. rewrite length_drop. lia. Qed.

Lemma stepReady_wp (s : SM) (P : SM -> Prop) : (forall n, P (set_node n s)) ->
  wp no_panic (on_node node_StepReady) (fun _ => P) (fun _ _ => True) s.
Proof.
  intros HP. apply wp_zoom. eapply wp_mono; [apply node_StepReady_ok | | done]. intros. apply HP.
Qed.

(** [Handle] in terms of the queue: the tasks up to a snapshot task are handled. *)
Lemma Handle_eq ts rest (s : SM) : Forall entriesTask ts -> stopsAt rest ->
  tqwf (s_taskQ s) -> queued (s_taskQ s) = ts ++ rest ->
  exists q, queued q = tail rest /\ tqwf q /\
    Handle s = ((if bool_decide (ts ++ rest = []) then fun c => c
                 else deferring (on_node node_StepReady))
      (handle ts ;; ret (default emptyTask (head rest)))) (set_taskQ q s).
Proof.
  intros Hts Hr Hq Eq. destruct (onTaskQ_Get s Hq) as (q & Eg & Q & W).
  unfold Handle, mbind at 1, M_bind. rewrite Eg, Eq.
  destruct ts as [|t ts]; cbn [app head].
  - exists q. rewrite Q, Eq. split_and!; [done | done |].
    destruct rest as [|t rest]; cbn; [done|]. cbn in Hr. by rewrite Hr.
  - apply Forall_cons in Hts as [[Hn Hp] Hts]. rewrite Hn. unfold isSyncTask. rewrite Hp. cbn [andb].
    rewrite (bool_decide_eq_false_2 (_ = [])) by done.
    assert (Hq' : queued q = ts ++ rest) by (by rewrite Q, Eq).
    destruct (drain_eq ts (S (length (tasks q))) [t] rest (set_taskQ q s)) as (q' & Q' & W' & E');
      [done | done | done | done | |].
    { pose proof (queued_length q W) as Hl. rewrite Hq', length_app in Hl. lia. }
    exists q'. split_and!; [done | done |].
    unfold deferring. unfold mbind at 1, M_bind at 1, readr at 1. cbn [negb].
    unfold mbind at 1, M_bind at 1, get at 1. cbv zeta. cbn [s_taskQ set_taskQ].
    rewrite E'. done.
Qed.

(** All entries of [ts] are applied, and [rest] is what was queued behind them. *)
Definition allApplied (ts rest : list Task) (s : SM) (t : Task) (s1 : SM) : Prop :=
  t = default emptyTask (head rest) /\ queued (s_taskQ s1) = tail rest /\ swf s1 /\
  s_index s1 = s_index s + len (concat (map t_Entries ts)) /\
  s_term s1 = lastTerm (s_term s) (concat (map t_Entries ts)) /\
  s_lastApplied s1 = (s_index s1, s_term s1).

(** C15: applying committed entries.  When the queued tasks up to the next snapshot
    task carry entries that continue the log from the last applied one, [Handle] does
    not panic or run on, and unless the user's state machine or the node reports an
    error it applies all of them: the index and the term of the state machine and the
    last applied index that other components read end at the last entry, the
    invariants of the sessions and of the on-disk index hold again, and the snapshot
    task is returned with what is queued behind it left in the queue. *)
Theorem Handle_applies (ts rest : list Task) (s : SM) :
  tqwf (s_taskQ s) -> queued (s_taskQ s) = ts ++ rest -> Forall entriesTask ts -> stopsAt rest ->
  swf s -> 0 <= s_index s -> s_lastApplied s = (s_index s, s_term s) ->
  upcoming (s_index s) (s_term s) (concat (map t_Entries ts)) ->
  wp no_panic Handle (allApplied ts rest s) (fun _ _ => True) s.
Proof.
  intros Hq Eq Hts Hr Hw Hi Hl Hu. destruct (Handle_eq ts rest s Hts Hr Hq Eq) as (q & Q & W & E).
  assert (Hh : wp no_panic (handle ts ;; ret (default emptyTask (head rest)))
    (allApplied ts rest s) (fun _ _ => True) (set_taskQ q s)).
  { apply wp_bind. eapply wp_mono; [apply handle_wp; try done; by destruct Hw; split | | done].
    intros [] s1 (I1 & T1 & L1 & W1 & Q1). apply wp_ret. unfold allApplied. rewrite Q1. by split_and!. }
  unfold wp. rewrite E. destruct (bool_decide _); [exact Hh|].
  apply wp_deferring. eapply wp_mono; [exact Hh | |].
  - intros t s1 (Et & Eq1 & W1 & Hrest). apply stepReady_wp. intros n.
    destruct W1. by split_and!; try apply Hrest.
  - intros e s1 _. by apply stepReady_wp.
Qed.
End apply.
