(* ===== verification/RsmRecover.v ===== *)
(** * Recovering from a snapshot

    What [recover] does with a snapshot, for every snapshotter: a snapshot that is
    not newer than what is applied is refused, a recovered machine continues from the
    snapshot, and an on-disk machine has the state the snapshot stands for. *)
From S2P Require Import Prelude Raftpb LogDB Wire Codec Session RsmMembership Encoded TaskQueue Rsm.

Section recover.
Context {N U C : Type} `{INode N} `{IStateMachine U} `{OrderedCache C} `{ISnapshotter C U}.
Abbreviation SM := (StateMachine N U C).

(** What decides where the next entry is applied. *)
Record samePosition (s s1 : SM) : Prop := {
  pos_index : s_index s1 = s_index s;
  pos_term : s_term s1 = s_term s;
  pos_last : s_lastApplied s1 = s_lastApplied s;
  pos_members : s_members s1 = s_members s
}.

(** The on-disk index as far as it is known from the index the machine was opened
    with. *)
Definition diskOk (s : SM) : Prop := s_onDiskInitIndex s <= s_onDiskIndex s.

Definition sameDisk (s s1 : SM) : Prop :=
  s_onDiskIndex s1 = s_onDiskIndex s /\ s_onDiskInitIndex s1 = s_onDiskInitIndex s /\
  s_onDiskSM s1 = s_onDiskSM s.

Lemma load_wp ss (s : SM) :
  wp any_panic (load ss) (fun _ s1 => samePosition s s1 /\ sameDisk s s1)
    (fun _ s1 => samePosition s s1) s.
Proof.
  apply wp_bind, wp_try, wp_zoom. unfold wp at 1.
  destruct (ss_Load ss _) as [[] [m u]|err [m u]|p]; [by apply wp_ret | | done].
  apply wp_bind. by destruct (bool_decide _).
Qed.

Lemma mustBeOnDiskSM_wp (Q : unit -> SM -> Prop) E s :
  (s_onDiskSM s = true -> Q tt s) -> wp any_panic mustBeOnDiskSM Q E s.
Proof.
  intros HQ. unfold mustBeOnDiskSM, get, mbind, M_bind, wp, panicf, panic_, skip, ret.
  destruct (s_onDiskSM s); cbn; [auto | done].
Qed.

(** The on-disk state covers the snapshot. *)
Definition covered (ss : pb.Snapshot) (s : SM) : Prop := pb.ss_OnDiskIndex ss <= s_onDiskIndex s.

Lemma checkPartial_wp ss init (s : SM) : diskOk s ->
  wp any_panic (checkPartialSnapshotApplyOnDiskSM ss init)
    (fun _ s1 => s1 = s /\ covered ss s) (fun _ _ => False) s.
Proof.
  intros Hd. apply wp_bind, mustBeOnDiskSM_wp. intros _. apply wp_bind. unfold wp at 1, get.
  unfold diskOk, covered in *. destruct init.
  - destruct (Z.ltb_spec (s_onDiskInitIndex s) (pb.ss_OnDiskIndex ss)); [done|].
    apply wp_ret. split; [done | lia].
  - destruct (Z.ltb_spec (s_onDiskIndex s) (pb.ss_OnDiskIndex ss)); [done|].
    apply wp_ret. split; [done | lia].
Qed.

Lemma recoverRequired_wp ss init (s : SM) : diskOk s ->
  wp any_panic (recoverRequired ss init)
    (fun b s1 => s1 = s /\ (b = false -> covered ss s)) (fun _ _ => False) s.
Proof.
  intros Hd. apply wp_bind, mustBeOnDiskSM_wp. intros _. apply wp_bind. unfold wp at 1, get.
  unfold diskOk, covered in *. destruct (pb.ss_Witness ss || pb.ss_Dummy ss); [done|].
  destruct init; [destruct (pb.ss_Imported ss); [by apply wp_ret|]|];
    apply wp_ret; (split; [done|]); intros Hb%Z.ltb_ge; lia.
Qed.

Lemma checkRecover_wp ss init (s : SM) :
  wp any_panic (checkRecoverOnDiskSM ss init)
    (fun _ s1 => s1 = s /\
      (pb.ss_Imported ss && init = false -> s_onDiskInitIndex s < pb.ss_OnDiskIndex ss))
    (fun _ _ => False) s.
Proof.
  apply wp_bind, mustBeOnDiskSM_wp. intros _. apply wp_bind. unfold wp at 1, get.
  destruct (pb.ss_Imported ss && init); [by apply wp_ret|].
  destruct (Z.leb_spec (pb.ss_OnDiskIndex ss) (s_onDiskInitIndex s)); [done|].
  destruct (Z.leb_spec (pb.ss_OnDiskIndex ss) (s_onDiskIndex s)); [done | by apply wp_ret].
Qed.

Lemma applyOnDisk_wp ss init (s : SM) :
  (pb.ss_Imported ss && init = false -> s_onDiskInitIndex s < pb.ss_OnDiskIndex ss) ->
  wp any_panic (applyOnDisk ss init)
    (fun _ s1 => samePosition s s1 /\ covered ss s1 /\ diskOk s1 /\ s_onDiskSM s1 = s_onDiskSM s)
    (fun _ _ => False) s.
Proof.
  intros Hc. apply wp_bind, mustBeOnDiskSM_wp. intros _. apply wp_bind, wp_modify.
  unfold covered, diskOk. destruct (pb.ss_Imported ss && init).
  - apply wp_modify. by split_and!; cbn; try lia.
  - specialize (Hc eq_refl). apply wp_ret. by split_and!; cbn; try lia.
Qed.

Lemma isShrunk_wp ss init (s : SM) :
  wp any_panic (isShrunkSnapshot ss init) (fun _ s1 => s1 = s) (fun _ s1 => s1 = s) s.
Proof.
  apply wp_bind. unfold wp at 1, get. destruct (s_onDiskSM s); cbn [negb]; [|done].
  destruct (pb.ss_Witness ss || pb.ss_Dummy ss); [done|].
  apply wp_bind, wp_readr. destruct (ss_Shrunk ss) as [b|err|p]; [|done..].
  by destruct init, b.
Qed.

Lemma doRecover_wp ss init (s : SM) : diskOk s ->
  wp any_panic (doRecover ss init)
    (fun _ s1 => GetLastApplied s < pb.ss_Index ss /\ samePosition s s1 /\ diskOk s1 /\
      (s_onDiskSM s1 = true -> covered ss s1))
    (fun _ s1 => samePosition s s1) s.
Proof.
  intros Hd. apply wp_bind. unfold wp at 1, get.
  destruct (Z.leb_spec (pb.ss_Index ss) (GetLastApplied s)) as [|Hn]; [done|].
  destruct (s_aborted s); [done|]. cbv zeta.
  apply wp_bind. eapply wp_mono; [apply isShrunk_wp | | by intros ? ? ->]. intros shrunk ? ->.
  destruct (_ || shrunk).
  { destruct (s_onDiskSM s) eqn:Ho; [|apply wp_ret; split_and!; done || (by rewrite Ho)].
    eapply wp_mono; [by apply checkPartial_wp | | done]. by intros [] ? [-> Hc]. }
  destruct (s_onDiskSM s) eqn:Ho; cbn [negb].
  2:{ eapply wp_mono; [apply load_wp | | done]. intros [] s1 [Hp (E1 & E2 & E3)].
      split_and!; try done; [unfold diskOk in *; congruence | rewrite E3, Ho; done]. }
  apply wp_bind. eapply wp_mono; [by apply recoverRequired_wp | | done].
  intros required ? [-> Hreq]. destruct required; [|by apply wp_ret; split_and!; auto].
  apply wp_bind. eapply wp_mono; [apply checkRecover_wp | | done]. intros [] ? [-> Hck].
  apply wp_bind. eapply wp_mono; [apply load_wp | | done]. intros [] s1 [Hp (E1 & E2 & E3)].
  eapply wp_mono; [apply applyOnDisk_wp; by rewrite E2 | | done].
  intros [] s2 (Hp2 & Hc2 & Hd2 & _). split_and!; try done.
  destruct Hp, Hp2. split; congruence.
Qed.

(** C29: recovery from a snapshot.  A snapshot that is not newer than what has been
    applied is refused and changes nothing; whenever recovery fails the machine stays
    where it was; and when it succeeds the machine continues from the index, term and
    membership of the snapshot, and the state of an on-disk machine is not older than
    the snapshot. *)
Theorem recover_sound (ss : pb.Snapshot) (init : bool) (s : SM) : diskOk s ->
  (pb.ss_Index ss <= GetLastApplied s -> recover ss init s = Err ErrSnapshotOutOfDate s) /\
  wp any_panic (recover ss init)
    (fun _ s1 => GetLastApplied s < pb.ss_Index ss /\
      s_index s1 = pb.ss_Index ss /\ s_term s1 = pb.ss_Term ss /\
      s_lastApplied s1 = (pb.ss_Index ss, pb.ss_Term ss) /\
      s_members s1 = membership_set (pb.ss_Membership ss) (s_members s) /\
      diskOk s1 /\ (s_onDiskSM s1 = true -> covered ss s1))
    (fun _ s1 => samePosition s s1) s.
Proof.
  intros Hd. split.
  - intros Hi. unfold recover, doRecover, mbind, M_bind, get. by rewrite (proj2 (Z.leb_le _ _)).
  - apply wp_bind. eapply wp_mono; [by apply doRecover_wp | | done].
    intros [] s1 (Hn & Hp & Hd1 & Hc). apply wp_modify. cbn. rewrite (pos_members _ _ Hp).
    by split_and!.
Qed.
End recover.

(** ** An aborted [Open]

    The adapter of an on-disk state machine wraps the errors of [Open], so comparing
    one with [ErrOpenStopped] is never true and the machine is not marked as aborted. *)
Section open.
Context {N U C : Type} `{OrderedCache C} `{IOnDiskSM U} `{ErrorsLib}.
#[local] Instance diskAdapter : IStateMachine (diskSM U) := OnDiskStateMachine.

Lemma openStopped_not_aborted (s s' : StateMachine N (diskSM U) C) err :
  (forall e, WithStack e <> ErrOpenStopped) -> OpenOnDiskStateMachine s = Err err s' ->
  s_aborted s' = s_aborted s.
Proof.
  intros Hw. unfold OpenOnDiskStateMachine, mustBeOnDiskSM, try_, on_sm, zoom, mbind, M_bind, get.
  destruct (s_onDiskSM s); cbn; [|done].
  unfold mbind, M_bind, get, withStack, on_disk, zoom, modify, panicf, panic_.
  destruct (od_opened (s_sm s)); [done|]. cbn.
  destruct (disk_Open (od_sm (s_sm s))) as [i u|e u|p]; cbn; [done | | done].
  rewrite bool_decide_eq_false_2 by apply Hw. by intros [= _ <-].
Qed.
End open.
