(* ===== verification/RsmWitness.v ===== *)
(** * The state machine manager at work

    The theorems on applying entries and on recovery at the counter and the client
    of [RsmSamples]. *)
From S2P Require Import Prelude Raftpb LogDB Wire Codec Session RsmMembership Encoded EncodedSpec.
From S2P Require Import TaskQueue Rsm RsmSteps RsmSessions RsmSamples RsmApply RsmRecover.
From Stdlib Require Import Strings.Byte.

Abbreviation counterMachine := (StateMachine (list nodeCall) Z lruCache).

Definition machine0 : counterMachine := NewStateMachine [] 0 1 1 false.

Lemma machine0_swf : swf machine0.
Proof. split; done. Qed.

(** ** Entries *)

Definition emptyEntry (index : Z) : pb.Entry :=
  pb.mkEntry 1 index pb.ApplicationEntry 0 0 0 0 [].
Definition registration (index : Z) : pb.Entry :=
  pb.mkEntry 1 index pb.ApplicationEntry 100 7 pb.SeriesIDForRegister 0 [].

Lemma emptyEntry_ok i : entryOk (emptyEntry i).
Proof. split; intros; done. Qed.
Lemma registration_ok i : entryOk (registration i).
Proof. split; intros; done. Qed.
Lemma proposal_ok i k r : entryOk (proposal i k r).
Proof. split; intros; done. Qed.

Definition task1 : Task :=
  mkTask [emptyEntry 1; registration 2; proposal 3 1 0] DefaultSSRequest 1 1 0
    false false false false false false.
Definition task2 : Task :=
  mkTask [proposal 4 0 0; proposal 5 0 0] DefaultSSRequest 1 1 0
    false false false false false false.

(** The machine with two tasks of entries queued, and a snapshot task behind them. *)
Definition saveTask : Task :=
  mkTask [] DefaultSSRequest 1 1 0 true false false false false false.
Definition machineQ : counterMachine :=
  set_taskQ (mkTaskQueue [task1; task2; saveTask] 24 0) machine0.

Lemma machineQ_swf : swf machineQ.
Proof. split; done. Qed.

Lemma Handle_applies_witness :
  wp no_panic Handle (allApplied [task1; task2] [saveTask] machineQ) (fun _ _ => True) machineQ.
Proof.
  apply Handle_applies; [done | done | repeat constructor | done | exact machineQ_swf | done | done |].
  cbn. split_and!; (done || lia || apply emptyEntry_ok || apply registration_ok || apply proposal_ok).
Defined.

(** ** Batches *)

Lemma counter_sequential : sequential (U := Z).
Proof. intros e es u _. done. Qed.

Definition machine2 : counterMachine :=
  match handleBatch [proposal 1 0 0; proposal 2 0 0] machine0 with Ret _ s => s | _ => machine0 end.

Lemma handleBatch_equiv_witness :
  exists n, handleEntries true [proposal 1 0 0; proposal 2 0 0] machine0
    = Ret tt (set_node n machine2).
Proof.
  apply handleBatch_equiv;
    [done | exact counter_sequential | exact machine0_swf | done | | | by vm_compute].
  - cbn. split_and!; (done || lia || apply proposal_ok).
  - rewrite !Forall_cons, Forall_nil. done.
Defined.

(** ** A snapshot *)

#[local] Instance snapshotter42 : ISnapshotter lruCache Z := {
  ss_GetSnapshot := (pb.zeroSnapshot, None);
  ss_IsNoSnapshotError _ := false;
  ss_Shrunk _ := OK false;
  ss_Load _ := modify (fun p => (p.1, 42))
}.

Definition snapshot9 : pb.Snapshot :=
  pb.mkSnapshot EmptyString 10 9 1 pb.zeroMembership [] [] false 1 pb.ConcurrentStateMachine
    false 0 false.

Lemma recover_sound_witness :
  (pb.ss_Index snapshot9 <= GetLastApplied machine0 ->
    recover snapshot9 false machine0 = Err ErrSnapshotOutOfDate machine0) /\
  wp any_panic (recover snapshot9 false)
    (fun _ (s1 : counterMachine) => GetLastApplied machine0 < pb.ss_Index snapshot9 /\
      s_index s1 = pb.ss_Index snapshot9 /\ s_term s1 = pb.ss_Term snapshot9 /\
      s_lastApplied s1 = (pb.ss_Index snapshot9, pb.ss_Term snapshot9) /\
      s_members s1 = membership_set (pb.ss_Membership snapshot9) (s_members machine0) /\
      diskOk s1 /\ (s_onDiskSM s1 = true -> covered snapshot9 s1))
    (fun _ s1 => samePosition machine0 s1) machine0.
Proof. by apply recover_sound. Defined.

