(* ===== verification/Bytes.v ===== *)
(** * Byte strings

    What the table storage uses of the packages [bytes] and [encoding/binary]:
    the lexicographic order, and 64-bit integers of fixed width in both byte
    orders. *)
From S2P Require Import Prelude Raftpb LogDB Wire WireSpec.
From Stdlib Require Import Strings.Byte.

#[export] Instance byte_eq_dec : EqDecision byte := Byte.byte_eq_dec.
#[export] Program Instance byte_countable : Countable byte :=
  inj_countable Byte.to_N Byte.of_N _.
Next Obligation. intros b. apply Byte.of_to_N. Qed.

Lemma byteZ_inj a b : byteZ a = byteZ b -> a = b.
Proof.
  unfold byteZ. intros H%N2Z.inj. apply (f_equal Byte.of_N) in H.
  rewrite !Byte.of_to_N in H. by injection H.
Qed.

(** ** The lexicographic order *)

(** [bytes.Compare] *)
Fixpoint bytesCompare (a b : bytes) : comparison :=
  match a, b with
  | [], [] => Eq
  | [], _ :: _ => Lt
  | _ :: _, [] => Gt
  | x :: a, y :: b =>
      match byteZ x ?= byteZ y with Eq => bytesCompare a b | c => c end
  end.

Definition blt (a b : bytes) : Prop := bytesCompare a b = Lt.
Definition ble (a b : bytes) : Prop := bytesCompare a b <> Gt.

#[export] Instance blt_dec : RelDecision blt.
Proof. intros a b. unfold blt. destruct (bytesCompare a b); by (left + right). Defined.
#[export] Instance ble_dec : RelDecision ble.
Proof. intros a b. unfold ble. destruct (bytesCompare a b); (by left) || (right; by intros []). Defined.

Lemma bytesCompare_refl a : bytesCompare a a = Eq.
Proof. induction a as [|x a IH]; simpl; [done|]. by rewrite Z.compare_refl. Qed.

Lemma bytesCompare_eq a b : bytesCompare a b = Eq <-> a = b.
Proof.
  split; [|intros ->; apply bytesCompare_refl].
  revert b. induction a as [|x a IH]; intros [|y b]; simpl; try done.
  destruct (Z.compare_spec (byteZ x) (byteZ y)) as [E|E|E]; try done.
  intros H%IH. by rewrite H, (byteZ_inj _ _ E).
Qed.

Lemma bytesCompare_antisym a b : bytesCompare b a = CompOpp (bytesCompare a b).
Proof.
  revert b. induction a as [|x a IH]; intros [|y b]; simpl; try done.
  rewrite (Z.compare_antisym (byteZ x) (byteZ y)).
  destruct (byteZ x ?= byteZ y); simpl; [apply IH|done..].
Qed.

Lemma blt_trans a b c : blt a b -> blt b c -> blt a c.
Proof.
  unfold blt. revert b c. induction a as [|x a IH]; intros [|y b] [|z c]; simpl; try done.
  destruct (Z.compare_spec (byteZ x) (byteZ y)), (Z.compare_spec (byteZ y) (byteZ z));
    destruct (Z.compare_spec (byteZ x) (byteZ z)); try done; try lia. apply IH.
Qed.

Lemma blt_irrefl a : ~ blt a a.
Proof. unfold blt. by rewrite bytesCompare_refl. Qed.

Lemma ble_not_lt a b : ble a b <-> ~ blt b a.
Proof.
  unfold ble, blt. rewrite (bytesCompare_antisym a b).
  destruct (bytesCompare a b); simpl; split; try done; intros H; by (intros ? || destruct H).
Qed.

Lemma ble_lteq a b : ble a b <-> blt a b \/ a = b.
Proof.
  unfold ble, blt. rewrite <- bytesCompare_eq.
  destruct (bytesCompare a b); split; auto; try done; by intros [|].
Qed.

Lemma ble_refl a : ble a a.
Proof. unfold ble. by rewrite bytesCompare_refl. Qed.

Lemma ble_blt_trans a b c : ble a b -> blt b c -> blt a c.
Proof. intros [Hab | ->]%ble_lteq; [by apply blt_trans|done]. Qed.
Lemma blt_ble_trans a b c : blt a b -> ble b c -> blt a c.
Proof. intros Hab [Hbc | ->]%ble_lteq; [by eapply blt_trans|done]. Qed.

#[export] Instance ble_preorder : PreOrder ble.
Proof.
  split; [intros a; apply ble_refl|]. intros a b c Hab Hbc. apply ble_not_lt.
  intros Hca. eapply blt_irrefl, (ble_blt_trans b c b); [done|]. by eapply blt_ble_trans.
Qed.

#[export] Instance ble_total : Total ble.
Proof.
  intros a b. rewrite !ble_lteq. unfold blt. rewrite (bytesCompare_antisym a b).
  destruct (bytesCompare a b) eqn:E; simpl; auto. left. right. by apply bytesCompare_eq.
Qed.

#[export] Instance ble_antisym : AntiSymm eq ble.
Proof. intros a b [H | ->]%ble_lteq; [|done]. by intros Hba%ble_not_lt. Qed.

Lemma bytesCompare_app p a b : bytesCompare (p ++ a) (p ++ b) = bytesCompare a b.
Proof. induction p; simpl; [done|]. by rewrite Z.compare_refl. Qed.

Lemma bytesCompare_app_same a b s t : length a = length b ->
  bytesCompare (a ++ s) (b ++ t) =
    match bytesCompare a b with Eq => bytesCompare s t | c => c end.
Proof.
  revert b. induction a as [|x a IH]; intros [|y b]; simpl; try done. intros [= Hl].
  rewrite IH by done. by destruct (byteZ x ?= byteZ y).
Qed.

(** ** 64-bit integers *)

(** The [n] low bytes of [x], most significant first. *)
Fixpoint beBytes (n : nat) (x : Z) : bytes :=
  match n with
  | O => []
  | S n => toByte (Z.shiftr x (8 * Z.of_nat n)) :: beBytes n x
  end.
Fixpoint beValue (acc : Z) (b : bytes) : Z :=
  match b with [] => acc | x :: b => beValue (Z.lor (Z.shiftl acc 8) (byteZ x)) b end.

(** [binary.BigEndian] and [binary.LittleEndian].  [Uint64] reads the first eight
    bytes of its slice. *)
Definition BigEndian_PutUint64 (x : Z) : bytes := beBytes 8 x.
Definition BigEndian_Uint64 (b : bytes) : result Z :=
  if len b <? 8 then PANIC IndexOutOfRange else OK (beValue 0 (take 8 b)).
Definition LittleEndian_PutUint64 (x : Z) : bytes := rev (beBytes 8 x).
Definition LittleEndian_Uint64 (b : bytes) : result Z :=
  if len b <? 8 then PANIC IndexOutOfRange else OK (beValue 0 (rev (take 8 b))).

(** [^b] *)
Definition notByte (b : byte) : byte := toByte (Z.lxor (byteZ b) 0xff).

Lemma beBytes_length n x : length (beBytes n x) = n.
Proof. induction n; simpl; congruence. Qed.

Lemma byteZ_digit n x : 0 <= x ->
  byteZ (toByte (Z.shiftr x (8 * Z.of_nat n))) = x / 256 ^ Z.of_nat n mod 256.
Proof.
  intros Hx. rewrite byteZ_toByte, Z.shiftr_div_pow2 by lia.
  by rewrite Z.pow_mul_r by lia.
Qed.

Lemma lor_digit acc b : 0 <= acc -> Z.lor (Z.shiftl acc 8) (byteZ b) = acc * 256 + byteZ b.
Proof.
  intros Ha. pose proof (byteZ_range b).
  rewrite Z.lor_comm, (lor_shiftl (byteZ b) acc 8) by (simpl; lia). simpl. lia.
Qed.

Lemma beValue_beBytes n x acc : 0 <= x -> 0 <= acc ->
  beValue acc (beBytes n x) = acc * 256 ^ Z.of_nat n + x mod 256 ^ Z.of_nat n.
Proof.
  intros Hx. revert acc. induction n as [|n IH]; intros acc Ha.
  { simpl. rewrite Z.mod_1_r. lia. }
  cbn [beBytes beValue]. pose proof (byteZ_range (toByte (Z.shiftr x (8 * Z.of_nat n)))).
  rewrite lor_digit, IH, byteZ_digit by lia.
  rewrite Nat2Z.inj_succ, Z.pow_succ_r by lia.
  rewrite (Z.mul_comm 256), Z.rem_mul_r by lia. lia.
Qed.

Lemma BigEndian_roundtrip x rest : is_u64 x ->
  BigEndian_Uint64 (BigEndian_PutUint64 x ++ rest) = OK x.
Proof.
  intros [H0 H1]. unfold BigEndian_Uint64, BigEndian_PutUint64.
  rewrite len_app. unfold len at 1. rewrite beBytes_length. pose proof (len_nonneg rest).
  destruct (Z.ltb_spec (Z.of_nat 8 + len rest) 8); [lia|].
  rewrite (take_app_length' _ _ 8) by (by rewrite beBytes_length). rewrite beValue_beBytes by lia.
  f_equal. change (256 ^ Z.of_nat 8) with W64. rewrite Z.mod_small by lia. lia.
Qed.

Lemma LittleEndian_roundtrip x : is_u64 x ->
  LittleEndian_Uint64 (LittleEndian_PutUint64 x) = OK x.
Proof.
  intros [H0 H1]. unfold LittleEndian_Uint64, LittleEndian_PutUint64, len.
  rewrite length_rev, beBytes_length. simpl (_ <? _).
  rewrite take_ge by (rewrite length_rev, beBytes_length; lia).
  rewrite rev_involutive, beValue_beBytes by lia.
  f_equal. change (256 ^ Z.of_nat 8) with W64. rewrite Z.mod_small by lia. lia.
Qed.

(** The order of the encodings is the order of the numbers. *)
Lemma beBytes_compare n x y :
  0 <= x < 256 ^ Z.of_nat n -> 0 <= y < 256 ^ Z.of_nat n ->
  bytesCompare (beBytes n x) (beBytes n y) = (x ?= y).
Proof.
  assert (Hgen : forall x y, 0 <= x -> 0 <= y ->
    bytesCompare (beBytes n x) (beBytes n y) =
      (x mod 256 ^ Z.of_nat n ?= y mod 256 ^ Z.of_nat n)).
  { clear x y. induction n as [|n IH]; intros x y Hx Hy; [by rewrite !Z.mod_1_r|].
    cbn [beBytes bytesCompare]. rewrite !byteZ_digit, IH by lia.
    rewrite Nat2Z.inj_succ, Z.pow_succ_r by lia.
    rewrite (Z.mul_comm 256), !Z.rem_mul_r by lia.
    set (P := 256 ^ Z.of_nat n). assert (0 < P) by (unfold P; lia).
    pose proof (Z.mod_pos_bound x P ltac:(lia)). pose proof (Z.mod_pos_bound y P ltac:(lia)).
    set (dx := x / P mod 256). set (dy := y / P mod 256).
    destruct (Z.compare_spec dx dy) as [->|Hlt|Hlt].
    - destruct (Z.compare_spec (x mod P) (y mod P));
        destruct (Z.compare_spec (x mod P + P * dy) (y mod P + P * dy)); done || lia.
    - symmetry. apply Z.compare_lt_iff. nia.
    - symmetry. apply Z.compare_gt_iff. nia. }
  intros Hx Hy. rewrite Hgen by lia. by rewrite !Z.mod_small.
Qed.

Lemma byteZ_notByte b : byteZ (notByte b) = 255 - byteZ b.
Proof. by destruct b. Qed.

Lemma notByte_involutive b : notByte (notByte b) = b.
Proof. by destruct b. Qed.

Lemma map_notByte_involutive b : map notByte (map notByte b) = b.
Proof. induction b; simpl; [done|]. by rewrite notByte_involutive, IHb. Qed.

Lemma notByte_compare a b : length a = length b ->
  bytesCompare (map notByte a) (map notByte b) = bytesCompare b a.
Proof.
  revert b. induction a as [|x a IH]; intros [|y b]; simpl; try done. intros [= Hl].
  rewrite IH by done. rewrite !byteZ_notByte.
  destruct (Z.compare_spec (byteZ y) (byteZ x)), (Z.compare_spec (255 - byteZ x) (255 - byteZ y));
    done || lia.
Qed.

(** The value of a list of bytes determines it; inverting the bytes inverts it. *)
Lemma beValue_cons acc b l : 0 <= acc -> beValue acc (b :: l) = beValue (acc * 256 + byteZ b) l.
Proof. intros Ha. cbn. by rewrite lor_digit. Qed.

Lemma beValue_inj a : forall b acc acc', length a = length b -> 0 <= acc -> 0 <= acc' ->
  beValue acc a = beValue acc' b -> acc = acc' /\ a = b.
Proof.
  induction a as [|x a IH]; intros [|y b] acc acc' Hl Ha Ha'; try done.
  rewrite !beValue_cons by done. pose proof (byteZ_range x). pose proof (byteZ_range y).
  intros [E ->]%IH; [|by injection Hl|lia..].
  assert (acc = acc' /\ byteZ x = byteZ y) as [-> Exy] by lia. by rewrite (byteZ_inj _ _ Exy).
Qed.

Lemma beValue_not l : forall a b, 0 <= a -> 0 <= b ->
  beValue a (map notByte l) + beValue b l = (a + b + 1) * 256 ^ len l - 1.
Proof.
  induction l as [|x l IH]; intros a b Ha Hb; [change (len (@nil byte)) with 0; cbn; lia|]. cbn [map].
  rewrite !beValue_cons, byteZ_notByte by done. pose proof (byteZ_range x).
  rewrite IH, len_cons, Z.pow_add_r by (pose proof (len_nonneg l); lia). ring.
Qed.

(** ** Numbers as bytes, for the codecs of samples *)

Fixpoint posBytes (p : positive) : bytes :=
  match p with xH => [] | xO p => x00 :: posBytes p | xI p => x01 :: posBytes p end.
Fixpoint bytesPos (b : bytes) : positive :=
  match b with [] => xH | x00 :: b => xO (bytesPos b) | _ :: b => xI (bytesPos b) end.

Lemma bytesPos_posBytes p : bytesPos (posBytes p) = p.
Proof. induction p as [p IH|p IH|]; cbn; by rewrite ?IH. Qed.
