(* ===== verification/Key.v ===== *)
(** * The keys of the table storage

    [storage/table/key]: the keys under which the rows of a table are stored.  A key
    of version 2 ends with the inverted sequence number of the write, so that the
    versions of a user key are neighbours in the store, the newest first.  The
    readers and writers are in-memory buffers, which do not fail. *)
From S2P Require Import Prelude Raftpb LogDB Wire WireSpec Bytes.
From Stdlib Require Import Strings.Byte.

Module key.

Definition TypeUnknown : byte := x00.
Definition TypeUser : byte := x01.
Definition TypeSystem : byte := x02.

Definition UnknownVersion : byte := x00.
Definition V1 : byte := x01.
Definition V2 : byte := x02.
Definition LatestVersion : byte := V2.

Definition keyHeaderLen : Z := 4.
Definition V1KeyLen : Z := 1024.
Definition keyV1BodyLen : Z := V1KeyLen - keyHeaderLen.
Definition V2SeqLen : Z := 8.
Definition V2SepLen : Z := 1.
Definition V2MaxUserKeyLen : Z := 1024.
Definition V2KeyLen : Z := keyHeaderLen + 1 + V2MaxUserKeyLen + V2SepLen + V2SeqLen.
Definition keyV2BodyLen : Z := V2KeyLen - keyHeaderLen.

Definition V2Len (userkeyLen : Z) : Z := keyHeaderLen + 1 + userkeyLen + V2SepLen + V2SeqLen.
Definition V2MinKey : bytes := [x00].
Definition V2MaxKey : bytes := replicate (Z.to_nat V2MaxUserKeyLen) xff.

Definition ErrUnknownKeyVersion : error := ErrMsg "unknown key version".
Definition ErrMissingKeyHeader : error := ErrMsg "missing key header".
Definition ErrMalformedKeyHeader : error := ErrMsg "malformed key header".
Definition ErrMissingKeyType : error := ErrMsg "missing key type".

Record Key : Type := mkKey {
  version : byte; KeyType : byte; k_Key : bytes; Seqno : Z }.

Definition reset (k : Key) : Key := mkKey UnknownVersion TypeUnknown [] 0.

(** ** Encoding

    The state of an encoder is the caller's key, whose version it sets, and the
    bytes written. *)
Definition write (bs : bytes) : M (Key * bytes) Z := fun s =>
  Ret (len bs) (s.1, s.2 ++ bs).

Definition seqBytes (seqno : Z) : bytes := map notByte (BigEndian_PutUint64 seqno).

Definition v1Encode (keyType : byte) (key : bytes) : M (Key * bytes) Z :=
  write (keyType :: key).
Definition v2Encode (keyType : byte) (key : bytes) (seqno : Z) : M (Key * bytes) Z :=
  write (keyType :: key ++ [x00] ++ seqBytes seqno).

Definition Encode : M (Key * bytes) Z :=
  modify (fun '(k, w) =>
    (if bool_decide (version k = UnknownVersion)
     then mkKey LatestVersion (KeyType k) (k_Key k) (Seqno k) else k, w)) ;;
  '(k, _) ← get;
  _ ← write [version k; x00; x00; x00];
  if bool_decide (version k = V1) then
    n ← v1Encode (KeyType k) (k_Key k);
    ret (keyHeaderLen + n)
  else if bool_decide (version k = V2) then
    n ← v2Encode (KeyType k) (k_Key k) (Seqno k);
    ret (keyHeaderLen + n)
  else fail ErrUnknownKeyVersion.

(** ** Decoding

    The state of a decoder is the caller's key and the bytes not read yet. *)

(** [io.ReadFull] into an array of [n] bytes *)
Definition readFull (n : Z) : M (Key * bytes) bytes := fun s =>
  if len s.2 <? n then Err ErrUnexpectedEOF (s.1, [])
  else Ret (takeZ n s.2) (s.1, dropZ n s.2).
(** [io.ReadAll(io.LimitReader(r, n))] *)
Definition readAll (n : Z) : M (Key * bytes) bytes := fun s =>
  Ret (takeZ n s.2) (s.1, dropZ n s.2).

Definition setKey (k : Key) : M (Key * bytes) unit := modify (fun s => (k, s.2)).

(** [raw[lo:hi]], where the caller has checked the bounds *)
Definition slice (raw : bytes) (lo hi : Z) : bytes := takeZ (hi - lo) (dropZ lo raw).

Definition seqno (seqBuf : bytes) : Z := beValue 0 (map notByte seqBuf).

Definition v1Decode : M (Key * bytes) (byte * bytes) :=
  raw ← readAll keyV1BodyLen;
  match raw with
  | [] => fail ErrMissingKeyType
  | t :: key => ret (t, key)
  end.

Definition v2Decode : M (Key * bytes) (byte * bytes * Z) :=
  raw ← readAll keyV2BodyLen;
  if len raw <? 1 + V2SepLen + V2SeqLen then fail ErrMissingKeyType
  else
    match raw with
    | [] => panic_ IndexOutOfRange
    | t :: _ =>
        let seqStart := len raw - V2SeqLen in
        ret (t, slice raw 1 (seqStart - V2SepLen), seqno (dropZ seqStart raw))
    end.

Definition Decode : M (Key * bytes) unit :=
  modify (fun s => (reset s.1, s.2)) ;;
  h ← try_ (readFull keyHeaderLen);
  match h with
  | inr _ => fail ErrMissingKeyHeader
  | inl [] => panic_ IndexOutOfRange
  | inl (v :: padding) =>
      if existsb (fun b => negb (bool_decide (b = x00))) padding then fail ErrMalformedKeyHeader
      else if bool_decide (v = V1) then
        '(t, key) ← v1Decode; setKey (mkKey V1 t key 0)
      else if bool_decide (v = V2) then
        '(t, key, n) ← v2Decode; setKey (mkKey V2 t key n)
      else fail ErrUnknownKeyVersion
  end.

Definition v1DecodeRaw (raw : bytes) : byte * bytes :=
  match raw with
  | t :: ((_ :: _) as key) => (t, key)
  | _ => (TypeUnknown, [])
  end.

Definition v2DecodeRaw (raw : bytes) : byte * bytes * Z :=
  if len raw <? 1 + V2SepLen + V2SeqLen then (TypeUnknown, [], 0)
  else
    match raw with
    | [] => (TypeUnknown, [], 0)
    | t :: _ =>
        let seqStart := len raw - V2SeqLen in
        (t, slice raw 1 (seqStart - V2SepLen), seqno (dropZ seqStart raw))
    end.

Definition DecodeBytes (raw : bytes) : result Key :=
  if len raw <? keyHeaderLen then ERR ErrMissingKeyHeader
  else
    match raw with
    | [] => PANIC IndexOutOfRange
    | v :: _ =>
        if bool_decide (v = V1) then
          let '(t, key) := v1DecodeRaw (dropZ keyHeaderLen raw) in OK (mkKey V1 t key 0)
        else if bool_decide (v = V2) then
          let '(t, key, n) := v2DecodeRaw (dropZ keyHeaderLen raw) in OK (mkKey V2 t key n)
        else ERR ErrUnknownKeyVersion
    end.

Definition DecodeV2Seqno (physicalKey : bytes) : Z :=
  match physicalKey with
  | v :: _ =>
      if (len physicalKey <=? V2SeqLen) || negb (bool_decide (v = V2)) then 0
      else seqno (dropZ (len physicalKey - V2SeqLen) physicalKey)
  | [] => 0
  end.

End key.
