(* ===== verification/KeySpec.v ===== *)
(** * Physical keys

    The encoded keys of version 2, and what makes them work as the keys of an
    ordered store: they decode to what was encoded, they sort by user key first, and
    the versions of one user key sort from the newest to the oldest. *)
From S2P Require Import Prelude Raftpb LogDB Wire WireSpec Bytes Key.
From Stdlib Require Import Strings.Byte.
Import key(mkKey).

Definition prefixOf (t : byte) (k : bytes) : bytes :=
  [key.V2; x00; x00; x00; t] ++ k ++ [x00].
Definition phys (t : byte) (k : bytes) (s : Z) : bytes := prefixOf t k ++ key.seqBytes s.

(** Keys without null bytes: what the servers accept. *)
Definition nullFree (k : bytes) : Prop := x00 ∉ k.

Lemma seqBytes_length s : length (key.seqBytes s) = 8%nat.
Proof. unfold key.seqBytes, BigEndian_PutUint64. by rewrite length_map, beBytes_length. Qed.

Lemma seqBytes_len s : len (key.seqBytes s) = 8.
Proof. unfold len. by rewrite seqBytes_length. Qed.

Lemma seqno_seqBytes s : is_u64 s -> key.seqno (key.seqBytes s) = s.
Proof.
  intros [H0 H1]. unfold key.seqno, key.seqBytes. rewrite map_notByte_involutive.
  unfold BigEndian_PutUint64. rewrite beValue_beBytes by lia.
  change (256 ^ Z.of_nat 8) with W64. rewrite Z.mod_small by lia. lia.
Qed.

Lemma seqBytes_compare s s' : is_u64 s -> is_u64 s' ->
  bytesCompare (key.seqBytes s) (key.seqBytes s') = (s' ?= s).
Proof.
  intros Hs Hs'. unfold key.seqBytes, BigEndian_PutUint64.
  rewrite notByte_compare by (by rewrite !beBytes_length). by apply beBytes_compare.
Qed.

Lemma prefixOf_length t k : length (prefixOf t k) = (length k + 6)%nat.
Proof. unfold prefixOf. rewrite !length_app. simpl. lia. Qed.

Lemma phys_len t k s : len (phys t k s) = key.V2Len (len k).
Proof.
  unfold len, phys. rewrite length_app, prefixOf_length, seqBytes_length.
  unfold key.V2Len, key.keyHeaderLen, key.V2SepLen, key.V2SeqLen. lia.
Qed.

Lemma phys_head t k s : exists b, phys t k s = key.V2 :: b.
Proof. by eexists. Qed.

Lemma takeZ_app {A} (a b : list A) n : n = len a -> takeZ n (a ++ b) = a.
Proof. intros ->. unfold takeZ, len. rewrite Nat2Z.id. by rewrite take_app_length. Qed.
Lemma dropZ_app {A} (a b : list A) n : n = len a -> dropZ n (a ++ b) = b.
Proof. intros ->. unfold dropZ, len. rewrite Nat2Z.id. by rewrite drop_app_length. Qed.

(** The part of a physical key after its header. *)
Lemma body_split t k s : let raw := t :: k ++ [x00] ++ key.seqBytes s in
  len raw = len k + 10 /\ key.slice raw 1 (len raw - 8 - 1) = k /\
  dropZ (len raw - 8) raw = key.seqBytes s.
Proof.
  cbv zeta. assert (Hl : len (t :: k ++ [x00] ++ key.seqBytes s) = len k + 10).
  { rewrite len_cons, !len_app, seqBytes_len. change (len [x00]) with 1. lia. }
  rewrite Hl. split_and!; [done| |].
  - unfold key.slice. change (t :: ?l) with ([t] ++ l).
    rewrite dropZ_app by done. by rewrite takeZ_app by lia.
  - change (t :: ?l) with ([t] ++ l). rewrite !app_assoc. apply dropZ_app.
    rewrite !len_app. change (len [x00]) with 1. change (len [t]) with 1. lia.
Qed.

Lemma v2DecodeRaw_body t k s : is_u64 s ->
  key.v2DecodeRaw (t :: k ++ [x00] ++ key.seqBytes s) = (t, k, s).
Proof.
  intros Hs. destruct (body_split t k s) as (Hl & Hk & Hd).
  unfold key.v2DecodeRaw, key.V2SepLen, key.V2SeqLen in *.
  rewrite Hk, Hd, Hl, seqno_seqBytes by done. pose proof (len_nonneg k).
  by destruct (Z.ltb_spec (len k + 10) (1 + 1 + 8)); [lia|].
Qed.

Lemma DecodeBytes_phys t k s : is_u64 s ->
  key.DecodeBytes (phys t k s) = OK (mkKey key.V2 t k s).
Proof.
  intros Hs. unfold key.DecodeBytes. rewrite phys_len. pose proof (len_nonneg k).
  destruct (Z.ltb_spec (key.V2Len (len k)) key.keyHeaderLen) as [Hx|_].
  { unfold key.V2Len, key.keyHeaderLen, key.V2SepLen, key.V2SeqLen in Hx. lia. }
  unfold phys, prefixOf. rewrite <- !app_assoc.
  change (dropZ key.keyHeaderLen _) with (t :: k ++ [x00] ++ key.seqBytes s).
  by rewrite v2DecodeRaw_body.
Qed.

Lemma DecodeV2Seqno_phys t k s : is_u64 s -> key.DecodeV2Seqno (phys t k s) = s.
Proof.
  intros Hs. unfold key.DecodeV2Seqno. destruct (phys_head t k s) as [b Hb]. rewrite Hb, <- Hb.
  rewrite phys_len. unfold key.V2Len, key.keyHeaderLen, key.V2SepLen, key.V2SeqLen.
  pose proof (len_nonneg k). destruct (Z.leb_spec (4 + 1 + len k + 1 + 8) 8); [lia|]. simpl orb.
  unfold phys. rewrite dropZ_app; [by apply seqno_seqBytes|].
  unfold len. rewrite prefixOf_length. lia.
Qed.

(** ** The order of physical keys *)

Lemma nullFree_cons b k : nullFree (b :: k) <-> b <> x00 /\ nullFree k.
Proof. unfold nullFree. rewrite not_elem_of_cons. naive_solver. Qed.

Lemma null_compare k k' s s' : nullFree k -> nullFree k' ->
  bytesCompare (k ++ x00 :: s) (k' ++ x00 :: s') =
    match bytesCompare k k' with Eq => bytesCompare s s' | c => c end.
Proof.
  assert (Hpos : forall b, b <> x00 -> 0 < byteZ b).
  { intros b Hb. pose proof (byteZ_range b). destruct (decide (byteZ b = 0)) as [E|]; [|lia].
    by destruct Hb, b. }
  revert k'. induction k as [|b k IH]; intros [|b' k'] Hk Hk'; cbn [app bytesCompare];
    rewrite ?nullFree_cons in *; try done.
  - destruct Hk' as [Hb _]. apply Hpos in Hb. change (byteZ x00) with 0.
    by destruct (Z.compare_spec 0 (byteZ b')); [lia| |lia].
  - destruct Hk as [Hb _]. apply Hpos in Hb. change (byteZ x00) with 0.
    by destruct (Z.compare_spec (byteZ b) 0); [lia|lia|].
  - destruct Hk, Hk'. rewrite IH by done. by destruct (byteZ b ?= byteZ b').
Qed.

Lemma phys_compare t k k' s s' : nullFree k -> nullFree k' -> is_u64 s -> is_u64 s' ->
  bytesCompare (phys t k s) (phys t k' s') =
    match bytesCompare k k' with Eq => s' ?= s | c => c end.
Proof.
  intros Hk Hk' Hs Hs'. unfold phys, prefixOf. rewrite <- !app_assoc, bytesCompare_app.
  cbn [app]. by rewrite null_compare, seqBytes_compare.
Qed.

Lemma phys_inj t t' k k' s s' : is_u64 s -> is_u64 s' ->
  phys t k s = phys t' k' s' -> t = t' /\ k = k' /\ s = s'.
Proof.
  intros Hs Hs' E. pose proof (DecodeBytes_phys t k s Hs) as H1.
  rewrite E, DecodeBytes_phys in H1 by done. by injection H1 as -> -> ->.
Qed.

(** ** Round trips *)

(** The keys an encoder and a decoder agree on: within the lengths a decoder reads,
    and without a sequence number in version 1. *)
Definition storable (k : key.Key) : Prop :=
  key.version k = key.V1 /\ len (key.k_Key k) < key.keyV1BodyLen /\ key.Seqno k = 0 \/
  (key.version k = key.UnknownVersion \/ key.version k = key.V2) /\
    len (key.k_Key k) <= key.V2MaxUserKeyLen /\ is_u64 (key.Seqno k).

(** The key as it is stored: the encoder sets the version if there is none. *)
Definition stored (k : key.Key) : key.Key :=
  mkKey (if bool_decide (key.version k = key.UnknownVersion) then key.LatestVersion
         else key.version k) (key.KeyType k) (key.k_Key k) (key.Seqno k).

Lemma Encode_phys t k s w :
  key.Encode (mkKey key.UnknownVersion t k s, w) =
    Ret (key.V2Len (len k)) (mkKey key.V2 t k s, w ++ phys t k s).
Proof.
  transitivity (Ret (4 + len (t :: k ++ [x00] ++ key.seqBytes s))
    (mkKey key.V2 t k s, (w ++ [key.V2; x00; x00; x00]) ++ t :: k ++ [x00] ++ key.seqBytes s));
    [done|].
  destruct (body_split t k s) as (-> & _). unfold phys, prefixOf. rewrite <- !app_assoc.
  unfold key.V2Len, key.keyHeaderLen, key.V2SepLen, key.V2SeqLen.
  by replace (4 + (len k + 10)) with (4 + 1 + len k + 1 + 8) by lia.
Qed.

Lemma takeZ_all {A} (l : list A) n : len l <= n -> takeZ n l = l.
Proof. unfold takeZ, len. intros H. by rewrite take_ge by lia. Qed.
Lemma dropZ_all {A} (l : list A) n : len l <= n -> dropZ n l = [].
Proof. unfold dropZ, len. intros H. by rewrite drop_ge by lia. Qed.

Lemma readFull_4 k0 a b c d body :
  key.readFull key.keyHeaderLen (k0, a :: b :: c :: d :: body) = Ret [a; b; c; d] (k0, body).
Proof.
  unfold key.readFull. cbn [fst snd]. rewrite !len_cons. pose proof (len_nonneg body).
  by destruct (Z.ltb_spec (1 + (1 + (1 + (1 + len body)))) key.keyHeaderLen) as [Hx|_];
    [unfold key.keyHeaderLen in Hx; lia|].
Qed.

Lemma Decode_body k0 v body : v = key.V1 \/ v = key.V2 ->
  key.Decode (k0, [v; x00; x00; x00] ++ body) =
    (if bool_decide (v = key.V1) then '(t, k) ← key.v1Decode; key.setKey (mkKey key.V1 t k 0)
     else '(t, k, n) ← key.v2Decode; key.setKey (mkKey key.V2 t k n)) (key.reset k0, body).
Proof.
  intros Hv. unfold key.Decode, modify, try_. unfold mbind at 1 2, M_bind at 1 2. cbn [fst snd app].
  rewrite readFull_4. by destruct Hv as [-> | ->].
Qed.

Lemma v1Decode_body k0 t k : len k < key.keyV1BodyLen ->
  key.v1Decode (k0, t :: k) = Ret (t, k) (k0, []).
Proof.
  intros Hk. unfold key.v1Decode, key.readAll, mbind, M_bind. cbn [fst snd].
  by rewrite takeZ_all, dropZ_all by (rewrite len_cons; lia).
Qed.

Lemma v2Decode_body k0 t k s : is_u64 s -> len k <= key.V2MaxUserKeyLen ->
  key.v2Decode (k0, t :: k ++ [x00] ++ key.seqBytes s) = Ret (t, k, s) (k0, []).
Proof.
  intros Hs Hk. destruct (body_split t k s) as (Hl & Hsl & Hd). pose proof (len_nonneg k).
  unfold key.v2Decode, key.readAll, mbind, M_bind. cbn [fst snd].
  assert (key.keyV2BodyLen = 1034) as -> by done. change key.V2MaxUserKeyLen with 1024 in Hk.
  rewrite (takeZ_all _ 1034), (dropZ_all _ 1034) by (rewrite Hl; lia). unfold key.V2SepLen, key.V2SeqLen.
  rewrite Hsl, Hd, Hl, seqno_seqBytes by done.
  by destruct (Z.ltb_spec (len k + 10) (1 + 1 + 8)); [lia|].
Qed.

Lemma Decode_phys k0 t k s : is_u64 s -> len k <= key.V2MaxUserKeyLen ->
  key.Decode (k0, phys t k s) = Ret tt (mkKey key.V2 t k s, []).
Proof.
  intros Hs Hk. unfold phys, prefixOf. rewrite <- !app_assoc.
  change ([key.V2; x00; x00; x00; t] ++ ?l) with ([key.V2; x00; x00; x00] ++ t :: l).
  rewrite Decode_body by auto. rewrite bool_decide_eq_false_2 by done.
  unfold mbind, M_bind. by rewrite v2Decode_body.
Qed.

(** C26: decoding inverts encoding, for both versions of the keys and both decoders:
    a key within the length a decoder reads is encoded, with the latest version if it
    has none, into as many bytes as reported, and [Decode] and [DecodeBytes] both
    find it again.  The exception is an empty key of version 1, which [DecodeBytes] reads
    as a key of unknown type. *)
Theorem key_roundtrip (k k0 : key.Key) : storable k ->
  exists enc, key.Encode (k, []) = Ret (len enc) (stored k, enc) /\
    key.Decode (k0, enc) = Ret tt (stored k, []) /\
    (key.version k = key.V1 -> key.k_Key k <> [] -> key.DecodeBytes enc = OK (stored k)) /\
    (key.version k = key.V1 -> key.k_Key k = [] ->
       key.DecodeBytes enc = OK (mkKey key.V1 key.TypeUnknown [] 0)) /\
    (key.version k <> key.V1 -> key.DecodeBytes enc = OK (stored k) /\
       key.DecodeV2Seqno enc = key.Seqno k).
Proof.
  destruct k as [v t k s]. unfold storable, stored. simpl. intros [(-> & Hk & ->) | (Hv & Hk & Hs)].
  - exists ([key.V1; x00; x00; x00; t] ++ k). split_and!; [|..|done].
    + transitivity (Ret (4 + len (t :: k)) (mkKey key.V1 t k 0, [key.V1; x00; x00; x00] ++ t :: k));
        [done|].
      rewrite len_cons, len_app. change (len [_; _; _; _; _]) with 5.
      by replace (4 + (1 + len k)) with (5 + len k) by lia.
    + change ([key.V1; x00; x00; x00; t] ++ k) with ([key.V1; x00; x00; x00] ++ t :: k).
      rewrite Decode_body by auto. rewrite bool_decide_eq_true_2 by done.
      unfold mbind, M_bind. by rewrite v1Decode_body.
    + intros _ Hne. destruct k as [|b k]; [done|]. unfold key.DecodeBytes. rewrite !len_app.
      change (len [_; _; _; _; _]) with 5. pose proof (len_nonneg (b :: k)).
      by destruct (Z.ltb_spec (5 + len (b :: k)) key.keyHeaderLen) as [Hx|_];
        [unfold key.keyHeaderLen in Hx; lia|].
    + by intros _ ->.
  - assert (exists enc, enc = phys t k s /\
      key.Encode (mkKey v t k s, []) = Ret (len enc) (mkKey key.V2 t k s, enc)) as (enc & -> & HE).
    { eexists. split; [done|]. rewrite phys_len. destruct Hv as [-> | ->]; apply Encode_phys. }
    assert ((if bool_decide (v = key.UnknownVersion) then key.LatestVersion else v) = key.V2) as ->
      by (by destruct Hv as [-> | ->]).
    exists (phys t k s). split_and!; [done|by apply Decode_phys|intros ->; by destruct Hv..|].
    intros _. split; [by apply DecodeBytes_phys|by apply DecodeV2Seqno_phys].
Qed.

(** C25: the order of the stored keys, which is the order of their bytes, is the order
    of the user keys, and among the versions of one user key the newest is first, for
    user keys without null bytes. *)
Theorem key_order (k k' : bytes) (s s' : Z) (w w' : bytes) (n n' : Z) (e e' : key.Key) :
  nullFree k -> nullFree k' -> is_u64 s -> is_u64 s' ->
  key.Encode (mkKey key.UnknownVersion key.TypeUser k s, []) = Ret n (e, w) ->
  key.Encode (mkKey key.UnknownVersion key.TypeUser k' s', []) = Ret n' (e', w') ->
  (blt w w' <-> blt k k' \/ k = k' /\ s' < s) /\ (w = w' <-> k = k' /\ s = s').
Proof.
  intros Hk Hk' Hs Hs' E E'. rewrite Encode_phys in E, E'. cbn [app] in E, E'.
  injection E as _ _ <-. injection E' as _ _ <-. unfold blt.
  rewrite <- (bytesCompare_eq k k'), <- (bytesCompare_eq (phys _ _ _)), phys_compare by done.
  destruct (bytesCompare k k'); [|naive_solver..].
  destruct (Z.compare_spec s' s); naive_solver lia.
Qed.

Lemma key_roundtrip_witness :
  exists k enc, storable k /\ key.Encode (k, []) = Ret (len enc) (stored k, enc) /\
    key.Decode (k, enc) = Ret tt (stored k, []).
Proof.
  set (k := mkKey key.UnknownVersion key.TypeUser [x61; x62] 7).
  assert (Hk : storable k) by (right; split; [by left|]; split; [done|]; unfold is_u64; simpl; lia).
  destruct (key_roundtrip k k Hk) as (enc & H1 & H2 & _). by exists k, enc.
Defined.

Lemma key_order_witness :
  blt (phys key.TypeUser [x61] 9) (phys key.TypeUser [x61] 8) /\
  blt (phys key.TypeUser [x61] 1) (phys key.TypeUser [x61; x01] 2).
Proof.
  assert (nullFree [x61] /\ nullFree [x61; x01]) as [N1 N2] by (unfold nullFree; set_solver).
  assert (forall n, 0 <= n < 10 -> is_u64 n) as U by (unfold is_u64; lia).
  split.
  - apply (key_order [x61] [x61] 9 8 _ _ _ _ _ _ N1 N1 (U 9 ltac:(lia)) (U 8 ltac:(lia))
      (Encode_phys _ _ _ _) (Encode_phys _ _ _ _)). right. by split.
  - apply (key_order [x61] [x61; x01] 1 2 _ _ _ _ _ _ N1 N2 (U 1 ltac:(lia)) (U 2 ltac:(lia))
      (Encode_phys _ _ _ _) (Encode_phys _ _ _ _)). by left.
Defined.
