(* ===== verification/Armadapb.v ===== *)
(** * Commands of the table storage

    The messages of [proto/mvcc.proto] ([armadapb/mvcc.pb.go]) the state machine of a
    table works on.  A field that may be absent is an [option], and an enum keeps the
    values this version does not know.  The codec is generated code: a parameter. *)
From S2P Require Import Prelude Raftpb LogDB Wire.

Module armadapb.

Record KeyValue : Type := mkKV {
  kv_Key : bytes; kv_CreateRevision : Z; kv_ModRevision : Z; kv_Value : bytes }.
Definition newKV (k v : bytes) : KeyValue := mkKV k 0 0 v.

Record RequestOp_Range : Type := mkRange {
  r_Key : bytes; r_RangeEnd : option bytes; r_Limit : Z; r_KeysOnly : bool; r_CountOnly : bool }.
Record RequestOp_Put : Type := mkPut { p_Key : bytes; p_Value : bytes; p_PrevKv : bool }.
Record RequestOp_DeleteRange : Type := mkDelete {
  d_Key : bytes; d_RangeEnd : option bytes; d_PrevKv : bool; d_Count : bool }.
Inductive RequestOp : Type :=
| RequestRange (r : RequestOp_Range)
| RequestPut (p : RequestOp_Put)
| RequestDeleteRange (d : RequestOp_DeleteRange)
| RequestNone.

Record ResponseRange : Type := mkRangeResp {
  rr_Kvs : list KeyValue; rr_More : bool; rr_Count : Z }.
Record ResponsePut : Type := mkPutResp { pr_PrevKv : option KeyValue }.
Record ResponseDeleteRange : Type := mkDeleteResp { dr_Deleted : Z; dr_PrevKvs : list KeyValue }.
Inductive ResponseOp : Type :=
| ResponseOp_Range (r : option ResponseRange)
| ResponseOp_Put (p : ResponsePut)
| ResponseOp_DeleteRange (d : ResponseDeleteRange).

Definition emptyRange : ResponseRange := mkRangeResp [] false 0.
Definition emptyDelete : ResponseDeleteRange := mkDeleteResp 0 [].
Definition set_More (b : bool) (r : ResponseRange) : ResponseRange :=
  mkRangeResp (rr_Kvs r) b (rr_Count r).

Inductive CompareResult : Type := EQUAL | GREATER | LESS | NOT_EQUAL | CompareResultOther (n : Z).
Inductive CompareTarget : Type := VALUE | CompareTargetOther (n : Z).
Record Compare : Type := mkCompare {
  c_Result : CompareResult; c_Target : CompareTarget; c_Key : bytes;
  c_TargetUnion : option bytes; c_RangeEnd : option bytes }.

(** [GetValue] *)
Definition GetValue (c : Compare) : bytes := default [] (c_TargetUnion c).

Record Txn : Type := mkTxn {
  t_Compare : list Compare; t_Success : list RequestOp; t_Failure : list RequestOp }.

Inductive CommandType : Type :=
| PUT | DELETE | DUMMY | PUT_BATCH | DELETE_BATCH | TXN | SEQUENCE | GC | CommandTypeOther (n : Z).

Inductive Command : Type := mkCommand {
  cmd_Table : bytes;
  cmd_Type : CommandType;
  cmd_Kv : option KeyValue;
  cmd_LeaderIndex : option Z;
  cmd_Batch : list KeyValue;
  cmd_Txn : option Txn;
  cmd_RangeEnd : option bytes;
  cmd_PrevKvs : bool;
  cmd_Sequence : list Command;
  cmd_Count : bool }.

Record CommandResult : Type := mkResult { cr_Responses : list ResponseOp; cr_Revision : Z }.

End armadapb.

(** The generated codec. *)
Class CommandCodec : Type := {
  UnmarshalVT : bytes -> result armadapb.Command;
  UnmarshalVTUnsafe : bytes -> result armadapb.Command;
  SizeVT : armadapb.Command -> Z;
  MarshalCommand : armadapb.Command -> result bytes;
  MarshalResult : armadapb.CommandResult -> result bytes
}.

(** The generated code returns errors and does not panic. *)
Class CommandCodecSpec `{CommandCodec} : Prop := {
  UnmarshalVT_no_panic b p : UnmarshalVT b <> PANIC p;
  MarshalCommand_no_panic c p : MarshalCommand c <> PANIC p;
  MarshalResult_no_panic r p : MarshalResult r <> PANIC p }.

(** A command as snapshots hold it: no batch and no transaction, indexes of 64 bits, a
    type this version knows. *)
Inductive plainCommand : armadapb.Command -> Prop :=
| plain_command t ty kv li re pk cnt cs :
    (forall n, ty <> armadapb.CommandTypeOther n) -> (forall i, li = Some i -> is_u64 i) ->
    (forall k, kv = Some k -> armadapb.kv_CreateRevision k = 0 /\ armadapb.kv_ModRevision k = 0) ->
    Forall plainCommand cs ->
    plainCommand (armadapb.mkCommand t ty kv li [] None re pk cs cnt).

(** Decoding inverts encoding. *)
Class CommandRoundtrip `{CommandCodec} : Prop := {
  Marshal_roundtrip c b : plainCommand c -> MarshalCommand c = OK b ->
    UnmarshalVT b = OK c /\ UnmarshalVTUnsafe b = OK c }.
