(* ===== verification/Pebble.v ===== *)
(** * The store under a table

    What the state machine of a table uses of the Pebble library, as an interface
    ([PebbleLib]) and the documented behaviour relied on ([PebbleSpec]); the options of
    the repository's own package [pebble] (the split of a key, the block property of
    sequence numbers) are definitions.  A reader is a map of rows; an iterator is the
    rows within its bounds, in ascending order, and those from its position on.  The
    behaviour is that of iterators without I/O errors, which the callers ignore. *)
From S2P Require Import Prelude Raftpb LogDB Wire WireSpec Bytes Key KeySpec.
From Stdlib Require Import Strings.Byte.

(** ** The repository's options *)

(** [split]: the length of the prefix of a key. *)
Definition split (b : bytes) : Z :=
  match b with
  | v :: _ =>
      if (key.V2SeqLen + key.V2SepLen + 5 <? len b) && bool_decide (v = key.V2)
      then len b - key.V2SeqLen else len b
  | [] => 0
  end.
Definition prefix (b : bytes) : bytes := takeZ (split b) b.

(** [decodeV2Seqno] and [MapPointKey]: the interval of sequence numbers a row counts for. *)
Definition decodeV2Seqno (key : bytes) : Z :=
  beValue 0 (map notByte (dropZ (len key - 8) key)).
Definition MapPointKey (uk : bytes) : Z * Z :=
  match uk with
  | v :: _ =>
      if (len uk <=? 8) || negb (bool_decide (v = x02)) then (0, 0)
      else let seqno := decodeV2Seqno uk in (seqno, seqno +ᵤ 1)
  | [] => (0, 0)
  end.

Record BlockIntervalFilter : Type := { f_lower : Z; f_upper : Z }.
Definition NewMVCCSeqnoFilter (gcIndex : Z) : BlockIntervalFilter :=
  {| f_lower := 0; f_upper := gcIndex |}.

(** ** The library *)

Record IterOptions : Type := mkOpts {
  LowerBound : option bytes; UpperBound : option bytes;
  PointKeyFilters : list BlockIntervalFilter }.
Definition noOpts : IterOptions := mkOpts None None [].

Class PebbleLib : Type := {
  DB : Type; Batch : Type; Snapshot : Type; Reader : Type; Iterator : Type;
  (** The readers; an indexed batch reads through to its database. *)
  of_DB : DB -> Reader;
  of_Batch : Batch -> DB -> Reader;
  of_Snapshot : Snapshot -> Reader;
  NewSnapshot : DB -> Snapshot;
  NewIter : Reader -> IterOptions -> result Iterator;
  Get : Reader -> bytes -> result bytes;
  ErrNotFound : error;
  NewBatch : DB -> Batch;
  NewIndexedBatch : DB -> Batch;
  Indexed : Batch -> bool;
  batch_Apply : Batch -> Batch -> result Batch;
  batch_Set : bytes -> bytes -> Batch -> result Batch;
  batch_DeleteRange : bytes -> bytes -> Batch -> result Batch;
  batch_Count : Batch -> Z;
  batch_Len : Batch -> Z;
  batch_Close : Batch -> result unit;
  batch_Commit : Batch -> DB -> result DB;
  First : Iterator -> bool * Iterator;
  Next : Iterator -> bool * Iterator;
  SeekGE : bytes -> Iterator -> bool * Iterator;
  SeekPrefixGE : bytes -> Iterator -> bool * Iterator;
  Valid : Iterator -> bool;
  iter_Key : Iterator -> bytes;
  iter_Value : Iterator -> bytes;
  iter_Close : Iterator -> result unit
}.

(** ** Its behaviour *)

Abbreviation rowmap := (gmap bytes bytes).
Abbreviation row := (bytes * bytes)%type.

Inductive write : Type := WSet (k v : bytes) | WDeleteRange (lo hi : bytes).

Definition inRange (lo hi k : bytes) : Prop := ble lo k /\ blt k hi.

Definition applyWrite (m : rowmap) (w : write) : rowmap :=
  match w with
  | WSet k v => <[k := v]> m
  | WDeleteRange lo hi => filter (fun r => ~ inRange lo hi r.1) m
  end.
Definition applyWrites (m : rowmap) (ws : list write) : rowmap := foldl applyWrite m ws.

Definition inBounds (o : IterOptions) (k : bytes) : Prop :=
  (forall lo, LowerBound o = Some lo -> ble lo k) /\ (forall hi, UpperBound o = Some hi -> blt k hi).

(** A block is skipped only if no row of it is in the interval of the filter. *)
Definition mayContain (o : IterOptions) (k : bytes) : Prop :=
  forall f, f ∈ PointKeyFilters o ->
    (MapPointKey k).1 < f_upper f /\ f_lower f < (MapPointKey k).2.

(** The rows in the order of their keys. *)
Definition ascendingRows (l : list row) : Prop := StronglySorted blt l.*1.

(** The rows an iterator opened on [m] with the options [o] runs over. *)
Record iterates (m : rowmap) (o : IterOptions) (l : list row) : Prop := {
  it_sorted : ascendingRows l;
  it_sound : forall k v, (k, v) ∈ l -> m !! k = Some v /\ inBounds o k;
  it_complete : forall k v, m !! k = Some v -> inBounds o k -> mayContain o k -> (k, v) ∈ l
}.

Definition from (k : bytes) (l : list row) : list row := filter (fun r => ble k r.1) l.
Definition fromPrefix (k : bytes) (l : list row) : list row :=
  filter (fun r => ble k r.1 /\ prefix r.1 = prefix k) l.

Class PebbleSpec `{PebbleLib} : Type := {
  rows : Reader -> rowmap;
  writes : Batch -> list write;
  it_all : Iterator -> list row;
  it_rest : Iterator -> list row;

  rows_Snapshot d : rows (of_Snapshot (NewSnapshot d)) = rows (of_DB d);
  rows_Batch b d : Indexed b = true ->
    rows (of_Batch b d) = applyWrites (rows (of_DB d)) (writes b);
  Get_spec r k : match Get r k with
    | OK v => rows r !! k = Some v
    | ERR e => e = ErrNotFound -> rows r !! k = None
    | PANIC _ => False end;

  NewBatch_spec d : writes (NewBatch d) = [];
  NewIndexedBatch_spec d : writes (NewIndexedBatch d) = [] /\ Indexed (NewIndexedBatch d) = true;
  Apply_spec b b' : match batch_Apply b b' with
    | OK c => writes c = writes b' ++ writes b /\ Indexed c = Indexed b'
    | ERR _ => True | PANIC _ => False end;
  Set_spec k v b : match batch_Set k v b with
    | OK c => writes c = writes b ++ [WSet k v] /\ Indexed c = Indexed b
    | ERR _ => True | PANIC _ => False end;
  DeleteRange_spec lo hi b : match batch_DeleteRange lo hi b with
    | OK c => writes c = writes b ++ [WDeleteRange lo hi] /\ Indexed c = Indexed b
    | ERR _ => True | PANIC _ => False end;
  Count_spec b : batch_Count b = len (writes b);
  Commit_spec b d : match batch_Commit b d with
    | OK d' => rows (of_DB d') = applyWrites (rows (of_DB d)) (writes b)
    | ERR _ => True | PANIC _ => False end;
  Close_spec b : forall p, batch_Close b <> PANIC p;

  NewIter_spec r o : match NewIter r o with
    | OK it => iterates (rows r) o (it_all it)
    | ERR _ => True | PANIC _ => False end;
  First_spec it : it_rest (First it).2 = it_all it /\ it_all (First it).2 = it_all it;
  First_valid it : (First it).1 = Valid (First it).2;
  Next_spec it x l : it_rest it = x :: l -> it_rest (Next it).2 = l /\ it_all (Next it).2 = it_all it;
  Next_valid it : (Next it).1 = Valid (Next it).2;
  SeekGE_spec k it : it_rest (SeekGE k it).2 = from k (it_all it) /\ it_all (SeekGE k it).2 = it_all it;
  SeekGE_valid k it : (SeekGE k it).1 = Valid (SeekGE k it).2;
  SeekPrefixGE_spec k it : it_rest (SeekPrefixGE k it).2 = fromPrefix k (it_all it);
  SeekPrefixGE_valid k it : (SeekPrefixGE k it).1 = Valid (SeekPrefixGE k it).2;
  Valid_spec it : Valid it = bool_decide (it_rest it <> []);
  Key_spec it k v l : it_rest it = (k, v) :: l -> iter_Key it = k /\ iter_Value it = v;
  iter_Close_spec it : forall p, iter_Close it <> PANIC p
}.

(** ** Laws of maps and iterators *)

Lemma lookup_applyWrite m w k :
  applyWrite m w !! k =
    match w with
    | WSet k' v => if decide (k' = k) then Some v else m !! k
    | WDeleteRange lo hi => if decide (inRange lo hi k) then None else m !! k
    end.
Proof.
  destruct w as [k' v|lo hi]; simpl.
  - destruct (decide (k' = k)) as [->|]; [by rewrite lookup_insert_eq|by rewrite lookup_insert_ne].
  - destruct (decide (inRange lo hi k)).
    + apply map_lookup_filter_None. right. intros v _. simpl. tauto.
    + destruct (m !! k) as [v|] eqn:E.
      * by apply map_lookup_filter_Some.
      * apply map_lookup_filter_None. by left.
Qed.

Lemma applyWrites_snoc m ws w : applyWrites m (ws ++ [w]) = applyWrite (applyWrites m ws) w.
Proof. unfold applyWrites. by rewrite foldl_app. Qed.
Lemma applyWrites_app m ws ws' : applyWrites m (ws ++ ws') = applyWrites (applyWrites m ws) ws'.
Proof. unfold applyWrites. by rewrite foldl_app. Qed.

(** ** An instance in memory *)

Record memBatch : Type := mkMemBatch { mb_indexed : bool; mb_writes : list write }.
Record memIter : Type := mkMemIter { mi_all : list row; mi_rest : list row }.

Definition inBoundsb (o : IterOptions) (k : bytes) : bool :=
  match LowerBound o with Some lo => bool_decide (ble lo k) | None => true end &&
  match UpperBound o with Some hi => bool_decide (blt k hi) | None => true end.

Definition rowle (r r' : row) : Prop := ble r.1 r'.1.
#[export] Instance rowle_dec : RelDecision rowle := fun r r' => ble_dec r.1 r'.1.

Definition sortedRows (m : rowmap) (o : IterOptions) : list row :=
  merge_sort rowle (filter (fun r => inBoundsb o r.1 = true) (map_to_list m)).

Definition moveTo (l : list row) (it : memIter) : bool * memIter :=
  (match l with [] => false | _ => true end, mkMemIter (mi_all it) l).

Definition memPebble : PebbleLib := {|
  DB := rowmap; Batch := memBatch; Snapshot := rowmap; Reader := rowmap; Iterator := memIter;
  of_DB := id;
  of_Batch b d := applyWrites d (mb_writes b);
  of_Snapshot := id;
  NewSnapshot := id;
  NewIter m o := OK (mkMemIter (sortedRows m o) []);
  Get m k := match m !! k with Some v => OK v | None => ERR (ErrMsg "pebble: not found") end;
  ErrNotFound := ErrMsg "pebble: not found";
  NewBatch _ := mkMemBatch false [];
  NewIndexedBatch _ := mkMemBatch true [];
  Indexed := mb_indexed;
  batch_Apply b b' := OK (mkMemBatch (mb_indexed b') (mb_writes b' ++ mb_writes b));
  batch_Set k v b := OK (mkMemBatch (mb_indexed b) (mb_writes b ++ [WSet k v]));
  batch_DeleteRange lo hi b := OK (mkMemBatch (mb_indexed b) (mb_writes b ++ [WDeleteRange lo hi]));
  batch_Count b := len (mb_writes b);
  batch_Len b := len (mb_writes b);
  batch_Close _ := OK tt;
  batch_Commit b d := OK (applyWrites d (mb_writes b));
  First it := moveTo (mi_all it) it;
  Next it := moveTo (tail (mi_rest it)) it;
  SeekGE k it := moveTo (from k (mi_all it)) it;
  SeekPrefixGE k it := moveTo (fromPrefix k (mi_all it)) it;
  Valid it := match mi_rest it with [] => false | _ => true end;
  iter_Key it := match mi_rest it with r :: _ => r.1 | [] => [] end;
  iter_Value it := match mi_rest it with r :: _ => r.2 | [] => [] end;
  iter_Close _ := OK tt
|}.

Lemma sorted_keys (l : list row) : StronglySorted rowle l -> NoDup l.*1 -> ascendingRows l.
Proof.
  unfold ascendingRows. induction 1 as [|[k v] l Hl IH Hall]; simpl; intros Hnd; [constructor|].
  apply NoDup_cons in Hnd as [Hk Hnd]. constructor; [by apply IH|].
  apply Forall_forall. intros k' Hk'. pose proof Hk' as ([k2 v'] & -> & Hin)%list_elem_of_fmap.
  rewrite Forall_forall in Hall. specialize (Hall _ Hin). apply ble_lteq in Hall as [|E]; [done|].
  simpl in *. by subst.
Qed.

Lemma merge_rows_sorted (P : row -> Prop) `{!forall r, Decision (P r)} (m : rowmap) :
  ascendingRows (merge_sort rowle (filter P (map_to_list m))).
Proof.
  apply sorted_keys.
  - apply StronglySorted_merge_sort; [intros [a ?] [b ?] [c ?]; apply (transitivity (R := ble))|].
    intros [a ?] [b ?]. apply (total ble).
  - rewrite merge_sort_Permutation.
    eapply sublist_NoDup; [apply (NoDup_fst_map_to_list m)|]. apply fmap_sublist, sublist_filter.
Qed.

Lemma inBoundsb_spec o k : inBoundsb o k = true <-> inBounds o k.
Proof.
  unfold inBoundsb, inBounds. rewrite andb_true_iff.
  destruct (LowerBound o), (UpperBound o); rewrite ?bool_decide_eq_true; naive_solver.
Qed.

Lemma sortedRows_iterates m o : iterates m o (sortedRows m o).
Proof.
  assert (Hin : forall k v, (k, v) ∈ sortedRows m o <-> m !! k = Some v /\ inBounds o k).
  { intros k v. unfold sortedRows. rewrite merge_sort_Permutation, list_elem_of_filter.
    rewrite elem_of_map_to_list, inBoundsb_spec. tauto. }
  split; [|by intros k v Hkv; apply Hin|by intros k v Hkv Hb _; apply Hin].
  apply merge_rows_sorted.
Qed.

Lemma memGet_spec (m : rowmap) k :
  match @Get memPebble m k with
  | OK v => m !! k = Some v
  | ERR e => e = @ErrNotFound memPebble -> m !! k = None
  | PANIC _ => False
  end.
Proof. simpl. by destruct (m !! k). Qed.

Lemma memValid_spec it : @Valid memPebble it = bool_decide (mi_rest it <> []).
Proof. simpl. by destruct (mi_rest it). Qed.

Lemma memNext_spec it x l : mi_rest it = x :: l ->
  mi_rest (@Next memPebble it).2 = l /\ mi_all (@Next memPebble it).2 = mi_all it.
Proof. simpl. by intros ->. Qed.

Lemma memKey_spec it k v l : mi_rest it = (k, v) :: l ->
  @iter_Key memPebble it = k /\ @iter_Value memPebble it = v.
Proof. simpl. by intros ->. Qed.

#[export] Instance memPebbleSpec : @PebbleSpec memPebble.
Proof.
  refine (@Build_PebbleSpec memPebble id mb_writes mi_all mi_rest
    _ _ memGet_spec _ _ _ _ _ _ _ _ sortedRows_iterates _ _ memNext_spec _ _ _ _ _
    memValid_spec memKey_spec _); by intros.
Defined.
