(* ===== verification/FsmQuery.v ===== *)
(** * Reading a table

    [storage/table/fsm/iter.go], [query.go] and [tombstone.go]: looking up the newest
    version of a key or of the keys of a range, and the command streams of snapshots.
    A loop over an iterator takes [fuel] iterations at most; an iterator moves forward
    in every iteration, so the number of rows is enough.  A Go iterator ([iter.Seq]) is
    a computation with the consumer's function as its argument. *)
From S2P Require Import Prelude Raftpb LogDB Wire WireSpec Bytes Key KeySpec Armadapb Pebble.
From Stdlib Require Import Strings.Byte.
Import armadapb.

(** ** Keys of a table *)

(** [encodeUserKey] writes to a buffer, which does not fail. *)
Definition encodeUserKey (dst keyBytes : bytes) (seqno : Z) : result bytes :=
  match key.Encode (key.mkKey key.UnknownVersion key.TypeUser keyBytes seqno, dst) with
  | Ret _ (_, w) => OK w
  | Err e _ => ERR e
  | Panic p => PANIC p
  end.

Definition mustEncodeKey (k : key.Key) : bytes :=
  match key.Encode (k, []) with Ret n (_, w) => takeZ n w | _ => [] end.

Definition systemKey (name : string) : bytes :=
  mustEncodeKey (key.mkKey key.UnknownVersion key.TypeSystem (String.list_byte_of_string name) 0).
Definition sysLocalIndex : bytes := systemKey "index".
Definition sysLeaderIndex : bytes := systemKey "leader_index".
Definition sysGCHorizon : bytes := systemKey "gc_horizon".

(** [^uint64(0)] *)
Definition maxSeqno : Z := W64 - 1.
Definition minEncodedUserKey : bytes :=
  mustEncodeKey (key.mkKey key.UnknownVersion key.TypeUser key.V2MinKey maxSeqno).
Definition maxEncodedUserKey : bytes :=
  mustEncodeKey (key.mkKey key.UnknownVersion key.TypeUser key.V2MaxKey 0).
Definition wildcard : bytes := [x00].

(** The loop of [incrementRightmostByte], on the reversed slice: the bytes that carry
    become 0; a carry out of the first byte prepends a 1. *)
Fixpoint incrementRev (rin : bytes) : bytes :=
  match rin with
  | [] => []
  | b :: rin =>
      let b := toByte (byteZ b + 1) in
      if negb (bool_decide (b = x00)) then b :: rin
      else match rin with [] => [b; x01] | _ => b :: incrementRev rin end
  end.
Definition incrementRightmostByte (bs : bytes) : bytes := rev (incrementRev (rev bs)).

Definition tombstoneValue : bytes := [x00].
Definition isTombstone (val : bytes) : bool :=
  match val with [b] => bool_decide (b = x00) | _ => false end.

(** ** Iterating *)

Section query.
Context `{PebbleLib} (fuel : nat).

Definition iterNextUserKey (piter : Iterator) (currentPebbleKey : bytes) : bool * Iterator :=
  if (len currentPebbleKey <=? key.V2SeqLen) ||
     negb (match currentPebbleKey with v :: _ => bool_decide (v = key.V2) | [] => false end)
  then Next piter
  else
    let prefixLen := len currentPebbleKey - key.V2SeqLen in
    let seekKey := takeZ prefixLen currentPebbleKey ++ replicate (Z.to_nat key.V2SeqLen) xff in
    let '(ok, piter) := SeekGE seekKey piter in
    if negb ok then (false, piter)
    else if bool_decide (iter_Key piter = seekKey) then Next piter
    else (true, piter).

Definition iterOptionsForBounds (low high : bytes) : result IterOptions :=
  match encodeUserKey [] low maxSeqno with
  | ERR e => ERR e
  | PANIC p => PANIC p
  | OK lowBuf =>
      if bool_decide (high = wildcard)
      then OK (mkOpts (Some lowBuf) (Some (incrementRightmostByte maxEncodedUserKey)) [])
      else
        match encodeUserKey [] high maxSeqno with
        | ERR e => ERR e
        | PANIC p => PANIC p
        | OK highBuf => OK (mkOpts (Some lowBuf) (Some highBuf) [])
        end
  end.

(** *** Filling a response *)

Definition addKVPair (key value : bytes) (r : ResponseRange) : ResponseRange :=
  let kvs := rr_Kvs r ++ [newKV key value] in mkRangeResp kvs (rr_More r) (len kvs).
Definition addKeyOnly (key value : bytes) (r : ResponseRange) : ResponseRange :=
  mkRangeResp (rr_Kvs r ++ [newKV key []]) (rr_More r) (i64 (rr_Count r + 1)).
Definition addCountOnly (key value : bytes) (r : ResponseRange) : ResponseRange :=
  mkRangeResp (rr_Kvs r) (rr_More r) (i64 (rr_Count r + 1)).

(** [sizeOfVarint]; ten groups of seven bits are enough for a [uint64]. *)
Fixpoint varintLoop (fuel : nat) (x n : Z) : Z :=
  match fuel with
  | O => n
  | S fuel => if 0x80 <=? x then varintLoop fuel (Z.shiftr x 7) (n + 1) else n
  end.
Definition sizeOfVarint (x : Z) : Z := varintLoop 10 x 1.

Definition sizeRangeResponseKVEntry (keyLen valueLen : Z) : Z :=
  let kvSize := 0 in
  let kvSize := if 0 <? keyLen then kvSize +ᵤ (1 + keyLen +ᵤ sizeOfVarint keyLen) else kvSize in
  let kvSize :=
    if 0 <? valueLen then kvSize +ᵤ (1 + valueLen +ᵤ sizeOfVarint valueLen) else kvSize in
  1 + kvSize +ᵤ sizeOfVarint kvSize.
Definition sizeKVPair (key value : bytes) : Z := sizeRangeResponseKVEntry (len key) (len value).
Definition sizeKeyOnly (key value : bytes) : Z := sizeRangeResponseKVEntry (len key) 0.
Definition sizeCountOnly (key value : bytes) : Z := 0.

Definition iterFuncsFromReq (req : RequestOp_Range)
    : (bytes -> bytes -> ResponseRange -> ResponseRange) * (bytes -> bytes -> Z) :=
  if r_KeysOnly req then (addKeyOnly, sizeKeyOnly)
  else if r_CountOnly req then (addCountOnly, sizeCountOnly)
  else (addKVPair, sizeKVPair).

Definition maxRangeSize : Z := 4 * 1024 * 1024 - 1024.

(** *** Pages *)

Section iterate.
Context {Y : Type} (yield : ResponseRange -> M Y bool).
Context (fill : bytes -> bytes -> ResponseRange -> ResponseRange) (sf : bytes -> bytes -> Z).
Context (limit : Z).

Fixpoint iterateLoop (fuel : nat) (piter : Iterator) (response : ResponseRange)
    (i responseSize : Z) : M Y unit :=
  match fuel with
  | O => panic_ OutOfFuel
  | S fuel =>
      match key.DecodeBytes (iter_Key piter) with
      | ERR _ => panicf "key.DecodeBytes"
      | PANIC p => panic_ p
      | OK k =>
          let currentKey := iter_Key piter in
          if isTombstone (iter_Value piter) then
            let '(ok, piter) := iterNextUserKey piter currentKey in
            if negb ok then yield response ;; skip
            else iterateLoop fuel piter response i responseSize
          else if (i =? limit) && negb (limit =? 0) then
            let '(more, _) := Next piter in
            yield (set_More more response) ;; skip
          else
            let value := iter_Value piter in
            let entrySize := sf (key.k_Key k) value in
            let next response responseSize :=
              let response := fill (key.k_Key k) value response in
              let '(ok, piter) := iterNextUserKey piter currentKey in
              if negb ok then yield response ;; skip
              else iterateLoop fuel piter response (i + 1) (responseSize +ᵤ entrySize) in
            if maxRangeSize <=? responseSize +ᵤ entrySize then
              more ← yield (set_More true response);
              if negb more then skip else next emptyRange 0
            else next response responseSize
      end
  end.
End iterate.

(** [iter.Seq] *)
Definition Seq (A : Type) : Type := forall Y, (A -> M Y bool) -> M Y unit.

Definition iterate (reader : Reader) (req : RequestOp_Range) : result (Seq ResponseRange) :=
  match iterOptionsForBounds (r_Key req) (default [] (r_RangeEnd req)) with
  | ERR e => ERR e
  | PANIC p => PANIC p
  | OK opts =>
      let '(fill, sf) := iterFuncsFromReq req in
      OK (fun Y yield =>
        match NewIter reader opts with
        | PANIC p => panic_ p
        | ERR _ => skip
        | OK piter =>
            let '(ok, piter) := First piter in
            if negb ok then yield emptyRange ;; skip
            else iterateLoop yield fill sf (r_Limit req) fuel piter emptyRange 0 0
        end)
  end.

(** [iterx.First]: the first value, or nil if there is none. *)
Definition iterx_First {A} (seq : Seq A) : result (option A) :=
  match seq (option A) (fun a _ => Ret false (Some a)) None with
  | Ret _ res => OK res
  | Err e _ => ERR e
  | Panic p => PANIC p
  end.
(** [iterx.Collect] *)
Definition iterx_Collect {A} (seq : Seq A) : result (list A) :=
  match seq (list A) (fun a l => Ret true (l ++ [a])) [] with
  | Ret _ res => OK res
  | Err e _ => ERR e
  | Panic p => PANIC p
  end.
(** [iterx.From] with one value *)
Definition iterx_From {A} (a : A) : Seq A := fun Y yield => yield a ;; skip.

(** ** Looking up *)

Definition rangeLookup (reader : Reader) (req : RequestOp_Range) : result (option ResponseRange) :=
  match iterate reader req with
  | ERR e => ERR e
  | PANIC p => PANIC p
  | OK it => iterx_First it
  end.

Definition singleLookup (reader : Reader) (req : RequestOp_Range) : result ResponseRange :=
  match encodeUserKey [] (r_Key req) maxSeqno with
  | ERR e => ERR e
  | PANIC p => PANIC p
  | OK keyBuf =>
      match NewIter reader noOpts with
      | ERR e => ERR e
      | PANIC p => PANIC p
      | OK iter =>
          let '(found, iter) := SeekPrefixGE keyBuf iter in
          if negb found then OK emptyRange
          else if isTombstone (iter_Value iter) then OK emptyRange
          else
            let value := iter_Value iter in
            let kv := newKV (r_Key req)
              (if negb (r_KeysOnly req) && negb (r_CountOnly req) then value else []) in
            OK (mkRangeResp (if r_CountOnly req then [] else [kv]) false 1)
      end
  end.

(** The nil of [rangeLookup] is nil here too. *)
Definition lookup (reader : Reader) (req : RequestOp_Range) : result (option ResponseRange) :=
  match r_RangeEnd req with
  | Some _ => rangeLookup reader req
  | None => match singleLookup reader req with
            | OK r => OK (Some r) | ERR e => ERR e | PANIC p => PANIC p end
  end.

Definition iteratorLookup (reader : Reader) (req : RequestOp_Range)
    : result (Seq ResponseRange) :=
  match r_RangeEnd req with
  | Some _ => iterate reader req
  | None => match singleLookup reader req with
            | OK r => OK (iterx_From r) | ERR e => ERR e | PANIC p => PANIC p end
  end.

Definition readLocalIndex (db : Reader) (indexKey : bytes) : result Z :=
  match Get db indexKey with
  | ERR e => if bool_decide (e = ErrNotFound) then OK 0 else ERR e
  | PANIC p => PANIC p
  | OK indexVal => LittleEndian_Uint64 indexVal
  end.

(** ** Command streams

    The writer is a parameter, as is the stop channel: whether it is closed at each
    test of it.  The result is the state of the writer reached. *)
Section snapshot.
Context `{CommandCodec} {W : Type} (Write : bytes -> M W unit) (stopc : nat -> bool).
Context (tableName : bytes).

Definition ErrSnapshotStopped : error := ErrMsg "snapshot stopped".

(** [writeCommand] and [writeDeleteCommand] *)
Definition writeCommand (key val : bytes) (leaderIndex : Z) : result bytes :=
  MarshalCommand
    (mkCommand tableName PUT (Some (newKV key val)) (Some leaderIndex) [] None None false [] false).
Definition writeDeleteCommand (userKey : bytes) (leaderIndex : Z) : result bytes :=
  MarshalCommand
    (mkCommand tableName DELETE (Some (newKV userKey [])) (Some leaderIndex) [] None None false []
       false).

(** Writes what was marshalled. *)
Definition emit (buffer : result bytes) : M W unit :=
  b ← readr (fun _ => buffer); Write b.

Fixpoint snapshotLoop (fuel tests : nat) (iter : Iterator) : M W unit :=
  match fuel with
  | O => panic_ OutOfFuel
  | S fuel =>
      if negb (Valid iter) then skip
      else if stopc tests then fail ErrSnapshotStopped
      else
        k ← readr (fun _ => key.DecodeBytes (iter_Key iter));
        if bool_decide (key.KeyType k = key.TypeUser) then
          let currentKey := iter_Key iter in
          if isTombstone (iter_Value iter)
          then snapshotLoop fuel (S tests) (iterNextUserKey iter currentKey).2
          else
            emit (writeCommand (key.k_Key k) (iter_Value iter) (key.Seqno k)) ;;
            snapshotLoop fuel (S tests) (iterNextUserKey iter currentKey).2
        else snapshotLoop fuel (S tests) (Next iter).2
  end.

Definition commandSnapshot (reader : Reader) : M W Z :=
  iter ← readr (fun _ => NewIter reader noOpts);
  idx ← readr (fun _ => readLocalIndex reader sysLocalIndex);
  snapshotLoop fuel 0 (First iter).2 ;;
  ret idx.

Record SnapshotResponse : Type := mkSnapshotResponse {
  sr_Index : Z; sr_TipIndex : Z; sr_BaseIndex : Z; sr_GCHorizon : Z }.

Fixpoint incrementalLoop (baseIndex : Z) (fuel tests : nat) (iter : Iterator) : M W unit :=
  match fuel with
  | O => panic_ OutOfFuel
  | S fuel =>
      if negb (Valid iter) then skip
      else if stopc tests then fail ErrSnapshotStopped
      else
        k ← readr (fun _ => key.DecodeBytes (iter_Key iter));
        if negb (bool_decide (key.KeyType k = key.TypeUser))
        then incrementalLoop baseIndex fuel (S tests) (Next iter).2
        else
          let currentKey := iter_Key iter in
          let seqno := key.DecodeV2Seqno (iter_Key iter) in
          (if baseIndex <? seqno then
             emit (if isTombstone (iter_Value iter)
                   then writeDeleteCommand (key.k_Key k) seqno
                   else writeCommand (key.k_Key k) (iter_Value iter) seqno)
           else skip) ;;
          let '(ok, iter) := iterNextUserKey iter currentKey in
          if negb ok then skip else incrementalLoop baseIndex fuel (S tests) iter
  end.

Definition commandIncrementalSnapshot (reader : Reader) (requestedBase : Z)
    : M W SnapshotResponse :=
  idx ← readr (fun _ => readLocalIndex reader sysLocalIndex);
  gcHorizon ← readr (fun _ => readLocalIndex reader sysGCHorizon);
  let baseIndex := requestedBase in
  let baseIndex :=
    if (0 <? gcHorizon) && (baseIndex <=? gcHorizon) then gcHorizon +ᵤ 1 else baseIndex in
  iter ← readr (fun _ => NewIter reader noOpts);
  incrementalLoop baseIndex fuel 0 (First iter).2 ;;
  ret (mkSnapshotResponse idx idx baseIndex gcHorizon).

End snapshot.
End query.
