(* ===== verification/FsmCommand.v ===== *)
(** * Commands of a table

    [storage/table/fsm/command*.go]: what each command does with the batch of an
    update.  The state is the [updateContext]; the database in it is the one the batch
    is committed to. *)
From S2P Require Import Prelude Raftpb LogDB Wire WireSpec Bytes Key KeySpec Armadapb Pebble.
From S2P Require Import FsmQuery.
From Stdlib Require Import Strings.Byte.
Import armadapb.

Section command.
Context `{PebbleLib} (fuel : nat).

Record updateContext : Type := mkCtx {
  batch : Batch; db : DB; index : Z; leaderIndex : option Z }.

Definition set_batch (b : Batch) (c : updateContext) : updateContext :=
  mkCtx b (db c) (index c) (leaderIndex c).
Definition set_db (d : DB) (c : updateContext) : updateContext :=
  mkCtx (batch c) d (index c) (leaderIndex c).
Definition set_index (i : Z) (c : updateContext) : updateContext :=
  mkCtx (batch c) (db c) i (leaderIndex c).
Definition set_leaderIndex (i : option Z) (c : updateContext) : updateContext :=
  mkCtx (batch c) (db c) (index c) i.

Definition seqno (c : updateContext) : Z :=
  match leaderIndex c with Some i => i | None => index c end.

(** A call that replaces the batch, or fails. *)
Definition onBatch (f : updateContext -> result Batch) : M updateContext unit :=
  b ← readr f; modify (set_batch b).

Definition batchSet (k v : bytes) : M updateContext unit :=
  onBatch (fun c => batch_Set k v (batch c)).

Definition EnsureIndexed : M updateContext unit :=
  c ← get;
  if Indexed (batch c) then skip
  else
    indexed ← readr (fun _ => batch_Apply (batch c) (NewIndexedBatch (db c)));
    _ ← readr (fun _ => batch_Close (batch c));
    modify (set_batch indexed).

(** The batch as a reader. *)
Definition batchReader (c : updateContext) : Reader := of_Batch (batch c) (db c).

Definition Commit : M updateContext unit :=
  c ← get;
  (match leaderIndex c with
   | Some i => batchSet sysLeaderIndex (LittleEndian_PutUint64 i)
   | None => skip
   end) ;;
  batchSet sysLocalIndex (LittleEndian_PutUint64 (index c)) ;;
  d ← readr (fun c => batch_Commit (batch c) (db c));
  modify (set_db d).

(** ** Put *)

Definition handlePut (put : RequestOp_Put) : M updateContext ResponsePut :=
  c ← get;
  keyBuf ← readr (fun _ => encodeUserKey [] (p_Key put) (seqno c));
  prev ← (if p_PrevKv put then
      EnsureIndexed ;;
      rng ← readr (fun c => singleLookup (batchReader c) (mkRange (p_Key put) None 0 false false));
      ret (match rr_Kvs rng with [kv] => Some kv | _ => None end)
    else ret None);
  batchSet keyBuf (p_Value put) ;;
  ret (mkPutResp prev).

Fixpoint handlePutBatch (ops : list RequestOp_Put) : M updateContext (list ResponsePut) :=
  match ops with
  | [] => ret []
  | op :: ops => res ← handlePut op; rs ← handlePutBatch ops; ret (res :: rs)
  end.

(** ** Delete *)

(** The loop of a range delete: the user keys that are live, with their values. *)
Fixpoint collectLive (fuel : nat) (iter : Iterator) (live : list (bytes * bytes))
    : result (list (bytes * bytes)) :=
  match fuel with
  | O => PANIC OutOfFuel
  | S fuel =>
      if negb (Valid iter) then OK live
      else
        match key.DecodeBytes (iter_Key iter) with
        | ERR e => ERR e
        | PANIC p => PANIC p
        | OK k =>
            let live :=
              if bool_decide (key.KeyType k = key.TypeUser) && negb (isTombstone (iter_Value iter))
              then live ++ [(key.k_Key k, iter_Value iter)] else live in
            let '(ok, iter) := iterNextUserKey iter (iter_Key iter) in
            if negb ok then OK live else collectLive fuel iter live
        end
  end.

Definition putTombstone (userKey : bytes) : M updateContext unit :=
  keyBuf ← readr (fun c => encodeUserKey [] userKey (seqno c));
  batchSet keyBuf tombstoneValue.

Definition deleteRange (del : RequestOp_DeleteRange) (rangeEnd : bytes)
    : M updateContext ResponseDeleteRange :=
  EnsureIndexed ;;
  opts ← readr (fun _ => iterOptionsForBounds (d_Key del) rangeEnd);
  iter ← readr (fun c => NewIter (batchReader c) opts);
  live ← readr (fun _ => collectLive fuel (First iter).2 []);
  _ ← readr (fun _ => iter_Close iter);
  forM_ live (fun kv => putTombstone kv.1) ;;
  ret (mkDeleteResp
         (if d_Count del || d_PrevKv del then len live else 0)
         (if d_PrevKv del then map (fun kv => newKV kv.1 kv.2) live else [])).

Definition deleteSingle (del : RequestOp_DeleteRange) : M updateContext ResponseDeleteRange :=
  EnsureIndexed ;;
  let asked := d_PrevKv del || d_Count del in
  rng ← readr (fun c => singleLookup (batchReader c)
    (mkRange (d_Key del) None 0 false (if asked then d_Count del && negb (d_PrevKv del) else true)));
  if rr_Count rng =? 0 then ret emptyDelete
  else
    putTombstone (d_Key del) ;;
    ret (if asked then mkDeleteResp (rr_Count rng) (rr_Kvs rng) else emptyDelete).

Definition handleDelete (del : RequestOp_DeleteRange) : M updateContext ResponseDeleteRange :=
  match d_RangeEnd del with
  | Some rangeEnd => deleteRange del rangeEnd
  | None => deleteSingle del
  end.

Fixpoint handleDeleteBatch (ops : list RequestOp_DeleteRange)
    : M updateContext (list ResponseDeleteRange) :=
  match ops with
  | [] => ret []
  | op :: ops => res ← handleDelete op; rs ← handleDeleteBatch ops; ret (res :: rs)
  end.

(** ** Transactions *)

Definition txnCompareSingle (cmp : Compare) (value : bytes) : bool :=
  match c_Target cmp, c_TargetUnion cmp with
  | VALUE, Some _ =>
      match c_Result cmp with
      | EQUAL => bool_decide (value = GetValue cmp)
      | NOT_EQUAL => negb (bool_decide (value = GetValue cmp))
      | GREATER => match bytesCompare value (GetValue cmp) with Gt => true | _ => false end
      | LESS => match bytesCompare value (GetValue cmp) with Lt => true | _ => false end
      | CompareResultOther _ => true
      end
  | _, _ => true
  end.

Fixpoint compareLoop (cmp : Compare) (fuel : nat) (iter : Iterator) : result bool :=
  match fuel with
  | O => PANIC OutOfFuel
  | S fuel =>
      if negb (Valid iter) then OK true
      else if isTombstone (iter_Value iter) then
        let '(ok, iter) := iterNextUserKey iter (iter_Key iter) in
        if negb ok then OK true else compareLoop cmp fuel iter
      else if negb (txnCompareSingle cmp (iter_Value iter)) then OK false
      else compareLoop cmp fuel (Next iter).2
  end.

Definition compareRange (reader : Reader) (cmp : Compare) (rangeEnd : bytes) : result bool :=
  match iterOptionsForBounds (c_Key cmp) rangeEnd with
  | ERR e => ERR e
  | PANIC p => PANIC p
  | OK opts =>
      match NewIter reader opts with
      | ERR e => ERR e
      | PANIC p => PANIC p
      | OK iter =>
          let '(ok, iter) := First iter in
          if negb ok then OK false else compareLoop cmp fuel (First iter).2
      end
  end.

(** The comparison of one key; the buffer is empty again when it returns. *)
Definition compareKey (reader : Reader) (cmp : Compare) (keyBuf : bytes) : result bool :=
  match encodeUserKey keyBuf (c_Key cmp) maxSeqno with
  | ERR e => ERR e
  | PANIC p => PANIC p
  | OK keyBuf =>
      match NewIter reader noOpts with
      | ERR e => ERR e
      | PANIC p => PANIC p
      | OK iter =>
          let '(found, iter) := SeekPrefixGE keyBuf iter in
          if negb found then OK false
          else if isTombstone (iter_Value iter) then OK false
          else OK (txnCompareSingle cmp (iter_Value iter))
      end
  end.

Fixpoint txnCompare (reader : Reader) (compare : list Compare) : result bool :=
  match compare with
  | [] => OK true
  | cmp :: compare =>
      match (match c_RangeEnd cmp with
             | Some rangeEnd => compareRange reader cmp rangeEnd
             | None => compareKey reader cmp []
             end) with
      | ERR e => ERR e
      | PANIC p => PANIC p
      | OK res => if negb res then OK false else txnCompare reader compare
      end
  end.

Fixpoint handleTxnOps (req : list RequestOp) : M updateContext (list ResponseOp) :=
  match req with
  | [] => ret []
  | op :: req =>
      results ← (match op with
        | RequestRange r =>
            response ← readr (fun c => lookup fuel (batchReader c) r);
            ret [ResponseOp_Range response]
        | RequestPut p => response ← handlePut p; ret [ResponseOp_Put response]
        | RequestDeleteRange d => response ← handleDelete d; ret [ResponseOp_DeleteRange response]
        | RequestNone => ret []
        end);
      more ← handleTxnOps req;
      ret (results ++ more)
  end.

Definition handleTxn (compare : list Compare) (success failure : list RequestOp)
    : M updateContext (bool * list ResponseOp) :=
  EnsureIndexed ;;
  ok ← readr (fun c => txnCompare (batchReader c) compare);
  res ← handleTxnOps (if ok : bool then success else failure);
  ret (ok, res).

(** ** The commands *)

Inductive UpdateResult : Type := ResultFailure | ResultSuccess | ResultGC.

(** A nil key-value or transaction is dereferenced. *)
Definition deref {A} (p : option A) : M updateContext A :=
  match p with Some a => ret a | None => panic_ NilDereference end.

Definition succeed (responses : list ResponseOp) : M updateContext (UpdateResult * CommandResult) :=
  c ← get; ret (ResultSuccess, mkResult responses (seqno c)).

Definition commandPut_handle (c : Command) : M updateContext (UpdateResult * CommandResult) :=
  kv ← deref (cmd_Kv c);
  resp ← handlePut (mkPut (kv_Key kv) (kv_Value kv) (cmd_PrevKvs c));
  succeed [ResponseOp_Put resp].

Definition commandDelete_handle (c : Command) : M updateContext (UpdateResult * CommandResult) :=
  kv ← deref (cmd_Kv c);
  resp ← handleDelete (mkDelete (kv_Key kv) (cmd_RangeEnd c) (cmd_PrevKvs c) (cmd_Count c));
  succeed [ResponseOp_DeleteRange resp].

Definition commandPutBatch_handle (c : Command) : M updateContext (UpdateResult * CommandResult) :=
  rop ← handlePutBatch (map (fun kv => mkPut (kv_Key kv) (kv_Value kv) false) (cmd_Batch c));
  succeed (map ResponseOp_Put rop).

Definition commandDeleteBatch_handle (c : Command)
    : M updateContext (UpdateResult * CommandResult) :=
  rop ← handleDeleteBatch (map (fun kv => mkDelete (kv_Key kv) None false false) (cmd_Batch c));
  succeed (map ResponseOp_DeleteRange rop).

Definition commandTxn_handle (c : Command) : M updateContext (UpdateResult * CommandResult) :=
  txn ← deref (cmd_Txn c);
  '(succ, rop) ← handleTxn (t_Compare txn) (t_Success txn) (t_Failure txn);
  c ← get;
  ret (if succ : bool then ResultSuccess else ResultFailure, mkResult rop (seqno c)).

Definition commandGC_handle (c : Command) : M updateContext (UpdateResult * CommandResult) :=
  c ← get;
  let horizon := seqno c in
  batchSet sysGCHorizon (LittleEndian_PutUint64 horizon) ;;
  ret (ResultGC, mkResult [] horizon).

(** [defer func() { ctx.leaderIndex = i }()] *)
Definition restoringLeader {A} (i : option Z) (c : M updateContext A) : M updateContext A := fun s =>
  match c s with
  | Ret a s' => Ret a (set_leaderIndex i s')
  | Err e s' => Err e (set_leaderIndex i s')
  | Panic p => Panic p
  end.

(** The commands of a sequence; [handle] is the handler of one of them. *)
Definition commandSequence_handle (handle : Command -> M updateContext (UpdateResult * CommandResult))
    (cmd : Command) : M updateContext (UpdateResult * CommandResult) :=
  c ← get;
  let sequenceLeaderIndex := leaderIndex c in
  restoringLeader sequenceLeaderIndex
    (responses ← (fix handleSequence (cmds : list Command) : M updateContext (list ResponseOp) :=
       match cmds with
       | [] => ret []
       | cmd :: cmds =>
           modify (set_leaderIndex
             (match cmd_LeaderIndex cmd with Some i => Some i | None => sequenceLeaderIndex end)) ;;
           '(_, cmdRes) ← handle cmd;
           more ← handleSequence cmds;
           ret (cr_Responses cmdRes ++ more)
       end) (cmd_Sequence cmd);
     ret (ResultSuccess, mkResult responses (seqno c))).

(** [wrapCommand(cmd).handle(ctx)]. *)
Fixpoint handle (cmd : Command) : M updateContext (UpdateResult * CommandResult) :=
  match cmd_Type cmd with
  | PUT => commandPut_handle cmd
  | DELETE => commandDelete_handle cmd
  | PUT_BATCH => commandPutBatch_handle cmd
  | DELETE_BATCH => commandDeleteBatch_handle cmd
  | TXN => commandTxn_handle cmd
  | SEQUENCE => commandSequence_handle handle cmd
  | DUMMY => succeed []
  | GC => commandGC_handle cmd
  | CommandTypeOther _ => panicf "unknown command type"
  end.

End command.
