(* ===== verification/Fsm.v ===== *)
(** * The state machine of a table

    [storage/table/fsm/fsm.go] and [fsm_gc.go]: applying committed entries ([Update]),
    queries ([Lookup]) and the garbage collection of old versions.  The state has the
    database, the in-memory horizon, the pending signal to the collector and what was
    reported as applied.  Opening directories, snapshots of files and metrics are left
    out; the collector's goroutine is a call of [runGCSweep]. *)
From S2P Require Import Prelude Raftpb LogDB Wire WireSpec Bytes Key KeySpec Armadapb Pebble.
From S2P Require Import Session RsmMembership Encoded TaskQueue Rsm FsmQuery FsmCommand.
From Stdlib Require Import Strings.Byte.
Import armadapb(Command, cmd_LeaderIndex, cr_Revision, RequestOp, RequestOp_Range, ResponseOp,
  ResponseRange, Compare).

Section fsm.
Context `{PebbleLib} `{CommandCodec} (fuel : nat).

Record FSM : Type := mkFSM {
  pebble : DB; gcHorizon : Z; gcCh : bool; applied : Z; appliedCalls : list Z }.

Definition set_pebble (d : DB) (p : FSM) : FSM :=
  mkFSM d (gcHorizon p) (gcCh p) (applied p) (appliedCalls p).
Definition set_gcHorizon (h : Z) (p : FSM) : FSM :=
  mkFSM (pebble p) h (gcCh p) (applied p) (appliedCalls p).
(** [signalGCWorker]: the channel holds one signal at most. *)
Definition signalGCWorker (p : FSM) : FSM :=
  mkFSM (pebble p) (gcHorizon p) true (applied p) (appliedCalls p).
Definition set_applied (i : Z) (p : FSM) : FSM :=
  mkFSM (pebble p) (gcHorizon p) (gcCh p) i (appliedCalls p).
Definition appliedFunc (i : Z) (p : FSM) : FSM :=
  mkFSM (pebble p) (gcHorizon p) (gcCh p) (applied p) (appliedCalls p ++ [i]).

(** ** Opening *)

(** The part of [Open] after the database has been opened. *)
Definition Open : M FSM Z :=
  idx ← readr (fun p => readLocalIndex (of_DB (pebble p)) sysLocalIndex);
  modify (set_applied idx) ;;
  modify (appliedFunc idx) ;;
  lx ← try_ (readr (fun p => readLocalIndex (of_DB (pebble p)) sysLeaderIndex));
  (match lx with
   | inl lx => when (negb (lx =? 0)) (modify (appliedFunc lx))
   | inr _ => skip
   end) ;;
  gcH ← try_ (readr (fun p => readLocalIndex (of_DB (pebble p)) sysGCHorizon));
  modify (set_gcHorizon (match gcH with inl h => h | inr _ => 0 end)) ;;
  ret idx.

Definition notifyRecovered : M FSM unit :=
  gcH ← try_ (readr (fun p => readLocalIndex (of_DB (pebble p)) sysGCHorizon));
  modify (set_gcHorizon (match gcH with inl h => h | inr _ => 0 end)) ;;
  modify signalGCWorker.

(** ** Updates *)

Definition parseCommand (entry : smEntry) : M updateContext Command :=
  modify (set_index (sme_Index entry)) ;;
  cmd ← readr (fun _ => UnmarshalVTUnsafe (sme_Cmd entry));
  modify (set_leaderIndex (cmd_LeaderIndex cmd)) ;;
  ret cmd.

Definition resultValue (r : UpdateResult) : Z :=
  match r with ResultFailure => 0 | ResultSuccess => 1 | ResultGC => 2 end.

Definition applyEntry (entry : smEntry) : M updateContext (smEntry * option Z) :=
  cmd ← parseCommand entry;
  '(updateResult, res) ← handle fuel cmd;
  bts ← readr (fun _ => MarshalResult res);
  ret (set_Result (Session.mkResult (resultValue updateResult) (Some bts)) entry,
       match updateResult with ResultGC => Some (cr_Revision res) | _ => None end).

(** The loop of [Update]: the entries with their results, the last index and the last
    horizon applied. *)
Fixpoint applyEntries (updates : list smEntry) (idx gcHorizonApplied : Z)
    : M updateContext (list smEntry * Z * Z) :=
  match updates with
  | [] => ret ([], idx, gcHorizonApplied)
  | e :: es =>
      '(e', gc) ← applyEntry e;
      '(es', idx, h) ← applyEntries es (sme_Index e) (default gcHorizonApplied gc);
      ret (e' :: es', idx, h)
  end.

Definition Update (updates : list smEntry) : M FSM (list smEntry) := fun p =>
  let d := pebble p in
  match ('(es, idx, h) ← applyEntries updates 0 0; Commit ;; ret (es, idx, h))
          (mkCtx (NewBatch d) d 0 None) with
  | Panic q => Panic q
  | Err e c => Err e (set_pebble (db c) p)
  | Ret (es, idx, h) c =>
      let p := set_pebble (db c) p in
      let p := if 0 <? h then signalGCWorker (set_gcHorizon h p) else p in
      let p := set_applied idx p in
      Ret es (appliedFunc (match leaderIndex c with Some i => i | None => idx end) p)
  end.

(** ** Queries *)

Inductive query : Type :=
| TxnRequest (compare : list Compare) (success failure : list RequestOp)
| RangeRequest (r : RequestOp_Range)
| IteratorRequest (r : RequestOp_Range)
| SnapshotRequest
| IncrementalSnapshotRequest (SinceIndex : Z)
| LocalIndexRequest
| LeaderIndexRequest
| PathRequest
| GCHorizonRequest
| UnknownRequest.

Inductive answer : Type :=
| TxnResponse (succeeded : bool) (responses : list ResponseOp)
| RangeResponse (r : option ResponseRange)
| IteratorResponse (s : Seq ResponseRange)
| SnapshotAnswer (r : SnapshotResponse)
| PathResponse (path : bytes)
| IndexResponse (index : Z).

Definition ErrUnknownQueryType : error := ErrMsg "unknown query type".

Section queries.
(** The writer and the stop channel of a snapshot request; the names of the table and of
    its directory. *)
Context {W : Type} (Write : bytes -> M W unit) (stopc : nat -> bool) (tableName dirname : bytes).

(** [lookup(snapshot, op.GetRequestRange())]: nil for the other requests, which panics. *)
Definition lookupOp (reader : Reader) (op : RequestOp) : M W ResponseOp :=
  match op with
  | armadapb.RequestRange r =>
      rr ← readr (fun _ => lookup fuel reader r);
      ret (armadapb.ResponseOp_Range rr)
  | _ => panic_ NilDereference
  end.

Fixpoint lookupOps (reader : Reader) (ops : list RequestOp) : M W (list ResponseOp) :=
  match ops with
  | [] => ret []
  | op :: ops =>
      r ← lookupOp reader op;
      rs ← lookupOps reader ops;
      ret (r :: rs)
  end.

Definition Lookup (l : query) (p : FSM) : M W answer :=
  match l with
  | TxnRequest compare success failure =>
      let snapshot := of_Snapshot (NewSnapshot (pebble p)) in
      ok ← readr (fun _ => txnCompare fuel snapshot compare);
      rs ← lookupOps snapshot (if ok then success else failure);
      ret (TxnResponse ok rs)
  | RangeRequest r =>
      rr ← readr (fun _ => lookup fuel (of_DB (pebble p)) r);
      ret (RangeResponse rr)
  | IteratorRequest r =>
      s ← readr (fun _ => iteratorLookup fuel (of_DB (pebble p)) r);
      ret (IteratorResponse s)
  | SnapshotRequest =>
      let snapshot := of_Snapshot (NewSnapshot (pebble p)) in
      idx ← commandSnapshot fuel Write stopc tableName snapshot;
      ret (SnapshotAnswer (mkSnapshotResponse idx idx 0 0))
  | IncrementalSnapshotRequest sinceIndex =>
      let snapshot := of_Snapshot (NewSnapshot (pebble p)) in
      resp ← commandIncrementalSnapshot fuel Write stopc tableName snapshot sinceIndex;
      ret (SnapshotAnswer resp)
  | LocalIndexRequest =>
      idx ← readr (fun _ => readLocalIndex (of_DB (pebble p)) sysLocalIndex);
      ret (IndexResponse idx)
  | LeaderIndexRequest =>
      idx ← readr (fun _ => readLocalIndex (of_DB (pebble p)) sysLeaderIndex);
      ret (IndexResponse idx)
  | PathRequest => ret (PathResponse dirname)
  | GCHorizonRequest => ret (IndexResponse (gcHorizon p))
  | UnknownRequest => fail ErrUnknownQueryType
  end.

End queries.

(** ** Garbage collection *)

Definition maxBatchSize : Z := 16 * 1024 * 1024.

Definition gcPrefixUpper (prefix : bytes) : bytes := takeZ (len prefix - 1) prefix ++ [x01].

Definition incrementStoredSeqno (physKey : bytes) : result bytes :=
  let seqStart := len physKey - key.V2SeqLen in
  if seqStart <? 0 then PANIC IndexOutOfRange
  else
    match BigEndian_Uint64 (dropZ seqStart physKey) with
    | OK stored => OK (takeZ seqStart physKey ++ BigEndian_PutUint64 (stored +ᵤ 1))
    | ERR e => ERR e
    | PANIC p => PANIC p
    end.

(** [commitBatch]: the batch to go on with. *)
Definition commitBatch (b : Batch) : M DB Batch :=
  if batch_Count b =? 0 then ret b
  else
    d ← readr (fun d => batch_Commit b d);
    modify (fun _ => d) ;;
    ret (NewBatch d).

Fixpoint gcLoop (gcIndex : Z) (fuel : nat) (iter : Iterator) (valid : bool) (lastPrefix : bytes)
    (hasLiveAbove : bool) (batch : Batch) : M DB Batch :=
  match fuel with
  | O => panic_ OutOfFuel
  | S fuel =>
      if negb valid then ret batch
      else
        let physKey := iter_Key iter in
        k ← readr (fun _ => key.DecodeBytes physKey);
        if negb (bool_decide (key.KeyType k = key.TypeUser)) then
          let '(valid, iter) := Next iter in
          gcLoop gcIndex fuel iter valid lastPrefix hasLiveAbove batch
        else
          let prefixLen := len physKey - key.V2SeqLen in
          if prefixLen <? 0 then panic_ IndexOutOfRange
          else
            let prefix := takeZ prefixLen physKey in
            let same := bool_decide (lastPrefix = prefix) in
            let hasLiveAbove := if same then hasLiveAbove else false in
            if gcIndex <=? key.Seqno k then
              let '(valid, iter) := Next iter in
              gcLoop gcIndex fuel iter valid prefix true batch
            else
              let prefixUpper := gcPrefixUpper prefix in
              rangeLo ← readr (fun _ =>
                if hasLiveAbove || isTombstone (iter_Value iter) then OK physKey
                else incrementStoredSeqno physKey);
              batch ← readr (fun _ => batch_DeleteRange rangeLo prefixUpper batch);
              batch ← (if maxBatchSize <=? batch_Len batch then commitBatch batch else ret batch);
              let '(valid, iter) := SeekGE prefixUpper iter in
              gcLoop gcIndex fuel iter valid prefix hasLiveAbove batch
  end.

Definition gcOptions (gcIndex : Z) : IterOptions :=
  mkOpts (Some minEncodedUserKey) (Some (incrementRightmostByte maxEncodedUserKey))
    [NewMVCCSeqnoFilter gcIndex].

Definition runGC (gcIndex : Z) : M DB unit :=
  if gcIndex =? 0 then skip
  else
    snap ← gets NewSnapshot;
    iter ← readr (fun _ => NewIter (of_Snapshot snap) (gcOptions gcIndex));
    batch ← gets NewBatch;
    let '(valid, iter) := First iter in
    batch ← gcLoop gcIndex fuel iter valid [] false batch;
    commitBatch batch ;; skip.

(** An error is logged; the part committed stays. *)
Definition runGCSweep : M FSM unit := fun p =>
  if gcHorizon p =? 0 then Ret tt p
  else
    match runGC (gcHorizon p) (pebble p) with
    | Ret _ d => Ret tt (set_pebble d p)
    | Err _ d => Ret tt (set_pebble d p)
    | Panic q => Panic q
    end.

End fsm.
