(* ===== verification/FsmView.v ===== *)
(** * The contents of a table

    A table's rows hold the versions of its keys.  The newest version of a key is what
    a reader sees, unless it is a tombstone.  Here: the keys of a well-formed store, the
    newest versions, and what seeking and skipping do on a store of such rows. *)
From S2P Require Import Prelude Raftpb LogDB Wire WireSpec Bytes Key KeySpec Armadapb Pebble.
From S2P Require Import FsmQuery.
From Stdlib Require Import Strings.Byte.
Import armadapb.

(** ** Well-formed stores *)

(** The user keys the servers accept. *)
Record goodKey (k : bytes) : Prop := {
  gk_null : nullFree k; gk_ne : k <> []; gk_len : len k <= key.V2MaxUserKeyLen }.

Abbreviation ukey := (phys key.TypeUser).

Definition userRow (pk : bytes) : Prop := exists k s, goodKey k /\ is_u64 s /\ pk = ukey k s.
Definition sysRow (pk : bytes) : Prop :=
  pk = sysLocalIndex \/ pk = sysLeaderIndex \/ pk = sysGCHorizon.

Definition tableRows (m : rowmap) : Prop :=
  forall pk v, m !! pk = Some v -> userRow pk \/ sysRow pk.

(** The newest version of a key. *)
Definition newest (m : rowmap) (k : bytes) (s : Z) (v : bytes) : Prop :=
  is_u64 s /\ m !! ukey k s = Some v /\
  forall s' v', is_u64 s' -> m !! ukey k s' = Some v' -> s' <= s.

(** The value of a key, if it has one. *)
Definition live (m : rowmap) (k v : bytes) : Prop :=
  exists s, newest m k s v /\ isTombstone v = false.

Lemma newest_inj m k s s' v v' : newest m k s v -> newest m k s' v' -> s = s' /\ v = v'.
Proof.
  intros (Hs & Hv & Hmax) (Hs' & Hv' & Hmax'). assert (s = s') as <-.
  { specialize (Hmax _ _ Hs' Hv'). specialize (Hmax' _ _ Hs Hv). lia. }
  split; [done|]. congruence.
Qed.

Lemma live_inj m k v v' : live m k v -> live m k v' -> v = v'.
Proof. intros (s & Hn & _) (s' & Hn' & _). by destruct (newest_inj _ _ _ _ _ _ Hn Hn'). Qed.

(** ** Encoded keys *)

Lemma encodeUserKey_phys dst k s : encodeUserKey dst k s = OK (dst ++ ukey k s).
Proof. unfold encodeUserKey. by rewrite Encode_phys. Qed.

Lemma mustEncodeKey_phys t k s :
  mustEncodeKey (key.mkKey key.UnknownVersion t k s) = phys t k s.
Proof.
  unfold mustEncodeKey. rewrite Encode_phys. cbn [app].
  apply takeZ_all. by rewrite phys_len.
Qed.

Lemma maxSeqno_u64 : is_u64 maxSeqno.
Proof. unfold is_u64, maxSeqno. lia. Qed.
Lemma zero_u64 : is_u64 0.
Proof. unfold is_u64. lia. Qed.
#[export] Hint Resolve maxSeqno_u64 zero_u64 : core.

Lemma sysRow_phys pk : sysRow pk ->
  exists name, pk = phys key.TypeSystem name 0.
Proof.
  intros [-> | [-> | ->]]; eexists; apply mustEncodeKey_phys.
Qed.

Lemma type_compare t t' a b : byteZ t < byteZ t' ->
  blt ([key.V2; x00; x00; x00; t] ++ a) ([key.V2; x00; x00; x00; t'] ++ b).
Proof.
  intros Ht. unfold blt. cbn -[Z.compare]. rewrite !Z.compare_refl.
  by apply Z.compare_lt_iff in Ht as ->.
Qed.

Lemma prefix_phys t k s : k <> [] -> prefix (phys t k s) = prefixOf t k.
Proof.
  intros Hk. unfold prefix, split. destruct (phys_head t k s) as [b Hb]. rewrite Hb, <- Hb.
  rewrite phys_len. unfold key.V2Len, key.keyHeaderLen, key.V2SepLen, key.V2SeqLen.
  assert (0 < len k) by (destruct k; [done|]; rewrite len_cons; pose proof (len_nonneg k); lia).
  destruct (Z.ltb_spec (8 + 1 + 5) (4 + 1 + len k + 1 + 8)); [|lia].
  rewrite bool_decide_eq_true_2 by done. cbn [andb]. apply takeZ_app.
  unfold len. rewrite prefixOf_length. lia.
Qed.

Lemma prefixOf_inj t t' k k' : prefixOf t k = prefixOf t' k' -> t = t' /\ k = k'.
Proof.
  unfold prefixOf. intros E. injection E as Ht Hk. split; [done|].
  by apply app_inj_2 in Hk as [-> _].
Qed.

Lemma ukey_compare k k' s s' : goodKey k -> goodKey k' -> is_u64 s -> is_u64 s' ->
  bytesCompare (ukey k s) (ukey k' s') =
    match bytesCompare k k' with Eq => s' ?= s | c => c end.
Proof. intros [Hk _ _] [Hk' _ _]. by apply phys_compare. Qed.

(** The last place a version of the key can have. *)
Definition lastKey (k : bytes) : bytes := ukey k 0.

Lemma ukey_same_lt k s s' : is_u64 s -> is_u64 s' -> blt (ukey k s) (ukey k s') <-> s' < s.
Proof.
  intros Hs Hs'. unfold blt, phys. rewrite bytesCompare_app, seqBytes_compare by done.
  by rewrite Z.compare_lt_iff.
Qed.

Lemma blt_lastKey k k' s' : goodKey k -> goodKey k' -> is_u64 s' ->
  blt (lastKey k) (ukey k' s') <-> blt k k'.
Proof.
  intros Hk Hk' Hs'. unfold blt, lastKey. rewrite ukey_compare by done.
  destruct (bytesCompare k k'); [|done..]. rewrite Z.compare_lt_iff. unfold is_u64 in Hs'.
  split; [lia|done].
Qed.

(** ** Rows in order *)

Definition userRows (l : list row) : Prop := Forall (fun r => userRow r.1) l.

(** The rows after the key [pk]. *)
Definition after (pk : bytes) (l : list row) : list row := filter (fun r => blt pk r.1) l.

Definition userOf (pk : bytes) : bytes :=
  match key.DecodeBytes pk with OK k => key.k_Key k | _ => [] end.

(** The first row of every user key: its newest version. *)
Fixpoint headsF (prev : option bytes) (l : list row) : list row :=
  match l with
  | [] => []
  | r :: l =>
      if bool_decide (prev = Some (userOf r.1)) then headsF prev l
      else r :: headsF (Some (userOf r.1)) l
  end.
Definition heads (l : list row) : list row := headsF None l.

Lemma userOf_ukey k s : is_u64 s -> userOf (ukey k s) = k.
Proof. intros Hs. unfold userOf. by rewrite DecodeBytes_phys. Qed.

Lemma ascending_cons r l : ascendingRows (r :: l) <->
  (forall r', r' ∈ l -> blt r.1 r'.1) /\ ascendingRows l.
Proof.
  unfold ascendingRows. cbn [fmap list_fmap]. split.
  - intros [Hl Hr]%StronglySorted_inv. split; [|done]. intros r' Hr'.
    rewrite Forall_forall in Hr. by apply Hr, list_elem_of_fmap_2.
  - intros [Hr Hl]. constructor; [done|]. apply Forall_forall.
    intros k (r' & -> & Hr')%list_elem_of_fmap. by apply Hr.
Qed.

Lemma ascendingRows_app l l' : ascendingRows (l ++ l') ->
  ascendingRows l' /\ forall r r', r ∈ l -> r' ∈ l' -> blt r.1 r'.1.
Proof.
  induction l as [|x l IH]; cbn [app].
  - intros Hl. split; [done|]. intros r r' Hr. by apply elem_of_nil in Hr.
  - intros [Hx Hl]%ascending_cons. destruct (IH Hl) as [H1 H2]. split; [done|].
    intros r r' [-> | Hr]%elem_of_cons Hr'; [|by apply H2]. apply Hx, elem_of_app. by right.
Qed.

Lemma ascending_filter (P : row -> Prop) `{!forall r, Decision (P r)} l :
  ascendingRows l -> ascendingRows (filter P l).
Proof.
  induction l as [|r l IH]; [done|]. intros [Hr Hl]%ascending_cons. rewrite filter_cons.
  destruct (decide (P r)); [|by apply IH]. apply ascending_cons. split; [|by apply IH].
  intros r' [_ Hr']%list_elem_of_filter. by apply Hr.
Qed.

Lemma filter_id {A} (P : A -> Prop) `{!forall x, Decision (P x)} (l : list A) :
  (forall x, x ∈ l -> P x) -> filter P l = l.
Proof.
  induction l as [|x l IH]; intros Hl; [done|]. rewrite filter_cons_True by (apply Hl; left).
  by rewrite IH by (intros y Hy; apply Hl; by right).
Qed.

Lemma filter_none {A} (P : A -> Prop) `{!forall x, Decision (P x)} (l : list A) :
  (forall x, x ∈ l -> ~ P x) -> filter P l = [].
Proof.
  induction l as [|x l IH]; intros Hl; [done|]. rewrite filter_cons_False by (apply Hl; left).
  apply IH. intros y Hy. apply Hl. by right.
Qed.

Lemma after_all pk l : (forall r, r ∈ l -> blt pk r.1) -> after pk l = l.
Proof. apply filter_id. Qed.

Lemma after_none pk l : (forall r, r ∈ l -> ble r.1 pk) -> after pk l = [].
Proof.
  intros Hl. apply filter_none. intros r Hr Hpk.
  apply (blt_irrefl pk). eapply blt_ble_trans; [done|by apply Hl].
Qed.

Lemma after_app pk l l' : after pk (l ++ l') = after pk l ++ after pk l'.
Proof. apply filter_app. Qed.

(** The rows from a key on, and after it. *)
Lemma from_after pk l : ascendingRows l ->
  from pk l = after pk l /\ pk ∉ l.*1 \/ exists v, from pk l = (pk, v) :: after pk l.
Proof.
  induction l as [|[k v] l IH]; [left; split; [done|apply not_elem_of_nil]|].
  intros [Hk Hl]%ascending_cons. cbn [fst] in *. unfold from, after in *. rewrite !filter_cons. cbn [fst].
  assert (Hall : ble pk k -> from pk l = l /\ after pk l = l).
  { intros Hpk. assert (forall r, r ∈ l -> blt pk r.1) as Hgt
      by (intros r Hr; eapply ble_blt_trans; [done|by apply Hk]).
    split; apply filter_id; intros r Hr; [|by apply Hgt].
    apply ble_lteq. left. by apply Hgt. }
  unfold from, after in Hall. destruct (decide (ble pk k)) as [Hle|Hnle].
  - destruct (Hall Hle) as [-> ->]. destruct (decide (blt pk k)) as [Hlt|Hnlt].
    + left. split; [done|]. cbn. intros [-> | (r & -> & Hr)%list_elem_of_fmap]%elem_of_cons;
        [by apply blt_irrefl in Hlt|].
      apply (blt_irrefl k). eapply blt_trans; [by apply Hk|done].
    + right. exists v. apply ble_lteq in Hle as [|<-]; [done|]. done.
  - assert (~ blt pk k) as Hnlt by (intros Hlt; apply Hnle, ble_lteq; by left).
    destruct (decide (blt pk k)); [done|].
    destruct (IH Hl) as [[E Hn] | [v' E]]; [left; split; [done|] | right; by exists v'].
    cbn. intros [-> | Hin]%elem_of_cons; [by destruct Hnle; apply ble_refl|done].
Qed.

(** What is after a row of a sorted list is a suffix. *)
Lemma after_suffix pk l : ascendingRows l -> exists pre, l = pre ++ after pk l.
Proof.
  induction l as [|r l IH]; [by exists []|]. intros [Hr Hl]%ascending_cons.
  unfold after. rewrite filter_cons. destruct (decide (blt pk r.1)).
  - exists []. cbn. f_equal. symmetry. apply after_all. intros r' Hr'.
    eapply blt_trans; [done|by apply Hr].
  - destruct (IH Hl) as [pre E]. exists (r :: pre). cbn. by f_equal.
Qed.

Lemma headsF_after k s v l : goodKey k -> is_u64 s -> userRows l ->
  ascendingRows ((ukey k s, v) :: l) -> headsF (Some k) l = heads (after (lastKey k) l).
Proof.
  intros Hk Hs. induction l as [|[pk v'] l IH]; intros Hu [Hlt Hl]%ascending_cons; [done|].
  apply Forall_cons in Hu as [(k' & s' & Hk' & Hs' & E) Hu]. cbn [fst] in *. subst pk.
  cbn [headsF]. cbn [fst]. rewrite userOf_ukey by done.
  pose proof (Hlt (ukey k' s', v') ltac:(left)) as Hkk. cbn [fst] in Hkk.
  unfold blt in Hkk. rewrite ukey_compare in Hkk by done.
  pose proof Hl as [Hl' Hl2]%ascending_cons. cbn [fst] in Hl'.
  destruct (bytesCompare k k') eqn:Ec; [|clear Hkk|done].
  - apply bytesCompare_eq in Ec as <-. rewrite bool_decide_eq_true_2 by done.
    unfold after. rewrite filter_cons. cbn [fst].
    rewrite decide_False by (rewrite blt_lastKey by done; apply blt_irrefl).
    apply IH; [done|]. apply ascending_cons. split; [|done]. intros r Hr. apply Hlt. by right.
  - rewrite bool_decide_eq_false_2.
    2: { intros [= ->]. by rewrite bytesCompare_refl in Ec. }
    rewrite after_all; [unfold heads; cbn [headsF fst]; by rewrite userOf_ukey|].
    intros r [-> | Hr]%elem_of_cons; cbn [fst]; [by apply blt_lastKey|].
    eapply blt_trans; [by apply (blt_lastKey k k' s')|by apply Hl'].
Qed.

Lemma heads_cons k s v l : goodKey k -> is_u64 s -> userRows l ->
  ascendingRows ((ukey k s, v) :: l) ->
  heads ((ukey k s, v) :: l) = (ukey k s, v) :: heads (after (lastKey k) l).
Proof.
  intros Hk Hs Hu Hl. unfold heads at 1. cbn [headsF fst]. rewrite userOf_ukey by done.
  cbn. f_equal. by eapply headsF_after.
Qed.

(** ** Moving an iterator *)

Section moves.
Context `{PebbleSpec}.

(** An iterator over rows in order, somewhere among them. *)
Record positioned (it : Iterator) : Prop := {
  pos_sorted : ascendingRows (it_all it);
  pos_suffix : exists pre, it_all it = pre ++ it_rest it }.

Lemma Valid_cons it r l : it_rest it = r :: l -> Valid it = true.
Proof. intros E. rewrite Valid_spec, E. by apply bool_decide_eq_true_2. Qed.
Lemma Valid_nil it : it_rest it = [] -> Valid it = false.
Proof. intros E. rewrite Valid_spec, E. by apply bool_decide_eq_false_2; intros []. Qed.

Lemma First_positioned r o it : NewIter r o = OK it ->
  positioned (First it).2 /\ iterates (rows r) o (it_rest (First it).2).
Proof.
  intros E. pose proof (NewIter_spec r o) as Hit. rewrite E in Hit.
  destruct (First_spec it) as [Hr Ha]. split; [split|].
  - rewrite Ha. apply Hit.
  - exists []. by rewrite Hr, Ha.
  - by rewrite Hr.
Qed.

Lemma Next_positioned it r l : positioned it -> it_rest it = r :: l ->
  positioned (Next it).2 /\ it_rest (Next it).2 = l /\ it_all (Next it).2 = it_all it.
Proof.
  intros [Hs [pre Hp]] E. destruct (Next_spec it r l E) as [Hr Ha]. split; [split|done].
  - by rewrite Ha.
  - exists (pre ++ [r]). by rewrite Ha, Hr, Hp, E, <- app_assoc.
Qed.

Lemma seekKey_lastKey k s :
  takeZ (len (ukey k s) - key.V2SeqLen) (ukey k s) ++ replicate (Z.to_nat key.V2SeqLen) xff =
    lastKey k.
Proof.
  change (replicate _ xff) with (key.seqBytes 0). unfold lastKey, phys at 2 3. f_equal.
  apply takeZ_app. rewrite phys_len. unfold key.V2Len, key.keyHeaderLen, key.V2SepLen, key.V2SeqLen.
  unfold len at 2. rewrite prefixOf_length. unfold len. lia.
Qed.

(** Skipping the other versions of a user key. *)
Lemma iterNextUserKey_after it k s : ascendingRows (it_all it) ->
  let r := iterNextUserKey it (ukey k s) in
  it_all r.2 = it_all it /\ it_rest r.2 = after (lastKey k) (it_all it) /\ r.1 = Valid r.2.
Proof.
  intros Hs. unfold iterNextUserKey. rewrite seekKey_lastKey, phys_len.
  destruct (phys_head key.TypeUser k s) as [b ->]. rewrite bool_decide_eq_true_2 by done.
  pose proof (len_nonneg k). unfold key.V2Len, key.keyHeaderLen, key.V2SepLen, key.V2SeqLen.
  destruct (Z.leb_spec (4 + 1 + len k + 1 + 8) 8); [lia|]. cbn [orb negb].
  destruct (SeekGE_spec (lastKey k) it) as [Hr Ha]. pose proof (SeekGE_valid (lastKey k) it) as Hv.
  destruct (SeekGE (lastKey k) it) as [ok it1]. cbn [fst snd] in *.
  destruct (from_after (lastKey k) (it_all it) Hs) as [[E Hn] | [v E]]; rewrite E in Hr.
  - destruct ok; cbn [negb]; [|done].
    rewrite bool_decide_eq_false_2; [done|]. intros Hk.
    destruct (it_rest it1) as [|[k1 v1] l] eqn:E1; [by rewrite Valid_nil in Hv|].
    destruct (Key_spec it1 _ _ _ E1) as [Hk1 _]. apply Hn.
    assert (Hin : (k1, v1) ∈ after (lastKey k) (it_all it)) by (rewrite <- Hr; left).
    unfold after in Hin. apply list_elem_of_filter in Hin as [_ Hin].
    rewrite <- Hk, Hk1. by apply (list_elem_of_fmap_2 fst _ _ Hin).
  - rewrite (Valid_cons _ _ _ Hr) in Hv. subst ok. cbn [negb].
    destruct (Key_spec it1 _ _ _ Hr) as [Hk1 _]. rewrite bool_decide_eq_true_2 by done.
    destruct (Next_spec it1 _ _ Hr) as [Hr' Ha']. rewrite Next_valid. split_and!; congruence.
Qed.

(** The same from a row of the key: nothing before it is of a later key. *)
Lemma iterNextUserKey_step it k s v l : positioned it -> goodKey k -> is_u64 s ->
  it_rest it = (ukey k s, v) :: l ->
  let r := iterNextUserKey it (ukey k s) in
  positioned r.2 /\ it_rest r.2 = after (lastKey k) l /\ it_all r.2 = it_all it /\
  r.1 = Valid r.2 /\ ascendingRows ((ukey k s, v) :: l).
Proof.
  intros [Hs [pre Hp]] Hk Hks E. destruct (iterNextUserKey_after it k s Hs) as (Ha & Hr & Hv).
  rewrite Hp, E in Hs. destruct (ascendingRows_app _ _ Hs) as [Hl Hpre].
  assert (Hle : ble (ukey k s) (lastKey k)).
  { apply ble_lteq. destruct (decide (s = 0)) as [->|]; [by right|left].
    apply ukey_same_lt; [done..|]. unfold is_u64 in Hks. lia. }
  assert (Hafter : after (lastKey k) (it_all it) = after (lastKey k) l).
  { rewrite Hp, E. change ((ukey k s, v) :: l) with ([(ukey k s, v)] ++ l).
    rewrite app_assoc, after_app, (after_none _ (pre ++ _)); [done|].
    intros r [Hr' | ->%list_elem_of_singleton]%elem_of_app; [|done].
    apply ble_lteq. left. eapply blt_ble_trans; [|done]. apply (Hpre r (ukey k s, v)); [done|left]. }
  rewrite Hafter in Hr. split_and!; try done. split; [by rewrite Ha, Hp, E|].
  rewrite Ha, Hr, Hp, E. pose proof Hl as [_ Hl']%ascending_cons.
  destruct (after_suffix (lastKey k) l Hl') as [p2 Hp2].
  exists (pre ++ (ukey k s, v) :: p2). rewrite Hp2 at 1. by rewrite <- app_assoc.
Qed.

End moves.
