(* ===== verification/FsmRange.v ===== *)
(** * Ranges of a table

    The first rows of the user keys in the bounds of an iterator are the newest
    versions of the keys of the range: the list of live keys and values a range request
    is about. *)
From S2P Require Import Prelude Raftpb LogDB Wire WireSpec Bytes Key KeySpec Armadapb Pebble.
From S2P Require Import FsmQuery FsmView.
From Stdlib Require Import Strings.Byte.
Import armadapb.

Lemma elem_of_after pk l r : r ∈ after pk l <-> blt pk r.1 /\ r ∈ l.
Proof. unfold after. by rewrite list_elem_of_filter. Qed.

Lemma after_length pk l : (length (after pk l) <= length l)%nat.
Proof. apply length_filter. Qed.

Lemma after_userRows pk l : userRows l -> userRows (after pk l).
Proof. intros Hu. apply Forall_forall. intros r [_ Hr]%elem_of_after. by eapply Forall_forall in Hu. Qed.

Lemma after_ascending pk l : ascendingRows l -> ascendingRows (after pk l).
Proof. apply ascending_filter. Qed.

(** Induction over the user keys of a list of rows. *)
Lemma rows_ind (P : list row -> Prop) :
  P [] ->
  (forall k s v l, goodKey k -> is_u64 s -> userRows l -> ascendingRows ((ukey k s, v) :: l) ->
    P (after (lastKey k) l) -> P ((ukey k s, v) :: l)) ->
  forall l, userRows l -> ascendingRows l -> P l.
Proof.
  intros Hnil Hcons l. remember (length l) as n eqn:Hn.
  revert l Hn. induction (lt_wf n) as [n _ IH]. intros [|[pk v] l] Hn Hu Hl; [done|].
  apply Forall_cons in Hu as [(k & s & Hk & Hs & E) Hu]. cbn [fst] in E. subst pk.
  pose proof Hl as [_ Hl']%ascending_cons.
  apply Hcons; [done..|]. eapply IH; [|done|by apply after_userRows|by apply after_ascending].
  cbn in Hn. pose proof (after_length (lastKey k) l). lia.
Qed.

(** A row of another user key is after all rows of the first one. *)
Lemma later_row k s v l k' s' v' : goodKey k -> is_u64 s -> goodKey k' -> is_u64 s' ->
  ascendingRows ((ukey k s, v) :: l) -> (ukey k' s', v') ∈ l ->
  k' = k /\ s' < s \/ blt k k' /\ (ukey k' s', v') ∈ after (lastKey k) l.
Proof.
  intros Hk Hs Hk' Hs' [Hl _]%ascending_cons Hin. pose proof (Hl _ Hin) as Hlt. cbn [fst] in Hlt.
  pose proof Hlt as Hc. unfold blt in Hc. rewrite ukey_compare in Hc by done.
  destruct (bytesCompare k k') eqn:Ec; [| |done].
  - left. apply bytesCompare_eq in Ec as <-. by apply Z.compare_lt_iff in Hc.
  - right. split; [done|]. apply elem_of_after. split; [|done]. by apply blt_lastKey.
Qed.

Lemma after_key k k' s' v' l : goodKey k -> goodKey k' -> is_u64 s' ->
  (ukey k' s', v') ∈ after (lastKey k) l -> blt k k'.
Proof. intros Hk Hk' Hs' [Hlt _]%elem_of_after. by apply (blt_lastKey k k' s') in Hlt. Qed.

Lemma row_inj k k' s s' (v v' : bytes) : is_u64 s -> is_u64 s' ->
  (ukey k s, v) = (ukey k' s', v') -> k = k' /\ s = s' /\ v = v'.
Proof.
  intros Hs Hs' [E Ev]%pair_eq. by destruct (phys_inj _ _ _ _ _ _ Hs Hs' E) as (_ & -> & ->).
Qed.

(** The heads are the newest versions. *)
Lemma heads_newest l : userRows l -> ascendingRows l -> forall k s v, goodKey k -> is_u64 s ->
  (ukey k s, v) ∈ heads l <->
  (ukey k s, v) ∈ l /\ forall s' v', is_u64 s' -> (ukey k s', v') ∈ l -> s' <= s.
Proof.
  revert l. apply (rows_ind (fun l => forall k s v, goodKey k -> is_u64 s -> _)).
  { intros k s v _ _. cbn. rewrite !elem_of_nil. tauto. }
  intros k0 s0 v0 l Hk0 Hs0 Hu Hl IH k s v Hk Hs. rewrite heads_cons by done.
  rewrite !elem_of_cons, IH by done. split.
  - intros [E | [Hin Hmax]].
    + apply row_inj in E as (-> & -> & ->); [|done..]. split; [by left|].
      intros s' v' Hs' [E'|Hin]%elem_of_cons.
      * by apply row_inj in E' as (_ & -> & _).
      * destruct (later_row k0 s0 v0 l k0 s' v') as [|[Hlt _]]; try done; [lia|].
        by apply blt_irrefl in Hlt.
    + pose proof (after_key _ _ _ _ _ Hk0 Hk Hs Hin) as Hlt.
      apply elem_of_after in Hin as [_ Hin]. split; [by right|].
      intros s' v' Hs' [E'|Hin']%elem_of_cons.
      * apply row_inj in E' as (-> & _ & _); [|done..].
        by apply blt_irrefl in Hlt.
      * destruct (later_row k0 s0 v0 l k s' v') as [[-> _]|[_ Ha]]; try done;
          [by apply blt_irrefl in Hlt|]. by eapply Hmax.
  - intros [[E|Hin] Hmax]; [by left|right].
    destruct (later_row k0 s0 v0 l k s v) as [[-> Hlt]|[Hlt Ha]]; try done.
    + specialize (Hmax s0 v0 Hs0 ltac:(left)). lia.
    + split; [done|]. intros s' v' Hs' [_ Ha']%elem_of_after. eapply Hmax; [done|by right].
Qed.

Lemma heads_elem l r : userRows l -> ascendingRows l -> r ∈ heads l -> r ∈ l.
Proof.
  revert l. apply (rows_ind (fun l => r ∈ heads l -> r ∈ l)); [done|].
  intros k s v l Hk Hs Hu Hl IH. rewrite heads_cons by done.
  intros [->|Hr]%elem_of_cons; [left|right]. by apply IH, elem_of_after in Hr as [_ Hr].
Qed.

Lemma heads_length l : (length (heads l) <= length l)%nat.
Proof.
  unfold heads. generalize (None : option bytes) as prev. induction l as [|r l IH]; intros prev; [done|].
  cbn. case_bool_decide; [specialize (IH prev)|specialize (IH (Some (userOf r.1)))]; cbn; lia.
Qed.

(** ** Live keys *)

Definition liveRow (r : row) : option (bytes * bytes) :=
  if isTombstone r.2 then None else Some (userOf r.1, r.2).
Definition liveList (l : list row) : list (bytes * bytes) := omap liveRow (heads l).

Lemma liveList_length l : (length (liveList l) <= length l)%nat.
Proof.
  etrans; [|apply heads_length]. unfold liveList. induction (heads l) as [|r hs IH]; [done|].
  cbn. destruct (liveRow r); cbn; lia.
Qed.

Definition inKeyRange (low high k : bytes) : Prop := ble low k /\ (high = wildcard \/ blt k high).

(** The live keys of a range with their values, in order. *)
Record listing (m : rowmap) (low high : bytes) (L : list (bytes * bytes)) : Prop := {
  ls_sorted : StronglySorted blt L.*1;
  ls_elem : forall k v, (k, v) ∈ L <-> goodKey k /\ live m k v /\ inKeyRange low high k
}.

Lemma liveList_sorted l : userRows l -> ascendingRows l -> StronglySorted blt (liveList l).*1.
Proof.
  revert l. apply rows_ind; [constructor|]. intros k s v l Hk Hs Hu Hl IH.
  unfold liveList. rewrite heads_cons by done. cbn [omap list_omap]. unfold liveRow at 1. cbn [fst snd].
  destruct (isTombstone v); [done|]. rewrite userOf_ukey by done. cbn. constructor; [done|].
  apply Forall_forall. intros k' ([k2 v'] & -> & Hin)%list_elem_of_fmap. cbn [fst].
  apply list_elem_of_omap in Hin as ([pk v2] & Hh & E).
  pose proof Hl as [_ Hl']%ascending_cons.
  apply heads_elem in Hh; [|by apply after_userRows|by apply after_ascending].
  pose proof Hh as [_ Hin]%elem_of_after.
  eapply Forall_forall in Hu as (k3 & s3 & Hk3 & Hs3 & E3); [|done]. cbn [fst] in E3. subst pk.
  unfold liveRow in E. cbn [fst snd] in E. rewrite userOf_ukey in E by done.
  destruct (isTombstone v2); [done|]. injection E as <- <-. by eapply after_key.
Qed.

Lemma liveList_elem l k v : userRows l -> ascendingRows l ->
  (k, v) ∈ liveList l <->
  exists s, goodKey k /\ is_u64 s /\ (ukey k s, v) ∈ heads l /\ isTombstone v = false.
Proof.
  intros Hu Hl. unfold liveList. rewrite list_elem_of_omap. split.
  - intros ([pk v2] & Hh & E). pose proof (heads_elem _ _ Hu Hl Hh) as Hin.
    eapply Forall_forall in Hu as (k3 & s3 & Hk3 & Hs3 & E3); [|done]. cbn [fst] in E3. subst pk.
    unfold liveRow in E. cbn [fst snd] in E. rewrite userOf_ukey in E by done.
    destruct (isTombstone v2) eqn:Ht; [done|]. injection E as <- <-. by exists s3.
  - intros (s & Hk & Hs & Hh & Ht). exists (ukey k s, v). split; [done|].
    unfold liveRow. cbn [fst snd]. by rewrite Ht, userOf_ukey.
Qed.

(** ** The bounds of a range *)

Definition wildUpper : bytes :=
  [key.V2; x00; x00; x00; key.TypeUser] ++ replicate (Z.to_nat key.V2MaxUserKeyLen) xff ++
  x01 :: replicate 8 x00.

Lemma wildUpper_eq : incrementRightmostByte maxEncodedUserKey = wildUpper.
Proof. by vm_compute. Qed.

Lemma below_ff k s z n : (length k <= n)%nat ->
  blt (k ++ x00 :: s) (replicate n xff ++ x01 :: z).
Proof.
  unfold blt. revert k. induction n as [|n IH]; intros [|b k] Hn; cbn [replicate app bytesCompare];
    [done|cbn in Hn; lia|done|].
  change (byteZ xff) with 255. pose proof (byteZ_range b).
  destruct (Z.compare_spec (byteZ b) 255); [|done|lia]. apply IH. cbn in Hn. lia.
Qed.

Lemma ukey_below_wild k s : len k <= key.V2MaxUserKeyLen -> blt (ukey k s) wildUpper.
Proof.
  intros Hk. unfold wildUpper, phys, prefixOf. rewrite <- !app_assoc. unfold blt.
  rewrite bytesCompare_app. apply below_ff. unfold len, key.V2MaxUserKeyLen in *. lia.
Qed.

Lemma sysRow_above pk b : sysRow pk ->
  blt ([key.V2; x00; x00; x00; key.TypeUser] ++ b) pk.
Proof.
  intros [name ->]%sysRow_phys. unfold phys, prefixOf. rewrite <- !app_assoc. by apply type_compare.
Qed.

(** Every key is above the null byte that stands for the first one. *)
Lemma wildcard_below k r r' : goodKey k -> blt (wildcard ++ r) (k ++ r').
Proof.
  intros [Hk Hne _]. destruct k as [|b k]; [done|]. unfold blt, wildcard. cbn [app bytesCompare].
  assert (byteZ x00 < byteZ b) as Hlt%Z.compare_lt_iff; [|by rewrite Hlt].
  apply not_elem_of_cons in Hk as [Hb _]. by destruct b.
Qed.

Lemma ble_ukey_max low k s : nullFree low \/ low = wildcard -> goodKey k -> is_u64 s ->
  ble (ukey low maxSeqno) (ukey k s) <-> ble low k.
Proof.
  intros [Hlow | ->] Hgood Hs; pose proof Hgood as [Hk _ _].
  2: { split; intros _; apply ble_lteq; left.
       - pose proof (wildcard_below k [] [] Hgood) as Hw. by rewrite !app_nil_r in Hw.
       - unfold phys, prefixOf, blt. rewrite <- !app_assoc, bytesCompare_app. by apply wildcard_below. }
  unfold ble. rewrite phys_compare by done.
  destruct (bytesCompare low k) eqn:E; [|done..]. rewrite Z.compare_gt_iff.
  unfold is_u64, maxSeqno in *. split; [done|lia].
Qed.

Lemma blt_ukey_max high k s : nullFree high -> goodKey k -> is_u64 s ->
  blt (ukey k s) (ukey high maxSeqno) <-> blt k high.
Proof.
  intros Hh [Hk _ _] Hs. unfold blt. rewrite phys_compare by done.
  destruct (bytesCompare k high) eqn:E; [|done..]. rewrite Z.compare_lt_iff.
  unfold is_u64, maxSeqno in *. split; [lia|done].
Qed.

(** A range the servers accept: a single null byte is the first key, or no end. *)
Definition goodRange (low high : bytes) : Prop :=
  (nullFree low \/ low = wildcard) /\ (high = wildcard \/ nullFree high).

Lemma bounds_options low high : goodRange low high ->
  exists opts, iterOptionsForBounds low high = OK opts /\ PointKeyFilters opts = [] /\
    (forall k s, goodKey k -> is_u64 s -> inBounds opts (ukey k s) <-> inKeyRange low high k) /\
    (forall pk, sysRow pk -> ~ inBounds opts pk).
Proof.
  intros [Hlow Hhigh]. unfold iterOptionsForBounds. rewrite encodeUserKey_phys, wildUpper_eq.
  unfold inKeyRange, inBounds. destruct (decide (high = wildcard)) as [->|Hne].
  - rewrite bool_decide_eq_true_2 by done. eexists. split_and!; [done..| |]; cbn.
    + intros k s Hk Hs. rewrite <- (ble_ukey_max low k s) by done. split.
      * intros [Hl _]. split; [by apply Hl|by left].
      * intros [Hl _]. split; [by intros ? [= <-]|]. intros ? [= <-]. apply ukey_below_wild, Hk.
    + intros pk Hpk [_ Hu]. specialize (Hu _ eq_refl). apply (blt_irrefl pk).
      eapply blt_trans; [exact Hu|]. by apply sysRow_above.
  - rewrite bool_decide_eq_false_2, encodeUserKey_phys by done. destruct Hhigh as [|Hhigh]; [done|].
    eexists. split_and!; [done..| |]; cbn.
    + intros k s Hk Hs. rewrite <- (ble_ukey_max low k s), <- (blt_ukey_max high k s) by done. split.
      * intros [Hl Hu]. split; [by apply Hl|right; by apply Hu].
      * intros [Hl [|Hu]]; [done|]. split; [by intros ? [= <-]|by intros ? [= <-]].
    + intros pk Hpk [_ Hu]. specialize (Hu _ eq_refl). apply (blt_irrefl pk).
      eapply blt_trans; [exact Hu|]. unfold phys, prefixOf. rewrite <- !app_assoc.
      by apply sysRow_above.
Qed.

(** What an iterator over a range runs over. *)
Lemma range_rows m low high opts l : goodRange low high ->
  iterOptionsForBounds low high = OK opts -> tableRows m -> iterates m opts l ->
  userRows l /\ ascendingRows l /\
  forall k s v, goodKey k -> is_u64 s ->
    (ukey k s, v) ∈ l <-> m !! ukey k s = Some v /\ inKeyRange low high k.
Proof.
  intros Hr Ho Hm [Hs Hsound Hcomplete].
  destruct (bounds_options low high Hr) as (o & Ho' & Hf & Hin & Hsys).
  rewrite Ho in Ho'. injection Ho' as <-. split_and!; [|done|].
  - apply Forall_forall. intros [pk v] Hpk. destruct (Hsound _ _ Hpk) as [Hv Hb].
    destruct (Hm _ _ Hv) as [|Hy]; [done|]. by destruct (Hsys pk Hy).
  - intros k s v Hk Hks. rewrite <- (Hin k s) by done. split; [apply Hsound|].
    intros [Hv Hb]. apply Hcomplete; [done..|]. intros f. rewrite Hf. by intros ?%elem_of_nil.
Qed.

Lemma range_listing m low high opts l : goodRange low high ->
  iterOptionsForBounds low high = OK opts -> tableRows m -> iterates m opts l ->
  listing m low high (liveList l).
Proof.
  intros Hr Ho Hm Hit. destruct (range_rows m low high opts l Hr Ho Hm Hit) as (Hu & Hl & Hin).
  split; [by apply liveList_sorted|]. intros k v. rewrite liveList_elem by done. unfold live, newest.
  split.
  - intros (s & Hk & Hs & Hh & Ht). rewrite heads_newest in Hh by done. destruct Hh as [Hv Hmax].
    apply Hin in Hv as [Hv Hkr]; [|done..]. split_and!; [done| |done].
    exists s. split_and!; [done|done| |done]. intros s' v' Hs' Hv'. eapply Hmax; [done|].
    by apply Hin.
  - intros (Hk & (s & (Hs & Hv & Hmax) & Ht) & Hkr). exists s. split_and!; [done..| |done].
    apply heads_newest; [done..|]. split; [by apply Hin|].
    intros s' v' Hs' [Hv' _]%Hin; [|done..]. by eapply Hmax.
Qed.

(** An iterator has no more rows than the store. *)
Lemma iterates_length m o l : iterates m o l -> (length l <= size m)%nat.
Proof.
  intros [Hs Hsound _]. rewrite <- length_map_to_list. apply submseteq_length, NoDup_submseteq.
  - clear Hsound. induction l as [|r l IH]; [constructor|]. apply ascending_cons in Hs as [Hr Hl].
    constructor; [|by apply IH]. intros Hin. by apply Hr, blt_irrefl in Hin.
  - intros [k v] Hin. apply elem_of_map_to_list. by apply Hsound.
Qed.
