(* ===== verification/FsmRead.v ===== *)
(** * What reading a table returns

    A single lookup returns the live value of the key; a range lookup returns the live
    keys of the range, in order, cut into pages. *)
From S2P Require Import Prelude Raftpb LogDB Wire WireSpec Bytes Key KeySpec Armadapb Pebble.
From S2P Require Import FsmQuery FsmView FsmRange.
From Stdlib Require Import Strings.Byte.
Import armadapb.

(** ** One key *)

Definition found (req : RequestOp_Range) (v : bytes) : ResponseRange :=
  mkRangeResp
    (if r_CountOnly req then []
     else [newKV (r_Key req) (if negb (r_KeysOnly req) && negb (r_CountOnly req) then v else [])])
    false 1.

(** The rows of a key, the newest first. *)
Lemma fromPrefix_newest m l k : tableRows m -> goodKey k -> iterates m noOpts l ->
  (fromPrefix (ukey k maxSeqno) l = [] /\ forall s v, is_u64 s -> m !! ukey k s <> Some v) \/
  exists s v l', fromPrefix (ukey k maxSeqno) l = (ukey k s, v) :: l' /\ newest m k s v.
Proof.
  intros Hm Hk [Hs Hsound Hcomplete].
  assert (Hin : forall pk v, (pk, v) ∈ fromPrefix (ukey k maxSeqno) l <->
    exists s, is_u64 s /\ pk = ukey k s /\ m !! pk = Some v).
  { intros pk v. unfold fromPrefix. rewrite list_elem_of_filter. cbn [fst].
    rewrite prefix_phys by apply Hk. split.
    - intros [[_ Hp] Hl]. destruct (Hsound _ _ Hl) as [Hv _].
      destruct (Hm _ _ Hv) as [(k' & s & Hk' & Hks & ->)|[name ->]%sysRow_phys].
      + rewrite prefix_phys in Hp by apply Hk'. apply prefixOf_inj in Hp as [_ ->]. by exists s.
      + destruct (decide (name = [])) as [->|]; [done|]. rewrite prefix_phys in Hp by done.
        by apply prefixOf_inj in Hp as [? _].
    - intros (s & Hks & -> & Hv). split; [split|].
      + apply ble_ukey_max; [left; apply Hk|done..|apply ble_refl].
      + apply prefix_phys, Hk.
      + apply Hcomplete; [done|split; done|]. intros f Hf. by apply elem_of_nil in Hf. }
  assert (Hsort : ascendingRows (fromPrefix (ukey k maxSeqno) l)) by (by apply ascending_filter).
  destruct (fromPrefix (ukey k maxSeqno) l) as [|[pk v] l'] eqn:E.
  { left. split; [done|]. intros s v Hks Hv. apply (elem_of_nil (A := row) (ukey k s, v)), Hin. by exists s. }
  right. destruct (proj1 (Hin pk v) ltac:(left)) as (s & Hks & -> & Hv). exists s, v, l'.
  split; [done|]. split_and!; [done..|]. intros s' v' Hs' Hv'.
  assert ((ukey k s', v') ∈ (ukey k s, v) :: l') as [E'|Hl']%elem_of_cons by (apply Hin; by exists s').
  - apply row_inj in E' as (_ & -> & _); [lia|done..].
  - apply ascending_cons in Hsort as [Hlt _]. apply Hlt in Hl'. cbn [fst] in Hl'.
    apply ukey_same_lt in Hl'; [lia|done..].
Qed.

Section read.
Context `{PebbleSpec}.

Lemma seekPrefix_newest r it k : tableRows (rows r) -> goodKey k -> NewIter r noOpts = OK it ->
  let s := SeekPrefixGE (ukey k maxSeqno) it in
  if s.1 then exists n, newest (rows r) k n (iter_Value s.2)
  else forall n v, is_u64 n -> rows r !! ukey k n <> Some v.
Proof.
  intros Hm Hk E. pose proof (NewIter_spec r noOpts) as Hit. rewrite E in Hit.
  cbv zeta. rewrite SeekPrefixGE_valid.
  destruct (fromPrefix_newest (rows r) (it_all it) k Hm Hk Hit) as [[Hf Hno] | (s & v & l & Hf & Hn)];
    rewrite <- SeekPrefixGE_spec in Hf.
  - by rewrite Valid_nil.
  - rewrite (Valid_cons _ _ _ Hf). destruct (Key_spec _ _ _ _ Hf) as [_ ->]. by exists s.
Qed.

Lemma singleLookup_spec r req : tableRows (rows r) -> goodKey (r_Key req) ->
  match singleLookup r req with
  | OK resp =>
      (exists v, live (rows r) (r_Key req) v /\ resp = found req v) \/
      (forall v, ~ live (rows r) (r_Key req) v) /\ resp = emptyRange
  | ERR _ => True
  | PANIC _ => False
  end.
Proof.
  intros Hm Hk. unfold singleLookup. rewrite encodeUserKey_phys. cbn [app].
  destruct (NewIter r noOpts) as [it|e|p] eqn:E; [|done|by pose proof (NewIter_spec r noOpts) as Hx; rewrite E in Hx].
  pose proof (seekPrefix_newest r it _ Hm Hk E) as Hs. cbv zeta in Hs.
  destruct (SeekPrefixGE (ukey (r_Key req) maxSeqno) it) as [ok it1]. cbn [fst snd] in Hs.
  destruct ok; cbn [negb].
  - destruct Hs as [n Hn]. destruct (isTombstone (iter_Value it1)) eqn:Ht.
    + right. split; [|done]. intros v (n' & Hn' & Ht').
      destruct (newest_inj _ _ _ _ _ _ Hn Hn') as [_ <-]. congruence.
    + left. exists (iter_Value it1). split; [by exists n|done].
  - right. split; [|done]. intros v (n & (Hn & Hv & _) & _). by eapply Hs.
Qed.

(** ** Pages *)

(** The pages of a list of keys and values, filled up to the maximal size each; [m] is
    the flag of a page cut at the limit. *)
Section pages.
Context (fill : bytes -> bytes -> ResponseRange -> ResponseRange) (sf : bytes -> bytes -> Z).
Context (limit : Z) (m : bool).

Fixpoint pages (L : list (bytes * bytes)) (i size : Z) (resp : ResponseRange) : list ResponseRange :=
  match L with
  | [] => [resp]
  | (k, v) :: L =>
      if (i =? limit) && negb (limit =? 0) then [set_More m resp]
      else if maxRangeSize <=? size +ᵤ sf k v then
        set_More true resp :: pages L (i + 1) (0 +ᵤ sf k v) (fill k v emptyRange)
      else pages L (i + 1) (size +ᵤ sf k v) (fill k v resp)
  end.
End pages.

(** Passing pages to a consumer until it stops. *)
Fixpoint feed {Y A} (yield : A -> M Y bool) (ps : list A) : M Y unit :=
  match ps with
  | [] => skip
  | [p] => yield p ;; skip
  | p :: ps => more ← yield p; if negb more then skip else feed yield ps
  end.

Lemma feed_cons {Y A} (yield : A -> M Y bool) p ps s : ps <> [] ->
  feed yield (p :: ps) s = (more ← yield p; if negb more then skip else feed yield ps) s.
Proof. by destruct ps. Qed.

Lemma pages_ne fill sf limit m L i size resp : pages fill sf limit m L i size resp <> [].
Proof.
  revert i size resp. induction L as [|[k v] L IH]; intros i size resp; cbn; [done|].
  by repeat case_match.
Qed.

Lemma liveList_cons k s v l : goodKey k -> is_u64 s -> userRows l ->
  ascendingRows ((ukey k s, v) :: l) ->
  liveList ((ukey k s, v) :: l) =
    (if isTombstone v then [] else [(k, v)]) ++ liveList (after (lastKey k) l).
Proof.
  intros Hk Hs Hu Hl. unfold liveList. rewrite heads_cons by done. cbn [omap list_omap].
  unfold liveRow at 1. cbn [fst snd]. rewrite userOf_ukey by done. by destruct (isTombstone v).
Qed.

(** The loop of [iterate] passes the pages of the live keys ahead to the consumer. *)
Lemma iterateLoop_pages fill sf limit fuel :
  forall it resp i size, positioned it -> userRows (it_rest it) -> it_rest it <> [] ->
  (length (it_rest it) <= fuel)%nat ->
  exists m, forall Y (yield : ResponseRange -> M Y bool) s,
    iterateLoop yield fill sf limit fuel it resp i size s =
    feed yield (pages fill sf limit m (liveList (it_rest it)) i size resp) s.
Proof.
  induction fuel as [|fuel IH]; intros it resp i size Hp Hu Hne Hf;
    destruct (it_rest it) as [|[pk v] l] eqn:E; try done; [cbn in Hf; lia|].
  apply Forall_cons in Hu as [(k & n & Hk & Hn & Ek) Hu]. cbn [fst] in Ek. subst pk.
  destruct (Key_spec it _ _ _ E) as [Ekey Eval].
  destruct (iterNextUserKey_step it k n v l Hp Hk Hn E) as (Hp' & Hr' & _ & Hv & Hl).
  rewrite liveList_cons by done. cbn [iterateLoop]. rewrite Ekey, Eval, DecodeBytes_phys by done.
  cbn [key.k_Key]. pose proof (after_length (lastKey k) l) as Hlen. cbn in Hf.
  pose proof (after_userRows (lastKey k) l Hu) as Hu'.
  destruct (iterNextUserKey it (ukey k n)) as [ok it']. cbn [fst snd] in *.
  assert (Hrec : forall resp i size, exists m, forall Y (yield : ResponseRange -> M Y bool) s,
    (if negb ok then yield resp ;; skip
     else iterateLoop yield fill sf limit fuel it' resp i size) s =
    feed yield (pages fill sf limit m (liveList (after (lastKey k) l)) i size resp) s).
  { intros resp' i' size'. rewrite <- Hr'. destruct (it_rest it') as [|r l'] eqn:E'.
    - rewrite Valid_nil in Hv by done. subst ok. by exists false.
    - rewrite (Valid_cons _ _ _ E') in Hv. subst ok. cbn [negb].
      rewrite <- E'. apply IH; [done|by rewrite E', Hr'|by rewrite E'|]. rewrite E', Hr'. lia. }
  destruct (isTombstone v); cbn [app pages]; [apply Hrec|].
  destruct ((i =? limit) && negb (limit =? 0)).
  { exists (Next it).1. by destruct (Next it). }
  destruct (maxRangeSize <=? size +ᵤ sf k v); [|apply Hrec].
  destruct (Hrec (fill k v emptyRange) (i + 1) (0 +ᵤ sf k v)) as [m Hm]. exists m. intros Y yield s.
  rewrite feed_cons by apply pages_ne. unfold mbind, M_bind.
  destruct (yield (set_More true resp) s) as [[]| |]; cbn [negb]; [apply Hm|done..].
Qed.

(** ** The contents of the pages *)

(** What a key contributes to the pages of a request. *)
Definition itemOf (req : RequestOp_Range) (kv : bytes * bytes) : list KeyValue :=
  if r_KeysOnly req then [newKV kv.1 []] else if r_CountOnly req then [] else [newKV kv.1 kv.2].

Definition limited {A} (limit : Z) (L : list A) : list A :=
  if limit <=? 0 then L else takeZ limit L.

Definition totalCount (ps : list ResponseRange) : Z := foldr (fun p n => rr_Count p + n) 0 ps.

(** A response under construction: what it counts is what it has. *)
Definition counted (req : RequestOp_Range) (n : Z) (r : ResponseRange) : Prop :=
  rr_Count r = n /\ (r_KeysOnly req = false -> r_CountOnly req = false -> n = len (rr_Kvs r)).

Lemma fill_spec req k v r n : 0 <= n < 2 ^ 62 -> counted req n r ->
  let f := (iterFuncsFromReq req).1 in
  rr_Kvs (f k v r) = rr_Kvs r ++ itemOf req (k, v) /\ counted req (n + 1) (f k v r) /\
  rr_More (f k v r) = rr_More r.
Proof.
  intros Hn [Hc Hl]. unfold iterFuncsFromReq, itemOf, counted.
  assert (i64 (n + 1) = n + 1) as Hi by (unfold i64; rewrite Z.mod_small; lia).
  destruct (r_KeysOnly req), (r_CountOnly req); cbn; rewrite ?Hc, ?Hi, ?app_nil_r; try done.
  rewrite len_app, <- Hl by done. change (len [_]) with 1. by split_and!.
Qed.

Lemma pages_spec req limit m L : forall i size resp n,
  counted req n resp -> 0 <= n -> n + len L < 2 ^ 62 -> 0 <= i -> rr_More resp = false ->
  (0 < limit -> i <= limit) ->
  let ps := pages (iterFuncsFromReq req).1 (iterFuncsFromReq req).2 limit m L i size resp in
  let L' := if limit <=? 0 then L else takeZ (limit - i) L in
  concat (map rr_Kvs ps) = rr_Kvs resp ++ concat (map (itemOf req) L') /\
  totalCount ps = n + len L' /\
  Forall (fun p => rr_More p = true) (removelast ps) /\
  (L' = L -> rr_More (List.last ps emptyRange) = false).
Proof.
  assert (Hset : forall r, rr_Kvs (set_More true r) = rr_Kvs r /\ rr_Count (set_More true r) = rr_Count r)
    by done.
  induction L as [|[k v] L IH]; intros i size resp n Hc Hn HL Hi Hm Hlim; cbv zeta.
  { cbn [pages]. assert ((if limit <=? 0 then [] else takeZ (limit - i) ([] : list (bytes * bytes))) = [])
      as -> by (destruct (limit <=? 0); [done|apply take_nil]).
    cbn. destruct Hc as [-> _]. rewrite !app_nil_r. split_and!; [done|unfold len; cbn; lia|constructor|done]. }
  rewrite len_cons in HL. pose proof (len_nonneg L). cbn [pages].
  destruct ((i =? limit) && negb (limit =? 0)) eqn:Elim.
  { apply andb_true_iff in Elim as [E1%Z.eqb_eq E2]. subst i.
    destruct (Z.eqb_spec limit 0) as [|Hne]; [done|]. destruct (Z.leb_spec limit 0) as [Hle|Hgt]; [lia|].
    rewrite Z.sub_diag. change (takeZ 0 (_ :: _)) with ([] : list (bytes * bytes)). cbn. destruct Hc as [-> _]. rewrite !app_nil_r.
    split_and!; [done|unfold len; cbn; lia|constructor|done]. }
  assert (Hlim' : 0 < limit -> i + 1 <= limit).
  { intros Hpos. specialize (Hlim Hpos). destruct (Z.eqb_spec i limit); [|lia].
    destruct (Z.eqb_spec limit 0); [lia|done]. }
  assert (Htake : (if limit <=? 0 then (k, v) :: L else takeZ (limit - i) ((k, v) :: L)) =
    (k, v) :: (if limit <=? 0 then L else takeZ (limit - (i + 1)) L)).
  { destruct (Z.leb_spec limit 0); [done|]. unfold takeZ.
    replace (Z.to_nat (limit - i)) with (S (Z.to_nat (limit - (i + 1)))) by lia. done. }
  rewrite Htake. clear Htake. cbn [map concat].
  destruct (maxRangeSize <=? size +ᵤ (iterFuncsFromReq req).2 k v).
  - destruct (fill_spec req k v emptyRange 0) as (Fk & Fc & Fm); [lia|done|].
    destruct (IH (i + 1) (0 +ᵤ (iterFuncsFromReq req).2 k v) _ 1 Fc) as (I1 & I2 & I3 & I4);
      [lia..|by rewrite Fm|done|].
    set (ps := pages _ _ _ _ _ _ _ _) in *. assert (ps <> []) as Hne by apply pages_ne.
    cbn [map concat totalCount foldr]. rewrite I1, Fk. destruct Hc as [Hc _].
    change (foldr _ 0 ps) with (totalCount ps). rewrite I2, len_cons. cbn [set_More rr_Kvs rr_Count].
    split_and!; [by rewrite <- !app_assoc|lia| |].
    + destruct ps; [done|]. by constructor.
    + intros [= E]. destruct ps; [done|]. by apply I4.
  - destruct (fill_spec req k v resp n) as (Fk & Fc & Fm); [lia|done|].
    destruct (IH (i + 1) (size +ᵤ (iterFuncsFromReq req).2 k v) _ (n + 1) Fc) as (I1 & I2 & I3 & I4);
      [lia..|by rewrite Fm|done|].
    rewrite I1, I2, Fk, len_cons, <- app_assoc. split_and!; [done|lia|done|].
    intros [= E]. by apply I4.
Qed.

(** ** The result of a range request *)

Lemma feed_collect {A} (ps l : list A) :
  feed (fun a l => Ret true (l ++ [a])) ps l = Ret tt (l ++ ps).
Proof.
  revert l. induction ps as [|p ps IH]; intros l; [by rewrite app_nil_r|].
  destruct ps; [done|]. rewrite feed_cons by done. unfold mbind, M_bind. cbn [negb].
  by rewrite IH, <- app_assoc.
Qed.

Lemma feed_first {A} (ps : list A) : ps <> [] ->
  feed (fun a _ => Ret false (Some a)) ps None = Ret tt (head ps).
Proof. by destruct ps as [|p [|]]. Qed.

(** A request the servers accept, on a store of a size the loops are run for. *)
Record servable (fuel : nat) (m : rowmap) (low high : bytes) : Prop := {
  sv_range : goodRange low high;
  sv_rows : tableRows m;
  sv_fuel : (size m < fuel)%nat }.

Lemma iterate_feed fuel r req high : r_RangeEnd req = Some high ->
  servable fuel (rows r) (r_Key req) high ->
  exists seq, iterate fuel r req = OK seq /\
    ((exists opts e, NewIter r opts = ERR e) /\ (forall Y yield s, seq Y yield s = Ret tt s) \/
     exists L m, listing (rows r) (r_Key req) high L /\ (length L <= size (rows r))%nat /\
       forall Y (yield : ResponseRange -> M Y bool) s, seq Y yield s =
         feed yield (pages (iterFuncsFromReq req).1 (iterFuncsFromReq req).2 (r_Limit req) m L
                       0 0 emptyRange) s).
Proof.
  intros Hend [Hr Hm Hf]. destruct (bounds_options _ _ Hr) as (opts & Ho & _).
  unfold iterate. rewrite Hend. change (default [] (Some high)) with high. rewrite Ho.
  destruct (iterFuncsFromReq req) as [fill sf]. cbn [fst snd]. eexists. split; [done|].
  destruct (NewIter r opts) as [it|e|p] eqn:E.
  - right. destruct (First_positioned r opts it E) as [Hp Hit]. pose proof (First_valid it) as Hv.
    destruct (range_rows _ _ _ _ _ Hr Ho Hm Hit) as (Hu & Hl & _).
    pose proof (range_listing _ _ _ _ _ Hr Ho Hm Hit) as Hls.
    pose proof (iterates_length _ _ _ Hit) as Hlen.
    destruct (First it) as [ok it1]. cbn [fst snd] in *.
    pose proof (liveList_length (it_rest it1)) as Hlive.
    destruct (it_rest it1) as [|x l] eqn:El.
    + rewrite Valid_nil in Hv by done. subst ok. exists [], false. split_and!; [done|cbn; lia|done].
    + rewrite (Valid_cons _ _ _ El) in Hv. subst ok. cbn [negb].
      destruct (iterateLoop_pages fill sf (r_Limit req) fuel it1 emptyRange 0 0) as [m Hm'];
        [done|by rewrite El|by rewrite El|rewrite El; lia|].
      exists (liveList (x :: l)), m. split_and!; [done|lia|]. by rewrite <- El.
  - left. split; [by exists opts, e|done].
  - pose proof (NewIter_spec r opts) as Hx. by rewrite E in Hx.
Qed.

(** C21: a range request returns the live keys of the range: for every store of
    well-formed rows, the pages of [iterate], collected, hold the live keys with
    bounds [key, range_end), in the order of the keys, each once with its newest value,
    cut at the limit; the counts add up to their number, every page but the last says
    that there are more, and the last one does not if the limit cuts nothing off.
    [rangeLookup] returns the first page.  If no iterator can be opened there are no
    pages and no error. *)
Theorem iterate_lists fuel r req high : r_RangeEnd req = Some high ->
  servable fuel (rows r) (r_Key req) high -> Z.of_nat (size (rows r)) < 2 ^ 62 ->
  exists seq, iterate fuel r req = OK seq /\
    ((exists opts e, NewIter r opts = ERR e) /\ iterx_Collect seq = OK [] \/
     exists L ps, listing (rows r) (r_Key req) high L /\ iterx_Collect seq = OK ps /\
       rangeLookup fuel r req = OK (head ps) /\
       concat (map rr_Kvs ps) = concat (map (itemOf req) (limited (r_Limit req) L)) /\
       totalCount ps = len (limited (r_Limit req) L) /\
       Forall (fun p => rr_More p = true) (removelast ps) /\
       (limited (r_Limit req) L = L -> rr_More (List.last ps emptyRange) = false)).
Proof.
  intros Hend Hs Hz. destruct (iterate_feed fuel r req high Hend Hs) as (seq & E & Hseq).
  exists seq. split; [done|]. destruct Hseq as [[He Hseq] | (L & m & Hls & Hlen & Hseq)].
  { left. split; [done|]. unfold iterx_Collect. by rewrite Hseq. }
  right. set (ps := pages _ _ _ m L 0 0 emptyRange) in *. exists L, ps. split; [done|].
  destruct (pages_spec req (r_Limit req) m L 0 0 emptyRange 0) as (P1 & P2 & P3 & P4);
    [done|lia|unfold len; lia|lia|done|lia|]. rewrite Z.sub_0_r in *.
  unfold iterx_Collect, rangeLookup, iterx_First. rewrite E, !Hseq, feed_collect, feed_first
    by apply pages_ne. split_and!; done.
Qed.

End read.
