(* ===== verification/FsmSpec.v ===== *)
(** * The abstract table

    A table as a map from keys to values, and what the commands do with it.  The
    relation of a store of rows to such a map, and what a write of a version does to
    the map. *)
From S2P Require Import Prelude Raftpb LogDB Wire WireSpec Bytes Key KeySpec Armadapb Pebble.
From S2P Require Import FsmQuery FsmCommand FsmView FsmRange FsmRead.
From Stdlib Require Import Strings.Byte.
Import armadapb.

Abbreviation table := (gmap bytes bytes).

(** ** The map of a store *)

Definition represents (m : rowmap) (σ : table) : Prop :=
  forall k v, σ !! k = Some v <-> goodKey k /\ live m k v.

(** All versions are at most [n]. *)
Definition upTo (n : Z) (m : rowmap) : Prop :=
  forall k s v, is_u64 s -> m !! ukey k s = Some v -> s <= n.

(** Writing a version: a tombstone deletes the key. *)
Definition setKey (k v : bytes) (σ : table) : table :=
  if isTombstone v then delete k σ else <[k := v]> σ.

Lemma newest_insert m k n v : is_u64 n -> upTo n m -> newest (<[ukey k n := v]> m) k n v.
Proof.
  intros Hn Hup. split_and!; [done|by rewrite lookup_insert_eq|]. intros s' v' Hs'.
  destruct (decide (s' = n)) as [->|Hne]; [lia|]. rewrite lookup_insert_ne.
  - by apply Hup.
  - intros E. by apply phys_inj in E as (_ & _ & ->).
Qed.

Lemma live_insert_ne m k k' n v w : is_u64 n -> k' <> k ->
  live (<[ukey k n := v]> m) k' w <-> live m k' w.
Proof.
  intros Hn Hk. unfold live, newest.
  assert (Hl : forall s', is_u64 s' -> <[ukey k n := v]> m !! ukey k' s' = m !! ukey k' s').
  { intros s' Hs'. apply lookup_insert_ne. intros E. by apply phys_inj in E as (_ & -> & _). }
  split; intros (s & (Hs & Hv & Hmax) & Ht); exists s; (split; [|done]);
    rewrite Hl in * by done; split_and!; try done; intros s' v' Hs' Hv'; eapply Hmax; try done;
    by rewrite ?Hl in * by done.
Qed.

Lemma setKey_represents m σ k n v : goodKey k -> is_u64 n -> upTo n m -> represents m σ ->
  represents (<[ukey k n := v]> m) (setKey k v σ).
Proof.
  intros Hk Hn Hup Hr k' v'. unfold setKey. destruct (decide (k' = k)) as [->|Hne].
  - pose proof (newest_insert m k n v Hn Hup) as Hnew.
    assert (live (<[ukey k n := v]> m) k v' <-> isTombstone v = false /\ v' = v) as ->.
    { split.
      - intros (s & Hs & Ht). destruct (newest_inj _ _ _ _ _ _ Hnew Hs) as [_ <-]. done.
      - intros [Ht ->]. by exists n. }
    destruct (isTombstone v).
    + rewrite lookup_delete_eq. naive_solver.
    + rewrite lookup_insert_eq. naive_solver.
  - rewrite live_insert_ne by done. rewrite <- (Hr k' v').
    destruct (isTombstone v); [by rewrite lookup_delete_ne|by rewrite lookup_insert_ne].
Qed.

Lemma upTo_insert m k n v : is_u64 n -> upTo n m -> upTo n (<[ukey k n := v]> m).
Proof.
  intros Hn Hup k' s' v' Hs'. destruct (decide (ukey k n = ukey k' s')) as [E|Hne].
  - apply phys_inj in E as (_ & _ & ->); [|done..]. lia.
  - rewrite lookup_insert_ne by done. by apply Hup.
Qed.

Lemma upTo_weaken n n' m : n <= n' -> upTo n m -> upTo n' m.
Proof. intros Hle Hup k s v Hs Hv. specialize (Hup k s v Hs Hv). lia. Qed.

Lemma tableRows_insert m k n v : goodKey k -> is_u64 n -> tableRows m ->
  tableRows (<[ukey k n := v]> m).
Proof.
  intros Hk Hn Hm pk w [[<- _] | [_ Hw]]%lookup_insert_Some; [left; by exists k, n|by eapply Hm].
Qed.

(** A row of the system does not belong to a key. *)
Lemma sysRow_ne pk k s : sysRow pk -> pk <> ukey k s.
Proof.
  intros Hpk E. apply sysRow_phys in Hpk as [name ->]. unfold phys, prefixOf in E. by cbn in E.
Qed.

Lemma live_sys m pk w k v : sysRow pk -> live (<[pk := w]> m) k v <-> live m k v.
Proof.
  intros Hpk. unfold live, newest.
  assert (Hl : forall s, <[pk := w]> m !! ukey k s = m !! ukey k s).
  { intros s. apply lookup_insert_ne. by apply sysRow_ne. }
  split; intros (s & (Hs & Hv & Hmax) & Ht); exists s; (split; [|done]); rewrite Hl in *;
    split_and!; try done; intros s' v' Hs' Hv'; eapply Hmax; try done; by rewrite ?Hl in *.
Qed.

Lemma represents_sys m σ pk w : sysRow pk -> represents m σ -> represents (<[pk := w]> m) σ.
Proof. intros Hpk Hr k v. rewrite live_sys by done. apply Hr. Qed.

Lemma upTo_sys n m pk w : sysRow pk -> upTo n m -> upTo n (<[pk := w]> m).
Proof.
  intros Hpk Hup k s v Hs. rewrite lookup_insert_ne by (by apply sysRow_ne). by apply Hup.
Qed.

Lemma tableRows_sys m pk w : sysRow pk -> tableRows m -> tableRows (<[pk := w]> m).
Proof. intros Hpk Hm pk' v [[<- _] | [_ Hv]]%lookup_insert_Some; [by right|by eapply Hm]. Qed.

(** Rows added to [m0]: versions from [lo] on, and rows of the system. *)
Inductive extends (lo : Z) (m0 : rowmap) : rowmap -> Prop :=
| extends_refl : extends lo m0 m0
| extends_version m k s v : extends lo m0 m -> goodKey k -> is_u64 s -> lo <= s ->
    extends lo m0 (<[ukey k s := v]> m)
| extends_sys m pk v : extends lo m0 m -> sysRow pk -> extends lo m0 (<[pk := v]> m).

(** ** Ranges of the map *)

Definition inKeyRangeb (low high k : bytes) : bool :=
  bool_decide (ble low k) && (bool_decide (high = wildcard) || bool_decide (blt k high)).

(** The keys and values of a range in order. *)
Definition rangeOf (σ : table) (low high : bytes) : list (bytes * bytes) :=
  merge_sort rowle (filter (fun r => inKeyRangeb low high r.1 = true) (map_to_list σ)).

Lemma inKeyRangeb_spec low high k : inKeyRangeb low high k = true <-> inKeyRange low high k.
Proof.
  unfold inKeyRangeb, inKeyRange. rewrite andb_true_iff, orb_true_iff, !bool_decide_eq_true. done.
Qed.

Lemma elem_of_rangeOf σ low high k v :
  (k, v) ∈ rangeOf σ low high <-> σ !! k = Some v /\ inKeyRange low high k.
Proof.
  unfold rangeOf. rewrite merge_sort_Permutation, list_elem_of_filter, elem_of_map_to_list.
  rewrite inKeyRangeb_spec. cbn [fst]. tauto.
Qed.

Lemma rangeOf_sorted σ low high : ascendingRows (rangeOf σ low high).
Proof. apply merge_rows_sorted. Qed.

(** Sorted lists with the same elements are equal. *)
Lemma ascending_ext l l' : ascendingRows l -> ascendingRows l' ->
  (forall r, r ∈ l <-> r ∈ l') -> l = l'.
Proof.
  revert l'. induction l as [|r l IH]; intros [|r' l'] Hl Hl' Hin; [done|..].
  - exfalso. apply (elem_of_nil r'), Hin. left.
  - exfalso. apply (elem_of_nil r), Hin. left.
  - apply ascending_cons in Hl as [Hr Hl]. apply ascending_cons in Hl' as [Hr' Hl'].
    assert (r = r') as <-.
    { pose proof (proj1 (Hin r) ltac:(left)) as [|H1]%elem_of_cons; [done|].
      pose proof (proj2 (Hin r') ltac:(left)) as [|H2]%elem_of_cons; [done|].
      exfalso. apply (blt_irrefl r.1). eapply blt_trans; [by apply Hr|by apply Hr']. }
    f_equal. apply IH; [done..|]. intros x. specialize (Hin x). rewrite !elem_of_cons in Hin.
    split; intros Hx; [destruct (proj1 Hin (or_intror Hx)) as [->|]|
      destruct (proj2 Hin (or_intror Hx)) as [->|]]; try done; exfalso;
      [apply (blt_irrefl r.1), Hr, Hx|apply (blt_irrefl r.1), Hr', Hx].
Qed.

Lemma listing_rangeOf m σ low high L : represents m σ -> listing m low high L ->
  L = rangeOf σ low high.
Proof.
  intros Hr [Hs He]. apply ascending_ext; [done|apply rangeOf_sorted|]. intros [k v].
  rewrite He, elem_of_rangeOf, (Hr k v). tauto.
Qed.

(** ** What the requests do *)

Definition putResult (p : RequestOp_Put) (σ : table) : ResponsePut :=
  mkPutResp (if p_PrevKv p then newKV (p_Key p) <$> σ !! p_Key p else None).

Definition deleteKeys (d : RequestOp_DeleteRange) (σ : table) : table :=
  match d_RangeEnd d with
  | None => delete (d_Key d) σ
  | Some high => filter (fun r => inKeyRangeb (d_Key d) high r.1 = false) σ
  end.
Definition deleteResult (d : RequestOp_DeleteRange) (σ : table) : ResponseDeleteRange :=
  match d_RangeEnd d with
  | None =>
      match σ !! d_Key d with
      | Some v =>
          if d_PrevKv d || d_Count d
          then mkDeleteResp 1 (if d_Count d && negb (d_PrevKv d) then [] else [newKV (d_Key d) v])
          else emptyDelete
      | None => emptyDelete
      end
  | Some high =>
      let L := rangeOf σ (d_Key d) high in
      mkDeleteResp (if d_Count d || d_PrevKv d then len L else 0)
        (if d_PrevKv d then map (fun kv => newKV kv.1 kv.2) L else [])
  end.

(** A range lookup returns the first page; nothing, if the reader fails.  The flag of a
    page cut at the limit depends on the rows. *)
Definition lookupResult (req : RequestOp_Range) (σ : table) (resp : option ResponseRange) : Prop :=
  match r_RangeEnd req with
  | None => resp = Some (match σ !! r_Key req with Some v => found req v | None => emptyRange end)
  | Some high =>
      resp = None \/
      exists m, resp = head (pages (iterFuncsFromReq req).1 (iterFuncsFromReq req).2 (r_Limit req) m
                               (rangeOf σ (r_Key req) high) 0 0 emptyRange)
  end.

Inductive opStep : RequestOp -> table -> list ResponseOp -> table -> Prop :=
| op_range r σ resp : lookupResult r σ resp -> opStep (RequestRange r) σ [ResponseOp_Range resp] σ
| op_put p σ : opStep (RequestPut p) σ [ResponseOp_Put (putResult p σ)]
    (setKey (p_Key p) (p_Value p) σ)
| op_delete d σ : opStep (RequestDeleteRange d) σ [ResponseOp_DeleteRange (deleteResult d σ)]
    (deleteKeys d σ)
| op_none σ : opStep RequestNone σ [] σ.

Inductive opSteps : list RequestOp -> table -> list ResponseOp -> table -> Prop :=
| ops_nil σ : opSteps [] σ [] σ
| ops_cons op ops σ σ1 σ2 rs rs' : opStep op σ rs σ1 -> opSteps ops σ1 rs' σ2 ->
    opSteps (op :: ops) σ (rs ++ rs') σ2.

(** A comparison holds of a key's value, or of all values of a range. *)
Definition compareHolds (cmp : Compare) (σ : table) : Prop :=
  match c_RangeEnd cmp with
  | None => exists v, σ !! c_Key cmp = Some v /\ txnCompareSingle cmp v = true
  | Some high => forall k v, σ !! k = Some v -> inKeyRange (c_Key cmp) high k ->
      txnCompareSingle cmp v = true
  end.

(** What is known of the result of comparisons: if it is true they hold; of comparisons
    of single keys also the converse.  A range may compare false though it holds. *)
Definition compared (cmps : list Compare) (σ : table) (ok : bool) : Prop :=
  if ok then Forall (fun c => compareHolds c σ) cmps
  else Forall (fun c => c_RangeEnd c = None) cmps -> ~ Forall (fun c => compareHolds c σ) cmps.

(** ** What the commands do *)

Definition seqnoOf (idx : Z) (li : option Z) : Z := match li with Some i => i | None => idx end.

Inductive cmdStep (idx : Z) : option Z -> Command -> table -> UpdateResult * CommandResult ->
    table -> Prop :=
| cmd_put li c kv σ : cmd_Type c = PUT -> cmd_Kv c = Some kv ->
    let p := mkPut (kv_Key kv) (kv_Value kv) (cmd_PrevKvs c) in
    cmdStep idx li c σ (ResultSuccess, mkResult [ResponseOp_Put (putResult p σ)] (seqnoOf idx li))
      (setKey (kv_Key kv) (kv_Value kv) σ)
| cmd_delete li c kv σ : cmd_Type c = DELETE -> cmd_Kv c = Some kv ->
    let d := mkDelete (kv_Key kv) (cmd_RangeEnd c) (cmd_PrevKvs c) (cmd_Count c) in
    cmdStep idx li c σ
      (ResultSuccess, mkResult [ResponseOp_DeleteRange (deleteResult d σ)] (seqnoOf idx li))
      (deleteKeys d σ)
| cmd_putBatch li c σ rs σ' : cmd_Type c = PUT_BATCH ->
    opSteps (map (fun kv => RequestPut (mkPut (kv_Key kv) (kv_Value kv) false)) (cmd_Batch c)) σ rs σ' ->
    cmdStep idx li c σ (ResultSuccess, mkResult rs (seqnoOf idx li)) σ'
| cmd_deleteBatch li c σ rs σ' : cmd_Type c = DELETE_BATCH ->
    opSteps (map (fun kv => RequestDeleteRange (mkDelete (kv_Key kv) None false false)) (cmd_Batch c))
      σ rs σ' ->
    cmdStep idx li c σ (ResultSuccess, mkResult rs (seqnoOf idx li)) σ'
| cmd_txn li c txn σ ok rs σ' : cmd_Type c = TXN -> cmd_Txn c = Some txn ->
    compared (t_Compare txn) σ ok ->
    opSteps (if ok then t_Success txn else t_Failure txn) σ rs σ' ->
    cmdStep idx li c σ
      (if ok then ResultSuccess else ResultFailure, mkResult rs (seqnoOf idx li)) σ'
| cmd_sequence li c σ rs σ' : cmd_Type c = SEQUENCE -> seqStep idx li (cmd_Sequence c) σ rs σ' ->
    cmdStep idx li c σ (ResultSuccess, mkResult rs (seqnoOf idx li)) σ'
| cmd_dummy li c σ : cmd_Type c = DUMMY ->
    cmdStep idx li c σ (ResultSuccess, mkResult [] (seqnoOf idx li)) σ
| cmd_gc li c σ : cmd_Type c = GC ->
    cmdStep idx li c σ (ResultGC, mkResult [] (seqnoOf idx li)) σ
with seqStep (idx : Z) : option Z -> list Command -> table -> list ResponseOp -> table -> Prop :=
| seq_nil li σ : seqStep idx li [] σ [] σ
| seq_cons li c cs σ res σ1 rs σ2 :
    cmdStep idx (match cmd_LeaderIndex c with Some i => Some i | None => li end) c σ res σ1 ->
    seqStep idx li cs σ1 rs σ2 ->
    seqStep idx li (c :: cs) σ (cr_Responses res.2 ++ rs) σ2.

(** ** Commands the servers propose

    Their keys are good, their sequence numbers do not go back, and the loops they run
    have enough fuel: [z] bounds the number of rows before, [z'] after. *)
Section ok.
Context (fuel : nat).

Definition goodRequest (k : bytes) (rangeEnd : option bytes) (z : nat) : Prop :=
  match rangeEnd with None => goodKey k | Some high => goodRange k high /\ (z < fuel)%nat end.

Inductive okOp (z : nat) : RequestOp -> nat -> Prop :=
| ok_range r : goodRequest (r_Key r) (r_RangeEnd r) z -> okOp z (RequestRange r) z
| ok_put p : goodKey (p_Key p) -> okOp z (RequestPut p) (S z)
| ok_delete d : goodRequest (d_Key d) (d_RangeEnd d) z ->
    okOp z (RequestDeleteRange d) (match d_RangeEnd d with None => S z | Some _ => z + z end)
| ok_none : okOp z RequestNone z.

Inductive okOps : nat -> list RequestOp -> nat -> Prop :=
| okOps_nil z : okOps z [] z
| okOps_cons z op ops z1 z2 : okOp z op z1 -> okOps z1 ops z2 -> okOps z (op :: ops) z2.

Inductive okCmd (idx lo : Z) (z : nat) : option Z -> Command -> Z -> nat -> Prop :=
| okCmd_dummy li c : cmd_Type c = DUMMY -> okCmd idx lo z li c lo z
| okCmd_gc li c : cmd_Type c = GC -> okCmd idx lo z li c lo (S z)
| okCmd_put li c kv : cmd_Type c = PUT -> cmd_Kv c = Some kv -> goodKey (kv_Key kv) ->
    is_u64 (seqnoOf idx li) -> lo <= seqnoOf idx li -> okCmd idx lo z li c (seqnoOf idx li) (S z)
| okCmd_delete li c kv z' : cmd_Type c = DELETE -> cmd_Kv c = Some kv ->
    is_u64 (seqnoOf idx li) -> lo <= seqnoOf idx li ->
    okOp z (RequestDeleteRange
      (mkDelete (kv_Key kv) (cmd_RangeEnd c) (cmd_PrevKvs c) (cmd_Count c))) z' ->
    okCmd idx lo z li c (seqnoOf idx li) z'
| okCmd_batch li c z' : cmd_Type c = PUT_BATCH \/ cmd_Type c = DELETE_BATCH ->
    Forall (fun kv => goodKey (kv_Key kv)) (cmd_Batch c) ->
    is_u64 (seqnoOf idx li) -> lo <= seqnoOf idx li -> (z + length (cmd_Batch c) <= z')%nat ->
    okCmd idx lo z li c (seqnoOf idx li) z'
| okCmd_txn li c txn zs zf z' : cmd_Type c = TXN -> cmd_Txn c = Some txn ->
    Forall (fun cmp => goodRequest (c_Key cmp) (c_RangeEnd cmp) z) (t_Compare txn) ->
    is_u64 (seqnoOf idx li) -> lo <= seqnoOf idx li ->
    okOps z (t_Success txn) zs -> okOps z (t_Failure txn) zf ->
    (zs <= z')%nat -> (zf <= z')%nat -> okCmd idx lo z li c (seqnoOf idx li) z'
| okCmd_sequence li c hi z' : cmd_Type c = SEQUENCE ->
    okSeq idx lo z li (cmd_Sequence c) hi z' -> okCmd idx lo z li c hi z'
with okSeq (idx lo : Z) (z : nat) : option Z -> list Command -> Z -> nat -> Prop :=
| okSeq_nil li : okSeq idx lo z li [] lo z
| okSeq_cons li c cs mid z1 hi z2 :
    okCmd idx lo z (match cmd_LeaderIndex c with Some i => Some i | None => li end) c mid z1 ->
    okSeq idx mid z1 li cs hi z2 -> okSeq idx lo z li (c :: cs) hi z2.

End ok.

Scheme okCmd_mut := Induction for okCmd Sort Prop
with okSeq_mut := Induction for okSeq Sort Prop.
