(* ===== verification/FsmWrite.v ===== *)
(** * The commands refine the abstract table

    What a command does with the batch of an update is what it does with the map of
    keys and values; an error leaves the database as it is. *)
From S2P Require Import Prelude Raftpb LogDB Wire WireSpec Bytes Key KeySpec Armadapb Pebble.
From S2P Require Import FsmQuery FsmCommand FsmView FsmRange FsmRead FsmSpec.
From Stdlib Require Import Strings.Byte.
Import armadapb.

Section write.
Context `{PebbleSpec}.

(** The rows the batch shows: those of the database with its own writes. *)
Definition cur (c : updateContext) : rowmap := applyWrites (rows (of_DB (db c))) (writes (batch c)).

(** The rows and the lowest sequence number the writes started from. *)
Context {m0 : rowmap} {lo0 : Z}.

Record holds (c : updateContext) (σ : table) (n : Z) (z : nat) : Prop := {
  h_rows : tableRows (cur c);
  h_repr : represents (cur c) σ;
  h_upTo : upTo n (cur c);
  h_size : (size (cur c) <= z)%nat;
  h_low : lo0 <= n;
  h_extends : extends lo0 m0 (cur c) }.

(** Only the batch differs, and it stays indexed. *)
Record sameCtx (c c' : updateContext) : Prop := {
  sc_db : db c' = db c;
  sc_index : index c' = index c;
  sc_leader : leaderIndex c' = leaderIndex c;
  sc_indexed : Indexed (batch c) = true -> Indexed (batch c') = true }.

Lemma sameCtx_refl c : sameCtx c c.
Proof. done. Qed.
Lemma sameCtx_trans c1 c2 c3 : sameCtx c1 c2 -> sameCtx c2 c3 -> sameCtx c1 c3.
Proof. intros [A1 A2 A3 A4] [B1 B2 B3 B4]. split; [congruence..|auto]. Qed.
Lemma sameCtx_seqno c c' : sameCtx c c' -> seqno c' = seqno c.
Proof. unfold seqno. by intros [_ -> -> _]. Qed.

(** What an error leaves: the database. *)
Abbreviation keepsDB c := (fun (_ : error) c' => db c' = db c).

Lemma keepsDB_trans {A} (k : M updateContext A) Q c c' : sameCtx c c' ->
  wp no_panic k Q (keepsDB c') c' -> wp no_panic k Q (keepsDB c) c'.
Proof. intros [Hd _ _ _]. by rewrite Hd. Qed.

Lemma holds_weaken c σ n n' z z' : n <= n' -> (z <= z')%nat -> holds c σ n z -> holds c σ n' z'.
Proof. intros Hn Hz [H1 H2 H3 H4 H5 H6]. split; [done..|by eapply upTo_weaken|lia|lia|done]. Qed.

(** ** The batch *)

Lemma batchReader_rows c : Indexed (batch c) = true -> rows (batchReader c) = cur c.
Proof. intros Hi. by apply rows_Batch. Qed.

Lemma batchSet_wp k v c :
  wp no_panic (batchSet k v)
    (fun _ c' => cur c' = <[k := v]> (cur c) /\ sameCtx c c' /\ Indexed (batch c') = Indexed (batch c))
    (keepsDB c) c.
Proof.
  unfold batchSet, onBatch. apply wp_bind, wp_readr. pose proof (Set_spec k v (batch c)) as Hs.
  destruct (batch_Set k v (batch c)) as [b|e|p]; [|done..]. apply wp_modify.
  destruct Hs as [Hw Hi]. unfold cur. cbn. rewrite Hw, applyWrites_snoc.
  split_and!; [done|split; cbn; congruence|done].
Qed.

Lemma EnsureIndexed_wp c :
  wp no_panic EnsureIndexed
    (fun _ c' => cur c' = cur c /\ sameCtx c c' /\ Indexed (batch c') = true) (keepsDB c) c.
Proof.
  unfold EnsureIndexed. apply wp_bind. unfold wp at 1, get.
  destruct (Indexed (batch c)) eqn:Ei; [by apply wp_ret|]. apply wp_bind, wp_readr.
  destruct (NewIndexedBatch_spec (db c)) as [Hn Hi].
  pose proof (Apply_spec (batch c) (NewIndexedBatch (db c))) as Ha.
  destruct (batch_Apply (batch c) (NewIndexedBatch (db c))) as [b|e|p]; [|done..].
  destruct Ha as [Hw Hb]. apply wp_bind, wp_readr.
  destruct (batch_Close (batch c)) as [u|e|p] eqn:Ec; [|done|by destruct (Close_spec (batch c) p)].
  apply wp_modify. unfold cur. cbn. rewrite Hw, Hn, Hb. split_and!; [done|split; cbn; congruence|done].
Qed.

Lemma size_insert_le (m : rowmap) k v : (size (<[k := v]> m) <= S (size m))%nat.
Proof. rewrite map_size_insert. destruct (m !! k); cbn; lia. Qed.

(** Writing a version of a key. *)
Lemma setVersion_wp k v c σ n z : holds c σ n z -> goodKey k -> is_u64 (seqno c) -> n <= seqno c ->
  wp no_panic (batchSet (ukey k (seqno c)) v)
    (fun _ c' => holds c' (setKey k v σ) (seqno c) (S z) /\ sameCtx c c' /\
                 Indexed (batch c') = Indexed (batch c)) (keepsDB c) c.
Proof.
  intros [H1 H2 H3 H4 H5 H6] Hk Hs Hn. apply (upTo_weaken n (seqno c)) in H3; [|done].
  eapply wp_mono; [apply batchSet_wp| |done]. intros _ c' (E & Hsame & Hi). split; [|done].
  split; rewrite ?E; [by apply tableRows_insert|by apply setKey_represents|by apply upTo_insert| |lia|].
  - pose proof (size_insert_le (cur c) (ukey k (seqno c)) v). lia.
  - apply extends_version; [done..|lia].
Qed.

(** Reading a key through an indexed batch. *)
Lemma lookup_key c σ n z req : holds c σ n z -> goodKey (r_Key req) -> Indexed (batch c) = true ->
  match singleLookup (batchReader c) req with
  | OK resp => resp = match σ !! r_Key req with Some v => found req v | None => emptyRange end
  | ERR _ => True
  | PANIC _ => False
  end.
Proof.
  intros [H1 H2 _ _ _ _] Hk Hi. pose proof (singleLookup_spec (batchReader c) req) as Hl.
  rewrite batchReader_rows in Hl by done. specialize (Hl H1 Hk).
  destruct (singleLookup (batchReader c) req) as [resp|e|p]; [|done..].
  destruct Hl as [(v & Hv & ->) | [Hno ->]].
  - by rewrite (proj2 (H2 _ _) (conj Hk Hv)).
  - destruct (σ !! r_Key req) as [v|] eqn:E; [|done]. apply H2 in E as [_ Hv]. by destruct (Hno v).
Qed.

(** ** Put *)

Lemma handlePut_wp put c σ n z : holds c σ n z -> goodKey (p_Key put) -> is_u64 (seqno c) ->
  n <= seqno c ->
  wp no_panic (handlePut put)
    (fun resp c' => resp = putResult put σ /\
       holds c' (setKey (p_Key put) (p_Value put) σ) (seqno c) (S z) /\ sameCtx c c') (keepsDB c) c.
Proof.
  intros Hh Hk Hs Hn. unfold handlePut, putResult. apply wp_bind. unfold wp at 1, get.
  apply wp_bind, wp_readr. rewrite encodeUserKey_phys. cbn [app].
  assert (Hset : forall c', holds c' σ n z -> sameCtx c c' -> forall r,
    wp no_panic (batchSet (ukey (p_Key put) (seqno c)) (p_Value put) ;; ret (mkPutResp r))
      (fun resp c' => resp = mkPutResp r /\
         holds c' (setKey (p_Key put) (p_Value put) σ) (seqno c) (S z) /\ sameCtx c c')
      (keepsDB c) c').
  { intros c' Hh' Hsame r. apply (keepsDB_trans _ _ c c' Hsame). rewrite <- (sameCtx_seqno c c') by done.
    apply wp_bind. eapply wp_mono;
      [eapply setVersion_wp; [done|done|by rewrite (sameCtx_seqno c)..]| |done].
    intros _ c2 (Hh2 & Hs2 & _). apply wp_ret. split_and!; [done|done|by eapply sameCtx_trans]. }
  destruct (p_PrevKv put); [|apply wp_bind, wp_ret; by apply Hset].
  apply wp_bind, wp_bind. eapply wp_mono; [apply EnsureIndexed_wp| |done].
  intros _ c1 (E1 & Hs1 & Hi1).
  assert (Hh1 : holds c1 σ n z) by (destruct Hh; split; by rewrite ?E1).
  apply wp_bind, wp_readr. pose proof (lookup_key c1 σ n z (mkRange (p_Key put) None 0 false false) Hh1 Hk Hi1) as Hl.
  destruct (singleLookup _ _) as [resp|e|p]; [|by destruct Hs1|done]. apply wp_ret.
  cbn [r_Key] in Hl. eapply wp_mono; [apply (Hset c1 Hh1 Hs1)| |done].
  intros resp' c' (-> & Hrest). split; [|done]. subst resp. by destruct (σ !! p_Key put).
Qed.

(** ** Delete *)

Lemma collectLive_spec fuel : forall it live, positioned it -> userRows (it_rest it) ->
  (length (it_rest it) < fuel)%nat ->
  collectLive fuel it live = OK (live ++ liveList (it_rest it)).
Proof.
  induction fuel as [|fuel IH]; intros it live Hp Hu Hf; [lia|]. cbn [collectLive].
  destruct (it_rest it) as [|[pk v] l] eqn:E.
  { rewrite Valid_nil by done. cbn. by rewrite app_nil_r. }
  apply Forall_cons in Hu as [(k & n & Hk & Hn & Ek) Hu]. cbn [fst] in Ek. subst pk.
  destruct (Key_spec it _ _ _ E) as [Ekey Eval]. rewrite (Valid_cons _ _ _ E), Ekey, Eval.
  destruct (iterNextUserKey_step it k n v l Hp Hk Hn E) as (Hp' & Hr' & _ & Hv & Hl).
  cbn [negb]. rewrite DecodeBytes_phys by done. cbn [key.KeyType key.k_Key].
  rewrite bool_decide_eq_true_2 by done. cbn [andb]. rewrite liveList_cons by done.
  destruct (iterNextUserKey it (ukey k n)) as [ok it']. cbn [fst snd] in *.
  pose proof (after_length (lastKey k) l) as Hlen. cbn in Hf. subst ok.
  assert (Hrec : (if negb (Valid it') then OK (live ++ (if isTombstone v then [] else [(k, v)]))
    else collectLive fuel it' (live ++ (if isTombstone v then [] else [(k, v)]))) =
    OK (live ++ (if isTombstone v then [] else [(k, v)]) ++ liveList (after (lastKey k) l))).
  { rewrite <- Hr'. destruct (it_rest it') as [|x l'] eqn:E'.
    - rewrite Valid_nil by done. cbn. by rewrite app_nil_r.
    - rewrite (Valid_cons _ _ _ E'). cbn [negb].
      rewrite IH, app_assoc, E'; [done|done| |rewrite E', Hr'; lia].
      rewrite E', Hr'. by apply after_userRows. }
  rewrite <- Hrec. by destruct (isTombstone v); cbn [negb]; rewrite ?app_nil_r.
Qed.

Lemma putTombstone_wp k c σ n z : holds c σ n z -> goodKey k -> is_u64 (seqno c) -> n <= seqno c ->
  wp no_panic (putTombstone k)
    (fun _ c' => holds c' (delete k σ) (seqno c) (S z) /\ sameCtx c c') (keepsDB c) c.
Proof.
  intros Hh Hk Hs Hn. unfold putTombstone. apply wp_bind, wp_readr. rewrite encodeUserKey_phys.
  eapply wp_mono; [by eapply setVersion_wp| |done]. by intros _ c' (Hh' & Hs' & _).
Qed.

Lemma putTombstones_wp (L : list (bytes * bytes)) : forall c σ n z, holds c σ n z ->
  Forall (fun kv => goodKey kv.1) L -> is_u64 (seqno c) -> n <= seqno c ->
  wp no_panic (forM_ L (fun kv => putTombstone kv.1))
    (fun _ c' => holds c' (foldl (fun σ kv => delete kv.1 σ) σ L) (seqno c) (z + length L) /\ sameCtx c c')
    (keepsDB c) c.
Proof.
  induction L as [|[k v] L IH]; intros c σ n z Hh HL Hs Hn; cbn [forM_ foldl length].
  { apply wp_ret. split; [|done]. rewrite Nat.add_0_r. by eapply holds_weaken; [| |exact Hh]. }
  apply Forall_cons in HL as [Hk HL]. apply wp_bind.
  eapply wp_mono; [by eapply putTombstone_wp| |done]. intros _ c1 (Hh1 & Hs1).
  apply (keepsDB_trans _ _ c c1 Hs1).
  pose proof (sameCtx_seqno c c1 Hs1) as Es.
  eapply wp_mono; [eapply (IH c1); [done|done|by rewrite Es|by rewrite Es]| |done].
  intros _ c2 (Hh2 & Hs2). rewrite Es in Hh2. split; [by rewrite Nat.add_succ_r|by eapply sameCtx_trans].
Qed.

Lemma foldl_delete (L : list (bytes * bytes)) (σ : table) k :
  foldl (fun σ kv => delete kv.1 σ) σ L !! k = if decide (k ∈ L.*1) then None else σ !! k.
Proof.
  revert σ. induction L as [|[k' v] L IH]; intros σ; cbn [foldl fmap list_fmap].
  { by rewrite decide_False by apply not_elem_of_nil. }
  rewrite IH. cbn [fst]. destruct (decide (k ∈ L.*1)) as [Hin|Hn].
  - by rewrite decide_True by (by right).
  - destruct (decide (k = k')) as [->|Hne].
    + rewrite lookup_delete_eq, decide_True by left. done.
    + rewrite lookup_delete_ne by done. rewrite decide_False; [done|].
      by intros [->|]%elem_of_cons.
Qed.

Lemma deleteKeys_range (d : RequestOp_DeleteRange) (high : bytes) (σ : table) : d_RangeEnd d = Some high ->
  foldl (fun σ kv => delete kv.1 σ) σ (rangeOf σ (d_Key d) high) = deleteKeys d σ.
Proof.
  intros E. unfold deleteKeys. rewrite E. apply map_eq. intros k. rewrite foldl_delete.
  destruct (decide _) as [Hin|Hn].
  - symmetry. apply map_lookup_filter_None. right. intros v Hv. cbn [fst].
    apply list_elem_of_fmap in Hin as ([k2 v2] & -> & Hin). apply elem_of_rangeOf in Hin as [_ Hr].
    apply inKeyRangeb_spec in Hr. cbn [fst]. congruence.
  - destruct (σ !! k) as [v|] eqn:Ev.
    + symmetry. apply map_lookup_filter_Some. split; [done|]. cbn [fst].
      destruct (inKeyRangeb (d_Key d) high k) eqn:Er; [|done]. destruct Hn.
      apply inKeyRangeb_spec in Er. apply (list_elem_of_fmap_2 fst _ (k, v)).
      by apply elem_of_rangeOf.
    + symmetry. apply map_lookup_filter_None. by left.
Qed.

Lemma deleteRange_wp fuel del (high : bytes) c σ n z : d_RangeEnd del = Some high -> holds c σ n z ->
  goodRange (d_Key del) high -> (z < fuel)%nat -> is_u64 (seqno c) -> n <= seqno c ->
  wp no_panic (deleteRange fuel del high)
    (fun resp c' => resp = deleteResult del σ /\ holds c' (deleteKeys del σ) (seqno c) (z + z) /\
                    sameCtx c c') (keepsDB c) c.
Proof.
  intros Eh Hh Hr Hf Hs Hn. unfold deleteRange. apply wp_bind.
  eapply wp_mono; [apply EnsureIndexed_wp| |done]. intros _ c1 (E1 & Hs1 & Hi1).
  assert (Hh1 : holds c1 σ n z) by (destruct Hh; split; by rewrite ?E1).
  apply (keepsDB_trans _ _ c c1 Hs1).
  destruct (bounds_options _ _ Hr) as (opts & Ho & _). apply wp_bind, wp_readr. rewrite Ho.
  apply wp_bind, wp_readr. destruct (NewIter (batchReader c1) opts) as [it|e|p] eqn:Eit; [|done|].
  2: { pose proof (NewIter_spec (batchReader c1) opts) as Hx. by rewrite Eit in Hx. }
  destruct (First_positioned _ _ _ Eit) as [Hp Hit]. rewrite batchReader_rows in Hit by done.
  pose proof Hh1 as [R1 R2 _ R4].
  destruct (range_rows _ _ _ _ _ Hr Ho R1 Hit) as (Hu & Hl & _).
  pose proof (range_listing _ _ _ _ _ Hr Ho R1 Hit) as Hls.
  pose proof (iterates_length _ _ _ Hit) as Hlen. pose proof (liveList_length (it_rest (First it).2)).
  apply wp_bind, wp_readr. rewrite collectLive_spec by (done || lia). cbn [app].
  apply wp_bind, wp_readr. destruct (iter_Close it) as [u|e|p] eqn:Ec; [|done|by destruct (iter_Close_spec it p)].
  assert (Hgood : Forall (fun kv => goodKey kv.1) (liveList (it_rest (First it).2))).
  { apply Forall_forall. intros [k v] Hin. by apply Hls in Hin as [? _]. }
  rewrite (listing_rangeOf _ _ _ _ _ R2 Hls) in *. apply wp_bind.
  eapply wp_mono; [eapply putTombstones_wp; [done|done|by rewrite (sameCtx_seqno c)..]| |done].
  intros _ c2 (Hh2 & Hs2). apply wp_ret. unfold deleteResult. rewrite Eh.
  rewrite (deleteKeys_range del high σ Eh), (sameCtx_seqno c c1) in Hh2 by done.
  split_and!; [done| |by eapply sameCtx_trans]. eapply holds_weaken; [| |exact Hh2]; lia.
Qed.

Lemma deleteSingle_wp del c σ n z : d_RangeEnd del = None -> holds c σ n z ->
  goodKey (d_Key del) -> is_u64 (seqno c) -> n <= seqno c ->
  wp no_panic (deleteSingle del)
    (fun resp c' => resp = deleteResult del σ /\ holds c' (deleteKeys del σ) (seqno c) (S z) /\
                    sameCtx c c') (keepsDB c) c.
Proof.
  intros Eh Hh Hk Hs Hn. unfold deleteSingle, deleteResult, deleteKeys. rewrite Eh. apply wp_bind.
  eapply wp_mono; [apply EnsureIndexed_wp| |done]. intros _ c1 (E1 & Hs1 & Hi1).
  assert (Hh1 : holds c1 σ n z) by (destruct Hh; split; by rewrite ?E1).
  apply (keepsDB_trans _ _ c c1 Hs1). apply wp_bind, wp_readr.
  set (req := mkRange _ _ _ _ _).
  pose proof (lookup_key c1 σ n z req Hh1 Hk Hi1) as Hl.
  destruct (singleLookup (batchReader c1) req) as [resp|e|p]; [|done..]. subst resp. cbn [r_Key req].
  destruct (σ !! d_Key del) as [v|] eqn:Ev; cbn [rr_Count found emptyRange Z.eqb].
  - apply wp_bind. eapply wp_mono; [eapply putTombstone_wp; [done|done|by rewrite (sameCtx_seqno c)..]| |done].
    intros _ c2 (Hh2 & Hs2). apply wp_ret. rewrite (sameCtx_seqno c c1) in Hh2 by done.
    split_and!; [|done|by eapply sameCtx_trans].
    unfold found, req. cbn [r_CountOnly r_KeysOnly r_Key rr_Count rr_Kvs].
    by destruct (d_PrevKv del), (d_Count del).
  - apply wp_ret. rewrite (delete_id σ) by done. split_and!; [done| |done].
    eapply holds_weaken; [exact Hn| |exact Hh1]. lia.
Qed.

Lemma handleDelete_wp fuel del z' c σ n z : okOp fuel z (RequestDeleteRange del) z' -> holds c σ n z ->
  is_u64 (seqno c) -> n <= seqno c ->
  wp no_panic (handleDelete fuel del)
    (fun resp c' => resp = deleteResult del σ /\ holds c' (deleteKeys del σ) (seqno c) z' /\
                    sameCtx c c') (keepsDB c) c.
Proof.
  intros Hok Hh Hs Hn. inversion Hok as [| |d Hg|]; subst. unfold handleDelete, goodRequest in *.
  destruct (d_RangeEnd del) as [high|] eqn:E.
  - destruct Hg. by apply deleteRange_wp with (n := n).
  - by apply deleteSingle_wp with (n := n).
Qed.

(** ** Transactions *)

Lemma liveList_after l k r : userRows l -> ascendingRows l -> goodKey k ->
  r ∈ liveList (after (lastKey k) l) -> r ∈ liveList l.
Proof.
  intros Hu Hl Hk. destruct r as [k' v]. pose proof (after_userRows (lastKey k) l Hu) as Hu'.
  pose proof (after_ascending (lastKey k) l Hl) as Hl'. rewrite !liveList_elem by done.
  intros (s & Hk' & Hs & Hh & Ht). exists s. split_and!; [done..| |done].
  rewrite heads_newest in * by done. destruct Hh as [Hin Hmax].
  pose proof (after_key _ _ _ _ _ Hk Hk' Hs Hin) as Hlt. apply elem_of_after in Hin as [_ Hin].
  split; [done|]. intros s' v' Hs' Hin'. eapply Hmax; [done|]. apply elem_of_after.
  split; [|done]. by apply blt_lastKey.
Qed.

(** A range compares true only if all its live values do. *)
Lemma compareLoop_spec cmp fuel : forall it, positioned it -> userRows (it_rest it) ->
  (length (it_rest it) < fuel)%nat ->
  exists b, compareLoop cmp fuel it = OK b /\
    (b = true -> forall k v, (k, v) ∈ liveList (it_rest it) -> txnCompareSingle cmp v = true).
Proof.
  induction fuel as [|fuel IH]; intros it Hp Hu Hf; [lia|]. cbn [compareLoop].
  destruct (it_rest it) as [|[pk v] l] eqn:E.
  { rewrite Valid_nil by done. exists true. split; [done|]. intros _ k v Hin. by apply elem_of_nil in Hin. }
  apply Forall_cons in Hu as [(k & n & Hk & Hn & Ek) Hu]. cbn [fst] in Ek. subst pk.
  destruct (Key_spec it _ _ _ E) as [Ekey Eval]. rewrite (Valid_cons _ _ _ E), Ekey, Eval. cbn [negb].
  destruct (iterNextUserKey_step it k n v l Hp Hk Hn E) as (Hp' & Hr' & _ & Hv & Hl).
  pose proof Hl as [_ Hl']%ascending_cons. rewrite liveList_cons by done.
  pose proof (after_length (lastKey k) l) as Hlen. cbn in Hf.
  destruct (isTombstone v); cbn [app].
  - destruct (iterNextUserKey it (ukey k n)) as [ok it']. cbn [fst snd] in *. subst ok.
    destruct (Valid it') eqn:Ev; cbn [negb].
    + rewrite <- Hr'. apply IH; [done|rewrite Hr'; by apply after_userRows|rewrite Hr'; lia].
    + rewrite Valid_spec, bool_decide_eq_false in Ev. rewrite <- Hr'. exists true. split; [done|].
      destruct (it_rest it'); [|by destruct Ev]. intros _ k' v' Hin. by apply elem_of_nil in Hin.
  - destruct (txnCompareSingle cmp v) eqn:Ec; cbn [negb]; [|by exists false].
    destruct (Next_positioned it _ _ Hp E) as (Hp2 & Hr2 & _).
    destruct (IH (Next it).2) as (b & -> & Hb); [done|by rewrite Hr2|rewrite Hr2; lia|].
    exists b. split; [done|]. intros Hbt k' v' [[= -> ->]|Hin]%elem_of_cons; [done|].
    rewrite Hr2 in Hb. eapply Hb; [done|]. by eapply liveList_after.
Qed.

Lemma compareRange_spec fuel r cmp high m σ : c_RangeEnd cmp = Some high -> rows r = m ->
  represents m σ -> servable fuel m (c_Key cmp) high ->
  match compareRange fuel r cmp high with
  | OK b => b = true -> compareHolds cmp σ
  | ERR _ => True
  | PANIC _ => False
  end.
Proof.
  intros Eh Em Hrep [Hr Hm Hf]. unfold compareRange, compareHolds. rewrite Eh.
  destruct (bounds_options _ _ Hr) as (opts & Ho & _). rewrite Ho.
  destruct (NewIter r opts) as [it|e|p] eqn:E; [|done|].
  2: { pose proof (NewIter_spec r opts) as Hx. by rewrite E in Hx. }
  destruct (First_positioned r opts it E) as [_ Hit1]. rewrite Em in Hit1.
  destruct (First_spec it) as [Hr1 Ha1]. destruct (First it) as [ok it1]. cbn [fst snd] in *.
  destruct ok; cbn [negb]; [|done].
  destruct (First_spec it1) as [Hr2 Ha2]. rewrite Hr1, <- Ha1, <- Hr2 in Hit1.
  destruct (range_rows _ _ _ _ _ Hr Ho Hm Hit1) as (Hu & Hl & _).
  pose proof (range_listing _ _ _ _ _ Hr Ho Hm Hit1) as [_ Hls].
  pose proof (iterates_length _ _ _ Hit1) as Hlen.
  destruct (compareLoop_spec cmp fuel (First it1).2) as (b & -> & Hb); [|done|lia|].
  { split; [by rewrite Ha2, <- Hr2|]. exists []. by rewrite Hr2, Ha2. }
  intros -> k v Hv Hkr. apply (Hb eq_refl k v), Hls. apply Hrep in Hv as [Hk Hv]. done.
Qed.

Lemma compareKey_spec r cmp m σ : c_RangeEnd cmp = None -> rows r = m -> represents m σ ->
  tableRows m -> goodKey (c_Key cmp) ->
  match compareKey r cmp [] with
  | OK b => b = true <-> compareHolds cmp σ
  | ERR _ => True
  | PANIC _ => False
  end.
Proof.
  intros Eh Em Hrep Hm Hk. unfold compareKey, compareHolds. rewrite Eh, encodeUserKey_phys. cbn [app].
  destruct (NewIter r noOpts) as [it|e|p] eqn:E; [|done|].
  2: { pose proof (NewIter_spec r noOpts) as Hx. by rewrite E in Hx. }
  rewrite <- Em in Hm. pose proof (seekPrefix_newest r it _ Hm Hk E) as Hs. cbv zeta in Hs.
  rewrite Em in Hs. destruct (SeekPrefixGE (ukey (c_Key cmp) maxSeqno) it) as [ok it1]. cbn [fst snd] in Hs.
  destruct ok; cbn [negb].
  - destruct Hs as [n Hn]. destruct (isTombstone (iter_Value it1)) eqn:Ht.
    + split; [done|]. intros (v & [_ (n' & Hn' & Ht')]%Hrep & _).
      destruct (newest_inj _ _ _ _ _ _ Hn Hn') as [_ <-]. congruence.
    + assert (Hlive : live m (c_Key cmp) (iter_Value it1)) by (by exists n). split.
      * intros Hb. exists (iter_Value it1). split; [by apply Hrep|done].
      * intros (v & [_ Hv]%Hrep & Hb). by rewrite (live_inj _ _ _ _ Hlive Hv).
  - split; [done|]. intros (v & [_ (n & (Hn & Hv & _) & _)]%Hrep & _). by destruct (Hs n v).
Qed.

Lemma txnCompare_spec fuel r m σ z cmps : rows r = m -> represents m σ -> tableRows m ->
  (size m <= z)%nat -> Forall (fun cmp => goodRequest fuel (c_Key cmp) (c_RangeEnd cmp) z) cmps ->
  match txnCompare fuel r cmps with
  | OK ok => compared cmps σ ok
  | ERR _ => True
  | PANIC _ => False
  end.
Proof.
  intros Em Hrep Hm Hz. induction cmps as [|cmp cmps IH]; intros Hg; cbn [txnCompare]; [constructor|].
  apply Forall_cons in Hg as [Hg1 Hg]. specialize (IH Hg). unfold goodRequest in Hg1.
  destruct (c_RangeEnd cmp) as [high|] eqn:Eh.
  - destruct Hg1 as [Hr Hf].
    assert (Hsv : servable fuel m (c_Key cmp) high) by (split; [done..|lia]).
    pose proof (compareRange_spec fuel r cmp high m σ Eh Em Hrep Hsv) as Hc.
    destruct (compareRange fuel r cmp high) as [b|e|p]; [|done..]. destruct b; cbn [negb].
    + destruct (txnCompare fuel r cmps) as [ok|e|p]; [|done..]. unfold compared in *. destruct ok.
      * constructor; [by apply Hc|done].
      * by intros [? _]%Forall_cons; congruence.
    + by intros [? _]%Forall_cons; congruence.
  - pose proof (compareKey_spec r cmp m σ Eh Em Hrep Hm Hg1) as Hc.
    destruct (compareKey r cmp []) as [b|e|p]; [|done..]. destruct b; cbn [negb].
    + destruct (txnCompare fuel r cmps) as [ok|e|p]; [|done..]. unfold compared in *. destruct ok.
      * constructor; [by apply Hc|done].
      * intros [_ Hs]%Forall_cons [_ Hh]%Forall_cons. by apply IH.
    + unfold compared. intros _ [Hh _]%Forall_cons. by apply Hc in Hh.
Qed.

(** ** Lookups of a transaction *)

Lemma lookup_result fuel c σ n z req : holds c σ n z -> goodRequest fuel (r_Key req) (r_RangeEnd req) z ->
  Indexed (batch c) = true ->
  match lookup fuel (batchReader c) req with
  | OK resp => lookupResult req σ resp
  | ERR _ => True
  | PANIC _ => False
  end.
Proof.
  intros Hh Hg Hi. unfold lookup, lookupResult, goodRequest in *.
  destruct (r_RangeEnd req) as [high|] eqn:Eh.
  - destruct Hg as [Hr Hf]. pose proof Hh as [H1 H2 _ H4 _ _].
    destruct (iterate_feed fuel (batchReader c) req high Eh) as (seq & Es & Hseq).
    { rewrite batchReader_rows by done. split; [done..|lia]. }
    unfold rangeLookup. rewrite Es. unfold iterx_First.
    destruct Hseq as [[_ Hseq] | (L & m & Hls & _ & Hseq)]; rewrite Hseq; [cbn; by left|].
    rewrite feed_first by apply pages_ne. right. exists m.
    rewrite batchReader_rows in Hls by done. by rewrite (listing_rangeOf _ _ _ _ _ H2 Hls).
  - pose proof (lookup_key c σ n z req Hh Hg Hi) as Hl.
    destruct (singleLookup (batchReader c) req); [|done..]. by subst.
Qed.

Lemma handleTxnOps_wp fuel ops z z' : okOps fuel z ops z' -> forall c σ n, holds c σ n z ->
  Indexed (batch c) = true -> is_u64 (seqno c) -> n <= seqno c ->
  wp no_panic (handleTxnOps fuel ops)
    (fun rs c' => exists σ', opSteps ops σ rs σ' /\ holds c' σ' (seqno c) z' /\ sameCtx c c')
    (keepsDB c) c.
Proof.
  induction 1 as [z|z op ops z1 z2 Hop Hops IH]; intros c σ n Hh Hi Hs Hn; cbn [handleTxnOps].
  { apply wp_ret. exists σ. split_and!; [constructor| |done]. by eapply holds_weaken; [| |exact Hh]. }
  apply wp_bind. eapply wp_mono with (E := keepsDB c) (Q := fun rs c1 => exists σ1,
    opStep op σ rs σ1 /\ holds c1 σ1 (seqno c) z1 /\ sameCtx c c1).
  - inversion Hop as [r Hg|p Hk|d Hg|]; subst.
    + apply wp_bind, wp_readr. pose proof (lookup_result fuel c σ n z1 r Hh Hg Hi) as Hl.
      destruct (lookup fuel (batchReader c) r) as [resp|e|q]; [|done..]. apply wp_ret.
      exists σ. split_and!; [by constructor| |done]. by eapply holds_weaken; [| |exact Hh].
    + apply wp_bind. eapply wp_mono; [by eapply handlePut_wp| |done].
      intros resp c1 (-> & Hh1 & Hs1). apply wp_ret. eexists. split_and!; [constructor|done..].
    + apply wp_bind. eapply wp_mono; [by eapply handleDelete_wp| |done].
      intros resp c1 (-> & Hh1 & Hs1). apply wp_ret. eexists. split_and!; [constructor|done..].
    + apply wp_ret. exists σ. split_and!; [constructor| |done]. by eapply holds_weaken; [| |exact Hh].
  - intros rs c1 (σ1 & Hst & Hh1 & Hs1). apply (keepsDB_trans _ _ c c1 Hs1).
    pose proof (sameCtx_seqno c c1 Hs1) as Es. apply wp_bind.
    eapply wp_mono; [eapply (IH c1); [done|by apply Hs1|by rewrite Es|by rewrite Es]| |done].
    intros rs' c2 (σ2 & Hst2 & Hh2 & Hs2). apply wp_ret. exists σ2. rewrite Es in Hh2.
    split_and!; [by econstructor|done|by eapply sameCtx_trans].
  - done.
Qed.

(** Batches are the same operations, one after the other. *)
Lemma handlePutBatch_wp (ps : list RequestOp_Put) : forall c σ n z, holds c σ n z ->
  Forall (fun p => goodKey (p_Key p)) ps -> is_u64 (seqno c) -> n <= seqno c ->
  wp no_panic (handlePutBatch ps)
    (fun rs c' => exists σ', opSteps (map RequestPut ps) σ (map ResponseOp_Put rs) σ' /\
       holds c' σ' (seqno c) (z + length ps) /\ sameCtx c c') (keepsDB c) c.
Proof.
  induction ps as [|p ps IH]; intros c σ n z Hh Hg Hs Hn; cbn [handlePutBatch map length].
  { apply wp_ret. exists σ. split_and!; [constructor| |done].
    eapply holds_weaken; [exact Hn| |exact Hh]. lia. }
  apply Forall_cons in Hg as [Hk Hg]. apply wp_bind.
  eapply wp_mono; [by eapply handlePut_wp| |done]. intros resp c1 (-> & Hh1 & Hs1).
  apply (keepsDB_trans _ _ c c1 Hs1). pose proof (sameCtx_seqno c c1 Hs1) as Es. apply wp_bind.
  eapply wp_mono; [eapply (IH c1); [done|done|by rewrite Es|by rewrite Es]| |done].
  intros rs c2 (σ2 & Hst & Hh2 & Hs2). apply wp_ret. exists σ2. rewrite Es in Hh2.
  split_and!; [|by rewrite Nat.add_succ_r|by eapply sameCtx_trans].
  change (map ResponseOp_Put (?x :: ?l)) with ([ResponseOp_Put x] ++ map ResponseOp_Put l).
  econstructor; [constructor|done].
Qed.

Lemma handleDeleteBatch_wp fuel (ds : list RequestOp_DeleteRange) : forall c σ n z, holds c σ n z ->
  Forall (fun d => goodKey (d_Key d) /\ d_RangeEnd d = None) ds -> is_u64 (seqno c) -> n <= seqno c ->
  wp no_panic (handleDeleteBatch fuel ds)
    (fun rs c' => exists σ', opSteps (map RequestDeleteRange ds) σ (map ResponseOp_DeleteRange rs) σ' /\
       holds c' σ' (seqno c) (z + length ds) /\ sameCtx c c') (keepsDB c) c.
Proof.
  induction ds as [|d ds IH]; intros c σ n z Hh Hg Hs Hn; cbn [handleDeleteBatch map length].
  { apply wp_ret. exists σ. split_and!; [constructor| |done].
    eapply holds_weaken; [exact Hn| |exact Hh]. lia. }
  apply Forall_cons in Hg as [[Hk He] Hg]. apply wp_bind. unfold handleDelete at 1. rewrite He.
  eapply wp_mono; [by eapply deleteSingle_wp| |done]. intros resp c1 (-> & Hh1 & Hs1).
  apply (keepsDB_trans _ _ c c1 Hs1). pose proof (sameCtx_seqno c c1 Hs1) as Es. apply wp_bind.
  eapply wp_mono; [eapply (IH c1); [done|done|by rewrite Es|by rewrite Es]| |done].
  intros rs c2 (σ2 & Hst & Hh2 & Hs2). apply wp_ret. exists σ2. rewrite Es in Hh2.
  split_and!; [|by rewrite Nat.add_succ_r|by eapply sameCtx_trans].
  change (map ResponseOp_DeleteRange (?x :: ?l)) with
    ([ResponseOp_DeleteRange x] ++ map ResponseOp_DeleteRange l).
  econstructor; [constructor|done].
Qed.

Lemma handleTxn_wp fuel txn c σ n z zs zf : holds c σ n z ->
  Forall (fun cmp => goodRequest fuel (c_Key cmp) (c_RangeEnd cmp) z) (t_Compare txn) ->
  is_u64 (seqno c) -> n <= seqno c ->
  okOps fuel z (t_Success txn) zs -> okOps fuel z (t_Failure txn) zf ->
  wp no_panic (handleTxn fuel (t_Compare txn) (t_Success txn) (t_Failure txn))
    (fun r c' => exists σ', compared (t_Compare txn) σ r.1 /\
       opSteps (if r.1 then t_Success txn else t_Failure txn) σ r.2 σ' /\
       holds c' σ' (seqno c) (if r.1 then zs else zf) /\ sameCtx c c') (keepsDB c) c.
Proof.
  intros Hh Hg Hs Hn Hzs Hzf. unfold handleTxn. apply wp_bind.
  eapply wp_mono; [apply EnsureIndexed_wp| |done]. intros _ c1 (E1 & Hs1 & Hi1).
  assert (Hh1 : holds c1 σ n z) by (destruct Hh; split; by rewrite ?E1).
  apply (keepsDB_trans _ _ c c1 Hs1). pose proof Hh1 as [R1 R2 R3 R4].
  pose proof (sameCtx_seqno c c1 Hs1) as Es. apply wp_bind, wp_readr.
  pose proof (txnCompare_spec fuel (batchReader c1) (cur c1) σ z (t_Compare txn)
    (batchReader_rows c1 Hi1) R2 R1 R4 Hg) as Hc.
  destruct (txnCompare fuel (batchReader c1) (t_Compare txn)) as [ok|e|p]; [|done..].
  apply wp_bind. eapply wp_mono.
  - eapply (handleTxnOps_wp fuel _ z (if ok then zs else zf)); [by destruct ok|done|done|by rewrite Es..].
  - intros rs c2 (σ2 & Hst & Hh2 & Hs2). apply wp_ret. rewrite Es in Hh2. exists σ2. cbn [fst snd].
    split_and!; [done..|by eapply sameCtx_trans].
  - done.
Qed.

(** ** Commands *)

Lemma holds_leader c σ n z i : holds c σ n z -> holds (set_leaderIndex i c) σ n z.
Proof. intros [H1 H2 H3 H4 H5 H6]. by split. Qed.

(** The loop of a sequence. *)
Definition handleSequence (fuel : nat) (li : option Z)
    : list Command -> M updateContext (list ResponseOp) :=
  fix handleSequence (cmds : list Command) :=
    match cmds with
    | [] => ret []
    | cmd :: cmds =>
        modify (set_leaderIndex (match cmd_LeaderIndex cmd with Some i => Some i | None => li end)) ;;
        '(_, cmdRes) ← handle fuel cmd;
        more ← handleSequence cmds;
        ret (cr_Responses cmdRes ++ more)
    end.

Lemma handle_sequence fuel cmd : cmd_Type cmd = SEQUENCE ->
  handle fuel cmd =
    (c ← get;
     restoringLeader (leaderIndex c)
       (responses ← handleSequence fuel (leaderIndex c) (cmd_Sequence cmd);
        ret (ResultSuccess, mkResult responses (seqno c)))).
Proof. destruct cmd as [? t]. cbn [cmd_Type]. by intros ->. Qed.

Lemma handle_leaf fuel cmd :
  match cmd_Type cmd with
  | PUT => handle fuel cmd = commandPut_handle cmd
  | DELETE => handle fuel cmd = commandDelete_handle fuel cmd
  | PUT_BATCH => handle fuel cmd = commandPutBatch_handle cmd
  | DELETE_BATCH => handle fuel cmd = commandDeleteBatch_handle fuel cmd
  | TXN => handle fuel cmd = commandTxn_handle fuel cmd
  | DUMMY => handle fuel cmd = succeed []
  | GC => handle fuel cmd = commandGC_handle cmd
  | _ => True
  end.
Proof. by destruct cmd as [? []]. Qed.

Lemma succeed_wp rs Q E c : Q (ResultSuccess, mkResult rs (seqno c)) c ->
  wp no_panic (succeed rs) Q E c.
Proof. by intros HQ. Qed.

Lemma seqno_of c : seqno c = seqnoOf (index c) (leaderIndex c).
Proof. done. Qed.

(** What a command promises: a step of the abstract table. *)
Definition refines fuel idx lo z li cmd hi z' : Prop :=
  forall c σ, index c = idx -> leaderIndex c = li -> holds c σ lo z ->
  wp no_panic (handle fuel cmd)
    (fun res c' => exists σ', cmdStep idx li cmd σ res σ' /\ holds c' σ' hi z' /\ sameCtx c c')
    (keepsDB c) c.

Lemma refines_gc fuel idx lo z li cmd : cmd_Type cmd = GC -> refines fuel idx lo z li cmd lo (S z).
Proof.
  intros Et c σ <- <- Hh. pose proof (handle_leaf fuel cmd) as Hl. rewrite Et in Hl. rewrite Hl.
  unfold commandGC_handle. apply wp_bind. unfold wp at 1, get. apply wp_bind.
  eapply wp_mono; [apply batchSet_wp| |done]. intros _ c' (E & Hs & _). apply wp_ret.
  assert (sysRow sysGCHorizon) as Hy by (right; by right). destruct Hh as [H1 H2 H3 H4 H5 H6].
  exists σ. split_and!; [by constructor| |done]. split; rewrite ?E;
    [by apply tableRows_sys|by apply represents_sys|by apply upTo_sys| |done|by apply extends_sys].
  pose proof (size_insert_le (cur c) sysGCHorizon (LittleEndian_PutUint64 (seqno c))). lia.
Qed.

Lemma refines_put fuel idx lo z li cmd kv : cmd_Type cmd = PUT -> cmd_Kv cmd = Some kv ->
  goodKey (kv_Key kv) -> is_u64 (seqnoOf idx li) -> lo <= seqnoOf idx li ->
  refines fuel idx lo z li cmd (seqnoOf idx li) (S z).
Proof.
  intros Et Ek Hk Hs Hlo c σ <- <- Hh. pose proof (handle_leaf fuel cmd) as Hl. rewrite Et in Hl.
  rewrite Hl. unfold commandPut_handle. rewrite Ek. apply wp_bind, wp_ret, wp_bind.
  eapply wp_mono; [by eapply handlePut_wp| |done]. intros resp c' (-> & Hh' & Hs').
  apply succeed_wp. rewrite (sameCtx_seqno c c') by done. eexists. split_and!; [|exact Hh'|done].
  by apply cmd_put.
Qed.

Lemma refines_delete fuel idx lo z li cmd kv z' : cmd_Type cmd = DELETE -> cmd_Kv cmd = Some kv ->
  is_u64 (seqnoOf idx li) -> lo <= seqnoOf idx li ->
  okOp fuel z (RequestDeleteRange
    (mkDelete (kv_Key kv) (cmd_RangeEnd cmd) (cmd_PrevKvs cmd) (cmd_Count cmd))) z' ->
  refines fuel idx lo z li cmd (seqnoOf idx li) z'.
Proof.
  intros Et Ek Hs Hlo Hok c σ <- <- Hh. pose proof (handle_leaf fuel cmd) as Hl. rewrite Et in Hl.
  rewrite Hl. unfold commandDelete_handle. rewrite Ek. apply wp_bind, wp_ret, wp_bind.
  eapply wp_mono; [by eapply handleDelete_wp| |done]. intros resp c' (-> & Hh' & Hs').
  apply succeed_wp. rewrite (sameCtx_seqno c c') by done. eexists. split_and!; [|exact Hh'|done].
  by apply cmd_delete.
Qed.

Lemma refines_batch fuel idx lo z li cmd z' :
  cmd_Type cmd = PUT_BATCH \/ cmd_Type cmd = DELETE_BATCH ->
  Forall (fun kv => goodKey (kv_Key kv)) (cmd_Batch cmd) ->
  is_u64 (seqnoOf idx li) -> lo <= seqnoOf idx li -> (z + length (cmd_Batch cmd) <= z')%nat ->
  refines fuel idx lo z li cmd (seqnoOf idx li) z'.
Proof.
  intros Et Hg Hs Hlo Hz c σ <- <- Hh. pose proof (handle_leaf fuel cmd) as Hl.
  destruct Et as [Et|Et]; rewrite Et in Hl; rewrite Hl;
    unfold commandPutBatch_handle, commandDeleteBatch_handle; apply wp_bind.
  - eapply wp_mono; [eapply handlePutBatch_wp; [done| |done..]| |done].
    { by apply Forall_map. }
    rewrite map_map, length_map. intros rs c' (σ' & Hst & Hh' & Hs'). apply succeed_wp.
    rewrite (sameCtx_seqno c c') by done. exists σ'. split_and!; [by apply cmd_putBatch| |done].
    eapply holds_weaken; [| |exact Hh']; [done|lia].
  - eapply wp_mono; [eapply handleDeleteBatch_wp; [done| |done..]| |done].
    { apply Forall_map. eapply Forall_impl; [exact Hg|]. by intros kv Hk. }
    rewrite map_map, length_map. intros rs c' (σ' & Hst & Hh' & Hs'). apply succeed_wp.
    rewrite (sameCtx_seqno c c') by done. exists σ'. split_and!; [by apply cmd_deleteBatch| |done].
    eapply holds_weaken; [| |exact Hh']; [done|lia].
Qed.

Lemma refines_txn fuel idx lo z li cmd txn zs zf z' : cmd_Type cmd = TXN -> cmd_Txn cmd = Some txn ->
  Forall (fun cmp => goodRequest fuel (c_Key cmp) (c_RangeEnd cmp) z) (t_Compare txn) ->
  is_u64 (seqnoOf idx li) -> lo <= seqnoOf idx li ->
  okOps fuel z (t_Success txn) zs -> okOps fuel z (t_Failure txn) zf ->
  (zs <= z')%nat -> (zf <= z')%nat -> refines fuel idx lo z li cmd (seqnoOf idx li) z'.
Proof.
  intros Et Ek Hg Hs Hlo Hzs Hzf Hz1 Hz2 c σ <- <- Hh. pose proof (handle_leaf fuel cmd) as Hl.
  rewrite Et in Hl. rewrite Hl. unfold commandTxn_handle. rewrite Ek. apply wp_bind, wp_ret, wp_bind.
  eapply wp_mono; [by eapply handleTxn_wp| |done]. intros [ok rs] c' (σ' & Hc & Hst & Hh' & Hs').
  cbn [fst snd] in *. apply wp_bind. unfold wp at 1, get. apply wp_ret.
  rewrite (sameCtx_seqno c c') by done. exists σ'. split_and!; [by eapply cmd_txn| |done].
  eapply holds_weaken; [| |exact Hh']; [done|by destruct ok; lia].
Qed.

Lemma handle_refines fuel idx lo z li cmd hi z' : okCmd fuel idx lo z li cmd hi z' ->
  refines fuel idx lo z li cmd hi z'.
Proof.
  intros Hok. induction Hok using okCmd_mut with
    (P0 := fun lo z li cs hi z' _ => forall c σ, index c = idx -> holds c σ lo z ->
      wp no_panic (handleSequence fuel li cs)
        (fun rs c' => exists σ', seqStep idx li cs σ rs σ' /\ holds c' σ' hi z' /\
           sameCtx (set_leaderIndex (leaderIndex c') c) c') (keepsDB c) c).
  - intros c' σ <- <- Hh. pose proof (handle_leaf fuel c) as Hl. rewrite e in Hl. rewrite Hl.
    apply succeed_wp. exists σ. split_and!; [by apply cmd_dummy|done..].
  - by apply refines_gc.
  - by eapply refines_put.
  - by eapply refines_delete.
  - by eapply refines_batch.
  - by eapply refines_txn.
  - intros c' σ <- <- Hh. rewrite handle_sequence by done. apply wp_bind. unfold wp at 1, get.
    specialize (IHHok c' σ eq_refl Hh).
    unfold restoringLeader, wp, mbind, M_bind, ret in *.
    destruct (handleSequence fuel (leaderIndex c') (cmd_Sequence c) c') as [rs c2|e2 c2|p];
      [|done..]. destruct IHHok as (σ' & Hst & Hh2 & [S1 S2 S3 S4]). exists σ'.
    split_and!; [by apply cmd_sequence|by apply holds_leader|by split].
  - intros c σ Ei Hh. apply wp_ret. exists σ. split_and!; [constructor|done|by split].
  - intros c' σ Ei Hh. cbn [handleSequence]. apply wp_bind, wp_modify, wp_bind.
    set (c1 := set_leaderIndex _ c').
    eapply wp_mono; [apply (IHHok c1 σ); [done|done|by apply holds_leader]| |done].
    intros [ur res] c2 (σ2 & Hst & Hh2 & [S1 S2 S3 S4]). apply wp_bind.
    eapply wp_mono; [apply (IHHok0 c2 σ2); [by rewrite S2|done]| |].
    + intros rs c3 (σ3 & Hst3 & Hh3 & [T1 T2 T3 T4]). apply wp_ret. exists σ3.
      split_and!; [by apply (seq_cons idx li c cs σ (ur, res) σ2)|done|].
      split; cbn in *; [congruence|congruence|done|auto].
    + intros e c3 Hd. cbn in *. congruence.
Qed.

End write.
