(* ===== verification/FsmCompare.v ===== *)
(** * What a comparison of a range compares

    A transaction that compares a range goes over the stored versions of its keys, not
    over the table: the versions older than the newest one count unless a tombstone hides
    them, and a range without any row compares false. *)
From S2P Require Import Prelude Raftpb LogDB Wire WireSpec Bytes Key KeySpec Armadapb Pebble.
From S2P Require Import FsmQuery FsmCommand FsmView FsmRange FsmRead FsmSpec FsmWrite.
From Stdlib Require Import Strings.Byte.
Import armadapb.

(** The versions the loop compares: those no tombstone of the key is newer than. *)
Record shownIn (l : list row) (k : bytes) (s : Z) (v : bytes) : Prop := {
  sh_key : goodKey k;
  sh_seq : is_u64 s;
  sh_in : (ukey k s, v) ∈ l;
  sh_value : isTombstone v = false;
  sh_newer : forall s' v', is_u64 s' -> s < s' -> (ukey k s', v') ∈ l -> isTombstone v' = false
}.

(** The same on a store. *)
Record shown (m : rowmap) (k : bytes) (s : Z) (v : bytes) : Prop := {
  sn_key : goodKey k;
  sn_seq : is_u64 s;
  sn_in : m !! ukey k s = Some v;
  sn_value : isTombstone v = false;
  sn_newer : forall s' v', is_u64 s' -> s < s' -> m !! ukey k s' = Some v' -> isTombstone v' = false
}.

(** A range with at most one version of a key and no tombstones. *)
Definition oneVersion (m : rowmap) (low high : bytes) : Prop :=
  forall k s v, goodKey k -> is_u64 s -> inKeyRange low high k -> m !! ukey k s = Some v ->
    isTombstone v = false /\ forall s' v', is_u64 s' -> m !! ukey k s' = Some v' -> s' = s.

Definition storedIn (m : rowmap) (low high : bytes) : Prop :=
  exists k s v, goodKey k /\ is_u64 s /\ inKeyRange low high k /\ m !! ukey k s = Some v.

(** A tombstone at the head hides the other versions of its key and nothing else. *)
Lemma shownIn_tombstone k s v l k' s' v' : goodKey k -> is_u64 s -> userRows l ->
  ascendingRows ((ukey k s, v) :: l) -> isTombstone v = true ->
  shownIn ((ukey k s, v) :: l) k' s' v' <-> shownIn (after (lastKey k) l) k' s' v'.
Proof.
  intros Hk Hs Hu Hl Hv. split; intros [Hk' Hs' Hin Hv' Hnew].
  - apply elem_of_cons in Hin as [E|Hin].
    { apply row_inj in E as (-> & -> & ->); [congruence|done..]. }
    destruct (later_row _ _ _ _ _ _ _ Hk Hs Hk' Hs' Hl Hin) as [[-> Hlt]|[_ Hin']].
    { rewrite (Hnew s v) in Hv; [done..|left]. }
    split; [done..|]. intros s2 v2 Hs2 Hlt [_ Hin2]%elem_of_after. eapply Hnew; [done..|by right].
  - pose proof (after_key _ _ _ _ _ Hk Hk' Hs' Hin) as Hkk. pose proof Hin as [_ Hin']%elem_of_after.
    split; [done..|by right|done|]. intros s2 v2 Hs2 Hlt [E|Hin2]%elem_of_cons.
    + apply row_inj in E as (-> & _); [|done..]. by apply blt_irrefl in Hkk.
    + eapply Hnew; [done..|]. apply elem_of_after. split; [by apply blt_lastKey|done].
Qed.

(** A value at the head is compared, and the rest on its own. *)
Lemma shownIn_value k s v l k' s' v' : goodKey k -> is_u64 s ->
  ascendingRows ((ukey k s, v) :: l) -> isTombstone v = false ->
  shownIn ((ukey k s, v) :: l) k' s' v' <-> (k' = k /\ s' = s /\ v' = v) \/ shownIn l k' s' v'.
Proof.
  intros Hk Hs Hl Hv. split.
  - intros [Hk' Hs' Hin Hv' Hnew]. apply elem_of_cons in Hin as [E|Hin].
    { left. by apply row_inj in E. }
    right. split; [done..|]. intros s2 v2 Hs2 Hlt Hin2. eapply Hnew; [done..|by right].
  - intros [(-> & -> & ->)|[Hk' Hs' Hin Hv' Hnew]].
    + split; [done..|left|done|]. intros s2 v2 Hs2 Hlt [E|Hin2]%elem_of_cons.
      { by apply row_inj in E as (_ & _ & ->). }
      destruct (later_row _ _ _ _ _ _ _ Hk Hs Hk Hs2 Hl Hin2) as [[_ ?]|[Hkk _]]; [lia|].
      by apply blt_irrefl in Hkk.
    + split; [done..|by right|done|]. intros s2 v2 Hs2 Hlt [E|Hin2]%elem_of_cons.
      { by apply row_inj in E as (_ & _ & ->). }
      by eapply Hnew.
Qed.

(** The list of the rows of a range and the store. *)
Lemma shownIn_shown m low high l :
  (forall k s v, goodKey k -> is_u64 s ->
     (ukey k s, v) ∈ l <-> m !! ukey k s = Some v /\ inKeyRange low high k) ->
  forall k s v, shownIn l k s v <-> inKeyRange low high k /\ shown m k s v.
Proof.
  intros Hin k s v. split.
  - intros [Hk Hs Hv Ht Hnew]. apply Hin in Hv as [Hv Hkr]; [|done..]. split; [done|].
    split; [done..|]. intros s' v' Hs' Hlt Hv'. apply (Hnew s' v'); [done..|]. by apply Hin.
  - intros [Hkr [Hk Hs Hv Ht Hnew]]. split; [done..|by apply Hin|done|].
    intros s' v' Hs' Hlt [Hv' _]%Hin; [|done..]. by apply (Hnew s' v').
Qed.

Lemma stored_rows m low high l : userRows l ->
  (forall k s v, goodKey k -> is_u64 s ->
     (ukey k s, v) ∈ l <-> m !! ukey k s = Some v /\ inKeyRange low high k) ->
  l <> [] <-> storedIn m low high.
Proof.
  intros Hu Hin. split.
  - destruct l as [|[pk v] l]; [done|]. intros _.
    pose proof Hu as [(k & s & Hk & Hs & E) _]%Forall_cons. cbn [fst] in E. subst pk.
    destruct (Hin k s v) as [[Hv Hkr] _]; [done..|left|]. by exists k, s, v.
  - intros (k & s & v & Hk & Hs & Hkr & Hv) ->. by apply (elem_of_nil (ukey k s, v)), Hin.
Qed.

Section compare.
Context `{PebbleSpec}.

Lemma compareLoop_exact cmp fuel : forall it, positioned it -> userRows (it_rest it) ->
  ascendingRows (it_rest it) -> (length (it_rest it) < fuel)%nat ->
  exists b, compareLoop cmp fuel it = OK b /\
    (b = true <-> forall k s v, shownIn (it_rest it) k s v -> txnCompareSingle cmp v = true).
Proof.
  induction fuel as [|fuel IH]; intros it Hp Hu Ha Hf; [lia|]. cbn [compareLoop].
  destruct (it_rest it) as [|[pk v] l] eqn:E.
  { rewrite Valid_nil by done. exists true. split; [done|]. split; [|done].
    intros _ k s v [_ _ Hin]. by apply elem_of_nil in Hin. }
  apply Forall_cons in Hu as [(k & n & Hk & Hn & Ek) Hu]. cbn [fst] in Ek. subst pk.
  destruct (Key_spec it _ _ _ E) as [Ekey Eval]. rewrite (Valid_cons _ _ _ E), Ekey, Eval. cbn [negb].
  destruct (iterNextUserKey_step it k n v l Hp Hk Hn E) as (Hp' & Hr' & _ & Hv & _).
  pose proof Ha as [_ Hl']%ascending_cons. pose proof (after_length (lastKey k) l) as Hlen. cbn in Hf.
  destruct (isTombstone v) eqn:Et.
  - setoid_rewrite (shownIn_tombstone k n v l); [|done..].
    destruct (iterNextUserKey it (ukey k n)) as [ok it']. cbn [fst snd] in *. subst ok.
    rewrite <- Hr'. destruct (Valid it') eqn:Ev; cbn [negb].
    + apply IH; [done|rewrite Hr'..|rewrite Hr'; lia];
        [by apply after_userRows|by apply after_ascending].
    + rewrite Valid_spec, bool_decide_eq_false in Ev. exists true. split; [done|]. split; [|done].
      destruct (it_rest it'); [|by destruct Ev]. intros _ k' s' v' [_ _ Hin]. by apply elem_of_nil in Hin.
  - setoid_rewrite (shownIn_value k n v l); [|done..].
    destruct (Next_positioned it _ _ Hp E) as (Hp2 & Hr2 & _).
    destruct (txnCompareSingle cmp v) eqn:Ec; cbn [negb].
    + destruct (IH (Next it).2) as (b & -> & Hb); [done|rewrite Hr2..|rewrite Hr2; lia|]; [done..|].
      exists b. split; [done|]. rewrite Hb, Hr2. split; [|by eauto].
      intros Hall k' s' v' [(_ & _ & ->)|Hin]; [done|by eapply Hall].
    + exists false. split; [done|]. split; [done|]. intros Hall.
      rewrite (Hall k n v) in Ec by (left; done). done.
Qed.

(** In a range without old versions what is compared is the table. *)
Lemma oneVersion_shown m σ cmp high : represents m σ -> c_RangeEnd cmp = Some high ->
  oneVersion m (c_Key cmp) high ->
  (storedIn m (c_Key cmp) high /\
   forall k s v, inKeyRange (c_Key cmp) high k -> shown m k s v -> txnCompareSingle cmp v = true) <->
  (exists k v, σ !! k = Some v /\ inKeyRange (c_Key cmp) high k) /\ compareHolds cmp σ.
Proof.
  intros Hrep Eh Hc. unfold compareHolds. rewrite Eh.
  assert (forall k s v, goodKey k -> is_u64 s -> inKeyRange (c_Key cmp) high k ->
    m !! ukey k s = Some v -> σ !! k = Some v) as Hin.
  { intros k s v Hk Hs Hkr Hv. destruct (Hc k s v) as [Ht Hone]; [done..|]. apply Hrep.
    split; [done|]. exists s. split; [|done]. split_and!; [done..|]. intros s' v' Hs' Hv'.
    rewrite (Hone s' v') by done. lia. }
  split.
  - intros [(k & s & v & Hk & Hs & Hkr & Hv) Hall]. split; [exists k, v; by eauto|].
    intros k' v' Hv' Hkr'. apply Hrep in Hv' as (Hk' & s' & (Hs' & Hv' & _) & Ht').
    apply (Hall k' s' v'); [done|]. split; [done..|]. intros s2 v2 Hs2 _ Hv2.
    by destruct (Hc k' s2 v2) as [Ht2 _].
  - intros [(k & v & Hv & Hkr) Hall]. split.
    + apply Hrep in Hv as (Hk & s & (Hs & Hv & _) & _). by exists k, s, v.
    + intros k' s' v' Hkr' [Hk' Hs' Hv' _ _]. by eapply Hall; [eapply Hin|].
Qed.

(** The rows of the range decide a comparison. *)
Lemma compareRange_rows fuel r cmp high : servable fuel (rows r) (c_Key cmp) high ->
  match compareRange fuel r cmp high with
  | OK b => exists l, userRows l /\
      (forall k s v, goodKey k -> is_u64 s ->
         (ukey k s, v) ∈ l <-> rows r !! ukey k s = Some v /\ inKeyRange (c_Key cmp) high k) /\
      (b = true <-> l <> [] /\ forall k s v, shownIn l k s v -> txnCompareSingle cmp v = true)
  | ERR e => exists opts, NewIter r opts = ERR e
  | PANIC _ => False
  end.
Proof.
  intros [Hr Hm Hf]. unfold compareRange.
  destruct (bounds_options _ _ Hr) as (opts & Ho & _). rewrite Ho.
  destruct (NewIter r opts) as [it|e|p] eqn:E; [|by exists opts|].
  2: { pose proof (NewIter_spec r opts) as Hx. by rewrite E in Hx. }
  destruct (First_positioned r opts it E) as [Hp1 Hit1]. pose proof (First_valid it) as Hok.
  destruct (First_spec it) as [Hr1 Ha1]. destruct (First it) as [ok it1]. cbn [fst snd] in *.
  destruct (range_rows _ _ _ _ _ Hr Ho Hm Hit1) as (Hu & Hl & Hin).
  pose proof (iterates_length _ _ _ Hit1) as Hlen. rewrite Valid_spec in Hok. subst ok.
  destruct (bool_decide_reflect (it_rest it1 <> [])) as [Hne|He]; cbn [negb].
  - destruct (First_spec it1) as [Hr2 Ha2]. rewrite Ha1, <- Hr1 in Hr2.
    destruct (compareLoop_exact cmp fuel (First it1).2) as (b & -> & Hb); [|rewrite Hr2..|]; [|done..|lia|].
    { split; [by rewrite Ha2, Ha1, <- Hr1|]. exists []. by rewrite Hr2, Ha2, Ha1, Hr1. }
    exists (it_rest it1). rewrite Hr2 in Hb. split_and!; [done..|]. rewrite Hb.
    split; [done|]. by intros [_ ?].
  - exists (it_rest it1). split_and!; [done..|]. split; [done|]. intros [? _]. by destruct He.
Qed.

(** C38: what a comparison of a range compares.  For a range the servers accept, on a
    store of well-formed rows, the comparison is true exactly if some row of the range is
    stored, a tombstone included, and every stored version of a key of the range that no
    newer tombstone of its key hides passes the comparison: not only the newest one.  It
    agrees with the table, with a range of at least one key all of whose values pass,
    when the range holds one version of a key and no tombstones.  The only error is that
    of opening an iterator, and the loop ends within its fuel. *)
Theorem range_compare_versions fuel r cmp high σ : c_RangeEnd cmp = Some high ->
  represents (rows r) σ -> servable fuel (rows r) (c_Key cmp) high ->
  match compareRange fuel r cmp high with
  | OK b =>
      (b = true <-> storedIn (rows r) (c_Key cmp) high /\
         forall k s v, inKeyRange (c_Key cmp) high k -> shown (rows r) k s v ->
           txnCompareSingle cmp v = true) /\
      (oneVersion (rows r) (c_Key cmp) high ->
         b = true <-> (exists k v, σ !! k = Some v /\ inKeyRange (c_Key cmp) high k) /\
                      compareHolds cmp σ)
  | ERR e => exists opts, NewIter r opts = ERR e
  | PANIC _ => False
  end.
Proof.
  intros Eh Hrep Hsv. pose proof (compareRange_rows fuel r cmp high Hsv) as Hc.
  destruct (compareRange fuel r cmp high) as [b|e|p]; [|done..].
  destruct Hc as (l & Hu & Hin & Hb).
  assert (b = true <-> storedIn (rows r) (c_Key cmp) high /\ forall k s v,
    inKeyRange (c_Key cmp) high k -> shown (rows r) k s v -> txnCompareSingle cmp v = true) as Hx.
  { rewrite Hb. rewrite (stored_rows _ _ _ _ Hu Hin). apply and_iff_compat_l.
    pose proof (shownIn_shown _ _ _ _ Hin) as Hs. split; intros Hall k s v.
    - intros Hkr Hv. apply (Hall k s v), Hs. done.
    - intros [Hkr Hv]%Hs. by apply (Hall k s v). }
  split; [done|]. intros Hc. by rewrite Hx, oneVersion_shown.
Qed.

End compare.
