(* ===== verification/FsmUpdate.v ===== *)
(** * Updates refine the abstract table

    [Update] applies its entries to the abstract table and commits them with the
    index of the last one, all together or, if it returns an error, not at all. *)
From S2P Require Import Prelude Raftpb LogDB Wire WireSpec Bytes Key KeySpec Armadapb Pebble.
From S2P Require Import Session RsmMembership Encoded TaskQueue Rsm.
From S2P Require Import FsmQuery FsmCommand Fsm FsmView FsmRange FsmRead FsmSpec FsmWrite.
From Stdlib Require Import Strings.Byte.
Import armadapb(Command, CommandResult, cmd_LeaderIndex, cr_Revision).

Section update.
Context `{PebbleSpec} `{CommandCodecSpec} (fuel : nat).

(** ** Entries *)

(** Entries that do not decode make the update fail. *)
Inductive okEntries : Z -> nat -> list smEntry -> Z -> nat -> Prop :=
| okEntries_nil lo z : okEntries lo z [] lo z
| okEntries_bad lo z e es err hi z' : UnmarshalVTUnsafe (sme_Cmd e) = ERR err ->
    okEntries lo z (e :: es) hi z'
| okEntries_cons lo z e es cmd mid z1 hi z2 : UnmarshalVTUnsafe (sme_Cmd e) = OK cmd ->
    is_u64 (sme_Index e) -> okCmd fuel (sme_Index e) lo z (cmd_LeaderIndex cmd) cmd mid z1 ->
    okEntries mid z1 es hi z2 -> okEntries lo z (e :: es) hi z2.

Inductive entryStep (e : smEntry) (cmd : Command) (σ : table) : smEntry -> option Z -> table -> Prop :=
| entry_step ur res bts σ' : UnmarshalVTUnsafe (sme_Cmd e) = OK cmd ->
    cmdStep (sme_Index e) (cmd_LeaderIndex cmd) cmd σ (ur, res) σ' -> MarshalResult res = OK bts ->
    entryStep e cmd σ (set_Result (Session.mkResult (resultValue ur) (Some bts)) e)
      (match ur with ResultGC => Some (cr_Revision res) | _ => None end) σ'.

(** The entries applied one after the other: their results, the index and the leader
    index after the last one, and the last horizon. *)
Inductive entriesStep : list smEntry -> Z * option Z * Z -> table -> list smEntry ->
    Z * option Z * Z -> table -> Prop :=
| entries_nil at_ σ : entriesStep [] at_ σ [] at_ σ
| entries_cons e es cmd e' es' idx li h gc at' σ σ1 σ2 :
    entryStep e cmd σ e' gc σ1 ->
    entriesStep es (sme_Index e, cmd_LeaderIndex cmd, default h gc) σ1 es' at' σ2 ->
    entriesStep (e :: es) (idx, li, h) σ (e' :: es') at' σ2.

Section entries.
(** The rows and the sequence number an update starts from. *)
Context {m0 : rowmap} {lo0 : Z}.

Abbreviation holds := (holds (m0 := m0) (lo0 := lo0)).

Lemma applyEntry_wp e es c σ lo z hi z' : okEntries lo z (e :: es) hi z' -> holds c σ lo z ->
  wp no_panic (applyEntry fuel e)
    (fun r c' => exists cmd σ' mid z1, entryStep e cmd σ r.1 r.2 σ' /\ okEntries mid z1 es hi z' /\
       holds c' σ' mid z1 /\ db c' = db c /\ index c' = sme_Index e /\
       leaderIndex c' = cmd_LeaderIndex cmd) (fun _ c' => db c' = db c) c.
Proof.
  intros Hok Hh. unfold applyEntry, parseCommand. apply wp_bind, wp_bind, wp_modify, wp_bind, wp_readr.
  inversion Hok as [|lo' z0 e' es' err hi' z2 He|lo' z0 e' es' cmd mid z1 hi' z2 Hd Hi Hc Hrest]; subst.
  { by rewrite He. }
  rewrite Hd. apply wp_bind, wp_modify, wp_ret, wp_bind.
  set (c1 := set_leaderIndex _ _).
  eapply wp_mono; [apply (handle_refines (m0 := m0) (lo0 := lo0) fuel _ _ _ _ _ _ _ Hc c1 σ); [done|done|by destruct Hh]| |done].
  intros [ur res] c2 (σ2 & Hst & Hh2 & [S1 S2 S3 S4]). apply wp_bind, wp_readr.
  destruct (MarshalResult res) as [bts|err|p] eqn:Em;
    [|done|by destruct (MarshalResult_no_panic res p)].
  apply wp_ret. exists cmd, σ2, mid, z1. split_and!; [by econstructor|done..].
Qed.

Lemma applyEntries_wp es : forall c σ lo z hi z' idx h, okEntries lo z es hi z' -> holds c σ lo z ->
  index c = idx ->
  wp no_panic (applyEntries fuel es idx h)
    (fun r c' => exists σ' li, entriesStep es (idx, leaderIndex c, h) σ r.1.1 (r.1.2, li, r.2) σ' /\
       holds c' σ' hi z' /\ db c' = db c /\ index c' = r.1.2 /\ leaderIndex c' = li)
    (fun _ c' => db c' = db c) c.
Proof.
  induction es as [|e es IH]; intros c σ lo z hi z' idx h Hok Hh Hidx; cbn [applyEntries].
  { inversion Hok; subst. apply wp_ret. exists σ, (leaderIndex c). split_and!; [constructor|done..]. }
  apply wp_bind. eapply wp_mono; [by eapply applyEntry_wp| |done].
  intros [e' gc] c1 (cmd & σ1 & mid & z1 & Hst & Hok1 & Hh1 & Hd1 & Hi1 & Hl1). cbn [fst snd] in *.
  apply wp_bind. eapply wp_mono; [by eapply (IH c1)| |].
  - intros [[es' idx'] h'] c2 (σ2 & li & Hst2 & Hh2 & Hd2 & Hi2 & Hl2). cbn [fst snd] in *.
    apply wp_ret. exists σ2, li. cbn [fst snd].
    split_and!; [|done|congruence|done..]. rewrite Hl1 in Hst2. by econstructor.
  - intros err c2 Hd2. cbn in *. congruence.
Qed.

(** ** Committing *)

Lemma Commit_wp c σ n z : holds c σ n z ->
  wp no_panic Commit
    (fun _ c' => let m := rows (of_DB (db c')) in
       tableRows m /\ represents m σ /\ upTo n m /\ (base.size m <= S (S z))%nat /\ extends lo0 m0 m /\
       m !! sysLocalIndex = Some (LittleEndian_PutUint64 (index c)) /\
       (forall i, leaderIndex c = Some i -> m !! sysLeaderIndex = Some (LittleEndian_PutUint64 i)) /\
       leaderIndex c' = leaderIndex c)
    (fun _ c' => db c' = db c) c.
Proof.
  intros Hh. unfold Commit. apply wp_bind. unfold wp at 1, get. apply wp_bind.
  assert (Y1 : sysRow sysLocalIndex) by (by left). assert (Y2 : sysRow sysLeaderIndex) by (right; by left).
  assert (Hne : sysLocalIndex <> sysLeaderIndex) by done.
  eapply wp_mono with (E := fun _ c' => db c' = db c) (Q := fun _ c1 => holds c1 σ n (S z) /\
    sameCtx c c1 /\ forall i, leaderIndex c = Some i -> cur c1 !! sysLeaderIndex = Some (LittleEndian_PutUint64 i)).
  - destruct (leaderIndex c) as [i|].
    + eapply wp_mono; [apply batchSet_wp| |done]. intros _ c1 (E & Hs & _). split_and!; [|done|].
      * destruct Hh as [H3 H4 H5 H6 H7 H8]. split; rewrite ?E;
          [by apply tableRows_sys|by apply represents_sys|by apply upTo_sys| |done|by apply extends_sys].
        pose proof (size_insert_le (cur c) sysLeaderIndex (LittleEndian_PutUint64 i)). lia.
      * intros i' [= <-]. by rewrite E, lookup_insert_eq.
    + apply wp_ret. split_and!; [eapply holds_weaken; [| |exact Hh]; lia|done|done].
  - intros _ c1 ([H3 H4 H5 H6 H7 H8] & Hs & Hli). apply wp_bind.
    eapply wp_mono; [apply batchSet_wp| |by intros e c2 Hd; cbn in *; rewrite Hd; apply Hs].
    intros _ c2 (E & Hs2 & _). apply wp_bind, wp_readr. pose proof (Commit_spec (batch c2) (db c2)) as Hc.
    destruct (batch_Commit (batch c2) (db c2)) as [d|e|p];
      [|by rewrite (sc_db _ _ Hs2), (sc_db _ _ Hs)|done].
    apply wp_modify. cbn [db set_db]. fold (cur c2) in Hc. rewrite Hc, E. cbv zeta.
    split_and!; [by apply tableRows_sys|by apply represents_sys|by apply upTo_sys| |by apply extends_sys| | |].
    + pose proof (size_insert_le (cur c1) sysLocalIndex (LittleEndian_PutUint64 (index c))). lia.
    + by rewrite lookup_insert_eq.
    + intros i Hi. rewrite lookup_insert_ne by done. by apply Hli.
    + cbn. rewrite (sc_leader _ _ Hs2). apply Hs.
  - done.
Qed.

End entries.

(** ** Updates *)

(** The state of the machine: well-formed rows that show the table [σ], with versions
    up to [n], [z] rows at most. *)
Record shows (p : FSM) (σ : table) (n : Z) (z : nat) : Prop := {
  sh_rows : tableRows (rows (of_DB (pebble p)));
  sh_repr : represents (rows (of_DB (pebble p))) σ;
  sh_upTo : upTo n (rows (of_DB (pebble p)));
  sh_size : (base.size (rows (of_DB (pebble p))) <= z)%nat }.

(** C9: applying committed entries refines the abstract table.  On every store of
    well-formed rows that shows a table [σ], [Update] with good commands neither panics
    nor runs out of fuel; either it returns an error and the machine is as before, or
    it returns the entries with the results of the abstract commands, applied in order,
    the store shows the resulting table, the index of the last entry and the last
    leader index are stored with it, the rows added are versions of these commands and
    rows of the system, the horizon is that of the last garbage collection command, and
    the last index has been reported. *)
Theorem Update_refines es p σ lo z hi z' : es <> [] -> shows p σ lo z -> okEntries lo z es hi z' ->
  wp no_panic (Update fuel es)
    (fun es' p' => exists σ' idx li h, entriesStep es (0, None, 0) σ es' (idx, li, h) σ' /\
       shows p' σ' hi (S (S z')) /\ applied p' = idx /\
       extends lo (rows (of_DB (pebble p))) (rows (of_DB (pebble p'))) /\
       rows (of_DB (pebble p')) !! sysLocalIndex = Some (LittleEndian_PutUint64 idx) /\
       (forall i, li = Some i ->
          rows (of_DB (pebble p')) !! sysLeaderIndex = Some (LittleEndian_PutUint64 i)) /\
       gcHorizon p' = (if 0 <? h then h else gcHorizon p) /\
       appliedCalls p' = appliedCalls p ++ [seqnoOf idx li])
    (fun _ p' => p' = p) p.
Proof.
  intros Hne [H3 H4 H5 H6] Hok. unfold Update. unfold wp.
  set (c0 := mkCtx (NewBatch (pebble p)) (pebble p) 0 None).
  assert (Hc0 : holds (m0 := rows (of_DB (pebble p))) (lo0 := lo) c0 σ lo z)
    by (split; unfold cur; cbn; rewrite ?NewBatch_spec; try done; apply extends_refl).
  assert (Hw : wp no_panic ('(es', idx, h) ← applyEntries fuel es 0 0; Commit ;; ret (es', idx, h))
    (fun r c' => exists σ' li, entriesStep es (0, None, 0) σ r.1.1 (r.1.2, li, r.2) σ' /\
       let m := rows (of_DB (db c')) in
       tableRows m /\ represents m σ' /\ upTo hi m /\ (base.size m <= S (S z'))%nat /\
       extends lo (rows (of_DB (pebble p))) m /\
       m !! sysLocalIndex = Some (LittleEndian_PutUint64 r.1.2) /\
       (forall i, li = Some i -> m !! sysLeaderIndex = Some (LittleEndian_PutUint64 i)) /\
       leaderIndex c' = li)
    (fun _ c' => db c' = pebble p) c0).
  { apply wp_bind. eapply wp_mono; [by eapply (applyEntries_wp es c0)| |done].
    intros [[es' idx] h] c1 (σ1 & li & Hst & Hh1 & Hd1 & Hi1 & Hl1). cbn [fst snd] in *.
    apply wp_bind. eapply wp_mono; [by eapply Commit_wp| |by intros e c2 Hd; cbn in *; congruence].
    intros [] c2 Hc. apply wp_ret. exists σ1, li. cbn [fst snd]. split; [done|].
    rewrite <- Hi1, <- Hl1. exact Hc. }
  unfold wp in Hw.
  destruct (('(es', idx, h) ← applyEntries fuel es 0 0; Commit ;; ret (es', idx, h)) c0)
    as [[[es' idx] h] c'|e c'|q]; [|by rewrite Hw; destruct p|done].
  destruct Hw as (σ' & li & Hst & R1 & R2 & R3 & R4 & R8 & R5 & R6 & R7). cbn [fst snd] in *.
  exists σ', idx, li, h. rewrite R7. destruct (0 <? h); split_and!; try done.
Qed.

End update.
