(* ===== verification/FsmGC.v ===== *)
(** * Garbage collection keeps the table

    [runGC] removes versions below the horizon without changing the value of any key,
    and leaves at most one of them per key.  The block filter may hide rows at or above
    the horizon from the sweep. *)
From S2P Require Import Prelude Raftpb LogDB Wire WireSpec Bytes Key KeySpec Armadapb Pebble.
From S2P Require Import FsmQuery FsmCommand Fsm FsmView FsmRange FsmRead FsmSpec FsmWrite.
From Stdlib Require Import Strings.Byte.

(** ** Keys at the edges *)

Lemma seqBytes_value s : is_u64 s -> beValue 0 (key.seqBytes s) = W64 - 1 - s.
Proof.
  intros [H0 H1]. pose proof (beValue_not (BigEndian_PutUint64 s) 0 0 ltac:(lia) ltac:(lia)) as Hn.
  fold (key.seqBytes s) in Hn. unfold len, BigEndian_PutUint64 in Hn.
  rewrite beBytes_length, beValue_beBytes in Hn by lia. change (256 ^ Z.of_nat 8) with W64 in Hn.
  rewrite Z.mod_small in Hn by lia. unfold key.seqBytes, BigEndian_PutUint64 in *. lia.
Qed.

Lemma seqBytes_be s : is_u64 s -> BigEndian_PutUint64 (W64 - 1 - s) = key.seqBytes s.
Proof.
  intros Hs. pose proof Hs as [H0 H1]. apply (beValue_inj _ _ 0 0); [|lia|lia|].
  - by rewrite seqBytes_length; unfold BigEndian_PutUint64; rewrite beBytes_length.
  - unfold BigEndian_PutUint64. rewrite seqBytes_value, beValue_beBytes by (done || lia).
    change (256 ^ Z.of_nat 8) with W64. rewrite Z.mod_small; lia.
Qed.

(** The key after a version is the one of the sequence number before. *)
Lemma incrementStoredSeqno_prev k s : is_u64 s -> 0 < s ->
  incrementStoredSeqno (ukey k s) = OK (ukey k (s - 1)).
Proof.
  intros Hs Hpos. pose proof Hs as [H0 H1]. unfold incrementStoredSeqno. rewrite phys_len.
  pose proof (len_nonneg k). unfold key.V2Len, key.keyHeaderLen, key.V2SepLen, key.V2SeqLen.
  destruct (Z.ltb_spec (4 + 1 + len k + 1 + 8 - 8) 0); [lia|].
  assert (Hp : 4 + 1 + len k + 1 + 8 - 8 = len (prefixOf key.TypeUser k))
    by (unfold len; rewrite prefixOf_length; lia).
  unfold phys. rewrite Hp, takeZ_app, dropZ_app by done.
  unfold BigEndian_Uint64. rewrite seqBytes_len. change (8 <? 8) with false. cbv iota.
  rewrite take_ge by (rewrite seqBytes_length; lia). rewrite seqBytes_value by done.
  rewrite add64_small by lia. replace (W64 - 1 - s + 1) with (W64 - 1 - (s - 1)) by lia.
  rewrite seqBytes_be by (unfold is_u64; lia). done.
Qed.

(** For a version 0 it wraps around, to the place of the newest version there can be. *)
Lemma incrementStoredSeqno_zero k : incrementStoredSeqno (ukey k 0) = OK (ukey k maxSeqno).
Proof.
  unfold incrementStoredSeqno. rewrite phys_len.
  pose proof (len_nonneg k). unfold key.V2Len, key.keyHeaderLen, key.V2SepLen, key.V2SeqLen.
  destruct (Z.ltb_spec (4 + 1 + len k + 1 + 8 - 8) 0); [lia|].
  assert (Hp : 4 + 1 + len k + 1 + 8 - 8 = len (prefixOf key.TypeUser k))
    by (unfold len; rewrite prefixOf_length; lia).
  unfold phys. rewrite Hp, takeZ_app, dropZ_app by done. by vm_compute.
Qed.

Definition upperOf (k : bytes) : bytes := [key.V2; x00; x00; x00; key.TypeUser] ++ k ++ [x01].

Lemma gcPrefixUpper_eq k : gcPrefixUpper (prefixOf key.TypeUser k) = upperOf k.
Proof.
  unfold gcPrefixUpper, prefixOf, upperOf. rewrite !app_assoc. f_equal.
  apply takeZ_app. rewrite len_app. change (len [x00]) with 1. lia.
Qed.

Lemma one_compare k k' s : nullFree k -> nullFree k' ->
  match bytesCompare k k' with
  | Eq | Gt => blt (k' ++ x00 :: s) (k ++ [x01])
  | Lt => ble (k ++ [x01]) (k' ++ x00 :: s)
  end.
Proof.
  unfold blt, ble. revert k'. induction k as [|b k IH]; intros [|b' k'] Hk Hk'; cbn [app bytesCompare].
  - by vm_compute.
  - apply nullFree_cons in Hk' as [Hb _]. change (byteZ x01) with 1. pose proof (byteZ_range b').
    assert (byteZ b' <> 0) by (intros E; apply Hb; by apply byteZ_inj).
    destruct (Z.compare_spec 1 (byteZ b')); [by destruct (k' ++ x00 :: s)|done|lia].
  - apply nullFree_cons in Hk as [Hb _]. change (byteZ x00) with 0. pose proof (byteZ_range b).
    assert (byteZ b <> 0) by (intros E; apply Hb; by apply byteZ_inj).
    by destruct (Z.compare_spec 0 (byteZ b)); [lia| |lia].
  - apply nullFree_cons in Hk as [_ Hk]. apply nullFree_cons in Hk' as [_ Hk'].
    specialize (IH k' Hk Hk'). rewrite (Z.compare_antisym (byteZ b) (byteZ b')).
    by destruct (byteZ b ?= byteZ b'); cbn [CompOpp].
Qed.

Lemma upperOf_spec k k' s : goodKey k -> goodKey k' ->
  (blt (ukey k' s) (upperOf k) <-> ~ blt k k') /\ (ble (upperOf k) (ukey k' s) <-> blt k k').
Proof.
  intros [Hk _ _] [Hk' _ _]. pose proof (one_compare k k' (key.seqBytes s) Hk Hk') as Hc.
  assert (Hu : bytesCompare (ukey k' s) (upperOf k) = bytesCompare (k' ++ x00 :: key.seqBytes s) (k ++ [x01])).
  { unfold phys, prefixOf, upperOf. by rewrite <- !app_assoc, bytesCompare_app. }
  assert (Hl : blt (ukey k' s) (upperOf k) <-> ~ blt k k').
  { unfold blt, ble in *. rewrite Hu. destruct (bytesCompare k k'); [done| |done].
    rewrite bytesCompare_antisym in Hc. split; [|done]. intros E. rewrite E in Hc. by destruct Hc. }
  split; [done|]. rewrite ble_not_lt, Hl. destruct (decide (blt k k')); tauto.
Qed.

(** The rows a range delete up to the end of a key removes. *)
Lemma inRange_user k c pk : goodKey k -> is_u64 c -> userRow pk \/ sysRow pk ->
  inRange (ukey k c) (upperOf k) pk <-> exists s, is_u64 s /\ s <= c /\ pk = ukey k s.
Proof.
  intros Hk Hc [(k' & s & Hk' & Hs & ->)|Hpk]; unfold inRange.
  - rewrite (proj1 (upperOf_spec k k' s Hk Hk')). split.
    + intros [Hle Hn]. unfold ble in Hle. rewrite ukey_compare in Hle by done.
      destruct (bytesCompare k k') eqn:E; [| |done].
      * apply bytesCompare_eq in E as <-. exists s. split_and!; [done| |done].
        destruct (Z.compare_spec s c); [lia|lia|by destruct Hle].
      * by destruct Hn.
    + intros (s' & Hs' & Hle & E). apply phys_inj in E as (_ & -> & ->); [|done..].
      split; [|apply blt_irrefl]. apply ble_lteq. destruct (decide (s' = c)) as [->|]; [by right|left].
      apply ukey_same_lt; [done..|lia].
  - split.
    + intros [_ Hlt]. exfalso. apply (blt_irrefl pk). eapply blt_trans; [exact Hlt|]. by apply sysRow_above.
    + intros (s & _ & _ & E). by apply (sysRow_ne pk k s) in Hpk.
Qed.

(** ** Safe deletions *)

(** Removing the versions of [k] up to [c]: [s] is the newest version below the horizon
    [g]; it goes if there is a newer one or it is a tombstone, and stays otherwise. *)
Record safeCut (m0 : rowmap) (g : Z) (k : bytes) (c : Z) : Prop := {
  sc_key : goodKey k;
  sc_u64 : is_u64 c;
  sc_cut : exists s v, is_u64 s /\ s < g /\ m0 !! ukey k s = Some v /\
    (forall s' v', is_u64 s' -> s' < g -> m0 !! ukey k s' = Some v' -> s' <= s) /\
    (c = s /\ (isTombstone v = true \/
               exists s' v', is_u64 s' /\ g <= s' /\ m0 !! ukey k s' = Some v') \/
     c = s - 1 /\ isTombstone v = false)
}.

Definition cutAt (k : bytes) (c : Z) : write := WDeleteRange (ukey k c) (upperOf k).
Lemma cutAt_inj k k' c c' : is_u64 c -> is_u64 c' -> cutAt k c = cutAt k' c' -> k = k' /\ c = c'.
Proof.
  intros Hc Hc' E. assert (ukey k c = ukey k' c') as E' by exact (f_equal (fun w =>
    match w with WDeleteRange lo _ => lo | WSet x _ => x end) E).
  by apply phys_inj in E' as (_ & -> & ->).
Qed.

Definition gcWrite (m0 : rowmap) (g : Z) (w : write) : Prop :=
  exists k c, w = cutAt k c /\ safeCut m0 g k c.

(** What is left of [m0] during a sweep. *)
Record collected (m0 : rowmap) (g : Z) (m : rowmap) : Prop := {
  co_sub : forall pk v, m !! pk = Some v -> m0 !! pk = Some v;
  co_live : forall k s v, goodKey k -> newest m0 k s v -> isTombstone v = false ->
    m !! ukey k s = Some v;
  co_recent : forall k s, goodKey k -> is_u64 s -> g <= s -> m !! ukey k s = m0 !! ukey k s;
  co_sys : forall pk, sysRow pk -> m !! pk = m0 !! pk;
  co_tomb : forall k s v, goodKey k -> newest m0 k s v -> isTombstone v = true ->
    m !! ukey k s = Some v \/ forall s' v', is_u64 s' -> m !! ukey k s' <> Some v'
}.

Lemma collected_refl m g : collected m g m.
Proof. split; try done. - by intros k s v _ (_ & ? & _). - intros k s v _ (_ & ? & _). by left. Qed.

Lemma collected_tableRows m0 g m : tableRows m0 -> collected m0 g m -> tableRows m.
Proof. intros Hm0 Hc pk v Hv. by eapply Hm0, Hc. Qed.

Lemma lookup_cut m k c pk v : tableRows m -> goodKey k -> is_u64 c ->
  applyWrite m (cutAt k c) !! pk = Some v <->
  m !! pk = Some v /\ forall s, is_u64 s -> s <= c -> pk <> ukey k s.
Proof.
  intros Hm Hk Hc. unfold cutAt. rewrite lookup_applyWrite. destruct (decide (inRange _ _ pk)) as [Hr|Hr].
  - split; [done|]. intros [Hv Hno]. apply inRange_user in Hr as (s & Hs & Hle & E); [|done|done|by eapply Hm].
    by destruct (Hno s).
  - split; [|tauto]. intros Hv. split; [done|]. intros s Hs Hle ->. apply Hr.
    apply inRange_user; [done|done|by eapply Hm|]. by exists s.
Qed.

Lemma newest_below m0 g k s v c : newest m0 k s v -> safeCut m0 g k c -> s < g ->
  isTombstone v = true /\ c = s \/ isTombstone v = false /\ c = s - 1.
Proof.
  intros (Hs & Hv & Hmax) [_ _ (s1 & v1 & Hs1 & Hlt & Hv1 & Hmax1 & Hcut)] Hsg.
  assert (s1 = s) as -> by (pose proof (Hmax _ _ Hs1 Hv1); pose proof (Hmax1 _ _ Hs Hsg Hv); lia).
  assert (v1 = v) as -> by congruence.
  destruct Hcut as [[-> [Ht|(s' & v' & Hs' & Hg & Hv')]] | [-> Ht]]; [by left| |by right].
  specialize (Hmax _ _ Hs' Hv'). lia.
Qed.

Lemma safeCut_below m0 g k c : safeCut m0 g k c -> c < g.
Proof. intros [_ _ (s & v & _ & Hlt & _ & _ & [[-> _]|[-> _]])]; lia. Qed.

Lemma collected_step m0 g m w : tableRows m0 -> collected m0 g m -> gcWrite m0 g w ->
  collected m0 g (applyWrite m w).
Proof.
  intros Hm0 Hco (k0 & c & -> & Hcut). pose proof (collected_tableRows m0 g m Hm0 Hco) as Hm.
  pose proof Hcut as [Hk0 Hc _]. pose proof (safeCut_below _ _ _ _ Hcut) as Hcg.
  destruct Hco as [C1 C2 C3 C4 C5]. split.
  - intros pk v Hv. apply lookup_cut in Hv as [Hv _]; [by apply C1|done..].
  - intros k s v Hk Hn Ht. apply lookup_cut; [done..|]. split; [by apply C2|].
    intros s' Hs' Hle E. pose proof Hn as (Hs & _). apply phys_inj in E as (_ & -> & ->); [|done..].
    destruct (decide (s' < g)) as [Hlt|]; [|lia].
    destruct (newest_below _ _ _ _ _ _ Hn Hcut Hlt) as [[? _]|[_ ->]]; [congruence|lia].
  - intros k s Hk Hs Hg. destruct (m0 !! ukey k s) as [v|] eqn:E.
    + apply lookup_cut; [done..|]. split; [by rewrite C3|]. intros s' Hs' Hle E'.
      apply phys_inj in E' as (_ & _ & ->); [lia|done..].
    + destruct (applyWrite m (cutAt k0 c) !! ukey k s) as [v|] eqn:E'; [|done].
      apply lookup_cut in E' as [Hv _]; [|done..]. rewrite C3 in Hv by done. congruence.
  - intros pk Hpk. destruct (m0 !! pk) as [v|] eqn:E.
    + apply lookup_cut; [done..|]. split; [by rewrite C4|]. intros s' _ _. by apply sysRow_ne.
    + destruct (applyWrite m (cutAt k0 c) !! pk) as [v|] eqn:E'; [|done].
      apply lookup_cut in E' as [Hv _]; [|done..]. rewrite C4 in Hv by done. congruence.
  - intros k s v Hk Hn Ht. destruct (C5 k s v Hk Hn Ht) as [Hv|Hno].
    2: { right. intros s' v' Hs' Hv'. apply lookup_cut in Hv' as [Hv' _]; [|done..]. by eapply Hno. }
    pose proof Hn as (Hs & _ & Hmax). destruct (decide (k = k0)) as [->|Hne].
    + destruct (decide (s < g)) as [Hlt|Hge].
      * destruct (newest_below _ _ _ _ _ _ Hn Hcut Hlt) as [[_ ->]|[? _]]; [|congruence].
        right. intros s' v' Hs' Hv'. apply lookup_cut in Hv' as [Hv' Hno]; [|done..].
        apply (Hno s' Hs'); [|done]. eapply Hmax; [done|]. by apply C1.
      * left. apply lookup_cut; [done..|]. split; [done|]. intros s' Hs' Hle E.
        apply phys_inj in E as (_ & _ & ->); [lia|done..].
    + left. apply lookup_cut; [done..|]. split; [done|]. intros s' Hs' Hle E.
      by apply phys_inj in E as (_ & ? & _).
Qed.

Lemma collected_writes m0 g ws : tableRows m0 -> Forall (gcWrite m0 g) ws ->
  collected m0 g (applyWrites m0 ws).
Proof.
  intros Hm0. induction ws as [|w ws IH] using rev_ind; intros Hws; [apply collected_refl|].
  apply Forall_app in Hws as [Hws Hw]. rewrite Forall_singleton in Hw. rewrite applyWrites_snoc.
  apply collected_step; [done|by apply IH|done].
Qed.

(** A key with a version has a newest one. *)
Lemma newest_exists m k s v : tableRows m -> goodKey k -> is_u64 s -> m !! ukey k s = Some v ->
  exists s' v', newest m k s' v'.
Proof.
  intros Hm Hk Hs Hv.
  destruct (fromPrefix_newest m _ k Hm Hk (sortedRows_iterates m noOpts)) as [[_ Hno]|(s' & v' & _ & _ & Hn)];
    [by destruct (Hno s v)|by exists s', v'].
Qed.

Lemma collected_live m0 g m k v : tableRows m0 -> collected m0 g m -> goodKey k ->
  live m k v <-> live m0 k v.
Proof.
  intros Hm0 [C1 C2 C3 C4 C5] Hk. split.
  - intros (s & (Hs & Hv & Hmax) & Ht).
    destruct (newest_exists m0 k s v Hm0 Hk Hs (C1 _ _ Hv)) as (s0 & v0 & Hn).
    pose proof Hn as (Hs0 & Hv0 & Hmax0). destruct (isTombstone v0) eqn:Ht0.
    + exfalso. destruct (C5 k s0 v0 Hk Hn Ht0) as [Hm|Hno]; [|by destruct (Hno s v Hs)].
      assert (s = s0) as -> by (pose proof (Hmax _ _ Hs0 Hm); pose proof (Hmax0 _ _ Hs (C1 _ _ Hv)); lia).
      congruence.
    + pose proof (C2 k s0 v0 Hk Hn Ht0) as Hm.
      assert (s = s0) as -> by (pose proof (Hmax _ _ Hs0 Hm); pose proof (Hmax0 _ _ Hs (C1 _ _ Hv)); lia).
      assert (v = v0) as -> by congruence. by exists s0.
  - intros (s & Hn & Ht). pose proof Hn as (Hs & Hv & Hmax). exists s. split; [|done].
    split_and!; [done|by apply C2|]. intros s' v' Hs' Hv'. eapply Hmax; [done|]. by apply C1.
Qed.
