(* ===== verification/FsmSweep.v ===== *)
(** * The sweep

    The loop of [runGC] issues one safe deletion for every key that has a version below
    the horizon. *)
From S2P Require Import Prelude Raftpb LogDB Wire WireSpec Bytes Key KeySpec Armadapb Pebble.
From S2P Require Import FsmQuery FsmCommand Fsm FsmView FsmRange FsmRead FsmSpec FsmWrite FsmGC.
From Stdlib Require Import Strings.Byte.

Section sweep.
Context `{PebbleSpec} (m0 : rowmap) (g : Z).
Context (Hzero : forall k v, m0 !! ukey k 0 <> Some v).

(** The writes issued so far, committed or in the batch. *)
Record pending (d : DB) (b : Batch) (ws : list write) : Prop := {
  pe_safe : Forall (gcWrite m0 g) ws;
  pe_rows : exists ws0, ws = ws0 ++ writes b /\ rows (of_DB d) = applyWrites m0 ws0 }.

(** What an error leaves: some of the writes. *)
Definition partly (d : DB) : Prop :=
  exists ws, Forall (gcWrite m0 g) ws /\ rows (of_DB d) = applyWrites m0 ws.

Lemma pending_partly d b ws : pending d b ws -> partly d.
Proof. intros [Hs (ws0 & -> & Hr)]. apply Forall_app in Hs as [Hs _]. by exists ws0. Qed.

Lemma commitBatch_wp d b ws : pending d b ws ->
  wp no_panic (commitBatch b) (fun b' d' => pending d' b' ws /\ writes b' = []) (fun _ d' => partly d') d.
Proof.
  intros Hp. pose proof Hp as [Hs (ws0 & -> & Hr)]. unfold commitBatch. rewrite Count_spec.
  destruct (Z.eqb_spec (len (writes b)) 0) as [E|_].
  { apply wp_ret. split; [done|]. by destruct (writes b). }
  apply wp_bind, wp_readr. pose proof (Commit_spec b d) as Hc.
  destruct (batch_Commit b d) as [d'|e|p]; [|by eapply pending_partly|done].
  apply wp_bind, wp_modify, wp_ret. rewrite NewBatch_spec. split; [split|done]; [done|].
  exists (ws0 ++ writes b). rewrite NewBatch_spec, app_nil_r. split; [done|].
  by rewrite Hc, Hr, applyWrites_app.
Qed.

Lemma pending_delete d b ws k c : pending d b ws -> safeCut m0 g k c ->
  match batch_DeleteRange (ukey k c) (upperOf k) b with
  | OK b' => pending d b' (ws ++ [cutAt k c])
  | ERR _ => True
  | PANIC _ => False
  end.
Proof.
  intros [Hs (ws0 & -> & Hr)] Hcut. pose proof (DeleteRange_spec (ukey k c) (upperOf k) b) as Hd.
  destruct (batch_DeleteRange (ukey k c) (upperOf k) b) as [b'|e|p]; [|done..]. destruct Hd as [Hw _].
  split.
  - apply Forall_app. split; [done|]. apply Forall_singleton. by exists k, c.
  - exists ws0. by rewrite Hw, app_assoc.
Qed.

(** ** The rows of the sweep *)

Section loop.
Context (A : list row).
Context (HA : ascendingRows A) (HU : userRows A).
Context (Hsound : forall pk v, (pk, v) ∈ A -> m0 !! pk = Some v).
Context (Hfull : forall k s v, goodKey k -> is_u64 s -> s < g -> m0 !! ukey k s = Some v -> (ukey k s, v) ∈ A).

(** The key has been dealt with. *)
Definition coveredBy (ws : list write) (k : bytes) : Prop :=
  exists c, safeCut m0 g k c /\ cutAt k c ∈ ws.

Lemma coveredBy_app ws w k : coveredBy ws k -> coveredBy (ws ++ [w]) k.
Proof. intros (c & Hc & Hin). exists c. split; [done|]. apply elem_of_app. by left. Qed.

(** The state of the loop: an old version behind the iterator is of a key that has been
    dealt with and has no row ahead. *)
Record sweeping (it : Iterator) (lastPrefix : bytes) (above : bool) (ws : list write) : Prop := {
  sw_all : it_all it = A;
  sw_pre : exists pre, A = pre ++ it_rest it /\
    forall k s v, goodKey k -> is_u64 s -> s < g -> (ukey k s, v) ∈ pre ->
      coveredBy ws k /\ forall s' v', is_u64 s' -> (ukey k s', v') ∉ it_rest it;
  sw_above : above = true -> forall k, lastPrefix = prefixOf key.TypeUser k ->
    exists s v, is_u64 s /\ g <= s /\ m0 !! ukey k s = Some v }.

(** The first old version of a key the sweep meets is the newest one below the horizon. *)
Lemma first_old it lp above ws k s v l : sweeping it lp above ws -> goodKey k -> is_u64 s ->
  it_rest it = (ukey k s, v) :: l -> s < g ->
  m0 !! ukey k s = Some v /\
  forall s' v', is_u64 s' -> s' < g -> m0 !! ukey k s' = Some v' -> s' <= s.
Proof.
  intros [_ (pre & Ep & Hpre) _] Hk Hs E Hlt. split.
  { apply Hsound. rewrite Ep, E. apply elem_of_app. right. left. }
  intros s' v' Hs' Hlt' Hv'. apply Hfull in Hv'; [|done..]. rewrite Ep in Hv'.
  apply elem_of_app in Hv' as [Hin|Hin].
  - destruct (Hpre k s' v' Hk Hs' Hlt' Hin) as [_ Hno]. destruct (Hno s v Hs). rewrite E. left.
  - rewrite E in Hin. apply elem_of_cons in Hin as [E'|Hin].
    { apply row_inj in E' as (_ & -> & _); [lia|done..]. }
    rewrite Ep, E in HA. apply ascendingRows_app in HA as [Hl _].
    destruct (later_row k s v l k s' v') as [[_ ?]|[Hlt2 _]]; try done; [lia|by apply blt_irrefl in Hlt2].
Qed.

Lemma from_suffix pk l : ascendingRows l -> exists pre, l = pre ++ from pk l.
Proof.
  induction l as [|r l IH]; [by exists []|]. intros [Hr Hl]%ascending_cons.
  unfold from. rewrite filter_cons. destruct (decide (ble pk r.1)) as [Hle|].
  - exists []. cbn. f_equal. symmetry. apply filter_id. intros r' Hr'.
    apply ble_lteq. left. eapply ble_blt_trans; [done|by apply Hr].
  - destruct (IH Hl) as [pre E]. exists (r :: pre). cbn. by f_equal.
Qed.

(** After the deletion the sweep goes on with the next key. *)
Lemma seek_next it lp above ws k s v l c : sweeping it lp above ws -> goodKey k -> is_u64 s ->
  it_rest it = (ukey k s, v) :: l -> safeCut m0 g k c ->
  let it' := (SeekGE (upperOf k) it).2 in
  (forall ab, (ab = true -> exists s v, is_u64 s /\ g <= s /\ m0 !! ukey k s = Some v) ->
     sweeping it' (prefixOf key.TypeUser k) ab (ws ++ [cutAt k c])) /\
  (length (it_rest it') <= length l)%nat.
Proof.
  intros [Ha (pre & Ep & Hpre) _] Hk Hs E Hcut. cbv zeta.
  destruct (SeekGE_spec (upperOf k) it) as [Hr Hall]. rewrite Ha in Hr, Hall.
  assert (Hkey : forall k' s' v', goodKey k' -> (ukey k' s', v') ∈ from (upperOf k) A -> blt k k').
  { intros k' s' v' Hk' Hin. apply list_elem_of_filter in Hin as [Hle _]. cbn [fst] in Hle.
    by apply (upperOf_spec k k' s') in Hle. }
  pose proof HA as HA'. rewrite Ep, E in HA'. apply ascendingRows_app in HA' as [Hl Hlt].
  split.
  - intros ab Hab. split; [done| |].
    + destruct (from_suffix (upperOf k) A HA) as [pre' Ep']. exists pre'. rewrite Hr. split; [done|].
      intros k' s' v' Hk' Hs' Hlt' Hin.
      assert (Hnk : ~ blt k k').
      { intros Hkk. pose proof HA as HA2. rewrite Ep' in HA2.
        assert (Hin2 : (ukey k' s', v') ∈ from (upperOf k) A).
        { apply list_elem_of_filter. cbn [fst]. split; [by apply upperOf_spec|].
          rewrite Ep'. apply elem_of_app. by left. }
        apply ascendingRows_app in HA2 as [_ HA2]. by apply (HA2 _ _ Hin), blt_irrefl in Hin2. }
      split.
      * assert (Hin2 : (ukey k' s', v') ∈ A) by (rewrite Ep'; apply elem_of_app; by left).
        rewrite Ep in Hin2. apply elem_of_app in Hin2 as [Hin2|Hin2].
        -- apply coveredBy_app. by eapply Hpre.
        -- assert (k' = k) as ->.
           { rewrite E in Hin2. apply elem_of_cons in Hin2 as [E2|Hin2].
             - by apply row_inj in E2 as (-> & _).
             - destruct (later_row k s v l k' s' v') as [[-> _]|[? _]]; try done. }
           exists c. split; [done|]. apply elem_of_app. right. left.
      * intros s2 v2 Hs2 Hin2. by apply Hnk, (Hkey k' s2 v2).
    + intros Hab' k' Ek. apply prefixOf_inj in Ek as [_ <-]. by apply Hab.
  - rewrite Hr, Ep, E. unfold from. rewrite filter_app, filter_none.
    + rewrite filter_cons_False; [apply length_filter|]. cbn [fst].
      rewrite (proj2 (upperOf_spec k k s Hk Hk)). apply blt_irrefl.
    + intros r Hin Hle. apply (blt_irrefl r.1). eapply blt_trans; [apply (Hlt r (ukey k s, v) Hin); left|].
      cbn [fst]. eapply blt_ble_trans; [|exact Hle]. apply upperOf_spec; [done..|apply blt_irrefl].
Qed.

Lemma next_recent it lp above ws k s v l : sweeping it lp above ws -> goodKey k -> is_u64 s ->
  it_rest it = (ukey k s, v) :: l -> g <= s ->
  sweeping (Next it).2 (prefixOf key.TypeUser k) true ws /\ it_rest (Next it).2 = l.
Proof.
  intros [Ha (pre & Ep & Hpre) _] Hk Hs E Hge. destruct (Next_spec it _ _ E) as [Hr Hall].
  split; [|done]. split; [congruence| |].
  - exists (pre ++ [(ukey k s, v)]). rewrite Hr, <- app_assoc. split; [by rewrite Ep, E|].
    intros k' s' v' Hk' Hs' Hlt [Hin|Hin]%elem_of_app.
    + destruct (Hpre k' s' v' Hk' Hs' Hlt Hin) as [Hc Hno]. split; [done|].
      intros s2 v2 Hs2 Hin2. apply (Hno s2 v2 Hs2). rewrite E. by right.
    + apply list_elem_of_singleton in Hin. apply row_inj in Hin as (_ & -> & _); [lia|done..].
  - intros _ k' Ek. apply prefixOf_inj in Ek as [_ <-]. exists s, v. split_and!; [done..|].
    apply Hsound. rewrite Ep, E. apply elem_of_app. right. left.
Qed.

(** The place the sweep deletes from is a safe cut. *)
Lemma choose_cut k s v above : goodKey k -> is_u64 s -> 0 < s -> s < g ->
  m0 !! ukey k s = Some v ->
  (forall s' v', is_u64 s' -> s' < g -> m0 !! ukey k s' = Some v' -> s' <= s) ->
  (above = true -> exists s v, is_u64 s /\ g <= s /\ m0 !! ukey k s = Some v) ->
  exists c, (if above || isTombstone v then OK (ukey k s) else incrementStoredSeqno (ukey k s)) =
    OK (ukey k c) /\ safeCut m0 g k c.
Proof.
  intros Hk Hs Hpos Hlt Hm Hmax Hab. destruct (above || isTombstone v) eqn:Eab.
  - exists s. split; [done|]. split; [done..|]. exists s, v. split_and!; try done. left. split; [done|].
    apply orb_true_iff in Eab as [Ea|Et]; [right; by apply Hab|by left].
  - apply orb_false_iff in Eab as [_ Et]. exists (s - 1). rewrite incrementStoredSeqno_prev by done.
    split; [done|]. split; [done|unfold is_u64 in *; lia|]. exists s, v. split_and!; try done. by right.
Qed.

(** The part of a stored key before the sequence number. *)
Lemma stored_prefix k s : (len (ukey k s) - key.V2SeqLen <? 0) = false /\
  takeZ (len (ukey k s) - key.V2SeqLen) (ukey k s) = prefixOf key.TypeUser k.
Proof.
  rewrite phys_len. pose proof (len_nonneg k).
  unfold key.V2Len, key.keyHeaderLen, key.V2SepLen, key.V2SeqLen. split; [lia|].
  unfold phys. apply takeZ_app. unfold len. rewrite prefixOf_length. lia.
Qed.

(** The flag of the loop is set only for a key of which a recent version has been seen. *)
Lemma above_seen it lp above ws k : sweeping it lp above ws ->
  (if bool_decide (lp = prefixOf key.TypeUser k) then above else false) = true ->
  exists s v, is_u64 s /\ g <= s /\ m0 !! ukey k s = Some v.
Proof.
  intros Hsw. destruct (decide (lp = prefixOf key.TypeUser k)) as [El|]; [|by rewrite bool_decide_eq_false_2].
  rewrite bool_decide_eq_true_2 by done. intros Hb. by eapply Hsw.
Qed.

Lemma gcLoop_wp fuel : forall it valid lp above ws b d,
  sweeping it lp above ws -> pending d b ws -> valid = Valid it -> (length (it_rest it) < fuel)%nat ->
  wp no_panic (gcLoop g fuel it valid lp above b)
    (fun b' d' => exists ws', pending d' b' ws' /\
       forall k s v, goodKey k -> is_u64 s -> s < g -> m0 !! ukey k s = Some v -> coveredBy ws' k)
    (fun _ d' => partly d') d.
Proof.
  induction fuel as [|fuel IH]; intros it valid lp above ws b d Hsw Hp Hv Hf; [lia|]. cbn [gcLoop].
  destruct (it_rest it) as [|[pk v] l] eqn:E.
  { rewrite Valid_nil in Hv by done. subst valid. apply wp_ret. exists ws. split; [done|].
    intros k s v Hk Hs Hlt Hm. destruct Hsw as [_ (pre & Ep & Hpre) _].
    rewrite E, app_nil_r in Ep. eapply Hpre; [done..|]. rewrite <- Ep. by apply Hfull. }
  rewrite (Valid_cons _ _ _ E) in Hv. subst valid. cbn [negb].
  assert (Hrow : (pk, v) ∈ A) by (destruct Hsw as [_ (pre & -> & _) _]; rewrite E; apply elem_of_app; right; left).
  pose proof (proj1 (Forall_forall _ _) HU _ Hrow) as (k & s & Hk & Hs & Epk). cbn [fst] in Epk. subst pk.
  destruct (Key_spec it _ _ _ E) as [Ekey Eval]. rewrite Ekey, Eval.
  apply wp_bind, wp_readr. rewrite DecodeBytes_phys by done. cbn [key.KeyType key.Seqno].
  rewrite bool_decide_eq_true_2 by done. cbn [negb]. destruct (stored_prefix k s) as [-> ->].
  cbn in Hf. destruct (Z.leb_spec g s) as [Hge|Hlt].
  { destruct (next_recent it lp above ws k s v l) as [Hsw' Hr']; [done..|].
    pose proof (Next_valid it) as Hnv. destruct (Next it) as [ok it']. cbn [fst snd] in *.
    apply (IH it' ok _ true ws b d); [done..|]. rewrite Hr'. lia. }
  destruct (first_old it lp above ws k s v l) as [Hm Hmax]; [done..|].
  pose proof (above_seen it lp above ws k Hsw) as Hab.
  set (ab := if bool_decide _ then above else false) in *.
  assert (0 < s) as Hpos by (destruct (decide (s = 0)) as [->|]; [by destruct (Hzero k v)|unfold is_u64 in Hs; lia]).
  apply wp_bind, wp_readr. rewrite gcPrefixUpper_eq.
  destruct (choose_cut k s v ab) as (c & -> & Hcut); [done..|].
  apply wp_bind, wp_readr. pose proof (pending_delete d b ws k c Hp Hcut) as Hd.
  destruct (batch_DeleteRange (ukey k c) (upperOf k) b) as [b1|e|p]; [|by eapply pending_partly|done].
  destruct (seek_next it lp above ws k s v l c) as [Hsw' Hlen]; [done..|].
  apply wp_bind. eapply wp_mono with (E := fun _ d' => partly d')
    (Q := fun b2 d2 => pending d2 b2 (ws ++ [cutAt k c])).
  - destruct (maxBatchSize <=? batch_Len b1); [|by apply wp_ret].
    eapply wp_mono; [by apply commitBatch_wp| |done]. by intros b2 d2 [Hp2 _].
  - intros b2 d2 Hp2. pose proof (SeekGE_valid (upperOf k) it) as Hsv.
    destruct (SeekGE (upperOf k) it) as [ok it']. cbn [fst snd] in *.
    eapply (IH it' ok _ ab); [by apply Hsw'|done|done|lia].
  - done.
Qed.

End loop.
End sweep.

(** ** The collection *)

Section gc.
Context `{PebbleSpec} (fuel : nat).

(** At most one version of a key below the horizon, and no tombstone. *)
Definition swept (g : Z) (m : rowmap) : Prop :=
  forall k s v, goodKey k -> is_u64 s -> s < g -> m !! ukey k s = Some v ->
    isTombstone v = false /\ forall s' v', is_u64 s' -> s' < g -> m !! ukey k s' = Some v' -> s' = s.

Lemma swept_writes m0 g ws : tableRows m0 -> Forall (gcWrite m0 g) ws ->
  (forall k s v, goodKey k -> is_u64 s -> s < g -> m0 !! ukey k s = Some v -> coveredBy m0 g ws k) ->
  swept g (applyWrites m0 ws).
Proof.
  intros Hm0 Hws Hcov.
  assert (Hgone : forall k c s v, safeCut m0 g k c -> cutAt k c ∈ ws -> is_u64 s -> s <= c ->
    applyWrites m0 ws !! ukey k s <> Some v).
  { clear Hcov. induction ws as [|w ws IH] using rev_ind; intros k c s v Hcut Hin Hs Hle;
      [by apply elem_of_nil in Hin|].
    apply Forall_app in Hws as [Hws Hw]. rewrite Forall_singleton in Hw.
    rewrite applyWrites_snoc. destruct Hw as (k1 & c1 & -> & Hcut1). pose proof Hcut1 as [Hk1 Hc1 _].
    pose proof (collected_tableRows _ _ _ Hm0 (collected_writes m0 g ws Hm0 Hws)) as Hm.
    intros Hv. apply lookup_cut in Hv as [Hv Hno]; [|done..].
    apply elem_of_app in Hin as [Hin|Hin]; [by destruct (IH Hws k c s v Hcut Hin Hs Hle)|].
    apply list_elem_of_singleton, cutAt_inj in Hin as [-> ->]; [by apply (Hno s)|apply Hcut|done]. }
  pose proof (collected_writes m0 g ws Hm0 Hws) as [Hsub _ _ _ _].
  intros k s v Hk Hs Hlt Hv. destruct (Hcov k s v Hk Hs Hlt (Hsub _ _ Hv)) as (c & Hcut & Hin).
  pose proof Hcut as [_ _ (s1 & v1 & Hs1 & Hlt1 & Hv1 & Hmax & Hcase)].
  assert (Hone : forall s' v', is_u64 s' -> s' < g -> applyWrites m0 ws !! ukey k s' = Some v' ->
    c < s' /\ s' <= s1).
  { intros s' v' Hs' Hlt' Hv'. split; [|by eapply Hmax, Hsub].
    destruct (decide (c < s')); [done|]. destruct (Hgone k c s' v'); [done..|lia|done]. }
  pose proof (Hone s v Hs Hlt Hv) as H1. destruct Hcase as [[-> _]|[-> Ht]]; [lia|].
  assert (s1 = s) as -> by lia. split.
  - assert (v = v1) as -> by (apply Hsub in Hv; congruence). done.
  - intros s' v' Hs' Hlt' Hv'. pose proof (Hone s' v' Hs' Hlt' Hv'). lia.
Qed.

Lemma gc_bounds g pk : userRow pk -> inBounds (gcOptions g) pk.
Proof.
  intros (k & s & Hk & Hs & ->). unfold inBounds, gcOptions. cbn [LowerBound UpperBound].
  rewrite wildUpper_eq. unfold minEncodedUserKey. rewrite mustEncodeKey_phys. split.
  - intros lo [= <-]. unfold ble, phys, prefixOf. rewrite <- !app_assoc, bytesCompare_app.
    destruct k as [|b k]; [by destruct Hk|]. destruct Hk as [Hn _ _].
    apply nullFree_cons in Hn as [Hb _]. cbn [app bytesCompare key.V2MinKey].
    change (byteZ x00) with 0. pose proof (byteZ_range b).
    assert (byteZ b <> 0) by (intros E; apply Hb; by apply byteZ_inj).
    by destruct (Z.compare_spec 0 (byteZ b)); [lia| |lia].
  - intros hi [= <-]. apply ukey_below_wild, Hk.
Qed.

Lemma gc_unfiltered g k s : is_u64 s -> is_u64 g -> s < g -> mayContain (gcOptions g) (ukey k s).
Proof.
  intros Hs Hg Hlt f Hf. apply list_elem_of_singleton in Hf as ->. cbn [f_upper f_lower NewMVCCSeqnoFilter].
  unfold MapPointKey. destruct (phys_head key.TypeUser k s) as [b Hb]. rewrite Hb, <- Hb.
  rewrite phys_len, bool_decide_eq_true_2 by done. pose proof (len_nonneg k).
  unfold key.V2Len, key.keyHeaderLen, key.V2SepLen, key.V2SeqLen.
  destruct (Z.leb_spec (4 + 1 + len k + 1 + 8) 8); [lia|]. cbn [orb negb fst snd].
  assert (decodeV2Seqno (ukey k s) = s) as ->.
  { unfold decodeV2Seqno. rewrite phys_len. unfold phys. rewrite dropZ_app; [by apply seqno_seqBytes|].
    unfold len at 2. rewrite prefixOf_length.
    unfold key.V2Len, key.keyHeaderLen, key.V2SepLen, key.V2SeqLen, len. lia. }
  unfold is_u64 in *. rewrite add64_small by lia. lia.
Qed.

(** What a collection must leave of the rows [m] of a table. *)
Record gcKept (g : Z) (m m' : rowmap) : Prop := {
  gk_live : forall k v, goodKey k -> live m' k v <-> live m k v;
  gk_recent : forall k s, goodKey k -> is_u64 s -> g <= s -> m' !! ukey k s = m !! ukey k s;
  gk_sys : forall pk, sysRow pk -> m' !! pk = m !! pk;
  gk_sub : forall pk v, m' !! pk = Some v -> m !! pk = Some v
}.

Lemma partly_kept m g d' : tableRows m -> partly m g d' -> gcKept g m (rows (of_DB d')).
Proof.
  intros Hm (ws & Hws & ->). pose proof (collected_writes m g ws Hm Hws) as Hco.
  pose proof Hco as [C1 _ C3 C4 _]. split; [|done..]. intros k v Hk. by apply (collected_live m g).
Qed.

(** The sweep iterates over rows of users only. *)
Lemma gc_userRows m g l : tableRows m ->
  (forall pk v, (pk, v) ∈ l -> m !! pk = Some v /\ inBounds (gcOptions g) pk) -> userRows l.
Proof.
  intros Hm Hsound. apply Forall_forall. intros [pk v] Hin. destruct (Hsound _ _ Hin) as [Hmv [_ Hb]].
  destruct (Hm _ _ Hmv) as [|Hy]; [done|]. exfalso. specialize (Hb _ eq_refl). cbn [fst] in *.
  rewrite wildUpper_eq in Hb. apply (blt_irrefl pk). eapply blt_trans; [exact Hb|]. by apply sysRow_above.
Qed.

(** C10: garbage collection does not change the table.  On every store of well-formed
    rows without a version 0, [runGC] with any horizon and whatever rows at or above the
    horizon the block filter hides neither panics nor runs out of fuel; also when it
    stops with an error halfway, every key has the same value as before, the rows at or
    above the horizon and those of the system are the same, and no row is added; when it
    succeeds, every key has at most one version below the horizon, and no tombstone. *)
Theorem runGC_keeps g (d : DB) :
  tableRows (rows (of_DB d)) -> is_u64 g ->
  (forall k v, rows (of_DB d) !! ukey k 0 <> Some v) -> (size (rows (of_DB d)) < fuel)%nat ->
  wp no_panic (runGC fuel g)
    (fun _ d' => gcKept g (rows (of_DB d)) (rows (of_DB d')) /\ swept g (rows (of_DB d')))
    (fun _ d' => gcKept g (rows (of_DB d)) (rows (of_DB d'))) d.
Proof.
  intros Hm Hg Hz Hf. set (m := rows (of_DB d)) in *.
  assert (Hkept : forall d', partly m g d' -> gcKept g m (rows (of_DB d'))) by (intros d'; by apply partly_kept).
  assert (H0d : partly m g d) by (exists []; by split).
  unfold runGC. destruct (Z.eqb_spec g 0) as [->|Hne].
  { apply wp_ret. split; [by apply Hkept|]. intros k s v _ Hs Hlt. unfold is_u64 in Hs. lia. }
  apply wp_bind, wp_gets, wp_bind, wp_readr.
  pose proof (NewIter_spec (of_Snapshot (NewSnapshot d)) (gcOptions g)) as Hit.
  destruct (NewIter (of_Snapshot (NewSnapshot d)) (gcOptions g)) as [it|e|p]; [|by apply Hkept|done].
  rewrite rows_Snapshot in Hit. fold m in Hit. destruct Hit as [HA Hsound Hcomplete].
  apply wp_bind, wp_gets. pose proof (First_valid it) as Hv. destruct (First_spec it) as [Hr Ha].
  pose proof (iterates_length m (gcOptions g) (it_all it)) as Hlen.
  destruct (First it) as [ok it1]. cbn [fst snd] in *. apply wp_bind.
  pose proof (gc_userRows m g _ Hm Hsound) as HU.
  eapply wp_mono; [eapply (gcLoop_wp m g Hz (it_all it) HA HU)|..].
  - intros pk v Hin. by apply Hsound.
  - intros k s v Hk Hs Hlt Hmv. apply Hcomplete; [done|apply gc_bounds; by exists k, s|by apply gc_unfiltered].
  - split; [done| |done]. exists []. rewrite Hr. split; [done|]. intros k s v _ _ _ Hin. by apply elem_of_nil in Hin.
  - split; [constructor|]. exists []. by rewrite NewBatch_spec.
  - done.
  - rewrite Hr. assert (length (it_all it) <= size m)%nat by (by apply Hlen). lia.
  - intros b d' (ws & Hp & Hcov). apply wp_bind. eapply wp_mono; [by apply commitBatch_wp| |].
    + intros b' d2 [Hp2 Hb']. apply wp_ret. pose proof Hp2 as [Hs (ws0 & Ews & Er)].
      rewrite Hb', app_nil_r in Ews. subst ws0. split; [apply Hkept; by exists ws|].
      rewrite Er. by apply swept_writes.
    + intros e d2. apply Hkept.
  - intros e d'. apply Hkept.
Qed.

End gc.
