(* ===== verification/FsmStream.v ===== *)
(** * What a snapshot of a table streams

    [commandSnapshot] and [commandIncrementalSnapshot] write one command per key, for
    its newest version: the full stream those of the live keys, the incremental one
    those of the keys changed after its base, deletions included. *)
From S2P Require Import Prelude Raftpb LogDB Wire WireSpec Bytes Key KeySpec Armadapb Pebble.
From S2P Require Import FsmQuery FsmCommand FsmView FsmRange FsmRead FsmSpec.
From Stdlib Require Import Strings.Byte.
Import armadapb.

(** A record: a key, the sequence number of its version and the value. *)
Abbreviation record := (bytes * Z * bytes)%type.
Definition rec_Key (r : record) : bytes := r.1.1.
Definition rec_Seqno (r : record) : Z := r.1.2.
Definition rec_Value (r : record) : bytes := r.2.

(** The record of a row. *)
Definition recordOf (r : row) : record := (userOf r.1, key.DecodeV2Seqno r.1, r.2).
Definition recordsOf (l : list row) : list record := map recordOf (heads l).

(** The newest versions of a store that satisfy [P], one record per key. *)
Record newVersions (m : rowmap) (P : record -> bool) (L : list record) : Prop := {
  nv_nodup : NoDup (map rec_Key L);
  nv_elem : forall k s v, (k, s, v) ∈ L <-> goodKey k /\ newest m k s v /\ P (k, s, v) = true }.

Definition isLive (r : record) : bool := negb (isTombstone (rec_Value r)).
Definition changedAfter (base : Z) (r : record) : bool := base <? rec_Seqno r.

(** ** The rows of a store in order: those of users, then those of the system *)

Lemma sysRow_after pk k s : sysRow pk -> goodKey k -> blt (ukey k s) pk.
Proof.
  intros Hpk _. apply sysRow_phys in Hpk as [name ->]. unfold phys, prefixOf.
  rewrite <- !app_assoc. by apply type_compare.
Qed.

Lemma rows_split l : ascendingRows l -> (forall r, r ∈ l -> userRow r.1 \/ sysRow r.1) ->
  exists U Y, l = U ++ Y /\ userRows U /\ Forall (fun r => sysRow r.1) Y.
Proof.
  induction l as [|r l IH]; intros Hl Hr; [exists [], []; by repeat constructor|].
  pose proof Hl as [Hlt Hl']%ascending_cons.
  destruct (Hr r ltac:(left)) as [Hu|Hy].
  - destruct IH as (U & Y & -> & HU & HY); [done|intros r' Hr'; apply Hr; by right|].
    exists (r :: U), Y. split_and!; [done|by constructor|done].
  - exists [], (r :: l). split_and!; [done|constructor|]. apply Forall_forall. intros r' Hr'.
    destruct (Hr r' Hr') as [(k & s & Hk & _ & E)|]; [|done].
    apply elem_of_cons in Hr' as [->|Hr']; [done|]. specialize (Hlt r' Hr'). exfalso.
    apply (blt_irrefl r.1). eapply blt_trans; [exact Hlt|]. rewrite E. by apply sysRow_after.
Qed.

Lemma after_sys k Y : goodKey k -> Forall (fun r => sysRow r.1) Y -> after (lastKey k) Y = Y.
Proof.
  intros Hk HY. apply after_all. intros r Hr. rewrite Forall_forall in HY.
  apply sysRow_after; [by apply HY|done].
Qed.

Lemma recordsOf_cons k s v l : goodKey k -> is_u64 s -> userRows l ->
  ascendingRows ((ukey k s, v) :: l) ->
  recordsOf ((ukey k s, v) :: l) = (k, s, v) :: recordsOf (after (lastKey k) l).
Proof.
  intros Hk Hs Hu Hl. unfold recordsOf. rewrite heads_cons by done. cbn [map]. f_equal.
  unfold recordOf. cbn [fst snd]. by rewrite userOf_ukey, DecodeV2Seqno_phys.
Qed.

Lemma recordsOf_elem l k s v : userRows l -> ascendingRows l ->
  (k, s, v) ∈ recordsOf l <-> goodKey k /\ is_u64 s /\ (ukey k s, v) ∈ heads l.
Proof.
  intros Hu Hl. unfold recordsOf. rewrite list_elem_of_fmap. split.
  - intros ([pk v'] & E & Hin). pose proof (heads_elem _ _ Hu Hl Hin) as Hr.
    eapply Forall_forall in Hu as (k' & s' & Hk' & Hs' & E'); [|exact Hr]. cbn [fst] in E'. subst pk.
    unfold recordOf in E. cbn [fst snd] in E. rewrite userOf_ukey, DecodeV2Seqno_phys in E by done.
    by injection E as -> -> ->.
  - intros (Hk & Hs & Hin). exists (ukey k s, v). split; [|done]. unfold recordOf. cbn [fst snd].
    by rewrite userOf_ukey, DecodeV2Seqno_phys.
Qed.

Lemma recordsOf_nodup l : userRows l -> ascendingRows l -> NoDup (map rec_Key (recordsOf l)).
Proof.
  revert l. apply (rows_ind (fun l => NoDup (map rec_Key (recordsOf l)))); [constructor|].
  intros k s v l Hk Hs Hu Hl IH. rewrite recordsOf_cons by done. cbn [map]. constructor; [|done].
  intros ([[k' s'] v'] & E & Hin)%list_elem_of_fmap. cbn in E. subst k'.
  pose proof Hl as [_ Hl']%ascending_cons.
  apply recordsOf_elem in Hin as (_ & Hs' & Hin); [|by apply after_userRows|by apply after_ascending].
  apply heads_elem in Hin; [|by apply after_userRows|by apply after_ascending].
  by apply after_key, blt_irrefl in Hin.
Qed.

Lemma filter_true_cons {A} (P : A -> bool) x l :
  filter (fun x => P x = true) (x :: l) = (if P x then [x] else []) ++ filter (fun x => P x = true) l.
Proof.
  rewrite filter_cons. destruct (P x) eqn:E; [by rewrite decide_True|by rewrite decide_False].
Qed.

Lemma map_filter_nodup (P : record -> bool) L : NoDup (map rec_Key L) ->
  NoDup (map rec_Key (filter (fun r => P r = true) L)).
Proof.
  induction L as [|r L IH]; [done|]. cbn [map]. intros [Hr HL]%NoDup_cons. rewrite filter_cons.
  destruct (decide (P r = true)); [|by apply IH]. cbn [map]. constructor; [|by apply IH].
  intros (r' & E & [_ Hin]%list_elem_of_filter)%list_elem_of_fmap. apply Hr. rewrite E.
  by apply list_elem_of_fmap_2.
Qed.

(** The records of the rows of a whole store are its newest versions. *)
Lemma recordsOf_newVersions m l U Y P : tableRows m -> iterates m noOpts l -> l = U ++ Y ->
  userRows U -> Forall (fun r => sysRow r.1) Y ->
  newVersions m P (filter (fun r => P r = true) (recordsOf U)).
Proof.
  intros Hm [Hs Hsound Hcomplete] -> HU HY.
  assert (HsU : ascendingRows U) by (unfold ascendingRows in *; rewrite fmap_app in Hs; by eapply StronglySorted_app_1_l).
  assert (Hin : forall k s v, goodKey k -> is_u64 s -> (ukey k s, v) ∈ U <-> m !! ukey k s = Some v).
  { intros k s v Hk Hks. split; [intros Hin; apply Hsound, elem_of_app; by left|]. intros Hv.
    assert ((ukey k s, v) ∈ U ++ Y) as [?|Hy]%elem_of_app; [|done|].
    { apply Hcomplete; [done|by split|]. intros f Hf. by apply elem_of_nil in Hf. }
    eapply Forall_forall in HY; [|exact Hy]. by apply (sysRow_ne _ k s) in HY. }
  split; [by apply map_filter_nodup, recordsOf_nodup|]. intros k s v.
  rewrite list_elem_of_filter, recordsOf_elem by done. unfold newest. split.
  - intros (HP & Hk & Hks & Hh). rewrite heads_newest in Hh by done. destruct Hh as [Hv Hmax].
    split_and!; try done; [by apply Hin|]. intros s' v' Hs' Hv'. eapply Hmax; [done|by apply Hin].
  - intros (Hk & (Hks & Hv & Hmax) & HP). split_and!; [done..|]. apply heads_newest; [done..|].
    split; [by apply Hin|]. intros s' v' Hs' Hv'. eapply Hmax; [done|by apply Hin].
Qed.

(** ** The loops *)

Lemma readr_OK {S A B} (a : A) (k : A -> M S B) : (readr (fun _ => OK a) ≫= k) = k a.
Proof. done. Qed.

(** The rows of the system hold an index. *)
Definition indexRows (m : rowmap) : Prop := forall pk v, sysRow pk -> m !! pk = Some v -> 8 <= len v.

Lemma readLocalIndex_safe `{PebbleSpec} r pk : indexRows (rows r) -> sysRow pk ->
  match readLocalIndex r pk with PANIC _ => False | _ => True end.
Proof.
  intros Hi Hpk. unfold readLocalIndex. pose proof (Get_spec r pk) as Hg.
  destruct (Get r pk) as [v|e|p]; [|by case_bool_decide|done].
  apply (Hi _ _ Hpk) in Hg. unfold LittleEndian_Uint64. by destruct (Z.ltb_spec (len v) 8); [lia|].
Qed.

Section stream.
Context `{PebbleSpec} `{CommandCodec} {W : Type} (Write : bytes -> M W unit) (stopc : nat -> bool).
Context (tableName : bytes).

(** The command written for a record. *)
Definition recordCommand (r : record) : Command :=
  if isTombstone (rec_Value r)
  then mkCommand tableName DELETE (Some (newKV (rec_Key r) [])) (Some (rec_Seqno r)) [] None None
         false [] false
  else mkCommand tableName PUT (Some (newKV (rec_Key r) (rec_Value r))) (Some (rec_Seqno r)) [] None
         None false [] false.

Definition emitRecord (r : record) : M W unit := emit Write (MarshalCommand (recordCommand r)).

Lemma emitRecord_eq k s v : emitRecord (k, s, v) =
  emit Write (if isTombstone v then writeDeleteCommand tableName k s else writeCommand tableName k v s).
Proof. unfold emitRecord, recordCommand. cbn. by destruct (isTombstone v). Qed.
Lemma emitRecord_put k s v : isTombstone v = false ->
  emitRecord (k, s, v) = emit Write (writeCommand tableName k v s).
Proof. rewrite emitRecord_eq. by intros ->. Qed.

(** Ended by the stop channel. *)
Definition stopped {A} (o : outcome W A) : Prop :=
  exists n w, stopc n = true /\ o = Err ErrSnapshotStopped w.

Lemma bind_stream {A B} (c : M W A) (k k' : A -> M W B) w :
  (forall a w', c w = Ret a w' -> stopped (k a w') \/ k a w' = k' a w') ->
  stopped ((c ≫= k) w) \/ (c ≫= k) w = (c ≫= k') w.
Proof.
  intros Hk. unfold mbind, M_bind. destruct (c w) as [a w'|e w'|p]; [by apply Hk|by right..].
Qed.

(** The rows of the system are passed over. *)
Lemma snapshotLoop_sys fuel : forall tests it w, positioned it ->
  Forall (fun r => sysRow r.1) (it_rest it) -> (length (it_rest it) < fuel)%nat ->
  stopped (snapshotLoop Write stopc tableName fuel tests it w) \/
  snapshotLoop Write stopc tableName fuel tests it w = Ret tt w.
Proof.
  induction fuel as [|fuel IH]; intros tests it w Hp HY Hf; [lia|]. cbn [snapshotLoop].
  destruct (it_rest it) as [|[pk v] l] eqn:E; [rewrite Valid_nil by done; by right|].
  rewrite (Valid_cons _ _ _ E). cbn [negb]. destruct (stopc tests) eqn:Es; [left; by exists tests, w|].
  apply Forall_cons in HY as [Hpk HY]. cbn [fst] in Hpk.
  destruct (Key_spec it _ _ _ E) as [-> _]. apply sysRow_phys in Hpk as [name ->].
  rewrite DecodeBytes_phys, readr_OK by done. cbn [key.KeyType].
  rewrite bool_decide_eq_false_2 by done.
  destruct (Next_positioned it _ _ Hp E) as (Hp' & Hr' & _). cbn in Hf.
  apply IH; [done|by rewrite Hr'|rewrite Hr'; lia].
Qed.

Lemma snapshotLoop_stream fuel : forall tests it U Y w, positioned it -> it_rest it = U ++ Y ->
  userRows U -> Forall (fun r => sysRow r.1) Y -> (length (U ++ Y) < fuel)%nat ->
  stopped (snapshotLoop Write stopc tableName fuel tests it w) \/
  snapshotLoop Write stopc tableName fuel tests it w =
    forM_ (filter (fun r => isLive r = true) (recordsOf U)) emitRecord w.
Proof.
  induction fuel as [|fuel IH]; intros tests it U Y w Hp E HU HY Hf; [lia|].
  destruct U as [|[pk v] l].
  { cbn [app] in *. by apply snapshotLoop_sys; [|rewrite E..]. }
  apply Forall_cons in HU as [(k & s & Hk & Hs & Ek) HU]. cbn [fst] in Ek. subst pk. cbn [app] in *.
  destruct (iterNextUserKey_step it k s v (l ++ Y) Hp Hk Hs E) as (Hp' & Hr' & _ & _ & Hl).
  rewrite after_app, (after_sys k Y) in Hr' by done.
  assert (Hl' : ascendingRows ((ukey k s, v) :: l)).
  { unfold ascendingRows in *. rewrite app_comm_cons, fmap_app in Hl. by eapply StronglySorted_app_1_l. }
  cbn [snapshotLoop]. rewrite (Valid_cons _ _ _ E). cbn [negb].
  destruct (stopc tests) eqn:Es; [left; by exists tests, w|].
  destruct (Key_spec it _ _ _ E) as [-> ->]. rewrite DecodeBytes_phys, readr_OK by done. cbn [key.KeyType key.k_Key key.Seqno].
  rewrite bool_decide_eq_true_2 by done. rewrite recordsOf_cons, filter_true_cons by done.
  change (isLive (k, s, v)) with (negb (isTombstone v)). pose proof (after_length (lastKey k) l) as Hlen.
  assert (Hrec : forall w',
    stopped (snapshotLoop Write stopc tableName fuel (S tests) (iterNextUserKey it (ukey k s)).2 w') \/
    snapshotLoop Write stopc tableName fuel (S tests) (iterNextUserKey it (ukey k s)).2 w' =
      forM_ (filter (fun r => isLive r = true) (recordsOf (after (lastKey k) l))) emitRecord w').
  { intros w'. eapply IH; [done|exact Hr'|by apply after_userRows|done|].
    rewrite length_app in *. cbn in Hf. rewrite length_app in Hf. lia. }
  destruct (isTombstone v) eqn:Et; cbn [negb].
  - apply Hrec.
  - cbn [app forM_]. rewrite (emitRecord_put k s v) by done. apply bind_stream. intros [] w' _. apply Hrec.
Qed.

Lemma incrementalLoop_sys base fuel : forall tests it w, positioned it ->
  Forall (fun r => sysRow r.1) (it_rest it) -> (length (it_rest it) < fuel)%nat ->
  stopped (incrementalLoop Write stopc tableName base fuel tests it w) \/
  incrementalLoop Write stopc tableName base fuel tests it w = Ret tt w.
Proof.
  induction fuel as [|fuel IH]; intros tests it w Hp HY Hf; [lia|]. cbn [incrementalLoop].
  destruct (it_rest it) as [|[pk v] l] eqn:E; [rewrite Valid_nil by done; by right|].
  rewrite (Valid_cons _ _ _ E). cbn [negb]. destruct (stopc tests) eqn:Es; [left; by exists tests, w|].
  apply Forall_cons in HY as [Hpk HY]. cbn [fst] in Hpk.
  destruct (Key_spec it _ _ _ E) as [-> _]. apply sysRow_phys in Hpk as [name ->].
  rewrite DecodeBytes_phys, readr_OK by done. cbn [key.KeyType].
  rewrite bool_decide_eq_false_2 by done.
  destruct (Next_positioned it _ _ Hp E) as (Hp' & Hr' & _). cbn in Hf.
  apply IH; [done|by rewrite Hr'|rewrite Hr'; lia].
Qed.

Lemma incrementalLoop_stream base fuel : forall tests it U Y w, positioned it -> it_rest it = U ++ Y ->
  userRows U -> Forall (fun r => sysRow r.1) Y -> (length (U ++ Y) < fuel)%nat ->
  stopped (incrementalLoop Write stopc tableName base fuel tests it w) \/
  incrementalLoop Write stopc tableName base fuel tests it w =
    forM_ (filter (fun r => changedAfter base r = true) (recordsOf U)) emitRecord w.
Proof.
  induction fuel as [|fuel IH]; intros tests it U Y w Hp E HU HY Hf; [lia|].
  destruct U as [|[pk v] l].
  { cbn [app] in *. by apply incrementalLoop_sys; [|rewrite E..]. }
  apply Forall_cons in HU as [(k & s & Hk & Hs & Ek) HU]. cbn [fst] in Ek. subst pk. cbn [app] in *.
  destruct (iterNextUserKey_step it k s v (l ++ Y) Hp Hk Hs E) as (Hp' & Hr' & _ & Hv & Hl).
  rewrite after_app, (after_sys k Y) in Hr' by done.
  assert (Hl' : ascendingRows ((ukey k s, v) :: l)).
  { unfold ascendingRows in *. rewrite app_comm_cons, fmap_app in Hl. by eapply StronglySorted_app_1_l. }
  cbn [incrementalLoop]. rewrite (Valid_cons _ _ _ E). cbn [negb].
  destruct (stopc tests) eqn:Es; [left; by exists tests, w|].
  destruct (Key_spec it _ _ _ E) as [-> ->]. rewrite DecodeBytes_phys, readr_OK by done.
  cbn [key.KeyType key.k_Key]. rewrite bool_decide_eq_true_2, DecodeV2Seqno_phys by done. cbn [negb].
  rewrite recordsOf_cons, filter_true_cons by done.
  change (changedAfter base (k, s, v)) with (base <? s). pose proof (after_length (lastKey k) l) as Hlen.
  destruct (iterNextUserKey it (ukey k s)) as [ok it']. cbn [fst snd] in *.
  assert (Hrec : forall w',
    stopped ((if negb ok then skip else incrementalLoop Write stopc tableName base fuel (S tests) it') w') \/
    (if negb ok then skip else incrementalLoop Write stopc tableName base fuel (S tests) it') w' =
      forM_ (filter (fun r => changedAfter base r = true) (recordsOf (after (lastKey k) l))) emitRecord w').
  { intros w'. destruct (it_rest it') as [|x l'] eqn:E'.
    - rewrite Valid_nil in Hv by done. subst ok. symmetry in Hr'. apply app_nil in Hr' as [-> _]. by right.
    - rewrite (Valid_cons _ _ _ E') in Hv. subst ok. cbn [negb].
      eapply IH; [done|by rewrite E'|by apply after_userRows|done|].
      rewrite length_app in *. cbn in Hf. rewrite length_app in Hf. lia. }
  destruct (base <? s).
  - cbn [app forM_]. rewrite <- (emitRecord_eq k s v). apply bind_stream. intros [] w' _. apply Hrec.
  - cbn [app]. unfold skip at 1 3. unfold mbind, M_bind, ret. apply Hrec.
Qed.

(** ** The streams *)

(** The iterator a snapshot runs over. *)
Lemma NewIter_split r it : tableRows (rows r) -> NewIter r noOpts = OK it ->
  exists U Y, positioned (First it).2 /\ it_rest (First it).2 = U ++ Y /\ userRows U /\
    Forall (fun r => sysRow r.1) Y /\ (length (U ++ Y) <= size (rows r))%nat /\
    forall P, newVersions (rows r) P (filter (fun r => P r = true) (recordsOf U)).
Proof.
  intros Hm E. destruct (First_positioned r noOpts it E) as [Hp Hit].
  destruct (rows_split (it_rest (First it).2)) as (U & Y & EU & HU & HY).
  - apply Hit.
  - intros [pk v] Hin. by apply (Hm pk v), Hit.
  - exists U, Y. split_and!; try done; [rewrite <- EU; by eapply iterates_length|].
    intros P. by eapply recordsOf_newVersions.
Qed.

Lemma commandSnapshot_streams fuel r w : tableRows (rows r) -> indexRows (rows r) ->
  (size (rows r) < fuel)%nat ->
  (exists e, commandSnapshot fuel Write stopc tableName r w = Err e w) \/
  stopped (commandSnapshot fuel Write stopc tableName r w) \/
  exists L idx, newVersions (rows r) isLive L /\ readLocalIndex r sysLocalIndex = OK idx /\
    commandSnapshot fuel Write stopc tableName r w = (forM_ L emitRecord ;; ret idx) w.
Proof.
  intros Hm Hi Hf. unfold commandSnapshot. pose proof (NewIter_spec r noOpts) as Hn.
  destruct (NewIter r noOpts) as [it|e|p] eqn:E; [|left; by exists e|done]. rewrite readr_OK.
  pose proof (readLocalIndex_safe r sysLocalIndex Hi ltac:(by left)) as Hs.
  destruct (readLocalIndex r sysLocalIndex) as [idx|e|p] eqn:Ei; [|left; by exists e|done].
  rewrite readr_OK. right.
  destruct (NewIter_split r it Hm E) as (U & Y & Hp & EU & HU & HY & Hlen & HL).
  destruct (snapshotLoop_stream fuel 0 (First it).2 U Y w) as [(n & w' & Hn1 & Hn2)|Hl]; try done; [lia| |].
  - left. exists n, w'. split; [done|]. unfold mbind, M_bind. by rewrite Hn2.
  - right. exists (filter (fun r => isLive r = true) (recordsOf U)), idx. split_and!; [done..|].
    unfold mbind, M_bind. by rewrite Hl.
Qed.

(** The base the deltas of a snapshot start from: a base at or below the horizon is
    raised above it. *)
Definition effectiveBase (requested h : Z) : Z :=
  if (0 <? h) && (requested <=? h) then h +ᵤ 1 else requested.

Lemma commandIncrementalSnapshot_streams fuel r requested w : tableRows (rows r) ->
  indexRows (rows r) -> (size (rows r) < fuel)%nat ->
  (exists e, commandIncrementalSnapshot fuel Write stopc tableName r requested w = Err e w) \/
  stopped (commandIncrementalSnapshot fuel Write stopc tableName r requested w) \/
  exists L idx h, let base := effectiveBase requested h in
    newVersions (rows r) (changedAfter base) L /\ readLocalIndex r sysLocalIndex = OK idx /\
    readLocalIndex r sysGCHorizon = OK h /\
    commandIncrementalSnapshot fuel Write stopc tableName r requested w =
      (forM_ L emitRecord ;; ret (mkSnapshotResponse idx idx base h)) w.
Proof.
  intros Hm Hi Hf. unfold commandIncrementalSnapshot.
  pose proof (readLocalIndex_safe r sysLocalIndex Hi ltac:(by left)) as Hs.
  destruct (readLocalIndex r sysLocalIndex) as [idx|e|p] eqn:Ei; [|left; by exists e|done].
  rewrite readr_OK. pose proof (readLocalIndex_safe r sysGCHorizon Hi ltac:(right; by right)) as Hh.
  destruct (readLocalIndex r sysGCHorizon) as [h|e|p] eqn:Eh; [|left; by exists e|done].
  rewrite readr_OK. fold (effectiveBase requested h). pose proof (NewIter_spec r noOpts) as Hn.
  destruct (NewIter r noOpts) as [it|e|p] eqn:E; [|left; by exists e|done]. rewrite readr_OK. right.
  destruct (NewIter_split r it Hm E) as (U & Y & Hp & EU & HU & HY & Hlen & HL).
  destruct (incrementalLoop_stream (effectiveBase requested h) fuel 0 (First it).2 U Y w)
    as [(n & w' & Hn1 & Hn2)|Hl]; try done; [lia| |].
  - left. exists n, w'. split; [done|]. unfold mbind, M_bind. by rewrite Hn2.
  - right. exists (filter (fun r => changedAfter (effectiveBase requested h) r = true) (recordsOf U)), idx, h.
    cbv zeta. split_and!; [done..|]. unfold mbind, M_bind. by rewrite Hl.
Qed.

End stream.
