(* ===== verification/SnapshotFile.v ===== *)
(** * Snapshots of a table in a file

    [replication/snapshot/snapshot.go]: the records of a snapshot file, each after its
    length; [storage/table/manager.go]: reading a snapshot into a table
    ([readSnapshotWithTerminal]); [armadaserver/replication.go]: writing one
    ([streamFull], [streamIncremental]).  The compression of the file is a library: a
    file is the stream of bytes before it.  The stream to write to, the reader and the
    proposals are parameters. *)
From S2P Require Import Prelude Raftpb LogDB Wire WireSpec Bytes Key KeySpec Armadapb Pebble.
From S2P Require Import Session RsmMembership Encoded TaskQueue Rsm FsmQuery FsmCommand Fsm.
From Stdlib Require Import Strings.Byte.
Import armadapb.

Definition io_EOF : error := ErrMsg "EOF".
Definition ErrNoProgress : error := ErrMsg "multiple Read calls return no data or error".

(** ** Records of a file *)

Section write.
Context {W : Type} (w_Write : bytes -> M W unit).

Definition snapshotFile_Write (p : bytes) : M W Z :=
  if len p =? 0 then ret 0
  else
    let buf := LittleEndian_PutUint64 (len p) in
    w_Write buf ;;
    w_Write p ;;
    ret (len p).

End write.

(** [io.ReadFull]: the bytes or the error, and what is left of the stream. *)
Definition ReadFull (n : Z) (s : bytes) : (bytes + error) * bytes :=
  if n <=? len s then (inl (takeZ n s), dropZ n s)
  else (inr (match s with [] => io_EOF | _ => ErrUnexpectedEOF end), []).

(** [Read(p)] with a buffer of [cap] bytes: what was read, and the error. *)
Definition snapshotFile_Read (cap : Z) : M bytes (bytes * option error) := fun s =>
  match ReadFull 8 s with
  | (inr e, s) => Ret ([], Some e) s
  | (inl buf, s) =>
      match LittleEndian_Uint64 buf with
      | OK size =>
          if cap <? size then Panic IndexOutOfRange
          else match ReadFull size s with
               | (inr e, s) => Ret ([], Some e) s
               | (inl p, s) => Ret (p, None) s
               end
      | ERR e => Err e s
      | PANIC p => Panic p
      end
  end.

(** ** Reading a snapshot into a table *)

Definition maxSnapshotRecordSize : Z := 4 * 1024 * 1024.

Section load.
Context `{CommandCodec} {R T : Type}.
Context (Read : Z -> M R (bytes * option error)) (propose : Command -> M T unit).
Context (tableName : bytes) (maxBatchSize : Z) (requireTerminal : bool).

Definition sequenceOf (cmds : list Command) : Command :=
  mkCommand tableName SEQUENCE None None [] None None false cmds false.

Definition onReader {A} (c : M R A) : M (R * T) A := zoom fst (fun r s => (r, s.2)) c.
Definition onTable {A} (c : M T A) : M (R * T) A := zoom snd (fun t s => (s.1, t)) c.

(** The batch is empty afterwards. *)
Definition flush (batch : list Command) : M (R * T) unit :=
  match batch with [] => skip | _ => onTable (propose (sequenceOf batch)) end.

Definition hasData (cmd : Command) : bool :=
  bool_decide (cmd_Kv cmd <> None) || negb (len (cmd_Batch cmd) =? 0) ||
  bool_decide (cmd_Txn cmd <> None) || negb (len (cmd_Sequence cmd) =? 0) ||
  negb (len (default [] (cmd_RangeEnd cmd)) =? 0) || cmd_PrevKvs cmd || cmd_Count cmd.

(** The body of the loop for a record: the batch, the terminal marker and the highest
    index of the data. *)
Definition readRecord (msg : bytes) (batch : list Command) (terminal : option Command)
    (maxDataLeaderIndex : Z) : M (R * T) (list Command * option Command * Z) :=
  match terminal with
  | Some _ => fail (ErrMsg "snapshot contains a record after its terminal marker")
  | None =>
      match UnmarshalVT msg with
      | PANIC p => panic_ p
      | ERR _ => fail (ErrMsg "unmarshal snapshot command")
      | OK cmd =>
          if negb (bool_decide (cmd_Table cmd = tableName))
          then fail (ErrMsg "snapshot command is for another table")
          else
            match cmd_Type cmd with
            | DUMMY =>
                match cmd_LeaderIndex cmd with
                | None => fail (ErrMsg "snapshot terminal marker has no leader index")
                | Some i =>
                    if hasData cmd then fail (ErrMsg "snapshot terminal marker contains data")
                    else if i <? maxDataLeaderIndex
                    then fail (ErrMsg "snapshot terminal leader index is behind data index")
                    else ret (batch, Some cmd, maxDataLeaderIndex)
                end
            | PUT | DELETE =>
                if match cmd_Kv cmd with Some kv => len (kv_Key kv) =? 0 | None => true end
                then fail (ErrMsg "snapshot command has no key-value")
                else
                  maxDataLeaderIndex ←
                    (match cmd_LeaderIndex cmd with
                     | None => if requireTerminal
                               then fail (ErrMsg "snapshot command has no leader index")
                               else ret maxDataLeaderIndex
                     | Some i => ret (if maxDataLeaderIndex <? i then i else maxDataLeaderIndex)
                     end);
                  let batch := batch ++ [cmd] in
                  if (0 <? maxBatchSize) && (maxBatchSize <=? SizeVT (sequenceOf batch))
                  then flush batch ;; ret ([], None, maxDataLeaderIndex)
                  else ret (batch, None, maxDataLeaderIndex)
            | _ => fail (ErrMsg "snapshot contains unsupported command type")
            end
      end
  end.

Fixpoint readLoop (fuel : nat) (batch : list Command) (terminal : option Command)
    (maxDataLeaderIndex : Z) : M (R * T) unit :=
  match fuel with
  | O => panic_ OutOfFuel
  | S fuel =>
      '(msg, err) ← onReader (Read maxSnapshotRecordSize);
      '(batch, terminal, maxDataLeaderIndex) ←
        (if 0 <? len msg then readRecord msg batch terminal maxDataLeaderIndex
         else ret (batch, terminal, maxDataLeaderIndex));
      match err with
      | Some e =>
          if negb (bool_decide (e = io_EOF)) then fail e
          else
            match terminal with
            | None => if requireTerminal
                      then fail (ErrMsg "snapshot is missing its terminal marker")
                      else flush batch
            | Some t => flush batch ;; onTable (propose t)
            end
      | None =>
          if len msg =? 0 then fail ErrNoProgress
          else readLoop fuel batch terminal maxDataLeaderIndex
      end
  end.

Definition readSnapshotWithTerminal (fuel : nat) : M (R * T) unit := readLoop fuel [] None 0.

End load.

Definition readSnapshot `{CommandCodec} {R T} (Read : Z -> M R (bytes * option error))
    (tableName : bytes) (maxBatchSize : Z) (propose : Command -> M T unit) (fuel : nat)
    : M (R * T) unit :=
  readSnapshotWithTerminal Read propose tableName maxBatchSize true fuel.

(** ** Writing a snapshot of a table *)

Section server.
Context `{PebbleLib} `{CommandCodec} {W : Type} (w_Write : bytes -> M W unit) (stopc : nat -> bool).
Context (fuel : nat) (table dirname : bytes).

Definition Write_ (p : bytes) : M W unit := snapshotFile_Write w_Write p ;; skip.

Definition terminalCommand (index : Z) : Command :=
  mkCommand table DUMMY None (Some index) [] None None false [] false.

Definition writeTerminal (index : Z) : M W unit :=
  final ← readr (fun _ => MarshalCommand (terminalCommand index));
  Write_ final.

(** The file [streamFull] sends; [p] is the machine the snapshot is taken of. *)
Definition streamFull (p : FSM) : M W unit :=
  a ← Lookup fuel Write_ stopc table dirname SnapshotRequest p;
  match a with SnapshotAnswer resp => writeTerminal (sr_Index resp) | _ => panic_ NilDereference end.

(** The file [streamIncremental] sends.  It queries the table three times: the machine
    may have moved on from one query to the next. *)
Definition streamIncremental (leaderIndex : Z) (p1 p2 p3 : FSM) : M W unit :=
  appliedIndex ← Lookup fuel Write_ stopc table dirname LocalIndexRequest p1;
  match appliedIndex with
  | IndexResponse applied =>
      if applied <? leaderIndex then fail (ErrMsg "requested leader_index is ahead of leader applied index")
      else
        gc ← try_ (Lookup fuel Write_ stopc table dirname GCHorizonRequest p2);
        (match gc with
         | inl (IndexResponse h) =>
             when ((0 <? h) && (leaderIndex <=? h))
               (fail (ErrMsg "requested leader_index is at or below GC horizon"))
         | _ => skip
         end) ;;
        a ← Lookup fuel Write_ stopc table dirname (IncrementalSnapshotRequest leaderIndex) p3;
        match a with
        | SnapshotAnswer resp => writeTerminal (sr_Index resp)
        | _ => panic_ NilDereference
        end
  | _ => panic_ NilDereference
  end.

End server.
