(* ===== verification/SnapshotLoad.v ===== *)
(** * Reading a snapshot file

    What was written to a snapshot file is read back, and reading it proposes the data
    in order, in sequences, and the terminal marker after all of them. *)
From S2P Require Import Prelude Raftpb LogDB Wire WireSpec Bytes Key KeySpec Armadapb Pebble.
From S2P Require Import SnapshotFile.
From Stdlib Require Import Strings.Byte.
Import armadapb.

(** ** Records *)

Definition frame (p : bytes) : bytes := LittleEndian_PutUint64 (len p) ++ p.
Definition fileOf (recs : list bytes) : bytes := concat (map frame recs).

(** A record the reader's buffer holds. *)
Definition goodRecord (p : bytes) : Prop := 0 < len p <= maxSnapshotRecordSize.

Lemma LittleEndian_len n : len (LittleEndian_PutUint64 n) = 8.
Proof. unfold LittleEndian_PutUint64, len. by rewrite length_rev, beBytes_length. Qed.

Lemma ReadFull_app n a b : len a = n -> ReadFull n (a ++ b) = (inl a, b).
Proof.
  intros <-. unfold ReadFull. rewrite len_app. pose proof (len_nonneg b).
  destruct (Z.leb_spec (len a) (len a + len b)); [|lia]. by rewrite takeZ_app, dropZ_app.
Qed.

Lemma Read_frame p rest : goodRecord p ->
  snapshotFile_Read maxSnapshotRecordSize (frame p ++ rest) = Ret (p, None) rest.
Proof.
  intros [H0 H1]. unfold snapshotFile_Read, frame. rewrite <- app_assoc.
  rewrite ReadFull_app by apply LittleEndian_len.
  rewrite LittleEndian_roundtrip by (unfold is_u64, maxSnapshotRecordSize in *; lia).
  destruct (Z.ltb_spec maxSnapshotRecordSize (len p)); [lia|]. by rewrite ReadFull_app.
Qed.

Lemma Read_end : snapshotFile_Read maxSnapshotRecordSize [] = Ret ([], Some io_EOF) [].
Proof. done. Qed.

(** A stream that holds what is written to it; a write may fail. *)
Class FileStream (W : Type) : Type := {
  content : W -> bytes;
  w_Write : bytes -> M W unit;
  w_Write_spec p w : wp no_panic (w_Write p) (fun _ w' => content w' = content w ++ p)
                       (fun _ _ => True) w
}.

Lemma Write_frame `{FileStream W} p w : 0 < len p ->
  wp no_panic (Write_ w_Write p) (fun _ w' => content w' = content w ++ frame p) (fun _ _ => True) w.
Proof.
  intros Hp. unfold Write_, snapshotFile_Write. apply wp_bind.
  destruct (Z.eqb_spec (len p) 0); [lia|]. apply wp_bind.
  eapply wp_mono; [apply w_Write_spec| |done]. intros [] w1 E1. apply wp_bind.
  eapply wp_mono; [apply w_Write_spec| |done]. intros [] w2 E2. do 2 apply wp_ret.
  unfold frame. by rewrite E2, E1, app_assoc.
Qed.

(** ** Reading *)

Section load.
Context `{CommandCodec} {T : Type} (propose : Command -> M T unit) (tableName : bytes).
Context (maxBatchSize : Z).

(** The commands of a snapshot. *)
Record dataCommand (c : Command) : Prop := {
  dc_table : cmd_Table c = tableName;
  dc_type : cmd_Type c = PUT \/ cmd_Type c = DELETE;
  dc_key : exists kv, cmd_Kv c = Some kv /\ kv_Key kv <> [];
  dc_index : cmd_LeaderIndex c <> None
}.
Definition indexOf (c : Command) : Z := default 0 (cmd_LeaderIndex c).

Record terminalOf (c : Command) (mx : Z) : Prop := {
  tc_table : cmd_Table c = tableName;
  tc_type : cmd_Type c = DUMMY;
  tc_data : hasData c = false;
  tc_index : exists i, cmd_LeaderIndex c = Some i /\ mx <= i
}.

(** The highest index of the data. *)
Definition maxIndex (mx : Z) (D : list Command) : Z := foldl (fun m c => Z.max m (indexOf c)) mx D.

(** How the data is cut into sequences. *)
Definition isFull (batch : list Command) : bool :=
  (0 <? maxBatchSize) && (maxBatchSize <=? SizeVT (sequenceOf tableName batch)).

Fixpoint chunksOf (batch D : list Command) : list (list Command) :=
  match D with
  | [] => match batch with [] => [] | _ => [batch] end
  | c :: D =>
      let batch := batch ++ [c] in
      if isFull batch then batch :: chunksOf [] D else chunksOf batch D
  end.

Lemma chunksOf_concat D : forall batch, concat (chunksOf batch D) = batch ++ D.
Proof.
  induction D as [|c D IH]; intros batch; cbn [chunksOf].
  - destruct batch; cbn; by rewrite ?app_nil_r.
  - destruct (isFull (batch ++ [c])); cbn [concat]; rewrite IH; by rewrite <- ?app_assoc.
Qed.

Lemma chunksOf_nonempty D : forall batch, Forall (fun c => c <> []) (chunksOf batch D).
Proof.
  induction D as [|c D IH]; intros batch; cbn [chunksOf].
  - destruct batch; repeat constructor; done.
  - destruct (isFull (batch ++ [c])); [|done]. constructor; [by destruct batch|done].
Qed.

(** The proposals of a snapshot with the data [D] and the marker [t]. *)
Definition proposals (batch D : list Command) (t : Command) : list Command :=
  map (sequenceOf tableName) (chunksOf batch D) ++ [t].

(** Reading does what the proposals do. *)
Definition follows (o : outcome T unit) (o' : outcome (bytes * T) unit) : Prop :=
  match o with
  | Ret _ s => o' = Ret tt ([], s)
  | Err e s => exists r, o' = Err e (r, s)
  | Panic p => o' = Panic p
  end.

Abbreviation loop := (readLoop snapshotFile_Read propose tableName maxBatchSize true).

Lemma forM_app {X} (f : X -> M T unit) l l' s :
  forM_ (l ++ l') f s = (forM_ l f ;; forM_ l' f) s.
Proof.
  revert s. induction l as [|x l IH]; intros s; cbn [app forM_]; [done|].
  unfold mbind, M_bind in *. destruct (f x s) as [[] s'| |]; [apply IH|done..].
Qed.

(** The end of the file. *)
Lemma readLoop_EOF fuel batch t mx s : (0 < fuel)%nat ->
  loop fuel batch (Some t) mx ([], s) = (flush propose tableName batch ;; onTable (propose t)) ([], s).
Proof. intros Hf. by destruct fuel; [lia|]. Qed.

Lemma readLoop_end fuel batch t mx s : (0 < fuel)%nat ->
  follows (forM_ (proposals batch [] t) propose s) (loop fuel batch (Some t) mx ([], s)).
Proof.
  intros Hf. rewrite readLoop_EOF by done. unfold proposals. cbn [chunksOf].
  unfold onTable, zoom, mbind, M_bind.
  destruct batch as [|c batch]; cbn [map app forM_ flush]; unfold skip, ret, onTable, zoom, mbind, M_bind;
    cbn [fst snd].
  - destruct (propose t s) as [[] s'| |]; cbn; eauto.
  - destruct (propose (sequenceOf tableName (c :: batch)) s) as [[] s1| |]; cbn; eauto.
    destruct (propose t s1) as [[] s'| |]; cbn; eauto.
Qed.

(** The record of the marker. *)
Lemma readLoop_terminal fuel batch t tb mx s : (1 < fuel)%nat -> goodRecord tb ->
  UnmarshalVT tb = OK t -> terminalOf t mx ->
  loop fuel batch None mx (frame tb, s) = loop (pred fuel) batch (Some t) mx ([], s).
Proof.
  intros Hf Hg Hd [H1 H2 H3 (i & H4 & H5)]. destruct fuel as [|fuel]; [lia|]. cbn [readLoop pred].
  unfold onReader, zoom, mbind at 1, M_bind at 1. cbn [fst snd].
  rewrite <- (app_nil_r (frame tb)), Read_frame by done. unfold goodRecord in Hg.
  destruct (Z.ltb_spec 0 (len tb)); [|lia]. destruct (Z.eqb_spec (len tb) 0); [lia|].
  unfold readRecord. rewrite Hd, H1, bool_decide_eq_true_2 by done. cbn [negb].
  rewrite H2, H4, H3. destruct (Z.ltb_spec i mx); [lia|]. done.
Qed.

(** A record of the data. *)
Lemma readLoop_data fuel batch c b rest mx s : (0 < fuel)%nat -> goodRecord b ->
  UnmarshalVT b = OK c -> dataCommand c ->
  loop fuel batch None mx (frame b ++ rest, s) =
    (if isFull (batch ++ [c])
     then onTable (propose (sequenceOf tableName (batch ++ [c]))) ;;
          loop (pred fuel) [] None (Z.max mx (indexOf c))
     else loop (pred fuel) (batch ++ [c]) None (Z.max mx (indexOf c))) (rest, s).
Proof.
  intros Hf Hg Hd [H1 H2 (kv & H3 & H4) H5]. destruct fuel as [|fuel]; [lia|]. cbn [readLoop pred].
  unfold onReader, zoom at 1, mbind at 1, M_bind at 1. cbn [fst snd].
  rewrite Read_frame by done. unfold goodRecord in Hg.
  destruct (Z.ltb_spec 0 (len b)); [|lia]. destruct (Z.eqb_spec (len b) 0); [lia|].
  unfold readRecord. rewrite Hd, H1, bool_decide_eq_true_2 by done. cbn [negb]. rewrite H3.
  assert ((len (kv_Key kv) =? 0) = false) as ->.
  { apply Z.eqb_neq. destruct (kv_Key kv); [done|]. rewrite len_cons. pose proof (len_nonneg l). lia. }
  unfold indexOf. destruct (cmd_LeaderIndex c) as [i|]; [|done]. cbn [default].
  assert ((if mx <? i then i else mx) = Z.max mx i) as Emx by (destruct (Z.ltb_spec mx i); lia).
  fold (isFull (batch ++ [c])).
  destruct H2 as [-> | ->]; unfold ret, mbind, M_bind; cbv beta iota; rewrite Emx;
    (destruct (isFull (batch ++ [c])); [|done]); unfold flush;
    destruct (batch ++ [c]) as [|x l] eqn:E; try (by destruct batch);
    unfold onTable, zoom; cbn [fst snd]; by destruct (propose _ s) as [[] s'| |].
Qed.

(** Reading a snapshot file proposes what is in it.  For every file of good records
    that decode to data commands and a terminal marker not behind them, the reader
    proposes the data in the order of the file, cut into sequences, and then the
    marker: its outcome is that of these proposals, and on success it has read the
    whole file. *)
Theorem readSnapshot_proposes recs tb D t fuel s :
  Forall goodRecord (recs ++ [tb]) -> Forall2 (fun b c => UnmarshalVT b = OK c) recs D ->
  UnmarshalVT tb = OK t -> Forall dataCommand D -> terminalOf t (maxIndex 0 D) ->
  (length recs + 1 < fuel)%nat ->
  concat (chunksOf [] D) = D /\ Forall (fun c => c <> []) (chunksOf [] D) /\
  follows (forM_ (map (sequenceOf tableName) (chunksOf [] D) ++ [t]) propose s)
    (readSnapshot snapshotFile_Read tableName maxBatchSize propose fuel (fileOf (recs ++ [tb]), s)).
Proof.
  intros Hg HD Ht Hdata Hterm Hf. split_and!; [apply chunksOf_concat|apply chunksOf_nonempty|].
  apply Forall_app in Hg as [Hg Htb]. rewrite Forall_singleton in Htb.
  unfold readSnapshot, readSnapshotWithTerminal. fold (proposals [] D t).
  revert Hterm Hf. generalize 0 as mx. generalize (@nil Command) as batch.
  revert fuel s Hg Hdata. induction HD as [|b c recs D Hb HD IH]; intros fuel s Hg Hdata batch mx Hterm Hf.
  - unfold fileOf. cbn [app map concat]. rewrite app_nil_r.
    erewrite readLoop_terminal; [|cbn in Hf; lia|done..].
    apply readLoop_end. cbn in Hf. lia.
  - apply Forall_cons in Hg as [Hgb Hg]. apply Forall_cons in Hdata as [Hc Hdata].
    unfold fileOf. cbn [app map concat]. fold (fileOf (recs ++ [tb])). cbn in Hf.
    erewrite readLoop_data; [|lia|done..]. unfold proposals. cbn [chunksOf].
    destruct (isFull (batch ++ [c])).
    + cbn [map app forM_]. unfold onTable, zoom, mbind, M_bind. cbn [fst snd].
      destruct (propose (sequenceOf tableName (batch ++ [c])) s) as [[] s1|e s1|p]; [|cbn; eauto..].
      apply (IH (pred fuel) s1 Hg Hdata [] (Z.max mx (indexOf c))); [done|lia].
    + apply (IH (pred fuel) s Hg Hdata (batch ++ [c]) (Z.max mx (indexOf c))); [done|lia].
Qed.

End load.

(** ** Any file *)

Lemma beValue_bounds b : forall acc, 0 <= acc ->
  acc * 256 ^ Z.of_nat (length b) <= beValue acc b < (acc + 1) * 256 ^ Z.of_nat (length b).
Proof.
  induction b as [|x b IH]; intros acc Ha; [cbn; lia|].
  rewrite beValue_cons by done. pose proof (byteZ_range x). cbn [length].
  rewrite Nat2Z.inj_succ, Z.pow_succ_r by lia. specialize (IH (acc * 256 + byteZ x) ltac:(lia)).
  pose proof (Z.pow_nonneg 256 (Z.of_nat (length b)) ltac:(lia)). nia.
Qed.

Lemma LittleEndian_inverse buf n : len buf = 8 -> LittleEndian_Uint64 buf = OK n ->
  is_u64 n /\ LittleEndian_PutUint64 n = buf.
Proof.
  unfold LittleEndian_Uint64, LittleEndian_PutUint64, len. intros Hl.
  destruct (Z.ltb_spec (Z.of_nat (length buf)) 8); [lia|]. intros [= <-].
  rewrite take_ge by lia. assert (length (rev buf) = 8%nat) as Hr by (rewrite length_rev; lia).
  pose proof (beValue_bounds (rev buf) 0 ltac:(lia)) as Hb. rewrite Hr in Hb. change (256 ^ Z.of_nat 8) with W64 in Hb.
  split; [unfold is_u64; lia|]. rewrite <- (rev_involutive buf) at 2. f_equal.
  apply (beValue_inj _ _ 0 0); [by rewrite beBytes_length|lia|lia|].
  rewrite beValue_beBytes by lia. change (256 ^ Z.of_nat 8) with W64. rewrite Z.mod_small; lia.
Qed.

(** What reading a record of any file gives. *)
Lemma Read_cases f :
  match snapshotFile_Read maxSnapshotRecordSize f with
  | Ret (p, None) rest => f = frame p ++ rest /\ len p <= maxSnapshotRecordSize
  | Ret (p, Some e) rest => p = [] /\ rest = [] /\ (e = io_EOF -> f = [] \/ len f = 8)
  | Err _ _ => False
  | Panic p => p = IndexOutOfRange
  end.
Proof.
  unfold snapshotFile_Read, ReadFull. destruct (Z.leb_spec 8 (len f)) as [H8|H8].
  2: { destruct f; split_and!; by auto. }
  assert (Hl : len (takeZ 8 f) = 8) by (unfold len, takeZ in *; rewrite length_take; lia).
  destruct (LittleEndian_Uint64 (takeZ 8 f)) as [n|e|p] eqn:En.
  2-3: exfalso; unfold LittleEndian_Uint64 in En; by destruct (Z.ltb_spec (len (takeZ 8 f)) 8); [lia|].
  apply LittleEndian_inverse in En as [Hn En]; [|done].
  assert (Ef : f = LittleEndian_PutUint64 n ++ dropZ 8 f) by (rewrite En; unfold takeZ, dropZ; by rewrite take_drop).
  destruct (Z.ltb_spec maxSnapshotRecordSize n); [done|]. set (g := dropZ 8 f) in *.
  destruct (Z.leb_spec n (len g)) as [Hle|Hgt].
  - unfold is_u64 in Hn. assert (Hp : len (takeZ n g) = n) by (unfold len, takeZ in *; rewrite length_take; lia).
    split; [|lia]. unfold frame. rewrite Hp, <- app_assoc. unfold takeZ, dropZ. by rewrite take_drop.
  - split_and!; [done..|]. destruct g as [|x g]; [|done]. intros _. right.
    rewrite Ef, app_nil_r. apply LittleEndian_len.
Qed.

Section any.
Context `{CommandCodecSpec} (tableName : bytes) (maxBatchSize : Z).

(** Proposals that are recorded, each of which may fail. *)
Context (fails : list Command -> Command -> option error).
Definition record_ (c : Command) : M (list Command) unit := fun log =>
  match fails log c with None => Ret tt (log ++ [c]) | Some e => Err e (log ++ [c]) end.

Abbreviation loop := (readLoop snapshotFile_Read record_ tableName maxBatchSize true).
Abbreviation sequences := (map (sequenceOf tableName)).

(** Every proposal was taken. *)
Definition taken (log : list Command) : Prop :=
  forall pre c post, log = pre ++ c :: post -> fails pre c = None.

(** Every proposal but the last was taken. *)
Definition takenButLast (log : list Command) : Prop :=
  forall pre c d post, log = pre ++ c :: d :: post -> fails pre c = None.

Lemma taken_snoc log c : taken log -> fails log c = None -> taken (log ++ [c]).
Proof.
  intros Hl Hc pre x post E. destruct post as [|y post _] using rev_ind.
  - apply app_inj_tail in E as [-> ->]. done.
  - rewrite app_comm_cons, app_assoc in E. apply app_inj_tail in E as [-> _]. by eapply Hl.
Qed.

Lemma taken_butLast log : taken log -> takenButLast log.
Proof. intros Hl pre c d post E. by eapply Hl. Qed.

Lemma takenButLast_snoc log c : taken log -> takenButLast (log ++ [c]).
Proof.
  intros Hl pre x d post E. destruct post as [|y post _] using rev_ind.
  - change (pre ++ [x; d]) with (pre ++ [x] ++ [d]) in E. rewrite app_assoc in E.
    apply app_inj_tail in E as [-> _]. by eapply Hl.
  - rewrite !app_comm_cons, app_assoc in E. apply app_inj_tail in E as [-> _]. by eapply Hl.
Qed.

(** Where the reader is: it has read [recs], which decode to [D], and has proposed the
    sequences [done]; [batch] is still to be. *)
Record loading (f rest : bytes) (log : list Command) (recs : list bytes) (D batch : list Command)
    (chunks : list (list Command)) (mx : Z) : Prop := {
  ld_file : f = fileOf recs ++ rest;
  ld_decode : Forall2 (fun b c => UnmarshalVT b = OK c) recs D;
  ld_data : Forall (dataCommand tableName) D;
  ld_log : log = sequences chunks;
  ld_taken : taken log;
  ld_chunks : forall D', chunksOf tableName maxBatchSize [] (D ++ D') =
                chunks ++ chunksOf tableName maxBatchSize batch D';
  ld_max : mx = maxIndex 0 D }.

Lemma loading_start f : loading f f [] [] [] [] [] 0.
Proof. split; try done. by intros []. Qed.

Lemma fileOf_snoc recs p : fileOf (recs ++ [p]) = fileOf recs ++ frame p.
Proof. unfold fileOf. by rewrite map_app, concat_app; cbn; rewrite app_nil_r. Qed.

(** The file starts with the records [recs] of the data [D]. *)
Definition startsWith (f : bytes) (recs : list bytes) (D : list Command) (rest : bytes) : Prop :=
  f = fileOf recs ++ rest /\ Forall2 (fun b c => UnmarshalVT b = OK c) recs D /\
  Forall (dataCommand tableName) D.

(** The file is the records of [D] and the marker [t]; after it a length without a
    record may follow, which reads like the end of the file. *)
Definition holdsSnapshot (f : bytes) (D : list Command) (t : Command) : Prop :=
  exists recs tb rest, startsWith f recs D (frame tb ++ rest) /\ UnmarshalVT tb = OK t /\
    terminalOf tableName t (maxIndex 0 D) /\ (rest = [] \/ len rest = 8).

(** What has been proposed when reading fails with [e]: some of the sequences of the data
    the file starts with, in order, or all of them and then the marker, which failed. *)
Definition partial (f : bytes) (e : error) (log : list Command) : Prop :=
  takenButLast log /\
  ((exists recs D rest chunks, startsWith f recs D rest /\
      chunks `prefix_of` chunksOf tableName maxBatchSize [] D /\ log = sequences chunks) \/
   (exists D t, holdsSnapshot f D t /\ log = proposals tableName maxBatchSize [] D t /\
      fails (sequences (chunksOf tableName maxBatchSize [] D)) t = Some e)).

(** What has been read and proposed when it succeeds. *)
Definition complete (f : bytes) (log : list Command) : Prop :=
  taken log /\ exists D t, holdsSnapshot f D t /\ log = proposals tableName maxBatchSize [] D t.

Lemma loading_starts f rest log recs D batch chunks mx :
  loading f rest log recs D batch chunks mx -> startsWith f recs D rest.
Proof. by intros [? ? ? ? ? ? ?]. Qed.

Lemma loading_chunks f rest log recs D batch chunks mx :
  loading f rest log recs D batch chunks mx ->
  chunksOf tableName maxBatchSize [] D = chunks ++ match batch with [] => [] | _ => [batch] end.
Proof. intros Hl. pose proof (ld_chunks _ _ _ _ _ _ _ _ Hl []) as E. by rewrite app_nil_r in E. Qed.

Lemma loading_partial f rest log recs D batch chunks mx e :
  loading f rest log recs D batch chunks mx -> partial f e log.
Proof.
  intros Hl. split; [apply taken_butLast, Hl|]. left. exists recs, D, rest, chunks.
  split_and!; [by eapply loading_starts| |apply Hl]. erewrite loading_chunks by done. by eexists.
Qed.

Lemma record_wp c log Q E : (fails log c = None -> Q tt (log ++ [c])) ->
  (forall e, fails log c = Some e -> E e (log ++ [c])) -> wp no_panic (record_ c) Q E log.
Proof. intros HQ HE. unfold wp, record_. destruct (fails log c); auto. Qed.

Lemma loading_data f p rest log recs D batch chunks mx c :
  loading f (frame p ++ rest) log recs D batch chunks mx -> UnmarshalVT p = OK c ->
  dataCommand tableName c ->
  if isFull tableName maxBatchSize (batch ++ [c])
  then (fails log (sequenceOf tableName (batch ++ [c])) = None ->
        loading f rest (log ++ [sequenceOf tableName (batch ++ [c])]) (recs ++ [p]) (D ++ [c]) []
          (chunks ++ [batch ++ [c]]) (Z.max mx (indexOf c))) /\
       forall e, partial f e (log ++ [sequenceOf tableName (batch ++ [c])])
  else loading f rest log (recs ++ [p]) (D ++ [c]) (batch ++ [c]) chunks (Z.max mx (indexOf c)).
Proof.
  intros [L1 L2 L3 L4 Lt L5 L6] Hd Hc.
  assert (Hf : f = fileOf (recs ++ [p]) ++ rest) by (by rewrite fileOf_snoc, <- app_assoc).
  assert (H2 : Forall2 (fun b c => UnmarshalVT b = OK c) (recs ++ [p]) (D ++ [c]))
    by (apply Forall2_app; [done|by repeat constructor]).
  assert (H3 : Forall (dataCommand tableName) (D ++ [c])) by (by apply Forall_app_2; [|apply Forall_singleton]).
  assert (H6 : Z.max mx (indexOf c) = maxIndex 0 (D ++ [c])) by (unfold maxIndex in *; by rewrite foldl_app, <- L6).
  assert (H5 : forall D', chunksOf tableName maxBatchSize [] ((D ++ [c]) ++ D') =
    chunks ++ chunksOf tableName maxBatchSize batch (c :: D')) by (intros D'; by rewrite <- app_assoc, L5).
  assert (H4 : log ++ [sequenceOf tableName (batch ++ [c])] = sequences (chunks ++ [batch ++ [c]]))
    by (by rewrite L4, map_app).
  cbn [chunksOf] in H5. destruct (isFull tableName maxBatchSize (batch ++ [c])); [split|by split].
  - intros Hok. split; try done; [by apply taken_snoc|]. intros D'. by rewrite H5, <- app_assoc.
  - intros e. split; [by apply takenButLast_snoc|]. left.
    exists (recs ++ [p]), (D ++ [c]), rest, (chunks ++ [batch ++ [c]]). split_and!; [by split_and!| |done].
    specialize (H5 []). rewrite app_nil_r in H5. rewrite H5. apply prefix_app. by eexists.
Qed.

(** Reading stops with what has been proposed so far. *)
Ltac stop :=
  first [done | match goal with Hp : forall e, partial _ e _ |- _ => exact (Hp _) end].

(** A record: data, or the marker. *)
Lemma readRecord_wp f p rest log recs D batch chunks mx :
  loading f (frame p ++ rest) log recs D batch chunks mx ->
  wp no_panic (readRecord record_ tableName maxBatchSize true p batch None mx)
    (fun r s => s.1 = rest /\ match r with
       | (batch', None, mx') => exists c chunks', loading f rest s.2 (recs ++ [p]) (D ++ [c]) batch' chunks' mx'
       | (batch', Some t, mx') => batch' = batch /\ mx' = mx /\ s.2 = log /\ UnmarshalVT p = OK t /\
           terminalOf tableName t mx
       end)
    (fun e s => partial f e s.2) (rest, log).
Proof.
  intros Hl. assert (Hpart : forall e, partial f e log) by (intros e; by eapply loading_partial).
  unfold readRecord.
  destruct (UnmarshalVT p) as [c|e|q] eqn:Ed; [|stop|by destruct (UnmarshalVT_no_panic p q)].
  destruct (bool_decide_reflect (cmd_Table c = tableName)) as [Et|]; [|stop]. cbn [negb].
  assert (Hdata : cmd_Type c = PUT \/ cmd_Type c = DELETE -> wp no_panic
    (if match cmd_Kv c with Some kv => len (kv_Key kv) =? 0 | None => true end
     then fail (ErrMsg "snapshot command has no key-value")
     else
       mx' ← match cmd_LeaderIndex c with
             | Some i => ret (if mx <? i then i else mx)
             | None => fail (ErrMsg "snapshot command has no leader index")
             end;
       (if (0 <? maxBatchSize) && (maxBatchSize <=? SizeVT (sequenceOf tableName (batch ++ [c])))
        then flush record_ tableName (batch ++ [c]) ;; ret ([], None, mx')
        else ret (batch ++ [c], None, mx')))
    (fun r s => s.1 = rest /\ match r with
       | (batch', None, mx') => exists c chunks', loading f rest s.2 (recs ++ [p]) (D ++ [c]) batch' chunks' mx'
       | (batch', Some t, mx') => batch' = batch /\ mx' = mx /\ s.2 = log /\ OK c = OK t /\
           terminalOf tableName t mx
       end) (fun e s => partial f e s.2) (rest, log)).
  { intros Hty. destruct (cmd_Kv c) as [kv|] eqn:Ek; [|stop].
    destruct (Z.eqb_spec (len (kv_Key kv)) 0) as [|Hk]; [stop|].
    destruct (cmd_LeaderIndex c) as [i|] eqn:Ei; [|stop]. apply wp_bind, wp_ret.
    assert (dataCommand tableName c) as Hc.
    { split; [done..| |by rewrite Ei]. exists kv. split; [done|]. intros E. by rewrite E in Hk. }
    pose proof (loading_data f p rest log recs D batch chunks mx c Hl Ed Hc) as Hn.
    assert ((if mx <? i then i else mx) = Z.max mx (indexOf c)) as ->
      by (unfold indexOf; rewrite Ei; cbn; destruct (Z.ltb_spec mx i); lia).
    unfold isFull in Hn. destruct (_ && _); [|apply wp_ret; split; [done|]; by eauto].
    destruct Hn as [Hok Hno].
    apply wp_bind. unfold flush. destruct (batch ++ [c]) as [|x l] eqn:El; [by destruct batch|].
    unfold onTable. apply wp_zoom, record_wp; [|by intros e _; apply Hno].
    intros Hx. apply wp_ret. split; [done|]. specialize (Hok Hx). by eauto. }
  destruct (cmd_Type c) eqn:Ety; try stop; try (by apply Hdata; auto).
  clear Hdata. destruct (cmd_LeaderIndex c) as [i|] eqn:Ei; [|stop].
  destruct (hasData c) eqn:Eh; [stop|]. destruct (Z.ltb_spec i mx); [stop|].
  apply wp_ret. split_and!; try done. split; [done..|]. by exists i.
Qed.

(** The marker is proposed at the end of the file. *)
Lemma readLoop_marker fuel f p rest log recs D batch chunks mx t :
  loading f (frame p ++ rest) log recs D batch chunks mx -> UnmarshalVT p = OK t ->
  terminalOf tableName t mx -> (length rest < fuel)%nat ->
  wp (fun q => q = IndexOutOfRange) (loop fuel batch (Some t) mx)
    (fun _ s => complete f s.2) (fun e s => partial f e s.2) (rest, log).
Proof.
  intros Hl Hd Ht Hf. destruct fuel as [|fuel]; [lia|].
  assert (Hpart : forall e, partial f e log) by (intros e; by eapply loading_partial).
  pose proof (loading_chunks _ _ _ _ _ _ _ _ Hl) as Hch. pose proof (loading_starts _ _ _ _ _ _ _ _ Hl) as Hst.
  destruct Hl as [_ _ _ L4 Lt _ L6].
  cbn [readLoop]. apply wp_bind. unfold onReader. apply wp_zoom. cbn [fst snd]. unfold wp at 1.
  pose proof (Read_cases rest) as Hr. destruct (snapshotFile_Read _ rest) as [[m [e|]] r| |];
    [|destruct Hr as [Hr _]|done|done].
  - destruct Hr as (-> & -> & Hr). apply wp_bind, wp_ret.
    destruct (bool_decide_reflect (e = io_EOF)) as [->|]; [|stop]. cbn [negb].
    assert (Hsnap : holdsSnapshot f D t).
    { exists recs, p, rest. split_and!; [done..|by rewrite <- L6|by apply Hr]. }
    set (last_ := sequences match batch with [] => [] | _ => [batch] end).
    assert (Hseq : log ++ last_ = sequences (chunksOf tableName maxBatchSize [] D))
      by (by rewrite Hch, map_app, L4).
    assert (Hfin : taken (log ++ last_) -> wp (fun q => q = IndexOutOfRange) (onTable (R := bytes) (record_ t))
      (fun _ s => complete f s.2) (fun e s => partial f e s.2) ([], log ++ last_)).
    { intros Hok. unfold onTable. apply wp_zoom. cbn [fst snd]. unfold wp, record_. rewrite Hseq in Hok |- *.
      fold (proposals tableName maxBatchSize [] D t).
      destruct (fails _ t) as [e|] eqn:Ef; cbn [snd].
      - split; [by apply takenButLast_snoc|]. right. by exists D, t.
      - split; [by apply taken_snoc|]. by exists D, t. }
    apply wp_bind. unfold flush. destruct batch as [|x l]; cbn in last_;
      [subst last_; rewrite app_nil_r in Hfin; by apply wp_ret, Hfin|].
    unfold onTable at 1. apply wp_zoom. cbn [fst snd]. unfold wp at 1, record_.
    destruct (fails log _) as [e|] eqn:Ef; cbn [snd]; [|by apply Hfin, taken_snoc].
    split; [by apply takenButLast_snoc|]. left. eexists recs, D, _, _. split_and!; [exact Hst|done|exact Hseq].
  - apply wp_bind. destruct (Z.ltb_spec 0 (len m)); [stop|]. apply wp_ret.
    destruct (Z.eqb_spec (len m) 0); [stop|]. pose proof (len_nonneg m). lia.
Qed.

Lemma readLoop_any fuel : forall f rest log recs D batch chunks mx,
  loading f rest log recs D batch chunks mx -> (length rest < fuel)%nat ->
  wp (fun q => q = IndexOutOfRange) (loop fuel batch None mx)
    (fun _ s => complete f s.2) (fun e s => partial f e s.2) (rest, log).
Proof.
  induction fuel as [|fuel IH]; intros f rest log recs D batch chunks mx Hl Hf; [lia|].
  assert (Hpart : forall e, partial f e log) by (intros e; by eapply loading_partial).
  cbn [readLoop]. apply wp_bind. unfold onReader. apply wp_zoom. cbn [fst snd]. unfold wp at 1.
  pose proof (Read_cases rest) as Hr. destruct (snapshotFile_Read _ rest) as [[p [e|]] r| |];
    [|destruct Hr as [-> Hr]|done|done].
  - destruct Hr as (-> & -> & _). apply wp_bind, wp_ret. destruct (negb _); stop.
  - apply wp_bind. destruct (Z.ltb_spec 0 (len p)) as [Hp|Hp].
    2: { apply wp_ret. destruct (Z.eqb_spec (len p) 0); [stop|]. pose proof (len_nonneg p). lia. }
    assert (Hlen : (length r < fuel)%nat).
    { unfold frame in Hf. rewrite !length_app in Hf. unfold len in Hp. lia. }
    pose proof (readRecord_wp f p r log recs D batch chunks mx Hl) as Hw.
    unfold wp in Hw |- * at 1. destruct (readRecord _ _ _ _ _ _ _ _ _) as [[[b' [t|]] mx'] [r' log']|e s'|q];
      [| |done|done]; cbn [fst snd] in *.
    + destruct Hw as (-> & -> & -> & -> & Hd & Ht).
      destruct (Z.eqb_spec (len p) 0); [lia|]. by eapply readLoop_marker.
    + destruct Hw as (-> & c & chunks' & Hl'). destruct (Z.eqb_spec (len p) 0); [lia|]. by eapply IH.
Qed.

(** C18: whatever bytes a snapshot file holds and whichever proposals fail, the terminal
    marker is proposed last, once all the data is in.  Reading succeeds only if the file
    is a sequence of data records and a marker not behind them, followed by nothing or by
    a length without its record, which reads like the end of the file; then every
    proposal was taken: the data in the order of the file, cut into sequences, and the
    marker.  When reading fails, no proposal was made after one that failed, and what was
    proposed is a first part of those sequences, cut from the data records the file
    starts with and without a leader index, or the file was such a snapshot, all of it
    was proposed, and the proposal of the marker is what failed.  The only panic is that
    of a record longer than the buffer. *)
Theorem readSnapshot_any fuel f : (length f < fuel)%nat ->
  wp (fun q => q = IndexOutOfRange)
    (readSnapshot snapshotFile_Read tableName maxBatchSize record_ fuel)
    (fun _ s => complete f s.2) (fun e s => partial f e s.2) (f, []).
Proof. intros Hf. by apply (readLoop_any fuel f f [] [] [] [] [] 0), Hf; apply loading_start. Qed.

End any.
