(* ===== verification/FsmReplay.v ===== *)
(** * Replaying a snapshot

    What the commands of a snapshot do to the rows of the table that loads it, applied
    once or several times, and when the table is then that of the snapshot. *)
From S2P Require Import Prelude Raftpb LogDB Wire WireSpec Bytes Key KeySpec Armadapb Pebble.
From S2P Require Import Session RsmMembership Encoded TaskQueue Rsm.
From S2P Require Import FsmQuery FsmCommand Fsm FsmView FsmRange FsmRead FsmSpec FsmWrite.
From S2P Require Import FsmUpdate FsmGC FsmSweep FsmStream SnapshotFile.
From Stdlib Require Import Strings.Byte.
Import armadapb.

(** ** Records on rows *)

(** Replaying a record: a deletion writes a tombstone only if the key has a value. *)
Inductive replays (m : rowmap) : record -> rowmap -> Prop :=
| replays_put k s v : isTombstone v = false -> replays m (k, s, v) (<[ukey k s := v]> m)
| replays_delete k s v w : isTombstone v = true -> live m k w ->
    replays m (k, s, v) (<[ukey k s := tombstoneValue]> m)
| replays_gone k s v : isTombstone v = true -> (forall w, ~ live m k w) -> replays m (k, s, v) m.

Inductive replaysAll : rowmap -> list record -> rowmap -> Prop :=
| replaysAll_nil m : replaysAll m [] m
| replaysAll_cons m r m1 L m2 : replays m r m1 -> replaysAll m1 L m2 -> replaysAll m (r :: L) m2.

Definition goodRec (r : record) : Prop := goodKey (rec_Key r) /\ is_u64 (rec_Seqno r).

Lemma replays_tableRows m r m' : replays m r m' -> goodRec r -> tableRows m -> tableRows m'.
Proof. intros Hr [Hk Hs] Hm. destruct Hr; [by apply tableRows_insert..|done]. Qed.

Lemma replaysAll_tableRows m L m' : replaysAll m L m' -> Forall goodRec L -> tableRows m -> tableRows m'.
Proof.
  induction 1 as [|m r m1 L m2 Hr _ IH]; [done|]. intros [Hg HL]%Forall_cons Hm.
  apply IH; [done|]. by eapply replays_tableRows.
Qed.

(** ** Catching up *)

Section progress.
Context (f0 : rowmap) (L : list record).
Context (HL : NoDup (map rec_Key L)) (Hgood : Forall goodRec L).

(** No version of a key is newer than its record. *)
Context (Hold : forall k s v s' v', (k, s, v) ∈ L -> is_u64 s' -> f0 !! ukey k s' = Some v' -> s' <= s).

(** The key shows the record. *)
Definition settled (m : rowmap) (k : bytes) (s : Z) (v : bytes) : Prop :=
  (forall s' v', is_u64 s' -> m !! ukey k s' = Some v' -> s' <= s) /\
  (forall w, live m k w <-> w = v /\ isTombstone v = false).

(** The keys of [D] show their records, the others are as they were. *)
Definition caughtUp (D : list record) (m : rowmap) : Prop :=
  forall k, goodKey k ->
    (exists s v, (k, s, v) ∈ D /\ settled m k s v) \/
    (forall s v, (k, s, v) ∉ D) /\ forall s, is_u64 s -> m !! ukey k s = f0 !! ukey k s.

Lemma caughtUp_nil : caughtUp [] f0.
Proof. intros k Hk. right. split; [|done]. intros s v. apply not_elem_of_nil. Qed.

Lemma record_unique k s v s' v' : (k, s, v) ∈ L -> (k, s', v') ∈ L -> s = s' /\ v = v'.
Proof.
  clear Hold. intros H1 H2. induction L as [|r L' IH]; [by apply elem_of_nil in H1|].
  cbn [map] in HL. apply NoDup_cons in HL as [Hr HL']. apply Forall_cons in Hgood as [_ Hg].
  apply elem_of_cons in H1 as [E1|H1]; apply elem_of_cons in H2 as [E2|H2].
  - rewrite <- E1 in E2. by injection E2 as -> ->.
  - destruct Hr. subst r. by apply (list_elem_of_fmap_2 rec_Key _ _ H2).
  - destruct Hr. subst r. by apply (list_elem_of_fmap_2 rec_Key _ _ H1).
  - by apply IH.
Qed.

Lemma insert_settled m k s v : is_u64 s ->
  (forall s' v', is_u64 s' -> m !! ukey k s' = Some v' -> s' <= s) -> settled (<[ukey k s := v]> m) k s v.
Proof.
  intros Hs Hmax. assert (Hn : newest (<[ukey k s := v]> m) k s v).
  { split_and!; [done|by rewrite lookup_insert_eq|]. intros s' v' Hs' [[E _]|[_ Hv]]%lookup_insert_Some.
    - apply phys_inj in E as (_ & _ & ->); [lia|done..].
    - by eapply Hmax. }
  split; [apply Hn|]. intros w. split.
  - intros (s' & Hw & Ht). destruct (newest_inj _ _ _ _ _ _ Hn Hw) as [_ <-]. done.
  - intros [-> Ht]. by exists s.
Qed.

Lemma isTombstone_eq v : isTombstone v = true -> v = tombstoneValue.
Proof. unfold isTombstone, tombstoneValue. by destruct v as [|[] [|]]. Qed.

(** A version of another key does not matter. *)
Lemma caughtUp_other m k s v k' : is_u64 s -> k' <> k ->
  (forall s', is_u64 s' -> <[ukey k s := v]> m !! ukey k' s' = m !! ukey k' s') /\
  (forall s2 v2, settled m k' s2 v2 -> settled (<[ukey k s := v]> m) k' s2 v2).
Proof.
  intros Hs Hne. assert (Hl : forall s', is_u64 s' -> <[ukey k s := v]> m !! ukey k' s' = m !! ukey k' s').
  { intros s' Hs'. apply lookup_insert_ne. intros E. by apply phys_inj in E as (_ & -> & _). }
  split; [done|]. intros s2 v2 [H1 H2]. split.
  - intros s' v' Hs'. rewrite Hl by done. by apply H1.
  - intros w. by rewrite live_insert_ne.
Qed.

Lemma caughtUp_replay D r m m' : (forall r', r' ∈ D -> r' ∈ L) -> r ∈ L -> caughtUp D m ->
  replays m r m' -> caughtUp (r :: D) m'.
Proof.
  intros HD Hr Hc Hrep. destruct r as [[k s] v]. assert (Hg := Hr). eapply Forall_forall in Hg; [|exact Hgood].
  destruct Hg as [Hk Hs]. cbn in Hk, Hs.
  assert (Hmax : forall s' v', is_u64 s' -> m !! ukey k s' = Some v' -> s' <= s).
  { destruct (Hc k Hk) as [(s1 & v1 & Hin & [H1 _])|[_ He]].
    - destruct (record_unique k s v s1 v1 Hr) as [-> _]; [by apply HD|done].
    - intros s' v' Hs'. rewrite He by done. by eapply Hold. }
  assert (Hself : settled m' k s v).
  { inversion Hrep as [? ? ? Ht|? ? ? w Ht Hw|? ? ? Ht Hno]; subst; [by apply insert_settled|..].
    - rewrite (isTombstone_eq v) by done. by apply insert_settled.
    - split; [done|]. intros w. split; [by intros Hw%Hno|]. intros [_ ?]. congruence. }
  intros k' Hk'. destruct (decide (k' = k)) as [->|Hne].
  { left. exists s, v. split; [left|done]. }
  assert (Hrest : (forall s', is_u64 s' -> m' !! ukey k' s' = m !! ukey k' s') /\
    (forall s2 v2, settled m k' s2 v2 -> settled m' k' s2 v2)).
  { by inversion Hrep; subst; [apply caughtUp_other..|]. }
  destruct Hrest as [R1 R2]. destruct (Hc k' Hk') as [(s1 & v1 & Hin & Hset)|[Hn He]].
  - left. exists s1, v1. split; [by right|by apply R2].
  - right. split; [|intros s' Hs'; by rewrite R1, He].
    intros s2 v2 [E|Hin]%elem_of_cons; [by injection E as -> _ _|by apply (Hn s2 v2)].
Qed.

Lemma caughtUp_replays D R m m' : (forall r, r ∈ D -> r ∈ L) -> (forall r, r ∈ R -> r ∈ L) ->
  caughtUp D m -> replaysAll m R m' ->
  exists D', (forall r, r ∈ D' <-> r ∈ D \/ r ∈ R) /\ caughtUp D' m'.
Proof.
  intros HD HR Hc Hrep. revert D HD HR Hc. induction Hrep as [m|m r m1 R m2 Hr _ IH]; intros D HD HR Hc.
  - exists D. split; [|done]. intros r. rewrite elem_of_nil. tauto.
  - destruct (IH (r :: D)) as (D' & HD' & Hc').
    + intros r' [->|Hin]%elem_of_cons; [apply HR; left|by apply HD].
    + intros r' Hin. apply HR. by right.
    + eapply caughtUp_replay; [done|apply HR; left|done|done].
    + exists D'. split; [|done]. intros r'. rewrite HD', !elem_of_cons. tauto.
Qed.

Lemma caughtUp_sys D m pk w : sysRow pk -> caughtUp D m -> caughtUp D (<[pk := w]> m).
Proof.
  intros Hpk Hc k Hk.
  assert (Hl : forall s, <[pk := w]> m !! ukey k s = m !! ukey k s)
    by (intros s; apply lookup_insert_ne; by apply sysRow_ne).
  destruct (Hc k Hk) as [(s & v & Hin & [H1 H2])|[Hn He]].
  - left. exists s, v. split; [done|]. split.
    + intros s' v' Hs'. rewrite Hl. by apply H1.
    + intros w'. by rewrite live_sys.
  - right. split; [done|]. intros s Hs. by rewrite Hl, He.
Qed.

Lemma caughtUp_ext D D' m : (forall r, r ∈ D <-> r ∈ D') -> caughtUp D m -> caughtUp D' m.
Proof.
  intros HD Hc k Hk. destruct (Hc k Hk) as [(s & v & Hin & Hset)|[Hn He]].
  - left. exists s, v. split; [by apply HD|done].
  - right. split; [|done]. intros s v Hin. by apply HD, Hn in Hin.
Qed.

End progress.

(** ** The handlers *)

Section handlers.
Context `{PebbleSpec} `{CommandCodecSpec} (fuel : nat) (tableName : bytes).

Abbreviation recCmd := (recordCommand tableName).
Abbreviation keepsDB c := (fun (_ : error) c' => db c' = db c).

Lemma replay_put_wp k v c : is_u64 (seqno c) ->
  wp no_panic (handlePut (mkPut k v false))
    (fun _ c' => cur c' = <[ukey k (seqno c) := v]> (cur c) /\ sameCtx c c') (keepsDB c) c.
Proof.
  intros Hs. unfold handlePut. apply wp_bind. unfold wp at 1, get. apply wp_bind, wp_readr.
  cbn [p_Key p_PrevKv p_Value]. rewrite encodeUserKey_phys. apply wp_bind, wp_ret, wp_bind.
  eapply wp_mono; [apply batchSet_wp| |done]. intros _ c' (E & Hsame & _). by apply wp_ret.
Qed.

Lemma replay_delete_wp k c v : goodKey k -> is_u64 (seqno c) -> tableRows (cur c) ->
  isTombstone v = true ->
  wp no_panic (handleDelete fuel (mkDelete k None false false))
    (fun _ c' => replays (cur c) (k, seqno c, v) (cur c') /\ sameCtx c c') (keepsDB c) c.
Proof.
  intros Hk Hs Hm Ht. unfold handleDelete, deleteSingle. cbn [d_RangeEnd d_Key d_PrevKv d_Count orb].
  apply wp_bind. eapply wp_mono; [apply EnsureIndexed_wp| |done]. intros _ c1 (E1 & Hs1 & Hi1).
  apply wp_bind, wp_readr.
  pose proof (singleLookup_spec (batchReader c1) (mkRange k None 0 false true)) as Hl.
  rewrite batchReader_rows, E1 in Hl by done. specialize (Hl Hm Hk). cbn [r_Key] in Hl.
  destruct (singleLookup _ _) as [resp|e|p]; [|by destruct Hs1|done].
  destruct Hl as [(w & Hw & ->)|[Hno ->]]; cbn [found r_CountOnly rr_Count emptyRange Z.eqb].
  - apply wp_bind. unfold putTombstone. apply wp_bind, wp_readr. rewrite encodeUserKey_phys.
    rewrite (sameCtx_seqno c c1 Hs1). apply (keepsDB_trans _ _ c c1 Hs1).
    eapply wp_mono; [apply batchSet_wp| |done].
    intros _ c2 (E2 & Hs2 & _). apply wp_ret. split; [|by eapply sameCtx_trans].
    rewrite E2, E1. by eapply replays_delete.
  - apply wp_ret. split; [|done]. rewrite E1. by apply replays_gone.
Qed.

(** The command of a record, with the leader index it carries. *)
Lemma handle_record r c : goodRec r -> tableRows (cur c) -> leaderIndex c = Some (rec_Seqno r) ->
  wp no_panic (handle fuel (recCmd r))
    (fun x c' => x.1 = ResultSuccess /\ replays (cur c) r (cur c') /\ sameCtx c c') (keepsDB c) c.
Proof.
  destruct r as [[k s] v]. intros [Hk Hs] Hm Hli. cbn in Hk, Hs, Hli.
  assert (Hseq : seqno c = s) by (unfold seqno; by rewrite Hli).
  unfold recordCommand. cbn [rec_Value rec_Key rec_Seqno fst snd]. destruct (isTombstone v) eqn:Et.
  - cbn [handle cmd_Type]. unfold commandDelete_handle. cbn [cmd_Kv deref newKV kv_Key cmd_RangeEnd cmd_PrevKvs cmd_Count].
    apply wp_bind, wp_ret, wp_bind.
    eapply wp_mono; [apply (replay_delete_wp k c v); by rewrite ?Hseq| |done].
    intros resp c' [Hr Hsame]. apply succeed_wp. by rewrite Hseq in Hr.
  - cbn [handle cmd_Type]. unfold commandPut_handle. cbn [cmd_Kv deref newKV kv_Key kv_Value cmd_PrevKvs].
    apply wp_bind, wp_ret, wp_bind.
    eapply wp_mono; [apply replay_put_wp; by rewrite Hseq| |done].
    intros resp c' [E Hsame]. apply succeed_wp. split_and!; [done| |done]. rewrite E, Hseq. by apply replays_put.
Qed.

Lemma handle_records L : forall c, Forall goodRec L -> tableRows (cur c) ->
  wp no_panic (handleSequence fuel None (map recCmd L))
    (fun _ c' => replaysAll (cur c) L (cur c') /\ sameCtx (set_leaderIndex (leaderIndex c') c) c')
    (keepsDB c) c.
Proof.
  induction L as [|r L IH]; intros c HL Hm; cbn [map handleSequence].
  { apply wp_ret. split; [constructor|by split]. }
  apply Forall_cons in HL as [Hr HL]. apply wp_bind, wp_modify, wp_bind.
  assert (El : match cmd_LeaderIndex (recCmd r) with Some i => Some i | None => None end = Some (rec_Seqno r))
    by (unfold recordCommand; by destruct (isTombstone (rec_Value r))).
  rewrite El. set (c1 := set_leaderIndex (Some (rec_Seqno r)) c).
  eapply wp_mono; [apply (handle_record r c1 Hr); done| |done].
  intros [ur res] c2 (_ & Hrep & [S1 S2 S3 S4]). apply wp_bind.
  eapply wp_mono; [apply (IH c2 HL)| |].
  - by eapply (replays_tableRows (cur c1)).
  - intros rs c3 [Hreps [T1 T2 T3 T4]]. apply wp_ret. split; [by econstructor|].
    split; cbn in *; [congruence|congruence|done|auto].
  - intros e c3 Hd. cbn in *. congruence.
Qed.

Lemma handle_sequenceOf L c : Forall goodRec L -> tableRows (cur c) -> leaderIndex c = None ->
  wp no_panic (handle fuel (sequenceOf tableName (map recCmd L)))
    (fun x c' => x.1 = ResultSuccess /\ replaysAll (cur c) L (cur c') /\ sameCtx c c') (keepsDB c) c.
Proof.
  intros HL Hm Hli. rewrite handle_sequence by done. apply wp_bind. unfold wp at 1, get. rewrite Hli.
  cbn [cmd_Sequence sequenceOf]. pose proof (handle_records L c HL Hm) as Hw.
  unfold restoringLeader, wp, mbind, M_bind, ret in *.
  destruct (handleSequence fuel None (map recCmd L) c) as [rs c2|e2 c2|p]; [|done..].
  destruct Hw as [Hrep [S1 S2 S3 S4]]. cbn in *. split_and!; [done|exact Hrep|by split].
Qed.

(** ** One update *)

(** The indexes stored with an update. *)
Definition withIndex (idx : Z) (li : option Z) (m : rowmap) : rowmap :=
  <[sysLocalIndex := LittleEndian_PutUint64 idx]>
    (match li with Some i => <[sysLeaderIndex := LittleEndian_PutUint64 i]> m | None => m end).

Lemma Commit_rows c :
  wp no_panic Commit
    (fun _ c' => rows (of_DB (db c')) = withIndex (index c) (leaderIndex c) (cur c) /\
                 leaderIndex c' = leaderIndex c)
    (fun _ c' => db c' = db c) c.
Proof.
  unfold Commit. apply wp_bind. unfold wp at 1, get. apply wp_bind.
  eapply wp_mono with (E := fun _ c' => db c' = db c) (Q := fun _ c1 => sameCtx c c1 /\
    cur c1 = match leaderIndex c with Some i => <[sysLeaderIndex := LittleEndian_PutUint64 i]> (cur c)
             | None => cur c end).
  - destruct (leaderIndex c) as [i|]; [|by apply wp_ret].
    eapply wp_mono; [apply batchSet_wp| |done]. by intros _ c1 (E & Hs & _).
  - intros _ c1 [Hs E]. apply wp_bind.
    eapply wp_mono; [apply batchSet_wp| |by intros e c2 Hd; cbn in *; rewrite Hd; apply Hs].
    intros _ c2 (E2 & Hs2 & _). apply wp_bind, wp_readr. pose proof (Commit_spec (batch c2) (db c2)) as Hc.
    destruct (batch_Commit (batch c2) (db c2)) as [d|e|p];
      [|by rewrite (sc_db _ _ Hs2), (sc_db _ _ Hs)|done].
    apply wp_modify. cbn [db set_db leaderIndex]. fold (cur c2) in Hc. rewrite Hc, E2, E.
    split; [done|]. rewrite (sc_leader _ _ Hs2). apply Hs.
  - done.
Qed.

(** An entry applied on its own: its rows and its indexes are committed, or nothing is. *)
Lemma Update_one (e : smEntry) (cmd : Command) (p : FSM) (Q : rowmap -> Prop) : UnmarshalVTUnsafe (sme_Cmd e) = OK cmd ->
  (forall c, cur c = rows (of_DB (pebble p)) -> leaderIndex c = cmd_LeaderIndex cmd ->
     wp no_panic (handle fuel cmd)
       (fun x c' => x.1 = ResultSuccess /\ Q (cur c') /\ sameCtx c c') (keepsDB c) c) ->
  wp no_panic (Update fuel [e])
    (fun _ p' => exists m, Q m /\
       rows (of_DB (pebble p')) = withIndex (sme_Index e) (cmd_LeaderIndex cmd) m)
    (fun _ p' => p' = p) p.
Proof.
  intros Hd Hh. set (c0 := mkCtx (NewBatch (pebble p)) (pebble p) 0 None).
  assert (Hw : wp no_panic ('(es', idx, h) ← applyEntries fuel [e] 0 0; Commit ;; ret (es', idx, h))
    (fun _ c' => exists m, Q m /\
       rows (of_DB (db c')) = withIndex (sme_Index e) (cmd_LeaderIndex cmd) m)
    (fun _ c' => db c' = pebble p) c0).
  { apply wp_bind. cbn [applyEntries]. apply wp_bind. unfold applyEntry, parseCommand.
    apply wp_bind, wp_bind, wp_modify, wp_bind, wp_readr. rewrite Hd. apply wp_bind, wp_modify, wp_ret, wp_bind.
    set (c1 := set_leaderIndex _ _). eapply wp_mono; [apply (Hh c1); [|done]| |done].
    { unfold cur. cbn. by rewrite NewBatch_spec. }
    intros [ur res] c2 (_ & HQ & [S1 S2 S3 S4]). apply wp_bind, wp_readr.
    destruct (MarshalResult res) as [bts|err|q] eqn:Em;
      [|done|by destruct (MarshalResult_no_panic res q)].
    apply wp_ret, wp_bind, wp_ret, wp_ret, wp_bind. eapply wp_mono; [apply Commit_rows| |].
    - intros [] c3 [E _]. apply wp_ret. exists (cur c2). split; [done|]. by rewrite E, S2, S3.
    - intros err c3 Hd3. cbn in *. congruence. }
  unfold Update, wp in *. fold c0.
  destruct (('(es', idx, h) ← applyEntries fuel [e] 0 0; Commit ;; ret (es', idx, h)) c0)
    as [[[es' idx] h] c'|er c'|q]; [|by rewrite Hw; destruct p|done].
  destruct Hw as (m & HQ & E). exists m. split; [done|]. by destruct (0 <? h).
Qed.

End handlers.
