(* ===== verification/SnapshotRestore.v ===== *)
(** * A snapshot restores the table

    Writing a snapshot of a table, reading the file into another table and applying what
    is proposed there gives the table of the snapshot; the leader index is stored only
    when it does.  A proposal may be applied more than once, as the retries of
    [readIntoTable] allow. *)
From S2P Require Import Prelude Raftpb LogDB Wire WireSpec Bytes Key KeySpec Armadapb Pebble.
From S2P Require Import Session RsmMembership Encoded TaskQueue Rsm.
From S2P Require Import FsmQuery FsmCommand Fsm FsmView FsmRange FsmRead FsmSpec FsmWrite.
From S2P Require Import FsmUpdate FsmGC FsmSweep FsmStream SnapshotFile SnapshotLoad FsmReplay.
From Stdlib Require Import Strings.Byte.
Import armadapb.

(** ** Tables with the same values *)

Definition sameTable (m m' : rowmap) : Prop := forall k v, goodKey k -> live m k v <-> live m' k v.

#[export] Instance sameTable_equivalence : Equivalence sameTable.
Proof.
  split.
  - by intros m k v.
  - intros m m' Hm k v Hk. symmetry. by apply Hm.
  - intros m1 m2 m3 H12 H23 k v Hk. etrans; [by apply H12|by apply H23].
Qed.

(** ** Lists cut into pieces *)

Lemma concat_map_inv {A B} (f : A -> B) (cs : list (list B)) : forall L, concat cs = map f L ->
  exists Ls, cs = map (map f) Ls /\ concat Ls = L.
Proof.
  induction cs as [|c cs IH]; intros L E; cbn in E.
  { symmetry in E. apply map_eq_nil in E as ->. by exists []. }
  symmetry in E. apply map_eq_app in E as (L1 & L2 & -> & <- & E2).
  destruct (IH L2) as (Ls & -> & <-); [done|]. by exists (L1 :: Ls).
Qed.

(** ** Proposals *)

Section proposals.
Context `{PebbleSpec} `{!CommandCodec} `{!CommandCodecSpec} `{!CommandRoundtrip} (fuel : nat) (table : bytes).

(** A command applied one or more times. *)
Inductive applied (cmd : Command) : FSM -> FSM -> Prop :=
| applied_once p e es p' : MarshalCommand cmd = OK (sme_Cmd e) -> Update fuel [e] p = Ret es p' ->
    applied cmd p p'
| applied_again p p1 p' : applied cmd p p1 -> applied cmd p1 p' -> applied cmd p p'.

(** The machine takes the command without a panic, also when it is repeated. *)
Definition takes (cmd : Command) (p : FSM) : Prop :=
  forall p', p' = p \/ applied cmd p p' -> forall e q, MarshalCommand cmd = OK (sme_Cmd e) ->
    Update fuel [e] p' <> Panic q.

(** A proposal is applied when it succeeds, and may have been when it fails. *)
Class Proposes (propose : Command -> M FSM unit) : Prop := {
  propose_applies cmd p : takes cmd p ->
    wp no_panic (propose cmd) (fun _ p' => applied cmd p p') (fun _ p' => p' = p \/ applied cmd p p') p }.

Abbreviation recCmd := (recordCommand table).
Abbreviation storeOf p := (rows (of_DB (pebble p))).

Lemma plain_record r : goodRec r -> plainCommand (recCmd r).
Proof.
  intros [_ Hs]. unfold recordCommand.
  destruct (isTombstone (rec_Value r)); constructor; try done; try (by intros i [= <-]); by intros k [= <-].
Qed.

Lemma plain_sequence L : Forall goodRec L -> plainCommand (sequenceOf table (map recCmd L)).
Proof.
  intros HL. constructor; try done. apply Forall_map. eapply Forall_impl; [done|]. apply plain_record.
Qed.

Lemma plain_terminal i : is_u64 i -> plainCommand (terminalCommand table i).
Proof. intros Hi. constructor; try done. by intros j [= <-]. Qed.

Lemma replaysAll_sys m L m' pk : replaysAll m L m' -> sysRow pk -> m' !! pk = m !! pk.
Proof.
  intros Hr Hpk. induction Hr as [|m r m1 L m2 Hr _ IH]; [done|]. rewrite IH.
  destruct Hr; [rewrite lookup_insert_ne; [done|] ..|done];
    intros E; symmetry in E; by apply (sysRow_ne pk _ _ Hpk) in E.
Qed.

(** *** The table that loads *)

Context (f0 : rowmap) (L0 : list record).
Context (HL : NoDup (map rec_Key L0)) (Hgood : Forall goodRec L0).
Context (Hold : forall k s v s' v', (k, s, v) ∈ L0 -> is_u64 s' -> f0 !! ukey k s' = Some v' -> s' <= s).

(** It has replayed [D], and its leader index is [li]. *)
Record loaded (D : list record) (li : option bytes) (p : FSM) : Prop := {
  lo_rows : tableRows (storeOf p);
  lo_caught : caughtUp f0 D (storeOf p);
  lo_leader : storeOf p !! sysLeaderIndex = li;
  lo_sub : forall r, r ∈ D -> r ∈ L0 }.

Lemma withIndex_loaded D m idx li : tableRows m -> caughtUp f0 D m ->
  tableRows (withIndex idx li m) /\ caughtUp f0 D (withIndex idx li m) /\
  withIndex idx li m !! sysLeaderIndex =
    match li with Some i => Some (LittleEndian_PutUint64 i) | None => m !! sysLeaderIndex end.
Proof.
  intros Hm Hc. assert (Y1 : sysRow sysLocalIndex) by (by left).
  assert (Y2 : sysRow sysLeaderIndex) by (right; by left). unfold withIndex.
  destruct li as [i|]; split_and!; repeat (apply tableRows_sys || apply caughtUp_sys); try done;
    rewrite lookup_insert_ne by done; [by rewrite lookup_insert_eq|done].
Qed.

Lemma Update_sequence R e p : (forall r, r ∈ R -> r ∈ L0) ->
  MarshalCommand (sequenceOf table (map recCmd R)) = OK (sme_Cmd e) -> forall D li, loaded D li p ->
  wp no_panic (Update fuel [e])
    (fun _ p' => exists D', (forall r, r ∈ D' <-> r ∈ D \/ r ∈ R) /\ loaded D' li p') (fun _ _ => True) p.
Proof.
  intros HR Hm D li [P1 P2 P3 P4]. assert (HgR : Forall goodRec R).
  { apply Forall_forall. intros r Hr. eapply Forall_forall in Hgood; [done|by apply HR]. }
  eapply wp_mono; [apply (Update_one fuel e (sequenceOf table (map recCmd R)) p (fun m => replaysAll (storeOf p) R m))| |done].
  - apply (Marshal_roundtrip _ _ (plain_sequence R HgR) Hm).
  - intros c Ec Hli. rewrite <- Ec. apply handle_sequenceOf; [done|by rewrite Ec|done].
  - intros es p' (m & Hrep & E).
    destruct (caughtUp_replays f0 L0 HL Hgood Hold D R _ m P4 HR P2 Hrep) as (D' & HD' & Hc').
    exists D'. split; [done|].
    destruct (withIndex_loaded D' m (sme_Index e) None) as (W1 & W2 & W3);
      [by eapply replaysAll_tableRows|done|].
    cbn [cmd_LeaderIndex sequenceOf] in E. split; rewrite ?E; [done..| |].
    + rewrite W3, (replaysAll_sys _ R) by (done || (right; by left)). done.
    + intros r [Hr|Hr]%HD'; [by apply P4|by apply HR].
Qed.

Lemma applied_sequence R p p' : applied (sequenceOf table (map recCmd R)) p p' ->
  (forall r, r ∈ R -> r ∈ L0) -> forall D li, loaded D li p ->
  exists D', (forall r, r ∈ D' <-> r ∈ D \/ r ∈ R) /\ loaded D' li p'.
Proof.
  intros Ha HR. induction Ha as [p e es p' Hm Hu|p p1 p' _ IH1 _ IH2]; intros D li Hp.
  - pose proof (Update_sequence R e p HR Hm D li Hp) as Hw. unfold wp in Hw. by rewrite Hu in Hw.
  - destruct (IH1 D li Hp) as (D1 & Hd1 & Hp1). destruct (IH2 D1 li Hp1) as (D2 & Hd2 & Hp2).
    exists D2. split; [|done]. intros r. rewrite Hd2, Hd1. tauto.
Qed.

Lemma takes_sequence R p D li : (forall r, r ∈ R -> r ∈ L0) -> loaded D li p ->
  takes (sequenceOf table (map recCmd R)) p.
Proof.
  intros HR Hp p' Hp' e q Hm Hu.
  assert (exists D', loaded D' li p') as [D' HD'].
  { destruct Hp' as [->|Ha]; [by exists D|]. destruct (applied_sequence R p p' Ha HR D li Hp) as (D' & _ & ?).
    by exists D'. }
  pose proof (Update_sequence R e p' HR Hm D' li HD') as Hw. unfold wp in Hw. by rewrite Hu in Hw.
Qed.

Lemma Update_terminal i e p : is_u64 i -> MarshalCommand (terminalCommand table i) = OK (sme_Cmd e) ->
  forall D li, loaded D li p ->
  wp no_panic (Update fuel [e]) (fun _ p' => loaded D (Some (LittleEndian_PutUint64 i)) p')
    (fun _ _ => True) p.
Proof.
  intros Hi Hm D li [P1 P2 P3 P4].
  eapply wp_mono; [apply (Update_one fuel e (terminalCommand table i) p (fun m => m = storeOf p))| |done].
  - apply (Marshal_roundtrip _ _ (plain_terminal i Hi) Hm).
  - intros c Ec _. cbn [handle cmd_Type terminalCommand]. by apply succeed_wp.
  - intros es p' (m & -> & E).
    destruct (withIndex_loaded D (storeOf p) (sme_Index e) (Some i)) as (W1 & W2 & W3); [done..|].
    split; by rewrite ?E.
Qed.

Lemma applied_terminal i p p' : is_u64 i -> applied (terminalCommand table i) p p' ->
  forall D li, loaded D li p -> loaded D (Some (LittleEndian_PutUint64 i)) p'.
Proof.
  intros Hi Ha. induction Ha as [p e es p' Hm Hu|p p1 p' _ IH1 _ IH2]; intros D li Hp.
  - pose proof (Update_terminal i e p Hi Hm D li Hp) as Hw. unfold wp in Hw. by rewrite Hu in Hw.
  - eapply IH2, IH1, Hp.
Qed.

Lemma takes_terminal i p D li : is_u64 i -> loaded D li p -> takes (terminalCommand table i) p.
Proof.
  intros Hi Hp p' Hp' e q Hm Hu. assert (exists li', loaded D li' p') as [li' HD'].
  { destruct Hp' as [->|Ha]; [by exists li|]. eexists. by eapply applied_terminal. }
  pose proof (Update_terminal i e p' Hi Hm D li' HD') as Hw. unfold wp in Hw. by rewrite Hu in Hw.
Qed.

(** Proposing the sequences, and then the marker. *)
Lemma propose_all propose `{!Proposes propose} i Ls : is_u64 i -> forall D li q,
  (forall r, r ∈ D \/ r ∈ concat Ls <-> r ∈ L0) -> loaded D li q ->
  wp no_panic (forM_ (map (sequenceOf table) (map (map recCmd) Ls) ++ [terminalCommand table i]) propose)
    (fun _ q' => loaded L0 (Some (LittleEndian_PutUint64 i)) q')
    (fun _ q' => storeOf q' !! sysLeaderIndex = li \/ loaded L0 (Some (LittleEndian_PutUint64 i)) q') q.
Proof.
  intros Hi. induction Ls as [|R Ls IH]; intros D li q HD Hq; cbn [map app forM_].
  - apply wp_bind. eapply wp_mono; [apply propose_applies; by eapply takes_terminal| |].
    + intros [] q' Ha. apply wp_ret. destruct (applied_terminal i q q' Hi Ha D li Hq) as [P1 P2 P3 P4].
      split; try done. eapply caughtUp_ext; [|exact P2]. intros r. rewrite <- HD. cbn.
      rewrite elem_of_nil. tauto.
    + intros e q' [->|Ha]; [left; apply Hq|right].
      destruct (applied_terminal i q q' Hi Ha D li Hq) as [P1 P2 P3 P4].
      split; try done. eapply caughtUp_ext; [|exact P2]. intros r. rewrite <- HD. cbn.
      rewrite elem_of_nil. tauto.
  - assert (HR : forall r, r ∈ R -> r ∈ L0)
      by (intros r Hr; apply HD; right; cbn; apply elem_of_app; by left).
    apply wp_bind. eapply wp_mono; [apply propose_applies; by eapply takes_sequence| |].
    + intros [] q' Ha. destruct (applied_sequence R q q' Ha HR D li Hq) as (D' & HD' & Hq').
      apply (IH D'); [|done]. intros r. rewrite HD', <- HD. cbn. rewrite elem_of_app. tauto.
    + intros e q' [->|Ha]; left; [apply Hq|].
      destruct (applied_sequence R q q' Ha HR D li Hq) as (D' & _ & Hq'). apply Hq'.
Qed.

End proposals.

(** ** When the tables agree *)

Lemma live_ext m m' k v : (forall s, is_u64 s -> m !! ukey k s = m' !! ukey k s) ->
  live m k v <-> live m' k v.
Proof.
  intros E. unfold live, newest.
  split; intros (s & (Hs & Hv & Hmax) & Ht); exists s; (split; [|done]);
    rewrite E in * by done; split_and!; try done; intros s' v' Hs' Hv'; eapply Hmax; try done;
    by rewrite ?E in * by done.
Qed.

Lemma caughtUp_same f0 L m ml : caughtUp f0 L m ->
  (forall k s v, (k, s, v) ∈ L -> newest ml k s v) ->
  (forall k, goodKey k -> (forall s v, (k, s, v) ∉ L) -> forall w, live f0 k w <-> live ml k w) ->
  sameTable m ml.
Proof.
  intros Hc HL Hno k w Hk. destruct (Hc k Hk) as [(s & v & Hin & [_ Hset])|[Hn He]].
  - rewrite Hset. pose proof (HL _ _ _ Hin) as Hnew. split.
    + intros [-> Ht]. by exists s.
    + intros (s' & Hw & Ht). by destruct (newest_inj _ _ _ _ _ _ Hnew Hw) as [_ <-].
  - rewrite (live_ext m f0) by done. by apply Hno.
Qed.

(** A key with a version has a newest one. *)
Lemma newest_above m k s v : is_u64 s -> m !! ukey k s = Some v ->
  exists s' v', newest m k s' v' /\ s <= s'.
Proof.
  intros Hs Hv. assert (Hm : exists n, Z.of_nat n = W64 - s) by (exists (Z.to_nat (W64 - s)); unfold is_u64 in Hs; lia).
  destruct Hm as [n Hn]. revert s v Hs Hv Hn. induction (lt_wf n) as [n _ IH]. intros s v Hs Hv Hn.
  set (newer := fun r : row => s < key.DecodeV2Seqno r.1 < W64 /\ r.1 = ukey k (key.DecodeV2Seqno r.1)).
  destruct (decide (Exists newer (map_to_list m))) as [He|Hno].
  - apply Exists_exists in He as ([pk v'] & Hin & [Hlt Hpk]). cbn [fst] in *.
    apply elem_of_map_to_list in Hin. rewrite Hpk in Hin. set (s2 := key.DecodeV2Seqno pk) in *.
    assert (Hs2 : is_u64 s2) by (unfold is_u64 in *; lia).
    destruct (IH (Z.to_nat (W64 - s2)) ltac:(lia) s2 v' Hs2 Hin ltac:(lia)) as (s3 & v3 & Hn3 & Hle).
    exists s3, v3. split; [done|lia].
  - exists s, v. split; [|lia]. split_and!; [done..|]. intros s' v' Hs' Hv'.
    destruct (decide (s' <= s)); [done|]. destruct Hno. apply Exists_exists.
    exists (ukey k s', v'). split; [by apply elem_of_map_to_list|]. unfold newer. cbn [fst].
    rewrite DecodeV2Seqno_phys by done. unfold is_u64 in Hs'. split; [lia|done].
Qed.

(** ** The history of a table after an index *)

(** The rows a table can have after [base], when it had the rows [mb]: versions of later
    commands are added, and a collection has a horizon at or below [base]. *)
Inductive evolves (base : Z) (mb : rowmap) : rowmap -> Prop :=
| evolves_refl : evolves base mb mb
| evolves_update m m' : evolves base mb m -> extends (base + 1) m m' -> evolves base mb m'
| evolves_gc m g m' : evolves base mb m -> g <= base -> gcKept g m m' -> evolves base mb m'.

Lemma extends_old lo m0 m k : extends lo m0 m ->
  (forall s v, is_u64 s -> m !! ukey k s = Some v -> s < lo) ->
  forall s, is_u64 s -> m !! ukey k s = m0 !! ukey k s.
Proof.
  induction 1 as [|m k' s' v' _ IH Hk' Hs' Hlo|m pk v' _ IH Hpk]; intros Hmax s Hs; [done|..].
  - assert (k <> k') as Hne.
    { intros <-. specialize (Hmax s' v' Hs'). rewrite lookup_insert_eq in Hmax. specialize (Hmax eq_refl). lia. }
    assert (Hl : forall s, is_u64 s -> <[ukey k' s' := v']> m !! ukey k s = m !! ukey k s).
    { intros s2 Hs2. apply lookup_insert_ne. intros E. by apply phys_inj in E as (_ & -> & _). }
    rewrite Hl by done. apply IH; [|done]. intros s2 v2 Hs2 Hv2. apply (Hmax s2 v2 Hs2). by rewrite Hl.
  - assert (Hl : forall s, <[pk := v']> m !! ukey k s = m !! ukey k s)
      by (intros s2; apply lookup_insert_ne; by apply sysRow_ne).
    rewrite Hl. apply IH; [|done]. intros s2 v2 Hs2 Hv2. apply (Hmax s2 v2 Hs2). by rewrite Hl.
Qed.

(** A key without a version after [base] has the value it had. *)
Lemma evolves_live base mb m k v : evolves base mb m -> goodKey k ->
  (forall s v, is_u64 s -> m !! ukey k s = Some v -> s <= base) -> live m k v <-> live mb k v.
Proof.
  intros He Hk. induction He as [|m m' _ IH Hext|m g m' _ IH Hg [K1 K2 _ _]]; intros Hmax; [done|..].
  - assert (Hl : forall s, is_u64 s -> m' !! ukey k s = m !! ukey k s).
    { eapply extends_old; [done|]. intros s w Hs Hw. specialize (Hmax s w Hs Hw). lia. }
    rewrite (live_ext m' m) by done. apply IH. intros s w Hs Hw. apply (Hmax s w Hs). by rewrite Hl.
  - rewrite K1 by done. apply IH. intros s w Hs Hw. destruct (decide (s <= base)); [done|].
    apply (Hmax s w Hs). rewrite K2; [done..|lia].
Qed.

(** ** The file of a snapshot *)

Section restore.
Context `{PebbleSpec} `{!CommandCodec} `{!CommandCodecSpec} `{!CommandRoundtrip} `{FileStream W}.
Context (stopc : nat -> bool) (fuel : nat) (table dirname : bytes) (maxBatchSize : Z).
Context (propose : Command -> M FSM unit) `{!Proposes fuel propose}.

Abbreviation recCmd := (recordCommand table).
Abbreviation storeOf p := (rows (of_DB (pebble p))).

(** The encoded command is a record the reader can hold. *)
Definition fits (c : Command) : Prop := forall b, MarshalCommand c = OK b -> goodRecord b.

Lemma emit_wp c w : fits c ->
  wp no_panic (emit (Write_ w_Write) (MarshalCommand c))
    (fun _ w' => exists b, MarshalCommand c = OK b /\ goodRecord b /\ content w' = content w ++ frame b)
    (fun _ _ => True) w.
Proof.
  intros Hf. unfold emit. apply wp_bind, wp_readr.
  destruct (MarshalCommand c) as [b|e|p] eqn:E; [|done|by destruct (MarshalCommand_no_panic c p)].
  eapply wp_mono; [apply Write_frame; by destruct (Hf b E)| |done]. intros [] w' Ew. eauto.
Qed.

Lemma emit_all L : forall w, Forall (fun r => fits (recCmd r)) L ->
  wp no_panic (forM_ L (emitRecord (Write_ w_Write) table))
    (fun _ w' => exists recs, content w' = content w ++ fileOf recs /\ Forall goodRecord recs /\
       Forall2 (fun b r => MarshalCommand (recCmd r) = OK b) recs L) (fun _ _ => True) w.
Proof.
  induction L as [|r L IH]; intros w HL; cbn [forM_].
  { apply wp_ret. exists []. split_and!; [by rewrite app_nil_r|constructor..]. }
  apply Forall_cons in HL as [Hr HL]. apply wp_bind. eapply wp_mono; [by apply emit_wp| |done].
  intros [] w1 (b & Hb & Hg & E1). eapply wp_mono; [by apply IH| |done].
  intros [] w2 (recs & E2 & Hgs & Hrecs). exists (b :: recs). split_and!; [|by constructor..].
  rewrite E2, E1, <- app_assoc. done.
Qed.

(** The file of the records [L] and the marker [idx]. *)
Definition snapshotOf (L : list record) (idx : Z) (f : bytes) : Prop :=
  exists recs tb, f = fileOf (recs ++ [tb]) /\ Forall goodRecord (recs ++ [tb]) /\
    Forall2 (fun b r => MarshalCommand (recCmd r) = OK b) recs L /\
    MarshalCommand (terminalCommand table idx) = OK tb.

Lemma write_snapshot L idx w : Forall (fun r => fits (recCmd r)) L -> fits (terminalCommand table idx) ->
  content w = [] ->
  wp no_panic (forM_ L (emitRecord (Write_ w_Write) table) ;; writeTerminal w_Write table idx)
    (fun _ w' => snapshotOf L idx (content w')) (fun _ _ => True) w.
Proof.
  intros HL Ht Hw. apply wp_bind. eapply wp_mono; [by apply emit_all| |done].
  intros [] w1 (recs & E1 & Hg & Hrecs). rewrite Hw in E1. cbn [app] in E1.
  change (writeTerminal w_Write table idx) with
    (emit (Write_ w_Write) (MarshalCommand (terminalCommand table idx))).
  eapply wp_mono; [by apply emit_wp| |done]. intros [] w2 (tb & Htb & Hgt & E2). exists recs, tb.
  split_and!; [by rewrite fileOf_snoc, E2, E1|by apply Forall_app_2; [|apply Forall_singleton]|done..].
Qed.

(** *** Reading it *)

Lemma follows_wp {T} (c : M T unit) c' Q E f s : wp no_panic c Q E s -> follows (c s) (c' (f, s)) ->
  wp no_panic c' (fun _ x => Q tt x.2) (fun e x => E e x.2) (f, s).
Proof.
  unfold wp, follows. destruct (c s) as [[] s'|e s'|p]; [..|done].
  - by intros HQ ->.
  - by intros HE [r ->].
Qed.

Lemma maxIndex_le D i : forall mx, mx <= i -> Forall (fun c => indexOf c <= i) D -> maxIndex mx D <= i.
Proof.
  unfold maxIndex. induction D as [|c D IH]; intros mx Hmx HD; [done|].
  apply Forall_cons in HD as [Hc HD]. cbn [foldl]. apply IH; [lia|done].
Qed.

Lemma fileOf_length recs : (8 * length recs <= length (fileOf recs))%nat.
Proof.
  unfold fileOf. induction recs as [|b recs IH]; [done|]. cbn [map concat length]. rewrite length_app.
  unfold frame at 1. rewrite length_app. pose proof (LittleEndian_len (len b)) as Hl. unfold len at 1 in Hl. lia.
Qed.

Lemma unmarshal_records recs L : Forall2 (fun b r => MarshalCommand (recCmd r) = OK b) recs L ->
  Forall goodRec L -> Forall2 (fun b c => UnmarshalVT b = OK c) recs (map recCmd L).
Proof.
  induction 1 as [|b r recs L Hb _ IH]; [constructor|]. intros [Hr HL]%Forall_cons. cbn [map].
  constructor; [|by apply IH]. by apply (Marshal_roundtrip _ _ (plain_record table r Hr)).
Qed.

Lemma record_command r : goodRec r ->
  dataCommand table (recCmd r) /\ indexOf (recCmd r) = rec_Seqno r.
Proof.
  intros [[_ Hk _] _]. unfold recordCommand. destruct (isTombstone (rec_Value r)); (split; [|done]);
    split; try done; try (by left); try (by right); by eexists.
Qed.

Lemma load_snapshot L idx f (q : FSM) fuel' : snapshotOf L idx f ->
  NoDup (map rec_Key L) -> Forall goodRec L -> is_u64 idx -> Forall (fun r => rec_Seqno r <= idx) L ->
  (forall k s v s' v', (k, s, v) ∈ L -> is_u64 s' -> storeOf q !! ukey k s' = Some v' -> s' <= s) ->
  tableRows (storeOf q) -> (length f < fuel')%nat ->
  wp no_panic (readSnapshot snapshotFile_Read table maxBatchSize propose fuel')
    (fun _ x => loaded (storeOf q) L L (Some (LittleEndian_PutUint64 idx)) x.2)
    (fun _ x => storeOf x.2 !! sysLeaderIndex = storeOf q !! sysLeaderIndex \/
       loaded (storeOf q) L L (Some (LittleEndian_PutUint64 idx)) x.2) (f, q).
Proof.
  intros (recs & tb & -> & Hg & Hrecs & Htb) HL Hgood Hi Hle Hold Hq Hf.
  destruct (readSnapshot_proposes propose table maxBatchSize recs tb (map recCmd L)
    (terminalCommand table idx) fuel' q) as (Hc & _ & Hfol).
  - done.
  - by apply unmarshal_records.
  - by apply (Marshal_roundtrip _ _ (plain_terminal table idx Hi)).
  - apply Forall_map. eapply Forall_impl; [exact Hgood|]. intros r Hr. apply (proj1 (record_command r Hr)).
  - split; [done..|]. exists idx. split; [done|]. apply maxIndex_le; [unfold is_u64 in Hi; lia|].
    apply Forall_map, Forall_forall. intros r Hr. rewrite Forall_forall in Hle, Hgood.
    cbn. destruct (record_command r) as [_ ->]; [by apply Hgood|]. by apply Hle.
  - pose proof (fileOf_length (recs ++ [tb])) as Hlen. rewrite length_app in Hlen. cbn in Hlen.
    lia.
  - destruct (concat_map_inv recCmd _ L Hc) as (Ls & ELs & HLs). rewrite ELs in Hfol.
    assert (Hq0 : loaded (storeOf q) L [] (storeOf q !! sysLeaderIndex) q).
    { split; [done|apply caughtUp_nil|done|]. intros r Hr. by apply elem_of_nil in Hr. }
    assert (HD : forall r, r ∈ [] \/ r ∈ concat Ls <-> r ∈ L) by (intros r; rewrite HLs, elem_of_nil; tauto).
    pose proof (propose_all fuel table (storeOf q) L HL Hgood Hold propose idx Ls Hi [] _ q HD Hq0) as Hw.
    exact (follows_wp _ _ _ _ _ _ Hw Hfol).
Qed.

(** *** The records of a store *)

Lemma readLocalIndex_u64 r pk i : readLocalIndex r pk = OK i -> is_u64 i.
Proof.
  unfold readLocalIndex. destruct (Pebble.Get r pk) as [v|e|p]; [|case_bool_decide; [by intros [= <-]|done]|done].
  unfold LittleEndian_Uint64. destruct (Z.ltb_spec (len v) 8); [done|]. intros [= <-].
  pose proof (beValue_bounds (rev (take 8 v)) 0 ltac:(lia)) as Hb.
  rewrite length_rev, length_take in Hb. replace (8 `min` length v)%nat with 8%nat in Hb by (unfold len in *; lia).
  change (256 ^ Z.of_nat 8) with W64 in Hb. unfold is_u64. lia.
Qed.

(** Every row of the table can be written. *)
Definition rowsFit (m : rowmap) : Prop :=
  (forall k s v, m !! ukey k s = Some v -> fits (recCmd (k, s, v))) /\
  forall i, is_u64 i -> fits (terminalCommand table i).

Lemma newVersions_good m P L : newVersions m P L ->
  Forall goodRec L /\ (rowsFit m -> Forall (fun r => fits (recCmd r)) L) /\
  (forall n, upTo n m -> Forall (fun r => rec_Seqno r <= n) L).
Proof.
  intros [_ HL].
  assert (Hel : forall r, r ∈ L -> goodKey (rec_Key r) /\ newest m (rec_Key r) (rec_Seqno r) (rec_Value r)).
  { intros [[k s] v] Hr. apply HL in Hr. by destruct Hr as (? & ? & _). }
  split_and!.
  - apply Forall_forall. intros r Hr. destruct (Hel r Hr) as [Hk (Hs & _)]. by split.
  - intros [Hfit _]. apply Forall_forall. intros [[k s] v] Hr. destruct (Hel _ Hr) as [_ (_ & Hv & _)].
    by apply Hfit.
  - intros n Hup. apply Forall_forall. intros r Hr. destruct (Hel r Hr) as [_ (Hs & Hv & _)]. by eapply Hup.
Qed.

(** ** A full snapshot *)

(** The machine a snapshot is taken of: its rows are well formed, its versions are not
    newer than the index it has stored, and there is fuel for them. *)
Record snapshotable (p : FSM) : Prop := {
  sn_rows : tableRows (storeOf p);
  sn_index : indexRows (storeOf p);
  sn_upTo : forall i, readLocalIndex (of_Snapshot (NewSnapshot (pebble p))) sysLocalIndex = OK i ->
              upTo i (storeOf p);
  sn_fits : rowsFit (storeOf p);
  sn_fuel : (base.size (storeOf p) < fuel)%nat }.

Lemma full_same m f0 L m' : newVersions m isLive L -> caughtUp f0 L m' ->
  (forall k s v, is_u64 s -> f0 !! ukey k s <> Some v) -> sameTable m' m.
Proof.
  intros HL Hc Hempty. eapply caughtUp_same; [exact Hc| |].
  - intros k s v Hin. by apply (nv_elem _ _ _ HL) in Hin as (_ & ? & _).
  - intros k Hk Hno w. split.
    + intros (s & (Hs & Hv & _) & _). by apply Hempty in Hv.
    + intros (s & Hn & Ht). destruct (Hno s w). apply (nv_elem _ _ _ HL). unfold isLive. cbn. by rewrite Ht.
Qed.

(** C11: a full snapshot restores the table.  The file [streamFull] writes for a table,
    read into an empty table whose proposals are applied once or more often, makes its
    values those of the snapshot and stores the index of the snapshot as the leader
    index; if reading it fails, the leader index is as before, unless the whole table
    was already restored.  Neither side panics or runs out of fuel.  The table's rows
    are well-formed, none newer than its index, and the record of each fits the buffer
    of the reader. *)
Theorem restore_full p w0 : snapshotable p -> content w0 = [] ->
  wp no_panic (streamFull w_Write stopc fuel table dirname p)
    (fun _ w => forall q fuel', tableRows (storeOf q) ->
       (forall k s v, is_u64 s -> storeOf q !! ukey k s <> Some v) -> (length (content w) < fuel')%nat ->
       exists idx, readLocalIndex (of_Snapshot (NewSnapshot (pebble p))) sysLocalIndex = OK idx /\
       wp no_panic (readSnapshot snapshotFile_Read table maxBatchSize propose fuel')
         (fun _ x => sameTable (storeOf x.2) (storeOf p) /\
            storeOf x.2 !! sysLeaderIndex = Some (LittleEndian_PutUint64 idx))
         (fun _ x => storeOf x.2 !! sysLeaderIndex = storeOf q !! sysLeaderIndex \/
            sameTable (storeOf x.2) (storeOf p)) (content w, q))
    (fun _ _ => True) w0.
Proof.
  intros [Hm Hi Hup Hfit Hf] Hw0. unfold streamFull, Lookup.
  set (snap := of_Snapshot (NewSnapshot (pebble p))) in *.
  assert (Hsnap : rows snap = storeOf p) by apply rows_Snapshot.
  destruct (commandSnapshot_streams (Write_ w_Write) stopc table fuel snap w0) as
    [(e & E)|[(n & w & _ & E)|(L & idx & HL & Hidx & E)]]; [by rewrite Hsnap..| | |].
  1-2: unfold wp, mbind, M_bind; by rewrite E.
  rewrite Hsnap in HL. destruct (newVersions_good _ _ _ HL) as (Hgood & Hfits & Hmax).
  pose proof (write_snapshot L idx w0 (Hfits Hfit) (proj2 Hfit idx (readLocalIndex_u64 _ _ _ Hidx)) Hw0) as Hw.
  unfold wp, mbind, M_bind, ret in *. rewrite E.
  destruct (forM_ L (emitRecord (Write_ w_Write) table) w0) as [[] w1|e w1|q]; [|done..].
  cbn [sr_Index]. destruct (writeTerminal w_Write table idx w1) as [[] w2|e w2|q]; [|done..].
  intros q fuel' Hq Hempty Hf'. exists idx. split; [done|].
  eapply wp_mono; [eapply (load_snapshot L idx (content w2) q fuel' Hw)|..]; try done.
  - apply HL.
  - by eapply readLocalIndex_u64.
  - by apply Hmax, Hup.
  - intros k s v s' v' _ Hs' Hv'. by apply Hempty in Hv'.
  - intros [] x [_ Hc Hli _]. split; [by eapply full_same|done].
  - intros e x [?|[_ Hc _ _]]; [by left|right; by eapply full_same].
Qed.

(** ** An incremental snapshot *)

Lemma delta_same m mb base f0 L m' : newVersions m (changedAfter base) L -> evolves base mb m ->
  sameTable f0 mb -> caughtUp f0 L m' -> sameTable m' m.
Proof.
  intros HL Hev Hf0 Hc. eapply caughtUp_same; [exact Hc| |].
  - intros k s v Hin. by apply (nv_elem _ _ _ HL) in Hin as (_ & ? & _).
  - intros k Hk Hno w. rewrite (Hf0 k w Hk). symmetry. eapply evolves_live; [done..|].
    intros s v Hs Hv. destruct (newest_above m k s v Hs Hv) as (s' & v' & Hn & Hle).
    destruct (decide (s' <= base)); [lia|]. destruct (Hno s' v'). apply (nv_elem _ _ _ HL).
    split_and!; [done..|]. unfold changedAfter. cbn. lia.
Qed.

(** The horizon of the state a snapshot is taken of. *)
Definition horizonOf (p : FSM) : result Z :=
  readLocalIndex (of_Snapshot (NewSnapshot (pebble p))) sysGCHorizon.

(** What the file of an incremental snapshot does to a follower without versions after
    [li]: it has the records after the base the snapshot really starts from. *)
Lemma incremental_loads li p1 p2 p3 w0 : snapshotable p3 -> indexRows (storeOf p1) ->
  (forall h, horizonOf p3 = OK h -> li <= effectiveBase li h) -> content w0 = [] ->
  wp no_panic (streamIncremental w_Write stopc fuel table dirname li p1 p2 p3)
    (fun _ w => exists L idx h, newVersions (storeOf p3) (changedAfter (effectiveBase li h)) L /\
       readLocalIndex (of_Snapshot (NewSnapshot (pebble p3))) sysLocalIndex = OK idx /\ horizonOf p3 = OK h /\
       forall q fuel', tableRows (storeOf q) -> upTo li (storeOf q) -> (length (content w) < fuel')%nat ->
       wp no_panic (readSnapshot snapshotFile_Read table maxBatchSize propose fuel')
         (fun _ x => loaded (storeOf q) L L (Some (LittleEndian_PutUint64 idx)) x.2)
         (fun _ x => storeOf x.2 !! sysLeaderIndex = storeOf q !! sysLeaderIndex \/
            loaded (storeOf q) L L (Some (LittleEndian_PutUint64 idx)) x.2) (content w, q))
    (fun _ _ => True) w0.
Proof.
  intros [Hm Hi Hup Hfit Hf] Hi1 Hbase Hw0. unfold streamIncremental. apply wp_bind. cbn [Lookup].
  apply wp_bind, wp_readr. pose proof (readLocalIndex_safe (of_DB (pebble p1)) sysLocalIndex Hi1 ltac:(by left)) as Hs1.
  destruct (readLocalIndex (of_DB (pebble p1)) sysLocalIndex) as [applied|e|x]; [|done..]. apply wp_ret.
  destruct (applied <? li); [done|]. apply wp_bind, wp_try, wp_ret, wp_bind.
  apply wp_when; intros _; [done|]. unfold horizonOf in *.
  set (snap := of_Snapshot (NewSnapshot (pebble p3))) in *.
  assert (Hsnap : rows snap = storeOf p3) by apply rows_Snapshot.
  destruct (commandIncrementalSnapshot_streams (Write_ w_Write) stopc table fuel snap li w0) as
    [(e & E)|[(n & w & _ & E)|(L & idx & h & HL & Hidx & Hh & E)]]; [by rewrite Hsnap..| | |].
  1-2: unfold wp, mbind, M_bind; by rewrite E.
  rewrite Hsnap in *. destruct (newVersions_good _ _ _ HL) as (Hgood & Hfits & Hmax).
  pose proof (write_snapshot L idx w0 (Hfits Hfit) (proj2 Hfit idx (readLocalIndex_u64 _ _ _ Hidx)) Hw0) as Hw.
  unfold wp, mbind, M_bind, ret in *. rewrite E.
  destruct (forM_ L (emitRecord (Write_ w_Write) table) w0) as [[] w1|e w1|q]; [|done..].
  cbn [sr_Index]. destruct (writeTerminal w_Write table idx w1) as [[] w2|e w2|q]; [|done..].
  exists L, idx, h. split_and!; [done..|]. intros q fuel' Hq Hupq Hf'.
  apply (load_snapshot L idx (content w2) q fuel' Hw); try done.
  - apply HL.
  - by eapply readLocalIndex_u64.
  - by apply Hmax, Hup.
  - intros k s v s' v' Hin Hs' Hv'. apply (nv_elem _ _ _ HL) in Hin as (_ & _ & Hin).
    unfold changedAfter in Hin. cbn in Hin. specialize (Hupq k s' v' Hs' Hv'). specialize (Hbase h Hh). lia.
Qed.

(** C12: an incremental snapshot brings a follower up to date.  The follower has the
    values the leader had at the index [li], and no newer version; the leader has
    applied commands since and collected garbage up to horizons not above [li]; the
    horizon it has stored when the snapshot is taken is below [li].  Then the file
    [streamIncremental] writes, read into the follower whose proposals are applied once
    or more often, makes its values those of the leader and stores the index of the
    snapshot; if reading it fails, the leader index is as before, unless the follower
    was already up to date. *)
Theorem restore_incremental li p1 p2 p3 mb w0 : snapshotable p3 -> indexRows (storeOf p1) ->
  evolves li mb (storeOf p3) ->
  (forall h, readLocalIndex (of_Snapshot (NewSnapshot (pebble p3))) sysGCHorizon = OK h -> h = 0 \/ h < li) ->
  content w0 = [] ->
  wp no_panic (streamIncremental w_Write stopc fuel table dirname li p1 p2 p3)
    (fun _ w => forall q fuel', tableRows (storeOf q) -> upTo li (storeOf q) -> sameTable (storeOf q) mb ->
       (length (content w) < fuel')%nat ->
       exists idx, readLocalIndex (of_Snapshot (NewSnapshot (pebble p3))) sysLocalIndex = OK idx /\
       wp no_panic (readSnapshot snapshotFile_Read table maxBatchSize propose fuel')
         (fun _ x => sameTable (storeOf x.2) (storeOf p3) /\
            storeOf x.2 !! sysLeaderIndex = Some (LittleEndian_PutUint64 idx))
         (fun _ x => storeOf x.2 !! sysLeaderIndex = storeOf q !! sysLeaderIndex \/
            sameTable (storeOf x.2) (storeOf p3)) (content w, q))
    (fun _ _ => True) w0.
Proof.
  intros Hp3 Hi1 Hev Hhor Hw0.
  assert (Hb : forall h, horizonOf p3 = OK h -> effectiveBase li h = li).
  { intros h Hh. unfold effectiveBase. destruct (Hhor h Hh) as [->|]; [done|].
    destruct (Z.leb_spec li h); [lia|]. by rewrite andb_false_r. }
  eapply wp_mono; [apply incremental_loads; [done..| |done]| |done]; [intros h Hh; by rewrite (Hb h Hh)|].
  intros [] w (L & idx & h & HL & Hidx & Hh & Hload). rewrite (Hb h Hh) in HL.
  intros q fuel' Hq Hupq Hsame Hf'. exists idx. split; [done|].
  eapply wp_mono; [by apply Hload|..].
  - intros [] x [_ Hc Hli _]. split; [by eapply delta_same|done].
  - intros e x [?|[_ Hc _ _]]; [by left|right; by eapply delta_same].
Qed.

(** ** A horizon above the base *)

(** C40: an incremental snapshot can miss changes.  If the horizon [h] the leader has
    stored when the snapshot is taken is not below the base [li] the follower asked for,
    which the guard of [streamIncremental] does not exclude since it looks at an earlier
    state, then a follower that reads the file without an error has the index of the
    snapshot as its leader index, although every key the leader last changed at or below
    [h + 1] still has the value the follower had before: a change the leader made after
    [li] to such a key is lost, and the two tables differ. *)
Theorem incremental_misses_change li p1 p2 p3 h w0 : snapshotable p3 -> indexRows (storeOf p1) ->
  horizonOf p3 = OK h -> 0 < h -> li <= h -> h + 1 < W64 -> content w0 = [] ->
  wp no_panic (streamIncremental w_Write stopc fuel table dirname li p1 p2 p3)
    (fun _ w => forall q fuel', tableRows (storeOf q) -> upTo li (storeOf q) ->
       (length (content w) < fuel')%nat ->
       exists idx, readLocalIndex (of_Snapshot (NewSnapshot (pebble p3))) sysLocalIndex = OK idx /\
       wp no_panic (readSnapshot snapshotFile_Read table maxBatchSize propose fuel')
         (fun _ x => storeOf x.2 !! sysLeaderIndex = Some (LittleEndian_PutUint64 idx) /\
            forall k s u, goodKey k -> newest (storeOf p3) k s u -> s <= h + 1 ->
              (forall v, live (storeOf x.2) k v <-> live (storeOf q) k v) /\
              (isTombstone u = false -> ~ live (storeOf q) k u -> ~ sameTable (storeOf x.2) (storeOf p3)))
         (fun _ _ => True) (content w, q))
    (fun _ _ => True) w0.
Proof.
  intros Hp3 Hi1 Hh Hpos Hle Hlt Hw0.
  assert (Hb : effectiveBase li h = h + 1).
  { unfold effectiveBase. destruct (Z.ltb_spec 0 h); [|lia]. destruct (Z.leb_spec li h); [|lia]. cbn.
    by rewrite add64_small by lia. }
  eapply wp_mono; [apply incremental_loads; [done..| |done]| |done].
  { intros h' Hh'. assert (h' = h) as -> by congruence. lia. }
  intros [] w (L & idx & h' & HL & Hidx & Hh' & Hload). assert (h' = h) as -> by congruence. rewrite Hb in HL.
  intros q fuel' Hq Hupq Hf'. exists idx. split; [done|].
  eapply wp_mono; [by apply Hload| |done]. intros [] x [_ Hc Hli _]. split; [done|].
  intros k s u Hk Hn Hs. assert (Hkeep : forall v, live (storeOf x.2) k v <-> live (storeOf q) k v).
  { intros v. apply live_ext. destruct (Hc k Hk) as [(s' & v' & Hin & _)|[_ He]]; [|done].
    apply (nv_elem _ _ _ HL) in Hin as (_ & Hn' & Hin). unfold changedAfter in Hin. cbn in Hin.
    destruct (newest_inj _ _ _ _ _ _ Hn Hn') as [-> _]. lia. }
  split; [done|]. intros Ht Hno Hsame. apply Hno, Hkeep, Hsame; [done|]. by exists s.
Qed.

End restore.
