(* ===== verification/FsmSamples.v ===== *)
(** * Sample tables

    A store in memory, a codec for a few commands, and what the theorems on tables say
    of them; and the behaviours of a table the modelling brought up: comparisons of a
    range that depend on garbage collection, a page that hides the last key, a value
    that deletes its key, a horizon that goes back, and a version the collection drops. *)
From S2P Require Import Prelude Raftpb LogDB Wire WireSpec Bytes Key KeySpec Armadapb Pebble.
From S2P Require Import Session RsmMembership Encoded TaskQueue Rsm.
From S2P Require Import FsmQuery FsmCommand Fsm FsmView FsmRange FsmRead FsmSpec FsmWrite.
From S2P Require Import FsmCompare FsmUpdate FsmGC FsmSweep FsmStream SnapshotFile SnapshotLoad.
From Stdlib Require Import Strings.Byte.
Import armadapb.

#[local] Existing Instance memPebble.

(** ** Commands *)

(** A codec that numbers a list of commands. *)
Definition numbered (cmds : list Command) (b : bytes) : result Command :=
  match b with
  | [n] => match cmds !! N.to_nat (Byte.to_N n) with
           | Some c => OK c | None => ERR ErrUnexpectedEOF end
  | _ => ERR ErrUnexpectedEOF
  end.
Definition tableCodec (cmds : list Command) : CommandCodec := {|
  UnmarshalVT := numbered cmds;
  UnmarshalVTUnsafe := numbered cmds;
  SizeVT _ := 1;
  MarshalCommand _ := OK [];
  MarshalResult _ := OK []
|}.

#[local] Instance tableCodec_spec cmds : @CommandCodecSpec (tableCodec cmds).
Proof.
  split; [|done..]. intros b p. cbn. unfold numbered.
  destruct b as [|n [|]]; [done| |done]. by destruct (cmds !! _).
Qed.

Definition putCmd (k v : bytes) : Command :=
  mkCommand [] PUT (Some (newKV k v)) None [] None None true [] false.
Definition deleteRangeCmd (k high : bytes) : Command :=
  mkCommand [] DELETE (Some (newKV k [])) None [] None (Some high) false [] true.
Definition gcCmd (i : Z) : Command := mkCommand [] GC None (Some i) [] None None false [] false.

Definition smEntryOf (i : Z) (n : byte) : smEntry := mkSmEntry i [n] emptyResult.

Definition keyA : bytes := [x61].
Definition keyB : bytes := [x62].
Definition keyC : bytes := [x63].

Lemma keyA_good : goodKey keyA.
Proof. split; [unfold nullFree; set_solver|done|by vm_compute]. Qed.
Lemma keyB_good : goodKey keyB.
Proof. split; [unfold nullFree; set_solver|done|by vm_compute]. Qed.
Lemma keyC_good : goodKey keyC.
Proof. split; [unfold nullFree; set_solver|done|by vm_compute]. Qed.
Lemma small_u64 n : 0 <= n < 1000 -> is_u64 n.
Proof. unfold is_u64. lia. Qed.

(** A machine with an empty database. *)
Definition machine0 : FSM := mkFSM (∅ : rowmap) 0 false 0 [].

Lemma machine0_shows : shows machine0 ∅ 0 0.
Proof.
  split; cbn.
  - by intros pk v Hv%lookup_empty_Some.
  - intros k v. split; [by intros Hv%lookup_empty_Some|].
    by intros [_ (s & (_ & Hv%lookup_empty_Some & _) & _)].
  - by intros k s v _ Hv%lookup_empty_Some.
  - done.
Qed.

Definition cmds3 : list Command := [putCmd keyA [x31]; putCmd keyB [x32]; deleteRangeCmd keyA wildcard].

Lemma cmds3_ok : @okEntries (tableCodec cmds3) 20 0 0
  [smEntryOf 1 x00; smEntryOf 2 x01; smEntryOf 3 x02] 3 4.
Proof.
  eapply okEntries_cons; [done|apply small_u64; cbn; lia| |].
  { eapply okCmd_put; [done|done|exact keyA_good|apply small_u64; cbn; lia|cbn; lia]. }
  eapply okEntries_cons; [done|apply small_u64; cbn; lia| |].
  { eapply okCmd_put; [done|done|exact keyB_good|apply small_u64; cbn; lia|cbn; lia]. }
  eapply okEntries_cons; [done|apply small_u64; cbn; lia| |apply okEntries_nil].
  eapply okCmd_delete; [done|done|apply small_u64; cbn; lia|cbn; lia|].
  apply (ok_delete 20 2 (mkDelete keyA (Some wildcard) false true)). split; [split|lia].
  - left. apply keyA_good.
  - by left.
Qed.

Lemma Update_refines_witness :
  wp no_panic (Update (H0 := tableCodec cmds3) 20 [smEntryOf 1 x00; smEntryOf 2 x01; smEntryOf 3 x02])
    (fun _ p' => applied p' = 3 /\ exists σ', shows p' σ' 3 6 /\
       rows (of_DB (pebble p')) !! sysLocalIndex = Some (LittleEndian_PutUint64 3))
    (fun _ p' => p' = machine0) machine0.
Proof.
  eapply wp_mono.
  - apply (Update_refines (H1 := tableCodec cmds3) 20
      [smEntryOf 1 x00; smEntryOf 2 x01; smEntryOf 3 x02] machine0 ∅ 0 0 3 4);
      [done|exact machine0_shows|exact cmds3_ok].
  - intros es p' (σ' & idx & li & h & Hst & Hsh & Ha & _ & Hrow & _).
    assert (idx = 3) as ->.
    { repeat match goal with
      | Hs : entriesStep _ _ _ _ _ _ |- _ => inversion Hs; clear Hs; subst
      end. done. }
    split; [done|]. by exists σ'.
  - done.
Defined.

(** Evaluating a run: what [f] says of the state it ends in. *)
Definition afterRun {S A B} (o : outcome S A) (f : S -> B) : option B :=
  match o with Ret _ s => Some (f s) | _ => None end.

(** ** Reading *)

(** Two versions of one key, a deleted key and a live one. *)
Definition rows4 : rowmap :=
  <[ukey keyA 4 := [x34]]> (<[ukey keyC 3 := [x33]]> (<[ukey keyB 2 := tombstoneValue]>
    (<[ukey keyA 1 := [x31]]> ∅))).

Lemma rows4_table : tableRows rows4.
Proof.
  repeat (apply tableRows_insert;
    [exact keyA_good || exact keyB_good || exact keyC_good|apply small_u64; lia|]).
  by intros pk v Hv%lookup_empty_Some.
Qed.

Lemma rows4_versions k s v : is_u64 s -> rows4 !! ukey k s = Some v ->
  1 <= s <= 4 /\ (k = keyA -> s = 1 \/ s = 4).
Proof.
  intros Hs. unfold rows4.
  assert (Hinj : forall k' s' (w : bytes), is_u64 s' -> ukey k' s' = ukey k s /\ w = v -> k' = k /\ s' = s)
    by (intros k' s' w Hs' [E _]; by destruct (phys_inj _ _ _ _ _ _ Hs' Hs E) as (_ & -> & ->)).
  rewrite !lookup_insert_Some, lookup_empty.
  intros [E|[_ [E|[_ [E|[_ [E|[_ ?]]]]]]]]; [..|done];
    (apply Hinj in E as [<- <-]; [|apply small_u64; lia]); (split; [lia|]); auto; done.
Qed.

Definition allKeys (limit : Z) : RequestOp_Range := mkRange keyA (Some wildcard) limit false false.

Lemma rows4_servable : servable 20 rows4 keyA wildcard.
Proof.
  split; [split; [left; apply keyA_good|by left]|exact rows4_table|]. apply Nat.ltb_lt. by vm_compute.
Qed.

Lemma iterate_lists_witness :
  exists seq L ps, iterate 20 (rows4 : @Reader memPebble) (allKeys 0) = OK seq /\
    listing rows4 keyA wildcard L /\ iterx_Collect seq = OK ps /\
    concat (map rr_Kvs ps) = map (fun kv => newKV kv.1 kv.2) L /\ totalCount ps = len L.
Proof.
  destruct (@iterate_lists _ memPebbleSpec 20 (rows4 : @Reader memPebble) (allKeys 0) wildcard eq_refl rows4_servable)
    as (seq & E & Hseq); [by vm_compute|].
  destruct Hseq as [[(opts & e & He) _] | (L & ps & Hls & Hc & _ & Hk & Ht & _)]; [done|].
  exists seq, L, ps. split_and!; try done. rewrite Hk. unfold limited. cbn [r_Limit allKeys Z.leb Z.compare].
  clear. induction L as [|[k v] L IH]; [done|]. cbn in *. by rewrite IH.
Defined.

(** ** Collecting *)

Lemma runGC_keeps_witness :
  afterRun (runGC 20 4 (rows4 : @DB memPebble)) (fun _ => tt) = Some tt /\
  wp no_panic (runGC 20 4)
    (fun _ d' => gcKept 4 rows4 (rows (of_DB d')) /\ swept 4 (rows (of_DB d')))
    (fun _ d' => gcKept 4 rows4 (rows (of_DB d'))) (rows4 : @DB memPebble).
Proof.
  split; [by vm_compute|].
  apply (@runGC_keeps _ memPebbleSpec 20 4 (rows4 : @DB memPebble) rows4_table).
  - apply small_u64. lia.
  - intros k v Hv. apply rows4_versions in Hv as [? _]; [lia|apply small_u64; lia].
  - exact (sv_fuel _ _ _ _ rows4_servable).
Defined.

(** ** Loading *)

(** A snapshot of one key, and its terminal marker. *)
Definition snapCmds : list Command :=
  [mkCommand [] PUT (Some (newKV keyA [x31])) (Some 5) [] None None false [] false;
   mkCommand [] DUMMY None (Some 7) [] None None false [] false].
Definition snapFile : bytes := fileOf [[x00]; [x01]].

Lemma readSnapshot_proposes_witness :
  exists D t, follows
    (forM_ (map (sequenceOf []) (chunksOf (H := tableCodec snapCmds) [] 1000 [] D) ++ [t])
       (record_ (fun _ _ => None)) [])
    (readSnapshot (H := tableCodec snapCmds) snapshotFile_Read [] 1000 (record_ (fun _ _ => None)) 10
       (snapFile, [])) /\ D <> [].
Proof.
  exists (take 1 snapCmds), (mkCommand [] DUMMY None (Some 7) [] None None false [] false).
  split; [|done].
  apply (readSnapshot_proposes (H := tableCodec snapCmds) (record_ (fun _ _ => None)) [] 1000
    [[x00]] [x01]).
  - by repeat constructor.
  - by repeat constructor.
  - done.
  - apply Forall_singleton. split; [done|by left| |done]. by eexists.
  - split; [done..|]. exists 7. split; [done|]. by vm_compute.
  - cbn. lia.
Defined.

Lemma readSnapshot_any_witness :
  wp (fun q => q = IndexOutOfRange)
    (readSnapshot (H := tableCodec snapCmds) snapshotFile_Read [] 1000 (record_ (fun _ _ => None)) 30)
    (fun _ s => complete (H := tableCodec snapCmds) [] 1000 (fun _ _ => None) snapFile s.2)
    (fun e s => partial (H := tableCodec snapCmds) [] 1000 (fun _ _ => None) snapFile e s.2) (snapFile, []).
Proof.
  apply (readSnapshot_any (H := tableCodec snapCmds) [] 1000 (fun _ _ => None) 30 snapFile).
  apply Nat.ltb_lt. by vm_compute.
Defined.

(** ** Behaviours of a table *)

(** The comparison "all values in [a, b) are 4". *)
Definition cmpRange (v : bytes) : Compare := mkCompare EQUAL VALUE keyA (Some v) (Some keyB).

(** A key that has been deleted. *)
Definition rowsDeleted : rowmap := <[ukey keyA 1 := tombstoneValue]> ∅.

Lemma rows4_newest : newest rows4 keyA 4 [x34].
Proof.
  split; [apply small_u64; lia|split; [by vm_compute|]]. intros s v' Hs Hv.
  apply rows4_versions in Hv as [? _]; [lia|done].
Qed.

(** The comparison after a collection. *)
Definition collectedCompare (m : rowmap) : option (result bool) :=
  afterRun (runGC 20 4 (m : @DB memPebble)) (fun d => txnCompare 20 (of_DB d) [cmpRange [x34]]).

(** A comparison of a range is not a function of the table.  The only key of the
    range has the value compared with, yet the comparison is false because an older
    version of the key is compared too, and true once the garbage collection, which
    every replica runs at times of its own, has removed that version; a range whose
    keys are all deleted compares true before the collection of the tombstones and
    false after it.  Replicas that apply the same transaction can differ. *)
Lemma range_compare_depends_on_gc :
  (forall v, live rows4 keyA v <-> v = [x34]) /\
  txnCompare 20 (rows4 : @Reader memPebble) [cmpRange [x34]] = OK false /\
  collectedCompare rows4 = Some (OK true) /\
  txnCompare 20 (rowsDeleted : @Reader memPebble) [cmpRange [x34]] = OK true /\
  collectedCompare rowsDeleted = Some (OK false).
Proof.
  split; [|split; [by vm_compute|split; [by vm_compute|split; by vm_compute]]].
  intros v. split.
  - intros (s & Hs & _). by destruct (newest_inj _ _ _ _ _ _ rows4_newest Hs) as [_ <-].
  - intros ->. exists 4. split; [exact rows4_newest|done].
Qed.

(** The table [rows4] stores, by the writes that made it. *)
Definition table4 : table :=
  setKey keyA [x34] (setKey keyC [x33] (setKey keyB tombstoneValue (setKey keyA [x31] ∅))).

Lemma upTo_step n m k v : is_u64 n -> upTo (n - 1) m -> upTo n m /\ upTo n (<[ukey k n := v]> m).
Proof.
  intros Hn Hup. assert (Hup' : upTo n m) by (eapply upTo_weaken; [|exact Hup]; lia).
  split; [done|]. by apply upTo_insert.
Qed.

Lemma rows4_represents : represents rows4 table4.
Proof.
  assert (upTo 0 ∅) as Hup by (by intros k s v _ Hv%lookup_empty_Some).
  apply (upTo_step 1 _ keyA [x31]) in Hup as [Hup1 Hup]; [|apply small_u64; lia].
  apply (upTo_step 2 _ keyB tombstoneValue) in Hup as [Hup2 Hup]; [|apply small_u64; lia].
  apply (upTo_step 3 _ keyC [x33]) in Hup as [Hup3 Hup]; [|apply small_u64; lia].
  apply (upTo_step 4 _ keyA [x34]) in Hup as [Hup4 _]; [|apply small_u64; lia].
  repeat (apply setKey_represents;
    [exact keyA_good || exact keyB_good || exact keyC_good|apply small_u64; lia|assumption|]).
  intros k v. split; [by intros Hv%lookup_empty_Some|].
  by intros [_ (s & (_ & Hv%lookup_empty_Some & _) & _)].
Qed.

Lemma table4_holds : compareHolds (cmpRange [x34]) table4.
Proof.
  change table4 with (<[keyA := [x34]]> (<[keyC := [x33]]> (delete keyB (<[keyA := [x31]]> (∅ : table))))).
  intros k v Hv [_ [Hk|Hk]]; [done|].
  apply lookup_insert_Some in Hv as [[<- <-]|[Hne Hv]]; [done|].
  apply lookup_insert_Some in Hv as [[<- <-]|[_ Hv]]; [done|].
  apply lookup_delete_Some in Hv as [_ Hv]. by apply lookup_insert_Some in Hv as [[? _]|[_ Hv]].
Qed.

(** The older version of the key is compared: the comparison is not that of the table. *)
Lemma range_compare_versions_witness :
  compareHolds (cmpRange [x34]) table4 /\
  compareRange 20 (rows4 : @Reader memPebble) (cmpRange [x34]) keyB = OK false /\
  ~ oneVersion rows4 keyA keyB.
Proof.
  pose proof (@range_compare_versions _ memPebbleSpec 20 (rows4 : @Reader memPebble) (cmpRange [x34]) keyB
    table4 eq_refl rows4_represents) as Hc.
  assert (E : compareRange 20 (rows4 : @Reader memPebble) (cmpRange [x34]) keyB = OK false) by (by vm_compute).
  rewrite E in Hc |- *. split; [exact table4_holds|split; [done|]]. intros Hcol.
  destruct Hc as [_ Hc].
  { split; [split; [left; apply keyA_good|right; apply keyB_good]|exact rows4_table|exact (sv_fuel _ _ _ _ rows4_servable)]. }
  destruct (Hc Hcol) as [_ Ht]. discriminate Ht. split; [|exact table4_holds].
  exists keyA, [x34]. split; [by vm_compute|]. split; [apply ble_refl|by right].
Defined.

Definition rows2 : rowmap := <[ukey keyA 1 := [x31]]> (<[ukey keyB 2 := [x32]]> ∅).

(** A page cut at the limit can hide the last key.  Of two live keys a request with
    limit 1 returns the first and says that there are no more. *)
Theorem limit_hides_last_key :
  rangeLookup 20 (rows2 : @Reader memPebble) (allKeys 1) = OK (Some (mkRangeResp [newKV keyA [x31]] false 1)) /\
  rangeLookup 20 (rows2 : @Reader memPebble) (allKeys 0) =
    OK (Some (mkRangeResp [newKV keyA [x31]; newKV keyB [x32]] false 2)).
Proof. split; by vm_compute. Qed.

(** A value of one null byte is the tombstone: putting it deletes the key. *)
Lemma null_value_deletes :
  afterRun (Update (H0 := tableCodec [putCmd keyA [x31]; putCmd keyA [x00]]) 20
      [smEntryOf 1 x00; smEntryOf 2 x01] machine0)
    (fun p' => lookup 20 (of_DB (pebble p')) (mkRange keyA None 0 false false)) =
  Some (OK (Some emptyRange)).
Proof. by vm_compute. Qed.

(** The horizon of the garbage collection is the last one applied, not the highest:
    after a collection command for 10 one for 5 sets it back, in memory and in the
    store. *)
Theorem horizon_goes_back :
  afterRun (Update (H0 := tableCodec [gcCmd 10; gcCmd 5]) 20
      [smEntryOf 11 x00; smEntryOf 12 x01] machine0)
    (fun p' => (gcHorizon p', readLocalIndex (of_DB (pebble p')) sysGCHorizon)) = Some (5, OK 5).
Proof. by vm_compute. Qed.

(** A live version 0 is removed: the place after it wraps around to the first one. *)
Definition rowsZero : rowmap := <[ukey keyA 0 := [x31]]> ∅.

Lemma version_zero_dropped :
  lookup 20 (rowsZero : @Reader memPebble) (mkRange keyA None 0 false false) =
    OK (Some (mkRangeResp [newKV keyA [x31]] false 1)) /\
  afterRun (runGC 20 4 (rowsZero : @DB memPebble))
    (fun d => lookup 20 (of_DB d) (mkRange keyA None 0 false false)) = Some (OK (Some emptyRange)).
Proof. split; by vm_compute. Qed.
