(* ===== verification/SnapshotSamples.v ===== *)
(** * Sample snapshots

    A codec that is injective, a stream in memory and proposals that are applied at
    once, so that the theorems on restoring a table can be applied; and an incremental
    snapshot that misses a change because the horizon moved on while it was taken. *)
From S2P Require Import Prelude Raftpb LogDB Wire WireSpec Bytes Key KeySpec Armadapb Pebble.
From S2P Require Import Session RsmMembership Encoded TaskQueue Rsm.
From S2P Require Import FsmQuery FsmCommand Fsm FsmView FsmRange FsmRead FsmSpec FsmWrite.
From S2P Require Import FsmUpdate FsmGC FsmSweep FsmStream SnapshotFile SnapshotLoad FsmReplay.
From S2P Require Import SnapshotRestore FsmSamples.
From Stdlib Require Import Strings.Byte.
Import armadapb.

#[local] Existing Instance memPebble.

(** ** A codec through trees *)

Definition typeZ (t : CommandType) : Z :=
  match t with
  | PUT => 0 | DELETE => 1 | DUMMY => 2 | PUT_BATCH => 3 | DELETE_BATCH => 4 | TXN => 5
  | SEQUENCE => 6 | GC => 7 | CommandTypeOther n => 8
  end.
Definition typeOf (z : Z) : CommandType :=
  match z with
  | 0 => PUT | 1 => DELETE | 2 => DUMMY | 3 => PUT_BATCH | 4 => DELETE_BATCH | 5 => TXN
  | 6 => SEQUENCE | 7 => GC | _ => CommandTypeOther z
  end.

Abbreviation leaf := (bytes * Z * option (bytes * bytes) * option Z * option bytes * bool * bool)%type.

Fixpoint toTree (c : Command) : gen_tree leaf :=
  match c with
  | mkCommand t ty kv li _ _ re pk cs cnt =>
      GenNode 0 (GenLeaf (t, typeZ ty, (fun kv => (kv_Key kv, kv_Value kv)) <$> kv, li, re, pk, cnt)
                 :: map toTree cs)
  end.
Fixpoint ofTree (t : gen_tree leaf) : option Command :=
  match t with
  | GenNode _ (GenLeaf (t, ty, kv, li, re, pk, cnt) :: ts) =>
      Some (mkCommand t (typeOf ty) ((fun kv => newKV kv.1 kv.2) <$> kv) li [] None re pk
              (omap ofTree ts) cnt)
  | _ => None
  end.

Lemma ofTree_toTree c : plainCommand c -> ofTree (toTree c) = Some c.
Proof.
  revert c. fix IH 2. intros c Hc. destruct Hc as [t ty kv li re pk cnt cs Hty _ Hkv Hcs].
  cbn [toTree ofTree]. f_equal. f_equal.
  - destruct ty; try done. by destruct (Hty n).
  - destruct kv as [[k cr mr v]|]; [|done]. by destruct (Hkv _ eq_refl) as [[= ->] [= ->]].
  - clear -IH Hcs. induction Hcs as [|c cs Hc Hcs IHl]; [done|]. cbn [map omap list_omap].
    rewrite (IH c Hc). by f_equal.
Qed.

Definition treeBytes (c : Command) : bytes := x02 :: posBytes (encode (toTree c)).
Definition treeUnmarshal (b : bytes) : result Command :=
  match b with
  | x02 :: b => match decode (bytesPos b) ≫= ofTree with Some c => OK c | None => ERR ErrUnexpectedEOF end
  | _ => ERR ErrUnexpectedEOF
  end.

(** Longer commands are refused. *)
Definition treeCodec : CommandCodec := {|
  UnmarshalVT := treeUnmarshal;
  UnmarshalVTUnsafe := treeUnmarshal;
  SizeVT _ := 1;
  MarshalCommand c :=
    if len (treeBytes c) <=? maxSnapshotRecordSize then OK (treeBytes c) else ERR (ErrMsg "too long");
  MarshalResult _ := OK []
|}.
#[local] Existing Instance treeCodec.

#[local] Instance treeCodec_spec : @CommandCodecSpec treeCodec.
Proof.
  split; [|by intros c p; cbn; destruct (_ <=? _)|done]. intros b p. cbn. unfold treeUnmarshal.
  destruct b as [|[] b]; try done. by destruct (decode _ ≫= _).
Qed.

#[local] Instance treeCodec_roundtrip : @CommandRoundtrip treeCodec.
Proof.
  split. intros c b Hc. cbn. destruct (_ <=? _); [|done]. intros [= <-]. unfold treeUnmarshal, treeBytes.
  rewrite bytesPos_posBytes, decode_encode. cbn [mbind option_bind]. by rewrite ofTree_toTree.
Qed.

Lemma tree_fits c : fits c.
Proof.
  intros b. cbn. destruct (Z.leb_spec (len (treeBytes c)) maxSnapshotRecordSize); [|done].
  intros [= <-]. split; [|done]. unfold treeBytes. rewrite len_cons. pose proof (len_nonneg (posBytes (encode (toTree c)))). lia.
Qed.

(** ** A stream in memory, and proposals applied at once *)

#[local] Instance memStream : FileStream bytes := {|
  content := fun w => w;
  w_Write p := modify (fun w => w ++ p);
  w_Write_spec _ _ := eq_refl
|}.

Definition proposeOnce (cmd : Command) : M FSM unit := fun p =>
  match MarshalCommand cmd with
  | OK b =>
      match Update 30 [mkSmEntry (Fsm.applied p + 1) b emptyResult] p with
      | Ret _ p' => Ret tt p' | Err e _ => Err e p | Panic q => Panic q
      end
  | ERR e => Err e p
  | PANIC q => Panic q
  end.

#[local] Instance proposeOnce_spec : Proposes 30 proposeOnce.
Proof.
  split. intros cmd p Ht. unfold wp, proposeOnce.
  destruct (MarshalCommand cmd) as [b|e|q] eqn:Em; [|by left|by destruct (MarshalCommand_no_panic cmd q)].
  destruct (Update 30 _ p) as [es p'|e p'|q] eqn:Eu; [|by left|].
  - by eapply applied_once; [|exact Eu].
  - by destruct (Ht p (or_introl eq_refl) (mkSmEntry (Fsm.applied p + 1) b emptyResult) q Em).
Qed.

(** ** A table before and after a write *)

Definition rows3 : rowmap :=
  <[ukey keyA 1 := [x31]]> (<[ukey keyB 2 := tombstoneValue]> (<[ukey keyC 3 := [x33]]> ∅)).
Definition store4 : rowmap :=
  <[sysLocalIndex := LittleEndian_PutUint64 4]> (<[ukey keyA 4 := [x34]]> rows3).

Definition machineOf (m : rowmap) : FSM := mkFSM (m : @DB memPebble) 0 false 0 [].

Lemma rows3_table : tableRows rows3.
Proof.
  repeat (apply tableRows_insert;
    [exact keyA_good || exact keyB_good || exact keyC_good|apply small_u64; lia|]).
  by intros pk v Hv%lookup_empty_Some.
Qed.

Lemma rows3_upTo : upTo 3 rows3.
Proof.
  intros k s v Hs. unfold rows3. rewrite !lookup_insert_Some, lookup_empty.
  intros [[E _]|[_ [[E _]|[_ [[E _]|[_ ?]]]]]]; [..|done];
    (apply phys_inj in E as (_ & _ & <-); [lia|apply small_u64; lia|done]).
Qed.

Lemma rows3_sys pk : sysRow pk -> rows3 !! pk = None.
Proof. intros [-> | [-> | ->]]; by vm_compute. Qed.

Lemma store4_snapshotable : snapshotable 30 [] (machineOf store4).
Proof.
  split.
  - apply tableRows_sys; [by left|].
    apply tableRows_insert; [exact keyA_good|apply small_u64; lia|exact rows3_table].
  - intros pk v Hpk. cbn. unfold store4. rewrite !lookup_insert_Some, (rows3_sys pk Hpk).
    intros [[_ <-]|[_ [[E _]|[_ ?]]]]; [done| |done]. by apply (sysRow_ne pk keyA 4) in Hpk.
  - intros i Hi. vm_compute in Hi. injection Hi as <-. apply upTo_sys; [by left|].
    apply upTo_insert; [apply small_u64; lia|]. by eapply upTo_weaken, rows3_upTo.
  - split; intros; apply tree_fits.
  - apply Nat.ltb_lt. by vm_compute.
Qed.

Lemma restore_full_witness :
  wp no_panic (streamFull w_Write (fun _ => false) 30 [] [] (machineOf store4))
    (fun _ w => exists idx, wp no_panic
       (readSnapshot snapshotFile_Read [] 1000 proposeOnce (S (length w)))
       (fun _ x => sameTable (rows (of_DB (pebble x.2))) store4 /\
          rows (of_DB (pebble x.2)) !! sysLeaderIndex = Some (LittleEndian_PutUint64 idx))
       (fun _ x => rows (of_DB (pebble x.2)) !! sysLeaderIndex = None \/
          sameTable (rows (of_DB (pebble x.2))) store4) (w, machineOf ∅)) (fun _ _ => True) [].
Proof.
  eapply wp_mono; [apply (restore_full (W := bytes) (fun _ => false) 30 [] [] 1000 proposeOnce
    (machineOf store4) [] store4_snapshotable); done| |done].
  intros [] w Hw. destruct (Hw (machineOf ∅) (S (length w))) as (idx & _ & Hr).
  - intros pk v Hv. by apply (lookup_empty_Some (M := gmap bytes) pk v) in Hv.
  - intros k s v _ Hv. by apply (lookup_empty_Some (M := gmap bytes) (ukey k s) v) in Hv.
  - cbn. lia.
  - by exists idx.
Defined.

Lemma restore_incremental_witness :
  wp no_panic
    (streamIncremental w_Write (fun _ => false) 30 [] [] 3 (machineOf store4) (machineOf store4) (machineOf store4))
    (fun _ w => exists idx, wp no_panic
       (readSnapshot snapshotFile_Read [] 1000 proposeOnce (S (length w)))
       (fun _ x => sameTable (rows (of_DB (pebble x.2))) store4 /\
          rows (of_DB (pebble x.2)) !! sysLeaderIndex = Some (LittleEndian_PutUint64 idx))
       (fun _ x => rows (of_DB (pebble x.2)) !! sysLeaderIndex = rows3 !! sysLeaderIndex \/
          sameTable (rows (of_DB (pebble x.2))) store4) (w, machineOf rows3)) (fun _ _ => True) [].
Proof.
  eapply wp_mono; [apply (restore_incremental (W := bytes) (fun _ => false) 30 [] [] 1000 proposeOnce 3
    (machineOf store4) (machineOf store4) (machineOf store4) rows3 [] store4_snapshotable)| |done].
  - apply store4_snapshotable.
  - eapply evolves_update; [apply evolves_refl|]. apply extends_sys; [|by left].
    apply extends_version; [apply extends_refl|exact keyA_good|apply small_u64; lia|lia].
  - intros h Hh. vm_compute in Hh. injection Hh as <-. by left.
  - done.
  - intros [] w Hw. destruct (Hw (machineOf rows3) (S (length w))) as (idx & _ & Hr);
      [exact rows3_table|exact rows3_upTo|done|cbn; lia|]. by exists idx.
Defined.

(** The snapshots of the samples are written, and the follower has the new value. *)
Lemma restore_runs :
  match streamIncremental w_Write (fun _ => false) 30 [] [] 3 (machineOf store4) (machineOf store4)
          (machineOf store4) [] with
  | Ret _ w => afterRun (readSnapshot snapshotFile_Read [] 1000 proposeOnce (S (length w)) (w, machineOf rows3))
      (fun x => lookup 30 (of_DB (pebble x.2)) (mkRange keyA None 0 false false))
  | _ => None
  end = Some (OK (Some (mkRangeResp [newKV keyA [x34]] false 1))).
Proof. by vm_compute. Qed.

(** ** A horizon that moves while the snapshot is taken *)

(** The leader after a write at 6, and after a collection command for 6 as well. *)
Definition store6 : rowmap :=
  <[sysLocalIndex := LittleEndian_PutUint64 6]> (<[ukey keyA 6 := [x36]]> rows3).
Definition store7 : rowmap :=
  <[sysGCHorizon := LittleEndian_PutUint64 6]> (<[sysLocalIndex := LittleEndian_PutUint64 7]> store6).

(** A follower at index 5 asks for the changes since.  The guard sees the leader at 6
    without a horizon, and by the time the snapshot is taken the horizon is 6: the file is
    only a marker at 7, without the value written at 6. *)
Lemma misses_run :
  lookup 30 (of_DB (pebble (machineOf store7))) (mkRange keyA None 0 false false) =
    OK (Some (mkRangeResp [newKV keyA [x36]] false 1)) /\
  streamIncremental w_Write (fun _ => false) 30 [] [] 5 (machineOf store6) (machineOf store6)
    (machineOf store7) [] = Ret tt (fileOf [treeBytes (terminalCommand [] 7)]).
Proof. split; by vm_compute. Qed.

Lemma store7_rows : tableRows store7 /\ upTo 6 store7.
Proof.
  assert (Y1 : sysRow sysLocalIndex) by (by left). assert (Y2 : sysRow sysGCHorizon) by (right; by right).
  split.
  - apply tableRows_sys; [done|]. apply tableRows_sys; [done|]. apply tableRows_sys; [done|].
    apply tableRows_insert; [exact keyA_good|apply small_u64; lia|exact rows3_table].
  - apply upTo_sys; [done|]. apply upTo_sys; [done|]. apply upTo_sys; [done|].
    apply upTo_insert; [apply small_u64; lia|]. by eapply upTo_weaken, rows3_upTo.
Qed.

Lemma store7_snapshotable : snapshotable 30 [] (machineOf store7).
Proof.
  destruct store7_rows as [Hrows Hup]. split.
  - exact Hrows.
  - intros pk v Hpk. cbn. unfold store7, store6. rewrite !lookup_insert_Some, (rows3_sys pk Hpk).
    intros [[_ <-]|[_ [[_ <-]|[_ [[_ <-]|[_ [[E _]|[_ ?]]]]]]]]; [done..| |done].
    by apply (sysRow_ne pk keyA 6) in Hpk.
  - intros i Hi. vm_compute in Hi. injection Hi as <-. by eapply upTo_weaken, Hup.
  - split; intros; apply tree_fits.
  - apply Nat.ltb_lt. by vm_compute.
Qed.

Lemma rows3_old pk : rows3 !! pk <> Some [x36].
Proof.
  unfold rows3. rewrite !lookup_insert_Some, lookup_empty. by intros [[_ ?]|[_ [[_ ?]|[_ [[_ ?]|[_ ?]]]]]].
Qed.

Lemma store7_newest : newest store7 keyA 6 [x36].
Proof.
  split_and!; [apply small_u64; lia|by vm_compute|]. intros s v Hs Hv. unfold store7, store6 in Hv.
  rewrite !lookup_insert_Some in Hv.
  assert (Hsys : forall pk, sysRow pk -> pk <> ukey keyA s) by (intros pk Hpk; by apply sysRow_ne).
  destruct Hv as [[E _]|[_ [[E _]|[_ [[E _]|[_ [[E _]|[_ Hv]]]]]]]].
  - by apply Hsys in E; [|right; right].
  - by apply Hsys in E; [|left].
  - by apply Hsys in E; [|left].
  - apply phys_inj in E as (_ & _ & <-); [lia|apply small_u64; lia|done].
  - apply rows3_upTo in Hv; [lia|done].
Qed.

(** The follower keeps its value of the key and takes the index 7 for its own. *)
Lemma incremental_misses_change_witness :
  wp no_panic
    (streamIncremental w_Write (fun _ => false) 30 [] [] 5 (machineOf store6) (machineOf store6) (machineOf store7))
    (fun _ w => wp no_panic
       (readSnapshot snapshotFile_Read [] 1000 proposeOnce (S (length w)))
       (fun _ x => (forall v, live (rows (of_DB (pebble x.2))) keyA v <-> live rows3 keyA v) /\
          ~ sameTable (rows (of_DB (pebble x.2))) store7)
       (fun _ _ => True) (w, machineOf rows3)) (fun _ _ => True) [].
Proof.
  eapply wp_mono; [apply (incremental_misses_change (W := bytes) (fun _ => false) 30 [] [] 1000 proposeOnce 5
    (machineOf store6) (machineOf store6) (machineOf store7) 6 [] store7_snapshotable)| |done].
  - intros pk v Hpk. cbn. unfold store6. rewrite !lookup_insert_Some, (rows3_sys pk Hpk).
    intros [[_ <-]|[_ [[E _]|[_ ?]]]]; [done| |done]. by apply (sysRow_ne pk keyA 6) in Hpk.
  - by vm_compute.
  - lia.
  - lia.
  - lia.
  - done.
  - intros [] w Hw. destruct (Hw (machineOf rows3) (S (length w))) as (idx & _ & Hr);
      [exact rows3_table|by eapply upTo_weaken, rows3_upTo|cbn; lia|].
    eapply wp_mono; [exact Hr| |done]. intros [] x [_ Hk].
    destruct (Hk keyA 6 [x36] keyA_good store7_newest) as [Hlive Hdiff]; [lia|]. split; [exact Hlive|].
    apply Hdiff; [done|]. intros (s & (Hs & Hv & _) & _). cbn in Hv.
    by apply rows3_old in Hv.
Defined.
