(* ===== verification/SnapshotStore.v ===== *)
(** * Snapshots in shared object storage

    [replication/store/meta.go], [query.go], [exporter.go] and [gc.go]: the metadata of
    the snapshots in a bucket, the choice of one for a follower, the state of the chain
    of incremental snapshots, and the collection of old ones;
    [replication/snapshot_query.go] and [armadaserver/replication.go]: the answers to a
    follower; [replication/worker.go]: what the follower makes of an answer.  The bucket
    is a third-party library behind the class [Bucket]; the JSON and the time stamps of
    the audit log, and [sort.Slice], whose order of equal elements is open, are
    parameters. *)
From S2P Require Import Prelude Wire.
From Stdlib Require Import Strings.Byte Strings.Ascii.
From stdpp Require Import pretty.
Open Scope Z_scope.

(** ** The bucket *)

Definition ErrNotExist : error := ErrMsg "object does not exist".

(** The bucket of [objfs]. *)
Class Bucket (W : Type) : Type := {
  bkt_Upload : string -> bytes -> M W unit;
  bkt_Delete : string -> M W unit
}.

(** ** Metadata and object keys *)

Definition SnapshotTypeFull : string := "full".
Definition SnapshotTypeIncremental : string := "incr".

(** [meta_CreatedAt] in nanoseconds. *)
Record Meta : Type := mkMeta {
  meta_Table : string;
  meta_Type : string;
  meta_BaseIndex : Z;
  meta_TipIndex : Z;
  meta_SizeBytes : Z;
  meta_SHA256 : string;
  meta_CreatedAt : Z;
  meta_NodeID : string;
  meta_Format : string;
  meta_GCHorizon : Z
}.

(** The zero value. *)
Definition noMeta : Meta := mkMeta "" "" 0 0 0 "" 0 "" "" 0.

(** The verb %d. *)
Definition fmtInt (n : Z) : string := pretty n.

Definition FullSnapKey (tableName : string) (tipIndex : Z) : string :=
  "snapshots/" +:+ tableName +:+ "/full/" +:+ fmtInt tipIndex +:+ ".snap".
Definition FullMetaKey (tableName : string) (tipIndex : Z) : string :=
  FullSnapKey tableName tipIndex +:+ ".meta".
Definition IncrSnapKey (tableName : string) (baseIndex tipIndex : Z) : string :=
  "snapshots/" +:+ tableName +:+ "/incr/" +:+ fmtInt baseIndex +:+ "_" +:+ fmtInt tipIndex +:+ ".snap".
Definition IncrMetaKey (tableName : string) (baseIndex tipIndex : Z) : string :=
  IncrSnapKey tableName baseIndex tipIndex +:+ ".meta".
Definition LeaseKey (tableName nodeID : string) : string :=
  "snapshots/" +:+ tableName +:+ "/.lease/" +:+ nodeID.
Definition GCLogKey (t : string) : string := "gc/" +:+ t +:+ ".log".

(** ** The choice of a snapshot *)

Record SnapshotSelectionOptions : Type := mkSelection {
  FollowerIndex : Z;
  LiveGCHorizon : Z;
  RequireKnownIncrementalHorizon : bool;
  FollowerCanTail : bool
}.

Definition validIncremental (meta : Meta) (options : SnapshotSelectionOptions) : bool :=
  let horizon := meta_GCHorizon meta in
  if (horizon =? 0) && RequireKnownIncrementalHorizon options then false
  else
    let horizon := if horizon =? 0 then LiveGCHorizon options else horizon in
    (horizon =? 0) || (horizon <? meta_BaseIndex meta).

(** The tests that skip an artefact. *)
Definition skipped (options : SnapshotSelectionOptions) (meta : Meta) : bool :=
  ((0 <? LiveGCHorizon options) && (meta_TipIndex meta <? LiveGCHorizon options)) ||
  ((meta_TipIndex meta <=? FollowerIndex options) || (FollowerIndex options <? meta_BaseIndex meta)) ||
  ((meta_Type meta =? SnapshotTypeIncremental)%string && negb (validIncremental meta options)).

Fixpoint selectLoop (options : SnapshotSelectionOptions) (metas : list Meta)
    (selected : Meta) (found : bool) : Meta * bool :=
  match metas with
  | [] => (selected, found)
  | meta :: metas =>
      if skipped options meta then selectLoop options metas selected found
      else if negb found || (meta_BaseIndex selected <? meta_BaseIndex meta) ||
              ((meta_BaseIndex meta =? meta_BaseIndex selected) &&
               (meta_TipIndex selected <? meta_TipIndex meta))
      then selectLoop options metas meta true
      else selectLoop options metas selected found
  end.

Definition SelectRecoverableSnapshot (metas : list Meta) (options : SnapshotSelectionOptions) : Meta * bool :=
  if FollowerCanTail options && (0 <? LiveGCHorizon options) &&
     (LiveGCHorizon options <=? FollowerIndex options)
  then (noMeta, false)
  else selectLoop options metas noMeta false.

(** ** The state of the chain, for the next export *)

(** The loop over the full snapshots of [chainState]. *)
Definition latestFull (metas : list Meta) : Z :=
  foldl (fun latestFullTip m =>
    if (meta_Type m =? SnapshotTypeFull)%string && (latestFullTip <? meta_TipIndex m)
    then meta_TipIndex m else latestFullTip) 0 metas.

(** [metas] in the order of [ListMeta], by ascending tip. *)
Definition chainState (metas : list Meta) : Z * Z :=
  match last metas with
  | None => (0, 0)
  | Some newest =>
      let latestFullTip := latestFull metas in
      (meta_TipIndex newest,
       foldl (fun chain m =>
         if (meta_Type m =? SnapshotTypeIncremental)%string && (latestFullTip <=? meta_BaseIndex m)
         then chain + 1 else chain) 0 metas)
  end.

(** ** Answers to a follower *)

Inductive SnapshotQueryType : Type :=
| QUERY_NONE
| QUERY_FULL
| QUERY_INCREMENTAL
| QUERY_UNKNOWN (n : Z).

#[export] Instance SnapshotQueryType_eq_dec : EqDecision SnapshotQueryType.
Proof. solve_decision. Defined.

Record SnapshotQueryResponse : Type := mkQueryResponse {
  q_Type : SnapshotQueryType;
  q_BaseIndex : Z;
  q_TipIndex : Z;
  q_ObjectKey : string;
  q_Sha256 : bytes;
  q_SizeBytes : Z
}.

Definition nothingApplies : SnapshotQueryResponse := mkQueryResponse QUERY_NONE 0 0 "" [] 0.

(** [hex.DecodeString] and [hex.EncodeToString]. *)
Definition fromHexChar (c : ascii) : option N :=
  let n := N_of_ascii c in
  if (48 <=? n)%N && (n <=? 57)%N then Some (n - 48)%N
  else if (97 <=? n)%N && (n <=? 102)%N then Some (n - 87)%N
  else if (65 <=? n)%N && (n <=? 70)%N then Some (n - 55)%N
  else None.

Fixpoint DecodeString (s : string) : result bytes :=
  match s with
  | EmptyString => OK []
  | String a (String b s) =>
      match fromHexChar a, fromHexChar b with
      | Some a, Some b =>
          match Byte.of_N (16 * a + b)%N with
          | Some c => bs ← DecodeString s; OK (c :: bs)
          | None => ERR (ErrMsg "invalid byte")
          end
      | _, _ => ERR (ErrMsg "invalid byte")
      end
  | String a EmptyString =>
      match fromHexChar a with
      | None => ERR (ErrMsg "invalid byte")
      | Some _ => ERR (ErrMsg "odd length hex string")
      end
  end.

Definition hexChar (n : N) : ascii :=
  ascii_of_N (if (n <? 10)%N then n + 48 else n + 87)%N.

Fixpoint EncodeToString (bs : bytes) : string :=
  match bs with
  | [] => ""
  | b :: bs => String (hexChar (Byte.to_N b / 16)) (String (hexChar (Byte.to_N b mod 16)) (EncodeToString bs))
  end.

(** What both resolvers make of the selection. *)
Definition offer (selection : Meta * bool) : result SnapshotQueryResponse :=
  let '(meta, ok) := selection in
  if negb ok then OK nothingApplies
  else
    '(t, key) ←
      (if (meta_Type meta =? SnapshotTypeFull)%string
       then OK (QUERY_FULL, FullSnapKey (meta_Table meta) (meta_TipIndex meta))
       else if (meta_Type meta =? SnapshotTypeIncremental)%string
       then OK (QUERY_INCREMENTAL, IncrSnapKey (meta_Table meta) (meta_BaseIndex meta) (meta_TipIndex meta))
       else ERR (ErrMsg "unsupported snapshot type"));
    sha ← (if (meta_SHA256 meta =? "")%string then OK [] else DecodeString (meta_SHA256 meta));
    OK (mkQueryResponse t (meta_BaseIndex meta) (meta_TipIndex meta) key sha (meta_SizeBytes meta)).

Definition highestRecordedGCHorizon (metas : list Meta) : Z :=
  foldl (fun h m => if h <? meta_GCHorizon m then meta_GCHorizon m else h) 0 metas.

(** The resolver that only has the bucket, on what [ListMeta] gave. *)
Definition bucket_Query (metas : list Meta) (followerIndex : Z) : result SnapshotQueryResponse :=
  offer (SelectRecoverableSnapshot metas
    (mkSelection followerIndex (highestRecordedGCHorizon metas) true false)).

(** The selection of the leader, with the horizon of its table. *)
Definition server_answer (metas : list Meta) (horizon followerIndex : Z) : result SnapshotQueryResponse :=
  offer (SelectRecoverableSnapshot metas (mkSelection followerIndex horizon false true)).

Definition replaceChar (c : ascii) : ascii :=
  if (c =? "/")%char || (c =? ":")%char || (c =? " ")%char then "_"%char else c.

Fixpoint replaceChars (s : string) : string :=
  match s with EmptyString => EmptyString | String c s => String (replaceChar c) (replaceChars s) end.

Definition leaseNodeID (id : string) : string :=
  let out := replaceChars id in
  if (out =? "")%string then "unknown" else out.

Section server.
Context `{Bucket W}.

(** [now]: the formatted time.  Without a bucket the source does nothing; here there is one. *)
Definition WriteLease (tableName nodeID : string) (now : bytes) : M W unit :=
  r ← try_ (bkt_Upload (LeaseKey tableName (leaseNodeID nodeID)) now);
  match r with inl _ => skip | inr _ => fail (ErrMsg "write snapshot lease") end.

(** The query of a follower once the checks of the request passed, with the metadata and
    the horizon of the table that were read; an offer claims a lease for the requester. *)
Definition server_Query (metas : list Meta) (horizon : Z) (requesterID : string) (now : bytes)
    (followerIndex : Z) : M W SnapshotQueryResponse :=
  let '(meta, ok) := SelectRecoverableSnapshot metas (mkSelection followerIndex horizon false true) in
  resp ← readr (fun _ => offer (meta, ok));
  (if ok then _ ← try_ (WriteLease (meta_Table meta) requesterID now); skip else skip) ;;
  ret resp.

End server.

(** ** What the follower makes of an answer *)

Definition ArtifactFull : string := "full".
Definition ArtifactIncremental : string := "incr".
Definition ArtifactLive : string := "live".

Record RecoveryArtifact : Type := mkArtifact {
  art_ObjectKey : string;
  art_Type : string;
  art_BaseIndex : Z;
  art_TipIndex : Z;
  art_SHA256 : string;
  art_SizeBytes : Z;
  art_StagePath : string;
  art_Legacy : bool
}.

Definition LiveSnapshotObjectKey (table : string) : string := "snapshots-live/" +:+ table.
Definition liveArtifact : RecoveryArtifact := mkArtifact "" ArtifactLive 0 0 "" 0 "" false.

Definition negotiate (table : string) (forceRecovery : bool)
    (querySnapshot : Z -> result SnapshotQueryResponse) (followerIndex : Z) :
    result (RecoveryArtifact * bool) :=
  queryResp ← querySnapshot followerIndex;
  if bool_decide (q_Type queryResp = QUERY_NONE) ||
     (q_ObjectKey queryResp =? LiveSnapshotObjectKey table)%string
  then OK (liveArtifact, true)
  else if bool_decide (q_Type queryResp = QUERY_INCREMENTAL) &&
     (forceRecovery || (followerIndex =? 0) || (followerIndex <? q_BaseIndex queryResp))
  then OK (liveArtifact, true)
  else
    let art t := mkArtifact (q_ObjectKey queryResp) t (q_BaseIndex queryResp)
      (q_TipIndex queryResp) (EncodeToString (q_Sha256 queryResp)) (q_SizeBytes queryResp) "" false in
    match q_Type queryResp with
    | QUERY_FULL => OK (art ArtifactFull, true)
    | QUERY_INCREMENTAL => OK (art ArtifactIncremental, true)
    | _ => ERR (ErrMsg "unknown snapshot query response type")
    end.

(** ** Collection of old snapshots *)

Record tableArtefact : Type := mkArtefact {
  a_meta : Meta;
  a_snapKey : string;
  a_metaKey : string
}.

(** The entry of the audit log. *)
Record tombstone : Type := mkTombstone {
  ts_Action : string;
  ts_Table : string;
  ts_Type : string;
  ts_BaseIndex : Z;
  ts_TipIndex : Z;
  ts_Key : string;
  ts_DeletedAt : string
}.

(** [sort.Slice] of the full snapshots by descending tip. *)
Class SortSlice : Type := { sortByTip : list tableArtefact -> list tableArtefact }.

Section gc.
Context `{Bucket W} `{SortSlice}.
(** The formatted times at which an artefact is deleted and its log entry is named, and
    the JSON encoding. *)
Context (deletedAt logTime : tableArtefact -> string) (json_Marshal : tombstone -> result bytes).

(** Deleting what is no longer there is no error. *)
Definition deleteObject (key : string) : M W unit :=
  r ← try_ (bkt_Delete key);
  match r with
  | inl _ => skip
  | inr e => if bool_decide (e = ErrNotExist) then skip else fail e
  end.

Definition deleteArtefact (a : tableArtefact) : M W unit :=
  let m := a_meta a in
  tombstoneBytes ←
    (match json_Marshal (mkTombstone "delete" (meta_Table m) (meta_Type m) (meta_BaseIndex m)
             (meta_TipIndex m) (a_snapKey a) (deletedAt a)) with
     | OK b => ret b
     | ERR _ => ret []
     | PANIC p => panic_ p
     end);
  _ ← try_ (bkt_Upload (GCLogKey (logTime a)) tombstoneBytes);
  deleteObject (a_snapKey a) ;;
  deleteObject (a_metaKey a).

(** A loop of [gcTable]: the artefacts for which [keep] holds are skipped, an error is
    logged. *)
Fixpoint gcArtefacts (keep : tableArtefact -> bool) (l : list tableArtefact) (deleted : Z) : M W Z :=
  match l with
  | [] => ret deleted
  | a :: l =>
      if keep a then gcArtefacts keep l deleted
      else
        r ← try_ (deleteArtefact a);
        gcArtefacts keep l (match r with inl _ => deleted + 1 | inr _ => deleted end)
  end.

Definition ofType (t : string) (artefacts : list tableArtefact) : list tableArtefact :=
  filter (fun a => meta_Type (a_meta a) = t) artefacts.

Definition gcTable (artefacts : list tableArtefact) (leased : gset string) (cutoff : Z) : M W Z :=
  match artefacts with
  | [] => ret 0
  | a0 :: _ =>
      let tablePrefix := "snapshots/" +:+ meta_Table (a_meta a0) in
      if bool_decide (tablePrefix ∈ leased) then ret 0
      else
        let fulls := sortByTip (ofType SnapshotTypeFull artefacts) in
        let incrs := ofType SnapshotTypeIncremental artefacts in
        let latestFullTip := match fulls with a :: _ => meta_TipIndex (a_meta a) | [] => 0 end in
        let young a := cutoff <? meta_CreatedAt (a_meta a) in
        deleted ← gcArtefacts young (tail fulls) 0;
        gcArtefacts (fun a => (latestFullTip <=? meta_BaseIndex (a_meta a)) || young a) incrs deleted
  end.

End gc.
