(* ===== verification/SnapshotChoice.v ===== *)
(** * The snapshot a follower recovers from

    The choice of [SnapshotStore.v] against its contract: the artefact that
    [SelectRecoverableSnapshot] returns can be applied by the follower and is the best
    one that can, and what the follower makes of the answer is that artefact, or a live
    snapshot when no artefact applies. *)
From S2P Require Import Prelude Wire SnapshotStore.
From Stdlib Require Import Strings.Byte Strings.Ascii.
Open Scope Z_scope.

(** ** The contract of the selection *)

(** An incremental snapshot has every change since its base: the horizon it was taken
    under, or the one of the leader, is below the base. *)
Definition completeDelta (o : SnapshotSelectionOptions) (m : Meta) : Prop :=
  (meta_GCHorizon m = 0 -> RequireKnownIncrementalHorizon o = false) /\
  let h := if decide (meta_GCHorizon m = 0) then LiveGCHorizon o else meta_GCHorizon m in
  h = 0 \/ h < meta_BaseIndex m.

(** A follower can apply the artefact, and go on from its tip with the log. *)
Definition recoverable (o : SnapshotSelectionOptions) (m : Meta) : Prop :=
  (0 < LiveGCHorizon o -> LiveGCHorizon o <= meta_TipIndex m) /\
  meta_BaseIndex m <= FollowerIndex o < meta_TipIndex m /\
  (meta_Type m = SnapshotTypeIncremental -> completeDelta o m).

Definition canTail (o : SnapshotSelectionOptions) : Prop :=
  FollowerCanTail o = true /\ 0 < LiveGCHorizon o <= FollowerIndex o.

Definition ranked (m m' : Meta) : Prop :=
  meta_BaseIndex m < meta_BaseIndex m' \/
  (meta_BaseIndex m = meta_BaseIndex m' /\ meta_TipIndex m <= meta_TipIndex m').

(** [m] is the artefact for the follower. *)
Definition best (o : SnapshotSelectionOptions) (metas : list Meta) (m : Meta) : Prop :=
  m ∈ metas /\ recoverable o m /\ forall m', m' ∈ metas -> recoverable o m' -> ranked m' m.

#[export] Instance ranked_trans : Transitive ranked.
Proof. unfold ranked. intros a b c. lia. Qed.

Lemma ranked_refl m : ranked m m.
Proof. unfold ranked. lia. Qed.

Lemma validIncremental_complete o m : validIncremental m o = true <-> completeDelta o m.
Proof.
  unfold validIncremental, completeDelta. case_decide as Hd.
  - rewrite Hd. cbn. destruct (RequireKnownIncrementalHorizon o); naive_solver lia.
  - replace (meta_GCHorizon m =? 0) with false by lia. cbn. naive_solver lia.
Qed.

Lemma skipped_recoverable o m : skipped o m = false <-> recoverable o m.
Proof.
  unfold skipped, recoverable. rewrite !orb_false_iff, !andb_false_iff, negb_false_iff.
  rewrite validIncremental_complete, String.eqb_neq. split; [naive_solver lia|].
  intros (? & ? & Hi). split_and!; [lia|lia|lia|].
  destruct (decide (meta_Type m = SnapshotTypeIncremental)); auto.
Qed.

Lemma selectLoop_best o metas sel (found : bool) :
  match selectLoop o metas sel found with
  | (m, true) => ((found = true /\ m = sel) \/ (m ∈ metas /\ recoverable o m)) /\
      (found = true -> ranked sel m) /\
      forall m', m' ∈ metas -> recoverable o m' -> ranked m' m
  | (_, false) => found = false /\ forall m', m' ∈ metas -> ~ recoverable o m'
  end.
Proof.
  revert sel found. induction metas as [|m0 metas IH]; intros sel found; cbn.
  - destruct found; [|split; [done|]]; [split_and!; [by left|by intros; apply ranked_refl|]|];
      intros m' []%elem_of_nil.
  - destruct (skipped o m0) eqn:Hs.
    { assert (~ recoverable o m0) by (rewrite <- skipped_recoverable; congruence).
      specialize (IH sel found). destruct selectLoop as [m []]; set_solver. }
    apply skipped_recoverable in Hs. destruct (_ || _) eqn:Hb.
    + specialize (IH m0 true). destruct selectLoop as [m []]; [|by destruct IH].
      destruct IH as (Hin & Hr & Hbest). split_and!.
      * right. destruct Hin as [[_ ->]|[? ?]]; (split; [set_solver|done]).
      * intros ->. transitivity m0; [unfold ranked; lia|auto].
      * intros m' [->|?]%elem_of_cons; auto.
    + destruct found; [|done]. specialize (IH sel true).
      destruct selectLoop as [m []]; [|by destruct IH]. destruct IH as (Hin & Hr & Hbest).
      split_and!; [set_solver|done|]. intros m' [->|?]%elem_of_cons ?; [|auto].
      transitivity sel; [unfold ranked; lia|auto].
Qed.

Lemma select_best o metas :
  match SelectRecoverableSnapshot metas o with
  | (m, true) => ~ canTail o /\ best o metas m
  | (_, false) => canTail o \/ forall m, m ∈ metas -> ~ recoverable o m
  end.
Proof.
  unfold SelectRecoverableSnapshot, canTail, best. destruct (_ && _) eqn:Ht.
  - apply andb_true_iff in Ht as [[? ?]%andb_true_iff ?]. left. split; [done|lia].
  - pose proof (selectLoop_best o metas noMeta false) as Hl.
    destruct selectLoop as [m []]; [|by right; apply Hl].
    split; [|naive_solver]. destruct (FollowerCanTail o); naive_solver lia.
Qed.

(** ** The chain *)

Lemma foldl_count {A} (P : A -> bool) l n :
  foldl (fun n a => if P a then n + 1 else n) n l = n + len (filter (fun a => P a = true) l).
Proof.
  revert n. induction l as [|a l IH]; intros n; cbn [foldl]; [by rewrite filter_nil, Z.add_0_r|]. rewrite IH, filter_cons.
  destruct (P a); [rewrite decide_True by done|rewrite decide_False by done]; unfold len; cbn; lia.
Qed.

Lemma latestFull_max metas n :
  let h := foldl (fun h m => if (meta_Type m =? SnapshotTypeFull)%string && (h <? meta_TipIndex m)
                             then meta_TipIndex m else h) n metas in
  n <= h /\ (forall m, m ∈ metas -> meta_Type m = SnapshotTypeFull -> meta_TipIndex m <= h).
Proof.
  revert n. induction metas as [|m metas IH]; intros n; cbn; [split; [lia|by intros m []%elem_of_nil]|].
  destruct (IH (if (meta_Type m =? SnapshotTypeFull)%string && (n <? meta_TipIndex m)
                then meta_TipIndex m else n)) as [Hle Hall].
  split; [etrans; [|exact Hle]; destruct (_ && _) eqn:?; lia|].
  intros m' [->|Hm]%elem_of_cons Ht; [|by apply Hall].
  etrans; [|exact Hle]. rewrite Ht, String.eqb_refl. cbn. destruct (n <? _) eqn:?; lia.
Qed.

(** The next incremental snapshot starts at the highest tip there is, and the chain
    counts the incremental snapshots based at or after every full one. *)
Lemma chainState_spec metas :
  StronglySorted (fun m m' => meta_TipIndex m <= meta_TipIndex m') metas ->
  let '(tip, chain) := chainState metas in
  (forall m, m ∈ metas -> meta_TipIndex m <= tip) /\
  chain = len (filter (fun m => (meta_Type m =? SnapshotTypeIncremental)%string &&
                                (latestFull metas <=? meta_BaseIndex m) = true) metas) /\
  (forall m, m ∈ metas -> meta_Type m = SnapshotTypeFull -> meta_TipIndex m <= latestFull metas).
Proof.
  intros Hs. unfold chainState. destruct (last metas) as [newest|] eqn:Hl;
    [|apply last_None in Hl as ->; split_and!; [by intros m []%elem_of_nil|done|by intros m []%elem_of_nil]].
  split_and!.
  - apply last_Some in Hl as [l ->]. intros m [Hm|Hm%list_elem_of_singleton]%elem_of_app; [|subst; lia].
    induction l as [|x l IH]; [by apply elem_of_nil in Hm|].
    apply StronglySorted_inv in Hs as [Hs Hx]. apply elem_of_cons in Hm as [->|Hm]; [|auto].
    rewrite Forall_forall in Hx. apply Hx. set_solver.
  - rewrite foldl_count. lia.
  - apply (latestFull_max metas 0).
Qed.

(** ** Checksums in hexadecimal *)

Lemma hex_byte (b : byte) :
  (fromHexChar (hexChar (Byte.to_N b / 16)), fromHexChar (hexChar (Byte.to_N b mod 16)),
    Byte.of_N (16 * (Byte.to_N b / 16) + Byte.to_N b mod 16)) =
  (Some (Byte.to_N b / 16)%N, Some (Byte.to_N b mod 16)%N, Some b).
Proof. by destruct b. Qed.

Lemma hex_roundtrip bs : DecodeString (EncodeToString bs) = OK bs.
Proof.
  induction bs as [|b bs IH]; [done|]. cbn [EncodeToString DecodeString].
  pose proof (hex_byte b) as [= -> -> Hb]. by rewrite Hb, IH.
Qed.

(** ** What the follower fetches *)

(** The artefact [a] is the published snapshot [m]. *)
Definition pins (a : RecoveryArtifact) (m : Meta) : Prop :=
  art_Type a = meta_Type m /\ art_BaseIndex a = meta_BaseIndex m /\
  art_TipIndex a = meta_TipIndex m /\ art_SizeBytes a = meta_SizeBytes m /\
  DecodeString (art_SHA256 a) = DecodeString (meta_SHA256 m) /\
  ((meta_Type m = SnapshotTypeFull /\
      art_ObjectKey a = FullSnapKey (meta_Table m) (meta_TipIndex m)) \/
   (meta_Type m = SnapshotTypeIncremental /\
      art_ObjectKey a = IncrSnapKey (meta_Table m) (meta_BaseIndex m) (meta_TipIndex m))).

(** The delta cannot be used: everything held locally is replaced, or nothing is held. *)
Definition needsFull (force : bool) (o : SnapshotSelectionOptions) : Prop :=
  force = true \/ FollowerIndex o = 0.

Definition fetches (force : bool) (o : SnapshotSelectionOptions) (metas : list Meta)
    (r : result (RecoveryArtifact * bool)) : Prop :=
  match r with
  | OK (a, ok) => ok = true /\
      ((a = liveArtifact /\
        (canTail o \/ (forall m, m ∈ metas -> ~ recoverable o m) \/
         exists m, best o metas m /\ meta_Type m = SnapshotTypeIncremental /\ needsFull force o)) \/
       (exists m, ~ canTail o /\ best o metas m /\ pins a m /\
         (meta_Type m = SnapshotTypeIncremental -> ~ needsFull force o)))
  | ERR _ => exists m, best o metas m /\
      (meta_Type m ∉ [SnapshotTypeFull; SnapshotTypeIncremental] \/
       exists e, DecodeString (meta_SHA256 m) = ERR e)
  | PANIC _ => False
  end.

Lemma Decode_no_panic s p : DecodeString s <> PANIC p.
Proof.
  revert s. fix IH 1. intros [|a [|b s]]; cbn; [done|by destruct fromHexChar|].
  destruct (fromHexChar a), (fromHexChar b); [|done..].
  destruct Byte.of_N; [|done]. destruct (DecodeString s) eqn:E; cbn; [done..|].
  intros [= ->]. by apply (IH s).
Qed.

(** The body of an answer with an artefact. *)
Lemma offer_Some m :
  match offer (m, true) with
  | OK q => q_Type q <> QUERY_NONE /\ q_BaseIndex q = meta_BaseIndex m /\
      exists t, pins (mkArtifact (q_ObjectKey q) t (q_BaseIndex q) (q_TipIndex q)
                       (EncodeToString (q_Sha256 q)) (q_SizeBytes q) "" false) m /\
        ((t = ArtifactFull /\ q_Type q = QUERY_FULL) \/
         (t = ArtifactIncremental /\ q_Type q = QUERY_INCREMENTAL))
  | ERR _ => meta_Type m ∉ [SnapshotTypeFull; SnapshotTypeIncremental] \/
      exists e, DecodeString (meta_SHA256 m) = ERR e
  | PANIC _ => False
  end.
Proof.
  assert (Hsha : (if (meta_SHA256 m =? "")%string then OK [] else DecodeString (meta_SHA256 m))
                 = DecodeString (meta_SHA256 m)).
  { destruct (String.eqb_spec (meta_SHA256 m) "") as [->|]; done. }
  unfold offer. cbn [negb]. rewrite Hsha. unfold pins.
  destruct (String.eqb_spec (meta_Type m) SnapshotTypeFull) as [Hf|Hf];
    [|destruct (String.eqb_spec (meta_Type m) SnapshotTypeIncremental) as [Hi|Hi]];
    cbn; [..|left; set_solver];
    destruct (DecodeString (meta_SHA256 m)) as [sha|e|p] eqn:Hd; cbn;
    try (by eapply Decode_no_panic); try (by right; eexists); rewrite hex_roundtrip.
  - split_and!; [done..|]. exists ArtifactFull. rewrite Hf. naive_solver.
  - split_and!; [done..|]. exists ArtifactIncremental. rewrite Hi. naive_solver.
Qed.

Lemma offer_no_panic r p : offer r <> PANIC p.
Proof.
  destruct r as [m []]; [|done]. pose proof (offer_Some m). intros E. by rewrite E in *.
Qed.

Lemma offer_not_live m table q :
  offer (m, true) = OK q -> (q_ObjectKey q =? LiveSnapshotObjectKey table)%string = false.
Proof.
  unfold offer. cbn [negb]. destruct (meta_Type m =? SnapshotTypeFull)%string;
    [|destruct (meta_Type m =? SnapshotTypeIncremental)%string; [|done]]; cbn;
    (destruct (if _ : bool then _ else _); cbn; [|done..]; by intros [= <-]).
Qed.

Lemma negotiate_fetches table force metas o query :
  query (FollowerIndex o) = offer (SelectRecoverableSnapshot metas o) ->
  fetches force o metas (negotiate table force query (FollowerIndex o)).
Proof.
  intros Hq. unfold negotiate. rewrite Hq. pose proof (select_best o metas) as Hb.
  destruct SelectRecoverableSnapshot as [m []]; [|cbn; split; [done|left]; tauto].
  destruct Hb as [Ht Hb]. pose proof (offer_Some m) as Ho.
  destruct (offer (m, true)) as [q|e|p] eqn:E; cbn; [|by exists m|done].
  destruct Ho as (Hn & Hbase & t & Hp & Hty).
  rewrite (offer_not_live m table q E), bool_decide_false by done. cbn.
  destruct Hty as [[-> Hty]|[-> Hty]]; rewrite Hty; cbn.
  - split; [done|]. right. exists m. split_and!; [done..|].
    destruct Hp as (Hp & _). cbn in Hp. by rewrite <- Hp.
  - assert (Hm : meta_Type m = SnapshotTypeIncremental) by (destruct Hp as (Hp & _); by cbn in Hp).
    replace (FollowerIndex o <? q_BaseIndex q) with false
      by (destruct Hb as (_ & (_ & ? & _) & _); lia).
    unfold fetches, needsFull. destruct force, (FollowerIndex o =? 0) eqn:Hz; cbn; (split; [done|]);
      [left; split; [done|]; right; right; exists m; split_and!; auto; right; lia..|].
    right. exists m. split_and!; [done..|]. intros _ [|]; [done|lia].
Qed.

(** C19: a follower that asks the leader, or the bucket, for a snapshot pins exactly the
    artefact that is best for it: one it can apply at its index and from whose tip the
    log goes on, complete since its base if it is incremental, with the highest base and
    then the highest tip.  It falls back to a live snapshot only if it need not recover,
    if no artefact applies, or if the best one is a delta where a replacement is needed;
    an error means that the metadata of the best artefact is malformed. *)
Theorem follower_fetches_best table force metas horizon followerIndex :
  fetches force (mkSelection followerIndex horizon false true) metas
    (negotiate table force (server_answer metas horizon) followerIndex) /\
  fetches force (mkSelection followerIndex (highestRecordedGCHorizon metas) true false) metas
    (negotiate table force (bucket_Query metas) followerIndex).
Proof.
  split.
  - by apply (negotiate_fetches table force metas (mkSelection followerIndex horizon false true)).
  - by apply (negotiate_fetches table force metas
      (mkSelection followerIndex (highestRecordedGCHorizon metas) true false)).
Qed.
