(* ===== verification/SnapshotCollect.v ===== *)
(** * Collection of snapshots in shared storage

    [gcTable] of [SnapshotStore.v] over any bucket that keeps its documentation: what it
    removes, what it never touches, and that a follower which could recover from the
    newest full snapshot or the chain on top of it still can afterwards. *)
From S2P Require Import Prelude Wire SnapshotStore SnapshotChoice.
From Stdlib Require Import Strings.Byte Strings.Ascii.
Open Scope Z_scope.

(** What the code relies on in [objfs]: an operation on an object leaves the others
    alone, and one that succeeds, or fails because there is no such object, has its
    effect. *)
Class BucketSpec (W : Type) `{Bucket W} : Type := {
  objects : W -> gmap string bytes;
  Upload_spec : forall k v w,
    wp no_panic (bkt_Upload k v) (fun _ w' => objects w' = <[k := v]> (objects w))
      (fun _ w' => delete k (objects w') = delete k (objects w)) w;
  Delete_spec : forall k w,
    wp no_panic (bkt_Delete k) (fun _ w' => objects w' = delete k (objects w))
      (fun e w' => delete k (objects w') = delete k (objects w) /\
        (e = ErrNotExist -> objects w' = delete k (objects w))) w
}.

(** [sort.Slice] sorts. *)
Class SortSliceSpec `{SortSlice} : Prop := {
  sortByTip_perm : forall l, sortByTip l ≡ₚ l;
  sortByTip_sorted : forall l,
    StronglySorted (fun a b => meta_TipIndex (a_meta b) <= meta_TipIndex (a_meta a)) (sortByTip l)
}.

(** ** The query of a follower *)

Section query.
Context `{BucketSpec W}.

(** The handler answers with its selection, whatever becomes of the lease, and changes
    nothing in the bucket but the lease of the requester. *)
Lemma server_Query_answers metas horizon requesterID now followerIndex w :
  wp no_panic (server_Query metas horizon requesterID now followerIndex)
    (fun q w' => server_answer metas horizon followerIndex = OK q /\
       forall k, (forall table, k <> LeaseKey table (leaseNodeID requesterID)) ->
         objects w' !! k = objects w !! k)
    (fun e w' => server_answer metas horizon followerIndex = ERR e /\ w' = w) w.
Proof.
  unfold server_Query, server_answer.
  pose proof (offer_no_panic (SelectRecoverableSnapshot metas (mkSelection followerIndex horizon false true))) as Hp.
  destruct SelectRecoverableSnapshot as [m ok]. apply wp_bind, wp_readr.
  destruct (offer (m, ok)) as [q|e|p]; [|done|by destruct (Hp p)].
  apply wp_bind. destruct ok; [|by apply wp_ret, wp_ret].
  apply wp_bind, wp_try, wp_bind, wp_try. eapply wp_mono; [apply Upload_spec| |].
  - intros [] w' Hw. apply wp_ret, wp_ret, wp_ret. split; [done|].
    intros k Hk. cbn in Hw. rewrite Hw, lookup_insert_ne; [done|by symmetry].
  - intros e w' Hw. apply wp_ret, wp_ret. split; [done|]. intros k Hk. cbn in Hw.
    rewrite <- (lookup_delete_ne (objects w) _ k (not_eq_sym (Hk (meta_Table m)))), <- Hw.
    by rewrite lookup_delete_ne by (symmetry; auto).
Qed.

End query.

(** ** The collection *)

Section collect.
Context `{BucketSpec W} `{SortSliceSpec}.
Context (deletedAt logTime : tableArtefact -> string) (json_Marshal : tombstone -> result bytes).
Hypothesis json_no_panic : forall t p, json_Marshal t <> PANIC p.

Abbreviation gcTable := (gcTable deletedAt logTime json_Marshal).
Abbreviation gcArtefacts := (gcArtefacts deletedAt logTime json_Marshal).
Abbreviation deleteArtefact := (deleteArtefact deletedAt logTime json_Marshal).

(** [ks] and the audit log apart, the objects are the same. *)
Definition untouched (ks : list string) (w w' : W) : Prop :=
  forall k, k ∉ ks -> (forall t, k <> GCLogKey t) -> objects w' !! k = objects w !! k.

Definition keysOf (l : list tableArtefact) : list string :=
  l ≫= (fun a => [a_snapKey a; a_metaKey a]).

Definition absent (a : tableArtefact) (w : W) : Prop :=
  objects w !! a_snapKey a = None /\ objects w !! a_metaKey a = None.

(** Keys of artefacts are those of a listing of [snapshots/]: none is in the audit log. *)
Definition outsideLog (a : tableArtefact) : Prop :=
  forall t, a_snapKey a <> GCLogKey t /\ a_metaKey a <> GCLogKey t.

Lemma delete_eq_lookup (k k' : string) (m m' : gmap string bytes) :
  delete k m' = delete k m -> k' <> k -> m' !! k' = m !! k'.
Proof. intros E Hk. rewrite <- (lookup_delete_ne m k k'), <- E, lookup_delete_ne; done. Qed.

(** States of the bucket in which no deletion fails for another reason than that there
    is no such object, however the collection goes on. *)
Record neverFails (P : W -> Prop) : Prop := {
  nf_delete k w : P w ->
    wp no_panic (bkt_Delete k) (fun _ w' => P w') (fun e w' => e = ErrNotExist /\ P w') w;
  nf_upload k v w : P w -> wp no_panic (bkt_Upload k v) (fun _ w' => P w') (fun _ w' => P w') w
}.

Definition reliable (w : W) : Prop := exists P, neverFails P /\ P w.

Lemma reliable_neverFails : neverFails reliable.
Proof.
  split.
  - intros k w (P & Hn & Hw). eapply wp_mono; [by apply (nf_delete P Hn k w)| |].
    + intros [] w' Hp. by exists P.
    + intros e w' [He Hp]. split; [done|]. by exists P.
  - intros k v w (P & Hn & Hw). eapply wp_mono; [by apply (nf_upload P Hn k v w)|..];
      intros ? w' Hp; by exists P.
Qed.

Lemma deleteObject_spec k w :
  wp no_panic (deleteObject k)
    (fun _ w' => objects w' = delete k (objects w) /\ (reliable w -> reliable w'))
    (fun _ w' => delete k (objects w') = delete k (objects w) /\ ~ reliable w) w.
Proof.
  pose proof (Delete_spec k w) as Hs. pose proof (nf_delete _ reliable_neverFails k w) as Hn.
  apply wp_bind, wp_try. unfold wp in Hs, Hn |- *. destruct (bkt_Delete k w) as [[] w'|e w'|]; [done| |done].
  destruct Hs as [Hd Hs]. case_bool_decide as He; cbn; [naive_solver|]. split; [done|]. naive_solver.
Qed.

Lemma writeLog t b w :
  wp no_panic (try_ (bkt_Upload (GCLogKey t) b))
    (fun _ w' => untouched [] w w' /\ (reliable w -> reliable w')) (fun _ _ => False) w.
Proof.
  pose proof (Upload_spec (GCLogKey t) b w) as Hs.
  pose proof (nf_upload _ reliable_neverFails (GCLogKey t) b w) as Hn.
  apply wp_try. unfold wp in Hs, Hn |- *.
  destruct (bkt_Upload (GCLogKey t) b w) as [[] w'|e w'|]; [..|done]; split; [|done| |done]; intros k _ Hk.
  - by rewrite Hs, lookup_insert_ne by (symmetry; auto).
  - exact (delete_eq_lookup _ k _ _ Hs (Hk t)).
Qed.

(** The artefact is gone on success; whatever happens, only its keys and the log change. *)
Lemma deleteArtefact_spec a w :
  wp no_panic (deleteArtefact a)
    (fun _ w' => untouched (keysOf [a]) w w' /\ absent a w' /\ (reliable w -> reliable w'))
    (fun _ w' => untouched (keysOf [a]) w w' /\ ~ reliable w) w.
Proof.
  unfold SnapshotStore.deleteArtefact. apply wp_bind.
  assert (Hlog : forall b, wp no_panic
    (_ ← try_ (bkt_Upload (GCLogKey (logTime a)) b); deleteObject (a_snapKey a) ;; deleteObject (a_metaKey a))
    (fun _ w' => untouched (keysOf [a]) w w' /\ absent a w' /\ (reliable w -> reliable w'))
    (fun _ w' => untouched (keysOf [a]) w w' /\ ~ reliable w) w).
  { intros b. apply wp_bind. eapply wp_mono; [apply writeLog| |done]. intros _u w1 [Hw1 Hr1]. cbn in Hw1.
    apply wp_bind. eapply wp_mono; [apply deleteObject_spec| |].
    - intros [] w2 [Hw2 Hr2]. cbn in Hw2. eapply wp_mono; [apply deleteObject_spec| |].
      + intros [] w3 [Hw3 Hr3]. cbn in Hw3. unfold absent. rewrite Hw3, Hw2. split; [|split; [|by auto]].
        * intros k Hk Hl. cbn in Hk. rewrite Hw3, Hw2, !lookup_delete_ne by set_solver.
          apply Hw1; [set_solver|done].
        * destruct (decide (a_metaKey a = a_snapKey a)) as [->|];
            rewrite ?lookup_delete_eq, ?lookup_delete_ne, ?lookup_delete_eq by done; done.
      + intros e w3 [Hw3 Hn]. split; [|by auto]. intros k Hk Hl. cbn in Hk.
        rewrite (delete_eq_lookup _ k _ _ Hw3), Hw2, lookup_delete_ne by set_solver.
        apply Hw1; [set_solver|done].
    - intros e w2 [Hw2 Hn]. split; [|by auto]. intros k Hk Hl. cbn in Hk. rewrite (delete_eq_lookup _ k _ _ Hw2) by set_solver.
      apply Hw1; [set_solver|done]. }
  destruct json_Marshal as [b|e|p] eqn:Hj; [..|by apply json_no_panic in Hj];
    apply wp_ret, Hlog.
Qed.

Lemma untouched_trans ks ks' w w1 w2 :
  untouched ks w w1 -> untouched ks' w1 w2 -> untouched (ks ++ ks') w w2.
Proof. intros Hw1 Hw2 k Hk Hl. rewrite Hw2, Hw1; set_solver. Qed.

Lemma untouched_sub ks ks' w w' : ks ⊆ ks' -> untouched ks w w' -> untouched ks' w w'.
Proof. intros Hs Hu k Hk. apply Hu. set_solver. Qed.

(** What a loop leaves: the artefacts [due] are gone, and counted, unless a deletion
    failed. *)
Definition swept (due : list tableArtefact) (n : Z) (w w' : W) : Prop :=
  untouched (keysOf due) w w' /\
  exists gone failed, gone ++ failed ≡ₚ due /\ n = len gone /\
    Forall (fun a => absent a w') gone /\ (reliable w -> failed = [] /\ reliable w').

(** The keys of a listing are distinct and outside of the audit log. *)
Definition listed (l : list tableArtefact) : Prop :=
  NoDup (keysOf l) /\ Forall outsideLog l.

Lemma keysOf_app l l' : keysOf (l ++ l') = keysOf l ++ keysOf l'.
Proof. apply bind_app. Qed.

Lemma keysOf_elem k l : k ∈ keysOf l <-> exists a, a ∈ l /\ (k = a_snapKey a \/ k = a_metaKey a).
Proof. unfold keysOf. rewrite list_elem_of_bind. set_solver. Qed.

Lemma absent_untouched a l w w' :
  listed (a :: l) -> untouched (keysOf l) w w' -> absent a w -> absent a w'.
Proof.
  intros [Hd Ho] Hu [Hs Hm]. apply Forall_cons in Ho as [Ho _]. cbn in Hd.
  apply NoDup_cons in Hd as [Hs' Hd]. apply NoDup_cons in Hd as [Hm' _].
  split; (rewrite Hu; [done|set_solver|intros t; apply Ho]).
Qed.

Lemma listed_sublist l l' : sublist l l' -> listed l' -> listed l.
Proof.
  intros Hs [Hd Ho]. split.
  - eapply sublist_NoDup; [exact Hd|]. clear Hd Ho. unfold keysOf.
    induction Hs; cbn; [done|by do 2 constructor|by do 2 apply sublist_cons].
  - rewrite Forall_forall in Ho |- *. intros a Ha. apply Ho.
    eapply elem_of_submseteq; [exact Ha|by apply sublist_submseteq].
Qed.

Lemma swept_nil w : swept [] 0 w w.
Proof. split; [by intros k|]. by exists [], []. Qed.

(** One more artefact, deleted before the rest. *)
Lemma swept_cons a l n w w1 w2 (ok : bool) :
  listed (a :: l) -> untouched (keysOf [a]) w w1 ->
  (if ok then absent a w1 /\ (reliable w -> reliable w1) else ~ reliable w) ->
  swept l n w1 w2 -> swept (a :: l) (n + (if ok then 1 else 0)) w w2.
Proof.
  intros Hl Hw1 Hok (Hw2 & gone & failed & Hp & -> & Hg & Hf). split.
  { change (a :: l) with ([a] ++ l). rewrite keysOf_app. by eapply untouched_trans. }
  destruct ok.
  - destruct Hok as [Hok Hr]. exists (a :: gone), failed.
    split_and!; [by rewrite <- Hp| |constructor; [|done]|by auto].
    + unfold len. cbn. lia.
    + by eapply absent_untouched.
  - exists gone, (a :: failed). split_and!; [by rewrite <- Hp, Permutation_middle|lia|done|done].
Qed.

Lemma gcArtefacts_spec keep l n w :
  listed l ->
  wp no_panic (gcArtefacts keep l n)
    (fun n' w' => swept (filter (fun a => keep a = false) l) (n' - n) w w') (fun _ _ => False) w.
Proof.
  revert n w. induction l as [|a l IH]; intros n w Hl; cbn [SnapshotStore.gcArtefacts].
  - apply wp_ret. rewrite Z.sub_diag. apply swept_nil.
  - assert (Hl' : listed l) by (eapply listed_sublist, Hl; by constructor).
    rewrite filter_cons. destruct (keep a); cbn [decide]; [by apply IH|].
    assert (Hd : listed (a :: filter (fun a => keep a = false) l)).
    { eapply listed_sublist, Hl. constructor. apply sublist_filter. }
    apply wp_bind, wp_try. eapply wp_mono; [apply deleteArtefact_spec|..].
    + intros [] w1 (Hu & Ha & Hr). eapply wp_mono; [by apply IH| |done]. intros n' w2 Hs.
      replace (n' - n) with (n' - (n + 1) + 1) by lia. by apply (swept_cons a _ _ w w1 w2 true).
    + intros e w1 [Hu Hn]. eapply wp_mono; [by apply IH| |done]. intros n' w2 Hs.
      replace (n' - n) with (n' - n + 0) by lia. by apply (swept_cons a _ _ w w1 w2 false).
Qed.

Lemma swept_app l l' n n' w w1 w2 :
  listed (l ++ l') -> swept l n w w1 -> swept l' n' w1 w2 -> swept (l ++ l') (n + n') w w2.
Proof.
  intros Hl (Hw1 & g & f & Hp & -> & Hg & Hf) (Hw2 & g' & f' & Hp' & -> & Hg' & Hf'). split.
  { rewrite keysOf_app. by eapply untouched_trans. }
  exists (g ++ g'), (f ++ f'). split_and!.
  - rewrite <- Hp, <- Hp'. solve_Permutation.
  - unfold len. rewrite length_app. lia.
  - apply Forall_app. split; [|done]. rewrite Forall_forall in Hg |- *. intros a Ha.
    eapply absent_untouched; [|exact Hw2|by apply Hg]. destruct Hl as [Hd Ho].
    assert (Hal : a ∈ l) by (rewrite <- Hp; set_solver).
    apply list_elem_of_split in Hal as (l1 & l2 & ->).
    eapply listed_sublist; [|by split]. rewrite <- app_assoc. cbn.
    apply sublist_inserts_l. constructor. by apply sublist_inserts_l.
  - intros Hn. destruct (Hf Hn) as [-> Hn1]. by destruct (Hf' Hn1) as [-> ?].
Qed.

(** ** What is due *)

Lemma keysOf_submseteq l l' : l ⊆+ l' -> keysOf l ⊆+ keysOf l'.
Proof.
  induction 1 as [|a l l' _ IH|a b l|a l l' _ IH|l l' l'' _ IH1 _ IH2]; cbn.
  - done.
  - by do 2 apply submseteq_skip.
  - by rewrite (Permutation_app_swap_app [a_snapKey b; a_metaKey b] [a_snapKey a; a_metaKey a] (keysOf l)).
  - by do 2 apply submseteq_cons.
  - by transitivity (keysOf l').
Qed.

Lemma listed_submseteq l l' : l ⊆+ l' -> listed l' -> listed l.
Proof.
  intros Hs [Hd Ho]. split.
  - apply keysOf_submseteq, submseteq_sublist_r in Hs as (k & Hp & Hk).
    rewrite Hp. by eapply sublist_NoDup.
  - rewrite Forall_forall in Ho |- *. intros a Ha. apply Ho. by eapply elem_of_submseteq.
Qed.

Lemma keysOf_inj l a b k :
  NoDup (keysOf l) -> a ∈ l -> b ∈ l -> k ∈ keysOf [a] -> k ∈ keysOf [b] -> a = b.
Proof.
  induction l as [|c l IH]; [by intros _ []%elem_of_nil|]. cbn [keysOf mbind list_bind].
  intros Hd [->|Ha]%elem_of_cons [->|Hb]%elem_of_cons Hka Hkb; [done|..].
  1, 2: exfalso; apply NoDup_app in Hd as (_ & Hd & _); eapply (Hd k); [set_solver|];
    apply keysOf_elem; set_solver.
  apply NoDup_app in Hd as (_ & _ & Hd). by apply IH.
Qed.

Lemma ofType_elem t l a : a ∈ ofType t l <-> meta_Type (a_meta a) = t /\ a ∈ l.
Proof. unfold ofType. by rewrite list_elem_of_filter. Qed.

Lemma ofType_split l :
  ofType SnapshotTypeFull l ++ ofType SnapshotTypeIncremental l ⊆+ l.
Proof.
  unfold ofType. induction l as [|a l IH]; [done|]. rewrite !filter_cons.
  case_decide as Hf; [rewrite decide_False by (by rewrite Hf)|case_decide].
  - cbn. by apply submseteq_skip.
  - rewrite <- Permutation_middle. by apply submseteq_skip.
  - by apply submseteq_cons.
Qed.

Abbreviation tip a := (meta_TipIndex (a_meta a)).
Abbreviation base a := (meta_BaseIndex (a_meta a)).
Abbreviation isFull a := (meta_Type (a_meta a) = SnapshotTypeFull).
Abbreviation isDelta a := (meta_Type (a_meta a) = SnapshotTypeIncremental).

Definition young (cutoff : Z) (a : tableArtefact) : bool := cutoff <? meta_CreatedAt (a_meta a).

Definition newestTip (artefacts : list tableArtefact) : Z :=
  match sortByTip (ofType SnapshotTypeFull artefacts) with a :: _ => tip a | [] => 0 end.

(** The artefacts the two loops try to delete. *)
Definition due (cutoff : Z) (artefacts : list tableArtefact) : list tableArtefact :=
  filter (fun a => young cutoff a = false) (tail (sortByTip (ofType SnapshotTypeFull artefacts))) ++
  filter (fun a => (newestTip artefacts <=? base a) || young cutoff a = false)
    (ofType SnapshotTypeIncremental artefacts).

Lemma tail_sublist {A} (l : list A) : sublist (tail l) l.
Proof. destruct l; [done|]. by apply sublist_cons. Qed.

Lemma due_submseteq cutoff artefacts : due cutoff artefacts ⊆+ artefacts.
Proof.
  etrans; [|apply ofType_split]. apply submseteq_app.
  - rewrite <- (sortByTip_perm (ofType SnapshotTypeFull artefacts)) at 2.
    apply sublist_submseteq. by rewrite sublist_filter, tail_sublist.
  - apply sublist_submseteq, sublist_filter.
Qed.

Definition leasedTable (leased : gset string) (table : string) : Prop :=
  ("snapshots/" +:+ table) ∈ leased.

#[local] Instance leasedTable_dec leased table : Decision (leasedTable leased table).
Proof. unfold leasedTable. apply _. Defined.

Lemma gcTable_due table artefacts leased cutoff w :
  listed artefacts -> Forall (fun a => meta_Table (a_meta a) = table) artefacts ->
  wp no_panic (gcTable artefacts leased cutoff)
    (fun n w' => swept (if decide (leasedTable leased table) then [] else due cutoff artefacts) n w w')
    (fun _ _ => False) w.
Proof.
  intros Hl Ht. destruct artefacts as [|a0 l] eqn:Ha.
  { apply wp_ret. replace (due cutoff []) with (@nil tableArtefact);
      [destruct decide; apply swept_nil|].
    pose proof (submseteq_length _ _ (due_submseteq cutoff [])). destruct (due cutoff []); [done|cbn in *; lia]. }
  rewrite <- Ha in *. assert (Hg : leasedTable leased (meta_Table (a_meta a0)) <-> leasedTable leased table).
  { rewrite Ha in Ht. apply Forall_cons in Ht as [-> _]. done. }
  unfold SnapshotStore.gcTable. rewrite Ha at 1. unfold leasedTable in *.
  case_bool_decide as Hb; [rewrite decide_True by tauto; apply wp_ret, swept_nil|].
  rewrite decide_False by tauto.
  pose proof (listed_submseteq _ _ (due_submseteq cutoff artefacts) Hl) as Hd.
  assert (Hf : listed (tail (sortByTip (ofType SnapshotTypeFull artefacts)))).
  { eapply listed_submseteq, Hl. etrans; [apply sublist_submseteq, tail_sublist|].
    rewrite sortByTip_perm. apply sublist_submseteq, sublist_filter. }
  assert (Hi : listed (ofType SnapshotTypeIncremental artefacts)).
  { eapply listed_sublist, Hl. apply sublist_filter. }
  apply wp_bind. eapply wp_mono; [by apply gcArtefacts_spec| |done].
  intros n1 w1 Hs1. eapply wp_mono; [by apply gcArtefacts_spec| |done].
  intros n2 w2 Hs2. replace n2 with ((n1 - 0) + (n2 - n1)) by lia.
  eapply swept_app; [exact Hd|exact Hs1|exact Hs2].
Qed.

(** ** What is kept *)

(** The newest full snapshot, the incremental ones on top of it, and what is young. *)
Definition keeps (artefacts : list tableArtefact) (leased : gset string) (cutoff : Z)
    (a : tableArtefact) : Prop :=
  leasedTable leased (meta_Table (a_meta a)) \/ cutoff < meta_CreatedAt (a_meta a) \/
  (isFull a /\ forall b, b ∈ artefacts -> isFull b -> b <> a -> tip b < tip a) \/
  (isDelta a /\ 0 <= base a /\ forall b, b ∈ artefacts -> isFull b -> tip b <= base a).

Definition expired (artefacts : list tableArtefact) (leased : gset string) (cutoff : Z)
    (a : tableArtefact) : Prop :=
  ~ leasedTable leased (meta_Table (a_meta a)) /\ meta_CreatedAt (a_meta a) <= cutoff /\
  exists b, b ∈ artefacts /\ isFull b /\
    ((isFull a /\ tip a < tip b) \/ (isDelta a /\ base a < tip b)).

Lemma newest_full artefacts :
  match sortByTip (ofType SnapshotTypeFull artefacts) with
  | [] => forall b, b ∈ artefacts -> ~ isFull b
  | c :: l => c ∈ artefacts /\ isFull c /\
      (forall b, b ∈ artefacts -> isFull b -> b = c \/ b ∈ l) /\
      (forall b, b ∈ l -> b ∈ artefacts /\ isFull b /\ tip b <= tip c)
  end.
Proof.
  assert (He : forall b, b ∈ sortByTip (ofType SnapshotTypeFull artefacts) <-> isFull b /\ b ∈ artefacts).
  { intros b. by rewrite sortByTip_perm, ofType_elem. }
  pose proof (sortByTip_sorted (ofType SnapshotTypeFull artefacts)) as Hs.
  destruct sortByTip as [|c l].
  - intros b Hb Hf. assert (Hx : b ∈ @nil tableArtefact) by (by apply He). by apply elem_of_nil in Hx.
  - apply StronglySorted_inv in Hs as [_ Hs]. rewrite Forall_forall in Hs. set_solver.
Qed.

Lemma listed_NoDup l : listed l -> NoDup l.
Proof.
  intros [Hd _]. induction l as [|a l IH]; [constructor|].
  cbn [keysOf mbind list_bind] in Hd. apply NoDup_app in Hd as (_ & Hx & Hd).
  constructor; [|by apply IH]. intros Ha. apply (Hx (a_snapKey a)); [set_solver|].
  apply keysOf_elem. set_solver.
Qed.

Lemma keeps_not_due artefacts leased cutoff a :
  listed artefacts -> ~ leasedTable leased (meta_Table (a_meta a)) ->
  keeps artefacts leased cutoff a -> a ∉ due cutoff artefacts.
Proof.
  intros Hl Hn Hk Hd. pose proof (newest_full artefacts) as Hf.
  unfold due, newestTip, young in Hd. apply elem_of_app in Hd.
  pose proof (listed_NoDup _ (listed_submseteq _ _ (sublist_submseteq _ _ (sublist_filter _ _)) Hl :
    listed (ofType SnapshotTypeFull artefacts))) as Hdup.
  rewrite <- sortByTip_perm in Hdup.
  destruct (sortByTip (ofType SnapshotTypeFull artefacts)) as [|c l] eqn:E;
    destruct Hd as [[Hy Ha]%list_elem_of_filter|[Hy [Ht Ha]%ofType_elem]%list_elem_of_filter].
  - by apply elem_of_nil in Ha.
  - destruct Hk as [?|[?|[[Hf' _]|(_ & ? & _)]]]; [done|lia| |lia]. by rewrite Hf' in Ht.
  - apply NoDup_cons in Hdup as [Hc _]. destruct Hf as (Hc1 & Hc2 & _ & Hf).
    destruct (Hf a Ha) as (? & Hfa & Hle).
    destruct Hk as [?|[?|[[_ Hm]|(Hi & _)]]]; [done|lia| |by rewrite Hi in Hfa].
    assert (c <> a) by (intros ->; done). specialize (Hm c). naive_solver lia.
  - destruct Hf as (Hc1 & Hc2 & _). destruct Hk as [?|[?|[[Hf' _]|(_ & _ & Hm)]]];
      [done|lia|by rewrite Hf' in Ht|]. specialize (Hm c Hc1 Hc2). lia.
Qed.

Lemma expired_due artefacts leased cutoff a :
  a ∈ artefacts -> expired artefacts leased cutoff a -> a ∈ due cutoff artefacts.
Proof.
  intros Ha (Hn & Hc & b & Hb & Hfb & Hab). pose proof (newest_full artefacts) as Hf.
  unfold due, newestTip, young. apply elem_of_app.
  destruct (sortByTip (ofType SnapshotTypeFull artefacts)) as [|c l]; [by apply Hf in Hb|].
  destruct Hf as (_ & _ & Hin & Hle).
  assert (tip b <= tip c) by (destruct (Hin b Hb Hfb) as [->|Hl]; [lia|by apply Hle]).
  destruct Hab as [[Hfa Hlt]|[Hia Hlt]]; [left|right]; apply list_elem_of_filter; (split; [lia|]).
  - destruct (Hin a Ha Hfa) as [->|]; [lia|done].
  - by apply ofType_elem.
Qed.

Lemma keeps_present artefacts leased cutoff a n w w' :
  listed artefacts -> a ∈ artefacts -> keeps artefacts leased cutoff a ->
  swept (if decide (leasedTable leased (meta_Table (a_meta a))) then [] else due cutoff artefacts) n w w' ->
  objects w' !! a_snapKey a = objects w !! a_snapKey a /\
  objects w' !! a_metaKey a = objects w !! a_metaKey a.
Proof.
  intros Hl Ha Hk [Hu _]. destruct (Hl) as [Hd Ho]. rewrite Forall_forall in Ho.
  assert (Hout : forall k, k ∈ keysOf [a] -> k ∉ keysOf
    (if decide (leasedTable leased (meta_Table (a_meta a))) then [] else due cutoff artefacts)).
  { intros k Hka Hkd. case_decide as Hn; [by apply elem_of_nil in Hkd|].
    apply keysOf_elem in Hkd as (b & Hb & Hkb).
    assert (a = b) as ->.
    { eapply (keysOf_inj artefacts); [done..| |exact Hka|apply keysOf_elem; set_solver].
      eapply elem_of_submseteq; [exact Hb|apply due_submseteq]. }
    by eapply keeps_not_due. }
  split; (apply Hu; [apply Hout; cbn; set_solver|intros t; by apply Ho]).
Qed.

Lemma swept_gone a l n w w' : reliable w -> a ∈ l -> swept l n w w' -> absent a w'.
Proof.
  intros Hn Ha (_ & gone & failed & Hp & _ & Hg & Hf). destruct (Hf Hn) as [-> _]. rewrite app_nil_r in Hp.
  rewrite <- Hp in Ha. rewrite Forall_forall in Hg. by apply Hg.
Qed.

(** What [ListMeta] and [collectArtefacts] find of the artefacts. *)
Definition remaining (artefacts : list tableArtefact) (w : W) : list tableArtefact :=
  filter (fun a => is_Some (objects w !! a_metaKey a)) artefacts.

(** C20: the collection of the snapshots of a table ends without an error and touches
    only objects of the table's artefacts and the audit log.  It leaves a leased table
    alone, and otherwise keeps the newest full snapshot, the incremental snapshots whose
    base is at or after its tip, and everything younger than the cutoff, so a follower
    that could recover from one of these is still offered an artefact at least as good.
    In a bucket in which no deletion fails, every older artefact is gone, both objects
    of it. *)
Theorem gcTable_keeps table artefacts leased cutoff w :
  listed artefacts -> Forall (fun a => meta_Table (a_meta a) = table) artefacts ->
  Forall (fun a => is_Some (objects w !! a_metaKey a)) artefacts ->
  wp no_panic (gcTable artefacts leased cutoff) (fun _ w' =>
    untouched (keysOf artefacts) w w' /\
    (forall a, a ∈ artefacts -> keeps artefacts leased cutoff a ->
       objects w' !! a_snapKey a = objects w !! a_snapKey a /\
       objects w' !! a_metaKey a = objects w !! a_metaKey a /\
       forall o, ~ canTail o -> recoverable o (a_meta a) -> exists m,
         SelectRecoverableSnapshot (a_meta <$> remaining artefacts w') o = (m, true) /\
         ranked (a_meta a) m) /\
    (reliable w -> forall a, a ∈ artefacts -> expired artefacts leased cutoff a -> absent a w'))
    (fun _ _ => False) w.
Proof.
  intros Hl Ht Hp. rewrite Forall_forall in Ht, Hp.
  eapply wp_mono; [by apply (gcTable_due table); [|apply Forall_forall]| |done]. intros n w' Hs.
  split_and!.
  - destruct Hs as [Hu _]. eapply untouched_sub; [|exact Hu]. intros k Hk.
    apply keysOf_elem in Hk as (a & Ha & Hk). apply keysOf_elem. exists a. split; [|done].
    case_decide; [by apply elem_of_nil in Ha|]. by eapply elem_of_submseteq, due_submseteq.
  - intros a Ha Hk. pose proof Hs as Hs'. rewrite <- (Ht a Ha) in Hs'.
    destruct (keeps_present _ _ _ _ _ _ _ Hl Ha Hk Hs') as [-> Hm]. split_and!; [done..|].
    intros o Hnt Hr. pose proof (select_best o (a_meta <$> remaining artefacts w')) as Hb.
    assert (Hin : a_meta a ∈ a_meta <$> remaining artefacts w').
    { apply list_elem_of_fmap_2, list_elem_of_filter. rewrite Hm. auto. }
    destruct SelectRecoverableSnapshot as [m []]; [|naive_solver].
    exists m. split; [done|]. by apply Hb.
  - intros Hn a Ha Hx. eapply swept_gone; [done| |exact Hs].
    rewrite decide_False by (rewrite <- (Ht a Ha); apply Hx). by eapply expired_due.
Qed.

End collect.

(** ** A bucket in memory *)

(** [failing]: the keys whose deletion fails. *)
Definition memBucket : Type := gmap string bytes * list string.

#[export] Instance memBucket_ops : Bucket memBucket := {|
  bkt_Upload k v := modify (fun w => (<[k := v]> w.1, w.2));
  bkt_Delete k := fun w =>
    if decide (k ∈ w.2) then Err (ErrMsg "unavailable") w
    else match w.1 !! k with
         | Some _ => Ret tt (delete k w.1, w.2)
         | None => Err ErrNotExist w
         end
|}.

Lemma memBucket_Delete k (w : memBucket) :
  wp no_panic (bkt_Delete k) (fun _ w' => w'.1 = delete k w.1)
    (fun e w' => delete k w'.1 = delete k w.1 /\ (e = ErrNotExist -> w'.1 = delete k w.1)) w.
Proof.
  unfold wp. cbn. destruct decide; [done|].
  destruct (w.1 !! k) eqn:E; cbn; [done|]. by rewrite delete_id by done.
Qed.

#[export] Instance memBucket_spec : BucketSpec memBucket := {|
  objects := fst;
  Upload_spec k v w := eq_refl;
  Delete_spec := memBucket_Delete
|}.

Definition byTip (a b : tableArtefact) : Prop := meta_TipIndex (a_meta b) <= meta_TipIndex (a_meta a).

#[export] Instance byTip_dec : RelDecision byTip.
Proof. intros a b. unfold byTip. apply _. Defined.

#[export] Instance byTip_total : Total byTip.
Proof. intros a b. unfold byTip. lia. Qed.

#[export] Instance byTip_trans : Transitive byTip.
Proof. intros a b c. unfold byTip. lia. Qed.

#[export] Instance mergeSlice : SortSlice := {| sortByTip := merge_sort byTip |}.

#[export] Instance mergeSlice_spec : SortSliceSpec.
Proof.
  split; intros l; cbn.
  - apply merge_sort_Permutation.
  - apply (StronglySorted_merge_sort byTip).
Qed.

(** Full snapshots at 10 and 20, and an incremental one from 10 to 20. *)
Definition sampleMeta (t : string) (base tip : Z) : Meta :=
  mkMeta "t" t base tip 1 "" tip "n" "armada-command-v1" 0.

Definition published (m : Meta) : tableArtefact :=
  let key := if (meta_Type m =? SnapshotTypeFull)%string then FullSnapKey (meta_Table m) (meta_TipIndex m)
             else IncrSnapKey (meta_Table m) (meta_BaseIndex m) (meta_TipIndex m) in
  mkArtefact m key (key +:+ ".meta").

Definition sampleArtefacts : list tableArtefact :=
  published <$> [sampleMeta "full" 0 10; sampleMeta "incr" 10 20; sampleMeta "full" 0 20].

Definition sampleBucket (failing : list string) : memBucket :=
  (list_to_map ((fun k => (k, [])) <$> keysOf sampleArtefacts), failing).

Definition noJSON (t : tombstone) : result bytes := OK [].

Lemma noJSON_no_panic t p : noJSON t <> PANIC p.
Proof. done. Qed.

Lemma sample_listed : listed sampleArtefacts.
Proof.
  split; [by apply (bool_decide_unpack _); vm_compute|].
  repeat (apply Forall_cons; split; [by intros t; split; vm_compute|]). constructor.
Qed.

(** Without failing keys no deletion fails. *)
Lemma sample_reliable m : reliable ((m, []) : memBucket).
Proof.
  exists (fun w => w.2 = []). split; [|done]. split.
  - intros k [o f] Hf. cbn in Hf. subst f. unfold wp. cbn. by destruct (o !! k).
  - done.
Qed.

Lemma sample_expired : expired sampleArtefacts ∅ 100 (published (sampleMeta "full" 0 10)).
Proof.
  split_and!; [done|cbn; lia|]. exists (published (sampleMeta "full" 0 20)).
  split_and!; [set_solver|done|]. left. split; [done|]. cbn. lia.
Qed.

Lemma gcTable_keeps_witness :
  wp no_panic (gcTable (fun _ => "") (fun _ => "now") noJSON sampleArtefacts ∅ 100)
    (fun _ w' => exists m, SelectRecoverableSnapshot (a_meta <$> remaining sampleArtefacts w')
       (mkSelection 5 0 false true) = (m, true) /\
       absent (published (sampleMeta "full" 0 10)) w') (fun _ _ => False) (sampleBucket []).
Proof.
  eapply wp_mono; [apply (gcTable_keeps (fun _ => "") (fun _ => "now") noJSON noJSON_no_panic "t"
    sampleArtefacts ∅ 100 (sampleBucket []) sample_listed)| |done].
  - repeat (apply Forall_cons; split; [done|]). constructor.
  - repeat (apply Forall_cons; split; [by vm_compute; eexists|]). constructor.
  - intros n w' (_ & Hk & Hgone). specialize (Hgone (sample_reliable _) _ ltac:(left) sample_expired).
    destruct (Hk (published (sampleMeta "full" 0 20))) as (_ & _ & Hsel); [set_solver| |].
    + right; right; left. split; [done|]. intros b Hb. unfold sampleArtefacts in Hb.
      cbn [fmap list_fmap] in Hb. intros Hf Hne.
      repeat (apply elem_of_cons in Hb as [->|Hb]; [by try discriminate|]). by apply elem_of_nil in Hb.
    + destruct (Hsel (mkSelection 5 0 false true)) as (m & Hm & _); [unfold canTail; cbn; lia| |exists m; by split].
      split_and!; cbn; [lia..|done].
Defined.

(** A run on the sample: two artefacts are deleted. *)
Lemma gcTable_runs :
  match gcTable (fun _ => "") (fun _ => "now") noJSON sampleArtefacts ∅ 100 (sampleBucket []) with
  | Ret n w => n = 2 /\ (a_meta <$> remaining sampleArtefacts w) = [sampleMeta "full" 0 20]
  | _ => False
  end.
Proof. by vm_compute. Qed.

(** An artefact is deleted before its commit marker: if the deletion of the marker fails,
    a follower is still offered the snapshot, whose object is gone. *)
Lemma marker_without_snapshot :
  match gcTable (fun _ => "") (fun _ => "now") noJSON sampleArtefacts ∅ 100
          (sampleBucket [IncrMetaKey "t" 10 20]) with
  | Ret n w => n = 1 /\ (fst w) !! IncrSnapKey "t" 10 20 = None /\
      negotiate "t" false (server_answer (a_meta <$> remaining sampleArtefacts w) 0) 15 =
        OK (mkArtifact (IncrSnapKey "t" 10 20) ArtifactIncremental 10 20 "" 1 "" false, true)
  | _ => False
  end.
Proof. by vm_compute. Qed.
