(* ===== verification/MetaStore.v ===== *)
(** * The metadata store

    [storage/kv/map.go] and [raft.go]: the replicated store of versioned pairs that holds
    the tables, their leases and the sequence of shard ids, as a state machine ([LFSM])
    and as its clients see it ([RaftStore]); [storage/table/manager.go]: the operations
    of the table manager on it.  JSON is behind the class [MetaJSON], the raft node that
    runs the state machine behind [NodeHost]. *)
From S2P Require Import Prelude Wire Session RsmMembership Encoded TaskQueue Rsm.
From Stdlib Require Import Strings.Byte Strings.Ascii.
From stdpp Require Import pretty.
Open Scope Z_scope.

(** ** Pairs and the map *)

Definition ErrKeyNotExist : error := ErrMsg "key does not exist".
Definition ErrVersionMismatch : error := ErrMsg "version mismatch".

Record Pair : Type := mkPair { p_Key : string; p_Value : string; p_Ver : Z }.

Definition noPair : Pair := mkPair "" "" 0.

Abbreviation MapStore := (gmap string Pair).

Definition MapStore_Delete (key : string) (ver : Z) : M MapStore unit := modify (delete key).

Definition MapStore_Exists (key : string) (m : MapStore) : result bool :=
  OK (bool_decide (is_Some (m !! key))).

Definition MapStore_Get (key : string) (m : MapStore) : result Pair :=
  match m !! key with Some p => OK p | None => ERR ErrKeyNotExist end.

Definition MapStore_Set (key value : string) (ver : Z) : M MapStore Pair :=
  let p := mkPair key value ver in
  modify <[key := p]> ;; ret p.

(** ** The state machine *)

Definition ResultCodeFailure : Z := 0.
Definition ResultCodeSuccess : Z := 1.
Definition ResultCodeVersionMismatch : Z := 2.

Definition UpdateOpSet : string := "set".
Definition UpdateOpDelete : string := "delete".

Record KvUpdate : Type := mkUpdate { u_Op : string; u_KVPair : Pair }.

Record Table : Type := mkTable {
  t_Name : string;
  t_ClusterID : Z;
  t_RecoverID : Z;
  t_Recovered : bool
}.

(** [l_Until] in nanoseconds. *)
Record Lease : Type := mkLease { l_ID : Z; l_Until : Z }.

Class MetaJSON : Type := {
  marshalUpdate : KvUpdate -> result bytes;
  unmarshalUpdate : bytes -> result KvUpdate;
  marshalPair : Pair -> result bytes;
  (** decodes into the pair given *)
  unmarshalPair : bytes -> Pair -> result Pair;
  marshalTable : Table -> result string;
  marshalLease : Lease -> result string;
  unmarshalLease : string -> result Lease
}.

Inductive kvQuery : Type :=
| QueryExist (key : string)
| QueryKey (key : string).

Inductive kvAnswer : Type :=
| AnswerBool (b : bool)
| AnswerPair (p : Pair).

Section lfsm.
Context `{MetaJSON}.

(** [json.Marshal] with its error ignored. *)
Definition marshalled (p : Pair) : option bytes :=
  match marshalPair p with OK b => Some b | _ => None end.

(** The body of the loop: the result of an entry. *)
Definition updateEntry (ent : smEntry) : M MapStore Result :=
  update ← readr (fun _ => match unmarshalUpdate (sme_Cmd ent) with
                           | ERR _ => ERR (ErrMsg "invalid entry") | r => r end);
  let kv := u_KVPair update in
  v ← gets (MapStore_Get (p_Key kv));
  match v with
  | OK v =>
      if negb (p_Ver v =? p_Ver kv)
      then ret (Some (mkResult ResultCodeVersionMismatch (marshalled v)))
      else ret None
  | _ => ret None
  end ≫= (fun mismatch =>
  match mismatch with
  | Some r => ret r
  | None =>
      let kv := mkPair (p_Key kv) (p_Value kv) (sme_Index ent) in
      (if (u_Op update =? UpdateOpSet)%string
       then MapStore_Set (p_Key kv) (p_Value kv) (p_Ver kv) ;; skip
       else if (u_Op update =? UpdateOpDelete)%string
       then MapStore_Delete (p_Key kv) (p_Ver kv)
       else skip) ;;
      ret (mkResult ResultCodeSuccess (marshalled kv))
  end).

Fixpoint LFSM_Update (entries : list smEntry) : M MapStore (list smEntry) :=
  match entries with
  | [] => ret []
  | ent :: entries =>
      r ← updateEntry ent;
      entries ← LFSM_Update entries;
      ret (set_Result r ent :: entries)
  end.

Definition LFSM_Lookup (m : MapStore) (e : kvQuery) : result kvAnswer :=
  match e with
  | QueryExist key => b ← MapStore_Exists key m; OK (AnswerBool b)
  | QueryKey key => p ← MapStore_Get key m; OK (AnswerPair p)
  end.

End lfsm.

(** ** The clients *)

Class NodeHost (W : Type) : Type := {
  SyncPropose : bytes -> M W Result;
  StaleRead : kvQuery -> M W kvAnswer
}.

Section raftstore.
Context `{MetaJSON} `{NodeHost W}.

Definition RaftStore_Delete (key : string) (ver : Z) : M W unit :=
  b ← readr (fun _ => marshalUpdate (mkUpdate UpdateOpDelete (mkPair key "" ver)));
  res ← SyncPropose b;
  if Value res =? ResultCodeVersionMismatch then fail ErrVersionMismatch else skip.

(** A type assertion that does not hold panics. *)
Definition RaftStore_Exists (key : string) : M W bool :=
  ok ← StaleRead (QueryExist key);
  match ok with AnswerBool b => ret b | _ => panicf "interface conversion" end.

Definition RaftStore_Get (key : string) : M W Pair :=
  val ← StaleRead (QueryKey key);
  match val with AnswerPair p => ret p | _ => panicf "interface conversion" end.

Definition RaftStore_Set (key value : string) (ver : Z) : M W Pair :=
  let pair := mkPair key value ver in
  b ← readr (fun _ => marshalUpdate (mkUpdate UpdateOpSet pair));
  res ← SyncPropose b;
  pair ← readr (fun _ => unmarshalPair (default [] (Data res)) pair);
  if Value res =? ResultCodeVersionMismatch then fail ErrVersionMismatch else ret pair.

(** ** The table manager *)

Definition keyPrefix : string := "/tables/".
Definition sequenceKey : string := keyPrefix +:+ "sys/idseq".
Definition tableIDsRangeStart : Z := 10000.

Definition storedTableName (name : string) : string := keyPrefix +:+ name.

(** [strconv.FormatUint] and [strconv.ParseUint] in base 10. *)
Definition FormatUint (n : Z) : string := pretty (Z.to_N n).

Fixpoint parseDigits (n : Z) (s : string) : result Z :=
  match s with
  | EmptyString => OK n
  | String c s =>
      let d := Z.of_N (N_of_ascii c) - 48 in
      if (d <? 0) || (9 <? d) then ERR (ErrMsg "invalid syntax")
      else if W64 <=? n * 10 + d then ERR (ErrMsg "value out of range")
      else parseDigits (n * 10 + d) s
  end.

Definition ParseUint (s : string) : result Z :=
  match s with EmptyString => ERR (ErrMsg "invalid syntax") | _ => parseDigits 0 s end.

Definition ErrTableExists : error := ErrMsg "table already exists".
Definition ErrTableNotFound : error := ErrMsg "table not found".

Definition incAndGetIDSeq : M W Z :=
  r ← try_ (RaftStore_Get sequenceKey);
  seq ← (match r with
         | inl seq => ret seq
         | inr e => if bool_decide (e = ErrKeyNotExist)
                    then ret (mkPair sequenceKey (FormatUint tableIDsRangeStart) 0)
                    else fail e
         end);
  currSeq ← readr (fun _ => ParseUint (p_Value seq));
  let next := currSeq +ᵤ 1 in
  _ ← RaftStore_Set (p_Key seq) (FormatUint next) (p_Ver seq);
  ret next.

Definition setTableVersion (tbl : Table) (version : Z) : M W unit :=
  let storeName := storedTableName (t_Name tbl) in
  bts ← readr (fun _ => marshalTable tbl);
  _ ← RaftStore_Set storeName bts version;
  skip.

Definition createTable (name : string) : M W Table :=
  let storeName := storedTableName name in
  exists_ ← RaftStore_Exists storeName;
  if (exists_ : bool) then fail ErrTableExists
  else
    seq ← incAndGetIDSeq;
    let tab := mkTable name seq 0 false in
    r ← try_ (setTableVersion tab 0);
    match r with
    | inl _ => ret tab
    | inr e => if bool_decide (e = ErrVersionMismatch) then fail ErrTableExists else fail e
    end.

Definition DeleteTable (name : string) : M W unit :=
  let storeName := storedTableName name in
  r ← try_ (RaftStore_Get storeName);
  match r with
  | inr e => if bool_decide (e = ErrKeyNotExist) then fail ErrTableNotFound else fail e
  | inl tab => RaftStore_Delete storeName (p_Ver tab)
  end.

Definition leaseKey (name : string) : string := storedTableName name +:+ "/lease".

Definition ErrLeaseNotAcquired : error := ErrMsg "lease not acquired".

(** [now] and [now']: what the two calls of [time.Now] return. *)
Definition LeaseTable (nodeID now now' : Z) (name : string) (lease : Z) : M W unit :=
  let key := leaseKey name in
  r ← try_ (RaftStore_Get key);
  '(get_, unclaimed) ←
    (match r with
     | inl get_ => ret (get_, false)
     | inr e => if bool_decide (e = ErrKeyNotExist) then ret (noPair, true) else fail e
     end);
  l ← readr (fun _ => if (unclaimed : bool) then OK (mkLease 0 0) else unmarshalLease (p_Value get_));
  if unclaimed || (l_ID l =? nodeID) || (l_Until l <? now)
  then
    bts ← readr (fun _ => marshalLease (mkLease nodeID (now' + lease)));
    _ ← RaftStore_Set key bts (p_Ver get_);
    skip
  else fail ErrLeaseNotAcquired.

Definition ReturnTable (nodeID : Z) (name : string) : M W bool :=
  let key := leaseKey name in
  r ← try_ (RaftStore_Get key);
  match r with
  | inr e => if bool_decide (e = ErrKeyNotExist) then ret false else fail e
  | inl get_ =>
      l ← readr (fun _ => unmarshalLease (p_Value get_));
      if negb (l_ID l =? nodeID) then ret false
      else RaftStore_Delete key (p_Ver get_) ;; ret true
  end.

End raftstore.
