(* ===== verification/MetaStoreSpec.v ===== *)
(** * Versions, shard ids and leases

    What the metadata store guarantees to the nodes that share it, although they read
    stale states and their proposals interleave: a version stands for one value of a key,
    shard ids are handed out once, and a lease that is in force is not taken over. *)
From S2P Require Import Prelude Wire Session RsmMembership Encoded TaskQueue Rsm MetaStore.
From Stdlib Require Import Strings.Byte Strings.Ascii.
From stdpp Require Import pretty.
Open Scope Z_scope.

(** ** Decimal numbers *)

Lemma pretty_digit (n : N) : (n < 10)%N -> Z.of_N (N_of_ascii (pretty_N_char n)) - 48 = Z.of_N n.
Proof.
  intros Hn. destruct n as [|p]; [done|].
  do 4 (destruct p as [p|p|]; try done; try lia).
Qed.

Lemma parse_pretty (x : N) s : Z.of_N x < W64 -> parseDigits 0 (pretty_N_go x s) = parseDigits (Z.of_N x) s.
Proof.
  revert s. induction (N.lt_wf_0 x) as [x _ IH]. intros s Hx.
  destruct (decide (x = 0%N)) as [->|Hz]; [by rewrite pretty_N_go_0|].
  rewrite pretty_N_go_step by lia. pose proof (N.div_lt x 10 ltac:(lia) ltac:(lia)) as Hd.
  rewrite IH by lia. cbn [parseDigits]. rewrite pretty_digit by (apply N.mod_lt; lia).
  pose proof (N.div_mod x 10 ltac:(lia)). pose proof (N.mod_lt x 10 ltac:(lia)).
  replace (Z.of_N (x / 10) * 10 + Z.of_N (x mod 10)) with (Z.of_N x) by lia.
  assert (Hm : 0 <= Z.of_N (x mod 10) <= 9) 
    by (split; [apply N2Z.is_nonneg|]; set (d := (x mod 10)%N) in *; clearbody d; lia).
  revert Hm. generalize (Z.of_N (x mod 10)). intros d Hm.
  replace (_ || _) with false by lia. by replace (W64 <=? Z.of_N x) with false by lia.
Qed.

Lemma pretty_N_go_cons (x : N) s : s <> EmptyString -> pretty_N_go x s <> EmptyString.
Proof.
  revert s. induction (N.lt_wf_0 x) as [x _ IH]. intros s Hs.
  destruct (decide (x = 0%N)) as [->|Hz]; [by rewrite pretty_N_go_0|].
  rewrite pretty_N_go_step by lia. apply IH; [apply N.div_lt; lia|done].
Qed.

Lemma ParseUint_FormatUint n : is_u64 n -> ParseUint (FormatUint n) = OK n.
Proof.
  intros Hn. unfold is_u64 in Hn. unfold FormatUint, pretty, pretty_N. destruct (decide _) as [Hz|Hz].
  - cbn. f_equal. lia.
  - assert (Hp : forall s, s <> EmptyString -> ParseUint s = parseDigits 0 s) by (by intros []).
    rewrite Hp; [rewrite parse_pretty by lia; cbn; f_equal; lia|].
    rewrite pretty_N_go_step by lia. by apply pretty_N_go_cons.
Qed.

(** ** The state after a log *)

(** Text that JSON keeps as it is. *)
Fixpoint plainText (s : string) : bool :=
  match s with EmptyString => true | String c s => (N_of_ascii c <? 128)%N && plainText s end.

Definition plainUpdate (u : KvUpdate) : Prop :=
  plainText (u_Op u) = true /\ plainText (p_Key (u_KVPair u)) = true /\
  plainText (p_Value (u_KVPair u)) = true.

Class MetaJSONSpec `{MetaJSON} : Prop := {
  Update_json : forall u b, plainUpdate u -> marshalUpdate u = OK b -> unmarshalUpdate b = OK u;
  marshalUpdate_no_panic : forall u p, marshalUpdate u <> PANIC p;
  unmarshalUpdate_no_panic : forall b p, unmarshalUpdate b <> PANIC p;
  unmarshalPair_no_panic : forall b q p, unmarshalPair b q <> PANIC p;
  marshalLease_no_panic : forall l p, marshalLease l <> PANIC p;
  unmarshalLease_no_panic : forall s p, unmarshalLease s <> PANIC p;
  marshalLease_plain : forall l s, marshalLease l = OK s -> plainText s = true /\ unmarshalLease s = OK l
}.

Section log.
Context `{MetaJSONSpec}.

Definition stepEntry (m : MapStore) (e : smEntry) : MapStore :=
  match updateEntry e m with Ret _ m' | Err _ m' => m' | Panic _ => m end.

Definition stateOf (log : list smEntry) : MapStore := foldl stepEntry ∅ log.

(** The log of a shard: indexes are positive and grow. *)
Definition ordered (log : list smEntry) : Prop :=
  StronglySorted Z.lt (0 :: (sme_Index <$> log)).

Definition decodes (e : smEntry) (u : KvUpdate) : Prop := unmarshalUpdate (sme_Cmd e) = OK u.

(** The pair the update is about, as the state machine stores it. *)
Definition pairOf (e : smEntry) (u : KvUpdate) : Pair :=
  mkPair (p_Key (u_KVPair u)) (p_Value (u_KVPair u)) (sme_Index e).

(** The version the update asks for is there, or the key is not. *)
Definition accepted (m : MapStore) (u : KvUpdate) : Prop :=
  forall p, m !! p_Key (u_KVPair u) = Some p -> p_Ver p = p_Ver (u_KVPair u).

#[export] Instance accepted_dec m u : Decision (accepted m u).
Proof.
  unfold accepted. destruct (m !! p_Key (u_KVPair u)) as [p|];
    [destruct (decide (p_Ver p = p_Ver (u_KVPair u)))|];
    [left|right|left]; naive_solver.
Defined.

Definition applyOp (e : smEntry) (u : KvUpdate) (m : MapStore) : MapStore :=
  if (u_Op u =? UpdateOpSet)%string then <[p_Key (u_KVPair u) := pairOf e u]> m
  else if (u_Op u =? UpdateOpDelete)%string then delete (p_Key (u_KVPair u)) m
  else m.

(** What an entry does and answers. *)
Lemma updateEntry_eq e u m :
  decodes e u ->
  exists d, updateEntry e m =
    if decide (accepted m u) then Ret (mkResult ResultCodeSuccess d) (applyOp e u m)
    else Ret (mkResult ResultCodeVersionMismatch d) m.
Proof.
  intros Hu. unfold updateEntry, readr, gets, mbind, M_bind, ret, MapStore_Get. rewrite Hu.
  assert (Hop : forall r : Result, (_ ← (if (u_Op u =? UpdateOpSet)%string
       then MapStore_Set (p_Key (u_KVPair u)) (p_Value (u_KVPair u)) (sme_Index e) ;; skip
       else if (u_Op u =? UpdateOpDelete)%string
       then MapStore_Delete (p_Key (u_KVPair u)) (sme_Index e) else skip); ret r) m = Ret r (applyOp e u m)).
  { intros r. unfold applyOp. destruct (u_Op u =? UpdateOpSet)%string; [done|].
    by destruct (u_Op u =? UpdateOpDelete)%string. }
  destruct (m !! p_Key (u_KVPair u)) as [p|] eqn:Hp.
  - destruct (Z.eqb_spec (p_Ver p) (p_Ver (u_KVPair u))) as [Hv|Hv]; cbn [negb].
    + eexists. rewrite decide_True by (intros p' ?; congruence). apply Hop.
    + eexists. by rewrite decide_False by (intros Ha; by apply Hv, Ha).
  - eexists. rewrite decide_True by (intros p' ?; congruence). apply Hop.
Qed.

Lemma stepEntry_eq e u m :
  decodes e u -> stepEntry m e = if decide (accepted m u) then applyOp e u m else m.
Proof.
  intros Hu. unfold stepEntry. destruct (updateEntry_eq e u m Hu) as [d ->]. by destruct decide.
Qed.

Lemma stepEntry_bad e m : (forall u, ~ decodes e u) -> stepEntry m e = m.
Proof.
  intros Hn. unfold stepEntry, updateEntry, readr, mbind, M_bind.
  destruct (unmarshalUpdate (sme_Cmd e)) as [u|err|p] eqn:E; [by destruct (Hn u)|done..].
Qed.

(** A batch of entries is applied one by one. *)
Lemma LFSM_Update_step entries m es m' :
  LFSM_Update entries m = Ret es m' -> m' = foldl stepEntry m entries /\ length es = length entries.
Proof.
  revert m es. induction entries as [|e entries IH]; intros m es; cbn; [by intros [= <- <-]|].
  unfold mbind, M_bind, stepEntry at 2. destruct (updateEntry e m) as [r m1|err m1|p]; [|done..].
  destruct (LFSM_Update entries m1) as [es1 m2|err m2|p] eqn:E; [|done..].
  intros [= <- <-]. destruct (IH _ _ E) as [-> Hlen]. cbn. by rewrite Hlen.
Qed.

Lemma stateOf_snoc log e : stateOf (log ++ [e]) = stepEntry (stateOf log) e.
Proof. unfold stateOf. by rewrite foldl_app. Qed.

Lemma decodes_dec e : (exists u, decodes e u) \/ forall u, ~ decodes e u.
Proof. unfold decodes. destruct unmarshalUpdate; [left; eauto|right; done..]. Qed.

Lemma ordered_app log log' : ordered (log ++ log') -> ordered log.
Proof.
  unfold ordered. rewrite fmap_app. change (0 :: _ ++ _) with ((0 :: (sme_Index <$> log)) ++ (sme_Index <$> log')).
  apply StronglySorted_app_1_l.
Qed.

Lemma ordered_pos log e : ordered log -> e ∈ log -> 0 < sme_Index e.
Proof.
  intros Ho He. apply StronglySorted_inv in Ho as [_ Ho]. rewrite Forall_forall in Ho.
  by apply Ho, list_elem_of_fmap_2.
Qed.

Lemma ordered_inj log e e' :
  ordered log -> e ∈ log -> e' ∈ log -> sme_Index e = sme_Index e' -> e = e'.
Proof.
  intros [Ho _]%StronglySorted_inv. induction log as [|x log IH]; [by intros []%elem_of_nil|].
  cbn in Ho. apply StronglySorted_inv in Ho as [Ho Hx]. rewrite Forall_forall in Hx.
  intros [->|He]%elem_of_cons [->|He']%elem_of_cons Hi; [done|..|by apply IH].
  - apply (list_elem_of_fmap_2 sme_Index), Hx in He'. lia.
  - apply (list_elem_of_fmap_2 sme_Index), Hx in He. lia.
Qed.

(** A stored pair was written by the entry whose index is its version. *)
Lemma stored_written log k p :
  stateOf log !! k = Some p ->
  exists e u, e ∈ log /\ decodes e u /\ u_Op u = UpdateOpSet /\ p = pairOf e u /\ p_Key p = k.
Proof.
  induction log as [|e log IH] using rev_ind; [done|]. rewrite stateOf_snoc. intros Hp.
  assert (Hkeep : stateOf log !! k = Some p ->
    exists e0 u, e0 ∈ log ++ [e] /\ decodes e0 u /\ u_Op u = UpdateOpSet /\ p = pairOf e0 u /\ p_Key p = k).
  { intros Hq. destruct (IH Hq) as (e0 & u0 & ? & ?). exists e0, u0. split; [set_solver|done]. }
  destruct (decodes_dec e) as [[u Hu]|Hn]; [|rewrite stepEntry_bad in Hp by done; auto].
  rewrite (stepEntry_eq e u) in Hp by done. destruct decide; [|auto].
  unfold applyOp in Hp. destruct (String.eqb_spec (u_Op u) UpdateOpSet) as [Hs|_].
  - apply lookup_insert_Some in Hp as [[<- <-]|[_ Hp]]; [|auto].
    exists e, u. split_and!; [set_solver|done..].
  - destruct String.eqb; [apply lookup_delete_Some in Hp as [_ Hp]|]; auto.
Qed.

(** A version stands for one value of a key. *)
Lemma version_value log log' k p p' :
  ordered log' -> log `prefix_of` log' -> stateOf log !! k = Some p -> stateOf log' !! k = Some p' ->
  p_Ver p = p_Ver p' -> p = p'.
Proof.
  intros Ho [rest ->] Hp Hp' Hv.
  apply stored_written in Hp as (e & u & He & Hu & _ & -> & _).
  apply stored_written in Hp' as (e' & u' & He' & Hu' & _ & -> & _). cbn in Hv.
  assert (e = e') as <- by (eapply ordered_inj; [exact Ho|set_solver|done|done]).
  unfold decodes in *. congruence.
Qed.

Lemma version_pos log k p : ordered log -> stateOf log !! k = Some p -> 0 < p_Ver p.
Proof.
  intros Ho Hp. apply stored_written in Hp as (e & u & He & _ & _ & -> & _). by eapply ordered_pos.
Qed.

(** ** The sequence of shard ids *)

(** What [incAndGetIDSeq] proposes after it read [m]. *)
Definition nextUpdate (m : MapStore) : option (Z * KvUpdate) :=
  let seq := default (mkPair sequenceKey (FormatUint tableIDsRangeStart) 0) (m !! sequenceKey) in
  match ParseUint (p_Value seq) with
  | OK n => Some (n +ᵤ 1, mkUpdate UpdateOpSet (mkPair sequenceKey (FormatUint (n +ᵤ 1)) (p_Ver seq)))
  | _ => None
  end.

(** The sequence is only written by [incAndGetIDSeq], on whatever state it read. *)
Definition seqDiscipline (log : list smEntry) : Prop :=
  forall pre e post u, log = pre ++ e :: post -> decodes e u -> p_Key (u_KVPair u) = sequenceKey ->
    exists seen n, seen `prefix_of` pre /\ nextUpdate (stateOf seen) = Some (n, u).

(** The ids written by the entries that set the sequence and were accepted, in the order
    of the log. *)
Definition issued (m : MapStore) (e : smEntry) : list string :=
  match unmarshalUpdate (sme_Cmd e) with
  | OK u => if decide (u_Op u = UpdateOpSet /\ p_Key (u_KVPair u) = sequenceKey /\ accepted m u)
            then [p_Value (u_KVPair u)] else []
  | _ => []
  end.

Fixpoint idsFrom (m : MapStore) (log : list smEntry) : list string :=
  match log with [] => [] | e :: log => issued m e ++ idsFrom (stepEntry m e) log end.

Definition ids (log : list smEntry) : list string := idsFrom ∅ log.

Lemma idsFrom_app m log log' : idsFrom m (log ++ log') = idsFrom m log ++ idsFrom (foldl stepEntry m log) log'.
Proof. revert m. induction log as [|e log IH]; intros m; cbn; [done|]. by rewrite IH, app_assoc. Qed.

Lemma ids_snoc log e : ids (log ++ [e]) = ids log ++ issued (stateOf log) e.
Proof. unfold ids. rewrite idsFrom_app. cbn. by rewrite app_nil_r. Qed.

Lemma seqDiscipline_prefix log e : seqDiscipline (log ++ [e]) -> seqDiscipline log.
Proof. intros Hd pre x post u -> Hu Hk. apply (Hd pre x (post ++ [e]) u); [by rewrite <- app_assoc|done..]. Qed.

Lemma stepEntry_other m e k :
  (forall u, decodes e u -> p_Key (u_KVPair u) <> k) -> stepEntry m e !! k = m !! k.
Proof.
  intros Hk. destruct (decodes_dec e) as [[u Hu]|Hn]; [|by rewrite stepEntry_bad].
  rewrite (stepEntry_eq e u) by done. destruct decide; [|done]. unfold applyOp.
  destruct String.eqb; [by rewrite lookup_insert_ne by (by apply Hk)|].
  destruct String.eqb; [by rewrite lookup_delete_ne by (by apply Hk)|done].
Qed.

Lemma nextUpdate_inv m n u :
  nextUpdate m = Some (n, u) -> u_Op u = UpdateOpSet /\ p_Key (u_KVPair u) = sequenceKey /\
    p_Value (u_KVPair u) = FormatUint n.
Proof. unfold nextUpdate. destruct ParseUint; [|done..]. by intros [= <- <-]. Qed.

(** A disciplined log never removes the sequence. *)
Lemma sequence_stays log rest :
  seqDiscipline (log ++ rest) -> is_Some (stateOf log !! sequenceKey) ->
  is_Some (stateOf (log ++ rest) !! sequenceKey).
Proof.
  intros Hd Hs. induction rest as [|e rest IH] using rev_ind; [by rewrite app_nil_r|].
  rewrite app_assoc in Hd |- *. specialize (IH (seqDiscipline_prefix _ _ Hd)). rewrite stateOf_snoc.
  destruct (decodes_dec e) as [[u Hu]|Hn]; [|by rewrite stepEntry_bad].
  destruct (decide (p_Key (u_KVPair u) = sequenceKey)) as [Hk|Hk].
  - destruct (Hd _ e [] u eq_refl Hu Hk) as (seen & n & _ & (Hop & _)%nextUpdate_inv).
    rewrite (stepEntry_eq e u) by done. destruct decide; [|done]. unfold applyOp. rewrite Hop. cbn.
    rewrite Hk, lookup_insert_eq. eauto.
  - rewrite stepEntry_other; [done|]. intros u' Hu'. unfold decodes in *. congruence.
Qed.

(** The ids handed out by a log, and the pair that remembers the last one. *)
Definition seqInv (log : list smEntry) (n : Z) : Prop :=
  0 <= n <= len log /\ ids log = FormatUint <$> seqZ (tableIDsRangeStart + 1) n /\
  match stateOf log !! sequenceKey with
  | None => n = 0
  | Some p => p_Value p = FormatUint (tableIDsRangeStart + n)
  end.

(** An accepted proposal read the pair that is still stored. *)
Lemma read_current log seen u k n :
  ordered log -> seqDiscipline log -> seen `prefix_of` log -> seqInv log n ->
  len log + tableIDsRangeStart + 1 < W64 ->
  nextUpdate (stateOf seen) = Some (k, u) -> accepted (stateOf log) u -> k = tableIDsRangeStart + n + 1.
Proof.
  intros Ho Hd Hs (Hn & _ & Hinv) Hlen Hk Ha. unfold tableIDsRangeStart in *.
  assert (Hnext : forall v, is_u64 v -> v + 1 < W64 -> forall w : string, w = FormatUint v ->
    match ParseUint w with OK x => x +ᵤ 1 = v + 1 | _ => False end).
  { intros v Hv Hb w ->. rewrite ParseUint_FormatUint by done. lia64. }
  pose proof (nextUpdate_inv _ _ _ Hk) as (_ & Hkey & _). unfold accepted in Ha. rewrite Hkey in Ha.
  unfold nextUpdate in Hk. destruct (stateOf log !! sequenceKey) as [p|] eqn:Hp.
  - specialize (Ha p eq_refl). pose proof (version_pos _ _ _ Ho Hp) as Hpos.
    assert (Hsp : stateOf seen !! sequenceKey = Some p).
    { destruct (stateOf seen !! sequenceKey) as [q|] eqn:Hq; cbn in Hk.
      - f_equal. eapply version_value; [exact Ho|exact Hs|exact Hq|exact Hp|].
        destruct ParseUint; [|done..]. injection Hk as _ <-. by cbn in Ha.
      - destruct ParseUint; [|done..]. injection Hk as _ <-. cbn in Ha. lia. }
    rewrite Hsp in Hk. cbn in Hk. specialize (Hnext (10000 + n) ltac:(unfold is_u64; lia) ltac:(lia) _ Hinv).
    destruct ParseUint; [|done..]. injection Hk as <- _. lia.
  - destruct Hs as [rest ->]. assert (Hq : stateOf seen !! sequenceKey = None).
    { apply eq_None_not_Some. intros Hq. apply (sequence_stays _ rest Hd) in Hq as [q Hq]. congruence. }
    rewrite Hq in Hk. cbn in Hk. specialize (Hnext 10000 ltac:(unfold is_u64; lia) ltac:(lia) _ eq_refl).
    change (default _ _) with (mkPair sequenceKey (FormatUint 10000) 0) in Hk. cbn [p_Value] in Hk.
    destruct ParseUint; [|done..]. injection Hk as <- _. lia.
Qed.

Lemma seqInv_log log :
  ordered log -> seqDiscipline log -> len log + tableIDsRangeStart < W64 -> exists n, seqInv log n.
Proof.
  induction log as [|e log IH] using rev_ind; intros Ho Hd Hlen.
  { exists 0. split_and!; [unfold len; cbn; lia..|done|done]. }
  assert (Hl : len (log ++ [e]) = len log + 1) by (unfold len; rewrite length_app; cbn; lia).
  destruct (IH (ordered_app _ _ Ho) (seqDiscipline_prefix _ _ Hd) ltac:(lia)) as [n Hinv].
  pose proof Hinv as (Hn & Hids & Hst). unfold seqInv. rewrite ids_snoc, stateOf_snoc. unfold issued.
  destruct (unmarshalUpdate (sme_Cmd e)) as [u|err|p] eqn:Hu.
  2, 3: exists n; rewrite app_nil_r, stepEntry_bad by (intros u; unfold decodes; congruence);
    (split_and!; [lia..|done|done]).
  destruct (decide (p_Key (u_KVPair u) = sequenceKey)) as [Hk|Hk].
  2: { exists n. rewrite decide_False, app_nil_r by tauto. rewrite stepEntry_other;
         [split_and!; [lia..|done|done]|]. intros u' Hu'. unfold decodes in Hu'. congruence. }
  rewrite (stepEntry_eq e u) by done. destruct (decide (accepted (stateOf log) u)) as [Ha|Ha].
  2: { exists n. rewrite decide_False, app_nil_r by tauto. split_and!; [lia..|done|done]. }
  destruct (Hd log e [] u eq_refl Hu Hk) as (seen & k & Hseen & Hnext).
  pose proof (nextUpdate_inv _ _ _ Hnext) as (Hop & _ & Hv).
  assert (k = tableIDsRangeStart + n + 1) as ->.
  { eapply (read_current log seen); [by eapply ordered_app|by eapply seqDiscipline_prefix|done|done|lia|done..]. }
  exists (n + 1). rewrite decide_True by done. split_and!; [lia..| |].
  - rewrite Hids, Hv, seqZ_app, fmap_app by lia. f_equal. change (seqZ (tableIDsRangeStart + 1 + n) 1) with [0 + (tableIDsRangeStart + 1 + n)]. cbn [fmap list_fmap]. do 2 f_equal. lia.
  - unfold applyOp. rewrite Hop, String.eqb_refl, Hk, lookup_insert_eq. cbn [p_Value pairOf]. rewrite Hv. f_equal. lia.
Qed.

End log.

(** ** The clients of the store *)

(** What the code relies on in the node that runs the shard of the store.  A proposal
    that completes was committed after everything committed when it was made, possibly
    after and before entries of other nodes, and has the result of the state machine; a
    read sees the state after some part of the log. *)
Class NodeHostSpec (W : Type) `{MetaJSON} `{NodeHost W} : Type := {
  committed : W -> list smEntry;
  committed_ordered : forall w, ordered (committed w);
  SyncPropose_spec : forall cmd w,
    wp no_panic (SyncPropose cmd)
      (fun r w' => exists mid e after, committed w' = mid ++ e :: after /\
         committed w `prefix_of` mid /\ sme_Cmd e = cmd /\
         exists m, updateEntry e (stateOf mid) = Ret r m)
      (fun _ w' => committed w `prefix_of` committed w') w;
  StaleRead_spec : forall q w,
    wp no_panic (StaleRead q)
      (fun a w' => committed w `prefix_of` committed w' /\
         exists seen, seen `prefix_of` committed w' /\ LFSM_Lookup (stateOf seen) q = OK a)
      (fun e w' => committed w `prefix_of` committed w' /\
         (e = ErrKeyNotExist ->
          exists seen, seen `prefix_of` committed w' /\ LFSM_Lookup (stateOf seen) q = ERR e)) w
}.

Lemma pretty_N_go_plain (x : N) s : plainText s = true -> plainText (pretty_N_go x s) = true.
Proof.
  revert s. induction (N.lt_wf_0 x) as [x _ IH]. intros s Hs.
  destruct (decide (x = 0%N)) as [->|Hz]; [by rewrite pretty_N_go_0|].
  rewrite pretty_N_go_step by lia. apply IH; [apply N.div_lt; lia|]. cbn. rewrite Hs, andb_true_r.
  unfold pretty_N_char. by repeat case_match.
Qed.

Lemma FormatUint_plain n : plainText (FormatUint n) = true.
Proof. unfold FormatUint, pretty, pretty_N. destruct decide; [done|]. by apply pretty_N_go_plain. Qed.

Lemma FormatUint_inj n n' : is_u64 n -> is_u64 n' -> FormatUint n = FormatUint n' -> n = n'.
Proof.
  intros Hn Hn' E. apply ParseUint_FormatUint in Hn, Hn'. rewrite E in Hn. congruence.
Qed.

Section clients.
Context {W : Type} {HJ : MetaJSON} {HJS : MetaJSONSpec} {HN : NodeHost W} {HNS : NodeHostSpec W}.

Abbreviation extends w w' := (committed w `prefix_of` committed w').

Lemma RaftStore_Get_spec key w :
  wp no_panic (RaftStore_Get key)
    (fun p w' => extends w w' /\ exists seen, seen `prefix_of` committed w' /\ stateOf seen !! key = Some p)
    (fun e w' => extends w w' /\
       (e = ErrKeyNotExist -> exists seen, seen `prefix_of` committed w' /\ stateOf seen !! key = None)) w.
Proof.
  apply wp_bind. eapply wp_mono; [apply StaleRead_spec| |].
  - intros a w' (He & seen & Hs & Hl). cbn in Hl. unfold MapStore_Get in Hl.
    destruct (stateOf seen !! key) as [p|] eqn:Hp; [|done]. injection Hl as <-.
    apply wp_ret. eauto.
  - intros e w' (He & Hn). split; [done|]. intros Hx. destruct (Hn Hx) as (seen & Hs & Hl).
    exists seen. split; [done|]. cbn in Hl. unfold MapStore_Get in Hl. by destruct (stateOf seen !! key).
Qed.

(** An update that is not rejected was accepted where it was committed. *)
Definition wrote (u : KvUpdate) (w w' : W) : Prop :=
  exists mid e after, committed w' = mid ++ e :: after /\ committed w `prefix_of` mid /\
    decodes e u /\ accepted (stateOf mid) u.

Lemma propose_update u w :
  plainUpdate u ->
  wp no_panic (b ← readr (fun _ => marshalUpdate u); SyncPropose b)
    (fun r w' => extends w w' /\ (Value r <> ResultCodeVersionMismatch -> wrote u w w'))
    (fun _ w' => extends w w') w.
Proof.
  intros Hp. apply wp_bind, wp_readr. destruct (marshalUpdate u) as [b|e|p] eqn:Hb;
    [|done|by apply marshalUpdate_no_panic in Hb].
  eapply wp_mono; [apply SyncPropose_spec| |done].
  intros r w' (mid & e & after & Hc & Hpre & Hcmd & m & Hm).
  split; [rewrite Hc; by apply prefix_app_r|]. intros Hv. exists mid, e, after. split_and!; [done..| |].
  - unfold decodes. rewrite Hcmd. by apply Update_json.
  - destruct (updateEntry_eq e u (stateOf mid)) as [d E];
      [unfold decodes; rewrite Hcmd; by apply Update_json|].
    rewrite Hm in E. destruct decide; [done|]. by injection E as -> _.
Qed.

Lemma RaftStore_Set_spec key value ver w :
  plainText key = true -> plainText value = true ->
  wp no_panic (RaftStore_Set key value ver)
    (fun _ w' => wrote (mkUpdate UpdateOpSet (mkPair key value ver)) w w')
    (fun _ w' => extends w w') w.
Proof.
  intros Hk Hv. pose proof (propose_update (mkUpdate UpdateOpSet (mkPair key value ver)) w) as Hp.
  unfold RaftStore_Set. unfold wp, mbind, M_bind in Hp |- *. cbn zeta.
  destruct (readr _ w) as [b w0|e w0|p]; [|by apply Hp..].
  destruct (SyncPropose b w0) as [r w1|e w1|p]; [|by apply Hp..].
  destruct Hp as [He Hw]; [done|]. unfold readr.
  destruct unmarshalPair as [q|e|p] eqn:Hq; [|done|by apply unmarshalPair_no_panic in Hq].
  destruct (Z.eqb_spec (Value r) ResultCodeVersionMismatch); [done|]. by apply Hw.
Qed.

Lemma RaftStore_Delete_spec key ver w :
  plainText key = true ->
  wp no_panic (RaftStore_Delete key ver)
    (fun _ w' => wrote (mkUpdate UpdateOpDelete (mkPair key "" ver)) w w')
    (fun _ w' => extends w w') w.
Proof.
  intros Hk. pose proof (propose_update (mkUpdate UpdateOpDelete (mkPair key "" ver)) w) as Hp.
  unfold RaftStore_Delete. unfold wp, mbind, M_bind in Hp |- *.
  destruct (readr _ w) as [b w0|e w0|p]; [|by apply Hp..].
  destruct (SyncPropose b w0) as [r w1|e w1|p]; [|by apply Hp..].
  destruct Hp as [He Hw]; [done|].
  destruct (Z.eqb_spec (Value r) ResultCodeVersionMismatch); [done|]. by apply Hw.
Qed.

Lemma committed_mid w mid e after : committed w = mid ++ e :: after -> ordered mid.
Proof. intros Hc. eapply ordered_app. rewrite <- Hc. apply committed_ordered. Qed.

(** A write with the version of a pair that was read replaces that pair, or nothing. *)
Lemma accepted_read log seen key p u q :
  ordered log -> seen `prefix_of` log -> stateOf seen !! key = Some p ->
  p_Key (u_KVPair u) = key -> p_Ver (u_KVPair u) = p_Ver p -> accepted (stateOf log) u ->
  stateOf log !! key = Some q -> q = p.
Proof.
  intros Ho Hs Hp Hk Hv Ha Hq. symmetry. eapply version_value; [exact Ho|exact Hs|exact Hp|exact Hq|].
  rewrite <- Hv. symmetry. apply Ha. by rewrite Hk.
Qed.

(** A write with version 0 creates the key. *)
Lemma accepted_zero log u :
  ordered log -> p_Ver (u_KVPair u) = 0 -> accepted (stateOf log) u ->
  stateOf log !! p_Key (u_KVPair u) = None.
Proof.
  intros Ho Hv Ha. destruct (stateOf log !! _) as [q|] eqn:Hq; [|done].
  pose proof (version_pos _ _ _ Ho Hq). specialize (Ha q Hq). lia.
Qed.

Lemma parseDigits_no_panic n s p : parseDigits n s <> PANIC p.
Proof.
  revert n. induction s as [|c s IH]; intros n; cbn; [done|].
  destruct (_ || _); [done|]. destruct (W64 <=? _); [done|]. apply IH.
Qed.

Lemma ParseUint_no_panic s p : ParseUint s <> PANIC p.
Proof. destruct s; [done|]. apply parseDigits_no_panic. Qed.

Lemma seqDiscipline_snoc log seen e u n :
  seqDiscipline log -> seen `prefix_of` log -> decodes e u -> nextUpdate (stateOf seen) = Some (n, u) ->
  seqDiscipline (log ++ [e]).
Proof.
  intros Hd Hs Hu Hn pre x post u' E Hx Hk. destruct post as [|y post] using rev_ind.
  - apply app_inj_tail in E as [-> ->]. assert (u' = u) as -> by (unfold decodes in *; congruence). eauto.
  - clear IHpost. rewrite app_comm_cons, app_assoc in E. apply app_inj_tail in E as [-> _]. by eapply Hd.
Qed.

(** The proposal of [incAndGetIDSeq] is the one of the state it read. *)
Lemma incAndGetIDSeq_spec w :
  wp no_panic incAndGetIDSeq
    (fun n w' => exists seen u mid e after, nextUpdate (stateOf seen) = Some (n, u) /\
       committed w' = mid ++ e :: after /\ committed w `prefix_of` mid /\ seen `prefix_of` mid /\
       decodes e u /\ accepted (stateOf mid) u)
    (fun _ w' => extends w w') w.
Proof.
  assert (Hset : forall seen seq w1, extends w w1 -> seen `prefix_of` committed w1 ->
    default (mkPair sequenceKey (FormatUint tableIDsRangeStart) 0) (stateOf seen !! sequenceKey) = seq ->
    p_Key seq = sequenceKey ->
    wp no_panic (currSeq ← readr (fun _ => ParseUint (p_Value seq));
                 _ ← RaftStore_Set (p_Key seq) (FormatUint (currSeq +ᵤ 1)) (p_Ver seq); ret (currSeq +ᵤ 1))
      (fun n w' => exists seen u mid e after, nextUpdate (stateOf seen) = Some (n, u) /\
         committed w' = mid ++ e :: after /\ committed w `prefix_of` mid /\ seen `prefix_of` mid /\
         decodes e u /\ accepted (stateOf mid) u) (fun _ w' => extends w w') w1).
  { intros seen seq w1 He Hs Hseq Hk. apply wp_bind, wp_readr.
    destruct (ParseUint (p_Value seq)) as [c|err|p] eqn:Hc; [|done|by apply ParseUint_no_panic in Hc].
    apply wp_bind. eapply wp_mono; [apply RaftStore_Set_spec; [by rewrite Hk|apply FormatUint_plain]| |].
    - intros q w2 (mid & e & after & Hc2 & Hm & Hd & Ha). apply wp_ret.
      exists seen, (mkUpdate UpdateOpSet (mkPair (p_Key seq) (FormatUint (c +ᵤ 1)) (p_Ver seq))), mid, e, after.
      split_and!; [|done|by etrans|by etrans|done|done].
      unfold nextUpdate. by rewrite Hseq, Hc, Hk.
    - intros err w2 H2. by etrans. }
  unfold incAndGetIDSeq. apply wp_bind, wp_try. eapply wp_mono; [apply RaftStore_Get_spec| |].
  - intros p w1 (He & seen & Hs & Hp). apply wp_bind, wp_ret. eapply (Hset seen); [done|done|by rewrite Hp|].
    apply stored_written in Hp as (? & ? & ? & ? & ? & ? & ?). done.
  - intros err w1 (He & Hn). apply wp_bind. case_bool_decide as Hx; [|done]. apply wp_ret.
    destruct (Hn Hx) as (seen & Hs & Hp). eapply (Hset seen); [done|done|by rewrite Hp|done].
Qed.

(** C16: shard ids are handed out once.  As long as only this operation writes the
    sequence, an id returned by [incAndGetIDSeq] is the successor of all ids handed out
    by the entries committed before its own, so no other node ever gets the same one,
    even though the nodes read stale states and their proposals interleave; the
    operation itself keeps the discipline. *)
Theorem ids_unique w :
  wp no_panic incAndGetIDSeq
    (fun n w' => exists mid e after,
       committed w' = mid ++ e :: after /\ committed w `prefix_of` mid /\
       (seqDiscipline mid -> len mid + tableIDsRangeStart + 1 < W64 ->
        seqDiscipline (mid ++ [e]) /\ ids (mid ++ [e]) = ids mid ++ [FormatUint n] /\
        ids mid = FormatUint <$> seqZ (tableIDsRangeStart + 1) (n - (tableIDsRangeStart + 1)) /\
        FormatUint n ∉ ids mid))
    (fun _ w' => committed w `prefix_of` committed w') w.
Proof.
  eapply wp_mono; [apply incAndGetIDSeq_spec| |done].
  intros n w' (seen & u & mid & e & after & Hn & Hc & Hpre & Hs & Hu & Ha).
  exists mid, e, after. split_and!; [done..|]. intros Hd Hlen. pose proof (committed_mid _ _ _ _ Hc) as Ho.
  destruct (seqInv_log mid Ho Hd ltac:(lia)) as [k Hk].
  pose proof (read_current mid seen u n k Ho Hd Hs Hk Hlen Hn Ha) as ->. destruct Hk as (Hk & Hids & _).
  pose proof (nextUpdate_inv _ _ _ Hn) as (Hop & Hkey & Hv). split_and!.
  - by eapply seqDiscipline_snoc.
  - rewrite ids_snoc. unfold issued. rewrite Hu, decide_True by done. by rewrite Hv.
  - rewrite Hids. f_equal. f_equal. lia.
  - rewrite Hids. intros (x & Hx & Hin)%list_elem_of_fmap. apply elem_of_seqZ in Hin.
    unfold tableIDsRangeStart in *. apply FormatUint_inj in Hx; unfold is_u64; lia.
Qed.

(** ** Deleting a table *)

Lemma plainText_app s s' : plainText (s +:+ s') = plainText s && plainText s'.
Proof.
  induction s as [|c s IH]; [done|]. change (String c s +:+ s') with (String c (s +:+ s')).
  cbn [plainText]. by rewrite IH, andb_assoc.
Qed.

Lemma storedTableName_plain name : plainText name = true -> plainText (storedTableName name) = true.
Proof. intros Hn. unfold storedTableName. by rewrite plainText_app, Hn. Qed.

Lemma storedTableName_sequence name : storedTableName name = sequenceKey -> name = "sys/idseq".
Proof. unfold storedTableName, sequenceKey. intros [= E]. exact E. Qed.

(** An entry about another key. *)
Lemma seqDiscipline_other log e :
  (forall u, decodes e u -> p_Key (u_KVPair u) <> sequenceKey) ->
  seqDiscipline log -> seqDiscipline (log ++ [e]) /\ ids (log ++ [e]) = ids log.
Proof.
  intros He Hd. split.
  - intros pre x post u E Hu Hk. destruct post as [|y post _] using rev_ind.
    + apply app_inj_tail in E as [-> ->]. by apply He in Hu.
    + rewrite app_comm_cons, app_assoc in E. apply app_inj_tail in E as [-> _]. by eapply Hd.
  - rewrite ids_snoc. unfold issued. destruct (unmarshalUpdate (sme_Cmd e)) as [u|err|p] eqn:Hu;
      [|by rewrite app_nil_r..]. rewrite decide_False, app_nil_r; [done|]. intros (_ & Hk & _). by apply He in Hu.
Qed.

(** The deletion is committed where the table was as it was read. *)
Lemma DeleteTable_spec name w :
  plainText name = true ->
  wp no_panic (DeleteTable name)
    (fun _ w' => exists ver, wrote (mkUpdate UpdateOpDelete (mkPair (storedTableName name) "" ver)) w w')
    (fun _ w' => extends w w') w.
Proof.
  intros Hname. unfold DeleteTable. apply wp_bind, wp_try. eapply wp_mono; [apply RaftStore_Get_spec| |].
  - intros p w1 (He & _). eapply wp_mono; [by apply RaftStore_Delete_spec, storedTableName_plain| |].
    + intros [] w2 (mid & e & after & Hc & Hm & Hd & Ha). exists (p_Ver p), mid, e, after.
      split_and!; [done|by etrans|done|done].
    + intros err w2 H2. by etrans.
  - intros err w1 (He & _). by case_bool_decide.
Qed.

(** An id that was handed out is handed out again once the sequence is gone. *)
Lemma reissued log e u e' n v :
  decodes e u -> u_Op u = UpdateOpDelete -> p_Key (u_KVPair u) = sequenceKey -> accepted (stateOf log) u ->
  nextUpdate (stateOf (log ++ [e])) = Some (n, v) -> decodes e' v ->
  n = tableIDsRangeStart + 1 /\ ids (log ++ [e; e']) = ids log ++ [FormatUint (tableIDsRangeStart + 1)].
Proof.
  intros Hu Hop Hk Ha Hn Hv. change [e; e'] with ([e] ++ [e']). rewrite app_assoc.
  assert (Hgone : stateOf (log ++ [e]) !! sequenceKey = None).
  { rewrite stateOf_snoc, (stepEntry_eq e u), decide_True by done. unfold applyOp. rewrite Hop, Hk. cbn.
    by rewrite lookup_delete_eq. }
  pose proof (nextUpdate_inv _ _ _ Hn) as (Hop' & Hk' & Hval). unfold nextUpdate in Hn. rewrite Hgone in Hn.
  change (default _ None) with (mkPair sequenceKey (FormatUint tableIDsRangeStart) 0) in Hn.
  cbn [p_Value] in Hn. rewrite ParseUint_FormatUint in Hn by (by vm_compute).
  assert (n = tableIDsRangeStart + 1) as -> by (injection Hn as <- _; by vm_compute). split; [done|].
  rewrite !ids_snoc. unfold issued. rewrite Hu, decide_False by (rewrite Hop; by intros [? _]).
  rewrite Hv, decide_True, app_nil_r, Hval; [done|]. split_and!; [done..|].
  intros p Hp. rewrite Hk', Hgone in Hp. done.
Qed.

(** C39: deleting a table keeps the sequence of shard ids, unless the table is called
    [sys/idseq].  The names of tables are not checked, and the sequence is stored under
    the key of a table of that name.  Deleting any other table leaves the ids handed out
    and the discipline as they are; after [sys/idseq] was deleted, the next id handed
    out is the first one again, which then has been handed out twice if any had been. *)
Theorem DeleteTable_sequence name w :
  plainText name = true ->
  wp no_panic (DeleteTable name)
    (fun _ w' => exists mid e after,
       committed w' = mid ++ e :: after /\ committed w `prefix_of` mid /\
       (seqDiscipline mid -> len mid + tableIDsRangeStart < W64 ->
        (name <> "sys/idseq" -> seqDiscipline (mid ++ [e]) /\ ids (mid ++ [e]) = ids mid) /\
        (name = "sys/idseq" -> ids mid <> [] -> forall n u e',
           nextUpdate (stateOf (mid ++ [e])) = Some (n, u) -> decodes e' u ->
           n = tableIDsRangeStart + 1 /\ ids (mid ++ [e; e']) = ids mid ++ [FormatUint n] /\
           FormatUint n ∈ ids mid)))
    (fun _ w' => committed w `prefix_of` committed w') w.
Proof.
  intros Hname. eapply wp_mono; [by apply DeleteTable_spec| |done].
  intros [] w' (ver & mid & e & after & Hc & Hpre & Hu & Ha). exists mid, e, after.
  split_and!; [done..|]. intros Hd Hlen. split.
  - intros Hne. apply seqDiscipline_other; [|done]. intros u' Hu'.
    assert (u' = mkUpdate UpdateOpDelete (mkPair (storedTableName name) "" ver)) as ->
      by (unfold decodes in *; congruence). intros Hk. by apply Hne, storedTableName_sequence.
  - intros -> Hids n u e' Hn He'. destruct (reissued mid e _ e' n u Hu eq_refl eq_refl Ha Hn He') as [-> ->].
    split_and!; [done..|]. destruct (seqInv_log mid) as [k (Hk & Hseq & _)]; [by eapply committed_mid|done..|].
    rewrite Hseq in Hids |- *. apply list_elem_of_fmap_2, elem_of_seqZ.
    destruct (decide (k = 0)) as [->|]; [done|lia].
Qed.

(** The lease was written where the one before was the node's own or had run out. *)
Definition acquired (nodeID now until : Z) (name : string) (w w' : W) : Prop :=
  exists mid e after, committed w' = mid ++ e :: after /\ committed w `prefix_of` mid /\
    (exists p, stateOf (mid ++ [e]) !! leaseKey name = Some p /\
       unmarshalLease (p_Value p) = OK (mkLease nodeID until)) /\
    (forall p, stateOf mid !! leaseKey name = Some p ->
       exists l, unmarshalLease (p_Value p) = OK l /\ (l_ID l = nodeID \/ l_Until l < now)).

(** The lease was removed where it was the node's own. *)
Definition gaveBack (nodeID : Z) (name : string) (w w' : W) : Prop :=
  exists mid e after, committed w' = mid ++ e :: after /\ committed w `prefix_of` mid /\
    stateOf (mid ++ [e]) !! leaseKey name = None /\
    (forall p, stateOf mid !! leaseKey name = Some p ->
       exists l, unmarshalLease (p_Value p) = OK l /\ l_ID l = nodeID).

Lemma leaseKey_plain name : plainText name = true -> plainText (leaseKey name) = true.
Proof. intros Hn. unfold leaseKey. by rewrite plainText_app, storedTableName_plain. Qed.

Lemma LeaseTable_spec nodeID now now' name lease w :
  plainText name = true ->
  wp no_panic (LeaseTable nodeID now now' name lease)
    (fun _ w' => acquired nodeID now (now' + lease) name w w')
    (fun _ w' => extends w w') w.
Proof.
  intros Hname. pose proof (leaseKey_plain name Hname) as Hkey.
  assert (Hset : forall ver w1, extends w w1 ->
    (forall mid, committed w1 `prefix_of` mid -> ordered mid -> forall v,
       accepted (stateOf mid) (mkUpdate UpdateOpSet (mkPair (leaseKey name) v ver)) ->
       forall p, stateOf mid !! leaseKey name = Some p ->
       exists l, unmarshalLease (p_Value p) = OK l /\ (l_ID l = nodeID \/ l_Until l < now)) ->
    wp no_panic (bts ← readr (fun _ => marshalLease (mkLease nodeID (now' + lease)));
                 _ ← RaftStore_Set (leaseKey name) bts ver; skip)
    (fun _ w' => acquired nodeID now (now' + lease) name w w')
    (fun _ w' => extends w w') w1).
  { intros ver w1 He Hfree. apply wp_bind, wp_readr.
    destruct marshalLease as [bts|err|p] eqn:Hb; [|done|by apply marshalLease_no_panic in Hb].
    apply marshalLease_plain in Hb as [Hpl Hul].
    apply wp_bind. eapply wp_mono; [by apply RaftStore_Set_spec| |intros; by etrans].
    intros q w2 (mid & e & after & Hc & Hm & Hd & Ha). apply wp_ret.
    exists mid, e, after. split_and!; [done|by etrans| |].
    - eexists. rewrite stateOf_snoc, (stepEntry_eq e _ _ Hd), decide_True by done.
      unfold applyOp. cbn. by rewrite lookup_insert_eq.
    - eapply Hfree; [done|by eapply committed_mid|exact Ha]. }
  unfold LeaseTable. apply wp_bind, wp_try. eapply wp_mono; [apply RaftStore_Get_spec| |].
  - intros p w1 (He & seen & Hs & Hp). apply wp_bind, wp_ret. cbn beta iota. apply wp_bind, wp_readr.
    destruct (unmarshalLease (p_Value p)) as [l|err|x] eqn:Hl; [|done|by apply unmarshalLease_no_panic in Hl].
    destruct (_ || _) eqn:Hfree; [|done]. apply Hset; [done|]. intros mid Hm Ho v Ha q Hq.
    assert (q = p) as -> by (eapply (accepted_read mid seen); [done|by etrans|exact Hp|..|exact Ha|exact Hq]; done).
    exists l. split; [done|]. lia.
  - intros err w1 (He & Hn). apply wp_bind. case_bool_decide as Hx; [|done]. apply wp_ret. cbn beta iota.
    apply wp_bind, wp_readr. cbn. apply Hset; [done|]. intros mid Hm Ho v Ha q Hq.
    apply accepted_zero in Ha; [|done|done]. cbn in Ha. congruence.
Qed.

Lemma ReturnTable_spec nodeID name w :
  plainText name = true ->
  wp no_panic (ReturnTable nodeID name)
    (fun returned w' => returned = true -> gaveBack nodeID name w w')
    (fun _ w' => extends w w') w.
Proof.
  intros Hname. unfold ReturnTable. apply wp_bind, wp_try. eapply wp_mono; [apply RaftStore_Get_spec| |].
  - intros p w1 (He & seen & Hs & Hp). apply wp_bind, wp_readr.
    destruct (unmarshalLease (p_Value p)) as [l|err|x] eqn:Hl; [|done|by apply unmarshalLease_no_panic in Hl].
    destruct (Z.eqb_spec (l_ID l) nodeID) as [Hid|]; cbn [negb]; [|by apply wp_ret].
    apply wp_bind. eapply wp_mono; [by apply RaftStore_Delete_spec, leaseKey_plain| |intros; by etrans].
    intros [] w2 (mid & e & after & Hc & Hm & Hd & Ha). apply wp_ret. intros _.
    exists mid, e, after. split_and!; [done|by etrans| |].
    + rewrite stateOf_snoc, (stepEntry_eq e _ _ Hd), decide_True by done.
      unfold applyOp. cbn. by rewrite lookup_delete_eq.
    + intros q Hq. exists l. split; [|done]. assert (q = p) as -> by (eapply (accepted_read mid seen);
        [by eapply committed_mid|by etrans|exact Hp|..|exact Ha|exact Hq]; done). done.
  - intros err w1 (He & Hn). case_bool_decide; [by apply wp_ret|done].
Qed.

(** C17: a lease that is in force is not taken over.  When a node acquires the lease of a
    table, the lease it replaces, as of the state in which its write is applied, is its
    own or had run out by its clock; when it returns a lease, the one removed is its own.
    Names of tables are plain ASCII text. *)
Theorem lease_exclusive nodeID now now' name lease w :
  plainText name = true ->
  wp no_panic (LeaseTable nodeID now now' name lease)
    (fun _ w' => acquired nodeID now (now' + lease) name w w')
    (fun _ w' => committed w `prefix_of` committed w') w /\
  wp no_panic (ReturnTable nodeID name)
    (fun returned w' => returned = true -> gaveBack nodeID name w w')
    (fun _ w' => committed w `prefix_of` committed w') w.
Proof. intros Hp. split; [by apply LeaseTable_spec|by apply ReturnTable_spec]. Qed.

End clients.
