(* ===== verification/MetaSamples.v ===== *)
(** * A metadata store to compute with

    An injective codec for the pairs of the metadata store, a node that appends every
    proposal to one log and reads a state that lags behind, and runs of the operations
    of the table manager on them. *)
From S2P Require Import Prelude Wire Session RsmMembership Encoded TaskQueue Rsm Bytes MetaStore MetaStoreSpec.
From Stdlib Require Import Strings.Byte Strings.Ascii.
From stdpp Require Import pretty.
Open Scope Z_scope.

(** ** The codec *)

Fixpoint posText (p : positive) : string :=
  match p with
  | xH => EmptyString
  | xO p => String "0" (posText p)
  | xI p => String "1" (posText p)
  end.
Fixpoint textPos (s : string) : positive :=
  match s with
  | EmptyString => xH
  | String c s => if (c =? "0")%char then xO (textPos s) else xI (textPos s)
  end.

Lemma textPos_posText p : textPos (posText p) = p.
Proof. induction p as [p IH|p IH|]; cbn; by rewrite ?IH. Qed.

Lemma posText_plain p : plainText (posText p) = true.
Proof. by induction p. Qed.

Definition toBytes `{Countable A} (a : A) : bytes := posBytes (encode a).
Definition ofBytes `{Countable A} (b : bytes) : result A :=
  match decode (bytesPos b) with Some a => OK a | None => ERR (ErrMsg "invalid JSON") end.

Lemma ofBytes_toBytes `{Countable A} (a : A) : ofBytes (toBytes a) = OK a.
Proof. unfold ofBytes, toBytes. by rewrite bytesPos_posBytes, decode_encode. Qed.

#[export] Instance sampleJSON : MetaJSON := {|
  marshalUpdate u := OK (toBytes (u_Op u, p_Key (u_KVPair u), p_Value (u_KVPair u), p_Ver (u_KVPair u)));
  unmarshalUpdate b := '(o, k, v, n) ← ofBytes b; OK (mkUpdate o (mkPair k v n));
  marshalPair p := OK (toBytes (p_Key p, p_Value p, p_Ver p));
  unmarshalPair b _ := '(k, v, n) ← ofBytes b; OK (mkPair k v n);
  marshalTable t := OK (t_Name t +:+ FormatUint (t_ClusterID t));
  marshalLease l := OK (posText (encode (l_ID l, l_Until l)));
  unmarshalLease s := match decode (textPos s) with
                      | Some (i, u) => OK (mkLease i u)
                      | None => ERR (ErrMsg "invalid JSON")
                      end
|}.

#[export] Instance sampleJSON_spec : MetaJSONSpec.
Proof.
  assert (Hn : forall `{Countable A} b p, ofBytes (A := A) b <> PANIC p).
  { intros A ? ? b p. unfold ofBytes. by destruct decode. }
  split; cbn.
  - intros [o [k v n]] b _ [= <-]. by rewrite ofBytes_toBytes.
  - done.
  - intros b p. destruct (ofBytes b) as [[[[]]]| |] eqn:E; cbn; [done..|]. by apply Hn in E.
  - intros b q p. destruct (ofBytes b) as [[[]]| |] eqn:E; cbn; [done..|]. by apply Hn in E.
  - done.
  - intros s p. by destruct decode as [[]|].
  - intros [i u] s [= <-]. split; [apply posText_plain|]. by rewrite textPos_posText, decode_encode.
Qed.

(** ** The node *)

(** The commands proposed so far, and how many of them a read does not see. *)
Definition metaNode : Type := list bytes * nat.

Definition entriesOf (cmds : list bytes) : list smEntry :=
  imap (fun i cmd => mkSmEntry (Z.of_nat i + 1) cmd emptyResult) cmds.

#[export] Instance metaNode_ops : NodeHost metaNode := {|
  SyncPropose cmd := fun w =>
    match updateEntry (mkSmEntry (len w.1 + 1) cmd emptyResult) (stateOf (entriesOf w.1)) with
    | Ret r _ => Ret r (w.1 ++ [cmd], w.2)
    | _ => Err (ErrMsg "rejected") w
    end;
  StaleRead q := fun w =>
    match LFSM_Lookup (stateOf (entriesOf (take (length w.1 - w.2) w.1))) q with
    | OK a => Ret a w
    | ERR e => Err e w
    | PANIC p => Panic p
    end
|}.

Lemma entriesOf_snoc cmds cmd :
  entriesOf (cmds ++ [cmd]) = entriesOf cmds ++ [mkSmEntry (len cmds + 1) cmd emptyResult].
Proof. unfold entriesOf. rewrite imap_app. cbn. by rewrite Nat.add_0_r. Qed.

Lemma entriesOf_prefix n cmds : entriesOf (take n cmds) `prefix_of` entriesOf cmds.
Proof.
  rewrite <- (take_drop n cmds) at 2. unfold entriesOf. rewrite imap_app. by eexists.
Qed.

Lemma entriesOf_index cmds e : e ∈ entriesOf cmds -> 0 < sme_Index e <= len cmds.
Proof.
  intros (i & cmd & -> & Hi)%elem_of_lookup_imap. apply lookup_lt_Some in Hi. cbn. unfold len. lia.
Qed.

Lemma entriesOf_ordered cmds : ordered (entriesOf cmds).
Proof.
  induction cmds as [|cmd cmds IH] using rev_ind; [by repeat constructor|].
  unfold ordered in *. rewrite entriesOf_snoc, fmap_app, app_comm_cons. cbn [fmap list_fmap sme_Index].
  apply StronglySorted_app_2; [|done|by repeat constructor]. intros x y Hx ->%list_elem_of_singleton.
  apply elem_of_cons in Hx as [->|(e & -> & He)%list_elem_of_fmap]; [unfold len; lia|].
  apply entriesOf_index in He. lia.
Qed.

Lemma metaNode_propose cmd (w : metaNode) :
  wp no_panic (SyncPropose cmd)
    (fun r w' => exists mid e after, entriesOf w'.1 = mid ++ e :: after /\
       entriesOf w.1 `prefix_of` mid /\ sme_Cmd e = cmd /\
       exists m, updateEntry e (stateOf mid) = Ret r m)
    (fun _ w' => entriesOf w.1 `prefix_of` entriesOf w'.1) w.
Proof.
  unfold wp. cbn. destruct updateEntry as [r m|e m|p] eqn:E; [|done..].
  exists (entriesOf w.1), (mkSmEntry (len w.1 + 1) cmd emptyResult), [].
  split_and!; [apply entriesOf_snoc|done|done|by exists m].
Qed.

Lemma metaNode_read q (w : metaNode) :
  wp no_panic (StaleRead q)
    (fun a w' => entriesOf w.1 `prefix_of` entriesOf w'.1 /\
       exists seen, seen `prefix_of` entriesOf w'.1 /\ LFSM_Lookup (stateOf seen) q = OK a)
    (fun e w' => entriesOf w.1 `prefix_of` entriesOf w'.1 /\
       (e = ErrKeyNotExist ->
        exists seen, seen `prefix_of` entriesOf w'.1 /\ LFSM_Lookup (stateOf seen) q = ERR e)) w.
Proof.
  unfold wp. cbn. destruct LFSM_Lookup as [a|e|p] eqn:E.
  - split; [done|]. eexists. split; [apply entriesOf_prefix|exact E].
  - split; [done|]. intros _. eexists. split; [apply entriesOf_prefix|exact E].
  - destruct q; cbn in E; [done|]. unfold MapStore_Get in E. by destruct (_ !! _).
Qed.

#[export] Instance metaNode_spec : NodeHostSpec metaNode := {|
  committed w := entriesOf w.1;
  committed_ordered w := entriesOf_ordered w.1;
  SyncPropose_spec := metaNode_propose;
  StaleRead_spec := metaNode_read
|}.

(** ** Runs *)

Definition outcomeOf {S A} (o : outcome S A) : option A :=
  match o with Ret a _ => Some a | _ => None end.

Lemma ids_unique_witness :
  outcomeOf (incAndGetIDSeq (([], 0%nat) : metaNode)) = Some 10001 /\
  wp no_panic incAndGetIDSeq
    (fun n w' => exists mid e after, committed w' = mid ++ e :: after /\
       (seqDiscipline mid -> len mid + tableIDsRangeStart + 1 < W64 -> FormatUint n ∉ ids mid))
    (fun _ _ => True) (([], 0%nat) : metaNode) /\ seqDiscipline [].
Proof.
  split_and!; [by vm_compute| |by intros []].
  eapply wp_mono; [exact (ids_unique (W := metaNode) ([], 0%nat))| |done].
  intros n w' (mid & e & after & Hc & _ & Hu). exists mid, e, after. split; [done|].
  intros Hd Hl. by apply (Hu Hd Hl).
Defined.

Lemma lease_exclusive_witness :
  plainText "t" = true /\
  wp no_panic (LeaseTable 1 5 5 "t" 10) (fun _ w' => acquired 1 5 15 "t" ([], 0%nat) w')
    (fun _ w' => committed (W := metaNode) ([], 0%nat) `prefix_of` committed w') ([], 0%nat).
Proof.
  split; [done|]. exact (proj1 (lease_exclusive (W := metaNode) 1 5 5 "t" 10 ([], 0%nat) eq_refl)).
Defined.

(** Two nodes: the second one reads a state without the lease of the first, and its write
    is rejected; once the lease ran out it gets it. *)
Lemma lease_runs :
  match LeaseTable 1 5 5 "t" 10 ([], 1%nat) with
  | Ret _ w => LeaseTable 2 6 6 "t" 10 w = Err ErrVersionMismatch (w.1 ++ [toBytes
        ("set", leaseKey "t", posText (encode (2, 16)), 0)], 1%nat) /\
      LeaseTable 2 6 6 "t" 10 (w.1, 0%nat) = Err ErrLeaseNotAcquired (w.1, 0%nat) /\
      outcomeOf (LeaseTable 2 16 16 "t" 10 (w.1, 0%nat)) = Some tt
  | _ => False
  end.
Proof. by vm_compute. Qed.

(** The node after the first id was handed out. *)
Definition firstID : metaNode := ([toBytes (UpdateOpSet, sequenceKey, FormatUint 10001, 0)], 0%nat).

Lemma firstID_disciplined : seqDiscipline (committed firstID) /\ ids (committed firstID) = ["10001"].
Proof.
  split; [|by vm_compute].
  apply (seqDiscipline_snoc [] [] _ (mkUpdate UpdateOpSet (mkPair sequenceKey (FormatUint 10001) 0)) 10001);
    [by intros []|done|by vm_compute..].
Qed.

Lemma DeleteTable_sequence_witness :
  plainText "sys/idseq" = true /\ outcomeOf (DeleteTable "sys/idseq" firstID) = Some tt /\
  wp no_panic (DeleteTable "sys/idseq")
    (fun _ w' => exists mid e after, committed w' = mid ++ e :: after /\ committed firstID `prefix_of` mid /\
       (seqDiscipline mid -> len mid + tableIDsRangeStart < W64 -> ids mid <> [] -> forall n u e',
          nextUpdate (stateOf (mid ++ [e])) = Some (n, u) -> decodes e' u -> FormatUint n ∈ ids mid))
    (fun _ _ => True) firstID.
Proof.
  split_and!; [done|by vm_compute|].
  eapply wp_mono; [exact (DeleteTable_sequence (W := metaNode) "sys/idseq" firstID eq_refl)| |done].
  intros [] w' (mid & e & after & Hc & Hp & Hd). exists mid, e, after. split_and!; [done..|].
  intros H1 H2 H3 n u e' H4 H5. by destruct (proj2 (Hd H1 H2) eq_refl H3 n u e' H4 H5) as (_ & _ & ?).
Defined.

(** Two tables on one shard: the sequence was deleted in between. *)
Lemma delete_resets_ids :
  outcomeOf ((a ← createTable "a"; DeleteTable "sys/idseq" ;; b ← createTable "b";
              ret (t_ClusterID a, t_ClusterID b)) (([], 0%nat) : metaNode)) = Some (10001, 10001).
Proof. by vm_compute. Qed.
